(* ===== verification/_CoqProject ===== *)
-Q . S2P
Prelude.v
Usize.v
Helpers.v
Occupancy.v
Deque.v
Queue.v
Ranges.v
Consumption.v
Protocol.v
Exclusion.v
Batches.v
Schedule.v
Safety.v
Views.v
Races.v
Orderings.v
Spec.v
TaskRef.v
Assignment.v
Resolution.v
Delivery.v
Handover.v
Negotiation.v
Loom.v
System.v
Composition.v
Whole.v
Settlement.v
Threads.v
Consumers.v
Streams.v
Flags.v
Futures.v
Gather.v
Wakeups.v
Producer.v
Collectors.v
Background.v
Traits.v
Tasks.v
Clients.v
Runtime.v
Bench.v
Channels.v
Derive.v
Limits.v
