(* ===== verification/Prelude.v ===== *)
(** * stack-queue, verified

    The crate [stack-queue] batches tasks without allocating: every thread owns a
    [StackQueue], a circular buffer of [N] cells into which it writes tasks; the first
    task of a batch hands a guard over the batch to the executor; as long as the guard is
    unbounded, further tasks join its batch; bounding it closes the batch; whoever holds
    the bounded guard works on its cells from any thread and finally releases them. This
    library models that program from its Rust sources (under [src/crates/]) and proves
    what makes it correct, and where it is not.

    ** The program and the files that model it

    - [Prelude] (this file): the effect type [M] (return, undefined behaviour, fuel used
      up), its equations and tactics, lemmas shared by all files.
    - [Usize]: machine words at the pointer width of the target.
    - [Helpers]: [helpers.rs] and the constants of [lib.rs] and [queue.rs]. [QueueCfg] is
      the target with the const generic [N]; [ValidCfg] is what [StackQueue::default]
      asserts about [N]. [slot_word count phase] is a slot word by its meaning.
    - [Occupancy]: the occupancy word of a 64-bit target as eight counters ([lane]).
    - [Deque]: the waker deque (crossbeam) as a class with its laws; a list instance.
    - [Queue]: [queue.rs]. [Inner], [StackQueue], one definition per method, and [world],
      the queue with the memory its tasks point to and the events the rest of the program
      sees. [check_write_index] and [publish] are the common head and tail of [enqueue]
      and [push]. The [*_run] lemmas say what each operation does on every branch.
    - [Ranges], [Consumption]: [assignment.rs] over plain cells: [UnboundedRange],
      [BoundedRange], [BufferIter] and their destructors ([drop_unbounded],
      [drop_bounded], [drop_iter]).
    - [Protocol]: the queue under interleaving: one owner inside [push] or [enqueue]
      ([owner_pc]) and any number of guards ([guard]), one atomic access per step of
      [step]. Ghost fields number the tasks without wrap-around. [ranges_inv] is the
      invariant of slots, phases and ranges.
    - [Exclusion]: the invariant of the occupancy word and the buffer contents, for
      [SafeCfg] (64-bit target, [N] at most 1024, the default size).
    - [Batches]: the batches a run has handed out, as pieces of the list of tasks;
      [closed_ranges], the log of the words with which guards close their batches.
    - [Schedule]: an executable scheduler, sound for [step]; concrete interleavings.
    - [Safety]: the theorems of the interleaving model.
    - [Views], [Races], [Orderings]: the same interleavings with the memory orderings of the
      source. [Views] has the happens-before views of threads, of the slot and of the
      messages of the occupancy word; [wstep] of [Races] adds them to every action, with
      loads that may be stale, and [races_inv] is the invariant; [Orderings] has the
      theorems.
    - [Spec]: the contract of the queue without words, phases, regions or cells ([spec_step])
      and the abstraction of an interleaving state to it ([abs]).
    - [TaskRef]: [task.rs]: [TaskRef], [Receiver], [BatchedTask], with futures as a store
      of addresses, so that a pointer to a future that is gone is an undefined access.
    - [Assignment], [Resolution]: [PendingAssignment], [TaskAssignment]; how a batch is
      settled, task by task.
    - [Delivery]: polls, results, dropped futures and dropped assignments.
    - [Handover]: the accesses of [resolve_unchecked] interleaved with those of the
      destructor of the future or a poll, for one task.
    - [Negotiation]: the loom test [it_negotiates_receiver_drop]: its two threads, mutex and
      condition variable around the handover, as a step relation. [Loom]: the other two
      loom tests, over the coherence of one atomic.
    - [System], [Composition], [Whole]: the whole [TaskQueue]: [Protocol] and one handover per
      task over one memory. [perform] has a [move] for every access of the owner (the parts
      of [BatchedTask::poll]), of a guard and of the thread of a future (its destructor, its
      next poll). [possible] says when the code can come to a move; [timely] are the moves
      but for destructors that come after the cell of their task was reused and polls before
      the wake-up; a run makes moves that are both ([allowed]). A guard gives each task of
      its batch a [treatment]: it maps it, takes it from an iterator of results, passes by it,
      or drops it in its cell. [system_inv] is the
      invariant: a task that is not resolved is covered by a live batch, so that its cell is
      its own. [Composition] relates every move to at most one step of [Protocol].
    - [Settlement]: the functions of [Assignment] that settle a batch ([map],
      [resolve_with_iter], the destructor) run as moves of the guard that holds it.
    - [Threads]: a [TaskQueue] on an executor with any number of threads, as in the tests that
      drop futures: [turn] is a move of [System] the executor or the application comes to, and
      [work] what every turn but those of a spin loop decreases.
    - [Consumers], [Streams]: a queue of plain cells as a whole: its guards are values of
      [Consumption], its interleavings steps of [Protocol], its tasks consumed in order.
    - [Flags]: the same handover with the orderings of the flags: [flags_inv] over the views.
    - [Futures]: [BackgroundEnqueue], [background_process], [BatchReduce],
      [BatchCollect]; a batch that grows on an otherwise idle queue.
    - [Gather]: the interface [Gatherer] of the futures of a [BatchReducer], with its laws, and
      its two implementations, [BatchCollect] and [BatchReduce].
    - [Wakeups]: the books of an executor ([scheduled]): who is parked, who can be polled.
    - [Traits]: the trait implementations of [TaskRef]; what a [batch_process] can do with
      its assignment ([handler]: its methods, [with_blocking], dropping or forgetting it,
      panics) and how that ends ([handler_ending]); [TaskQueue] as a class and its law
      [Resolves], which every handler that completes satisfies.
    - [Tasks]: a batch of a [TaskQueue] alone on its queue, poll by poll.
    - [Clients], [Producer], [Collectors], [Background], [Runtime]: programs of the tests of
      [queue.rs]: tasks awaited one by one, a producer that drains a full queue, and executors
      that poll woken futures and run spawned jobs in any order: of a [Gatherer], of a
      [BackgroundQueue] (a class with the law [Handles]) and of a [TaskQueue].
    - [Bench], [Channels]: the benchmarks of [bencher]: those over [stack_queue], and those
      over the channels it is compared with, which are a class ([Channel]) or the [Deque].
    - [Derive]: the macro [local_queue] of [derive-stack-queue]; [syn] and [darling] are a
      class of parsers.
    - [Limits]: what happens beyond [SafeCfg] and when a waker is parked too late.

    ** What the theorems show

    - Exclusive access ([Safety]): in every interleaving the owner never writes into a
      live batch, live batches are disjoint and hold their tasks unchanged, the occupancy
      word counts the live batches of each region, so that the region check is exact, and
      the last release, and no other, wakes parked tasks; the words with which the guards
      close their batches are those of consecutive pieces of the tasks pushed. [push] is a
      run of that protocol and always returns.
    - Orderings ([Orderings]): the occupancy word orders everything the owner does with a
      cell after what earlier guards did with it; the first task of a batch is ordered too;
      the others are not, since the slot is relaxed.
    - Contract ([Spec]): every atomic step of a reachable state is invisible or one step of
      the abstract queue, where tasks join the one open batch or begin a new one, batches are
      closed, taken from in order and released, and a task is refused only while a batch lives.
    - Consumption ([Consumption]): slices, [to_vec], iteration and the destructors hand out
      or drop every task once and release the region once.
    - Delivery ([Delivery], [Handover]): every future gets the value of its own task and
      one wake-up; no interleaving of resolver and destructor touches freed memory, drops
      a value twice or spins for ever.
    - The whole queue ([Whole]): however owner, guards and futures interleave, every timely
      access is defined ([timely_moves_are_defined] says which accesses are not timely), and
      in the runs made of them every future gets the value of its own task, every task is
      resolved or still in a live batch, and a guard can always finish by itself, whatever it
      decides for each task; [poll], the loop body of [map] and the destructor of a future are runs of the
      moves, and so are whole settlements of a batch ([settlements_are_moves]).
    - Plain cells ([Streams]): what the guards of all batches yield is the tasks pushed, each
      once and in order, and every operation of a guard is a run of the moves.
    - Orderings of the flags ([Flags]): resolver and future never race on the value of a
      receiver, and on its waker only inside [wake_by_ref], which borrows it
      ([receiver_races_only_while_waking]); none of the orderings this takes can be weakened
      ([flag_orderings_needed]).
    - Reducers ([Futures]): one future per batch gets all its tasks, in order.
    - Handlers ([Traits]): whatever a [batch_process] does, its region is released once, unless
      it forgets its assignment or a closure panics over tasks with a destructor.
    - Several threads ([Threads]): however the threads interleave and whatever futures are
      dropped, no run is endless ([runs_end]), and when nobody has anything to do every task is
      resolved and every future that was not dropped has its own value ([runs_rest]). With at
      most [N] futures every destructor is timely and all futures are gone; with more the runs
      are those with timely destructors, and some futures may be left parked, which is the
      defect of [Limits].
    - Programs ([Producer], [Collectors], [Background], [Runtime]): on one executor thread every
      run ends, no turn is undefined, no wake-up is lost, and every task comes back, or is worked
      on, exactly once.
    - The macro ([Derive]) expands exactly for admissible sizes and the three traits, each with
      its own kind of cells.
    - Defects, as theorems: the relaxed slot lets a guard read a task without being ordered
      after its write ([relaxed_slot_races]); parked futures that are dropped use up the
      wake-ups of others ([aborted_futures_strand_the_next]); the waker of a receiver can be
      dropped while [wake_by_ref] borrows it ([waker_dropped_while_waking]); a poll before
      the wake-up reads uninitialised memory; a resolved future dropped late marks the next
      task of its cell as dropped, which is then never woken and whose destructor spins or
      drops a value never written ([stale_receivers_reach_undefined]); a panicking [map] drops
      tasks twice; [needs_drop] is asked of the wrong type; iteration loses a batch in which the counter wraps
      ([counter_wrap_loses_batch]); 256 live batches in the last region are counted as none
      ([last_region_overflow_overwrites]); regions overlap on 32-bit targets; a waker can be
      parked after the last release.

    ** Bounds and fuel

    Words are integers with explicit wrap-around. [wake_pending] gets fuel for every waker
    it may wake and every retry the deque may ask for ([contention]); [next_loop] for every
    task of its range; the spin loop of a destructor gets fuel in [drop_batched_task], and
    [Handover.spin_loop_ends] shows that it ends; [fill_and_drain] for two turns per task
    and one more, which [it_manages_occupancy] shows is enough. [SafeCfg] bounds [N] by 1024 so that a
    region has at most 128 cells and its 8-bit counter cannot overflow.

    ** What is not modelled

    In [System] a new future never gets the address of an earlier one, and its runs have only
    timely moves: [stale_receivers_reach_undefined] shows what a destructor does that comes to
    its cell after the cell was given to another task. A closure or an iterator that unwinds
    [map] or [resolve_with_iter] is in [Assignment], [Delivery] and [Traits] only. That a poll is ordered after the wake-up that
    caused it is up to the executor: [Flags] has it as a parameter. Relaxed stores to the slot
    cannot be reordered in [Races], whose words are changed by read-modify-writes in one order.
    Executors, wakers and timers are events or choices of a step relation. Panics appear only
    where user code unwinds a handler or the runtime drops a blocking closure.

    The programs of [Clients], [Producer], [Collectors], [Background] and [Runtime] run on one
    executor thread; those of [Threads] on any number, where the futures are those whose first
    poll one worker thread makes, since a queue belongs to a thread. A [batch_process] of a
    [BackgroundQueue] does not wait for anything. [LocalQueue] hands out the queue of the
    world: the thread-local storage and its lifetime ([async_local]), diesel and redis have no
    definitions. Of the benchmarks the tasks, loops and channels are modelled, not the
    measuring (criterion) nor the set-up of the tokio runtime. What is left of the sources
    without a definition are imports, bounds of traits, [Send] and [Sync] claims, and the
    accessors that only differ between loom and the standard library. *)
From stdpp Require Export base tactics numbers list gmap.

(** * The effect type of the development

    A computation threads a state [S] and can end in three ways: it returns, it
    performs an access that Rust leaves undefined, or the fuel of one of its loops
    is used up (the theorems exclude the last two where the code never reaches
    them). *)
Inductive undefined_behaviour : Type :=
| uninit_read          (* [MaybeUninit::assume_init*] on memory never written *)
| index_out_of_bounds  (* [get_unchecked] past the end of the buffer *)
| dangling_receiver    (* a receiver pointer whose pointee is gone *)
| unreachable_code.    (* [unreachable_unchecked] *)

Inductive outcome (A : Type) : Type :=
| Done (a : A)
| Undef (u : undefined_behaviour)
| OutOfFuel.
Arguments Done {_} _.
Arguments Undef {_} _.
Arguments OutOfFuel {_}.

Definition M (S A : Type) : Type := S → outcome (A * S).

(** Rust's [Result]. *)
Inductive result (A E : Type) : Type :=
| Ok (a : A)
| Err (e : E).
Arguments Ok {_ _} _.
Arguments Err {_ _} _.

#[export] Instance M_ret {S : Type} : MRet (M S) := λ A a s, Done (a, s).
#[export] Instance M_bind {S : Type} : MBind (M S) := λ A B k m s,
  match m s with
  | Done (a, s') => k a s'
  | Undef u => Undef u
  | OutOfFuel => OutOfFuel
  end.

Definition gets {S A : Type} (f : S → A) : M S A := λ s, Done (f s, s).
Definition modify {S : Type} (f : S → S) : M S unit := λ s, Done (tt, f s).
Definition undef {S A : Type} (u : undefined_behaviour) : M S A := λ _, Undef u.
Definition out_of_fuel {S A : Type} : M S A := λ _, OutOfFuel.

(** Reading a [MaybeUninit]: the bits are copied, the memory is left as it is. *)
Definition assume_init {S A : Type} (c : option A) : M S A :=
  match c with
  | Some a => mret a
  | None => undef uninit_read
  end.

(** [slice::get_unchecked] at one index. *)
Definition get_unchecked {S A : Type} (l : list A) (i : Z) : M S A :=
  if bool_decide (0 ≤ i)%Z then
    match l !! Z.to_nat i with
    | Some a => mret a
    | None => undef index_out_of_bounds
    end
  else undef index_out_of_bounds.

(** [slice::get_unchecked(start..end)]. *)
Definition get_unchecked_range {S A : Type} (l : list A) (start stop : Z) : M S (list A) :=
  if bool_decide (0 ≤ start ≤ stop ∧ stop ≤ Z.of_nat (length l))%Z
  then mret (take (Z.to_nat (stop - start)) (drop (Z.to_nat start) l))
  else undef index_out_of_bounds.

(** Run a body for every element of a list, in order ([for x in xs]). *)
Fixpoint for_each {S A : Type} (xs : list A) (body : A → M S unit) : M S unit :=
  match xs with
  | [] => mret tt
  | x :: xs => body x ;; for_each xs body
  end.

(** Run an [M S1] computation on a component of a larger state. *)
Definition zoom {S S1 A : Type} (get : S → S1) (put : S1 → S → S) (m : M S1 A) : M S A :=
  λ s, match m (get s) with
       | Done (a, s1) => Done (a, put s1 s)
       | Undef u => Undef u
       | OutOfFuel => OutOfFuel
       end.

(** [m] returns (no undefined access, enough fuel). *)
Definition returns {S A : Type} (m : M S A) (s : S) : Prop := ∃ a s', m s = Done (a, s').

(** * Equations of the monad *)
Create HintDb sq.
Create Rewrite HintDb sq_run.

Section monad.
Context {S : Type}.

Lemma run_ret {A : Type} (a : A) (s : S) : (mret a : M S A) s = Done (a, s).
Proof. reflexivity. Qed.

Lemma run_bind {A B : Type} (m : M S A) (k : A → M S B) s a s' :
  m s = Done (a, s') → (m ≫= k) s = k a s'.
Proof. intros H. unfold mbind, M_bind. by rewrite H. Qed.

Lemma run_bind_undef {A B : Type} (m : M S A) (k : A → M S B) s u :
  m s = Undef u → (m ≫= k) s = Undef u.
Proof. intros H. unfold mbind, M_bind. by rewrite H. Qed.

Lemma bind_done {A B : Type} (m : M S A) (k : A → M S B) s b s' :
  (m ≫= k) s = Done (b, s') → ∃ a s1, m s = Done (a, s1) ∧ k a s1 = Done (b, s').
Proof.
  unfold mbind, M_bind. destruct (m s) as [[a s1]| |] eqn:E; [|discriminate..].
  eauto.
Qed.

Lemma run_gets {A : Type} (f : S → A) (s : S) : gets f s = Done (f s, s).
Proof. reflexivity. Qed.

Lemma run_modify (f : S → S) (s : S) : modify f s = Done (tt, f s).
Proof. reflexivity. Qed.

Lemma run_get_unchecked {A : Type} (l : list A) (i : Z) a (s : S) :
  (0 ≤ i)%Z → l !! Z.to_nat i = Some a → get_unchecked l i s = Done (a, s).
Proof. intros Hi Hl. unfold get_unchecked. rewrite bool_decide_true by done. by rewrite Hl. Qed.

Lemma run_get_unchecked_range {A : Type} (l : list A) (b e : Z) (s : S) :
  (0 ≤ b ≤ e)%Z → (e ≤ Z.of_nat (length l))%Z →
  get_unchecked_range l b e s = Done (take (Z.to_nat (e - b)) (drop (Z.to_nat b) l), s).
Proof. intros. unfold get_unchecked_range. by rewrite bool_decide_true. Qed.

Lemma for_each_app {A : Type} (xs ys : list A) (body : A → M S unit) s s' :
  for_each xs body s = Done (tt, s') →
  for_each (xs ++ ys) body s = for_each ys body s'.
Proof.
  revert s. induction xs as [|x xs IH]; intros s H; [by injection H as ->|].
  simpl in H |- *. apply bind_done in H as ([] & s1 & Hx & H). rewrite (run_bind _ _ _ _ _ Hx). auto.
Qed.

Lemma run_zoom {S1 A : Type} (get : S → S1) put (m : M S1 A) s a s1 :
  m (get s) = Done (a, s1) → zoom get put m s = Done (a, put s1 s).
Proof. intros H. unfold zoom. by rewrite H. Qed.

Lemma zoom_done {S1 A : Type} (get : S → S1) put (m : M S1 A) s a s' :
  zoom get put m s = Done (a, s') → ∃ s1, m (get s) = Done (a, s1) ∧ s' = put s1 s.
Proof.
  unfold zoom. destruct (m (get s)) as [[a1 s1]| |]; [|discriminate..].
  intros [= <- <-]. eauto.
Qed.
End monad.

#[export] Hint Rewrite @run_ret @run_gets @run_modify : sq_run.

(** Step through the head of a computation whose parts are known. *)
Ltac run :=
  repeat first
    [ progress autorewrite with sq_run
    | erewrite run_bind; [|solve [eauto with sq_run | reflexivity]] ].

(** Invert an equation [m s = Done _] into the equations of its parts. *)
Ltac inv_run H :=
  let a := fresh "a" in let s1 := fresh "s1" in let H1 := fresh "Hrun" in
  apply bind_done in H as (a & s1 & H1 & H).

(** Step through a bind whose first part runs as [H] says. *)
Tactic Notation "run_with" uconstr(H) := rewrite (run_bind _ _ _ _ _ H); cbv beta iota.

(** An invariant holds in every reachable state. *)
Lemma rtc_invariant {A : Type} (R : relation A) (I : A → Prop) x y :
  (∀ x y, R x y → I x → I y) → I x → rtc R x y → I y.
Proof. intros Hstep Hx Hr. induction Hr; eauto. Qed.

(** A relation terminates from every state that satisfies an invariant with a measure it
    decreases in some well-founded order. *)
Lemma sn_by_order {A B : Type} (R : relation A) (lt : relation B) (I : B → A → Prop) :
  well_founded lt → (∀ n x y, I n x → R x y → ∃ m, lt m n ∧ I m y) → ∀ n x, I n x → sn R x.
Proof.
  intros Hwf Hstep n. induction (Hwf n) as [n _ IH]. intros x Hx. constructor.
  intros y Hy. destruct (Hstep n x y Hx Hy) as (m & Hm & Hi). by apply (IH m).
Qed.

Lemma sn_by_measure {A : Type} (R : relation A) (I : nat → A → Prop) :
  (∀ n x y, I n x → R x y → ∃ m, (m < n)%nat ∧ I m y) → ∀ n x, I n x → sn R x.
Proof. apply sn_by_order, lt_wf. Qed.

Lemma size_union_le {A : Type} `{Countable A} (X Y : gset A) :
  (size (X ∪ Y) ≤ size X + size Y)%nat.
Proof.
  rewrite size_union_alt. assert (size (Y ∖ X) ≤ size Y)%nat; [|lia].
  apply subseteq_size. set_solver.
Qed.

Lemma size_omap_le {A B : Type} `{Countable B} (g : A → option B) (l : list A) :
  (size (list_to_set (omap g l) : gset B) ≤ length l)%nat.
Proof.
  induction l as [|x l IH]; [done|]. simpl. destruct (g x) as [b|]; simpl.
  - etransitivity; [apply size_union_le|]. rewrite size_singleton. by apply le_n_S.
  - by apply Nat.le_le_succ_r.
Qed.

(** ** A number for every value of a map, added up *)
Definition map_sum {A : Type} (g : A → nat) (m : gmap nat A) : nat :=
  map_fold (λ _ x n, g x + n)%nat 0%nat m.

Section map_sum.
Context {A : Type} (g : A → nat).
Implicit Types m : gmap nat A.

Lemma map_sum_new i x m : m !! i = None → map_sum g (<[i := x]> m) = (g x + map_sum g m)%nat.
Proof. apply (map_fold_insert_L (λ _ x n, g x + n)%nat). intros. lia. Qed.

Lemma map_sum_delete i x m :
  m !! i = Some x → map_sum g m = (g x + map_sum g (delete i m))%nat.
Proof. apply (map_fold_delete_L (λ _ x n, g x + n)%nat). intros. lia. Qed.

Lemma map_sum_replace i x z m :
  m !! i = Some x → (map_sum g (<[i := z]> m) + g x = g z + map_sum g m)%nat.
Proof.
  intros Hi. rewrite <- insert_delete_eq, map_sum_new by apply lookup_delete_eq.
  rewrite (map_sum_delete i x m Hi). lia.
Qed.
End map_sum.

#[global] Arguments Z.testbit : simpl never.

(** A map whose values get distinct numbers in an interval is no larger than it. *)
Lemma map_size_le_interval {A : Type} (m : gmap nat A) (f : A → Z) (lo n : Z) :
  (0 ≤ n)%Z →
  (∀ id x, m !! id = Some x → lo ≤ f x < lo + n)%Z →
  (∀ id1 id2 x1 x2,
     m !! id1 = Some x1 → m !! id2 = Some x2 → f x1 = f x2 → id1 = id2) →
  (Z.of_nat (size m) ≤ n)%Z.
Proof.
  intros Hn Hin Hinj. set (l := (f ∘ snd) <$> map_to_list m).
  assert (l ⊆+ seqZ lo n) as Hsub%submseteq_length.
  { apply NoDup_submseteq.
    - apply NoDup_fmap_2_strong; [|apply NoDup_map_to_list].
      intros [i x] [j y] Hx%elem_of_map_to_list Hy%elem_of_map_to_list Hf. simpl in *.
      specialize (Hinj i j x y Hx Hy Hf) as ->. by simplify_eq.
    - intros z [[i x] [-> Hx%elem_of_map_to_list]]%list_elem_of_fmap.
      apply elem_of_seqZ. by apply (Hin i). }
  unfold l in Hsub. rewrite length_fmap, length_seqZ, length_map_to_list in Hsub. lia.
Qed.

(** Two numbers less than [n] apart are equal when they agree modulo [n]. *)
Lemma mod_inj_window (x y n : Z) :
  (0 < n)%Z → (x - y < n)%Z → (y - x < n)%Z → (x mod n = y mod n)%Z → x = y.
Proof.
  intros Hn H1 H2 He.
  pose proof (Z.div_mod x n ltac:(lia)) as Hx. pose proof (Z.div_mod y n ltac:(lia)) as Hy.
  rewrite He in Hx. assert (x / n = y / n)%Z as Hq by nia. rewrite Hq in Hx. lia.
Qed.

Lemma b2z_nonneg b : (0 ≤ Z.b2z b)%Z.
Proof. destruct b; simpl; lia. Qed.
