(* ===== verification/Usize.v ===== *)
(** Machine words of the crate: [usize] at the pointer width of the target.

    A [usize] is a [Z] in [0 .. 2^w); the operations of [core] that the crate
    uses are written with their wrap-around. Shifts mask their amount, as release
    builds do; the theorems of [Helpers] show that for admissible buffer sizes
    the amounts stay below the width, where debug builds agree. *)
From S2P Require Import Prelude.
Local Open Scope Z_scope.

(** [cfg(target_pointer_width)]: the crate asserts it is not 16. *)
Inductive target : Type := T64 | T32.

#[export] Instance target_eq_dec : EqDecision target.
Proof. solve_decision. Defined.

Definition pointer_width (t : target) : Z :=
  match t with T64 => 64 | T32 => 32 end.

Section words.
Variable w : Z.

Definition wrap (x : Z) : Z := x mod 2 ^ w.
Definition in_range (x : Z) : Prop := 0 ≤ x < 2 ^ w.

Definition wrapping_add (x y : Z) : Z := wrap (x + y).
Definition wrapping_sub (x y : Z) : Z := wrap (x - y).
Definition shl (x n : Z) : Z := wrap (Z.shiftl x (n mod w)).
Definition shr (x n : Z) : Z := Z.shiftr x (n mod w).

(** [usize::next_power_of_two]; an overflow wraps to 0 in release builds. *)
Definition next_power_of_two (x : Z) : Z :=
  if x <=? 1 then 1 else wrap (2 ^ Z.log2_up x).
End words.

Fixpoint pos_trailing_zeros (p : positive) : Z :=
  match p with
  | xO p => 1 + pos_trailing_zeros p
  | _ => 0
  end.

(** [usize::trailing_zeros]; the width itself for 0. *)
Definition trailing_zeros (w x : Z) : Z :=
  match x with
  | Zpos p => pos_trailing_zeros p
  | _ => w
  end.

Lemma pow2_pos n : 0 ≤ n → 0 < 2 ^ n.
Proof. intros. apply Z.pow_pos_nonneg; lia. Qed.

#[export] Hint Resolve pow2_pos : sq.

Lemma wrap_small w x : in_range w x → wrap w x = x.
Proof. intros []. by apply Z.mod_small. Qed.

Lemma wrap_range w x : 0 ≤ w → in_range w (wrap w x).
Proof. intros. apply Z.mod_pos_bound. auto with sq. Qed.

Lemma shr_div w x n : 0 ≤ n < w → shr w x n = x / 2 ^ n.
Proof. intros. unfold shr. rewrite Z.mod_small by lia. apply Z.shiftr_div_pow2. lia. Qed.

Lemma shl_mul w x n : 0 ≤ n < w → shl w x n = wrap w (x * 2 ^ n).
Proof.
  intros. unfold shl. rewrite Z.mod_small by lia. f_equal. apply Z.shiftl_mul_pow2. lia.
Qed.

Lemma land_pow2_mod x k : 0 ≤ k → Z.land x (2 ^ k - 1) = x mod 2 ^ k.
Proof.
  intros. replace (2 ^ k - 1) with (Z.ones k) by (rewrite Z.ones_equiv; lia).
  by apply Z.land_ones.
Qed.

Lemma trailing_zeros_pow2 w k : 0 ≤ k → trailing_zeros w (2 ^ k) = k.
Proof.
  revert k. refine (natlike_ind _ _ _); [reflexivity|].
  intros k Hk IH. rewrite Z.pow_succ_r by done.
  pose proof (pow2_pos k Hk) as Hp.
  destruct (2 ^ k) as [|p|p] eqn:E; [lia| |lia]. cbn in IH.
  change (1 + pos_trailing_zeros p = Z.succ k). lia.
Qed.

Lemma next_power_of_two_fixed w x :
  0 ≤ w → in_range w x → next_power_of_two w x = x → ∃ k, 0 ≤ k < w ∧ x = 2 ^ k.
Proof.
  intros Hw [H0 Hx]. unfold next_power_of_two. destruct (Z.leb_spec x 1) as [Hle|Hgt].
  - intros <-. exists 0. split; [|done].
    destruct (decide (w = 0)) as [->|]; [|lia]. rewrite Z.pow_0_r in Hx. lia.
  - pose proof (Z.log2_up_nonneg x) as Hl. intros Heq.
    assert (Z.log2_up x ≤ w) as Hlw.
    { apply Z.log2_up_le_pow2; lia. }
    destruct (decide (Z.log2_up x = w)) as [Hc|Hc].
    + rewrite Hc in Heq. unfold wrap in Heq. rewrite Z_mod_same_full in Heq. lia.
    + assert (2 ^ Z.log2_up x < 2 ^ w) by (apply Z.pow_lt_mono_r; lia).
      rewrite wrap_small in Heq by (split; [auto with sq zarith|lia]).
      exists (Z.log2_up x). lia.
Qed.

Lemma next_power_of_two_pow2 w k : 0 ≤ k < w → next_power_of_two w (2 ^ k) = 2 ^ k.
Proof.
  intros Hk. unfold next_power_of_two. destruct (Z.leb_spec (2 ^ k) 1).
  - pose proof (pow2_pos k). lia.
  - rewrite Z.log2_up_pow2 by lia. apply wrap_small. split; [auto with sq zarith|].
    apply Z.pow_lt_mono_r; lia.
Qed.
