(* ===== verification/Helpers.v ===== *)
(** The index, region and slot arithmetic of [helpers.rs], with the constants of
    [lib.rs] and [queue.rs] it depends on, for both pointer widths.

    The const generic [N] and the target are the fields of [QueueCfg]; [ValidCfg]
    is what the debug assertions of [StackQueue::default] check about [N]. *)
From S2P Require Import Prelude Usize.
Local Open Scope Z_scope.

Class QueueCfg : Type := { cfg_target : target; N : Z }.

Section defs.
Context {C : QueueCfg}.

Definition usize_bits : Z := pointer_width cfg_target.

Definition PHASE : Z := 1.
Definition INDEX_SHIFT : Z := match cfg_target with T64 => 32 | T32 => 16 end.

Definition MIN_BUFFER_LEN : Z := 64.
Definition MAX_BUFFER_LEN : Z :=
  match cfg_target with T64 => 2 ^ 32 - 1 | T32 => 2 ^ 16 - 1 end.

Definition REGION_MASK : Z := 255.
Definition REGION_COUNT : Z := match cfg_target with T64 => 8 | T32 => 4 end.

Definition region_size : Z :=
  match cfg_target with
  | T64 => shr usize_bits N 3
  | T32 => shr usize_bits N 2
  end.

Definition region_shift : Z :=
  match cfg_target with
  | T64 => wrapping_sub usize_bits (trailing_zeros usize_bits N) 3
  | T32 => wrapping_sub usize_bits (trailing_zeros usize_bits N) 2
  end.

Definition current_region (index : Z) : Z := shr usize_bits index region_shift.

Definition region_mask (index : Z) : Z :=
  shl usize_bits REGION_MASK
    (shl usize_bits (current_region index) (trailing_zeros usize_bits REGION_COUNT)).

Definition slot_index (slot : Z) : Z :=
  Z.land (shr usize_bits slot INDEX_SHIFT) (wrapping_sub usize_bits N 1).

Definition one_shifted (index : Z) : Z :=
  shl usize_bits 1
    (shl usize_bits (shr usize_bits index region_shift)
       (trailing_zeros usize_bits REGION_COUNT)).

(** The three debug assertions of [StackQueue::default] on [N]. *)
Definition buffer_len_ok : bool :=
  (N =? next_power_of_two usize_bits N)
  && (MIN_BUFFER_LEN <=? N) && (N <=? MAX_BUFFER_LEN).

(** A slot word: a wrapping task counter above [INDEX_SHIFT], the phase bit below.
    [count] is the number of tasks ever written, which the word keeps modulo
    [counter_modulus]. *)
Definition counter_modulus : Z := 2 ^ (usize_bits - INDEX_SHIFT).
Definition slot_word (count : Z) (phase : bool) : Z :=
  (count mod counter_modulus) * 2 ^ INDEX_SHIFT + Z.b2z phase.

(** log2 of the number of regions. *)
Definition region_bits : Z := match cfg_target with T64 => 3 | T32 => 2 end.
End defs.

Class ValidCfg {C : QueueCfg} : Prop := valid_cfg : buffer_len_ok = true.

(** The concrete configurations of the witnesses. *)
Definition cfg64 (n : Z) : QueueCfg := {| cfg_target := T64; N := n |}.
Definition cfg32 (n : Z) : QueueCfg := {| cfg_target := T32; N := n |}.

Section lemmas.
Context {C : QueueCfg}.

Lemma usize_bits_shift : usize_bits = 2 * INDEX_SHIFT.
Proof. unfold usize_bits, INDEX_SHIFT. by destruct cfg_target. Qed.

Lemma INDEX_SHIFT_bounds : 16 ≤ INDEX_SHIFT ≤ 32.
Proof. unfold INDEX_SHIFT. destruct cfg_target; lia. Qed.

Lemma counter_modulus_eq : counter_modulus = 2 ^ INDEX_SHIFT.
Proof. unfold counter_modulus. f_equal. rewrite usize_bits_shift. lia. Qed.

Lemma counter_modulus_pos : 0 < counter_modulus.
Proof. rewrite counter_modulus_eq. pose proof INDEX_SHIFT_bounds. auto with sq zarith. Qed.

Lemma pow_usize_bits : 2 ^ usize_bits = counter_modulus * 2 ^ INDEX_SHIFT.
Proof.
  rewrite counter_modulus_eq, usize_bits_shift. pose proof INDEX_SHIFT_bounds.
  rewrite <- Z.pow_add_r by lia. f_equal. lia.
Qed.

Lemma REGION_COUNT_pow : REGION_COUNT = 2 ^ region_bits.
Proof. unfold REGION_COUNT, region_bits. by destruct cfg_target. Qed.

Lemma REGION_COUNT_zeros : trailing_zeros usize_bits REGION_COUNT = region_bits.
Proof. unfold REGION_COUNT, region_bits, usize_bits. by destruct cfg_target. Qed.

Lemma region_bits_bounds : 2 ≤ region_bits ≤ 3.
Proof. unfold region_bits. destruct cfg_target; lia. Qed.

(** ** Slot words *)
Lemma slot_word_range count phase : in_range usize_bits (slot_word count phase).
Proof.
  unfold in_range, slot_word. rewrite pow_usize_bits.
  pose proof (Z.mod_pos_bound count _ counter_modulus_pos).
  pose proof INDEX_SHIFT_bounds. pose proof (pow2_pos INDEX_SHIFT).
  assert (2 ≤ 2 ^ INDEX_SHIFT) by (change 2 with (2 ^ 1) at 1; apply Z.pow_le_mono_r; lia).
  destruct phase; simpl Z.b2z; nia.
Qed.

Lemma slot_word_shr count phase :
  shr usize_bits (slot_word count phase) INDEX_SHIFT = count mod counter_modulus.
Proof.
  pose proof INDEX_SHIFT_bounds. pose proof usize_bits_shift.
  rewrite shr_div by lia. unfold slot_word. rewrite Z.div_add_l by auto with sq zarith.
  rewrite Z.div_small; [lia|]. split; [destruct phase; simpl; lia|].
  apply Z.lt_le_trans with (2 ^ 1); [destruct phase; simpl; lia|].
  apply Z.pow_le_mono_r; lia.
Qed.

Lemma slot_word_next count phase :
  wrapping_add usize_bits (slot_word count phase) (shl usize_bits 1 INDEX_SHIFT)
  = slot_word (count + 1) phase.
Proof.
  pose proof INDEX_SHIFT_bounds. pose proof usize_bits_shift. pose proof counter_modulus_pos.
  pose proof (pow2_pos INDEX_SHIFT).
  rewrite shl_mul by lia. rewrite wrap_small.
  2:{ split; [lia|]. rewrite Z.mul_1_l. apply Z.pow_lt_mono_r; lia. }
  unfold wrapping_add, wrap. unfold slot_word at 1.
  replace (_ + Z.b2z phase + 1 * _)
    with (Z.b2z phase + (count mod counter_modulus + 1) * 2 ^ INDEX_SHIFT) by ring.
  rewrite pow_usize_bits, (Z.mul_comm counter_modulus).
  rewrite Z.rem_mul_r by lia. rewrite Z.mod_add by lia.
  assert (2 ≤ 2 ^ INDEX_SHIFT) by (change 2 with (2 ^ 1) at 1; apply Z.pow_le_mono_r; lia).
  assert (0 ≤ Z.b2z phase < 2 ^ INDEX_SHIFT) by (destruct phase; simpl; lia).
  rewrite Z.div_add by lia. rewrite Z.div_small, Z.add_0_l by lia.
  rewrite (Z.mod_small (Z.b2z phase)) by lia. rewrite Z.add_mod_idemp_l by lia.
  unfold slot_word. ring.
Qed.

Lemma slot_word_bit0 count phase : Z.testbit (slot_word count phase) 0 = phase.
Proof.
  pose proof INDEX_SHIFT_bounds. unfold slot_word.
  replace INDEX_SHIFT with (1 + (INDEX_SHIFT - 1)) by lia.
  rewrite Z.pow_add_r by lia. rewrite Z.mul_comm, <- Z.mul_assoc.
  change (2 ^ 1) with 2. apply Z.testbit_0_r.
Qed.

Lemma slot_word_toggle count phase :
  Z.lxor (slot_word count phase) PHASE = slot_word count (negb phase).
Proof.
  pose proof INDEX_SHIFT_bounds. unfold slot_word, PHASE.
  set (c := count mod counter_modulus).
  replace INDEX_SHIFT with (1 + (INDEX_SHIFT - 1)) by lia.
  rewrite Z.pow_add_r by lia.
  replace (c * (2 ^ 1 * 2 ^ (INDEX_SHIFT - 1))) with (2 * (c * 2 ^ (INDEX_SHIFT - 1)))
    by (change (2 ^ 1) with 2; ring).
  set (k := c * 2 ^ (INDEX_SHIFT - 1)).
  apply Z.bits_inj'. intros n Hn. rewrite Z.lxor_spec.
  destruct (decide (n = 0)) as [->|Hne].
  - rewrite !Z.testbit_0_r. by destruct phase.
  - replace n with (Z.succ (n - 1)) by lia.
    rewrite !Z.testbit_succ_r by lia.
    rewrite (Z.pow2_bits_false 0 : ∀ m, 0 ≠ m → Z.testbit 1 m = false) by lia.
    by destruct (Z.testbit k (n - 1)).
Qed.

Lemma same_phase_test s1 s2 :
  (Z.land (Z.lxor s1 s2) PHASE =? 0) = eqb (Z.testbit s1 0) (Z.testbit s2 0).
Proof.
  unfold PHASE. change 1 with (2 ^ 1 - 1). rewrite land_pow2_mod by lia.
  change (2 ^ 1) with 2. rewrite <- Z.bit0_mod, Z.lxor_spec.
  by destruct (Z.testbit s1 0), (Z.testbit s2 0).
Qed.

Lemma same_phase_slots c1 p1 c2 p2 :
  (Z.land (Z.lxor (slot_word c1 p1) (slot_word c2 p2)) PHASE =? 0) = eqb p1 p2.
Proof. rewrite same_phase_test. by rewrite !slot_word_bit0. Qed.
End lemmas.

(** * Admissible buffer sizes *)
Definition log_N {C : QueueCfg} : Z := Z.log2 N.

Section valid.
Context {C : QueueCfg} {HV : ValidCfg}.

Lemma valid_bounds : N = 2 ^ log_N ∧ 6 ≤ log_N < INDEX_SHIFT.
Proof.
  pose proof INDEX_SHIFT_bounds. pose proof usize_bits_shift.
  pose proof valid_cfg as Hv. unfold buffer_len_ok in Hv.
  apply andb_prop in Hv as [[Hp Hmin]%andb_prop Hmax].
  apply Z.eqb_eq in Hp. apply Z.leb_le in Hmin, Hmax. unfold MIN_BUFFER_LEN in Hmin.
  assert (MAX_BUFFER_LEN = 2 ^ INDEX_SHIFT - 1) as Hm.
  { unfold MAX_BUFFER_LEN, INDEX_SHIFT. by destruct cfg_target. }
  assert (2 ^ INDEX_SHIFT ≤ 2 ^ usize_bits) by (apply Z.pow_le_mono_r; lia).
  destruct (next_power_of_two_fixed usize_bits N) as (k & Hk & HN).
  { lia. } { split; lia. } { done. }
  unfold log_N. rewrite HN, Z.log2_pow2 by lia. split; [done|].
  rewrite HN in Hmin, Hmax. split.
  - apply (Z.pow_le_mono_r_iff 2); [lia..|]. change (2 ^ 6) with 64. lia.
  - apply (Z.pow_lt_mono_r_iff 2); lia.
Qed.

Lemma N_pow : N = 2 ^ log_N.
Proof. apply valid_bounds. Qed.

Lemma log_N_bounds : 6 ≤ log_N < INDEX_SHIFT.
Proof. apply valid_bounds. Qed.

Lemma N_ge_64 : 64 ≤ N.
Proof.
  rewrite N_pow. pose proof log_N_bounds. change 64 with (2 ^ 6).
  apply Z.pow_le_mono_r; lia.
Qed.

Lemma N_divides_counter : counter_modulus = N * 2 ^ (INDEX_SHIFT - log_N).
Proof.
  pose proof log_N_bounds. rewrite counter_modulus_eq, N_pow.
  rewrite <- Z.pow_add_r by lia. f_equal. lia.
Qed.

Lemma N_lt_counter : N < counter_modulus.
Proof.
  pose proof log_N_bounds. rewrite counter_modulus_eq, N_pow.
  apply Z.pow_lt_mono_r; lia.
Qed.

Lemma mod_counter_mod_N c : (c mod counter_modulus) mod N = c mod N.
Proof.
  pose proof N_ge_64. pose proof log_N_bounds. rewrite N_divides_counter.
  apply Z.mod_mod_divide. by exists (2 ^ (INDEX_SHIFT - log_N)); ring.
Qed.

(** [x & (N - 1)], which the code writes for a remainder modulo [N]. *)
Lemma land_N x : Z.land x (wrapping_sub usize_bits N 1) = x mod N.
Proof.
  pose proof N_ge_64. pose proof N_lt_counter. pose proof pow_usize_bits as Hw.
  pose proof (pow2_pos INDEX_SHIFT). pose proof INDEX_SHIFT_bounds.
  unfold wrapping_sub. rewrite wrap_small by (split; nia).
  rewrite N_pow. apply land_pow2_mod. pose proof log_N_bounds. lia.
Qed.

Lemma slot_index_word count phase : slot_index (slot_word count phase) = count mod N.
Proof. unfold slot_index. rewrite slot_word_shr, land_N. apply mod_counter_mod_N. Qed.

(** ** Regions *)
Lemma region_shift_eq : region_shift = log_N - region_bits.
Proof.
  pose proof log_N_bounds as Hl. pose proof INDEX_SHIFT_bounds.
  unfold region_shift, region_bits. rewrite N_pow.
  rewrite trailing_zeros_pow2 by lia.
  assert (∀ k, 2 ≤ k ≤ 3 → wrapping_sub usize_bits log_N k = log_N - k) as Hs.
  { intros k Hk. apply wrap_small. split; [lia|].
    apply Z.lt_trans with usize_bits; [rewrite usize_bits_shift; lia|].
    apply Z.pow_gt_lin_r; [lia|]. rewrite usize_bits_shift. lia. }
  destruct cfg_target; apply Hs; lia.
Qed.

Lemma region_size_pow : region_size = 2 ^ (log_N - region_bits).
Proof.
  pose proof log_N_bounds. pose proof usize_bits_shift. pose proof INDEX_SHIFT_bounds.
  unfold region_size, region_bits. rewrite N_pow.
  destruct cfg_target; rewrite shr_div by lia; symmetry; apply Z.pow_sub_r; lia.
Qed.

Lemma region_size_bounds : 8 ≤ region_size.
Proof.
  pose proof log_N_bounds. pose proof region_bits_bounds. rewrite region_size_pow.
  change 8 with (2 ^ 3). apply Z.pow_le_mono_r; lia.
Qed.

Lemma N_regions : N = REGION_COUNT * region_size.
Proof.
  pose proof log_N_bounds. pose proof region_bits_bounds.
  rewrite region_size_pow, REGION_COUNT_pow, <- Z.pow_add_r by lia.
  rewrite N_pow at 1. f_equal. lia.
Qed.

Lemma region_shift_amount : 0 ≤ region_shift < usize_bits.
Proof.
  rewrite region_shift_eq, usize_bits_shift. pose proof log_N_bounds.
  pose proof region_bits_bounds. lia.
Qed.

Lemma current_region_div index : current_region index = index / region_size.
Proof.
  unfold current_region. rewrite shr_div by apply region_shift_amount.
  by rewrite region_shift_eq, region_size_pow.
Qed.

Lemma current_region_range index :
  0 ≤ index < N → 0 ≤ current_region index < REGION_COUNT.
Proof.
  intros Hi. rewrite current_region_div. pose proof region_size_bounds.
  split; [apply Z.div_pos; lia|]. apply Z.div_lt_upper_bound; [lia|].
  rewrite N_regions in Hi. lia.
Qed.

(** The shift amount of a region's counter stays below the word width, and its
    counter and mask do not overflow the word. *)
Lemma region_amount index :
  0 ≤ index < N →
  shl usize_bits (current_region index) (trailing_zeros usize_bits REGION_COUNT)
    = REGION_COUNT * current_region index
  ∧ 0 ≤ REGION_COUNT * current_region index ≤ usize_bits - REGION_COUNT
  ∧ REGION_COUNT * current_region index + 8 ≤ usize_bits.
Proof.
  intros Hi. pose proof (current_region_range index Hi) as Hr.
  rewrite REGION_COUNT_zeros. rewrite shl_mul.
  2:{ pose proof region_bits_bounds. pose proof usize_bits_shift.
      pose proof INDEX_SHIFT_bounds. lia. }
  rewrite <- REGION_COUNT_pow.
  assert (0 ≤ REGION_COUNT * current_region index ≤ usize_bits - REGION_COUNT
    ∧ REGION_COUNT * current_region index + 8 ≤ usize_bits) as [Hb H8].
  { unfold REGION_COUNT, usize_bits in *. destruct cfg_target; cbn in *; lia. }
  split; [|done]. assert (1 ≤ REGION_COUNT) by (unfold REGION_COUNT; destruct cfg_target; lia).
  rewrite wrap_small; [ring|]. split; [lia|].
  apply Z.le_lt_trans with usize_bits; [|apply Z.pow_gt_lin_r].
  all: pose proof usize_bits_shift; pose proof INDEX_SHIFT_bounds; lia.
Qed.

Lemma one_shifted_pow index :
  0 ≤ index < N → one_shifted index = 2 ^ (REGION_COUNT * current_region index).
Proof.
  intros Hi. destruct (region_amount index Hi) as (Ha & Hb & H8).
  unfold one_shifted. fold (current_region index). rewrite Ha.
  rewrite shl_mul by lia. rewrite Z.mul_1_l. apply wrap_small.
  split; [auto with sq zarith|]. apply Z.pow_lt_mono_r; lia.
Qed.

Lemma region_mask_pow index :
  0 ≤ index < N → region_mask index = 255 * 2 ^ (REGION_COUNT * current_region index).
Proof.
  intros Hi. destruct (region_amount index Hi) as (Ha & Hb & H8).
  unfold region_mask. rewrite Ha. rewrite shl_mul by lia. unfold REGION_MASK.
  apply wrap_small. pose proof (pow2_pos (REGION_COUNT * current_region index)).
  split; [lia|].
  apply Z.lt_le_trans with (2 ^ (8 + REGION_COUNT * current_region index)).
  - rewrite Z.pow_add_r by lia. change (2 ^ 8) with 256. lia.
  - apply Z.pow_le_mono_r; lia.
Qed.

(** [x & (region_size - 1)]. *)
Lemma land_region x : Z.land x (wrapping_sub usize_bits region_size 1) = x mod region_size.
Proof.
  pose proof region_size_bounds. pose proof N_regions. pose proof N_lt_counter.
  pose proof pow_usize_bits. pose proof (pow2_pos INDEX_SHIFT). pose proof INDEX_SHIFT_bounds.
  assert (1 ≤ REGION_COUNT) by (unfold REGION_COUNT; destruct cfg_target; lia).
  unfold wrapping_sub. rewrite wrap_small by (split; nia).
  rewrite region_size_pow. apply land_pow2_mod.
  pose proof log_N_bounds. pose proof region_bits_bounds. lia.
Qed.
End valid.
