(* ===== verification/Occupancy.v ===== *)
(** The occupancy word of a 64-bit target as eight counters.

    [lane r w] is the counter of region [r] in the word [w]. The lemmas here turn
    the masks, [fetch_add] and [fetch_sub] of the code into reads, increments and
    decrements of one lane, as long as that lane neither overflows nor underflows;
    [lane_overflow_carries] is what happens when it does overflow. *)
From S2P Require Import Prelude Usize Helpers.
Local Open Scope Z_scope.

(** [from_parts r hi f lo] is the word whose lane [r] is [f], whose lower lanes are
    those of [lo] and whose higher lanes are those of [hi]. *)
Definition lane (r w : Z) : Z := (w / 2 ^ (8 * r)) mod 256.
Definition from_parts (r hi f lo : Z) : Z := (hi * 256 + f) * 2 ^ (8 * r) + lo.

Lemma lane_bounds r w : 0 ≤ lane r w < 256.
Proof. apply Z.mod_pos_bound. lia. Qed.

Lemma lane_0 r : lane r 0 = 0.
Proof. unfold lane. by rewrite Zdiv_0_l. Qed.

Lemma pow_8_succ r : 0 ≤ r → 2 ^ (8 * (r + 1)) = 256 * 2 ^ (8 * r).
Proof.
  intros. replace (8 * (r + 1)) with (8 + 8 * r) by lia. by rewrite Z.pow_add_r by lia.
Qed.

Lemma word_parts r w :
  0 ≤ r → w = from_parts r (w / 2 ^ (8 * (r + 1))) (lane r w) (w mod 2 ^ (8 * r)).
Proof.
  intros Hr. unfold from_parts, lane. pose proof (pow2_pos (8 * r)).
  rewrite pow_8_succ by done. rewrite (Z.mul_comm 256), <- Z.div_div by lia.
  set (q := w / 2 ^ (8 * r)).
  replace (q / 256 * 256 + q mod 256) with q by (pose proof (Z.div_mod q 256); lia).
  unfold q. pose proof (Z.div_mod w (2 ^ (8 * r))). lia.
Qed.

Section parts.
Variables (r hi f lo : Z).
Hypothesis (Hr : 0 ≤ r) (Hf : 0 ≤ f < 256) (Hlo : 0 ≤ lo < 2 ^ (8 * r)).

Lemma lane_parts_same : lane r (from_parts r hi f lo) = f.
Proof.
  unfold lane, from_parts. rewrite Z.div_add_l by lia.
  rewrite (Z.div_small lo) by lia. rewrite Z.add_0_r, Z.add_comm, Z.mod_add by lia.
  by apply Z.mod_small.
Qed.

Lemma lane_parts_low r' : 0 ≤ r' < r → lane r' (from_parts r hi f lo) = lane r' lo.
Proof.
  intros Hr'. unfold lane, from_parts.
  replace (8 * r) with (8 * (r - r' - 1) + 8 + 8 * r') by lia.
  rewrite !Z.pow_add_r by lia. rewrite !Z.mul_assoc. rewrite Z.div_add_l by auto with sq zarith.
  change (2 ^ 8) with 256. by rewrite Z.add_comm, Z.mod_add by lia.
Qed.

Lemma lane_parts_high r' :
  r < r' → lane r' (from_parts r hi f lo) = lane (r' - r - 1) hi.
Proof.
  intros Hr'. unfold lane, from_parts.
  replace (8 * r') with (8 * r + (8 + 8 * (r' - r - 1))) by lia.
  rewrite (Z.pow_add_r _ (8 * r)), (Z.pow_add_r _ 8) by lia.
  rewrite <- !Z.div_div by auto with sq zarith.
  rewrite Z.div_add_l by lia. rewrite (Z.div_small lo) by lia.
  rewrite Z.add_0_r. change (2 ^ 8) with 256. rewrite Z.div_add_l by lia.
  rewrite (Z.div_small f) by lia. by rewrite Z.add_0_r.
Qed.
End parts.

(** Changing one lane leaves the others alone. *)
Lemma lane_parts_other r r' hi f f' lo :
  0 ≤ r → 0 ≤ r' → r' ≠ r → 0 ≤ f < 256 → 0 ≤ f' < 256 → 0 ≤ lo < 2 ^ (8 * r) →
  lane r' (from_parts r hi f lo) = lane r' (from_parts r hi f' lo).
Proof.
  intros. destruct (decide (r' < r)).
  - by rewrite !lane_parts_low by lia.
  - by rewrite !lane_parts_high by lia.
Qed.

Lemma from_parts_add r hi f lo d :
  from_parts r hi f lo + d * 2 ^ (8 * r) = from_parts r hi (f + d) lo.
Proof. unfold from_parts. ring. Qed.

(** A step of [d] on lane [r] that stays within the lane. *)
Lemma lane_step r r' w d :
  0 ≤ r → 0 ≤ r' → 0 ≤ lane r w + d < 256 →
  lane r' (w + d * 2 ^ (8 * r)) = lane r' w + (if decide (r' = r) then d else 0).
Proof.
  intros Hr Hr' Hd. pose proof (lane_bounds r w) as Hb.
  pose proof (Z.mod_pos_bound w (2 ^ (8 * r)) (pow2_pos (8 * r) ltac:(lia))) as Hlo.
  pose proof (word_parts r w Hr) as Hw.
  set (hi := w / _) in Hw. set (lo := w mod _) in *. set (f := lane r w) in *.
  rewrite Hw, from_parts_add. destruct (decide (r' = r)) as [->|Hne].
  - by rewrite !lane_parts_same by lia.
  - rewrite Z.add_0_r. by apply lane_parts_other.
Qed.

Lemma lane_add r r' w :
  0 ≤ r → 0 ≤ r' → lane r w < 255 →
  lane r' (w + 2 ^ (8 * r)) = lane r' w + (if decide (r' = r) then 1 else 0).
Proof.
  intros Hr Hr' Hl. pose proof (lane_bounds r w).
  rewrite <- (Z.mul_1_l (2 ^ (8 * r))) at 1. apply lane_step; lia.
Qed.

Lemma lane_sub r r' w :
  0 ≤ r → 0 ≤ r' → 0 < lane r w →
  lane r' (w - 2 ^ (8 * r)) = lane r' w - (if decide (r' = r) then 1 else 0).
Proof.
  intros Hr Hr' Hl. pose proof (lane_bounds r w).
  replace (w - 2 ^ (8 * r)) with (w + (-1) * 2 ^ (8 * r)) by lia.
  rewrite lane_step by lia. destruct (decide (r' = r)); lia.
Qed.

(** ** Words of the machine *)
Lemma lane_ge_pow r w : 0 ≤ r → 0 ≤ w → 0 < lane r w → 2 ^ (8 * r) ≤ w.
Proof.
  intros Hr Hw Hl. destruct (decide (w < 2 ^ (8 * r))); [|lia].
  unfold lane in Hl. rewrite Z.div_small, Zmod_0_l in Hl; lia.
Qed.

Lemma lane_room r w :
  0 ≤ r < 8 → 0 ≤ w < 2 ^ 64 → lane r w < 255 → w + 2 ^ (8 * r) < 2 ^ 64.
Proof.
  intros Hr Hw Hl. rewrite (word_parts r w) by lia.
  set (hi := w / _). pose proof (Z.mod_pos_bound w (2 ^ (8 * r)) (pow2_pos (8 * r) ltac:(lia))).
  assert (hi < 2 ^ (64 - 8 * (r + 1))) as Hhi.
  { apply Z.div_lt_upper_bound; [auto with sq zarith|].
    rewrite <- Z.pow_add_r by lia. replace (_ + _) with 64 by lia. lia. }
  rewrite <- (Z.mul_1_l (2 ^ (8 * r))) at 2. rewrite from_parts_add. unfold from_parts.
  replace (2 ^ 64) with (2 ^ (64 - 8 * (r + 1)) * (256 * 2 ^ (8 * r))).
  2:{ rewrite <- pow_8_succ, <- Z.pow_add_r by lia. f_equal. lia. }
  pose proof (pow2_pos (8 * r)). nia.
Qed.

Lemma lane_mask_test r w :
  0 ≤ r → (Z.land w (255 * 2 ^ (8 * r)) =? 0) = (lane r w =? 0).
Proof.
  intros Hr. unfold lane. rewrite <- Z.shiftl_mul_pow2 by lia.
  change 255 with (2 ^ 8 - 1). change 256 with (2 ^ 8).
  rewrite <- land_pow2_mod by lia. rewrite <- Z.shiftr_div_pow2 by lia.
  replace (Z.land w (Z.shiftl (2 ^ 8 - 1) (8 * r)))
    with (Z.shiftl (Z.land (Z.shiftr w (8 * r)) (2 ^ 8 - 1)) (8 * r)).
  - rewrite Z.shiftl_mul_pow2 by lia. pose proof (pow2_pos (8 * r)).
    apply eq_bool_prop_intro. rewrite !Is_true_true, !Z.eqb_eq. nia.
  - apply Z.bits_inj'. intros n Hn. rewrite Z.shiftl_spec, !Z.land_spec, Z.shiftl_spec by lia.
    destruct (decide (8 * r ≤ n)).
    + rewrite Z.shiftr_spec by lia. by replace (n - 8 * r + 8 * r) with n by lia.
    + rewrite !(Z.testbit_neg_r _ (n - 8 * r)) by lia. by rewrite !andb_false_r.
Qed.

(** What leaves the word on top leaves its lanes alone. *)
Lemma lane_wrap r w : 0 ≤ r < 8 → lane r (w mod 2 ^ 64) = lane r w.
Proof.
  intros Hr. unfold lane. rewrite <- !Z.shiftr_div_pow2 by lia. change 256 with (2 ^ 8).
  apply Z.bits_inj'. intros n Hn. destruct (decide (n < 8)).
  - rewrite !Z.mod_pow2_bits_low, !Z.shiftr_spec by lia. by rewrite Z.mod_pow2_bits_low by lia.
  - by rewrite !Z.mod_pow2_bits_high by lia.
Qed.

(** A word is determined by its eight lanes. *)
Lemma lanes_ext w1 w2 :
  0 ≤ w1 < 2 ^ 64 → 0 ≤ w2 < 2 ^ 64 → (∀ r, 0 ≤ r < 8 → lane r w1 = lane r w2) → w1 = w2.
Proof.
  intros H1 H2 Hl.
  assert (∀ k, 0 ≤ k → k ≤ 8 → w1 mod 2 ^ (8 * k) = w2 mod 2 ^ (8 * k)) as Hk.
  { refine (natlike_ind _ _ _); [by rewrite !Z.mod_1_r|].
    intros k Hk IH Hk8. specialize (IH ltac:(lia)). specialize (Hl k ltac:(lia)).
    unfold lane in Hl. unfold Z.succ. rewrite pow_8_succ by done.
    pose proof (pow2_pos (8 * k)). rewrite (Z.mul_comm 256). rewrite !Z.rem_mul_r by lia.
    congruence. }
  specialize (Hk 8 ltac:(lia) ltac:(lia)). by rewrite !Z.mod_small in Hk.
Qed.

(** A lane at 255 overflows into the next one: its own count reads 0 again, which
    is what a region without batches reads. *)
Lemma lane_overflow_carries r w :
  0 ≤ r → lane r w = 255 →
  lane r (w + 2 ^ (8 * r)) = 0
  ∧ (lane (r + 1) w < 255 → lane (r + 1) (w + 2 ^ (8 * r)) = lane (r + 1) w + 1).
Proof.
  intros Hr H255.
  pose proof (Z.mod_pos_bound w (2 ^ (8 * r)) (pow2_pos (8 * r) ltac:(lia))) as Hlo.
  pose proof (word_parts r w Hr) as Hw. rewrite H255 in Hw.
  set (hi := w / _) in Hw. set (lo := w mod _) in *.
  assert (w + 2 ^ (8 * r) = from_parts r (hi + 1) 0 lo) as ->.
  { rewrite Hw. unfold from_parts. ring. }
  split; [apply lane_parts_same; lia|].
  rewrite Hw, !lane_parts_high by lia. replace (r + 1 - r - 1) with 0 by lia.
  intros Hn. change 1 with (2 ^ (8 * 0)) at 1. rewrite lane_add by lia. by rewrite decide_True.
Qed.
