(* ===== verification/Deque.v ===== *)
(** The waker deque of [crossbeam_deque] as an interface.

    [StackQueue::pending] (a FIFO [Worker]) and [Inner::stealer] (its [Stealer]) are
    two handles of one deque of wakers. The crate only relies on the documented
    behaviour collected in [DequeLaws]: a FIFO worker appends, a steal takes the
    oldest waker, reports [Empty] only on an empty deque, and asks for a [Retry]
    only while other operations interfere ([contention] bounds how often). *)
From S2P Require Import Prelude.

Inductive Steal (W : Type) : Type :=
| Empty
| Success (w : W)
| Retry.
Arguments Empty {_}.
Arguments Success {_} _.
Arguments Retry {_}.

Class Deque (W D : Type) : Type := {
  worker_new_fifo : D;
  worker_push : W → D → D;
  stealer_steal : D → Steal W * D;
  contention : D → nat
}.

Class DequeLaws (W D : Type) `{Deque W D} : Type := {
  deque_items : D → list W;
  new_fifo_items : deque_items worker_new_fifo = [];
  push_items w d : deque_items (worker_push w d) = deque_items d ++ [w];
  steal_items d :
    match stealer_steal d with
    | (Empty, d') => deque_items d = [] ∧ deque_items d' = []
    | (Success w, d') => deque_items d = w :: deque_items d' ∧ contention d' ≤ contention d
    | (Retry, d') => deque_items d' = deque_items d ∧ contention d' < contention d
    end
}.

(** A list with a number of steals still to be disturbed, for concrete runs. *)
Definition list_deque (W : Type) : Type := list W * nat.

#[export] Instance list_deque_ops (W : Type) : Deque W (list_deque W) := {
  worker_new_fifo := ([], 0);
  worker_push w d := (d.1 ++ [w], d.2);
  stealer_steal d :=
    match d.2 with
    | S n => (Retry, (d.1, n))
    | 0 => match d.1 with
           | [] => (Empty, d)
           | w :: ws => (Success w, (ws, 0))
           end
    end;
  contention d := d.2
}.

#[export, refine] Instance list_deque_laws (W : Type) : DequeLaws W (list_deque W) := {
  deque_items d := d.1
}.
Proof.
  - reflexivity.
  - reflexivity.
  - intros [ws [|n]]; cbn; [destruct ws; cbn; auto|]. split; [done|lia].
Defined.
