(* ===== verification/Queue.v ===== *)
(** [queue.rs]: the shared [Inner], the thread-owned [StackQueue] and their
    operations. *)
From S2P Require Import Prelude Usize Helpers Deque.
Local Open Scope Z_scope.

(** * State *)

(** [Inner]: what guards on other threads reach through their [LocalRef]. The
    [stealer] is the far end of [pending] below and has no state of its own. *)
Record Inner (cell : Type) : Type := mkInner {
  slot : Z;
  occupancy : Z;
  buffer : list cell
}.
Arguments mkInner {_} _ _ _.
Arguments slot {_} _.
Arguments occupancy {_} _.
Arguments buffer {_} _.

(** [StackQueue]: [sq_slot] and [sq_occupancy] are its thread-local copies. *)
Record StackQueue (cell D : Type) : Type := mkStackQueue {
  sq_slot : Z;
  sq_occupancy : Z;
  inner : Inner cell;
  pending : D
}.
Arguments mkStackQueue {_ _} _ _ _ _.
Arguments sq_slot {_ _} _.
Arguments sq_occupancy {_ _} _.
Arguments inner {_ _} _.
Arguments pending {_ _} _.

(** What the rest of the program observes, in order: wakers woken, values whose
    destructor ran, tasks handed to the executor. *)
Inductive event (W V P : Type) : Type :=
| Woken (w : W)
| Dropped (v : V)
| Spawned (p : P).
Arguments Woken {_ _ _} _.
Arguments Dropped {_ _ _} _.
Arguments Spawned {_ _ _} _.

(** The wakers woken and the tasks handed to the executor by some events. *)
Definition wakes {W V P : Type} (evs : list (event W V P)) : list W :=
  omap (λ e, match e with Woken w => Some w | _ => None end) evs.
Definition spawns {W V P : Type} (evs : list (event W V P)) : list P :=
  omap (λ e, match e with Spawned p => Some p | _ => None end) evs.

Lemma wakes_woken {W V P : Type} (ws : list W) : wakes (Woken <$> ws : list (event W V P)) = ws.
Proof. induction ws as [|w ws IH]; [done|]. simpl. by f_equal. Qed.

Lemma spawns_woken {W V P : Type} (ws : list W) : spawns (Woken <$> ws : list (event W V P)) = [].
Proof. by induction ws. Qed.

Lemma wakes_app {W V P : Type} (l k : list (event W V P)) : wakes (l ++ k) = wakes l ++ wakes k.
Proof. apply omap_app. Qed.

Lemma spawns_app {W V P : Type} (l k : list (event W V P)) : spawns (l ++ k) = spawns l ++ spawns k.
Proof. apply omap_app. Qed.

(** The queue, the memory its tasks point to ([ext]) and the events so far. *)
Record world (cell D X E : Type) : Type := mkWorld {
  queue : StackQueue cell D;
  ext : X;
  trace : list E
}.
Arguments mkWorld {_ _ _ _} _ _ _.
Arguments queue {_ _ _ _} _.
Arguments ext {_ _ _ _} _.
Arguments trace {_ _ _ _} _.

Inductive QueueFull : Type := queue_full.

Section setters.
Context {cell D X E : Type}.
Implicit Types (q : StackQueue cell D) (w : world cell D X E).

Definition set_slot (s : Z) q : StackQueue cell D :=
  mkStackQueue (sq_slot q) (sq_occupancy q)
    (mkInner s (occupancy (inner q)) (buffer (inner q))) (pending q).
Definition set_occupancy (o : Z) q : StackQueue cell D :=
  mkStackQueue (sq_slot q) (sq_occupancy q)
    (mkInner (slot (inner q)) o (buffer (inner q))) (pending q).
Definition set_buffer (b : list cell) q : StackQueue cell D :=
  mkStackQueue (sq_slot q) (sq_occupancy q)
    (mkInner (slot (inner q)) (occupancy (inner q)) b) (pending q).
Definition set_sq_slot (s : Z) q : StackQueue cell D :=
  mkStackQueue s (sq_occupancy q) (inner q) (pending q).
Definition set_sq_occupancy (o : Z) q : StackQueue cell D :=
  mkStackQueue (sq_slot q) o (inner q) (pending q).
Definition set_pending (d : D) q : StackQueue cell D :=
  mkStackQueue (sq_slot q) (sq_occupancy q) (inner q) d.

Definition set_queue q w : world cell D X E := mkWorld q (ext w) (trace w).
Definition set_ext (x : X) w : world cell D X E := mkWorld (queue w) x (trace w).
Definition emit (e : E) : M (world cell D X E) unit :=
  modify (λ w, mkWorld (queue w) (ext w) (trace w ++ [e])).

(** Run a queue operation on the queue of the world. *)
Definition on_queue {A : Type} (m : M (StackQueue cell D) A) : M (world cell D X E) A :=
  zoom queue set_queue m.
End setters.

(** * Operations of the owning thread *)
Section owner.
Context {C : QueueCfg} {cell D : Type}.
Abbreviation queue_op A := (M (StackQueue cell D) A).

(** [slot.fetch_add(1 << INDEX_SHIFT)]. *)
Definition fetch_add_slot : queue_op Z := λ q,
  Done (slot (inner q),
    set_slot (wrapping_add usize_bits (slot (inner q)) (shl usize_bits 1 INDEX_SHIFT)) q).

(** [slot.fetch_xor(PHASE)]. *)
Definition fetch_xor_slot : queue_op Z := λ q,
  Done (slot (inner q), set_slot (Z.lxor (slot (inner q)) PHASE) q).

Definition load_occupancy : queue_op Z := gets (λ q, occupancy (inner q)).

Definition fetch_add_occupancy (d : Z) : queue_op Z := λ q,
  Done (occupancy (inner q),
    set_occupancy (wrapping_add usize_bits (occupancy (inner q)) d) q).

Definition fetch_sub_occupancy (d : Z) : queue_op Z := λ q,
  Done (occupancy (inner q),
    set_occupancy (wrapping_sub usize_bits (occupancy (inner q)) d) q).

(** [buffer.get_unchecked(index)] written through its cell pointer. *)
Definition write_cell (index : Z) (c : cell) : queue_op unit :=
  q ← gets id;
  get_unchecked (buffer (inner q)) index ;;
  modify (λ q, set_buffer (<[Z.to_nat index := c]> (buffer (inner q))) q).

Definition read_cell (index : Z) : queue_op cell :=
  q ← gets id; get_unchecked (buffer (inner q)) index.

Definition current_write_index : queue_op Z := gets (λ q, slot_index (sq_slot q)).

Definition check_regional_occupancy (index : Z) : queue_op (result unit QueueFull) :=
  let region_mask := region_mask index in
  regional_occupancy ← gets (λ q, Z.land (sq_occupancy q) region_mask);
  if regional_occupancy =? 0 then mret (Ok ())
  else
    occupancy ← load_occupancy;
    let regional_occupancy := Z.land occupancy region_mask in
    modify (set_sq_occupancy occupancy) ;;
    if regional_occupancy =? 0 then mret (Ok ()) else mret (Err queue_full).

Definition occupy_region (index : Z) : queue_op unit :=
  let shifted_add := one_shifted index in
  prev ← fetch_add_occupancy shifted_add;
  let occupancy := wrapping_add usize_bits prev shifted_add in
  modify (set_sq_occupancy occupancy).

Definition replace_slot (slot : Z) : queue_op Z := λ q,
  Done (sq_slot q, set_sq_slot slot q).

(** The check at the head of [enqueue] and [push]: only an index on a region
    boundary looks at the occupancy. *)
Definition at_region_start (write_index : Z) : bool :=
  Z.land write_index (wrapping_sub usize_bits region_size 1) =? 0.

Definition check_write_index (write_index : Z) : queue_op (result unit QueueFull) :=
  if at_region_start write_index
  then check_regional_occupancy write_index
  else mret (Ok ()).

(** The tail of [enqueue] and [push], after the cell is written: advance the
    counter; if the phase moved since the last write, a new batch begins and the
    caller gets its base slot. *)
Definition publish (write_index : Z) : queue_op (option Z) :=
  base_slot ← fetch_add_slot;
  prev_slot ← replace_slot (wrapping_add usize_bits base_slot (shl usize_bits 1 INDEX_SHIFT));
  if Z.land (Z.lxor base_slot prev_slot) PHASE =? 0 then mret None
  else occupy_region write_index ;; mret (Some base_slot).
End owner.

(** [StackQueue<BufferCell<T>, N>::push]. A cell is [MaybeUninit<T>]; the base slot
    stands for the [UnboundedRange] built from it. *)
Definition push {C : QueueCfg} {T D : Type} (task : T)
  : M (StackQueue (option T) D) (result (option Z) T) :=
  write_index ← current_write_index;
  check ← check_write_index write_index;
  match check with
  | Err _ => mret (Err task)
  | Ok _ =>
      write_cell write_index (Some task) ;;
      batch ← publish write_index;
      mret (Ok batch)
  end.

(** [StackQueue<TaskRef<T>, N>::enqueue]; [write_with] receives the index of the
    [TaskRef] it is to initialise, inside the world it captures. *)
Definition enqueue {C : QueueCfg} {cell D X E : Type}
  (write_with : Z → M (world cell D X E) unit)
  : M (world cell D X E) (result (option Z) QueueFull) :=
  write_index ← on_queue current_write_index;
  check ← on_queue (check_write_index write_index);
  match check with
  | Err e => mret (Err e)
  | Ok _ =>
      on_queue (read_cell write_index) ;;
      write_with write_index ;;
      batch ← on_queue (publish write_index);
      mret (Ok batch)
  end.

(** [StackQueue::default] over a fresh deque; with debug assertions on, a bad [N]
    panics. *)
Definition new_queue {C : QueueCfg} {cell W D : Type} `{Deque W D} (uninit : cell)
  : StackQueue cell D :=
  mkStackQueue PHASE 0 (mkInner 0 0 (replicate (Z.to_nat N) uninit)) worker_new_fifo.

Definition stack_queue_default {C : QueueCfg} {cell W D : Type} `{Deque W D}
  (debug_assertions : bool) (uninit : cell) : option (StackQueue cell D) :=
  if debug_assertions && negb buffer_len_ok then None else Some (new_queue uninit).

(** * Operations of the guards *)
Section guards.
Context {C : QueueCfg} {cell W D X V P : Type} `{Deque W D}.
Abbreviation world_op A := (M (world cell D X (event W V P)) A).

Definition steal_waker : world_op (Steal W) :=
  on_queue (λ q, let (r, d) := stealer_steal (pending q) in Done (r, set_pending d q)).

(** The [while batch_limit.gt(&0)] loop of [deoccupy_region]. *)
Fixpoint wake_pending (fuel : nat) (batch_limit : Z) : world_op unit :=
  match fuel with
  | O => out_of_fuel
  | S fuel =>
      if 0 <? batch_limit then
        r ← steal_waker;
        match r with
        | Empty => mret ()
        | Success waker =>
            emit (Woken waker) ;;
            wake_pending fuel (wrapping_sub usize_bits batch_limit 1)
        | Retry => wake_pending fuel batch_limit
        end
      else mret ()
  end.

Definition deoccupy_region (index : Z) : world_op unit :=
  let one_shifted := one_shifted index in
  prev ← on_queue (fetch_sub_occupancy one_shifted);
  if prev =? one_shifted then
    limit_of_retries ← on_queue (gets (λ q, contention (pending q)));
    wake_pending (S (Z.to_nat region_size + limit_of_retries)) region_size
  else mret ().

(** [pending.push(waker)]. *)
Definition push_pending (waker : W) : world_op unit :=
  on_queue (modify (λ q, set_pending (worker_push waker (pending q)) q)).
End guards.

(** * How the operations run *)
Lemma steal_waker_run {cell W D X V P : Type} `{Deque W D} (w : world cell D X (event W V P)) r d :
  stealer_steal (pending (queue w)) = (r, d) →
  steal_waker w = Done (r, set_queue (set_pending d (queue w)) w).
Proof. intros Hs. unfold steal_waker, on_queue, zoom. by rewrite Hs. Qed.

(** The slots of a queue that has seen [count] tasks: [phase] is the phase of the
    shared slot, [local] the phase of the thread-local copy. *)
Definition slots_at {C : QueueCfg} {cell D : Type} (count : Z) (phase local : bool)
  (q : StackQueue cell D) : Prop :=
  slot (inner q) = slot_word count phase ∧ sq_slot q = slot_word count local.

(** Both slots after one more task, from a shared slot of phase [phase]. *)
Definition advanced {C : QueueCfg} {cell D : Type} (count : Z) (phase : bool)
  (q : StackQueue cell D) : StackQueue cell D :=
  set_sq_slot (slot_word (count + 1) phase) (set_slot (slot_word (count + 1) phase) q).

(** Both occupancies after a batch starting at [index] is counted. *)
Definition occupied {C : QueueCfg} {cell D : Type} (index : Z) (q : StackQueue cell D)
  : StackQueue cell D :=
  let o := wrapping_add usize_bits (occupancy (inner q)) (one_shifted index) in
  set_sq_occupancy o (set_occupancy o q).

Section runs.
Context {C : QueueCfg} {HV : ValidCfg} {cell D : Type}.
Implicit Types q : StackQueue cell D.

Lemma current_write_index_run count phase q :
  sq_slot q = slot_word count phase → current_write_index q = Done (count mod N, q).
Proof. intros Hs. unfold current_write_index. run. by rewrite Hs, slot_index_word. Qed.

Lemma at_region_start_mod index : at_region_start index = (index mod region_size =? 0).
Proof. unfold at_region_start. by rewrite land_region. Qed.

(** The check succeeds on the local copy or on the fresh value, and then the local
    copy is refreshed. *)
Lemma check_regional_occupancy_run index q :
  check_regional_occupancy index q =
    if Z.land (sq_occupancy q) (region_mask index) =? 0 then Done (Ok (), q)
    else Done (if Z.land (occupancy (inner q)) (region_mask index) =? 0
               then Ok () else Err queue_full,
               set_sq_occupancy (occupancy (inner q)) q).
Proof.
  unfold check_regional_occupancy, load_occupancy. run.
  destruct (_ =? 0); [done|]. run. by destruct (_ =? 0).
Qed.

Lemma check_write_index_run index q :
  check_write_index index q =
    if at_region_start index then check_regional_occupancy index q else Done (Ok (), q).
Proof. unfold check_write_index. by destruct (at_region_start index). Qed.

Lemma write_cell_run index c q :
  0 ≤ index < Z.of_nat (length (buffer (inner q))) →
  write_cell index c q
    = Done ((), set_buffer (<[Z.to_nat index := c]> (buffer (inner q))) q).
Proof.
  intros Hi. unfold write_cell. run.
  destruct (lookup_lt_is_Some_2 (buffer (inner q)) (Z.to_nat index)) as [c' Hc']; [lia|].
  erewrite run_bind by (apply run_get_unchecked; [lia|done]). done.
Qed.

Lemma occupy_region_run index q : occupy_region index q = Done ((), occupied index q).
Proof. reflexivity. Qed.

Lemma publish_run index count phase local q :
  slots_at count phase local q →
  publish index q =
    if eqb phase local then Done (None, advanced count phase q)
    else Done (Some (slot_word count phase), occupied index (advanced count phase q)).
Proof.
  intros [Hs Hl]. unfold publish.
  erewrite run_bind by reflexivity. rewrite Hs. erewrite run_bind by reflexivity.
  rewrite slot_word_next. change (sq_slot (set_slot _ q)) with (sq_slot q). rewrite Hl, same_phase_slots.
  unfold advanced. by destruct (eqb phase local).
Qed.
End runs.

(** ** [push] *)
Section push_runs.
Context {C : QueueCfg} {HV : ValidCfg} {T D : Type}.
Implicit Types q : StackQueue (option T) D.

Lemma push_full task count phase local q q' :
  slots_at count phase local q →
  check_write_index (count mod N) q = Done (Err queue_full, q') →
  push task q = Done (Err task, q').
Proof.
  intros [Hs Hl] Hc. unfold push. run_with (current_write_index_run _ _ _ Hl). by run_with Hc.
Qed.

Lemma push_ok task count phase local q q' :
  slots_at count phase local q → length (buffer (inner q)) = Z.to_nat N →
  check_write_index (count mod N) q = Done (Ok (), q') →
  let q1 := set_buffer (<[Z.to_nat (count mod N) := Some task]> (buffer (inner q))) q' in
  push task q =
    if eqb phase local then Done (Ok None, advanced count phase q1)
    else Done (Ok (Some (slot_word count phase)),
               occupied (count mod N) (advanced count phase q1)).
Proof.
  intros [Hs Hl] Hlen Hc q1. unfold push.
  run_with (current_write_index_run _ _ _ Hl). run_with Hc.
  assert (inner q' = inner q ∧ sq_slot q' = sq_slot q) as [Hi Hsl].
  { rewrite check_write_index_run, check_regional_occupancy_run in Hc.
    destruct (at_region_start _); [|by simplify_eq].
    destruct (_ =? 0); by simplify_eq. }
  pose proof N_ge_64. pose proof (Z.mod_pos_bound count N).
  erewrite run_bind by (apply write_cell_run; rewrite Hi, Hlen; lia).
  rewrite Hi. fold q1.
  assert (slots_at count phase local q1) as Hq1 by (split; simpl; congruence).
  unfold mbind, M_bind. rewrite (publish_run _ _ _ _ _ Hq1). by destruct (eqb phase local).
Qed.
End push_runs.

(** ** Waking parked tasks *)
Section wake_runs.
Context {C : QueueCfg} {HV : ValidCfg} {cell W D X V P : Type} `{DequeLaws W D}.
Implicit Types w : world cell D X (event W V P).

(** The wakers of [wake_pending limit]: the oldest ones, at most [limit]. *)
Definition wakeable (limit : Z) w : list W :=
  take (Z.to_nat limit) (deque_items (pending (queue w))).

(** A world after the wakers [ws] were woken. *)
Definition after_waking (ws : list W) w w' : Prop :=
  ext w' = ext w ∧ trace w' = trace w ++ map Woken ws
  ∧ (∃ d, queue w' = set_pending d (queue w))
  ∧ deque_items (pending (queue w)) = ws ++ deque_items (pending (queue w')).

(** With fuel for every waker it may wake and every retry, the loop ends, having
    woken the oldest [limit] wakers in order. *)
Lemma wake_pending_run fuel limit w :
  0 ≤ limit < 2 ^ usize_bits →
  (Z.to_nat limit + contention (pending (queue w)) < fuel)%nat →
  ∃ w', wake_pending fuel limit w = Done ((), w') ∧ after_waking (wakeable limit w) w w'.
Proof.
  revert limit w. induction fuel as [|fuel IH]; intros limit w Hl Hf; [lia|].
  simpl. unfold wakeable. destruct (Z.ltb_spec 0 limit).
  2:{ exists w. replace limit with 0 by lia. split; [done|]. repeat split; simpl.
      - by rewrite app_nil_r.
      - exists (pending (queue w)). by destruct w as [[] ? ?]. }
  unfold steal_waker, on_queue, zoom. unfold mbind at 1, M_bind at 1.
  pose proof (steal_items (pending (queue w))) as Hst.
  destruct (stealer_steal (pending (queue w))) as [[|wk|] d].
  - destruct Hst as [Hi Hd]. eexists. split; [reflexivity|]. rewrite Hi, take_nil.
    repeat split; simpl; [by rewrite app_nil_r|by exists d|by rewrite Hi, Hd].
  - destruct Hst as [Hi Hc]. unfold wrapping_sub.
    rewrite wrap_small by (split; lia).
    erewrite run_bind by reflexivity. simpl.
    destruct (IH (limit - 1) (mkWorld (set_pending d (queue w)) (ext w)
      (trace w ++ [Woken wk]))) as (w' & Hw & Hx & Ht & [d' Hq] & Hd); [lia|simpl; lia|].
    exists w'. split; [exact Hw|]. simpl in *. unfold wakeable in *. simpl in *.
    rewrite Hi. replace (Z.to_nat limit) with (S (Z.to_nat (limit - 1))) by lia. simpl.
    repeat split; [done| |by exists d'|rewrite Hi; simpl; congruence].
    by rewrite Ht, <- app_assoc.
  - destruct Hst as [Hi Hc].
    destruct (IH limit (set_queue (set_pending d (queue w)) w))
      as (w' & Hw & Hx & Ht & [d' Hq] & Hd); [lia|simpl; lia|].
    exists w'. split; [exact Hw|]. simpl in *. unfold wakeable in *. simpl in *.
    rewrite <- Hi. repeat split; [done|done|by exists d'|congruence].
Qed.

(** [deoccupy_region] always returns; it wakes nobody unless the occupancy word
    becomes zero, and then the oldest [region_size] parked wakers. *)
Lemma deoccupy_region_run index w :
  0 ≤ index < N →
  let occ := occupancy (inner (queue w)) in
  let w1 := set_queue (set_occupancy
    (wrapping_sub usize_bits occ (one_shifted index)) (queue w)) w in
  if decide (occ = one_shifted index)
  then ∃ w', deoccupy_region index w = Done ((), w')
             ∧ after_waking (wakeable region_size w1) w1 w'
  else deoccupy_region index w = Done ((), w1).
Proof.
  intros Hi occ w1. unfold deoccupy_region.
  assert (on_queue (fetch_sub_occupancy (one_shifted index)) w = Done (occ, w1)) as Hf
    by reflexivity.
  run_with Hf. case_decide as Ho.
  - rewrite (proj2 (Z.eqb_eq _ _) Ho).
    assert (on_queue (gets (λ q, contention (pending q))) w1
      = Done (contention (pending (queue w1)), w1)) as Hc by reflexivity.
    run_with Hc. apply wake_pending_run; [|lia].
    pose proof region_size_bounds. pose proof N_regions. pose proof N_lt_counter.
    pose proof pow_usize_bits. pose proof (pow2_pos INDEX_SHIFT).
    pose proof INDEX_SHIFT_bounds.
    assert (1 ≤ REGION_COUNT) by (unfold REGION_COUNT; destruct cfg_target; lia). nia.
  - by apply Z.eqb_neq in Ho as ->.
Qed.
End wake_runs.
