(* ===== verification/Ranges.v ===== *)
(** [assignment.rs], the guards over plain buffer cells: [UnboundedRange],
    [BoundedRange] and [BufferIter], with their destructors. *)
From S2P Require Import Prelude Usize Helpers Deque Queue.
Local Open Scope Z_scope.

(** [std::mem::needs_drop::<T>()]. *)
Class NeedsDrop (T : Type) : Type := needs_drop : bool.

Record UnboundedRange : Type := mkUnboundedRange { ub_base_slot : Z }.
Record BoundedRange : Type := mkBoundedRange { range_start : Z; range_end : Z }.
Record BufferIter : Type := mkBufferIter { current : Z; iter_range : BoundedRange }.

(** The numbers a [Range<usize>] yields: none when it is inverted. *)
Definition range_iter (r : BoundedRange) : list Z :=
  seqZ (range_start r) (range_end r - range_start r).

Section slices.
Context {C : QueueCfg} {cell : Type}.

(** [index & (N - 1)]. *)
Definition index_mask (index : Z) : Z := Z.land index (wrapping_sub usize_bits N 1).

(** The two slices of the circular buffer a range covers. *)
Definition circular_slices {S : Type} (buf : list cell) (r : BoundedRange)
  : M S (list cell * list cell) :=
  let start := index_mask (range_start r) in
  let stop := index_mask (range_end r) in
  if start <? stop then
    front ← get_unchecked_range buf start stop; mret (front, [])
  else
    front ← get_unchecked_range buf start N;
    back ← get_unchecked_range buf 0 stop;
    mret (front, back).
End slices.

Section ranges.
Context {C : QueueCfg} {T W D X P : Type} `{Deque W D} `{NeedsDrop T}.
Abbreviation world := (world (option T) D X (event W T P)).
Abbreviation op A := (M world A).

(** [with_buffer_cell] reading the task of a cell with [assume_init_read]. *)
Definition read_task (index : Z) : op T :=
  c ← on_queue (read_cell index); assume_init c.

(** [with_buffer_cell] running the destructor of a cell with [assume_init_drop]. *)
Definition drop_task (index : Z) : op unit :=
  task ← read_task index; emit (Dropped task).

Definition set_bounds (r : UnboundedRange) : op BoundedRange :=
  end_slot ← on_queue fetch_xor_slot;
  mret (mkBoundedRange (shr usize_bits (ub_base_slot r) INDEX_SHIFT)
                       (shr usize_bits end_slot INDEX_SHIFT)).

Definition into_bounded (r : UnboundedRange) : op BoundedRange :=
  range ← set_bounds r; mret range.

Definition drop_range (r : BoundedRange) : op unit :=
  if needs_drop (T := T)
  then for_each (range_iter r) (λ index, drop_task (index_mask index))
  else mret ().

(** [Drop for UnboundedRange] *)
Definition drop_unbounded (r : UnboundedRange) : op unit :=
  task_range ← set_bounds r;
  let start_index := index_mask (range_start task_range) in
  drop_range task_range ;;
  deoccupy_region start_index.

(** The transmute of initialised cells to tasks. *)
Fixpoint init_all (cells : list (option T)) : op (list T) :=
  match cells with
  | [] => mret []
  | c :: cells => t ← assume_init c; ts ← init_all cells; mret (t :: ts)
  end.

Definition as_slices (b : BoundedRange) : op (list T * list T) :=
  w ← gets id;
  raw ← circular_slices (buffer (inner (queue w))) b;
  front ← init_all raw.1;
  back ← init_all raw.2;
  mret (front, back).

Definition iter (b : BoundedRange) : op (list T) :=
  tasks ← as_slices b; mret (tasks.1 ++ tasks.2).

Definition deoccupy_buffer (b : BoundedRange) : op unit :=
  deoccupy_region (index_mask (range_start b)).

Definition to_vec (b : BoundedRange) : op (list T) :=
  items ← as_slices b;
  let buffer := items.1 ++ (if bool_decide (0 < length items.2)%nat then items.2 else []) in
  deoccupy_buffer b ;;
  mret buffer.

(** [Drop for BoundedRange] *)
Definition drop_bounded (b : BoundedRange) : op unit :=
  drop_range b ;; deoccupy_buffer b.

Definition into_iter (b : BoundedRange) : BufferIter :=
  mkBufferIter (range_start b) b.

(** [Iterator::next], with the iterator it leaves. *)
Definition next (it : BufferIter) : op (option T * BufferIter) :=
  if current it <? range_end (iter_range it) then
    task ← read_task (index_mask (current it));
    mret (Some task, mkBufferIter (wrapping_add usize_bits (current it) 1) (iter_range it))
  else mret (None, it).

(** Calls of [next] until it returns [None]; [sink] gets each task. One call of
    [next] per task and a last one: that many steps are always enough. *)
Fixpoint next_loop (fuel : nat) (it : BufferIter) (sink : T → op unit) : op BufferIter :=
  match fuel with
  | O => out_of_fuel
  | S fuel =>
      n ← next it;
      match n with
      | (Some task, it) => sink task ;; next_loop fuel it sink
      | (None, it) => mret it
      end
  end.

Definition iter_fuel (it : BufferIter) : nat :=
  S (Z.to_nat (range_end (iter_range it) - current it)).

(** [Drop for BufferIter]: the tasks nobody asked for, then the region. *)
Definition drop_iter (it : BufferIter) : op unit :=
  (if needs_drop (T := T)
   then next_loop (iter_fuel it) it (λ task, emit (Dropped task)) ;; mret ()
   else mret ()) ;;
  deoccupy_buffer (iter_range it).

(** [n] calls of [next], then the iterator is dropped; the tasks are returned. *)
Fixpoint take_then_drop (n : nat) (it : BufferIter) : op (list T) :=
  match n with
  | O => drop_iter it ;; mret []
  | S n =>
      r ← next it;
      match r with
      | (Some task, it) => tasks ← take_then_drop n it; mret (task :: tasks)
      | (None, it) => drop_iter it ;; mret []
      end
  end.

(** [with_blocking] of the two ranges: what the [JoinHandle] gives. When the runtime shuts
    down before it starts the closure, the closure is dropped with the range inside. *)
Definition unbounded_with_blocking {R : Type} (started : bool) (f : UnboundedRange → op R)
  (r : UnboundedRange) : op (option R) :=
  if started then x ← f r; mret (Some x) else drop_unbounded r ;; mret None.

Definition bounded_with_blocking {R : Type} (started : bool) (f : BoundedRange → op R)
  (b : BoundedRange) : op (option R) :=
  if started then x ← f b; mret (Some x) else drop_bounded b ;; mret None.
End ranges.

(** * Ranges of task numbers *)

(** A bounded range as the protocol makes it: the words of two task numbers. *)
Definition range_of {C : QueueCfg} (start stop : Z) : BoundedRange :=
  mkBoundedRange (start mod counter_modulus) (stop mod counter_modulus).

(** The cells of [start ..] hold [tasks], in order. *)
Definition holds {C : QueueCfg} {T : Type} (buf : list (option T)) (start : Z) (tasks : list T)
  : Prop :=
  ∀ i t, tasks !! i = Some t → buf !! Z.to_nat ((start + Z.of_nat i) mod N) = Some (Some t).

Section circular.
Context {C : QueueCfg} {HV : ValidCfg} {cell : Type}.

Lemma index_mask_mod i : index_mask i = i mod N.
Proof. apply land_N. Qed.

Lemma index_mask_word i : index_mask (i mod counter_modulus) = i mod N.
Proof. rewrite index_mask_mod. apply mod_counter_mod_N. Qed.

Lemma lookup_window {A : Type} (l : list A) (b e : nat) i :
  (i < e - b)%nat → take (e - b) (drop b l) !! i = l !! (b + i)%nat.
Proof. intros. by rewrite lookup_take_lt, lookup_drop by lia. Qed.

Lemma mod_N_add k s : s mod N + k < N → 0 ≤ k → (s + k) mod N = s mod N + k.
Proof.
  intros. pose proof N_ge_64. pose proof (Z.mod_pos_bound s N).
  rewrite <- Zplus_mod_idemp_l. apply Z.mod_small. lia.
Qed.

Lemma mod_N_add_wrap s k : N ≤ s mod N + k < 2 * N → (s + k) mod N = s mod N + k - N.
Proof.
  intros. pose proof N_ge_64. pose proof (Z.mod_pos_bound s N).
  rewrite <- Zplus_mod_idemp_l. replace (s mod N + k) with (s mod N + k - N + 1 * N) at 1 by lia.
  rewrite Z.mod_add by lia. apply Z.mod_small. lia.
Qed.

(** The slices are the cells of the range in order, also when the range passes the
    end of the buffer, when the counter wraps inside it, and when it is full. *)
Lemma circular_slices_run {S : Type} (buf : list cell) start stop (s : S) :
  length buf = Z.to_nat N → 1 ≤ stop - start ≤ N →
  ∃ front back, circular_slices buf (range_of start stop) s = Done ((front, back), s)
    ∧ length (front ++ back) = Z.to_nat (stop - start)
    ∧ ∀ i, (i < Z.to_nat (stop - start))%nat →
        (front ++ back) !! i = buf !! Z.to_nat ((start + Z.of_nat i) mod N).
Proof.
  intros Hlen Hss. pose proof N_ge_64. unfold circular_slices, range_of. simpl.
  rewrite !index_mask_word.
  assert (0 < N) as HN by lia.
  pose proof (Z.mod_pos_bound start N HN). pose proof (Z.mod_pos_bound stop N HN).
  destruct (decide (start mod N + (stop - start) < N)) as [Hin|Hout].
  - assert (stop mod N = start mod N + (stop - start)) as He.
    { rewrite <- (mod_N_add (stop - start) start) by lia. f_equal. lia. }
    rewrite (proj2 (Z.ltb_lt _ _)) by lia.
    erewrite run_bind by (apply run_get_unchecked_range; lia). cbv beta.
    do 2 eexists. split; [reflexivity|]. rewrite app_nil_r.
    replace (Z.to_nat (stop mod N - start mod N)) with (Z.to_nat (stop - start)) by lia.
    split; [rewrite length_take, length_drop; lia|]. intros i Hi.
    rewrite lookup_take_lt, lookup_drop by lia. f_equal. rewrite mod_N_add by lia. lia.
  - assert (stop mod N = start mod N + (stop - start) - N) as He.
    { rewrite <- (mod_N_add_wrap start (stop - start)) by lia. f_equal. lia. }
    rewrite (proj2 (Z.ltb_ge _ _)) by lia.
    do 2 (erewrite run_bind by (apply run_get_unchecked_range; lia); cbv beta).
    do 2 eexists. split; [reflexivity|].
    set (front := take _ (drop (Z.to_nat (start mod N)) buf)).
    assert (length front = Z.to_nat (N - start mod N)) as Hf.
    { unfold front. rewrite length_take, length_drop. lia. }
    split; [rewrite length_app, Hf, length_take, length_drop; lia|]. intros i Hi.
    destruct (decide (i < length front)%nat) as [Hlt|Hge].
    + rewrite lookup_app_l by done. unfold front.
      rewrite lookup_take_lt, lookup_drop by lia. f_equal. rewrite mod_N_add by lia. lia.
    + rewrite lookup_app_r, Hf, lookup_take_lt, lookup_drop by lia. f_equal.
      rewrite mod_N_add_wrap by lia. lia.
Qed.
End circular.

(** * How the guards run over a queue that holds their tasks *)
Section range_runs.
Context {C : QueueCfg} {HV : ValidCfg} {T W D X P : Type} `{DequeLaws W D} `{NeedsDrop T}.
Abbreviation world := (world (option T) D X (event W T P)).
Implicit Types (w : world) (tasks : list T).

Abbreviation cells w := (buffer (inner (queue w))).

(** The cells of the batch starting at number [start] hold [tasks]. *)
Definition stored start tasks w : Prop :=
  length (cells w) = Z.to_nat N ∧ 1 ≤ Z.of_nat (length tasks) ≤ N ∧ holds (cells w) start tasks.

(** The numbers of the batch do not pass a multiple of the counter's modulus. *)
Definition no_counter_wrap start tasks : Prop :=
  start mod counter_modulus + Z.of_nat (length tasks) < counter_modulus.

Definition batch_range start tasks : BoundedRange :=
  range_of start (start + Z.of_nat (length tasks)).

(** The destructors of [tasks] ran, when the type has one. *)
Definition after_drops tasks w : world :=
  if needs_drop (T := T) then mkWorld (queue w) (ext w) (trace w ++ map Dropped tasks) else w.

(** The world a release of the batch's region leads to. *)
Definition released start w w' : Prop :=
  deoccupy_region (start mod N) w = Done ((), w').

Lemma release_returns start w : ∃ w', released start w w'.
Proof.
  assert (0 <= start mod N < N) as Hb by (apply Z.mod_pos_bound; pose proof N_ge_64; lia).
  pose proof (deoccupy_region_run (start mod N) w Hb) as Hr. cbv zeta in Hr.
  case_decide; [destruct Hr as (w' & Hr & _)|]; eexists; exact Hr.
Qed.

Lemma after_drops_nil w : after_drops [] w = w.
Proof. unfold after_drops. destruct needs_drop; [|done]. rewrite app_nil_r. by destruct w. Qed.

Lemma holds_word buf start tasks :
  holds buf start tasks → holds buf (start mod counter_modulus) tasks.
Proof.
  intros Hh i t Hi. rewrite <- Zplus_mod_idemp_l, mod_counter_mod_N, Zplus_mod_idemp_l. auto.
Qed.

Lemma holds_cons buf s t tasks :
  holds buf s (t :: tasks) →
  buf !! Z.to_nat (s mod N) = Some (Some t) ∧ holds buf (s + 1) tasks.
Proof.
  intros Hh. split.
  - rewrite <- (Hh 0%nat t eq_refl). do 3 f_equal. lia.
  - intros i t' Hi. rewrite <- (Hh (S i) t' Hi). do 3 f_equal. lia.
Qed.

Lemma read_task_run s t w :
  cells w !! Z.to_nat (s mod N) = Some (Some t) →
  read_task (index_mask s) w = Done (t, w).
Proof.
  intros Hc. pose proof N_ge_64. rewrite index_mask_mod. unfold read_task.
  assert (on_queue (X := X) (E := event W T P) (read_cell (s mod N)) w
    = Done (Some t, w)) as Hr.
  { destruct w as [q x tr]. unfold on_queue.
    erewrite run_zoom; [reflexivity|]. unfold read_cell. run.
    apply run_get_unchecked; [apply Z.mod_pos_bound; lia|exact Hc]. }
  by run_with Hr.
Qed.

Lemma drop_task_run s t w :
  cells w !! Z.to_nat (s mod N) = Some (Some t) →
  drop_task (index_mask s) w = Done ((), mkWorld (queue w) (ext w) (trace w ++ [Dropped t])).
Proof. intros Hc. unfold drop_task. by run_with (read_task_run _ _ _ Hc). Qed.

Lemma drop_each_run tasks s w :
  holds (cells w) s tasks →
  for_each (seqZ s (Z.of_nat (length tasks))) (λ i, drop_task (index_mask i)) w
    = Done ((), mkWorld (queue w) (ext w) (trace w ++ map Dropped tasks)).
Proof.
  revert s w. induction tasks as [|t tasks IH]; intros s w Hh.
  - simpl. rewrite app_nil_r. by destruct w.
  - apply holds_cons in Hh as [Hc Hh]. cbn [length]. rewrite seqZ_cons by lia. simpl for_each.
    run_with (drop_task_run _ _ _ Hc).
    replace (Z.pred (Z.of_nat (S (length tasks)))) with (Z.of_nat (length tasks)) by lia.
    rewrite <- Z.add_1_r. rewrite IH by done. simpl. by rewrite <- app_assoc.
Qed.

(** The bounds of the batch's range as plain numbers, when they do not wrap. *)
Lemma batch_range_eq start tasks :
  no_counter_wrap start tasks →
  batch_range start tasks
    = let s := start mod counter_modulus in mkBoundedRange s (s + Z.of_nat (length tasks)).
Proof.
  intros Hn. unfold batch_range, range_of. f_equal. pose proof counter_modulus_pos as Hp.
  pose proof (Z.mod_pos_bound start _ Hp). unfold no_counter_wrap in Hn.
  rewrite <- Zplus_mod_idemp_l. apply Z.mod_small. lia.
Qed.

Lemma drop_range_run start tasks w :
  stored start tasks w → no_counter_wrap start tasks →
  drop_range (T := T) (batch_range start tasks) w = Done ((), after_drops tasks w).
Proof.
  intros (_ & _ & Hh) Hn. unfold drop_range, after_drops. destruct needs_drop; [|done].
  rewrite (batch_range_eq _ _ Hn). unfold range_iter. cbn [range_start range_end].
  rewrite Z.add_simpl_l. by apply drop_each_run, holds_word.
Qed.

Lemma batch_release start tasks w w' :
  released start w w' → deoccupy_buffer (batch_range start tasks) w = Done ((), w').
Proof.
  unfold released, deoccupy_buffer, batch_range, range_of. cbn. by rewrite index_mask_word.
Qed.

(** ** The iterator *)
Lemma next_some s stop start t w :
  s < stop → 0 ≤ s → stop ≤ counter_modulus →
  cells w !! Z.to_nat (s mod N) = Some (Some t) →
  next (mkBufferIter s (mkBoundedRange start stop)) w
    = Done ((Some t, mkBufferIter (s + 1) (mkBoundedRange start stop)), w).
Proof.
  intros Hs Hz Hm Hc. unfold next. cbn [current iter_range range_end].
  rewrite (proj2 (Z.ltb_lt _ _) Hs). run_with (read_task_run _ _ _ Hc).
  unfold wrapping_add. rewrite wrap_small; [done|]. split; [lia|].
  rewrite pow_usize_bits. pose proof INDEX_SHIFT_bounds. pose proof (pow2_pos INDEX_SHIFT).
  assert (2 ^ 1 ≤ 2 ^ INDEX_SHIFT) by (apply Z.pow_le_mono_r; lia). nia.
Qed.

Lemma next_none s stop start w :
  stop ≤ s →
  next (mkBufferIter s (mkBoundedRange start stop)) w
    = Done ((None, mkBufferIter s (mkBoundedRange start stop)), w).
Proof. intros Hs. unfold next. cbn. by rewrite (proj2 (Z.ltb_ge _ _) Hs). Qed.

(** Iterating to the end gives every task to the loop's body, in order, as long as that leaves
    the queue alone. *)
Lemma next_loop_sink (sink : T → M world unit) (after : T → world → world) tasks fuel s start w :
  let stop := s + Z.of_nat (length tasks) in
  (∀ t w, sink t w = Done ((), after t w) ∧ queue (after t w) = queue w) →
  (length tasks < fuel)%nat → 0 ≤ s → stop ≤ counter_modulus →
  holds (cells w) s tasks →
  next_loop fuel (mkBufferIter s (mkBoundedRange start stop)) sink w
    = Done (mkBufferIter stop (mkBoundedRange start stop), foldl (flip after) w tasks).
Proof.
  intros stop Hsink. revert fuel s w stop.
  induction tasks as [|t tasks IH]; intros [|fuel] s w stop Hf Hz Hm Hh;
    [simpl in Hf; lia| |simpl in Hf; lia|]; subst stop; cbn [length] in *; simpl next_loop.
  - run_with (next_none s (s + Z.of_nat 0) start w ltac:(lia)).
    change (Z.of_nat 0) with 0. by rewrite Z.add_0_r.
  - apply holds_cons in Hh as [Hc Hh]. destruct (Hsink t w) as [Ht Hq].
    replace (s + Z.of_nat (S (length tasks))) with (s + 1 + Z.of_nat (length tasks)) in * by lia.
    erewrite run_bind by (apply next_some; [lia..|exact Hc]). cbv beta iota.
    run_with Ht. by rewrite IH by (rewrite ?Hq; simpl; done || lia).
Qed.

Lemma next_loop_run tasks fuel s start w :
  let stop := s + Z.of_nat (length tasks) in
  (length tasks < fuel)%nat → 0 ≤ s → stop ≤ counter_modulus →
  holds (cells w) s tasks →
  next_loop fuel (mkBufferIter s (mkBoundedRange start stop)) (λ t, emit (Dropped t)) w
    = Done (mkBufferIter stop (mkBoundedRange start stop),
            mkWorld (queue w) (ext w) (trace w ++ map Dropped tasks)).
Proof.
  intros stop Hf Hz Hm Hh. set (after := λ (t : T) (w : world), mkWorld (queue w) (ext w) (trace w ++ [Dropped t])).
  unfold stop. rewrite (next_loop_sink _ after) by done. do 2 f_equal. clear.
  revert w. induction tasks as [|t tasks IH]; intros w; simpl.
  - rewrite app_nil_r. by destruct w.
  - rewrite IH. simpl. by rewrite <- app_assoc.
Qed.

Lemma drop_iter_run start tasks s w :
  let stop := s + Z.of_nat (length tasks) in
  0 ≤ s → stop ≤ counter_modulus → holds (cells w) s tasks →
  drop_iter (mkBufferIter s (mkBoundedRange start stop)) w
    = deoccupy_region (start mod N) (after_drops tasks w).
Proof.
  intros stop Hz Hm Hh. unfold drop_iter, after_drops, deoccupy_buffer.
  cbn [iter_range range_start]. rewrite index_mask_mod.
  destruct (needs_drop (T := T)); [|reflexivity].
  erewrite run_bind; [reflexivity|]. erewrite run_bind; [reflexivity|].
  apply next_loop_run; [|done..].
  unfold iter_fuel. cbn. unfold stop. lia.
Qed.

Lemma take_then_drop_run n tasks start s w w' :
  let stop := s + Z.of_nat (length tasks) in
  0 ≤ s → stop ≤ counter_modulus → holds (cells w) s tasks →
  released start (after_drops (drop n tasks) w) w' →
  take_then_drop n (mkBufferIter s (mkBoundedRange start stop)) w = Done (take n tasks, w').
Proof.
  revert n s. induction tasks as [|t tasks IH]; intros [|n] s stop Hz Hm Hh Hrel;
    unfold released in Hrel; subst stop; simpl take_then_drop; cbn [length drop take] in *.
  - rewrite <- (drop_iter_run start [] s) in Hrel by done. by run_with Hrel.
  - run_with (next_none s (s + Z.of_nat 0) start w ltac:(lia)).
    rewrite <- (drop_iter_run start [] s) in Hrel by done. by run_with Hrel.
  - rewrite <- (drop_iter_run start (t :: tasks) s) in Hrel by done. by run_with Hrel.
  - apply holds_cons in Hh as [Hc Hh].
    replace (s + Z.of_nat (S (length tasks))) with (s + 1 + Z.of_nat (length tasks)) in * by lia.
    erewrite run_bind by (apply next_some; [lia..|exact Hc]). cbv beta iota.
    erewrite run_bind by (apply IH; [lia|done..]). done.
Qed.

(** ** The slices *)
Lemma init_all_run tasks w : init_all (Some <$> tasks) w = Done (tasks, w).
Proof. induction tasks as [|t tasks IH]; [done|]. simpl. run. by run_with IH. Qed.

Lemma fmap_app_split {A B : Type} (f : A → B) (l : list A) (l1 l2 : list B) :
  l1 ++ l2 = f <$> l → ∃ k1 k2, l = k1 ++ k2 ∧ l1 = f <$> k1 ∧ l2 = f <$> k2.
Proof. intros He. symmetry in He. apply fmap_app_inv in He as (?&?&?&?&?). eauto 6. Qed.

Lemma as_slices_run start tasks w :
  stored start tasks w →
  ∃ front back, as_slices (batch_range start tasks) w = Done ((front, back), w)
    ∧ front ++ back = tasks.
Proof.
  intros (Hlen & Hlt & Hh). unfold as_slices. run.
  destruct (circular_slices_run (cells w) start (start + Z.of_nat (length tasks)) w Hlen)
    as (f & b & Hcs & Hl & Hfb); [lia|].
  run_with Hcs.
  assert (f ++ b = Some <$> tasks) as Heq.
  { apply list_eq_same_length with (length tasks); [by rewrite length_fmap|lia|].
    intros i x y Hi Hx Hy. rewrite Hfb in Hx by lia.
    apply list_lookup_fmap_Some in Hy as (t & -> & Ht). rewrite (Hh i t Ht) in Hx. congruence. }
  apply fmap_app_split in Heq as (front & back & -> & -> & ->).
  exists front, back. simpl. run_with (init_all_run front w). by run_with (init_all_run back w).
Qed.
End range_runs.
