(* ===== verification/Consumption.v ===== *)
(** What the range guards promise: every way of consuming a batch hands out or drops
    each of its tasks exactly once and releases its region once; and where the code
    falls short of that, when the task counter wraps inside the batch. *)
From S2P Require Import Prelude Usize Helpers Deque Queue Ranges.
Local Open Scope Z_scope.

(** The world after the shared phase bit moved. *)
Definition closed {C : QueueCfg} {cell D X E : Type} (w : world cell D X E) : world cell D X E :=
  set_queue (set_slot (Z.lxor (slot (inner (queue w))) PHASE) (queue w)) w.

Section consumption.
Context {C : QueueCfg} {HV : ValidCfg} {T W D X P : Type} `{DequeLaws W D} `{NeedsDrop T}.
Implicit Types (w : world (option T) D X (event W T P)) (tasks : list T).

Lemma to_vec_run start tasks w w' :
  stored start tasks w → released start w w' →
  to_vec (batch_range start tasks) w = Done (tasks, w').
Proof.
  intros Hst Hrel. destruct (as_slices_run _ _ _ Hst) as (front & back & Hs & Heq).
  unfold to_vec. run_with Hs. cbn [fst snd]. run_with (batch_release _ tasks _ _ Hrel).
  rewrite run_ret. do 2 f_equal. rewrite <- Heq. f_equal.
  case_bool_decide; [done|]. by destruct back; [|simpl in *; lia].
Qed.

Lemma set_bounds_run start tasks p p' w :
  slot (inner (queue w)) = slot_word (start + Z.of_nat (length tasks)) p' →
  set_bounds (mkUnboundedRange (slot_word start p)) w
    = Done (batch_range start tasks, closed w).
Proof.
  intros Hs. unfold set_bounds.
  assert (on_queue (X := X) (E := event W T P) fetch_xor_slot w
    = Done (slot (inner (queue w)), closed w)) as Hx by reflexivity.
  run_with Hx. rewrite run_ret, Hs. cbn [ub_base_slot]. by rewrite !slot_word_shr.
Qed.

Lemma stored_closed start tasks w : stored start tasks w → stored start tasks (closed w).
Proof. done. Qed.

(** A wrapped counter makes the range inverted. *)
Lemma wrapped_range start tasks :
  Z.of_nat (length tasks) ≤ N → ¬ no_counter_wrap start tasks →
  range_end (batch_range start tasks) < range_start (batch_range start tasks).
Proof.
  unfold no_counter_wrap. intros Hl Hw. cbn. pose proof counter_modulus_pos as Hp.
  pose proof (Z.mod_pos_bound start _ Hp) as Hb. pose proof N_lt_counter as HN.
  rewrite <- Zplus_mod_idemp_l. set (s := start mod counter_modulus) in *.
  set (l := Z.of_nat (length tasks)) in *.
  replace (s + l) with (s + l - counter_modulus + 1 * counter_modulus) by lia.
  rewrite Z.mod_add by lia. rewrite Z.mod_small; lia.
Qed.

Lemma drop_iter_nothing r w w' :
  range_end r ≤ range_start r → deoccupy_buffer r w = Done ((), w') →
  drop_iter (into_iter r) w = Done ((), w').
Proof.
  destruct r as [s e]. intros Hr Hd. unfold drop_iter.
  destruct needs_drop; [|by run_with (run_ret () w)].
  erewrite run_bind; [exact Hd|]. erewrite run_bind; [reflexivity|].
  unfold into_iter, iter_fuel. cbn in *. by run_with (next_none s e s w Hr).
Qed.

(** [as_slices] and [iter] show exactly the tasks of the batch, in the order they
    were pushed, without an access outside the buffer or to an unwritten cell, also
    when the batch passes the end of the buffer, when the counter wraps inside it, and
    when it fills the whole buffer; the queue is not touched. *)
Theorem slices_show_the_batch start tasks w :
  stored start tasks w →
  (∃ front back, as_slices (batch_range start tasks) w = Done ((front, back), w)
                 ∧ front ++ back = tasks)
  ∧ iter (batch_range start tasks) w = Done (tasks, w).
Proof.
  intros Hst. destruct (as_slices_run _ _ _ Hst) as (front & back & Hs & Heq).
  split; [by eauto|]. unfold iter. run_with Hs. rewrite run_ret. cbn. by rewrite Heq.
Qed.

(** [to_vec] moves all tasks of the batch out, in order, runs none of their
    destructors, and releases the region of the batch once. *)
Theorem to_vec_moves_the_batch start tasks w :
  stored start tasks w →
  ∃ w', to_vec (batch_range start tasks) w = Done (tasks, w') ∧ released start w w'.
Proof.
  intros Hst. destruct (release_returns start w) as [w' Hrel].
  exists w'. eauto using to_vec_run.
Qed.


Lemma drop_bounded_run start tasks w w' :
  stored start tasks w → no_counter_wrap start tasks → released start (after_drops tasks w) w' →
  drop_bounded (batch_range start tasks) w = Done ((), w').
Proof.
  intros Hst Hn Hrel. unfold drop_bounded. run_with (drop_range_run _ _ _ Hst Hn).
  by apply batch_release.
Qed.

Lemma drop_unbounded_run start tasks p p' w w' :
  slot (inner (queue w)) = slot_word (start + Z.of_nat (length tasks)) p' →
  stored start tasks w → no_counter_wrap start tasks →
  released start (after_drops tasks (closed w)) w' →
  drop_unbounded (mkUnboundedRange (slot_word start p)) w = Done ((), w').
Proof.
  intros Hs Hst%stored_closed Hn Hrel. unfold drop_unbounded.
  run_with (set_bounds_run _ _ p _ _ Hs). run_with (drop_range_run _ _ _ Hst Hn).
  cbn [range_start batch_range range_of]. by rewrite index_mask_word.
Qed.

Lemma into_bounded_run start p p' tasks w :
  slot (inner (queue w)) = slot_word (start + Z.of_nat (length tasks)) p' →
  into_bounded (mkUnboundedRange (slot_word start p)) w
    = Done (batch_range start tasks, closed w).
Proof. intros Hs. unfold into_bounded. by run_with (set_bounds_run start tasks p p' w Hs). Qed.

(** A batch handed over to blocking threads, first unbounded and then bounded, is settled
    once, wherever the runtime gives up on it: either the last closure gets all tasks, in
    order, or the destructor of the range that was dropped with its closure runs the
    destructor of every task once, in order; the batch is closed by the move of the phase
    bit, with the counter of that instant as its end, and its region is released once,
    after all that. *)
Theorem blocking_settles_the_batch (started started' : bool) start tasks p p' w :
  slot (inner (queue w)) = slot_word (start + Z.of_nat (length tasks)) p' →
  stored start tasks w → no_counter_wrap start tasks →
  ∃ w', unbounded_with_blocking started
          (λ r, b ← into_bounded r; bounded_with_blocking started' to_vec b)
          (mkUnboundedRange (slot_word start p)) w
        = Done (if started then Some (if started' then Some tasks else None) else None, w')
    ∧ released start (if started && started' then closed w else after_drops tasks (closed w)) w'.
Proof.
  intros Hs Hst Hn. unfold unbounded_with_blocking, bounded_with_blocking.
  pose proof (stored_closed _ _ _ Hst) as Hstc.
  destruct (release_returns start
    (if started && started' then closed w else after_drops tasks (closed w))) as [w' Hrel].
  exists w'. split; [|exact Hrel].
  destruct started; simpl in Hrel.
  - erewrite run_bind; [reflexivity|]. cbv beta. run_with (into_bounded_run _ p _ _ _ Hs).
    destruct started'.
    + by run_with (to_vec_run _ _ _ _ Hstc Hrel).
    + by run_with (drop_bounded_run _ _ _ _ Hstc Hn Hrel).
  - by run_with (drop_unbounded_run _ _ p _ _ _ Hs Hst Hn Hrel).
Qed.

(** C35. The boundary of the two theorems before: when the task counter (32 bits on
    64-bit targets, 16 bits on 32-bit targets) wraps inside a batch, its range is
    inverted: [into_iter] yields no task at all, the destructors of the iterator and of
    the bounded range drop nothing, and the region is released all the same, so the
    tasks of the batch are lost without a destructor. [as_slices] and [to_vec] are not
    affected. *)
Theorem counter_wrap_loses_batch n start tasks w :
  stored start tasks w → ¬ no_counter_wrap start tasks →
  ∃ w', released start w w'
    ∧ take_then_drop n (into_iter (batch_range start tasks)) w = Done ([], w')
    ∧ drop_bounded (batch_range start tasks) w = Done ((), w')
    ∧ to_vec (batch_range start tasks) w = Done (tasks, w').
Proof.
  intros Hst Hw. destruct (release_returns start w) as [w' Hrel]. exists w'.
  pose proof Hst as (_ & [_ Hl] & _). pose proof (wrapped_range _ _ Hl Hw) as Hinv.
  set (r := batch_range start tasks) in *. split; [done|].
  pose proof (batch_release _ tasks _ _ Hrel) as Hd. fold r in Hd.
  pose proof (drop_iter_nothing r w w' ltac:(lia) Hd) as Hit.
  repeat split; [| |by apply to_vec_run].
  - unfold into_iter in *. destruct r as [s e]. destruct n as [|n]; simpl take_then_drop.
    + by run_with Hit.
    + cbn in Hinv. run_with (next_none s e s w ltac:(cbn; lia)). by run_with Hit.
  - unfold drop_bounded, drop_range.
    assert (range_iter r = []) as -> by (unfold range_iter; apply seqZ_nil; lia).
    destruct needs_drop; by run_with (run_ret () w).
Qed.
End consumption.

(** * Concrete batches

    Buffers of 64 cells, cell [i] holding task [100 + i]; the type of the tasks has a
    destructor. The first batch passes the end of the buffer, the second one is on a
    32-bit target and passes the end of its 16-bit counter. *)
Local Instance z_needs_drop : NeedsDrop Z := true.

Definition full_buffer : list (option Z) := Eval vm_compute in (λ i, Some (100 + i)) <$> seqZ 0 64.

Definition filled (slot : Z) : world (option Z) (list_deque Z) unit (event Z Z unit) :=
  mkWorld (mkStackQueue slot 1 (mkInner slot 1 full_buffer) ([], 0%nat)) () [].

Definition cfg_a : QueueCfg := cfg64 64.
Definition cfg_b : QueueCfg := cfg32 64.
Definition filled_a := filled (@slot_word cfg_a 65 false).
Definition filled_b := filled (@slot_word cfg_b 65538 false).

#[local] Instance valid_a : @ValidCfg cfg_a := eq_refl.
#[local] Instance valid_b : @ValidCfg cfg_b := eq_refl.

Lemma holds_three {C : QueueCfg} (buf : list (option Z)) s a b c :
  buf !! Z.to_nat (s mod N) = Some (Some a) → buf !! Z.to_nat ((s + 1) mod N) = Some (Some b) →
  buf !! Z.to_nat ((s + 2) mod N) = Some (Some c) → holds buf s [a; b; c].
Proof.
  intros Ha Hb Hc [|[|[|i]]] t; intros [= <-]; [|exact Hb|exact Hc].
  by rewrite Z.add_0_r.
Qed.

Lemma stored_a : @stored cfg_a Z _ _ _ unit 62 [162; 163; 100] filled_a.
Proof.
  split; [reflexivity|]. split; [by vm_compute|]. by apply (@holds_three cfg_a).
Qed.

Lemma stored_b : @stored cfg_b Z _ _ _ unit 65535 [163; 100; 101] filled_b.
Proof.
  split; [reflexivity|]. split; [by vm_compute|]. by apply (@holds_three cfg_b).
Qed.

Lemma slices_show_the_batch_witness :
  (∃ front back, @as_slices cfg_b _ _ _ _ _ (@batch_range cfg_b Z 65535 [163; 100; 101]) filled_b
     = Done ((front, back), filled_b) ∧ front ++ back = [163; 100; 101])
  ∧ @iter cfg_b _ _ _ _ _ (@batch_range cfg_b Z 65535 [163; 100; 101]) filled_b
     = Done ([163; 100; 101], filled_b).
Proof.
  apply (slices_show_the_batch (HV := valid_b) (W := Z) (D := list_deque Z)). exact stored_b.
Defined.

Lemma to_vec_moves_the_batch_witness :
  ∃ w', @to_vec cfg_a _ _ _ _ _ _ (@batch_range cfg_a Z 62 [162; 163; 100]) filled_a
    = Done ([162; 163; 100], w') ∧ @released cfg_a _ _ _ _ _ _ 62 filled_a w'.
Proof.
  apply (to_vec_moves_the_batch (HV := valid_a) (W := Z) (D := list_deque Z)). exact stored_a.
Defined.


Lemma blocking_settles_the_batch_witness :
  ∃ w', @unbounded_with_blocking cfg_a _ _ _ _ _ _ _ _ true
      (λ r, b ← into_bounded (C := cfg_a) r;
         bounded_with_blocking (C := cfg_a) false (to_vec (C := cfg_a)) b)
      (mkUnboundedRange (@slot_word cfg_a 62 true)) filled_a = Done (Some None, w')
    ∧ @released cfg_a _ _ _ _ _ _ 62
        (@after_drops Z _ _ _ _ _ [162; 163; 100] (@closed cfg_a _ _ _ _ filled_a)) w'.
Proof.
  refine (blocking_settles_the_batch (HV := valid_a) (W := Z) (D := list_deque Z) true false 62
           [162; 163; 100] true false filled_a _ _ _);
    [reflexivity|exact stored_a|by vm_compute].
Defined.

Lemma counter_wrap_loses_batch_witness :
  ∃ w', @released cfg_b _ _ _ _ _ _ 65535 filled_b w'
    ∧ @take_then_drop cfg_b _ _ _ _ _ _ _ 3
        (into_iter (@batch_range cfg_b Z 65535 [163; 100; 101])) filled_b = Done ([], w')
    ∧ @drop_bounded cfg_b _ _ _ _ _ _ _ (@batch_range cfg_b Z 65535 [163; 100; 101]) filled_b
        = Done ((), w')
    ∧ @to_vec cfg_b _ _ _ _ _ _ (@batch_range cfg_b Z 65535 [163; 100; 101]) filled_b
        = Done ([163; 100; 101], w').
Proof.
  apply (counter_wrap_loses_batch (HV := valid_b) (W := Z) (D := list_deque Z));
    [exact stored_b|by vm_compute].
Defined.
