(* ===== verification/Protocol.v ===== *)
(** The queue under interleaving: one owner thread that pushes, and any number of
    guards on other threads that bound, consume and release their batches.

    Every step of [step] is one atomic access (with the thread-local work around
    it), taken from the operations of [Queue], so a run of [step] is an interleaving
    of [push]/[enqueue] with the operations of the guards under sequential
    consistency. *)
From S2P Require Import Prelude Usize Helpers Occupancy Deque Queue.
Local Open Scope Z_scope.

(** Where the owner stands inside [push] or [enqueue]. *)
Inductive owner_pc (cell W : Type) : Type :=
| Idle
| Checked (index : Z) (c : cell)      (* the region check passed, [c] is to be written *)
| Written (index : Z) (c : cell)      (* the cell holds [c], the counter is untouched *)
| Claimed (index base_slot : Z)       (* the counter is advanced, the local slot is not *)
| Occupying (index base_slot : Z)     (* a new batch, not yet counted *)
| Rejected (waker : W).               (* [QueueFull]; the waker is not yet parked *)
Arguments Idle {_ _}.
Arguments Checked {_ _} _ _.
Arguments Written {_ _} _ _.
Arguments Claimed {_ _} _ _.
Arguments Occupying {_ _} _ _.
Arguments Rejected {_ _} _.

(** The guards. [start], [stop] and [current] are ghost task numbers that never
    wrap; the other fields are the machine words of the guard. [Bounded] stands for
    [TaskAssignment], [BoundedRange] and [BufferIter]. *)
Inductive guard : Type :=
| Unbounded (base_slot start : Z)
| Bounded (range_start range_end start stop current : Z)
| Waking (batch_limit : Z).

(** What an observer of the run sees: batches beginning, wakers woken. *)
Inductive observation (W : Type) : Type :=
| Began (start : Z)
| Woke (waker : W).
Arguments Began {_} _.
Arguments Woke {_} _.

(** [sys_history] is the ghost list of all cells ever published, in order;
    [sys_trace] logs the observations, oldest first. *)
Record sys (cell W D : Type) : Type := mkSys {
  sys_queue : StackQueue cell D;
  sys_pc : owner_pc cell W;
  sys_guards : gmap nat guard;
  sys_history : list cell;
  sys_trace : list (observation W)
}.
Arguments mkSys {_ _ _} _ _ _ _ _.
Arguments sys_queue {_ _ _} _.
Arguments sys_pc {_ _ _} _.
Arguments sys_guards {_ _ _} _.
Arguments sys_history {_ _ _} _.
Arguments sys_trace {_ _ _} _.

Section protocol.
Context {C : QueueCfg} {cell W D : Type} `{Deque W D}.
Implicit Types (q : StackQueue cell D) (s : sys cell W D) (gs : gmap nat guard)
  (pc : owner_pc cell W) (h : list cell) (ws : list (observation W)).

Definition initial (uninit : cell) : sys cell W D :=
  mkSys (new_queue uninit) Idle ∅ [] [].

Inductive step : sys cell W D → sys cell W D → Prop :=
(* [current_write_index] and the region check *)
| step_check q q' gs h ws index c :
    current_write_index q = Done (index, q) →
    check_write_index index q = Done (Ok (), q') →
    step (mkSys q Idle gs h ws) (mkSys q' (Checked index c) gs h ws)
| step_reject q q' gs h ws index waker :
    current_write_index q = Done (index, q) →
    check_write_index index q = Done (Err queue_full, q') →
    step (mkSys q Idle gs h ws) (mkSys q' (Rejected waker) gs h ws)
(* [pending.push(waker)] by the future, or the error handed to the caller *)
| step_park q gs h ws waker :
    step (mkSys q (Rejected waker) gs h ws)
      (mkSys (set_pending (worker_push waker (pending q)) q) Idle gs h ws)
| step_give_up q gs h ws waker :
    step (mkSys q (Rejected waker) gs h ws) (mkSys q Idle gs h ws)
| step_write q q' gs h ws index c :
    write_cell index c q = Done ((), q') →
    step (mkSys q (Checked index c) gs h ws) (mkSys q' (Written index c) gs h ws)
| step_claim q q' gs h ws index c base_slot :
    fetch_add_slot q = Done (base_slot, q') →
    step (mkSys q (Written index c) gs h ws)
      (mkSys q' (Claimed index base_slot) gs (h ++ [c]) ws)
| step_join q q' gs h ws index base_slot prev_slot :
    replace_slot (wrapping_add usize_bits base_slot (shl usize_bits 1 INDEX_SHIFT)) q
      = Done (prev_slot, q') →
    Z.land (Z.lxor base_slot prev_slot) PHASE = 0 →
    step (mkSys q (Claimed index base_slot) gs h ws) (mkSys q' Idle gs h ws)
| step_begin q q' gs h ws index base_slot prev_slot :
    replace_slot (wrapping_add usize_bits base_slot (shl usize_bits 1 INDEX_SHIFT)) q
      = Done (prev_slot, q') →
    Z.land (Z.lxor base_slot prev_slot) PHASE ≠ 0 →
    step (mkSys q (Claimed index base_slot) gs h ws)
      (mkSys q' (Occupying index base_slot) gs h ws)
| step_occupy q q' gs h ws index base_slot id :
    occupy_region index q = Done ((), q') →
    gs !! id = None →
    step (mkSys q (Occupying index base_slot) gs h ws)
      (mkSys q' Idle (<[id := Unbounded base_slot (Z.of_nat (length h) - 1)]> gs) h
         (ws ++ [Began (Z.of_nat (length h) - 1)]))
(* [set_assignment_bounds], [set_bounds] *)
| step_bound q q' pc gs h ws id base_slot start end_slot :
    gs !! id = Some (Unbounded base_slot start) →
    fetch_xor_slot q = Done (end_slot, q') →
    step (mkSys q pc gs h ws)
      (mkSys q' pc
         (<[id := Bounded (shr usize_bits base_slot INDEX_SHIFT)
                    (shr usize_bits end_slot INDEX_SHIFT)
                    start (Z.of_nat (length h)) start]> gs) h ws)
(* the guard takes its next task out of the cell, leaving anything behind *)
| step_consume q q' pc gs h ws id rs re start stop current c :
    gs !! id = Some (Bounded rs re start stop current) →
    current < stop →
    write_cell (Z.land current (wrapping_sub usize_bits N 1)) c q = Done ((), q') →
    step (mkSys q pc gs h ws)
      (mkSys q' pc (<[id := Bounded rs re start stop (current + 1)]> gs) h ws)
(* [deoccupy_region]: the [fetch_sub], then the steals one by one *)
| step_release q q' pc gs h ws id rs re start stop current prev :
    let one := one_shifted (Z.land rs (wrapping_sub usize_bits N 1)) in
    gs !! id = Some (Bounded rs re start stop current) →
    fetch_sub_occupancy one q = Done (prev, q') →
    step (mkSys q pc gs h ws)
      (mkSys q' pc
         (if prev =? one then <[id := Waking region_size]> gs else delete id gs) h ws)
| step_wake q pc gs h ws id limit waker d :
    gs !! id = Some (Waking limit) → 0 < limit →
    stealer_steal (pending q) = (Success waker, d) →
    step (mkSys q pc gs h ws)
      (mkSys (set_pending d q) pc (<[id := Waking (limit - 1)]> gs) h (ws ++ [Woke waker]))
| step_wake_retry q pc gs h ws id limit d :
    gs !! id = Some (Waking limit) → 0 < limit →
    stealer_steal (pending q) = (Retry, d) →
    step (mkSys q pc gs h ws) (mkSys (set_pending d q) pc gs h ws)
| step_wake_empty q pc gs h ws id limit d :
    gs !! id = Some (Waking limit) → 0 < limit →
    stealer_steal (pending q) = (Empty, d) →
    step (mkSys q pc gs h ws) (mkSys (set_pending d q) pc (delete id gs) h ws)
| step_wake_limit q pc gs h ws id :
    gs !! id = Some (Waking 0) →
    step (mkSys q pc gs h ws) (mkSys q pc (delete id gs) h ws).

Definition reachable (uninit : cell) s : Prop := rtc step (initial uninit) s.

(** ** The invariant of slots, phases and ranges *)
Definition count s : Z := Z.of_nat (length (sys_history s)).

(** A batch that the owner has begun but whose guard does not exist yet. *)
Definition begun s : option Z :=
  match sys_pc s with
  | Claimed _ base_slot =>
      if eqb (Z.testbit base_slot 0) (Z.testbit (sq_slot (sys_queue s)) 0)
      then None else Some (count s - 1)
  | Occupying _ _ => Some (count s - 1)
  | _ => None
  end.

(** Tasks before [claimed] belong to batches whose guard was handed out. *)
Definition claimed s : Z := default (count s) (begun s).

(** The tasks of a live guard: up to the newest for an unbounded one. *)
Definition guard_range s (g : guard) : option (Z * Z) :=
  match g with
  | Unbounded _ start => Some (start, count s)
  | Bounded _ _ start stop _ => Some (start, stop)
  | Waking _ => None
  end.

Definition has_open s : Prop :=
  ∃ id base_slot start, sys_guards s !! id = Some (Unbounded base_slot start).

Definition owner_ok s (phase : bool) : Prop :=
  let n := count s in
  let local := sq_slot (sys_queue s) in
  match sys_pc s with
  | Claimed index base_slot =>
      0 < n ∧ index = (n - 1) mod N ∧
      ∃ base_phase local_phase,
        base_slot = slot_word (n - 1) base_phase ∧
        local = slot_word (n - 1) local_phase ∧
        if eqb base_phase local_phase then (has_open s ↔ phase = local_phase)
        else phase = base_phase ∧ ¬ has_open s
  | Occupying index base_slot =>
      0 < n ∧ index = (n - 1) mod N ∧
      base_slot = slot_word (n - 1) phase ∧ local = slot_word n phase ∧ ¬ has_open s
  | pc =>
      (match pc with Checked index _ | Written index _ => index = n mod N | _ => True end) ∧
      ∃ local_phase, local = slot_word n local_phase ∧ (has_open s ↔ phase = local_phase)
  end.

Definition guard_ok s (g : guard) : Prop :=
  match g with
  | Unbounded base_slot start =>
      0 ≤ start < claimed s ∧ ∃ phase, base_slot = slot_word start phase
  | Bounded rs re start stop current =>
      0 ≤ start < stop ∧ stop ≤ claimed s ∧ start ≤ current ≤ stop ∧
      rs = start mod counter_modulus ∧ re = stop mod counter_modulus
  | Waking limit => 0 ≤ limit ≤ region_size
  end.

Record ranges_inv s : Prop := {
  inv_length : length (buffer (inner (sys_queue s))) = Z.to_nat N;
  inv_owner : ∃ phase,
    slot (inner (sys_queue s)) = slot_word (count s) phase ∧ owner_ok s phase;
  inv_guards : ∀ id g, sys_guards s !! id = Some g → guard_ok s g;
  inv_disjoint : ∀ id1 id2 g1 g2 b1 e1 b2 e2,
    id1 ≠ id2 →
    sys_guards s !! id1 = Some g1 → sys_guards s !! id2 = Some g2 →
    guard_range s g1 = Some (b1, e1) → guard_range s g2 = Some (b2, e2) →
    e1 ≤ b2 ∨ e2 ≤ b1
}.
End protocol.

Section ranges.
Context {C : QueueCfg} {HV : ValidCfg} {cell W D : Type} `{Deque W D}.
Implicit Types (q : StackQueue cell D) (s : sys cell W D) (gs : gmap nat guard)
  (pc : owner_pc cell W) (h : list cell) (ws : list (observation W)).

Lemma check_write_index_frame index q r q' :
  check_write_index index q = Done (r, q') →
  inner q' = inner q ∧ sq_slot q' = sq_slot q ∧ pending q' = pending q.
Proof.
  rewrite check_write_index_run, check_regional_occupancy_run.
  destruct (at_region_start _); [destruct (_ =? 0)|]; intros; by simplify_eq.
Qed.

Lemma write_cell_frame index c q q' :
  write_cell index c q = Done ((), q') →
  0 ≤ index < Z.of_nat (length (buffer (inner q))) ∧
  q' = set_buffer (<[Z.to_nat index := c]> (buffer (inner q))) q.
Proof.
  intros Hw. assert (0 ≤ index < Z.of_nat (length (buffer (inner q)))) as Hi.
  { unfold write_cell, mbind, M_bind, gets, get_unchecked in Hw.
    case_bool_decide; [|discriminate].
    destruct (_ !! _) eqn:Hl in Hw; [|discriminate]. apply lookup_lt_Some in Hl.
    unfold id in Hl. lia. }
  split; [done|]. rewrite write_cell_run in Hw by done. by simplify_eq.
Qed.

(** Steps that leave guards and counter alone. *)
Lemma ranges_inv_same_guards s s' :
  sys_guards s' = sys_guards s → sys_history s' = sys_history s →
  begun s' = begun s →
  length (buffer (inner (sys_queue s'))) = length (buffer (inner (sys_queue s))) →
  slot (inner (sys_queue s')) = slot (inner (sys_queue s)) →
  (∀ phase, owner_ok s phase → owner_ok s' phase) →
  ranges_inv s → ranges_inv s'.
Proof.
  intros Hg Hh Hb Hl Hs Ho [Ilen (phase & Islot & Iown) Ig Id].
  assert (count s' = count s) as Hc by (unfold count; by rewrite Hh).
  assert (claimed s' = claimed s) as Hcl by (unfold claimed; by rewrite Hb, Hc).
  split.
  - by rewrite Hl.
  - exists phase. rewrite Hs, Hc. auto.
  - rewrite Hg. intros id g Hid. specialize (Ig id g Hid).
    unfold guard_ok in *. by rewrite Hcl.
  - rewrite Hg. intros id1 id2 g1 g2 b1 e1 b2 e2. unfold guard_range. rewrite Hc.
    apply Id.
Qed.

(** Steps of a guard that keep or drop ranges and leave the open batch alone. *)
Definition guards_shrink s gs' : Prop :=
  (∀ id g', gs' !! id = Some g' → guard_ok s g' ∧
     (guard_range s g' = None ∨
      ∃ g, sys_guards s !! id = Some g ∧ guard_range s g = guard_range s g')) ∧
  (∀ id base_slot start,
     sys_guards s !! id = Some (Unbounded base_slot start) ↔
     gs' !! id = Some (Unbounded base_slot start)).

Lemma ranges_inv_shrink s q' gs' ws' :
  guards_shrink s gs' →
  length (buffer (inner q')) = length (buffer (inner (sys_queue s))) →
  slot (inner q') = slot (inner (sys_queue s)) → sq_slot q' = sq_slot (sys_queue s) →
  ranges_inv s → ranges_inv (mkSys q' (sys_pc s) gs' (sys_history s) ws').
Proof.
  intros [Hg Hopen] Hl Hs Hsl [Ilen (phase & Islot & Iown) Ig Id].
  set (s' := mkSys _ _ _ _ _).
  assert (begun s' = begun s) as Hb by (unfold begun; simpl; by rewrite Hsl).
  assert (claimed s' = claimed s) as Hcl by (unfold claimed; by rewrite Hb).
  assert (has_open s' ↔ has_open s) as Ho.
  { unfold has_open. simpl. split; intros (id & b & st & Hx); exists id, b, st; by apply Hopen. }
  split; simpl.
  - by rewrite Hl.
  - exists phase. rewrite Hs. split; [done|]. unfold owner_ok in *. simpl.
    change (count s') with (count s). rewrite Hsl.
    destruct (sys_pc s); try by setoid_rewrite Ho.
    destruct Iown as (? & ? & bp & lp & ? & ? & Hx). do 2 (split; [done|]).
    exists bp, lp. do 2 (split; [done|]). by destruct (eqb bp lp); rewrite Ho.
  - intros id g' Hid. destruct (Hg id g' Hid) as [Hok _]. unfold guard_ok in *.
    by rewrite Hcl.
  - intros id1 id2 g1 g2 b1 e1 b2 e2 Hne H1 H2 Hr1 Hr2.
    change (guard_range s g1 = Some (b1, e1)) in Hr1.
    change (guard_range s g2 = Some (b2, e2)) in Hr2.
    destruct (Hg id1 g1 H1) as [_ [?|(g1' & ? & ?)]]; [congruence|].
    destruct (Hg id2 g2 H2) as [_ [?|(g2' & ? & ?)]]; [congruence|].
    apply (Id id1 id2 g1' g2'); congruence.
Qed.

Lemma guards_shrink_delete s id g :
  ranges_inv s → sys_guards s !! id = Some g →
  (∀ b st, g ≠ Unbounded b st) → guards_shrink s (delete id (sys_guards s)).
Proof.
  intros I Hid Hg. split.
  - intros id' g' [Hne Hl]%lookup_delete_Some. split; [by apply (inv_guards _ I id')|]. eauto.
  - intros id' b st. rewrite lookup_delete_Some. split; [|by intros []].
    intros Hl. split; [|done]. intros ->. naive_solver.
Qed.

Lemma guards_shrink_insert s id g g' :
  ranges_inv s → sys_guards s !! id = Some g →
  (∀ b st, g ≠ Unbounded b st) → (∀ b st, g' ≠ Unbounded b st) →
  guard_ok s g' → guard_range s g' = None ∨ guard_range s g' = guard_range s g →
  guards_shrink s (<[id := g']> (sys_guards s)).
Proof.
  intros I Hid Hg Hg' Hok Hr. split.
  - intros id' g'' [[<- <-]|[Hne Hl]]%lookup_insert_Some.
    + split; [done|]. destruct Hr as [|Hr]; [by left|right]. exists g. by rewrite Hr.
    + split; [by apply (inv_guards _ I id')|]. eauto.
  - intros id' b st. rewrite lookup_insert_Some. split.
    + intros Hl. right. split; [|done]. intros <-. naive_solver.
    + intros [[_ ->]|[_ Hl]]; [|done]. naive_solver.
Qed.

(** ** Facts of the invariant *)
Lemma claimed_le_count s phase : owner_ok s phase → claimed s ≤ count s.
Proof.
  unfold claimed, begun, owner_ok. destruct (sys_pc s); simpl; try lia.
  destruct (eqb _ _); simpl; lia.
Qed.

Lemma open_claimed s : ranges_inv s → has_open s → begun s = None ∧ claimed s = count s.
Proof.
  intros I Ho. destruct (inv_owner _ I) as (phase & _ & Hown).
  enough (begun s = None) as Hb by (split; [done|unfold claimed; by rewrite Hb]).
  unfold begun, owner_ok in *. destruct (sys_pc s); try done; [|naive_solver].
  destruct Hown as (_ & _ & bp & lp & -> & -> & Hx). rewrite !slot_word_bit0.
  destruct (eqb bp lp); [done|naive_solver].
Qed.

Lemma guard_range_bounds s id g b e :
  ranges_inv s → sys_guards s !! id = Some g → guard_range s g = Some (b, e) →
  0 ≤ b < e ∧ e ≤ claimed s.
Proof.
  intros I Hid Hr. pose proof (inv_guards _ I _ _ Hid) as Hok.
  destruct g; simplify_eq/=; [|lia].
  destruct (open_claimed s I) as [_ Hc]; [by do 3 eexists|]. lia.
Qed.

(** At most one batch is open. *)
Lemma open_unique s id1 id2 w1 w2 b1 b2 :
  ranges_inv s →
  sys_guards s !! id1 = Some (Unbounded w1 b1) →
  sys_guards s !! id2 = Some (Unbounded w2 b2) → id1 = id2.
Proof.
  intros I H1 H2. destruct (decide (id1 = id2)) as [|Hne]; [done|].
  pose proof (guard_range_bounds _ _ _ _ _ I H1 eq_refl).
  pose proof (guard_range_bounds _ _ _ _ _ I H2 eq_refl).
  pose proof (inv_disjoint _ I _ _ _ _ _ _ _ _ Hne H1 H2 eq_refl eq_refl).
  destruct (open_claimed s I); [by do 3 eexists|]. lia.
Qed.
End ranges.

Section ranges_steps.
Context {C : QueueCfg} {HV : ValidCfg} {cell W D : Type} `{Deque W D}.
Implicit Types (q : StackQueue cell D) (s : sys cell W D) (gs : gmap nat guard)
  (pc : owner_pc cell W) (h : list cell) (ws : list (observation W)).

Lemma ranges_inv_initial uninit : ranges_inv (initial uninit : sys cell W D).
Proof.
  split; simpl.
  - by rewrite length_replicate.
  - exists false. split; [by unfold slot_word|]. split; [done|]. exists true.
    split; [done|]. split; [|done]. intros (? & ? & ? & Hl). by destruct (lookup_empty_Some (M:=gmap nat) _ _ Hl).
  - intros id g Hl. by destruct (lookup_empty_Some (M:=gmap nat) _ _ Hl).
  - intros id1 id2 g1 g2 b1 e1 b2 e2 _ Hl. by destruct (lookup_empty_Some (M:=gmap nat) _ _ Hl).
Qed.

Lemma ranges_inv_check q q' gs h ws index r pc :
  current_write_index q = Done (index, q) → check_write_index index q = Done (r, q') →
  match pc with Checked i _ => i = index | Rejected _ => True | _ => False end →
  ranges_inv (mkSys q Idle gs h ws) → ranges_inv (mkSys q' pc gs h ws).
Proof.
  intros Hw Hc Hpc I. destruct (check_write_index_frame _ _ _ _ Hc) as (Hi & Hsl & _).
  revert I. apply ranges_inv_same_guards; simpl; try by rewrite ?Hi.
  { unfold begun. simpl. by destruct pc. }
  intros phase (_ & lp & Hl & Ho). simpl in Hl.
  rewrite (current_write_index_run _ _ _ Hl) in Hw.
  unfold owner_ok. simpl. rewrite Hsl. destruct pc; try done.
  - split; [by simplify_eq|]. exists lp. split; [done|]. exact Ho.
  - split; [done|]. exists lp. split; [done|]. exact Ho.
Qed.

Lemma ranges_inv_claim q gs h ws index c :
  ranges_inv (mkSys q (Written index c) gs h ws) →
  ranges_inv (mkSys (set_slot (wrapping_add usize_bits (slot (inner q))
                (shl usize_bits 1 INDEX_SHIFT)) q)
              (Claimed index (slot (inner q))) gs (h ++ [c]) ws).
Proof.
  intros I. set (s := mkSys q _ _ _ _) in *. set (s' := mkSys _ _ _ _ _).
  assert (count s' = count s + 1) as Hc.
  { unfold count. simpl. rewrite length_app. simpl. lia. }
  destruct (inv_owner _ I) as (phase & Hslot & Hidx & lp & Hl & Ho). simpl in Hslot, Hl.
  assert (claimed s = count s) as Hcl by done.
  assert (count s ≤ claimed s') as Hcl'.
  { unfold claimed. rewrite Hc. unfold begun. simpl. destruct (eqb _ _); simpl; lia. }
  assert (has_open s → claimed s' = count s') as Hopen.
  { intros Hx%Ho. unfold claimed, begun. simpl. rewrite Hslot, Hl, !slot_word_bit0, Hx.
    by rewrite eqb_reflx. }
  split.
  - exact (inv_length _ I).
  - exists phase. simpl. rewrite Hslot, slot_word_next, Hc. split; [done|].
    unfold owner_ok. simpl. rewrite Hc. replace (count s + 1 - 1) with (count s) by lia.
    unfold count at 1. split; [lia|]. split; [done|]. exists phase, lp.
    do 2 (split; [done|]). destruct (eqb phase lp) eqn:E.
    + exact Ho.
    + split; [done|]. intros Hx%Ho. by rewrite Hx, eqb_reflx in E.
  - intros id g Hid. pose proof (inv_guards _ I id g Hid) as Hok.
    destruct g; simpl in Hok |- *; [|lia|done]. split; [|tauto].
    rewrite Hopen by (by do 3 eexists). lia.
  - intros id1 id2 g1 g2 b1 e1 b2 e2 Hne H1 H2 Hr1 Hr2.
    pose proof (inv_disjoint _ I id1 id2 g1 g2) as Hd.
    destruct g1 as [w1 st1|? ? st1 sp1 ?|], g2 as [w2 st2|? ? st2 sp2 ?|]; simplify_eq/=.
    + destruct Hne. by eapply open_unique.
    + pose proof (guard_range_bounds _ _ _ _ _ I H2 eq_refl).
      specialize (Hd _ _ _ _ Hne H1 H2 eq_refl eq_refl). lia.
    + pose proof (guard_range_bounds _ _ _ _ _ I H1 eq_refl).
      specialize (Hd _ _ _ _ Hne H1 H2 eq_refl eq_refl). lia.
    + eauto.
Qed.

Lemma ranges_inv_replace q q' gs h ws index base_slot prev pc :
  replace_slot (wrapping_add usize_bits base_slot (shl usize_bits 1 INDEX_SHIFT)) q
    = Done (prev, q') →
  pc = (if Z.land (Z.lxor base_slot prev) PHASE =? 0 then Idle else Occupying index base_slot) →
  ranges_inv (mkSys q (Claimed index base_slot) gs h ws) →
  ranges_inv (mkSys q' pc gs h ws).
Proof.
  intros Hr Hpc I. injection Hr as Hp Hq. rewrite same_phase_test, <- Hp in Hpc.
  rewrite <- Hq. revert I. apply ranges_inv_same_guards; try done; subst pc.
  - unfold begun. simpl. by destruct (eqb _ _).
  - intros phase (Hn & Hidx & bp & lp & Hb & Hl & Ho). simpl in Hb, Hl.
    rewrite Hb, Hl, !slot_word_bit0, slot_word_next.
    change (has_open (mkSys q _ gs h ws)) with (has_open (mkSys q' Idle gs h ws)) in Ho.
    change (count (mkSys q _ gs h ws)) with (count (mkSys q' Idle gs h ws)) in *.
    replace (count _ - 1 + 1) with (count (mkSys q' Idle gs h ws)) by lia.
    unfold owner_ok. destruct (eqb bp lp) eqn:E; simpl.
    + split; [done|]. exists bp. apply eqb_prop in E as <-. by split.
    + destruct Ho as [-> Ho]. by repeat split.
Qed.

Lemma ranges_inv_occupy q gs h ws ws' index base_slot id :
  gs !! id = None →
  ranges_inv (mkSys q (Occupying index base_slot) gs h ws) →
  ranges_inv (mkSys (occupied index q) Idle
    (<[id := Unbounded base_slot (Z.of_nat (length h) - 1)]> gs) h ws').
Proof.
  intros Hid I. set (s := mkSys q _ _ _ _) in *. set (s' := mkSys _ _ _ _ _).
  destruct (inv_owner _ I) as (phase & Hslot & Hn & Hidx & Hb & Hl & Ho).
  simpl in Hslot, Hb, Hl. unfold count in Hn. simpl in Hn.
  assert (∀ id' g', gs !! id' = Some g' → guard_ok s' g' ∧ guard_range s' g' = guard_range s g')
    as Hold.
  { intros id' g' Hg'. split; [|done]. pose proof (inv_guards _ I id' g' Hg') as Hok.
    destruct g'; [|unfold guard_ok, claimed, begun, count in *; simpl in *; lia|done].
    destruct Ho. by do 3 eexists. }
  split.
  - exact (inv_length _ I).
  - exists phase. split; [done|]. split; [done|]. exists phase. split; [done|].
    split; [done|]. intros _. exists id. do 2 eexists. simpl. by rewrite lookup_insert_eq.
  - intros id' g [[<- <-]|[Hne Hg]]%(lookup_insert_Some gs).
    + split; [unfold claimed, begun, count; simpl; lia|]. eauto.
    + by apply (Hold id').
  - assert (∀ id' g' b e, gs !! id' = Some g' → guard_range s' g' = Some (b, e) →
      e ≤ Z.of_nat (length h) - 1) as Hlt.
    { intros id' g' b e Hg' Hr. destruct (Hold _ _ Hg') as [_ Heq]. rewrite Heq in Hr.
      pose proof (guard_range_bounds _ _ _ _ _ I Hg' Hr). unfold claimed, begun in *.
      simpl in *. unfold count in *. simpl in *. lia. }
    intros id1 id2 g1 g2 b1 e1 b2 e2 Hne [[<- <-]|[Hne1 H1]]%(lookup_insert_Some gs)
      [[<- <-]|[Hne2 H2]]%(lookup_insert_Some gs) Hr1 Hr2; [done|..].
    + right. specialize (Hlt _ _ _ _ H2 Hr2). simplify_eq/=. lia.
    + left. specialize (Hlt _ _ _ _ H1 Hr1). simplify_eq/=. lia.
    + destruct (Hold _ _ H1) as [_ E1], (Hold _ _ H2) as [_ E2].
      rewrite E1 in Hr1. rewrite E2 in Hr2. by eapply (inv_disjoint _ I id1 id2).
Qed.

Lemma ranges_inv_bound q pc gs h ws id base_slot start :
  gs !! id = Some (Unbounded base_slot start) →
  ranges_inv (mkSys q pc gs h ws) →
  ranges_inv (mkSys (set_slot (Z.lxor (slot (inner q)) PHASE) q) pc
    (<[id := Bounded (shr usize_bits base_slot INDEX_SHIFT)
               (shr usize_bits (slot (inner q)) INDEX_SHIFT)
               start (Z.of_nat (length h)) start]> gs) h ws).
Proof.
  intros Hid I. set (s := mkSys q _ _ _ _) in *. set (s' := mkSys _ _ _ _ _).
  assert (has_open s) as Hopen by (by do 3 eexists).
  destruct (open_claimed s I Hopen) as [Hb Hcl].
  assert (begun s' = None) as Hb' by done. assert (claimed s' = claimed s) as Hcl' by done.
  assert (¬ has_open s') as Hno.
  { intros (id' & w & b & [[_ ?]|[Hne Hl]]%(lookup_insert_Some gs)); [done|].
    by destruct (open_unique s id id' base_slot w start b I Hid Hl). }
  assert (∀ id' g, sys_guards s' !! id' = Some g → ∃ g0, gs !! id' = Some g0 ∧
    guard_range s g0 = guard_range s' g) as Hsame.
  { intros id' g [[<- <-]|[Hne Hl]]%(lookup_insert_Some gs); eauto. }
  destruct (inv_owner _ I) as (phase & Hslot & Hown). simpl in Hslot.
  split.
  - exact (inv_length _ I).
  - exists (negb phase). simpl. rewrite Hslot, slot_word_toggle. split; [done|].
    unfold owner_ok in *. change (count s') with (count s). simpl in *.
    assert (∀ lp, (has_open s ↔ phase = lp) → (has_open s' ↔ negb phase = lp)) as Hflip.
    { intros lp [Hx _]. specialize (Hx Hopen) as <-. split; [done|].
      by destruct phase. }
    destruct pc; try (destruct Hown as (Hi & lp & Hl & Ho); eauto 6; fail).
    + destruct Hown as (Hn & Hidx & bp & lp & Hbp & Hl & Ho).
      do 2 (split; [done|]). exists bp, lp. do 2 (split; [done|]).
      destruct (eqb bp lp); [by apply Hflip|]. by destruct Ho.
    + tauto.
  - intros id' g [[<- <-]|[Hne Hl]]%(lookup_insert_Some gs); [|by apply (inv_guards _ I id')].
    destruct (inv_guards _ I _ _ Hid) as [Hst (bp & Hw)]. simpl.
    rewrite Hw, Hslot, !slot_word_shr, Hcl', Hcl. rewrite Hcl in Hst.
    unfold count in *. simpl in *. lia.
  - intros id1 id2 g1 g2 b1 e1 b2 e2 Hne H1 H2 Hr1 Hr2.
    destruct (Hsame _ _ H1) as (g1' & Hl1 & E1), (Hsame _ _ H2) as (g2' & Hl2 & E2).
    rewrite <- E1 in Hr1. rewrite <- E2 in Hr2. by eapply (inv_disjoint _ I id1 id2 g1' g2').
Qed.

Lemma ranges_inv_step s s' : step s s' → ranges_inv s → ranges_inv s'.
Proof.
  intros Hst I. destruct Hst.
  - eapply (ranges_inv_check _ _ _ _ _ _ _ (Checked index c)); eauto.
  - eapply (ranges_inv_check _ _ _ _ _ _ _ (Rejected waker)); eauto.
  - revert I. by apply ranges_inv_same_guards.
  - revert I. by apply ranges_inv_same_guards.
  - apply write_cell_frame in H0 as [_ ->]. revert I.
    apply ranges_inv_same_guards; try done. simpl. by rewrite length_insert.
  - injection H0 as <- <-. by apply ranges_inv_claim.
  - eapply ranges_inv_replace; eauto. by rewrite (proj2 (Z.eqb_eq _ _) H1).
  - eapply ranges_inv_replace; eauto. by rewrite (proj2 (Z.eqb_neq _ _) H1).
  - rewrite occupy_region_run in H0. injection H0 as <-. by eapply ranges_inv_occupy.
  - injection H1 as <- <-. by apply ranges_inv_bound.
  - apply write_cell_frame in H2 as [_ ->].
    apply (ranges_inv_shrink (mkSys q pc gs h ws)); try done.
    + eapply guards_shrink_insert; [done|exact H0|done|done| |by right].
      pose proof (inv_guards _ I _ _ H0). simpl in *. lia.
    + simpl. by rewrite length_insert.
  - injection H1 as <- <-. apply (ranges_inv_shrink (mkSys q pc gs h ws)); try done.
    destruct (_ =? _).
    + eapply guards_shrink_insert; [done|exact H0|done|done| |by left].
      simpl. pose proof region_size_bounds. lia.
    + by eapply guards_shrink_delete.
  - apply (ranges_inv_shrink (mkSys q pc gs h ws)); try done.
    eapply guards_shrink_insert; [done|exact H0|done|done| |by left].
    pose proof (inv_guards _ I _ _ H0). simpl in *. lia.
  - revert I. by apply ranges_inv_same_guards.
  - apply (ranges_inv_shrink (mkSys q pc gs h ws)); try done. by eapply guards_shrink_delete.
  - apply (ranges_inv_shrink (mkSys q pc gs h ws)); try done. by eapply guards_shrink_delete.
Qed.

Lemma ranges_inv_reachable uninit s : reachable uninit s → ranges_inv s.
Proof.
  intros Hr. eapply rtc_invariant; [|apply ranges_inv_initial|exact Hr].
  exact ranges_inv_step.
Qed.
End ranges_steps.
