(* ===== verification/Exclusion.v ===== *)
(** Exclusive access: no interleaving lets the owner write into a live batch.

    The argument is the one the code relies on: the owner can only come back to the
    start of a batch through the start of its region, and there the region's
    counter is still positive. It needs the counters not to overflow, which holds
    on 64-bit targets when a region has at most 255 cells ([SafeCfg]); [Limits]
    shows what happens beyond. *)
From S2P Require Import Prelude Usize Helpers Occupancy Deque Queue Protocol.
Local Open Scope Z_scope.

Class SafeCfg {C : QueueCfg} : Prop := {
  safe_target : cfg_target = T64;
  safe_valid :: ValidCfg;
  safe_len : N ≤ 1024
}.

Section defs.
Context {C : QueueCfg} {cell W D : Type} `{Deque W D}.
Implicit Types (s : sys cell W D) (gs : gmap nat guard).

Definition guard_start (g : guard) : option Z :=
  match g with
  | Unbounded _ start | Bounded _ _ start _ _ => Some start
  | Waking _ => None
  end.

(** The region a task number falls in, and the first task number of that region. *)
Definition region_of (i : Z) : Z := current_region (i mod N).
Definition region_floor (i : Z) : Z := i - i mod region_size.

Definition starts_in (r : Z) (g : guard) : bool :=
  match guard_start g with Some b => region_of b =? r | None => false end.

(** How many live batches start in region [r]. *)
Definition live_in (r : Z) gs : Z :=
  Z.of_nat (size (filter (λ kv, starts_in r kv.2 = true) gs)).

(** 1 while the owner is entitled to write the next cell. *)
Definition room s : Z :=
  match sys_pc s with Checked _ _ | Written _ _ => 1 | _ => 0 end.

(** The tasks of a guard that nobody has taken yet. *)
Definition unread s (g : guard) : option (Z * Z) :=
  match g with
  | Unbounded _ start => Some (start, count s)
  | Bounded _ _ _ stop current => Some (current, stop)
  | Waking _ => None
  end.

Definition cell_at s (i : Z) : option cell :=
  buffer (inner (sys_queue s)) !! Z.to_nat (i mod N).
Definition task_at s (i : Z) : option cell := sys_history s !! Z.to_nat i.

Record exclusion_inv s : Prop := {
  ex_room : ∀ id g b, sys_guards s !! id = Some g → guard_start g = Some b →
    count s + room s ≤ region_floor b + N;
  ex_contents : ∀ id g lo hi i, sys_guards s !! id = Some g →
    unread s g = Some (lo, hi) → lo ≤ i < hi → cell_at s i = task_at s i;
  ex_begun : ∀ i, begun s = Some i → cell_at s i = task_at s i;
  ex_written : ∀ index c, sys_pc s = Written index c → cell_at s (count s) = Some c;
  ex_word : 0 ≤ occupancy (inner (sys_queue s)) < 2 ^ 64;
  ex_lanes : ∀ r, 0 ≤ r < 8 →
    lane r (occupancy (inner (sys_queue s))) = live_in r (sys_guards s);
  ex_stale : ∀ r, 0 ≤ r < 8 →
    lane r (occupancy (inner (sys_queue s))) ≤ lane r (sq_occupancy (sys_queue s))
}.
End defs.

(** ** Counting live batches *)
Section live_in.
Context {C : QueueCfg}.
Implicit Types gs : gmap nat guard.

Lemma live_in_insert_new r gs id g :
  gs !! id = None → live_in r (<[id := g]> gs) = live_in r gs + Z.b2z (starts_in r g).
Proof.
  intros Hid. unfold live_in. destruct (starts_in r g) eqn:E.
  - rewrite map_filter_insert_True by done. rewrite map_size_insert_None; [simpl; lia|].
    apply map_lookup_filter_None. by left.
  - rewrite map_filter_insert_not'; [simpl; lia|simpl; congruence|]. by rewrite Hid.
Qed.

Lemma live_in_delete r gs id g :
  gs !! id = Some g → live_in r (delete id gs) = live_in r gs - Z.b2z (starts_in r g).
Proof.
  intros Hid. rewrite <- (insert_delete_id gs id g Hid) at 2.
  rewrite live_in_insert_new by apply lookup_delete_eq. lia.
Qed.

Lemma live_in_update r gs id g g' :
  gs !! id = Some g →
  live_in r (<[id := g']> gs) = live_in r gs - Z.b2z (starts_in r g) + Z.b2z (starts_in r g').
Proof.
  intros Hid. rewrite <- insert_delete_eq, live_in_insert_new by apply lookup_delete_eq.
  by rewrite (live_in_delete _ _ _ _ Hid).
Qed.

Lemma live_in_pos r gs id g :
  gs !! id = Some g → starts_in r g = true → 0 < live_in r gs.
Proof.
  intros Hid Hs. pose proof (live_in_delete r gs id g Hid) as Hd. rewrite Hs in Hd.
  unfold live_in in *. simpl in Hd. lia.
Qed.

Lemma live_in_zero r gs id g :
  live_in r gs = 0 → gs !! id = Some g → starts_in r g = false.
Proof.
  intros H0 Hid. destruct (starts_in r g) eqn:E; [|done].
  pose proof (live_in_pos r gs id g Hid E). lia.
Qed.
End live_in.

(** ** Regions of task numbers *)
Section regions.
Context {C : QueueCfg} {HS : SafeCfg}.

Lemma safe_REGION_COUNT : REGION_COUNT = 8.
Proof. unfold REGION_COUNT. by rewrite safe_target. Qed.

Lemma safe_usize_bits : usize_bits = 64.
Proof. unfold usize_bits. by rewrite safe_target. Qed.

Lemma N_eight_regions : N = 8 * region_size.
Proof. rewrite <- safe_REGION_COUNT. apply N_regions. Qed.

Lemma region_size_le : 8 ≤ region_size ≤ 128.
Proof.
  pose proof region_size_bounds. pose proof N_eight_regions. pose proof safe_len. lia.
Qed.

Lemma mod_N_bounds i : 0 ≤ i mod N < N.
Proof. apply Z.mod_pos_bound. pose proof N_ge_64. lia. Qed.

Lemma region_of_range i : 0 ≤ region_of i < 8.
Proof. rewrite <- safe_REGION_COUNT. apply current_region_range, mod_N_bounds. Qed.

Lemma one_shifted_lane i : one_shifted (i mod N) = 2 ^ (8 * region_of i).
Proof.
  rewrite one_shifted_pow by apply mod_N_bounds. by rewrite safe_REGION_COUNT.
Qed.

Lemma region_mask_lane i : region_mask (i mod N) = 255 * 2 ^ (8 * region_of i).
Proof.
  rewrite region_mask_pow by apply mod_N_bounds. by rewrite safe_REGION_COUNT.
Qed.

Lemma region_floor_bounds i : region_floor i ≤ i < region_floor i + region_size.
Proof.
  unfold region_floor. pose proof region_size_le.
  pose proof (Z.mod_pos_bound i region_size). lia.
Qed.

Lemma mod_N_mod_region i : (i mod N) mod region_size = i mod region_size.
Proof. apply Z.mod_mod_divide. exists 8. apply N_eight_regions. Qed.

Lemma region_floor_mod_N i : region_floor i mod N = region_of i * region_size.
Proof.
  pose proof region_size_le. pose proof N_eight_regions.
  unfold region_of. rewrite current_region_div. unfold region_floor.
  rewrite <- mod_N_mod_region. pose proof (mod_N_bounds i) as Hi.
  assert (0 < region_size) as Hpos by lia. assert (region_size ≠ 0) as Hne by lia.
  pose proof (Z.div_mod (i mod N) region_size Hne).
  pose proof (Z.mod_pos_bound (i mod N) region_size Hpos).
  pose proof (Z.mod_le (i mod N) region_size (proj1 Hi) Hpos).
  rewrite <- Zminus_mod_idemp_l. rewrite Z.mod_small by lia. lia.
Qed.

Lemma region_floor_mod i : region_floor i mod region_size = 0.
Proof.
  pose proof region_size_le. unfold region_floor. rewrite Zminus_mod_idemp_r.
  by rewrite Z.sub_diag.
Qed.

Lemma same_region_floor a b :
  region_of a = region_of b →
  region_floor a - region_floor b < N → region_floor b - region_floor a < N →
  region_floor a = region_floor b.
Proof.
  intros Hr H1 H2. apply (mod_inj_window _ _ N); [pose proof N_ge_64; lia|lia|lia|].
  by rewrite !region_floor_mod_N, Hr.
Qed.

(** One lap later the owner stands at the start of the same region. *)
Lemma next_lap_region b :
  region_of (region_floor b + N) = region_of b
  ∧ at_region_start ((region_floor b + N) mod N) = true.
Proof.
  pose proof region_size_le. pose proof N_eight_regions.
  assert ((region_floor b + N) mod N = region_of b * region_size) as Hm.
  { replace (region_floor b + N) with (region_floor b + 1 * N) by lia.
    rewrite Z.mod_add by lia. apply region_floor_mod_N. }
  split.
  - unfold region_of at 1. rewrite Hm, current_region_div. apply Z.div_mul. lia.
  - rewrite at_region_start_mod, Hm, Z.mod_mul by lia. done.
Qed.

(** Off a region boundary there is room in every lap. *)
Lemma room_inside n b :
  at_region_start (n mod N) = false → n ≤ region_floor b + N → n + 1 ≤ region_floor b + N.
Proof.
  intros Hs Hn. destruct (decide (n = region_floor b + N)) as [->|]; [|lia].
  destruct (next_lap_region b) as [_ Ht]. congruence.
Qed.
End regions.

Section exclusion.
Context {C : QueueCfg} {HS : SafeCfg} {cell W D : Type} `{Deque W D}.
Implicit Types (q : StackQueue cell D) (s : sys cell W D) (gs : gmap nat guard)
  (pc : owner_pc cell W) (h : list cell) (ws : list (observation W)).

Lemma guard_start_range s g b :
  guard_start g = Some b → ∃ e, guard_range s g = Some (b, e).
Proof. destruct g; intros; simplify_eq/=; eauto. Qed.

Lemma starts_in_start r g :
  starts_in r g = true → ∃ b, guard_start g = Some b ∧ region_of b = r.
Proof.
  unfold starts_in. destruct (guard_start g) as [b|]; [|done].
  intros <-%Z.eqb_eq. eauto.
Qed.

(** A live batch lies within the last lap. *)
Lemma live_window s id g b :
  ranges_inv s → exclusion_inv s → sys_guards s !! id = Some g → guard_start g = Some b →
  0 ≤ b < count s ∧ count s + room s ≤ region_floor b + N ∧ count s + room s ≤ b + N.
Proof.
  intros I E Hid Hb. destruct (guard_start_range s g b Hb) as [e He].
  pose proof (guard_range_bounds _ _ _ _ _ I Hid He).
  destruct (inv_owner _ I) as (phase & _ & Hown). pose proof (claimed_le_count _ _ Hown).
  pose proof (ex_room _ E _ _ _ Hid Hb). pose proof (region_floor_bounds b). lia.
Qed.

Lemma live_starts_distinct s id1 id2 g1 g2 b :
  ranges_inv s → sys_guards s !! id1 = Some g1 → sys_guards s !! id2 = Some g2 →
  guard_start g1 = Some b → guard_start g2 = Some b → id1 = id2.
Proof.
  intros I H1 H2 B1 B2. destruct (decide (id1 = id2)) as [|Hne]; [done|].
  destruct (guard_start_range s g1 b B1) as [e1 R1], (guard_start_range s g2 b B2) as [e2 R2].
  pose proof (guard_range_bounds _ _ _ _ _ I H1 R1).
  pose proof (guard_range_bounds _ _ _ _ _ I H2 R2).
  pose proof (inv_disjoint _ I _ _ _ _ _ _ _ _ Hne H1 H2 R1 R2). lia.
Qed.

(** Live batches that start in one region start in one lap of it, so there are at
    most [region_size] of them. *)
Lemma live_in_le_region s r :
  ranges_inv s → exclusion_inv s → live_in r (sys_guards s) ≤ region_size.
Proof.
  intros I E. pose proof region_size_le.
  set (m := filter (λ kv, starts_in r kv.2 = true) (sys_guards s)).
  assert (∀ id g, m !! id = Some g → sys_guards s !! id = Some g ∧
    ∃ b, guard_start g = Some b ∧ region_of b = r) as Hm.
  { intros id g [Hid Hs]%map_lookup_filter_Some. split; [done|]. by apply starts_in_start. }
  destruct (decide (m = ∅)) as [Hempty|(id0 & g0 & Hl0)%map_choose].
  { unfold live_in. fold m. rewrite Hempty, map_size_empty. simpl. lia. }
  destruct (Hm _ _ Hl0) as [Hid0 (b0 & Hb0 & Hr0)].
  pose proof (live_window _ _ _ _ I E Hid0 Hb0) as Hw0. unfold live_in. fold m.
  apply map_size_le_interval with (f := λ g, default 0 (guard_start g)) (lo := region_floor b0).
  - lia.
  - intros id g (Hid & b & Hb & Hr)%Hm. rewrite Hb. simpl.
    pose proof (live_window _ _ _ _ I E Hid Hb) as Hw.
    pose proof (region_floor_bounds b). pose proof (region_floor_bounds b0).
    assert (0 ≤ room s) by (unfold room; by destruct (sys_pc s)).
    rewrite (same_region_floor b0 b); [lia|congruence|lia|lia].
  - intros id1 id2 g1 g2 (H1 & b1 & Hb1 & _)%Hm (H2 & b2 & Hb2 & _)%Hm.
    rewrite Hb1, Hb2. simpl. intros ->. by eapply live_starts_distinct.
Qed.

(** ** The region check *)
Lemma check_ok_lane i q q' :
  check_write_index (i mod N) q = Done (Ok (), q') →
  at_region_start (i mod N) = true →
  lane (region_of i) (sq_occupancy q) = 0 ∨ lane (region_of i) (occupancy (inner q)) = 0.
Proof.
  rewrite check_write_index_run, check_regional_occupancy_run. intros Hc Hs.
  rewrite Hs, region_mask_lane, !lane_mask_test in Hc by (pose proof (region_of_range i); lia).
  destruct (Z.eqb_spec (lane (region_of i) (sq_occupancy q)) 0); [by left|].
  destruct (Z.eqb_spec (lane (region_of i) (occupancy (inner q))) 0); [by right|done].
Qed.

Lemma check_sq_occupancy i q r q' :
  check_write_index i q = Done (r, q') →
  sq_occupancy q' = sq_occupancy q ∨ sq_occupancy q' = occupancy (inner q).
Proof.
  rewrite check_write_index_run, check_regional_occupancy_run.
  destruct (at_region_start _); [destruct (_ =? 0)|]; intros; simplify_eq; auto.
Qed.

(** A passed check gives room for one more task in every live batch's lap. *)
Lemma check_ok_room q q' gs h ws i :
  let s := mkSys q Idle gs h ws in
  ranges_inv s → exclusion_inv s → i = count s →
  check_write_index (i mod N) q = Done (Ok (), q') →
  ∀ id g b, gs !! id = Some g → guard_start g = Some b → i + 1 ≤ region_floor b + N.
Proof.
  intros s I E -> Hc id g b Hid Hb.
  pose proof (ex_room _ E _ _ _ Hid Hb) as Hroom. unfold room in Hroom. simpl in Hroom.
  destruct (at_region_start (count s mod N)) eqn:Hs; [|apply room_inside; [done|lia]].
  destruct (decide (count s = region_floor b + N)) as [Heq|]; [|lia]. exfalso.
  destruct (next_lap_region b) as [Hr _]. rewrite <- Heq in Hr.
  pose proof (region_of_range (count s)) as Hrange.
  assert (lane (region_of (count s)) (occupancy (inner q)) = 0) as Hl.
  { pose proof (ex_stale _ E _ Hrange). pose proof (lane_bounds (region_of (count s))
      (occupancy (inner q))). simpl in *.
    destruct (check_ok_lane _ _ _ Hc Hs); lia. }
  pose proof (ex_lanes _ E _ Hrange) as Hlive. simpl in Hlive. rewrite Hl in Hlive.
  pose proof (live_in_zero _ _ _ _ (eq_sym Hlive) Hid) as Hno.
  unfold starts_in in Hno. rewrite Hb, Hr, Z.eqb_refl in Hno. done.
Qed.
End exclusion.

Section exclusion_frames.
Context {C : QueueCfg} {HS : SafeCfg} {cell W D : Type} `{Deque W D}.
Implicit Types (q : StackQueue cell D) (s : sys cell W D) (gs : gmap nat guard)
  (pc : owner_pc cell W) (h : list cell) (ws : list (observation W)).

Lemma exclusion_inv_initial uninit : exclusion_inv (initial uninit : sys cell W D).
Proof.
  by split.
Qed.

(** Owner steps that only move the program counter or refresh the local copy. *)
Lemma exclusion_owner q q' pc pc' gs h ws ws' :
  let s := mkSys q pc gs h ws in
  let s' := mkSys q' pc' gs h ws' in
  buffer (inner q') = buffer (inner q) →
  occupancy (inner q') = occupancy (inner q) →
  (sq_occupancy q' = sq_occupancy q ∨ sq_occupancy q' = occupancy (inner q)) →
  (begun s' = begun s ∨ begun s' = None) →
  (pc' = pc ∨ ∀ index c, pc' ≠ Written index c) →
  (∀ id g b, gs !! id = Some g → guard_start g = Some b →
     count s + room s' ≤ region_floor b + N) →
  exclusion_inv s → exclusion_inv s'.
Proof.
  intros s s' Hb Ho Hsq Hbeg Hpc Hroom E.
  assert (∀ i, cell_at s' i = cell_at s i) as Hcell by (intros i; unfold cell_at; simpl; by rewrite Hb).
  split; simpl.
  - exact Hroom.
  - intros id g lo hi i Hid Hu Hi. rewrite Hcell. by apply (ex_contents _ E id g lo hi).
  - intros i Hi. rewrite Hcell. apply (ex_begun _ E). destruct Hbeg; congruence.
  - intros index c Hw. change (count s') with (count s). rewrite Hcell.
    destruct Hpc as [->|Hpc]; [by apply (ex_written _ E index)|by destruct (Hpc index c)].
  - rewrite Ho. apply (ex_word _ E).
  - rewrite Ho. apply (ex_lanes _ E).
  - intros r Hr. rewrite Ho. destruct Hsq as [->| ->]; [by apply (ex_stale _ E)|done].
Qed.

(** Guard steps that only change a guard's stage or give batches back. *)
Lemma exclusion_guards q q' pc gs gs' h ws ws' :
  let s := mkSys q pc gs h ws in
  let s' := mkSys q' pc gs' h ws' in
  buffer (inner q') = buffer (inner q) → sq_slot q' = sq_slot q →
  (∀ id g', gs' !! id = Some g' →
     guard_start g' = None ∧ unread s g' = None ∨
     ∃ g, gs !! id = Some g ∧ guard_start g' = guard_start g ∧ unread s g' = unread s g) →
  0 ≤ occupancy (inner q') < 2 ^ 64 →
  (∀ r, 0 ≤ r < 8 → lane r (occupancy (inner q')) = live_in r gs') →
  (∀ r, 0 ≤ r < 8 → lane r (occupancy (inner q')) ≤ lane r (sq_occupancy q')) →
  exclusion_inv s → exclusion_inv s'.
Proof.
  intros s s' Hb Hsl Hgs Hword Hlanes Hstale E.
  assert (∀ i, cell_at s' i = cell_at s i) as Hcell by (intros i; unfold cell_at; simpl; by rewrite Hb).
  split; simpl; try done.
  - intros id g b Hid Hst. destruct (Hgs _ _ Hid) as [[??]|(g0 & H0 & Hs0 & _)]; [congruence|].
    apply (ex_room _ E id g0); [done|congruence].
  - intros id g lo hi i Hid Hu Hi. rewrite Hcell.
    change (unread s g = Some (lo, hi)) in Hu.
    destruct (Hgs _ _ Hid) as [[??]|(g0 & H0 & _ & Hu0)]; [congruence|].
    apply (ex_contents _ E id g0 lo hi); [done|congruence|done].
  - intros i Hi. rewrite Hcell. apply (ex_begun _ E). rewrite <- Hi. unfold begun.
    simpl. by rewrite Hsl.
  - intros index c Hw. change (count s') with (count s). rewrite Hcell.
    by apply (ex_written _ E index).
Qed.

Lemma exclusion_stage q q' pc gs id g g' h ws ws' :
  gs !! id = Some g →
  buffer (inner q') = buffer (inner q) → sq_slot q' = sq_slot q →
  occupancy (inner q') = occupancy (inner q) → sq_occupancy q' = sq_occupancy q →
  guard_start g' = guard_start g →
  unread (mkSys q pc gs h ws) g' = unread (mkSys q pc gs h ws) g →
  exclusion_inv (mkSys q pc gs h ws) →
  exclusion_inv (mkSys q' pc (<[id := g']> gs) h ws').
Proof.
  intros Hid Hb Hsl Ho Hsq Hst Hu E.
  apply (exclusion_guards q q' pc gs _ h ws); try done.
  - intros id' g'' [[<- <-]|[Hne Hl]]%(lookup_insert_Some gs); right; eauto.
  - rewrite Ho. apply (ex_word _ E).
  - intros r Hr. rewrite Ho. pose proof (ex_lanes _ E r Hr) as Hl. simpl in Hl. rewrite Hl.
    rewrite (live_in_update _ _ _ _ _ Hid). unfold starts_in. rewrite Hst. lia.
  - rewrite Ho, Hsq. apply (ex_stale _ E).
Qed.

(** A guard without a batch may disappear. *)
Lemma exclusion_gone q q' pc gs id limit h ws ws' :
  gs !! id = Some (Waking limit) →
  inner q' = inner q → sq_slot q' = sq_slot q → sq_occupancy q' = sq_occupancy q →
  exclusion_inv (mkSys q pc gs h ws) →
  exclusion_inv (mkSys q' pc (delete id gs) h ws').
Proof.
  intros Hid Hi Hsl Hsq E.
  apply (exclusion_guards q q' pc gs _ h ws); rewrite ?Hi; try done.
  - intros id' g [Hne Hl]%lookup_delete_Some. right. eauto.
  - apply (ex_word _ E).
  - intros r Hr. rewrite (live_in_delete _ _ _ _ Hid). pose proof (ex_lanes _ E r Hr) as Hl.
    simpl in Hl |- *. lia.
  - rewrite Hsq. apply (ex_stale _ E).
Qed.
End exclusion_frames.

Section exclusion_steps.
Context {C : QueueCfg} {HS : SafeCfg} {cell W D : Type} `{Deque W D}.
Implicit Types (q : StackQueue cell D) (s : sys cell W D) (gs : gmap nat guard)
  (pc : owner_pc cell W) (h : list cell) (ws : list (observation W)).

(** Writing the cell of task number [n] is seen by [n] alone, among the task
    numbers of one lap around it. *)
Lemma write_other (buf : list cell) (n i : Z) (c : cell) :
  n - i < N → i - n < N → i ≠ n →
  <[Z.to_nat (n mod N) := c]> buf !! Z.to_nat (i mod N) = buf !! Z.to_nat (i mod N).
Proof.
  intros H1 H2 Hne. apply list_lookup_insert_ne. intros He.
  pose proof (mod_N_bounds n). pose proof (mod_N_bounds i). pose proof N_ge_64.
  destruct Hne. apply (mod_inj_window _ _ N); lia.
Qed.

Lemma write_same (buf : list cell) (n : Z) (c : cell) :
  length buf = Z.to_nat N → <[Z.to_nat (n mod N) := c]> buf !! Z.to_nat (n mod N) = Some c.
Proof.
  intros Hl. apply list_lookup_insert_eq. rewrite Hl. pose proof (mod_N_bounds n). lia.
Qed.

(** What a guard has not read yet lies within its range, in the last lap. *)
Lemma unread_window s id g lo hi i :
  ranges_inv s → exclusion_inv s → sys_guards s !! id = Some g →
  unread s g = Some (lo, hi) → lo ≤ i < hi →
  0 ≤ i < claimed s ∧ i < count s ∧ count s + room s ≤ i + N.
Proof.
  intros I E Hid Hu Hi. destruct (inv_owner _ I) as (phase & _ & Hown).
  pose proof (claimed_le_count _ _ Hown) as Hcl.
  destruct g as [w st|rs re st sp cur|]; [injection Hu as <- <-..|done].
  - destruct (live_window _ _ _ st I E Hid eq_refl) as (? & _ & ?).
    pose proof (guard_range_bounds _ _ _ _ _ I Hid eq_refl). lia.
  - destruct (live_window _ _ _ st I E Hid eq_refl) as (? & _ & ?).
    pose proof (inv_guards _ I _ _ Hid) as Hok. simpl in Hok. lia.
Qed.

Lemma exclusion_write q gs h ws index c :
  let s := mkSys q (Checked index c) gs h ws in
  ranges_inv s → exclusion_inv s →
  exclusion_inv (mkSys (set_buffer (<[Z.to_nat index := c]> (buffer (inner q))) q)
    (Written index c) gs h ws).
Proof.
  intros s I E. set (s' := mkSys _ _ _ _ _).
  destruct (inv_owner _ I) as (phase & _ & Hidx & _). simpl in Hidx.
  split; try apply E; try done.
  - intros id g lo hi i Hid Hu Hi.
    pose proof (unread_window s id g lo hi i I E Hid Hu Hi) as Hw. unfold room in Hw. simpl in Hw.
    pose proof (ex_contents _ E id g lo hi i Hid Hu Hi) as Hc.
    unfold cell_at in *. simpl. rewrite Hidx, write_other by lia. exact Hc.
  - intros index' c' [= <- <-]. unfold cell_at. simpl. rewrite Hidx. apply write_same, (inv_length _ I).
Qed.

Lemma exclusion_claim q gs h ws index c :
  let s := mkSys q (Written index c) gs h ws in
  ranges_inv s → exclusion_inv s →
  exclusion_inv (mkSys (set_slot (wrapping_add usize_bits (slot (inner q))
                (shl usize_bits 1 INDEX_SHIFT)) q)
              (Claimed index (slot (inner q))) gs (h ++ [c]) ws).
Proof.
  intros s I E. set (s' := mkSys _ _ _ _ _).
  assert (count s' = count s + 1) as Hc.
  { unfold count. simpl. rewrite length_app. simpl. lia. }
  assert (∀ i, 0 ≤ i < count s → task_at s' i = task_at s i) as Hold.
  { intros i Hi. unfold task_at, count in *. simpl in *. rewrite lookup_app_l by lia. done. }
  assert (cell_at s' (count s) = task_at s' (count s)) as Hnew.
  { pose proof (ex_written _ E index c eq_refl) as Hw. unfold task_at, count. simpl.
    rewrite Nat2Z.id, list_lookup_middle by done. exact Hw. }
  split; try apply E.
  - intros id g b Hid Hb. pose proof (ex_room _ E _ _ _ Hid Hb) as Hr. rewrite Hc.
    unfold room in *. simpl in *. lia.
  - intros id g lo hi i Hid Hu Hi. destruct (decide (i = count s)) as [->|Hne]; [exact Hnew|].
    assert (∃ hi', unread s g = Some (lo, hi') ∧ i < hi') as (hi' & Hu' & Hi').
    { destruct g; simplify_eq/=; eexists; (split; [done|]); lia. }
    pose proof (unread_window s id g lo hi' i I E Hid Hu' ltac:(lia)).
    rewrite Hold by lia. apply (ex_contents _ E id g lo hi'); [done|done|lia].
  - intros i Hi. unfold begun in Hi. simpl in Hi. destruct (eqb _ _); [done|].
    injection Hi as <-. rewrite Hc. replace (count s + 1 - 1) with (count s) by lia. done.
  - done.
Qed.

Lemma exclusion_occupy q gs h ws ws' index base_slot id :
  let s := mkSys q (Occupying index base_slot) gs h ws in
  gs !! id = None → ranges_inv s → exclusion_inv s →
  exclusion_inv (mkSys (occupied index q) Idle
    (<[id := Unbounded base_slot (Z.of_nat (length h) - 1)]> gs) h ws').
Proof.
  intros s Hid I E. set (s' := mkSys _ _ _ _ _).
  destruct (inv_owner _ I) as (phase & _ & Hn & Hidx & _). set (n := count s - 1) in *.
  pose proof (region_of_range n) as Hr. pose proof (ex_word _ E) as Hw. simpl in Hw.
  pose proof (live_in_le_region s (region_of n) I E) as Hle. pose proof region_size_le.
  pose proof (ex_lanes _ E _ Hr) as Hl. simpl in Hl, Hle. rewrite <- Hl in Hle.
  pose proof (lane_room (region_of n) _ Hr Hw ltac:(lia)) as Hno.
  assert (0 < 2 ^ (8 * region_of n)) as Hp by (apply pow2_pos; lia).
  assert (occupancy (inner (sys_queue s')) = occupancy (inner q) + 2 ^ (8 * region_of n)) as Hocc.
  { simpl. rewrite Hidx, one_shifted_lane. apply wrap_small. rewrite safe_usize_bits. split; lia. }
  split.
  - intros id' g b [[<- <-]|[Hne Hg]]%(lookup_insert_Some gs) Hb.
    + injection Hb as <-. change (Z.of_nat (length h) - 1) with n.
      pose proof (region_floor_bounds n). pose proof N_eight_regions.
      unfold room. simpl. unfold n, count in *. simpl in *. lia.
    + exact (ex_room _ E id' g b Hg Hb).
  - intros id' g lo hi i [[<- <-]|[Hne Hg]]%(lookup_insert_Some gs) Hu Hi.
    + injection Hu as <- <-. assert (i = n) as -> by (unfold n, count in *; simpl in *; lia).
      by apply (ex_begun _ E).
    + exact (ex_contents _ E id' g lo hi i Hg Hu Hi).
  - done.
  - done.
  - rewrite Hocc. lia.
  - intros r Hr'. rewrite Hocc, lane_add by lia. simpl. rewrite live_in_insert_new by done.
    pose proof (ex_lanes _ E r Hr') as Hlr. simpl in Hlr. rewrite Hlr. f_equal.
    unfold starts_in. simpl. change (Z.of_nat (length h) - 1) with n.
    destruct (decide (r = region_of n)) as [->|]; [by rewrite Z.eqb_refl|].
    by rewrite (proj2 (Z.eqb_neq _ _)) by congruence.
  - done.
Qed.

Lemma exclusion_consume q pc gs h ws id rs re start stop current c :
  let s := mkSys q pc gs h ws in
  gs !! id = Some (Bounded rs re start stop current) → current < stop →
  ranges_inv s → exclusion_inv s →
  exclusion_inv (mkSys (set_buffer (<[Z.to_nat (current mod N) := c]> (buffer (inner q))) q) pc
    (<[id := Bounded rs re start stop (current + 1)]> gs) h ws).
Proof.
  intros s Hid Hcur I E. set (s' := mkSys _ _ _ _ _).
  pose proof (unread_window s id _ current stop current I E Hid eq_refl ltac:(lia)) as Hwin.
  assert (0 ≤ room s) as Hroom by (unfold room; by destruct (sys_pc s)).
  assert (∀ i, i ≠ current → count s ≤ i + N → i ≤ count s → i + 1 ≤ count s + room s →
    cell_at s' i = cell_at s i) as Hframe.
  { intros i Hne H1 H2 H3. unfold cell_at. simpl. apply write_other; lia. }
  destruct (inv_owner _ I) as (phase & _ & Hown).
  pose proof (inv_guards _ I _ _ Hid) as Hok. simpl in Hok.
  split.
  - intros id' g b [[<- <-]|[Hne Hg]]%(lookup_insert_Some gs) Hb.
    + exact (ex_room _ E _ _ _ Hid Hb).
    + exact (ex_room _ E _ _ _ Hg Hb).
  - intros id' g lo hi i [[<- <-]|[Hne Hg]]%(lookup_insert_Some gs) Hu Hi.
    + injection Hu as <- <-.
      pose proof (unread_window s id _ current stop i I E Hid eq_refl ltac:(lia)).
      rewrite Hframe by lia. apply (ex_contents _ E id _ current stop i Hid eq_refl). lia.
    + pose proof (unread_window s id' g lo hi i I E Hg Hu Hi) as Hw.
      rewrite Hframe; [by apply (ex_contents _ E id' g lo hi)| |lia..].
      intros ->. destruct (guard_range s g) as [[b e]|] eqn:Hr; [|by destruct g].
      pose proof (inv_disjoint _ I _ _ _ _ _ _ _ _ Hne Hid Hg eq_refl Hr) as Hd.
      pose proof (inv_guards _ I _ _ Hg) as Hokg.
      destruct g; simplify_eq/=; lia.
  - intros i Hi. change (begun s = Some i) in Hi. rewrite Hframe; [by apply (ex_begun _ E)|..].
    all: unfold claimed in *; rewrite Hi in *; simpl in *.
    all: assert (i = count s - 1) as -> by
      (unfold begun in Hi; destruct (sys_pc s); try done; [destruct (eqb _ _)|]; simplify_eq; done).
    all: lia.
  - intros index c' Hpc. change (count s') with (count s). rewrite Hframe.
    + by apply (ex_written _ E index).
    + lia.
    + pose proof N_ge_64. lia.
    + lia.
    + unfold room, s. simpl in Hpc |- *. rewrite Hpc. lia.
  - apply (ex_word _ E).
  - intros r Hr. simpl. rewrite (live_in_update _ _ _ _ _ Hid).
    pose proof (ex_lanes _ E r Hr) as Hl. simpl in Hl. rewrite Hl. unfold starts_in. simpl. lia.
  - apply (ex_stale _ E).
Qed.

(** Releasing a batch takes one off the lane of its region. *)
Lemma exclusion_release q pc gs h ws id rs re start stop current gs' :
  let s := mkSys q pc gs h ws in
  gs !! id = Some (Bounded rs re start stop current) →
  (∃ limit, gs' = <[id := Waking limit]> gs) ∨ gs' = delete id gs →
  ranges_inv s → exclusion_inv s →
  exclusion_inv (mkSys (set_occupancy (wrapping_sub usize_bits (occupancy (inner q))
    (one_shifted (Z.land rs (wrapping_sub usize_bits N 1)))) q) pc gs' h ws).
Proof.
  intros s Hid Hgs I E. pose proof (inv_guards _ I _ _ Hid) as Hok. simpl in Hok.
  destruct Hok as (_ & _ & _ & Hrs & _). rewrite land_N, Hrs, mod_counter_mod_N, one_shifted_lane.
  pose proof (region_of_range start) as Hr. pose proof (ex_word _ E) as Hw. simpl in Hw.
  assert (starts_in (region_of start) (Bounded rs re start stop current) = true) as Hst.
  { unfold starts_in. simpl. by rewrite Z.eqb_refl. }
  pose proof (live_in_pos _ _ _ _ Hid Hst) as Hpos.
  pose proof (ex_lanes _ E _ Hr) as Hl. simpl in Hl. rewrite <- Hl in Hpos.
  assert (2 ^ (8 * region_of start) ≤ occupancy (inner q)) as Hge by (apply lane_ge_pow; lia).
  assert (0 < 2 ^ (8 * region_of start)) as Hp by (apply pow2_pos; lia).
  unfold wrapping_sub. rewrite wrap_small by (rewrite safe_usize_bits; split; lia).
  assert (∀ r, 0 ≤ r < 8 → lane r (occupancy (inner q) - 2 ^ (8 * region_of start))
    = live_in r gs - Z.b2z (starts_in r (Bounded rs re start stop current))) as Hlanes.
  { intros r Hr'. rewrite lane_sub by lia. pose proof (ex_lanes _ E r Hr') as Hlr.
    simpl in Hlr. rewrite Hlr. f_equal. unfold starts_in. simpl.
    destruct (decide (r = region_of start)) as [->|]; [by rewrite Z.eqb_refl|].
    by rewrite (proj2 (Z.eqb_neq _ _)) by congruence. }
  apply (exclusion_guards q _ pc gs gs' h ws); try done.
  - intros id' g Hg. destruct Hgs as [[limit ->]| ->].
    + apply lookup_insert_Some in Hg as [[<- <-]|[Hne Hg]]; [by left|right; eauto].
    + apply lookup_delete_Some in Hg as [Hne Hg]. right. eauto.
  - simpl. lia.
  - intros r Hr'. simpl. rewrite Hlanes by done. destruct Hgs as [[limit ->]| ->].
    + rewrite (live_in_update _ _ _ _ _ Hid). unfold starts_in at 3. simpl. lia.
    + by rewrite (live_in_delete _ _ _ _ Hid).
  - intros r Hr'. simpl. rewrite Hlanes by done. pose proof (ex_stale _ E r Hr') as Hs.
    pose proof (ex_lanes _ E r Hr') as Hlr. simpl in Hs, Hlr.
    pose proof (b2z_nonneg (starts_in r (Bounded rs re start stop current))). lia.
Qed.
End exclusion_steps.

Section exclusion_reachable.
Context {C : QueueCfg} {HS : SafeCfg} {cell W D : Type} `{Deque W D}.
Implicit Types (q : StackQueue cell D) (s : sys cell W D) (gs : gmap nat guard)
  (pc : owner_pc cell W) (h : list cell) (ws : list (observation W)).

Lemma exclusion_check q q' pc' gs h ws index r :
  let s := mkSys q Idle gs h ws in
  current_write_index q = Done (index, q) → check_write_index index q = Done (r, q') →
  match r with
  | Ok _ => ∃ c, pc' = Checked index c
  | Err _ => ∃ waker, pc' = Rejected waker
  end →
  ranges_inv s → exclusion_inv s → exclusion_inv (mkSys q' pc' gs h ws).
Proof.
  intros s Hw Hc Hpc I E. destruct (inv_owner _ I) as (phase & _ & _ & lp & Hl & _).
  simpl in Hl. rewrite (current_write_index_run _ _ _ Hl) in Hw. injection Hw as <-.
  destruct (check_write_index_frame _ _ _ _ Hc) as (Hi & _ & _).
  apply (exclusion_owner q _ Idle _ gs h ws); rewrite ?Hi; try done.
  - by eapply check_sq_occupancy.
  - left. unfold begun. destruct r; [destruct Hpc as [c ->]|destruct Hpc as [w ->]]; done.
  - right. intros i c. destruct r; [destruct Hpc as [? ->]|destruct Hpc as [? ->]]; done.
  - intros id g b Hid Hb. destruct r as [[]|].
    + destruct Hpc as [c ->]. by eapply (check_ok_room q q' gs h ws).
    + destruct Hpc as [w ->]. exact (ex_room _ E _ _ _ Hid Hb).
Qed.

Lemma exclusion_replace q pc gs h ws index base_slot v :
  let s := mkSys q (Claimed index base_slot) gs h ws in
  pc = (if Z.land (Z.lxor base_slot (sq_slot q)) PHASE =? 0 then Idle
        else Occupying index base_slot) →
  exclusion_inv s → exclusion_inv (mkSys (set_sq_slot v q) pc gs h ws).
Proof.
  intros s Hpc E. rewrite same_phase_test in Hpc.
  apply (exclusion_owner q _ (Claimed index base_slot) _ gs h ws); try done.
  - by left.
  - left. unfold begun. simpl. subst pc. by destruct (eqb _ _).
  - right. subst pc. by destruct (eqb _ _).
  - intros id g b Hid Hb. pose proof (ex_room _ E _ _ _ Hid Hb) as Hr.
    unfold room in *. simpl in *. subst pc. by destruct (eqb _ _).
Qed.

Lemma exclusion_inv_step s s' :
  step s s' → ranges_inv s → exclusion_inv s → exclusion_inv s'.
Proof.
  intros Hst I E. destruct Hst.
  - eapply (exclusion_check q); eauto. by exists c.
  - eapply (exclusion_check q); eauto. by exists waker.
  - eapply (exclusion_owner q); try done; [by left|by left|by right|].
    intros id g b Hid Hb. exact (ex_room _ E _ _ _ Hid Hb).
  - eapply (exclusion_owner q); try done; [by left|by left|by right|].
    intros id g b Hid Hb. exact (ex_room _ E _ _ _ Hid Hb).
  - apply write_cell_frame in H0 as [_ ->]. by apply exclusion_write.
  - injection H0 as <- <-. by apply exclusion_claim.
  - injection H0 as <- <-. apply exclusion_replace with (index := index) (base_slot := base_slot);
      [|done]. by rewrite (proj2 (Z.eqb_eq _ _) H1).
  - injection H0 as <- <-. apply exclusion_replace with (index := index) (base_slot := base_slot);
      [|done]. by rewrite (proj2 (Z.eqb_neq _ _) H1).
  - rewrite occupy_region_run in H0. injection H0 as <-. by eapply exclusion_occupy.
  - injection H1 as <- <-. by eapply (exclusion_stage q _ pc gs id _ _ h ws ws H0).
  - apply write_cell_frame in H2 as [_ ->]. rewrite land_N. by eapply exclusion_consume.
  - injection H1 as <- <-. eapply exclusion_release; [exact H0| |done|done].
    destruct (_ =? _); [left; by eexists|by right].
  - by eapply (exclusion_stage q _ pc gs id _ _ h ws _ H0).
  - eapply (exclusion_owner q); try done; [by left|by left|by left|].
    intros id' g b Hid Hb. exact (ex_room _ E _ _ _ Hid Hb).
  - by eapply (exclusion_gone q).
  - by eapply (exclusion_gone q).
Qed.

Lemma exclusion_inv_reachable uninit s :
  reachable uninit s → ranges_inv s ∧ exclusion_inv s.
Proof.
  intros Hr. eapply (rtc_invariant _ (λ s, ranges_inv s ∧ exclusion_inv s)); [| |exact Hr].
  - intros s1 s2 Hst [I E]. split; [by eapply ranges_inv_step|by eapply exclusion_inv_step].
  - split; [apply ranges_inv_initial|apply exclusion_inv_initial].
Qed.
End exclusion_reachable.
