(* ===== verification/Batches.v ===== *)
(** Batches partition the tasks: along every interleaving, the ranges that guards
    get when they close their batches follow each other without gap or overlap, and
    what they do not cover yet is the range of the open guard. Holds for every
    admissible buffer size on both targets. *)
From S2P Require Import Prelude Usize Helpers Deque Queue Protocol.
Local Open Scope Z_scope.

Section defs.
Context {C : QueueCfg} {cell W D : Type} `{Deque W D}.
Implicit Types (s : sys cell W D).

Definition began {X : Type} (o : observation X) : option Z :=
  match o with Began b => Some b | Woke _ => None end.

(** The first tasks of all batches handed out so far, oldest first. *)
Definition batch_starts s : list Z := omap began (sys_trace s).

(** A batch ends where the next one starts; the newest reaches up to [claimed]. That the words
    with which a guard closes its batch say the same is [closed_ranges_inv] below. *)
Definition batch_end s (k : nat) : Z := default (claimed s) (batch_starts s !! S k).

Definition slice {A : Type} (b e : Z) (l : list A) : list A :=
  take (Z.to_nat (e - b)) (drop (Z.to_nat b) l).

Definition batch_tasks s (k : nat) : list cell :=
  match batch_starts s !! k with
  | Some b => slice b (batch_end s k) (sys_history s)
  | None => []
  end.

Record batches_inv s : Prop := {
  bt_first : default (claimed s) (batch_starts s !! 0%nat) = 0;
  bt_nonempty : ∀ k b, batch_starts s !! k = Some b → b < batch_end s k;
  bt_open : ∀ id w b, sys_guards s !! id = Some (Unbounded w b) →
    last (batch_starts s) = Some b;
  bt_bounded : ∀ id rs re b e current,
    sys_guards s !! id = Some (Bounded rs re b e current) →
    ∃ k, batch_starts s !! k = Some b ∧ e = batch_end s k
}.

(** The log of a run: the words [range_start] and [range_end] of every guard, taken
    when [set_bounds] closes its batch, in the order in which batches are closed. *)
Inductive closed_ranges (uninit : cell) : sys cell W D → list (Z * Z) → Prop :=
| closed_initial : closed_ranges uninit (initial uninit) []
| closed_bound s s' log id base_slot start0 rs re start stop current :
    closed_ranges uninit s log → step s s' →
    sys_guards s !! id = Some (Unbounded base_slot start0) →
    sys_guards s' !! id = Some (Bounded rs re start stop current) →
    closed_ranges uninit s' (log ++ [(rs, re)])
| closed_other s s' log :
    closed_ranges uninit s log → step s s' →
    (∀ id base_slot start, sys_guards s !! id = Some (Unbounded base_slot start) →
       sys_guards s' !! id = Some (Unbounded base_slot start)) →
    closed_ranges uninit s' log.

(** Non-empty ranges of task numbers that follow each other from [lo] up to [hi]. *)
Fixpoint consecutive (lo : Z) (ranges : list (Z * Z)) (hi : Z) : Prop :=
  match ranges with
  | [] => lo = hi
  | (b, e) :: ranges => b = lo ∧ b < e ∧ consecutive e ranges hi
  end.

(** The machine words of a range of task numbers. *)
Definition range_words (range : Z * Z) : Z * Z :=
  (range.1 mod counter_modulus, range.2 mod counter_modulus).

Definition range_tasks s (range : Z * Z) : list cell :=
  slice range.1 range.2 (sys_history s).

(** [ranges] are the task numbers of the closed batches; the next batch begins at
    [rest], which is where the open guard's range begins. *)
Record closed_inv s (ranges : list (Z * Z)) (rest : Z) : Prop := {
  cl_consecutive : consecutive 0 ranges rest;
  cl_open : ∀ id w b, sys_guards s !! id = Some (Unbounded w b) → b = rest;
  cl_none : ¬ has_open s → rest = claimed s;
  cl_bounded : ∀ id rs re b e current,
    sys_guards s !! id = Some (Bounded rs re b e current) → (b, e) ∈ ranges
}.
End defs.

Lemma slice_extend {A : Type} (b e : Z) (l : list A) :
  0 ≤ b ≤ e → take (Z.to_nat b) l ++ slice b e l = take (Z.to_nat e) l.
Proof.
  intros Hbe. unfold slice. replace (Z.to_nat e) with (Z.to_nat b + Z.to_nat (e - b))%nat by lia.
  by rewrite take_take_drop.
Qed.

Section batches.
Context {C : QueueCfg} {HV : ValidCfg} {cell W D : Type} `{Deque W D}.
Implicit Types (q : StackQueue cell D) (s : sys cell W D) (gs : gmap nat guard)
  (pc : owner_pc cell W) (h : list cell) (ws : list (observation W)).

(** Steps that keep the counter's claim and only shrink the set of guards. *)
Lemma batches_inv_frame s s' :
  batch_starts s' = batch_starts s → claimed s' = claimed s →
  (∀ id w b, sys_guards s' !! id = Some (Unbounded w b) →
     sys_guards s !! id = Some (Unbounded w b)) →
  (∀ id rs re b e cur, sys_guards s' !! id = Some (Bounded rs re b e cur) →
     ∃ cur', sys_guards s !! id = Some (Bounded rs re b e cur')) →
  batches_inv s → batches_inv s'.
Proof.
  intros Hst Hcl Hu Hb [B1 B2 B3 B4].
  assert (∀ k, batch_end s' k = batch_end s k) as He.
  { intros k. unfold batch_end. by rewrite Hst, Hcl. }
  split; rewrite ?Hst, ?Hcl; [done| | |].
  - intros k b Hk. rewrite He. auto.
  - intros id w b Hid%Hu. eauto.
  - intros id rs re b e cur (cur' & Hid)%Hb. setoid_rewrite He. eauto.
Qed.

Lemma last_lookup_length {A : Type} (l : list A) x :
  last l = Some x → ∃ k, length l = S k ∧ l !! k = Some x.
Proof.
  rewrite last_lookup. destruct l as [|y l]; [done|]. intros Hl. exists (length l). eauto.
Qed.

Lemma batches_inv_claim q gs h ws index c :
  let s := mkSys q (Written index c) gs h ws in
  ranges_inv s → batches_inv s →
  batches_inv (mkSys (set_slot (wrapping_add usize_bits (slot (inner q))
                (shl usize_bits 1 INDEX_SHIFT)) q)
              (Claimed index (slot (inner q))) gs (h ++ [c]) ws).
Proof.
  intros s I B. set (s' := mkSys _ _ _ _ _).
  destruct (inv_owner _ I) as (phase & Hslot & _ & lp & Hl & Ho). simpl in Hslot, Hl.
  assert (claimed s = count s) as Hcl by done.
  assert (claimed s' = if eqb phase lp then count s + 1 else count s) as Hcl'.
  { unfold claimed, begun, count. simpl. rewrite Hslot, Hl, !slot_word_bit0, length_app.
    simpl. destruct (eqb phase lp); simpl; lia. }
  destruct (eqb phase lp) eqn:Hp.
  2:{ revert B. apply batches_inv_frame; eauto; congruence. }
  apply eqb_prop in Hp. destruct (proj2 Ho Hp) as (id & w & b & Hid). simpl in Hid.
  destruct (last_lookup_length _ _ (bt_open _ B _ _ _ Hid)) as (k & Hlen & Hk).
  assert (∀ k', k' ≠ k → is_Some (batch_starts s !! k') → batch_end s' k' = batch_end s k') as He.
  { intros k' Hne Hb'%lookup_lt_is_Some. unfold batch_end.
    change (batch_starts s') with (batch_starts s).
    destruct (lookup_lt_is_Some_2 (batch_starts s) (S k')) as [x ->]; [lia|done]. }
  assert (batch_end s k = count s ∧ batch_end s' k = count s + 1) as [Hek Hek'].
  { unfold batch_end. change (batch_starts s') with (batch_starts s).
    by rewrite lookup_ge_None_2 by lia. }
  split.
  - pose proof (bt_first _ B) as H0. change (batch_starts s') with (batch_starts s).
    destruct (lookup_lt_is_Some_2 (batch_starts s) 0) as [x Hx]; [lia|].
    by rewrite Hx in H0 |- *.
  - intros k' b' Hb'. change (batch_starts s') with (batch_starts s) in Hb'.
    pose proof (bt_nonempty _ B _ _ Hb'). destruct (decide (k' = k)) as [->|]; [lia|].
    rewrite He; eauto.
  - exact (bt_open _ B).
  - intros id' rs re b' e cur Hid'. destruct (bt_bounded _ B _ _ _ _ _ _ Hid') as (k' & Hb' & ->).
    exists k'. split; [done|]. rewrite He; [done| |eauto]. intros ->.
    assert (b' = b) as -> by congruence.
    simpl in Hid'. assert (id ≠ id') as Hne by (intros <-; congruence).
    pose proof (inv_disjoint _ I _ _ _ _ _ _ _ _ Hne Hid Hid' eq_refl eq_refl).
    pose proof (guard_range_bounds _ _ _ _ _ I Hid eq_refl).
    pose proof (guard_range_bounds _ _ _ _ _ I Hid' eq_refl). lia.
Qed.

Lemma batches_inv_occupy q gs h ws index base_slot id :
  let s := mkSys q (Occupying index base_slot) gs h ws in
  let start := Z.of_nat (length h) - 1 in
  gs !! id = None → ranges_inv s → batches_inv s →
  batches_inv (mkSys (occupied index q) Idle
    (<[id := Unbounded base_slot start]> gs) h (ws ++ [Began start])).
Proof.
  intros s start Hid I B. set (s' := mkSys _ _ _ _ _).
  destruct (inv_owner _ I) as (phase & _ & Hn & _ & _ & _ & Hno).
  assert (batch_starts s' = batch_starts s ++ [start]) as Hst.
  { unfold batch_starts. simpl. by rewrite omap_app. }
  assert (claimed s = start ∧ claimed s' = start + 1) as [Hcl Hcl'].
  { unfold claimed, begun, count, start. simpl. lia. }
  assert (∀ k b, batch_starts s !! k = Some b → batch_end s' k = batch_end s k) as He.
  { intros k b Hk%lookup_lt_Some. unfold batch_end. rewrite Hst, Hcl.
    destruct (decide (S k = length (batch_starts s))) as [->|].
    - by rewrite list_lookup_middle, lookup_ge_None_2 by lia.
    - rewrite lookup_app_l by lia.
      by destruct (lookup_lt_is_Some_2 (batch_starts s) (S k)) as [x ->]; [lia|]. }
  split.
  - pose proof (bt_first _ B) as H0. rewrite Hst. rewrite Hcl in H0.
    destruct (batch_starts s); simpl in *; done.
  - intros k b. rewrite Hst. intros [Hk|[Hk Hb]]%lookup_app_Some.
    + rewrite (He _ _ Hk). by apply (bt_nonempty _ B).
    + apply list_lookup_singleton_Some in Hb as [Hk0 <-].
      unfold batch_end. rewrite Hst, Hcl', lookup_ge_None_2; [simpl; lia|].
      rewrite length_app. simpl. lia.
  - intros id' w b [[<- Heq]|[Hne Hg]]%(lookup_insert_Some gs).
    + injection Heq as <- <-. rewrite Hst. by apply last_snoc.
    + destruct Hno. by do 3 eexists.
  - intros id' rs re b e cur [[<- Heq]|[Hne Hg]]%(lookup_insert_Some gs); [done|].
    destruct (bt_bounded _ B _ _ _ _ _ _ Hg) as (k & Hk & ->). exists k.
    rewrite Hst, (He _ _ Hk). split; [|done]. by apply lookup_app_l_Some.
Qed.

Lemma batches_inv_bound q q' pc gs h ws id base_slot start rs re :
  let s := mkSys q pc gs h ws in
  gs !! id = Some (Unbounded base_slot start) → sq_slot q' = sq_slot q →
  ranges_inv s → batches_inv s →
  batches_inv (mkSys q' pc
    (<[id := Bounded rs re start (Z.of_nat (length h)) start]> gs) h ws).
Proof.
  intros s Hid Hsl I B. set (s' := mkSys _ _ _ _ _).
  assert (claimed s' = claimed s) as Hcl' by (unfold claimed, begun; simpl; by rewrite Hsl).
  destruct (open_claimed s I) as [_ Hcl]; [by do 3 eexists|].
  destruct (last_lookup_length _ _ (bt_open _ B _ _ _ Hid)) as (k & Hlen & Hk).
  assert (∀ k, batch_end s' k = batch_end s k) as He by (intros; unfold batch_end; by rewrite Hcl').
  split.
  - rewrite Hcl'. apply (bt_first _ B).
  - intros k' b Hb. rewrite He. by apply (bt_nonempty _ B).
  - intros id' w b [[<- Heq]|[Hne Hg]]%(lookup_insert_Some gs); [done|].
    by apply (bt_open _ B id' w).
  - intros id' rs' re' b e cur [[<- Heq]|[Hne Hg]]%(lookup_insert_Some gs).
    + injection Heq as <- <- <- <- <-. exists k. split; [done|]. rewrite He.
      unfold batch_end. rewrite lookup_ge_None_2 by lia. done.
    + setoid_rewrite He. by apply (bt_bounded _ B _ _ _ _ _ _ Hg).
Qed.

Lemma batches_inv_step s s' : step s s' → ranges_inv s → batches_inv s → batches_inv s'.
Proof.
  intros Hst I B.
  destruct Hst; try (revert B; apply batches_inv_frame; by eauto).
  - injection H0 as <- <-. by apply batches_inv_claim.
  - injection H0 as Hp <-. apply Z.eqb_eq in H1. rewrite same_phase_test in H1.
    revert B. apply batches_inv_frame; eauto. unfold claimed, begun. simpl.
    by rewrite Hp, H1.
  - injection H0 as Hp <-. apply Z.eqb_neq in H1. rewrite same_phase_test in H1.
    revert B. apply batches_inv_frame; eauto. unfold claimed, begun. simpl.
    by rewrite Hp, H1.
  - rewrite occupy_region_run in H0. injection H0 as <-. by apply batches_inv_occupy.
  - injection H1 as <- <-. by eapply (batches_inv_bound q _ pc gs h ws id base_slot start).
  - apply write_cell_frame in H2 as [_ ->]. revert B. apply batches_inv_frame; eauto; simpl.
    + intros id' w b [[<- Heq]|[Hne Hg]]%lookup_insert_Some; done.
    + intros id' rs' re' b e cur [[<- Heq]|[Hne Hg]]%lookup_insert_Some; [|by eauto].
      simplify_eq. by eexists.
  - injection H1 as <- <-. revert B. apply batches_inv_frame; eauto; simpl.
    + intros id' w b. destruct (_ =? _); [rewrite lookup_insert_Some|rewrite lookup_delete_Some];
        naive_solver.
    + intros id' rs' re' b e cur.
      destruct (_ =? _); [rewrite lookup_insert_Some|rewrite lookup_delete_Some]; naive_solver.
  - revert B. apply batches_inv_frame; eauto; simpl.
    + unfold batch_starts. simpl. rewrite omap_app. simpl. apply app_nil_r.
    + intros id' w b. rewrite lookup_insert_Some. naive_solver.
    + intros id' rs' re' b e cur. rewrite lookup_insert_Some. naive_solver.
  - revert B. apply batches_inv_frame; eauto; simpl.
    + intros id' w b. rewrite lookup_delete_Some. naive_solver.
    + intros id' rs' re' b e cur. rewrite lookup_delete_Some. naive_solver.
  - revert B. apply batches_inv_frame; eauto; simpl.
    + intros id' w b. rewrite lookup_delete_Some. naive_solver.
    + intros id' rs' re' b e cur. rewrite lookup_delete_Some. naive_solver.
Qed.

Lemma batches_inv_reachable uninit s : reachable uninit s → ranges_inv s ∧ batches_inv s.
Proof.
  intros Hr. eapply (rtc_invariant _ (λ s, ranges_inv s ∧ batches_inv s)); [| |exact Hr].
  - intros s1 s2 Hst [I B]. split; [by eapply ranges_inv_step|by eapply batches_inv_step].
  - split; [apply ranges_inv_initial|]. by split.
Qed.

Lemma batch_start_lt_claimed s k b :
  batches_inv s → batch_starts s !! k = Some b → b < claimed s.
Proof.
  intros B. remember (length (batch_starts s) - k)%nat as m eqn:Hm. revert k b Hm.
  induction m as [|m IH]; intros k b Hm Hb.
  - apply lookup_lt_Some in Hb. lia.
  - pose proof (bt_nonempty _ B _ _ Hb) as Hlt. unfold batch_end in Hlt.
    destruct (batch_starts s !! S k) as [b'|] eqn:Hb'; [|done].
    simpl in Hlt. specialize (IH (S k) b' ltac:(lia) Hb'). lia.
Qed.

Lemma batch_end_le_claimed s k : batches_inv s → batch_end s k ≤ claimed s.
Proof.
  intros B. unfold batch_end. destruct (batch_starts s !! S k) as [b|] eqn:Hb; simpl; [|lia].
  pose proof (batch_start_lt_claimed s _ _ B Hb). lia.
Qed.

(** The first [k] batches hold the tasks up to the start of the next. *)
Lemma batches_prefix s k :
  ranges_inv s → batches_inv s → (k ≤ length (batch_starts s))%nat →
  0 ≤ default (claimed s) (batch_starts s !! k) ∧
  concat (batch_tasks s <$> seq 0 k)
    = take (Z.to_nat (default (claimed s) (batch_starts s !! k))) (sys_history s).
Proof.
  intros I B. induction k as [|k IH]; intros Hk.
  - rewrite (bt_first _ B). split; [lia|]. done.
  - destruct IH as [Hpos IH]; [lia|].
    destruct (lookup_lt_is_Some_2 (batch_starts s) k) as [b Hb]; [lia|].
    pose proof (bt_nonempty _ B _ _ Hb) as Hlt. rewrite Hb in IH, Hpos. simpl in IH, Hpos.
    change (default (claimed s) (batch_starts s !! S k)) with (batch_end s k).
    split; [lia|]. rewrite seq_S, fmap_app, concat_app, IH. simpl.
    unfold batch_tasks. rewrite Hb, app_nil_r. apply slice_extend. lia.
Qed.
End batches.

(** ** The log of closed ranges *)
Section closed.
Context {C : QueueCfg} {HV : ValidCfg} {cell W D : Type} `{Deque W D}.
Implicit Types (q : StackQueue cell D) (s : sys cell W D) (gs : gmap nat guard)
  (pc : owner_pc cell W) (h : list cell) (ws : list (observation W)).

Lemma consecutive_snoc lo ranges b e :
  consecutive lo ranges b → b < e → consecutive lo (ranges ++ [(b, e)]) e.
Proof.
  revert lo. induction ranges as [|[b0 e0] ranges IH]; intros lo Hc Hbe; simpl in *.
  - by subst.
  - destruct Hc as (-> & Hlt & Hc). eauto.
Qed.

Lemma consecutive_le lo ranges hi : consecutive lo ranges hi → lo ≤ hi.
Proof.
  revert lo. induction ranges as [|[b e] ranges IH]; intros lo Hc; simpl in *; [lia|].
  destruct Hc as (-> & Hlt & Hc%IH). lia.
Qed.

(** Consecutive slices put together are one slice. *)
Lemma consecutive_slices {A : Type} lo ranges hi (l : list A) :
  0 ≤ lo → consecutive lo ranges hi →
  take (Z.to_nat lo) l ++ concat ((λ r, slice r.1 r.2 l) <$> ranges) = take (Z.to_nat hi) l.
Proof.
  revert lo. induction ranges as [|[b e] ranges IH]; intros lo Hlo Hc; simpl in *.
  - subst. apply app_nil_r.
  - destruct Hc as (-> & Hlt & Hc). rewrite app_assoc, slice_extend by lia. by apply IH; [lia|].
Qed.

(** A bounded guard was bounded before, or its batch is closed by this very step. *)
Lemma step_bounded_from s s' id rs re b e cur :
  step s s' → sys_guards s' !! id = Some (Bounded rs re b e cur) →
  (∃ cur', sys_guards s !! id = Some (Bounded rs re b e cur'))
  ∨ (∃ w, sys_guards s !! id = Some (Unbounded w b)
       ∧ rs = shr usize_bits w INDEX_SHIFT
       ∧ re = shr usize_bits (slot (inner (sys_queue s))) INDEX_SHIFT
       ∧ e = count s ∧ claimed s' = claimed s).
Proof.
  intros Hst. destruct Hst; simpl; try (intros Hid; left; by eexists).
  - rewrite lookup_insert_Some. intros [[_ ?]|[_ Hid]]; [done|]. left. by eexists.
  - injection H1 as <- <-. rewrite lookup_insert_Some. intros [[<- Heq]|[_ Hid]].
    + injection Heq as <- <- <- <- <-. right. exists base_slot. by repeat split.
    + left. by eexists.
  - rewrite lookup_insert_Some. intros [[<- Heq]|[_ Hid]]; [|left; by eexists].
    injection Heq as <- <- <- <- <-. left. by eexists.
  - destruct (_ =? _); [rewrite lookup_insert_Some|rewrite lookup_delete_Some]; naive_solver.
  - rewrite lookup_insert_Some. naive_solver.
  - rewrite lookup_delete_Some. naive_solver.
  - rewrite lookup_delete_Some. naive_solver.
Qed.

(** Without an open guard, a step keeps the claim, or hands out the batch that was
    begun, which starts at the claim. *)
Lemma step_not_open s s' :
  step s s' → ranges_inv s → ¬ has_open s →
  (¬ has_open s' ∧ claimed s' = claimed s) ∨ ∃ id w, sys_guards s' !! id = Some (Unbounded w (claimed s)).
Proof.
  intros Hst I Hno. pose proof (inv_owner _ I) as (phase & Hslot & Hown).
  assert (∀ q' pc' gs' h' ws',
    (∀ id w b, gs' !! id = Some (Unbounded w b) → sys_guards s !! id = Some (Unbounded w b)) →
    ¬ has_open (mkSys q' pc' gs' h' ws')) as Hkeep.
  { intros q' pc' gs' h' ws' Hg (id & w & b & Hx%Hg). destruct Hno. by do 3 eexists. }
  destruct Hst; simpl in *.
  1-5: left; split; [by apply Hkeep|done].
  - injection H0 as <- <-. left. split; [by apply Hkeep|].
    destruct Hown as (_ & lp & Hl & Ho). simpl in Hl.
    unfold claimed, begun, count. simpl. rewrite Hslot, Hl, !slot_word_bit0, length_app.
    simpl. destruct (eqb phase lp) eqn:Hp; [|simpl; lia]. apply eqb_prop in Hp. by apply Ho in Hp.
  - injection H0 as Hp <-. apply Z.eqb_eq in H1. rewrite same_phase_test in H1.
    left. split; [by apply Hkeep|]. unfold claimed, begun. simpl. by rewrite Hp, H1.
  - injection H0 as Hp <-. apply Z.eqb_neq in H1. rewrite same_phase_test in H1.
    left. split; [by apply Hkeep|]. unfold claimed, begun. simpl. by rewrite Hp, H1.
  - right. exists id, base_slot. rewrite lookup_insert_eq. done.
  - destruct Hno. by do 3 eexists.
  - apply write_cell_frame in H2 as [_ ->]. left. split; [|done]. apply Hkeep.
    intros id' w b. rewrite lookup_insert_Some. naive_solver.
  - injection H1 as <- <-. left. split; [|done]. apply Hkeep. intros id' w b.
    destruct (_ =? _); [rewrite lookup_insert_Some|rewrite lookup_delete_Some]; naive_solver.
  - left. split; [|done]. apply Hkeep. intros id' w b. rewrite lookup_insert_Some. naive_solver.
  - left. split; [by apply Hkeep|done].
  - left. split; [|done]. apply Hkeep. intros id' w b. rewrite lookup_delete_Some. naive_solver.
  - left. split; [|done]. apply Hkeep. intros id' w b. rewrite lookup_delete_Some. naive_solver.
Qed.

Lemma has_open_dec s : has_open s ∨ ¬ has_open s.
Proof.
  destruct (decide (map_Exists (λ _ g, match g with Unbounded _ _ => true | _ => false end = true)
    (sys_guards s))) as [(id & g & Hg & Ho)|Hno].
  - left. destruct g; try done. by do 3 eexists.
  - right. intros (id & w & b & Hg). apply Hno. by do 2 eexists.
Qed.

Lemma step_unbounded_rest s s' ranges rest :
  step s s' → ranges_inv s → ranges_inv s' → ¬ has_open s → closed_inv s ranges rest →
  (∀ id w b, sys_guards s' !! id = Some (Unbounded w b) → b = rest)
  ∧ (¬ has_open s' → rest = claimed s').
Proof.
  intros Hst I I' Hno K. pose proof (cl_none _ _ _ K Hno) as Hrest.
  destruct (step_not_open s s' Hst I Hno) as [[Hno' Hcl]|(id0 & w0 & Hid0)].
  - split; [|congruence]. intros id w b Hid. destruct Hno'. by do 3 eexists.
  - split.
    + intros id w b Hid. pose proof (open_unique _ _ _ _ _ _ _ I' Hid Hid0) as ->. congruence.
    + intros []. by do 3 eexists.
Qed.

(** A step that closes no batch keeps the list of closed ranges. *)
Lemma closed_inv_other s s' ranges rest :
  step s s' → ranges_inv s → ranges_inv s' →
  (∀ id w b, sys_guards s !! id = Some (Unbounded w b) →
     sys_guards s' !! id = Some (Unbounded w b)) →
  closed_inv s ranges rest → closed_inv s' ranges rest.
Proof.
  intros Hst I I' Hkeep K.
  assert ((∀ id w b, sys_guards s' !! id = Some (Unbounded w b) → b = rest)
    ∧ (¬ has_open s' → rest = claimed s')) as [Ho Hn].
  { destruct (has_open_dec s) as [(id0 & w0 & b0 & Hid0)|Hno].
    2:{ by eapply step_unbounded_rest. }
    pose proof (Hkeep _ _ _ Hid0) as Hid0'. split.
    - intros id w b Hid. pose proof (open_unique _ _ _ _ _ _ _ I' Hid Hid0') as ->.
      assert (b = b0) as -> by congruence. by apply (cl_open _ _ _ K _ _ _ Hid0).
    - intros []. by do 3 eexists. }
  split; [apply (cl_consecutive _ _ _ K)|exact Ho|exact Hn|].
  intros id rs re b e cur Hid.
  destruct (step_bounded_from _ _ _ _ _ _ _ _ Hst Hid) as [[cur' Hid0]|(w & Hid0 & _)].
  - by apply (cl_bounded _ _ _ K _ _ _ _ _ _ Hid0).
  - apply Hkeep in Hid0. congruence.
Qed.

(** Closing a batch appends its range, and its words are those of the guard. *)
Lemma closed_inv_bound s s' ranges rest id w b0 rs re b e cur :
  step s s' → ranges_inv s → ranges_inv s' →
  sys_guards s !! id = Some (Unbounded w b0) →
  sys_guards s' !! id = Some (Bounded rs re b e cur) →
  closed_inv s ranges rest →
  closed_inv s' (ranges ++ [(rest, e)]) e ∧ (rs, re) = range_words (rest, e).
Proof.
  intros Hst I I' Hid Hid' K.
  destruct (open_claimed s I) as [_ Hcl]; [by do 3 eexists|].
  destruct (step_bounded_from _ _ _ _ _ _ _ _ Hst Hid') as [[? ?]|(w' & Hw & Hrs & Hre & He & Hcl')];
    [congruence|]. assert (w' = w ∧ b = b0) as [-> ->] by (split; congruence).
  pose proof (cl_open _ _ _ K _ _ _ Hid) as ->.
  pose proof (guard_range_bounds _ _ _ _ _ I Hid eq_refl) as Hlt.
  pose proof (inv_guards _ I' _ _ Hid') as (_ & _ & _ & Hwords). split.
  2:{ unfold range_words. simpl. f_equal; tauto. }
  assert (∀ id1 w1 b1, sys_guards s' !! id1 ≠ Some (Unbounded w1 b1)) as Hno.
  { intros id1 w1 b1 Hid1. pose proof (guard_range_bounds _ _ _ _ _ I' Hid1 eq_refl).
    destruct (open_claimed s' I') as [_ Hcl1]; [by do 3 eexists|].
    assert (id1 ≠ id) as Hne by (intros ->; congruence).
    pose proof (inv_disjoint _ I' _ _ _ _ _ _ _ _ Hne Hid1 Hid' eq_refl eq_refl).
    pose proof (guard_range_bounds _ _ _ _ _ I' Hid' eq_refl). lia. }
  split.
  - apply consecutive_snoc; [apply (cl_consecutive _ _ _ K)|lia].
  - intros id1 w1 b1 Hid1. by destruct (Hno id1 w1 b1).
  - intros _. congruence.
  - intros id1 rs1 re1 b1 e1 cur1 Hid1. apply elem_of_app.
    destruct (step_bounded_from _ _ _ _ _ _ _ _ Hst Hid1) as [[cur' Hb]|(w1 & Hb & _ & _ & -> & _)].
    + left. by apply (cl_bounded _ _ _ K _ _ _ _ _ _ Hb).
    + right. pose proof (cl_open _ _ _ K _ _ _ Hb) as ->. rewrite He. by apply list_elem_of_singleton.
Qed.

(** Every log is the list of words of consecutive ranges. *)
Lemma closed_ranges_inv uninit s log :
  closed_ranges uninit s log →
  ranges_inv s ∧ ∃ ranges rest, log = map range_words ranges ∧ closed_inv s ranges rest.
Proof.
  induction 1 as [|s s' log id w b0 rs re b e cur _ (I & ranges & rest & -> & K) Hst Hid Hid'
    |s s' log _ (I & ranges & rest & -> & K) Hst Hkeep].
  - split; [apply ranges_inv_initial|]. exists [], 0. split; [done|].
    split; [done| |done|]; intros *; simpl; intros Hl; by rewrite lookup_empty in Hl.
  - pose proof (ranges_inv_step _ _ Hst I) as I'. split; [done|].
    destruct (closed_inv_bound _ _ _ _ _ _ _ _ _ _ _ _ Hst I I' Hid Hid' K) as [K' Hw].
    exists (ranges ++ [(rest, e)]), e. split; [|done]. by rewrite map_app, Hw.
  - pose proof (ranges_inv_step _ _ Hst I) as I'. split; [done|].
    exists ranges, rest. split; [done|]. by eapply closed_inv_other.
Qed.

(** Every run has its log. *)
Lemma closed_ranges_exist uninit s : reachable uninit s → ∃ log, closed_ranges uninit s log.
Proof.
  intros Hr. eapply (rtc_invariant _ (λ s, ∃ log, closed_ranges uninit s log)); [| |exact Hr].
  2:{ exists []. constructor. }
  intros s1 s2 Hst [log Hlog].
  assert ((∃ id w b rs re e cur, sys_guards s1 !! id = Some (Unbounded w b)
      ∧ sys_guards s2 !! id = Some (Bounded rs re b e cur))
    ∨ (∀ id w b, sys_guards s1 !! id = Some (Unbounded w b) →
        sys_guards s2 !! id = Some (Unbounded w b))) as [(id & w & b & rs & re & e & cur & H1 & H2)|Hk].
  - clear Hr Hlog. destruct Hst; simpl; try (right; by auto).
    + right. intros id' w b Hid'. rewrite lookup_insert_ne; [done|congruence].
    + left. exists id. do 6 eexists. split; [done|]. apply lookup_insert_eq.
    + right. intros id' w b Hid'. rewrite lookup_insert_ne; [done|congruence].
    + right. intros id' w b Hid'. destruct (_ =? _);
        [rewrite lookup_insert_ne|rewrite lookup_delete_ne]; [done|congruence..].
    + right. intros id' w b Hid'. rewrite lookup_insert_ne; [done|congruence].
    + right. intros id' w b Hid'. rewrite lookup_delete_ne; [done|congruence].
    + right. intros id' w b Hid'. rewrite lookup_delete_ne; [done|congruence].
  - exists (log ++ [(rs, re)]). by eapply closed_bound.
  - exists log. by eapply closed_other.
Qed.

Lemma closed_ranges_reachable uninit s log : closed_ranges uninit s log → reachable uninit s.
Proof. induction 1; [by apply rtc_refl|by eapply rtc_r..]. Qed.
End closed.
