(* ===== verification/Schedule.v ===== *)
(** An executable scheduler for the step relation of [Protocol]: concrete
    interleavings are lists of actions, run by [run_schedule]. *)
From S2P Require Import Prelude Usize Helpers Deque Queue Protocol.
Local Open Scope Z_scope.

(** [Owner c waker id] moves the owner by one step: [c] is the cell of a push that
    starts now, [waker] parks if the queue is full, [id] names a new guard. *)
Inductive action (cell W : Type) : Type :=
| Owner (c : cell) (waker : W) (id : nat)
| Bound (id : nat)
| Consume (id : nat) (left_behind : cell)
| Release (id : nat)
| WakeNext (id : nat).
Arguments Owner {_ _} _ _ _.
Arguments Bound {_ _} _.
Arguments Consume {_ _} _ _.
Arguments Release {_ _} _.
Arguments WakeNext {_ _} _.

Section schedule.
Context {C : QueueCfg} {cell W D : Type} `{Deque W D}.
Abbreviation state := (sys cell W D).

Definition owner_action (c : cell) (waker : W) (id : nat) (s : state) : option state :=
  let '(mkSys q pc gs h tr) := s in
  match pc with
  | Idle =>
      match current_write_index q with
      | Done (index, _) =>
          match check_write_index index q with
          | Done (Ok _, q') => Some (mkSys q' (Checked index c) gs h tr)
          | Done (Err _, q') => Some (mkSys q' (Rejected waker) gs h tr)
          | _ => None
          end
      | _ => None
      end
  | Rejected w => Some (mkSys (set_pending (worker_push w (pending q)) q) Idle gs h tr)
  | Checked index c =>
      match write_cell index c q with
      | Done (_, q') => Some (mkSys q' (Written index c) gs h tr)
      | _ => None
      end
  | Written index c =>
      match fetch_add_slot q with
      | Done (base_slot, q') => Some (mkSys q' (Claimed index base_slot) gs (h ++ [c]) tr)
      | _ => None
      end
  | Claimed index base_slot =>
      match replace_slot (wrapping_add usize_bits base_slot (shl usize_bits 1 INDEX_SHIFT)) q with
      | Done (prev_slot, q') =>
          let pc' := if Z.land (Z.lxor base_slot prev_slot) PHASE =? 0
                     then Idle else Occupying index base_slot in
          Some (mkSys q' pc' gs h tr)
      | _ => None
      end
  | Occupying index base_slot =>
      match occupy_region index q, gs !! id with
      | Done (_, q'), None =>
          let start := Z.of_nat (length h) - 1 in
          Some (mkSys q' Idle (<[id := Unbounded base_slot start]> gs) h (tr ++ [Began start]))
      | _, _ => None
      end
  end.

Definition guard_action (id : nat) (s : state) (k : guard → option state) : option state :=
  match sys_guards s !! id with Some g => k g | None => None end.

Definition bound_action (id : nat) (s : state) : option state :=
  let '(mkSys q pc gs h tr) := s in
  guard_action id s (λ g,
    match g, fetch_xor_slot q with
    | Unbounded base_slot start, Done (end_slot, q') =>
        Some (mkSys q' pc
          (<[id := Bounded (shr usize_bits base_slot INDEX_SHIFT)
                     (shr usize_bits end_slot INDEX_SHIFT)
                     start (Z.of_nat (length h)) start]> gs) h tr)
    | _, _ => None
    end).

Definition consume_action (id : nat) (c : cell) (s : state) : option state :=
  let '(mkSys q pc gs h tr) := s in
  guard_action id s (λ g,
    match g with
    | Bounded rs re start stop current =>
        match current <? stop,
              write_cell (Z.land current (wrapping_sub usize_bits N 1)) c q with
        | true, Done (_, q') =>
            Some (mkSys q' pc (<[id := Bounded rs re start stop (current + 1)]> gs) h tr)
        | _, _ => None
        end
    | _ => None
    end).

Definition release_action (id : nat) (s : state) : option state :=
  let '(mkSys q pc gs h tr) := s in
  guard_action id s (λ g,
    match g with
    | Bounded rs _ _ _ _ =>
        let one := one_shifted (Z.land rs (wrapping_sub usize_bits N 1)) in
        match fetch_sub_occupancy one q with
        | Done (prev, q') =>
            Some (mkSys q' pc
              (if prev =? one then <[id := Waking region_size]> gs else delete id gs) h tr)
        | _ => None
        end
    | _ => None
    end).

Definition wake_action (id : nat) (s : state) : option state :=
  let '(mkSys q pc gs h tr) := s in
  guard_action id s (λ g,
    match g with
    | Waking limit =>
        if 0 <? limit then
          match stealer_steal (pending q) with
          | (Success waker, d) =>
              Some (mkSys (set_pending d q) pc (<[id := Waking (limit - 1)]> gs) h
                (tr ++ [Woke waker]))
          | (Retry, d) => Some (mkSys (set_pending d q) pc gs h tr)
          | (Empty, d) => Some (mkSys (set_pending d q) pc (delete id gs) h tr)
          end
        else if limit =? 0 then Some (mkSys q pc (delete id gs) h tr) else None
    | _ => None
    end).

Definition run_action (a : action cell W) (s : state) : option state :=
  match a with
  | Owner c waker id => owner_action c waker id s
  | Bound id => bound_action id s
  | Consume id c => consume_action id c s
  | Release id => release_action id s
  | WakeNext id => wake_action id s
  end.

Fixpoint run_schedule (l : list (action cell W)) (s : state) : option state :=
  match l with
  | [] => Some s
  | a :: l => match run_action a s with Some s' => run_schedule l s' | None => None end
  end.

Lemma owner_action_sound c waker id s s' : owner_action c waker id s = Some s' → step s s'.
Proof.
  destruct s as [q pc gs h tr]. destruct pc; simpl; intros Hs.
  - destruct (check_write_index _ q) as [[[[]|[]] q']| |] eqn:E; simplify_eq.
    + by eapply step_check.
    + by eapply step_reject.
  - destruct (write_cell _ _ _) as [[[] q']| |] eqn:E; simplify_eq. by apply step_write.
  - simplify_eq. by apply step_claim.
  - simplify_eq. destruct (Z.eqb_spec (Z.land (Z.lxor base_slot (sq_slot q)) PHASE) 0).
    + by eapply step_join.
    + by eapply step_begin.
  - destruct (gs !! id) eqn:E; simplify_eq. by apply step_occupy.
  - simplify_eq. by apply step_park.
Qed.

Lemma run_action_sound a s s' : run_action a s = Some s' → step s s'.
Proof.
  destruct a; simpl; [apply owner_action_sound|..]; destruct s as [q pc gs h tr]; simpl;
    unfold guard_action; simpl; destruct (gs !! id) as [g|] eqn:Hid; try done; destruct g; try done;
    intros Hs.
  - simplify_eq. by eapply step_bound.
  - destruct (Z.ltb_spec current stop); [|done].
    destruct (write_cell _ _ _) as [[[] q']| |] eqn:E; simplify_eq. by eapply step_consume.
  - simplify_eq. by eapply step_release.
  - destruct (Z.ltb_spec 0 batch_limit).
    + destruct (stealer_steal _) as [[] d] eqn:E; simplify_eq.
      * by eapply step_wake_empty.
      * by eapply step_wake.
      * by eapply step_wake_retry.
    + destruct (Z.eqb_spec batch_limit 0) as [->|]; simplify_eq. by eapply step_wake_limit.
Qed.

(** Every step is an action, but for the owner that drops a refused task. *)
Lemma step_run_action `{Inhabited cell, Inhabited W} s s' :
  step s s' →
  (∃ a, run_action a s = Some s')
  ∨ ∃ q gs h tr waker, s = mkSys q (Rejected waker) gs h tr ∧ s' = mkSys q Idle gs h tr.
Proof.
  pose (owner id := Owner (inhabitant : cell) (inhabitant : W) id).
  intros []; try (right; by do 5 eexists); left; simpl in *.
  - injection H2 as <-. exists (Owner c inhabitant 0). simpl. by rewrite H3.
  - injection H2 as <-. exists (Owner inhabitant waker 0). simpl. by rewrite H3.
  - by exists (owner 0%nat).
  - exists (owner 0%nat). simpl. by rewrite H2.
  - injection H2 as <- <-. by exists (owner 0%nat).
  - injection H2 as <- <-. exists (owner 0%nat). simpl. by rewrite (proj2 (Z.eqb_eq _ _) H3).
  - injection H2 as <- <-. exists (owner 0%nat). simpl. by rewrite (proj2 (Z.eqb_neq _ _) H3).
  - exists (owner id). simpl. rewrite H3. by injection H2 as <-.
  - exists (Bound id). simpl. unfold guard_action. simpl. rewrite H2. by injection H3 as <- <-.
  - exists (Consume id c). simpl. unfold guard_action. simpl.
    by rewrite H2, (proj2 (Z.ltb_lt _ _) H3), H4.
  - exists (Release id). simpl. unfold guard_action. simpl. rewrite H2. by injection H3 as <- <-.
  - exists (WakeNext id). simpl. unfold guard_action. simpl.
    by rewrite H2, (proj2 (Z.ltb_lt _ _) H3), H4.
  - exists (WakeNext id). simpl. unfold guard_action. simpl.
    by rewrite H2, (proj2 (Z.ltb_lt _ _) H3), H4.
  - exists (WakeNext id). simpl. unfold guard_action. simpl.
    by rewrite H2, (proj2 (Z.ltb_lt _ _) H3), H4.
  - exists (WakeNext id). simpl. unfold guard_action. simpl. by rewrite H2.
Qed.

(** Every schedule that runs is a run of the step relation. *)
Lemma run_schedule_sound l s s' : run_schedule l s = Some s' → rtc step s s'.
Proof.
  revert s. induction l as [|a l IH]; simpl; intros s Hl; [by simplify_eq|].
  destruct (run_action a s) as [s1|] eqn:E; [|done].
  eapply rtc_l; [by apply run_action_sound in E|auto].
Qed.

Lemma schedule_reachable uninit l s :
  run_schedule l (initial uninit) = Some s → reachable uninit s.
Proof. apply run_schedule_sound. Qed.
End schedule.

(** ** Concrete systems of the witnesses: a 64-cell queue of numbers. *)
Definition demo_sys {C : QueueCfg} : Type := sys (option Z) Z (list_deque Z).

Definition demo_run {C : QueueCfg} (l : list (action (option Z) Z)) : option demo_sys :=
  run_schedule l (initial None).

(** What a computed run shows holds of a reachable state. *)
Lemma demo_run_reachable {C : QueueCfg} l (P : demo_sys → Prop) :
  match demo_run l with Some s => P s | None => False end →
  ∃ s : demo_sys, reachable None s ∧ P s.
Proof.
  unfold demo_run. destruct (run_schedule l (initial None)) as [s|] eqn:Hs; [|done].
  intros HP. exists s. by apply schedule_reachable in Hs.
Qed.

(** A whole push of [v] that joins the open batch, or begins batch [id]. *)
Definition push_joining (v : Z) : list (action (option Z) Z) :=
  replicate 4 (Owner (Some v) v 0).
Definition push_beginning (v : Z) (id : nat) : list (action (option Z) Z) :=
  replicate 5 (Owner (Some v) v id).
