(* ===== verification/Safety.v ===== *)
(** What the interleaving model guarantees: exclusive access to live batches, exact
    occupancy counts, partition of the tasks into batches, and progress of the
    owner; each with a concrete interleaving that meets its hypotheses. *)
From S2P Require Import Prelude Usize Helpers Occupancy Deque Queue Protocol Exclusion Batches Schedule.
Local Open Scope Z_scope.

(** * The interleaving of the witnesses

    On a 64-cell queue: push 10 (begins batch 0), push 11 (joins it), bound batch 0,
    push 12 (begins batch 1), then the region check of a push of 13. *)
Definition demo_cfg : QueueCfg := cfg64 64.

#[export] Instance demo_valid : @ValidCfg demo_cfg := eq_refl.
#[export] Instance demo_safe : @SafeCfg demo_cfg.
Proof. split; [reflexivity|exact demo_valid|]. by vm_compute. Defined.

Definition demo_schedule : list (action (option Z) Z) :=
  push_beginning 10 0 ++ push_joining 11 ++ [Bound 0] ++ push_beginning 12 1.

Definition demo_state : @demo_sys demo_cfg :=
  Eval vm_compute in
    default (@initial demo_cfg _ _ _ _ None) (@demo_run demo_cfg demo_schedule).

Definition demo_checked : @demo_sys demo_cfg :=
  Eval vm_compute in
    default demo_state
      (@run_schedule demo_cfg _ _ _ _ [Owner (Some 13) 13 0%nat] demo_state).

Lemma demo_reachable : @reachable demo_cfg _ _ _ _ None demo_state.
Proof. apply schedule_reachable with (l := demo_schedule). by vm_compute. Defined.

Lemma demo_checked_reachable : @reachable demo_cfg _ _ _ _ None demo_checked.
Proof.
  apply schedule_reachable with (l := demo_schedule ++ [Owner (Some 13) 13 0%nat]).
  by vm_compute.
Defined.

(** * Exclusive access *)
Section safety.
Context {C : QueueCfg} {HS : SafeCfg} {cell W D : Type} `{Deque W D}.
Implicit Types (q : StackQueue cell D) (s : sys cell W D) (g : guard).

(** A task in the range of a live guard lies in the last lap. *)
Lemma range_window s id g lo hi i :
  ranges_inv s → exclusion_inv s → sys_guards s !! id = Some g →
  guard_range s g = Some (lo, hi) → lo ≤ i < hi →
  0 ≤ i < count s ∧ count s + room s ≤ i + N.
Proof.
  intros I E Hid Hr Hi. destruct (inv_owner _ I) as (phase & _ & Hown).
  pose proof (claimed_le_count _ _ Hown). pose proof (guard_range_bounds _ _ _ _ _ I Hid Hr).
  assert (guard_start g = Some lo) as Hst by (destruct g; simplify_eq/=; done).
  pose proof (live_window _ _ _ _ I E Hid Hst). lia.
Qed.

Lemma owner_index s phase index c :
  slot (inner (sys_queue s)) = slot_word (count s) phase → owner_ok s phase →
  sys_pc s = Checked index c → index = count s mod N ∧ room s = 1.
Proof.
  intros _ Hown Hpc. unfold owner_ok, room in *. rewrite Hpc in *. by destruct Hown.
Qed.
End safety.

(** C1. In every interleaving, the cell the owner is about to write belongs to no
    live batch, bounded or not: tasks that were pushed and not yet released are
    never overwritten. *)
Theorem owner_never_overwrites {C : QueueCfg} {HS : SafeCfg} {cell W D : Type} `{Deque W D}
  (uninit : cell) (s : sys cell W D) index c id g lo hi i :
  reachable uninit s → sys_pc s = Checked index c →
  sys_guards s !! id = Some g → guard_range s g = Some (lo, hi) → lo ≤ i < hi →
  i mod N ≠ index.
Proof.
  intros [I E]%exclusion_inv_reachable Hpc Hid Hr Hi.
  destruct (inv_owner _ I) as (phase & Hs & Hown).
  destruct (owner_index _ _ _ _ Hs Hown Hpc) as [-> Hroom].
  pose proof (range_window _ _ _ _ _ _ I E Hid Hr Hi) as Hw. intros Heq.
  pose proof N_ge_64. enough (i = count s) by lia.
  apply (mod_inj_window _ _ N); lia.
Qed.

Lemma owner_never_overwrites_witness :
  sys_pc demo_checked = Checked 3 (Some 13) ∧ 1 mod 64 ≠ 3.
Proof.
  split; [reflexivity|].
  apply (owner_never_overwrites (C := demo_cfg) None demo_checked 3 (Some 13) 0%nat
    (Bounded 0 2 0 2 0) 0 2 1 demo_checked_reachable); [reflexivity..|lia].
Defined.

(** C2. Until its guard takes it, every task of a live batch is still in its cell,
    exactly as it was pushed. *)
Theorem live_batch_contents {C : QueueCfg} {HS : SafeCfg} {cell W D : Type} `{Deque W D}
  (uninit : cell) (s : sys cell W D) id g lo hi i :
  reachable uninit s → sys_guards s !! id = Some g → unread s g = Some (lo, hi) →
  lo ≤ i < hi →
  ∃ c, buffer (inner (sys_queue s)) !! Z.to_nat (i mod N) = Some c
       ∧ sys_history s !! Z.to_nat i = Some c.
Proof.
  intros [I E]%exclusion_inv_reachable Hid Hu Hi.
  pose proof (ex_contents _ E _ _ _ _ _ Hid Hu Hi) as Hc. unfold cell_at, task_at in Hc.
  pose proof (unread_window _ _ _ _ _ _ I E Hid Hu Hi) as Hw.
  destruct (lookup_lt_is_Some_2 (sys_history s) (Z.to_nat i)) as [c Hc'].
  { unfold count in Hw. lia. }
  exists c. by rewrite Hc, Hc'.
Qed.

Lemma live_batch_contents_witness :
  ∃ c, buffer (inner (sys_queue demo_state)) !! 1%nat = Some c
       ∧ [Some 10; Some 11; Some 12] !! 1%nat = Some c.
Proof.
  apply (live_batch_contents (C := demo_cfg) None demo_state 0%nat (Bounded 0 2 0 2 0) 0 2 1
    demo_reachable); [reflexivity..|lia].
Defined.

(** Two live batches never share a buffer cell, although both are ranges of a
    wrapping counter: guards on different threads work on disjoint memory. *)
Theorem live_batches_disjoint_cells {C : QueueCfg} {HS : SafeCfg} {cell W D : Type} `{Deque W D}
  (uninit : cell) (s : sys cell W D) id1 id2 g1 g2 lo1 hi1 lo2 hi2 i1 i2 :
  reachable uninit s → id1 ≠ id2 →
  sys_guards s !! id1 = Some g1 → guard_range s g1 = Some (lo1, hi1) → lo1 ≤ i1 < hi1 →
  sys_guards s !! id2 = Some g2 → guard_range s g2 = Some (lo2, hi2) → lo2 ≤ i2 < hi2 →
  i1 mod N ≠ i2 mod N.
Proof.
  intros [I E]%exclusion_inv_reachable Hne H1 R1 Hi1 H2 R2 Hi2 Heq.
  pose proof (range_window _ _ _ _ _ _ I E H1 R1 Hi1) as Hw1.
  pose proof (range_window _ _ _ _ _ _ I E H2 R2 Hi2) as Hw2.
  assert (0 ≤ room s) by (unfold room; by destruct (sys_pc s)). pose proof N_ge_64.
  assert (i1 = i2) as -> by (apply (mod_inj_window _ _ N); lia).
  pose proof (inv_disjoint _ I _ _ _ _ _ _ _ _ Hne H1 H2 R1 R2). lia.
Qed.

Lemma live_batches_disjoint_cells_witness : 1 mod 64 ≠ 2 mod 64.
Proof.
  apply (live_batches_disjoint_cells (C := demo_cfg) None demo_state 0%nat 1%nat
    (Bounded 0 2 0 2 0) (Unbounded (slot_word (C := demo_cfg) 2 true) 2) 0 2 2 3 1 2
    demo_reachable); try reflexivity; lia.
Defined.

(** A live batch holds at least one task and at most as many as the buffer has
    cells. *)
Theorem batch_length_bounds {C : QueueCfg} {HS : SafeCfg} {cell W D : Type} `{Deque W D}
  (uninit : cell) (s : sys cell W D) id g lo hi :
  reachable uninit s → sys_guards s !! id = Some g → guard_range s g = Some (lo, hi) →
  1 ≤ hi - lo ≤ N.
Proof.
  intros [I E]%exclusion_inv_reachable Hid Hr.
  pose proof (guard_range_bounds _ _ _ _ _ I Hid Hr).
  pose proof (range_window _ _ _ _ _ lo I E Hid Hr ltac:(lia)).
  destruct (inv_owner _ I) as (phase & _ & Hown). pose proof (claimed_le_count _ _ Hown).
  assert (0 ≤ room s) by (unfold room; by destruct (sys_pc s)). lia.
Qed.

Lemma batch_length_bounds_witness : 1 ≤ 2 - 0 ≤ 64.
Proof.
  apply (batch_length_bounds (C := demo_cfg) None demo_state 0%nat (Bounded 0 2 0 2 0) 0 2
    demo_reachable); reflexivity.
Defined.

(** * Occupancy *)

Definition live {C : QueueCfg} (g : guard) : bool :=
  match g with Waking _ => false | _ => true end.

(** C22. The shared occupancy word counts, region by region, the live batches that
    start there; it never over- or underflows a region's eight bits. *)
Theorem occupancy_counts_live_batches {C : QueueCfg} {HS : SafeCfg} {cell W D : Type} `{Deque W D}
  (uninit : cell) (s : sys cell W D) r :
  reachable uninit s → 0 ≤ r < 8 →
  lane r (occupancy (inner (sys_queue s))) = live_in r (sys_guards s)
  ∧ live_in r (sys_guards s) ≤ region_size
  ∧ lane r (occupancy (inner (sys_queue s))) ≤ lane r (sq_occupancy (sys_queue s)).
Proof.
  intros [I E]%exclusion_inv_reachable Hr. split; [by apply (ex_lanes _ E)|].
  split; [by apply live_in_le_region|by apply (ex_stale _ E)].
Qed.

Lemma occupancy_counts_live_batches_witness :
  lane 0 (occupancy (inner (sys_queue demo_state)))
    = live_in (C := demo_cfg) 0 (sys_guards demo_state)
  ∧ live_in (C := demo_cfg) 0 (sys_guards demo_state) ≤ region_size (C := demo_cfg)
  ∧ lane 0 (occupancy (inner (sys_queue demo_state)))
    ≤ lane 0 (sq_occupancy (sys_queue demo_state)).
Proof.
  apply (occupancy_counts_live_batches (C := demo_cfg) None demo_state 0 demo_reachable). lia.
Defined.

Section occupancy.
Context {C : QueueCfg} {HS : SafeCfg} {cell W D : Type} `{Deque W D}.
Implicit Types (q : StackQueue cell D) (s : sys cell W D) (gs : gmap nat guard).

Lemma live_start g : live g = true → ∃ b, guard_start g = Some b.
Proof. destruct g; simpl; eauto; done. Qed.

Lemma starts_in_live r g : starts_in r g = true → live g = true.
Proof. unfold starts_in. by destruct g. Qed.

(** The word is the increment of one region exactly when one live batch, of that
    region, is left. *)
Lemma word_zero_no_live s :
  ranges_inv s → exclusion_inv s →
  (occupancy (inner (sys_queue s)) = 0 ↔
   ∀ id g, sys_guards s !! id = Some g → live g = false).
Proof.
  intros I E. pose proof (ex_word _ E) as Hw. split.
  - intros H0 id g Hid. destruct (live g) eqn:Hl; [|done].
    destruct (live_start g Hl) as [b Hb].
    pose proof (ex_lanes _ E (region_of b) (region_of_range b)) as Hlane.
    rewrite H0, lane_0 in Hlane.
    pose proof (live_in_zero _ _ _ _ (eq_sym Hlane) Hid) as Hs. unfold starts_in in Hs.
    by rewrite Hb, Z.eqb_refl in Hs.
  - intros Hno. apply lanes_ext; [lia|lia|]. intros r Hr. rewrite lane_0.
    rewrite (ex_lanes _ E r Hr). unfold live_in.
    assert (filter (λ kv, starts_in r kv.2 = true) (sys_guards s) = ∅) as ->; [|done].
    apply map_empty. intros id. apply map_lookup_filter_None. right.
    intros g Hid Hs%starts_in_live. simpl in Hs. by rewrite (Hno id g Hid) in Hs.
Qed.
End occupancy.

(** The check asks for live batches in the region of the next task. *)
Lemma check_by_live_batches {C : QueueCfg} {HS : SafeCfg} {cell W D : Type} `{Deque W D}
  (s : sys cell W D) :
  exclusion_inv s →
  ∃ q', check_write_index (count s mod N) (sys_queue s)
    = Done (if at_region_start (count s mod N)
               && (0 <? live_in (region_of (count s)) (sys_guards s))
            then Err queue_full else Ok (), q').
Proof.
  intros E. set (r := region_of (count s)).
  pose proof (region_of_range (count s)) as Hr. fold r in Hr.
  pose proof (ex_lanes _ E r Hr) as Hlane. pose proof (ex_stale _ E r Hr) as Hstale.
  pose proof (lane_bounds r (occupancy (inner (sys_queue s)))).
  rewrite check_write_index_run, check_regional_occupancy_run.
  destruct (at_region_start _); [|by eexists].
  rewrite region_mask_lane, !lane_mask_test by lia. fold r. rewrite <- Hlane.
  destruct (Z.eqb_spec (lane r (sq_occupancy (sys_queue s))) 0).
  - replace (0 <? _) with false by (symmetry; apply Z.ltb_ge; lia). by eexists.
  - destruct (Z.eqb_spec (lane r (occupancy (inner (sys_queue s)))) 0) as [->|]; [by eexists|].
    replace (0 <? _) with true by (symmetry; apply Z.ltb_lt; lia). by eexists.
Qed.

(** C23. At a region boundary the check is exact: whatever the age of the local
    copy, it reports [QueueFull] if and only if a live batch starts in the region the
    owner is about to enter. Elsewhere it always passes. *)
Theorem region_check_exact {C : QueueCfg} {HS : SafeCfg} {cell W D : Type} `{Deque W D}
  (uninit : cell) (s : sys cell W D) index :
  reachable uninit s → sys_pc s = Idle →
  current_write_index (sys_queue s) = Done (index, sys_queue s) →
  ∃ q', check_write_index index (sys_queue s)
    = Done (if at_region_start index && (0 <? live_in (region_of (count s)) (sys_guards s))
            then Err queue_full else Ok (), q').
Proof.
  intros [I E]%exclusion_inv_reachable Hpc Hidx.
  destruct (inv_owner _ I) as (phase & _ & Hown). unfold owner_ok in Hown. rewrite Hpc in Hown.
  destruct Hown as (_ & lp & Hl & _). rewrite (current_write_index_run _ _ _ Hl) in Hidx.
  injection Hidx as <-. by apply check_by_live_batches.
Qed.

(** Nobody is refused on the first lap: no batch starts where the owner has not been. *)
Lemma first_lap_passes {C : QueueCfg} {HS : SafeCfg} {cell W D : Type} `{Deque W D}
  (s : sys cell W D) :
  ranges_inv s → exclusion_inv s → count s < N →
  ∃ q', check_write_index (count s mod N) (sys_queue s) = Done (Ok (), q').
Proof.
  intros R E HN. destruct (check_by_live_batches s E) as [q' Hc]. exists q'.
  destruct (at_region_start (count s mod N)) eqn:Hat; [|done]. rewrite Hc.
  replace (live_in _ _) with 0; [done|]. symmetry. unfold live_in.
  assert (filter (λ kv, starts_in (region_of (count s)) kv.2 = true) (sys_guards s) = ∅) as ->; [|done].
  apply map_empty. intros id. apply map_lookup_filter_None. right. simpl.
  intros g Hid Hs. unfold starts_in in Hs. destruct (guard_start g) as [b|] eqn:Hb; [|done].
  apply Z.eqb_eq in Hs. unfold region_of in Hs. rewrite !current_region_div in Hs.
  assert (0 ≤ b < count s) as Hlt.
  { destruct (inv_owner _ R) as (phase & _ & Hown). pose proof (claimed_le_count _ _ Hown).
    pose proof (inv_guards _ R _ _ Hid) as Hok. destruct g; simplify_eq/=; lia. }
  rewrite (Z.mod_small (count s)), (Z.mod_small b) in * by lia.
  rewrite at_region_start_mod in Hat. apply Z.eqb_eq in Hat. pose proof region_size_le.
  assert (0 < region_size ∧ region_size ≠ 0) as [Hpos Hrs] by lia.
  pose proof (Z.div_mod (count s) region_size Hrs) as Hq.
  pose proof (Z.div_mod b region_size Hrs) as Hqb. rewrite Hs in Hqb.
  pose proof (Z.mod_pos_bound b region_size Hpos) as [Hm _].
  rewrite Hat in Hq. clear - Hlt Hq Hqb Hm. set (k := region_size * _) in *. lia.
Qed.

(** A full queue: 64 pushes into one batch that nobody has bounded. *)
Definition full_schedule : list (action (option Z) Z) :=
  push_beginning 0 0 ++ concat ((λ v, push_joining (Z.of_nat v)) <$> seq 1 63).

Definition full_state : @demo_sys demo_cfg :=
  Eval vm_compute in
    default (@initial demo_cfg _ _ _ _ None) (@demo_run demo_cfg full_schedule).

Lemma full_reachable : @reachable demo_cfg _ _ _ _ None full_state.
Proof. apply schedule_reachable with (l := full_schedule). by vm_compute. Defined.

Lemma region_check_exact_witness :
  ∃ q', check_write_index (C := demo_cfg) 0 (sys_queue full_state) = Done (Err queue_full, q').
Proof.
  apply (region_check_exact (C := demo_cfg) None full_state 0 full_reachable); reflexivity.
Defined.

(** The word is zero exactly when no batch is live. *)
Theorem occupancy_zero_iff_idle {C : QueueCfg} {HS : SafeCfg} {cell W D : Type} `{Deque W D}
  (uninit : cell) (s : sys cell W D) :
  reachable uninit s →
  (occupancy (inner (sys_queue s)) = 0 ↔
   ∀ id g, sys_guards s !! id = Some g → live g = false).
Proof. intros [I E]%exclusion_inv_reachable. by apply word_zero_no_live. Qed.

Lemma occupancy_zero_iff_idle_witness :
  occupancy (inner (sys_queue demo_state)) = 0 ↔
  ∀ id g, sys_guards demo_state !! id = Some g → live (C := demo_cfg) g = false.
Proof. apply (occupancy_zero_iff_idle (C := demo_cfg) None demo_state demo_reachable). Defined.

(** The increment of a bounded guard is in the word: giving it back does not wrap. *)
Lemma release_no_wrap {C : QueueCfg} {HS : SafeCfg} {cell W D : Type} `{Deque W D}
  (s : sys cell W D) id rs re start stop current :
  ranges_inv s → exclusion_inv s →
  sys_guards s !! id = Some (Bounded rs re start stop current) →
  let occ := occupancy (inner (sys_queue s)) in
  let one := one_shifted (Z.land rs (wrapping_sub usize_bits N 1)) in
  wrapping_sub usize_bits occ one = occ - one.
Proof.
  intros I E Hid occ one. pose proof (ex_word _ E) as Hw. fold occ in Hw.
  pose proof (inv_guards _ I _ _ Hid) as (_ & _ & _ & Hrs & _).
  assert (one = 2 ^ (8 * region_of start)) as Hone.
  { unfold one. by rewrite land_N, Hrs, mod_counter_mod_N, one_shifted_lane. }
  pose proof (region_of_range start) as Hr.
  assert (0 < lane (region_of start) occ) as Hpos.
  { pose proof (ex_lanes _ E _ Hr) as Hl. fold occ in Hl. rewrite Hl.
    apply (live_in_pos _ _ _ _ Hid). unfold starts_in. simpl. by rewrite Z.eqb_refl. }
  apply lane_ge_pow in Hpos; [|lia..]. rewrite <- Hone in Hpos.
  assert (0 < one) by (rewrite Hone; apply pow2_pos; lia).
  unfold wrapping_sub. apply wrap_small. rewrite safe_usize_bits. split; lia.
Qed.

(** The word holds exactly the increment of the guard that is to be released when no
    other guard has a batch. *)
Lemma word_is_own_iff_last {C : QueueCfg} {HS : SafeCfg} {cell W D : Type} `{Deque W D}
  (s : sys cell W D) id rs re start stop current :
  ranges_inv s → exclusion_inv s →
  sys_guards s !! id = Some (Bounded rs re start stop current) →
  (occupancy (inner (sys_queue s))
     = one_shifted (Z.land rs (wrapping_sub usize_bits N 1)) ↔
   ∀ id' g, id' ≠ id → sys_guards s !! id' = Some g → live g = false).
Proof.
  intros I E Hid. pose proof (release_no_wrap s id _ _ _ _ _ I E Hid) as Hsub.
  destruct s as [q pc gs h tr]. simpl in *. set (one := one_shifted _) in *.
  set (s' := mkSys (set_occupancy (wrapping_sub usize_bits (occupancy (inner q)) one) q)
    pc (delete id gs) h tr).
  assert (exclusion_inv s') as E' by (eapply exclusion_release; eauto).
  assert (ranges_inv s') as I'.
  { apply (ranges_inv_shrink (mkSys q pc gs h tr)); try done. by eapply guards_shrink_delete. }
  pose proof (word_zero_no_live s' I' E') as Hz. simpl in Hz. rewrite Hsub in Hz.
  split.
  - intros Heq id' g Hne Hg. apply (proj1 Hz ltac:(lia) id' g). by apply lookup_delete_Some.
  - intros Hno. enough (occupancy (inner q) - one = 0) by lia. apply Hz.
    intros id' g [Hne Hg]%lookup_delete_Some. by eapply Hno.
Qed.

(** A refused push on the full queue parks its waker 7; then the batch is closed. *)
Definition parked_state : @demo_sys demo_cfg :=
  Eval vm_compute in
    default full_state
      (@run_schedule demo_cfg _ _ _ _ [Owner None 7 0%nat; Owner None 7 0%nat; Bound 0%nat] full_state).

Lemma parked_reachable : @reachable demo_cfg _ _ _ _ None parked_state.
Proof.
  apply schedule_reachable
    with (l := full_schedule ++ [Owner None 7 0%nat; Owner None 7 0%nat; Bound 0%nat]).
  by vm_compute.
Defined.

(** C28. Releasing a batch: the release step always runs and, as [deoccupy_region] does
    with the guard's own words on a queue in this state, gives back the batch's
    occupancy. It goes on to wake parked tasks exactly when no other guard has a batch:
    then it wakes the oldest [region_size] parked wakers (all if there are fewer), in
    order, and otherwise nobody. *)
Theorem release_wakes_iff_last {C : QueueCfg} {HS : SafeCfg}
  {cell W D X V P : Type} `{DequeLaws W D}
  (uninit : cell) (s : sys cell W D) id rs re start stop current
  (w : world cell D X (event W V P)) :
  reachable uninit s → sys_guards s !! id = Some (Bounded rs re start stop current) →
  queue w = sys_queue s →
  let last := ∀ id' g, id' ≠ id → sys_guards s !! id' = Some g → live g = false in
  let index := Z.land rs (wrapping_sub usize_bits N 1) in
  let given_back := occupancy (inner (sys_queue s)) - one_shifted index in
  (∃ s', run_action (Release id) s = Some s' ∧ step s s'
     ∧ occupancy (inner (sys_queue s')) = given_back
     ∧ (last → sys_guards s' !! id = Some (Waking region_size))
     ∧ (¬ last → sys_guards s' !! id = None))
  ∧ ∃ w' ws, deoccupy_region index w = Done ((), w')
     ∧ trace w' = trace w ++ map Woken ws
     ∧ occupancy (inner (queue w')) = given_back
     ∧ deque_items (pending (queue w)) = ws ++ deque_items (pending (queue w'))
     ∧ (last → ws = take (Z.to_nat region_size) (deque_items (pending (queue w))))
     ∧ (¬ last → ws = []).
Proof.
  intros Hr Hid Hq last index given_back.
  apply exclusion_inv_reachable in Hr as [I E].
  pose proof (word_is_own_iff_last _ _ _ _ _ _ _ I E Hid) as Hlast.
  pose proof (release_no_wrap _ _ _ _ _ _ _ I E Hid) as Hgb.
  fold index last in Hlast. fold index given_back in Hgb.
  split.
  - destruct (run_action (Release id) s) as [s'|] eqn:Hrun.
    2:{ destruct s. simpl in *. unfold guard_action in Hrun. simpl in Hrun. by rewrite Hid in Hrun. }
    exists s'. split; [done|]. split; [by eapply run_action_sound|].
    destruct s as [q pc gs h tr]. simpl in *. unfold guard_action in Hrun. simpl in Hrun.
    rewrite Hid in Hrun. injection Hrun as <-. simpl. split; [done|].
    fold index. destruct (Z.eqb_spec (occupancy (inner q)) (one_shifted index)) as [He|He].
    + split; [intros _; apply lookup_insert_eq|]. intros []. by apply Hlast.
    + split; [intros Hl; by apply Hlast in Hl|intros _; apply lookup_delete_eq].
  - assert (0 ≤ index < N) as Hi.
    { unfold index. rewrite land_N. apply mod_N_bounds. }
    pose proof (deoccupy_region_run index w Hi) as Hd. cbv zeta in Hd.
    rewrite Hq, Hgb in Hd. case_decide as He.
    + destruct Hd as (w' & Hd & _ & Ht & [d Hd'] & Hp). exists w'. eexists. split; [exact Hd|].
      split; [exact Ht|]. split; [by rewrite Hd'|]. rewrite Hq. split; [exact Hp|].
      split; [by intros _|]. intros []. by apply Hlast.
    + eexists. exists []. split; [exact Hd|]. rewrite app_nil_r, Hq. do 3 (split; [done|]).
      split; [|done]. intros Hl. by apply Hlast in Hl.
Qed.

Lemma release_wakes_iff_last_witness :
  ∃ w' ws, deoccupy_region (C := demo_cfg) 0
      (mkWorld (sys_queue parked_state) tt ([] : list (event Z Z Z))) = Done ((), w')
    ∧ trace w' = map Woken ws ∧ ws = [7].
Proof.
  destruct (release_wakes_iff_last (C := demo_cfg) None parked_state 0%nat 0 64 0 64 0
    (mkWorld (sys_queue parked_state) tt ([] : list (event Z Z Z)))
    parked_reachable eq_refl eq_refl) as [_ (w' & ws & Hd & Ht & _ & _ & Hl & _)].
  exists w', ws. split; [exact Hd|]. split; [exact Ht|]. rewrite Hl; [by vm_compute|].
  intros id' g Hne Hg.
  change (({[0%nat := Bounded 0 64 0 64 0]} : gmap nat guard) !! id' = Some g) in Hg.
  apply lookup_singleton_Some in Hg as [Heq _]. by destruct Hne.
Defined.

(** * Batches *)

(** C3. In every interleaving the words [range_start] and [range_end] with which
    guards close their batches are, in order, those of consecutive non-empty ranges
    of task numbers from 0 on: the tasks in these ranges, in order, are the pushed
    tasks up to where they end, and every guard that still works on its batch has one
    of these ranges. The tasks after them are exactly those of the open guard, whose
    slot starts there; without an open guard there are none, but for the one task
    whose new batch is being handed out. No task is lost, duplicated or reordered. *)
Theorem batches_partition_tasks {C : QueueCfg} {HV : ValidCfg} {cell W D : Type} `{Deque W D}
  (uninit : cell) (s : sys cell W D) :
  reachable uninit s →
  (∃ log, closed_ranges uninit s log)
  ∧ ∀ log, closed_ranges uninit s log →
    ∃ ranges rest,
      log = map range_words ranges
      ∧ consecutive 0 ranges rest
      ∧ concat (range_tasks s <$> ranges) ++ drop (Z.to_nat rest) (sys_history s)
          = sys_history s
      ∧ (∀ id rs re start stop current,
           sys_guards s !! id = Some (Bounded rs re start stop current) →
           (start, stop) ∈ ranges ∧ (rs, re) = range_words (start, stop))
      ∧ (∀ id base_slot start, sys_guards s !! id = Some (Unbounded base_slot start) →
           start = rest ∧ rest < count s
           ∧ shr usize_bits base_slot INDEX_SHIFT = rest mod counter_modulus)
      ∧ (has_open s ∨ rest = count s ∨ (begun s = Some rest ∧ rest = count s - 1)).
Proof.
  intros Hr. split; [by apply closed_ranges_exist|].
  intros log (I & ranges & rest & -> & K)%closed_ranges_inv.
  exists ranges, rest. pose proof (cl_consecutive _ _ _ K) as Hc.
  split; [done|]. split; [done|]. split; [|split; [|split]].
  - rewrite (f_equal (λ l, concat l) (eq_refl : range_tasks s <$> ranges
      = (λ r, slice r.1 r.2 (sys_history s)) <$> ranges)).
    pose proof (consecutive_slices 0 ranges rest (sys_history s) ltac:(lia) Hc) as Ht.
    rewrite take_0 in Ht. simpl in Ht. rewrite Ht. apply take_drop.
  - intros id rs re b e cur Hid. split; [by eapply cl_bounded|].
    destruct (inv_guards _ I _ _ Hid) as (_ & _ & _ & -> & ->). done.
  - intros id w b Hid. pose proof (cl_open _ _ _ K _ _ _ Hid) as ->. split; [done|].
    destruct (inv_guards _ I _ _ Hid) as [_ [phase ->]].
    pose proof (guard_range_bounds _ _ _ _ _ I Hid eq_refl). split; [lia|apply slot_word_shr].
  - destruct (has_open_dec s) as [|Hno]; [by left|right].
    rewrite (cl_none _ _ _ K Hno). unfold claimed. destruct (begun s) as [i|] eqn:Hb; [|by left].
    right. split; [done|]. simpl. unfold begun in Hb.
    destruct (sys_pc s); simplify_eq/=; try done. by destruct (eqb _ _); simplify_eq.
Qed.

Lemma batches_partition_tasks_witness :
  ∃ log ranges, closed_ranges (C := demo_cfg) None demo_state log
    ∧ log = map (range_words (C := demo_cfg)) ranges ∧ consecutive 0 ranges 2
    ∧ concat (range_tasks demo_state <$> ranges) ++ [Some 12]
        = [Some 10; Some 11; Some 12].
Proof.
  destruct (batches_partition_tasks (C := demo_cfg) None demo_state demo_reachable)
    as [[log Hlog] Hall].
  destruct (Hall log Hlog) as (ranges & rest & Hw & Hc & Hcat & _ & Ho & _).
  destruct (Ho 1%nat _ 2 eq_refl) as [<- _]. exists log, ranges. by repeat split.
Defined.

(** The range of every guard is one of those batches: the newest for the open
    guard, a closed one for a bounded guard, whose machine words are the task numbers
    modulo the counter. *)
Theorem guard_range_is_batch {C : QueueCfg} {HV : ValidCfg} {cell W D : Type} `{Deque W D}
  (uninit : cell) (s : sys cell W D) id g :
  reachable uninit s → sys_guards s !! id = Some g →
  match g with
  | Unbounded base_slot start =>
      last (batch_starts s) = Some start ∧ shr usize_bits base_slot INDEX_SHIFT
        = start mod counter_modulus
  | Bounded rs re start stop _ =>
      (∃ k, batch_starts s !! k = Some start ∧ stop = batch_end s k)
      ∧ rs = start mod counter_modulus ∧ re = stop mod counter_modulus
  | Waking _ => True
  end.
Proof.
  intros [I B]%batches_inv_reachable Hid. pose proof (inv_guards _ I _ _ Hid) as Hok.
  destruct g as [w b|rs re b e cur|]; [..|done].
  - split; [by apply (bt_open _ B _ _ _ Hid)|]. destruct Hok as [_ [phase ->]].
    apply slot_word_shr.
  - split; [by apply (bt_bounded _ B _ _ _ _ _ _ Hid)|]. simpl in Hok. tauto.
Qed.

Lemma guard_range_is_batch_witness :
  (∃ k, batch_starts demo_state !! k = Some 0 ∧ 2 = batch_end demo_state k)
  ∧ 0 = 0 mod counter_modulus (C := demo_cfg) ∧ 2 = 2 mod counter_modulus (C := demo_cfg).
Proof.
  apply (guard_range_is_batch (C := demo_cfg) None demo_state 0%nat (Bounded 0 2 0 2 0)
    demo_reachable). reflexivity.
Defined.

(** * [push] as a run of the protocol *)
Section push.
Context {C : QueueCfg} {HV : ValidCfg} {T W D : Type} `{Deque W D}.
Implicit Types (q : StackQueue (option T) D) (gs : gmap nat guard).
Abbreviation sys := (sys (option T) W D).

Lemma check_write_index_total index q :
  (∃ q', check_write_index index q = Done (Ok (), q')) ∨
  (∃ q', check_write_index index q = Done (Err queue_full, q')).
Proof.
  rewrite check_write_index_run, check_regional_occupancy_run.
  destruct (at_region_start index); [|by left; eexists].
  destruct (_ =? 0); [by left; eexists|]. destruct (_ =? 0); [left|right]; by eexists.
Qed.

(** The steps of a push whose check passed, up to the slot replacement. *)
Lemma push_steps task q q' gs h tr n phase local :
  slots_at n phase local q → n = Z.of_nat (length h) →
  length (buffer (inner q)) = Z.to_nat N →
  check_write_index (n mod N) q = Done (Ok (), q') →
  let q1 := set_buffer (<[Z.to_nat (n mod N) := Some task]> (buffer (inner q))) q' in
  let pc := if eqb phase local then Idle
            else Occupying (n mod N) (slot_word n phase) in
  rtc step (mkSys q Idle gs h tr : sys)
    (mkSys (advanced n phase q1) pc gs (h ++ [Some task]) tr).
Proof.
  intros [Hs Hl] Hn Hlen Hc q1 pc.
  destruct (check_write_index_frame _ _ _ _ Hc) as (Hi & Hsl & _).
  eapply rtc_l; [eapply step_check; [by apply (current_write_index_run n local)|exact Hc]|].
  pose proof N_ge_64. pose proof (Z.mod_pos_bound n N).
  assert (write_cell (n mod N) (Some task) q' = Done ((), q1)) as Hw.
  { unfold q1. rewrite <- Hi. apply write_cell_run. rewrite Hi, Hlen. lia. }
  eapply rtc_l; [by apply step_write, Hw|].
  assert (sq_slot q1 = slot_word n local) as Hsl1 by (unfold q1; simpl; congruence).
  assert (fetch_add_slot q1
    = Done (slot_word n phase, set_slot (slot_word (n + 1) phase) q1)) as Hf.
  { unfold fetch_add_slot. replace (slot (inner q1)) with (slot_word n phase)
      by (unfold q1; simpl; congruence). by rewrite slot_word_next. }
  assert (replace_slot (wrapping_add usize_bits (slot_word n phase)
    (shl usize_bits 1 INDEX_SHIFT)) (set_slot (slot_word (n + 1) phase) q1)
    = Done (slot_word n local, advanced n phase q1)) as Hr.
  { unfold replace_slot. rewrite slot_word_next.
    change (sq_slot (set_slot _ q1)) with (sq_slot q1). by rewrite Hsl1. }
  eapply rtc_l; [by apply step_claim, Hf|]. apply rtc_once. unfold pc.
  destruct (eqb phase local) eqn:Hp.
  - eapply step_join; [exact Hr|]. apply Z.eqb_eq. by rewrite same_phase_slots.
  - eapply step_begin; [exact Hr|]. apply Z.eqb_neq. by rewrite same_phase_slots.
Qed.
End push.

(** C24. [push] always returns, without undefined accesses, and is a run of the
    protocol: it joins the open batch if there is one, else hands out a guard on a
    new batch whose first task is the pushed one, or gives the task back. *)
Theorem push_runs_protocol {C : QueueCfg} {HV : ValidCfg} {T W D : Type} `{Deque W D}
  (q : StackQueue (option T) D) gs h tr (task : T) (waker : W) id :
  let s := mkSys q Idle gs h tr in
  reachable None s → gs !! id = None →
  ∃ r q', push task q = Done (r, q') ∧
    match r with
    | Ok None => has_open s ∧ rtc step s (mkSys q' Idle gs (h ++ [Some task]) tr)
    | Ok (Some base_slot) => ¬ has_open s ∧
        rtc step s (mkSys q' Idle (<[id := Unbounded base_slot (count s)]> gs)
                      (h ++ [Some task]) (tr ++ [Began (count s)]))
    | Err task' => task' = task ∧ rtc step s (mkSys q' (Rejected waker) gs h tr)
    end.
Proof.
  intros s Hreach Hid. pose proof (ranges_inv_reachable _ _ Hreach) as I.
  destruct (inv_owner _ I) as (phase & Hs & _ & local & Hl & Ho).
  assert (slots_at (count s) phase local q) as Hslots by (by split).
  destruct (check_write_index_total (count s mod N) q) as [[q' Hc]|[q' Hc]].
  2:{ exists (Err task), q'. split; [by eapply push_full|]. split; [done|].
      apply rtc_once, (step_reject q q' gs h tr (count s mod N));
        [by apply (current_write_index_run (count s) local)|exact Hc]. }
  pose proof (push_ok task _ _ _ _ _ Hslots (inv_length _ I) Hc) as Hpush.
  pose proof (push_steps (W := W) task q q' gs h tr _ _ _ Hslots eq_refl (inv_length _ I) Hc)
    as Hsteps. simpl in Hpush, Hsteps.
  destruct (eqb phase local) eqn:Hp.
  - eexists _, _. split; [exact Hpush|]. apply eqb_prop in Hp. split; [by apply Ho|done].
  - eexists _, _. split; [exact Hpush|]. split.
    + intros Hx%Ho. by rewrite Hx, eqb_reflx in Hp.
    + eapply rtc_r; [exact Hsteps|].
      assert (count s = Z.of_nat (length (h ++ [Some task])) - 1) as Hn.
      { rewrite length_app. unfold count, s. simpl. lia. }
      pose proof (step_occupy (W := W) _ _ _ (h ++ [Some task]) tr _
        (slot_word (count s) phase) id (occupy_region_run (count s mod N) (advanced (count s) phase
          (set_buffer (<[Z.to_nat (count s mod N) := Some task]> (buffer (inner q))) q'))) Hid)
        as Hst. rewrite <- Hn in Hst. exact Hst.
Qed.

Lemma push_runs_protocol_witness :
  ∃ r q', push (C := demo_cfg) 13 (sys_queue demo_state) = Done (r, q') ∧
    match r with
    | Ok None => has_open demo_state ∧
        rtc (step (C := demo_cfg)) demo_state
          (mkSys q' Idle (sys_guards demo_state) (sys_history demo_state ++ [Some 13])
             (sys_trace demo_state))
    | Ok (Some base_slot) => ¬ has_open demo_state ∧
        rtc (step (C := demo_cfg)) demo_state
          (mkSys q' Idle (<[2%nat := Unbounded base_slot 3]> (sys_guards demo_state))
             (sys_history demo_state ++ [Some 13]) (sys_trace demo_state ++ [Began 3]))
    | Err task' => task' = 13 ∧
        rtc (step (C := demo_cfg)) demo_state
          (mkSys q' (Rejected 7) (sys_guards demo_state) (sys_history demo_state)
             (sys_trace demo_state))
    end.
Proof.
  apply (push_runs_protocol (C := demo_cfg) (sys_queue demo_state) (sys_guards demo_state)
    (sys_history demo_state) (sys_trace demo_state) 13 7 2%nat demo_reachable).
  reflexivity.
Defined.
