(* ===== verification/Views.v ===== *)
(** The memory orderings of the shared words, as happens-before views.

    Every access of a cell that is not atomic gets a number. A view is the set of the
    accesses that happen before a point of a thread. The shared slot is only ever changed by
    read-modify-writes, so it needs one view, that of its release sequence; the occupancy
    word (and, in [Flags], the flags of a task) is also loaded, possibly stale, and keeps all
    its messages. *)
From stdpp Require Import functions.
From S2P Require Import Prelude Usize Helpers Queue Protocol.
Local Open Scope Z_scope.

Inductive ordering : Type := Relaxed | Acquire | Release | AcqRel.

Definition acquires (o : ordering) : bool := match o with Acquire | AcqRel => true | _ => false end.
Definition releases (o : ordering) : bool := match o with Release | AcqRel => true | _ => false end.

(** The orderings of the atomic accesses of [push], [enqueue] and the guards. *)
Record orderings : Type := mkOrderings {
  slot_add : ordering;  (* [slot.fetch_add] *)
  slot_xor : ordering;  (* [slot.fetch_xor] *)
  occ_add : ordering;   (* [occupancy.fetch_add] *)
  occ_sub : ordering;   (* [occupancy.fetch_sub] *)
  occ_load : ordering   (* [occupancy.load] *)
}.

Definition source_orderings : orderings := mkOrderings Relaxed Relaxed AcqRel AcqRel Acquire.

(** The slot publishes tasks; the occupancy word publishes released regions. *)
Definition slot_sync (o : orderings) : bool := releases (slot_add o) && acquires (slot_xor o).
Definition occ_sync (o : orderings) : bool :=
  acquires (occ_add o) && releases (occ_sub o) && acquires (occ_load o).

(** The owner of the queue, and one agent per batch, named by the batch's first task. *)
Inductive agent : Type := Owning | Guarding (start : Z).

#[export] Instance agent_eq_dec : EqDecision agent.
Proof. solve_decision. Defined.

(** An access of a cell; [ac_task] is the ghost number of the task it is about. *)
Record access : Type := mkAccess {
  ac_by : agent;
  ac_cell : Z;
  ac_task : Z;
  ac_write : bool
}.

Abbreviation view := (gset nat).

Record memory : Type := mkMemory {
  accesses : list access;
  views : agent → view;
  slot_view : view;
  word_messages : list (Z * view);
  word_seen : nat    (* the message the owner has read or written last *)
}.

Definition initial_memory : memory := mkMemory [] (λ _, ∅) ∅ [(0, ∅)] 0.

(** Two accesses of a cell race when neither is known to the other and one writes. *)
Definition races (m : memory) (a : agent) (i : Z) (w : bool) : Prop :=
  ∃ j x, accesses m !! j = Some x ∧ ac_cell x = i ∧ w || ac_write x = true ∧ j ∉ views m a.

Definition touch (a : agent) (i n : Z) (w : bool) (m : memory) : memory :=
  mkMemory (accesses m ++ [mkAccess a i n w])
    (<[a := views m a ∪ {[length (accesses m)]}]> (views m))
    (slot_view m) (word_messages m) (word_seen m).

(** What a thread knows after reading a message, and what the message it writes carries: a
    read-modify-write continues the release sequence of the one before. *)
Definition heard (o : ordering) (known msg : view) : view :=
  known ∪ (if acquires o then msg else ∅).
Definition told (o : ordering) (known msg : view) : view :=
  msg ∪ (if releases o then known else ∅).

Definition rmw_slot (o : ordering) (a : agent) (m : memory) : memory :=
  let v := heard o (views m a) (slot_view m) in
  mkMemory (accesses m) (<[a := v]> (views m)) (told o v (slot_view m)) (word_messages m)
    (word_seen m).

Definition newest (m : memory) : view := from_option snd ∅ (last (word_messages m)).

Definition rmw_word (o : ordering) (a : agent) (new : Z) (m : memory) : memory :=
  let v := heard o (views m a) (newest m) in
  mkMemory (accesses m) (<[a := v]> (views m)) (slot_view m)
    (word_messages m ++ [(new, told o v (newest m))])
    (match a with Owning => length (word_messages m) | Guarding _ => word_seen m end).

(** The owner loads the message at [k], which may not be the newest. *)
Definition load_message (o : ordering) (k : nat) (m : memory) : memory :=
  let msg := from_option snd ∅ (word_messages m !! k) in
  mkMemory (accesses m) (<[Owning := heard o (views m Owning) msg]> (views m)) (slot_view m)
    (word_messages m) k.

(** A guard goes to another thread through a spawn, which synchronises. *)
Definition hand_out (start : Z) (m : memory) : memory :=
  mkMemory (accesses m)
    (<[Guarding start := views m (Guarding start) ∪ views m Owning]> (views m)) (slot_view m)
    (word_messages m) (word_seen m).

(** ** What a view gains and keeps *)
Section views.
Implicit Types (m : memory) (a : agent) (v : view).

Lemma heard_known o v msg : v ⊆ heard o v msg.
Proof. unfold heard. set_solver. Qed.

Lemma heard_msg o v msg : acquires o = true → msg ⊆ heard o v msg.
Proof. unfold heard. intros ->. set_solver. Qed.

Lemma told_msg o v msg : msg ⊆ told o v msg.
Proof. unfold told. set_solver. Qed.

Lemma told_known o v msg : releases o = true → v ⊆ told o v msg.
Proof. unfold told. intros ->. set_solver. Qed.

(** Who acquires what it overwrites knows all that its own message tells. *)
Lemma told_heard o v msg : acquires o = true → told o (heard o v msg) msg ⊆ heard o v msg.
Proof. unfold told, heard. intros ->. destruct (releases o); set_solver. Qed.

Lemma views_touch a i n w m a' : views m a' ⊆ views (touch a i n w m) a'.
Proof.
  simpl. destruct (decide (a' = a)) as [->|]; [rewrite fn_lookup_insert; set_solver|].
  by rewrite fn_lookup_insert_ne.
Qed.

Lemma touch_known a i n w m : length (accesses m) ∈ views (touch a i n w m) a.
Proof. simpl. rewrite fn_lookup_insert. set_solver. Qed.

Lemma views_rmw_slot o a m a' : views m a' ⊆ views (rmw_slot o a m) a'.
Proof.
  simpl. destruct (decide (a' = a)) as [->|]; [rewrite fn_lookup_insert; apply heard_known|].
  by rewrite fn_lookup_insert_ne.
Qed.

Lemma views_rmw_word o a new m a' : views m a' ⊆ views (rmw_word o a new m) a'.
Proof.
  simpl. destruct (decide (a' = a)) as [->|]; [rewrite fn_lookup_insert; apply heard_known|].
  by rewrite fn_lookup_insert_ne.
Qed.

Lemma views_load o k m a' : views m a' ⊆ views (load_message o k m) a'.
Proof.
  simpl. destruct (decide (a' = Owning)) as [->|]; [rewrite fn_lookup_insert; apply heard_known|].
  by rewrite fn_lookup_insert_ne.
Qed.

Lemma views_hand_out b m a' : views m a' ⊆ views (hand_out b m) a'.
Proof.
  simpl. destruct (decide (a' = Guarding b)) as [->|]; [rewrite fn_lookup_insert; set_solver|].
  by rewrite fn_lookup_insert_ne.
Qed.

Lemma accesses_touch a i n w m j x :
  accesses (touch a i n w m) !! j = Some x →
  accesses m !! j = Some x ∨ (j = length (accesses m) ∧ x = mkAccess a i n w).
Proof.
  simpl. intros [Hj|[Hj Hx]]%lookup_app_Some; [by left|right].
  apply list_lookup_singleton_Some in Hx as [? <-]. split; [lia|done].
Qed.
End views.
