(* ===== verification/Races.v ===== *)
(** The queue under interleaving with its memory orderings: every step of [Schedule] with
    what it does to the views of [Views], loads of the occupancy word that may be stale, and
    the reads by which a guard looks at its tasks.

    [races_inv] is the invariant; [sound_accesses] of the theorems says which accesses
    of cells are ordered after all conflicting ones, for which orderings. *)
From stdpp Require Import functions.
From S2P Require Import Views Prelude Usize Helpers Occupancy Deque Queue Protocol Exclusion Schedule Safety.
Local Open Scope Z_scope.

Section defs.
Context {C : QueueCfg} {cell W D : Type} `{Deque W D}.
Implicit Types (q : StackQueue cell D) (s : sys cell W D) (gs : gmap nat guard) (m : memory)
  (h : list cell) (ws : list (observation W)).

Record wsys : Type := mkW { w_sys : sys cell W D; w_mem : memory }.

Definition index_of (n : Z) : Z := Z.land n (wrapping_sub usize_bits N 1).

(** Whether the region check has to load the shared word. *)
Definition loads q (index : Z) : bool :=
  at_region_start index && negb (Z.land (sq_occupancy q) (region_mask index) =? 0).

(** The check when the load returns [v]. *)
Definition check_loaded (v index : Z) q : outcome (result unit QueueFull * StackQueue cell D) :=
  match check_write_index index (set_occupancy v q) with
  | Done (r, q') => Done (r, set_occupancy (occupancy (inner q)) q')
  | Undef u => Undef u
  | OutOfFuel => OutOfFuel
  end.

Variable o : orderings.

(** What an action from [s] to [s'] does to the memory. *)
Definition owner_effect s s' m : memory :=
  match sys_pc s with
  | Idle =>
      let index := slot_index (sq_slot (sys_queue s)) in
      if loads (sys_queue s) index
      then load_message (occ_load o) (length (word_messages m) - 1) m else m
  | Checked index _ => touch Owning index (count s) true m
  | Written _ _ => rmw_slot (slot_add o) Owning m
  | Occupying _ _ =>
      hand_out (count s - 1)
        (rmw_word (occ_add o) Owning (occupancy (inner (sys_queue s'))) m)
  | _ => m
  end.

Definition effect (a : action cell W) s s' m : memory :=
  match a with
  | Owner _ _ _ => owner_effect s s' m
  | Bound id =>
      match sys_guards s !! id with
      | Some (Unbounded _ b) => rmw_slot (slot_xor o) (Guarding b) m
      | _ => m
      end
  | Consume id _ =>
      match sys_guards s !! id with
      | Some (Bounded _ _ b _ n) => touch (Guarding b) (index_of n) n true m
      | _ => m
      end
  | Release id =>
      match sys_guards s !! id with
      | Some (Bounded _ _ b _ _) =>
          rmw_word (occ_sub o) (Guarding b) (occupancy (inner (sys_queue s'))) m
      | _ => m
      end
  | WakeNext _ => m
  end.

Inductive wstep : wsys → wsys → Prop :=
| w_action a s s' m :
    run_action a s = Some s' → wstep (mkW s m) (mkW s' (effect a s s' m))
(* the region check with any occupancy not older than what the owner knows *)
| w_check q q' gs h ws index r pc' k v view m :
    current_write_index q = Done (index, q) → loads q index = true →
    word_messages m !! k = Some (v, view) → (word_seen m ≤ k)%nat →
    check_loaded v index q = Done (r, q') →
    match r with
    | Ok _ => ∃ c, pc' = Checked index c
    | Err _ => ∃ waker, pc' = Rejected waker
    end →
    wstep (mkW (mkSys q Idle gs h ws) m)
      (mkW (mkSys q' pc' gs h ws) (load_message (occ_load o) k m))
| w_give_up q gs h ws waker m :
    wstep (mkW (mkSys q (Rejected waker) gs h ws) m) (mkW (mkSys q Idle gs h ws) m)
(* [as_slices], [iter], [tasks]: the guard reads a task and leaves it *)
| w_read s id rs re b e current n m :
    sys_guards s !! id = Some (Bounded rs re b e current) → current ≤ n < e →
    wstep (mkW s m) (mkW s (touch (Guarding b) (index_of n) n false m)).

Definition wreachable (uninit : cell) (x : wsys) : Prop :=
  rtc wstep (mkW (initial uninit) initial_memory) x.

(** The accesses of cells that are about to happen: by whom, where, whether it writes. *)
Inductive next_access s : agent → Z → Z → bool → Prop :=
| next_write index c :
    sys_pc s = Checked index c → next_access s Owning (count s) index true
| next_take id rs re b e current n w :
    sys_guards s !! id = Some (Bounded rs re b e current) → current ≤ n < e →
    next_access s (Guarding b) n (index_of n) w.

(** ** The invariant *)

(** An access of the cell of task [n] that comes before the turn of the batch of [n]. *)
Definition before m (j : nat) (n : Z) : Prop :=
  ∃ x, accesses m !! j = Some x ∧ ac_cell x = n mod N ∧ ac_task x ≤ n
    ∧ (ac_task x < n ∨ ac_by x = Owning).

(** The range of a live batch: its first task and, once bounded, the end. *)
Definition batch_of (g : guard) : option (Z * option Z) :=
  match g with
  | Unbounded _ b => Some (b, None)
  | Bounded _ _ b e _ => Some (b, Some e)
  | Waking _ => None
  end.
Definition batch_at s (id : nat) : option (Z * option Z) := sys_guards s !! id ≫= batch_of.

Definition live_batch s (b : Z) : Prop := ∃ id e, batch_at s id = Some (b, e).

Definition by_guard m (j : nat) (b n : Z) : Prop :=
  ∃ i w, accesses m !! j = Some (mkAccess (Guarding b) i n w).

(** The tasks the owner has written, counted. *)
Definition written s : Z :=
  count s + Z.b2z (match sys_pc s with Written _ _ => true | _ => false end).

(** The messages of the occupancy word from the owner's last one on. *)
Record messages_inv s m : Prop := {
  ri_newest : ∃ v, last (word_messages m) = Some (occupancy (inner (sys_queue s)), v);
  ri_seen : ∃ v, word_messages m !! word_seen m = Some (sq_occupancy (sys_queue s), v)
    ∧ v ⊆ views m Owning;
  ri_stale : ∀ k w v, (word_seen m ≤ k)%nat → word_messages m !! k = Some (w, v) →
    ∀ r, 0 ≤ r < 8 → lane r (occupancy (inner (sys_queue s))) ≤ lane r w;
  ri_told : ∀ k w v j b n, (word_seen m ≤ k)%nat → word_messages m !! k = Some (w, v) →
    by_guard m j b n → j ∈ v ∨ 0 < lane (region_of b) w;
  ri_newest_told : ∀ j b n, by_guard m j b n → j ∈ newest m ∨ live_batch s b
}.

(** Who has accessed what, and where the owner stands. *)
Record accesses_inv s m : Prop := {
  ri_cells : ∀ j x, accesses m !! j = Some x → ac_cell x = ac_task x mod N
    ∧ match ac_by x with
      | Owning => ac_task x < written s
      | Guarding b => b ≤ ac_task x < claimed s
      end;
  ri_own : ∀ j x, accesses m !! j = Some x → ac_by x = Owning → j ∈ views m Owning;
  ri_guard_own : ∀ j b n, by_guard m j b n → live_batch s b → j ∈ views m (Guarding b);
  ri_room : ∀ j b n, by_guard m j b n →
    j ∈ views m Owning ∨ count s + room s ≤ region_floor b + N;
  ri_apart : ∀ j b n id lo e, by_guard m j b n → batch_at s id = Some (lo, e) →
    lo ≤ n < default (count s) e → b = lo
}.

(** What the guards know, for a slot word of the orderings [o]. *)
Record known_inv s m : Prop := {
  ri_first : ∀ b j, live_batch s b → before m j b → j ∈ views m (Guarding b);
  ri_slot : slot_sync o = true → ∀ n j, n < count s → before m j n → j ∈ slot_view m;
  ri_bounded : slot_sync o = true → ∀ id b e n j,
    batch_at s id = Some (b, Some e) → b ≤ n < e → before m j n → j ∈ views m (Guarding b)
}.

Record races_inv s m : Prop := {
  ri_ranges : ranges_inv s;
  ri_exclusion : exclusion_inv s;
  ri_messages : messages_inv s m;
  ri_accesses : accesses_inv s m;
  ri_known : known_inv s m
}.
End defs.
Arguments mkW {_ _ _} _ _.
Arguments w_sys {_ _ _} _.
Arguments w_mem {_ _ _} _.

Section invariant.
Context {C : QueueCfg} {HS : SafeCfg} {cell W D : Type} `{Deque W D}.
Implicit Types (q : StackQueue cell D) (s : sys cell W D) (gs : gmap nat guard) (m : memory)
  (h : list cell) (ws : list (observation W)).

(** ** Batches *)
Lemma batch_at_guard s id b e :
  batch_at s id = Some (b, e) →
  ∃ g, sys_guards s !! id = Some g ∧ guard_start g = Some b
    ∧ guard_range s g = Some (b, default (count s) e).
Proof.
  unfold batch_at. intros (g & Hg & Hb)%bind_Some. exists g. split; [done|].
  destruct g; simplify_eq/=; done.
Qed.

Lemma guard_batch_at s id g b :
  sys_guards s !! id = Some g → guard_start g = Some b → ∃ e, batch_at s id = Some (b, e).
Proof. unfold batch_at. intros -> Hb. destruct g; simplify_eq/=; eauto. Qed.

Lemma room_nonneg s : 0 ≤ room s.
Proof. unfold room. by destruct (sys_pc s). Qed.

Lemma live_batch_window s b :
  ranges_inv s → exclusion_inv s → live_batch s b →
  0 ≤ b < claimed s ∧ count s + room s ≤ region_floor b + N ∧ count s + room s ≤ b + N.
Proof.
  intros I E (id & e & (g & Hid & Hst & Hr)%batch_at_guard).
  destruct (live_window s id g b I E Hid Hst) as (_ & ? & ?).
  pose proof (guard_range_bounds _ _ _ _ _ I Hid Hr). destruct e; simpl in *; [lia|].
  split; [|done]. destruct g; simplify_eq/=; [|lia].
  pose proof (inv_guards _ I _ _ Hid) as Hok. simpl in Hok. lia.
Qed.

Lemma live_batch_lane s b :
  exclusion_inv s → live_batch s b → 0 < lane (region_of b) (occupancy (inner (sys_queue s))).
Proof.
  intros E (id & e & (g & Hid & Hst & Hr)%batch_at_guard).
  rewrite (ex_lanes _ E _ (region_of_range b)). eapply live_in_pos; [exact Hid|].
  unfold starts_in. by rewrite Hst, Z.eqb_refl.
Qed.

Lemma claimed_le s : ranges_inv s → claimed s ≤ count s.
Proof.
  intros I. destruct (inv_owner _ I) as (phase & _ & Hown). by eapply claimed_le_count.
Qed.

(** Task numbers of one cell are a lap apart. *)
Lemma lap_apart n n' : n' < n → n' mod N = n mod N → n' + N ≤ n.
Proof.
  intros Hlt Hm. destruct (decide (n' + N ≤ n)); [done|]. pose proof N_ge_64.
  assert (n' = n) by (apply (mod_inj_window _ _ N); lia). lia.
Qed.

(** No live guard works on a cell whose next task is already in it. *)
Lemma no_return s b n n' :
  ranges_inv s → exclusion_inv s → live_batch s b → b ≤ n' → n' < n →
  n < count s + room s → n' mod N = n mod N → False.
Proof.
  intros I E Hb Hn' Hlt Hn Hm. destruct (live_batch_window _ _ I E Hb) as (_ & _ & Hw).
  pose proof (lap_apart _ _ Hlt Hm). lia.
Qed.
End invariant.

Section frames.
Context {C : QueueCfg} {HS : SafeCfg} {cell W D : Type} `{Deque W D}.
Implicit Types (q : StackQueue cell D) (s : sys cell W D) (gs : gmap nat guard) (m : memory)
  (h : list cell) (ws : list (observation W)).

(** ** The owner's knowledge *)

(** Whatever happened to a cell before its next task is known to the owner by then. *)
Lemma owner_knows s m j n :
  accesses_inv s m → n < count s + room s → before m j n → j ∈ views m Owning.
Proof.
  intros A Hn ([by_ i n' w] & Hj & Hi & Hle & Hlt). simpl in *.
  destruct (ri_cells _ _ A _ _ Hj) as [Hc Hb]. simpl in Hc, Hb.
  destruct by_ as [|b]; [by eapply (ri_own _ _ A)|].
  destruct Hlt as [Hlt|]; [|done].
  destruct (ri_room _ _ A j b n') as [|Hr]; [by do 2 eexists|done|].
  pose proof (lap_apart n n' Hlt). pose proof (region_floor_bounds b). lia.
Qed.

(** A new access comes before no task there is. *)
Definition fresh_access s (a : agent) (n : Z) : Prop :=
  match a with
  | Owning => n = count s
  | Guarding b => live_batch s b ∧ b ≤ n
  end.

Lemma touch_before s m a i n w j n' :
  ranges_inv s → exclusion_inv s → fresh_access s a n → i = n mod N →
  n' < count s → before (touch a i n w m) j n' → before m j n'.
Proof.
  intros I E Hf -> Hn' (x & Hj & Hc & Hle & Hlt).
  destruct (accesses_touch _ _ _ _ _ _ _ Hj) as [Hj'|[-> ->]]; [by exists x|].
  simpl in *. destruct a as [|b]; simpl in Hf; [lia|].
  destruct Hf as [Hb Hbn], Hlt as [Hlt|]; [|done]. exfalso.
  pose proof (room_nonneg s). by eapply (no_return s b n' n); eauto; lia.
Qed.

Lemma touch_by_guard a i n w m j b n' :
  by_guard (touch a i n w m) j b n' →
  by_guard m j b n' ∨ (j = length (accesses m) ∧ a = Guarding b ∧ n = n').
Proof.
  intros (i' & w' & [Hj|[-> Hx]]%accesses_touch); [left; by do 2 eexists|right].
  by injection Hx as <- <- <- <-.
Qed.

(** ** Steps that leave the occupancy word alone *)
Lemma messages_frame s s' m m' :
  messages_inv s m → exclusion_inv s' →
  occupancy (inner (sys_queue s')) = occupancy (inner (sys_queue s)) →
  sq_occupancy (sys_queue s') = sq_occupancy (sys_queue s) →
  word_messages m' = word_messages m → word_seen m' = word_seen m →
  views m Owning ⊆ views m' Owning →
  (∀ b, live_batch s b → live_batch s' b) →
  (∀ j b n, by_guard m' j b n → by_guard m j b n ∨ live_batch s' b) →
  messages_inv s' m'.
Proof.
  intros M E' Ho Hsq Hm Hseen Hv Hlive Hby. split; rewrite ?Hm, ?Hseen, ?Ho, ?Hsq.
  - apply M.
  - destruct (ri_seen _ _ M) as (v & ? & ?). exists v. split; [done|]. set_solver.
  - apply M.
  - intros k w v j b n Hk Hkv [Hj|Hj]%Hby; [by eapply (ri_told _ _ M)|right].
    pose proof (live_batch_lane _ _ E' Hj) as Hl. rewrite Ho in Hl.
    pose proof (ri_stale _ _ M k w v Hk Hkv _ (region_of_range b)). lia.
  - intros j b n [Hj|Hj]%Hby; [|by right]. unfold newest. rewrite Hm.
    destruct (ri_newest_told _ _ M _ _ _ Hj); auto.
Qed.

(** ** Steps without an access of a cell *)
Lemma accesses_frame s s' m m' :
  accesses_inv s m → accesses m' = accesses m → (∀ a, views m a ⊆ views m' a) →
  written s ≤ written s' → claimed s ≤ claimed s' →
  (∀ b n j, by_guard m j b n → live_batch s' b → live_batch s b) →
  (∀ j b n, by_guard m j b n →
    j ∈ views m' Owning ∨ count s' + room s' ≤ region_floor b + N) →
  (∀ id lo e n, batch_at s' id = Some (lo, e) → lo ≤ n < default (count s') e → n < claimed s →
    ∃ id' e', batch_at s id' = Some (lo, e') ∧ n < default (count s) e') →
  accesses_inv s' m'.
Proof.
  intros A Ha Hv Hw Hc Hlive Hroom Hapart.
  assert (∀ j b n, by_guard m' j b n → by_guard m j b n) as Hby.
  { unfold by_guard. by rewrite Ha. }
  split; rewrite ?Ha.
  - intros j x Hj. destruct (ri_cells _ _ A _ _ Hj) as [? Hx]. split; [done|].
    destruct (ac_by x); lia.
  - intros j x Hj Hx. apply Hv. by eapply (ri_own _ _ A).
  - intros j b n Hj%Hby Hb. apply Hv. eapply (ri_guard_own _ _ A); eauto.
  - intros j b n Hj%Hby. eauto.
  - intros j b n id lo e Hj%Hby Hid Hn. pose proof Hj as (i & w & Hx).
    destruct (ri_cells _ _ A _ _ Hx) as [_ Hb]. simpl in Hb.
    destruct (Hapart id lo e n Hid Hn) as (id' & e' & Hid' & Hn'); [lia|].
    eapply (ri_apart _ _ A); [exact Hj|exact Hid'|lia].
Qed.

Lemma known_frame o s s' m m' :
  known_inv o s m → accesses m' = accesses m → (∀ a, views m a ⊆ views m' a) →
  slot_view m ⊆ slot_view m' → count s' = count s →
  (∀ id b e, batch_at s' id = Some (b, e) → batch_at s id = Some (b, e)) →
  known_inv o s' m'.
Proof.
  intros K Ha Hv Hs Hc Hb.
  assert (∀ j n, before m' j n → before m j n) as Hbe by (unfold before; by rewrite Ha).
  split.
  - intros b j (id & e & Hid%Hb) Hj%Hbe. apply Hv. eapply (ri_first _ _ _ K); [by do 2 eexists|done].
  - intros Hsync n j Hn Hj%Hbe. apply Hs. eapply (ri_slot _ _ _ K); [done| |done]. lia.
  - intros Hsync id b e n j Hid%Hb Hn Hj%Hbe. apply Hv. by eapply (ri_bounded _ _ _ K).
Qed.

(** Steps that change neither the batches nor the words: the memory keeps its meaning. *)
Lemma races_frame o s s' m :
  races_inv o s m → ranges_inv s' → exclusion_inv s' →
  occupancy (inner (sys_queue s')) = occupancy (inner (sys_queue s)) →
  sq_occupancy (sys_queue s') = sq_occupancy (sys_queue s) →
  sys_history s' = sys_history s → begun s' = begun s → room s' = room s →
  written s ≤ written s' → (∀ id, batch_at s' id = batch_at s id) →
  races_inv o s' m.
Proof.
  intros [I E M A K] I' E' Ho Hsq Hh Hbeg Hroom Hw Hb.
  assert (count s' = count s) as Hc by (unfold count; by rewrite Hh).
  assert (claimed s' = claimed s) as Hcl by (unfold claimed; by rewrite Hbeg, Hc).
  assert (∀ b, live_batch s' b ↔ live_batch s b) as Hl.
  { intros b. unfold live_batch. by setoid_rewrite Hb. }
  split; [done..| | |].
  - eapply messages_frame; eauto. intros b. by apply Hl.
  - eapply accesses_frame; eauto; [lia| | |].
    + intros b n j _. by apply Hl.
    + rewrite Hc, Hroom. apply A.
    + intros id lo e n Hid Hn _. rewrite Hb in Hid. exists id, e. rewrite Hc in Hn. split; [done|lia].
  - eapply known_frame; eauto. intros id b e. by rewrite Hb.
Qed.
End frames.

Section steps.
Context {C : QueueCfg} {HS : SafeCfg} {cell W D : Type} `{Deque W D}.
Implicit Types (q : StackQueue cell D) (s : sys cell W D) (gs : gmap nat guard) (m : memory)
  (h : list cell) (ws : list (observation W)).

(** ** Accesses of cells *)

(** The owner writes the next task; a guard works on a task of its batch. *)
Definition allowed_access s (a : agent) (n : Z) : Prop :=
  match a with
  | Owning => n = count s ∧ room s = 1
  | Guarding b => ∃ id e, batch_at s id = Some (b, Some e) ∧ b ≤ n < e
  end.

Lemma bounded_claimed s id b e :
  ranges_inv s → batch_at s id = Some (b, Some e) → e ≤ claimed s.
Proof.
  unfold batch_at. intros I (g & Hid & Hg)%bind_Some. pose proof (inv_guards _ I _ _ Hid) as Hok.
  destruct g; simplify_eq/=. lia.
Qed.

Lemma allowed_fresh s a n : allowed_access s a n → fresh_access s a n.
Proof. destruct a as [|b]; [by intros []|]. intros (id & e & Hid & Hn). split; [by do 2 eexists|lia]. Qed.

Lemma batches_apart s id1 id2 lo1 e1 lo2 e2 n :
  ranges_inv s → batch_at s id1 = Some (lo1, e1) → batch_at s id2 = Some (lo2, e2) →
  lo1 ≤ n < default (count s) e1 → lo2 ≤ n < default (count s) e2 → lo1 = lo2.
Proof.
  intros I (g1 & H1 & _ & R1)%batch_at_guard (g2 & H2 & _ & R2)%batch_at_guard Hn1 Hn2.
  destruct (decide (id1 = id2)) as [->|Hne]; [congruence|].
  pose proof (inv_disjoint _ I _ _ _ _ _ _ _ _ Hne H1 H2 R1 R2). lia.
Qed.

Lemma accesses_touch_inv s s' m a n w :
  accesses_inv s m → ranges_inv s → exclusion_inv s → allowed_access s a n →
  count s' = count s → claimed s' = claimed s → room s' = room s → written s ≤ written s' →
  (a = Owning → count s < written s') → (∀ id, batch_at s' id = batch_at s id) →
  accesses_inv s' (touch a (n mod N) n w m).
Proof.
  intros A I E Ha Hc Hcl Hroom Hw How Hb.
  assert (∀ b, live_batch s' b → live_batch s b) as Hl.
  { intros b (id & e & Hid). rewrite Hb in Hid. by do 2 eexists. }
  split.
  - intros j x [Hj|[-> ->]]%accesses_touch.
    + destruct (ri_cells _ _ A _ _ Hj) as [? Hx]. split; [done|]. destruct (ac_by x); lia.
    + split; [done|]. destruct a as [|b]; simpl in *; [destruct Ha as [-> _]; by apply How|].
      destruct Ha as (id & e & Hid & Hn). pose proof (bounded_claimed _ _ _ _ I Hid). lia.
  - intros j x [Hj|[-> ->]]%accesses_touch Hx; [apply views_touch; by eapply (ri_own _ _ A)|].
    simpl in Hx. subst. apply touch_known.
  - intros j b k [Hj|(-> & -> & <-)]%touch_by_guard Hlive; [|apply touch_known].
    apply views_touch. eapply (ri_guard_own _ _ A); eauto.
  - intros j b k [Hj|(-> & -> & <-)]%touch_by_guard; rewrite Hc, Hroom.
    + destruct (ri_room _ _ A _ _ _ Hj); [left; by apply views_touch|by right].
    + right. apply (live_batch_window _ b I E). destruct Ha as (id & e & Hid & _). by do 2 eexists.
  - intros j b k id lo e [Hj|(-> & -> & <-)]%touch_by_guard Hid Hk; rewrite Hb in Hid; rewrite Hc in Hk.
    + by eapply (ri_apart _ _ A).
    + destruct Ha as (id' & e' & Hid' & Hn). by eapply (batches_apart s id' id).
Qed.

Lemma known_touch o s s' m a n w :
  known_inv o s m → ranges_inv s → exclusion_inv s → allowed_access s a n →
  count s' = count s → (∀ id, batch_at s' id = batch_at s id) →
  known_inv o s' (touch a (n mod N) n w m).
Proof.
  intros K I E Ha Hc Hb. pose proof (claimed_le _ I) as Hcl.
  assert (∀ j n', n' < count s → before (touch a (n mod N) n w m) j n' → before m j n') as Hbe.
  { intros j n' Hn' Hj. eapply touch_before; eauto. by apply allowed_fresh. }
  split.
  - intros b j (id & e & Hid) Hj. rewrite Hb in Hid. assert (live_batch s b) as Hl by by do 2 eexists.
    apply views_touch. apply (ri_first _ _ _ K _ _ Hl). apply Hbe; [|done].
    destruct (live_batch_window _ _ I E Hl). lia.
  - intros Hsync k j Hk Hj. rewrite Hc in Hk. apply (ri_slot _ _ _ K Hsync k); auto.
  - intros Hsync id b e k j Hid Hk Hj. rewrite Hb in Hid. apply views_touch.
    eapply (ri_bounded _ _ _ K); eauto. apply Hbe; [|done].
    pose proof (bounded_claimed _ _ _ _ I Hid). lia.
Qed.

Lemma races_touch o s s' m a n w :
  races_inv o s m → ranges_inv s' → exclusion_inv s' → allowed_access s a n →
  occupancy (inner (sys_queue s')) = occupancy (inner (sys_queue s)) →
  sq_occupancy (sys_queue s') = sq_occupancy (sys_queue s) →
  sys_history s' = sys_history s → begun s' = begun s → room s' = room s →
  written s ≤ written s' → (a = Owning → count s < written s') →
  (∀ id, batch_at s' id = batch_at s id) →
  races_inv o s' (touch a (n mod N) n w m).
Proof.
  intros [I E M A K] I' E' Ha Ho Hsq Hh Hbeg Hroom Hw How Hb.
  assert (count s' = count s) as Hc by (unfold count; by rewrite Hh).
  assert (claimed s' = claimed s) as Hcl by (unfold claimed; by rewrite Hbeg, Hc).
  assert (∀ b, live_batch s b → live_batch s' b) as Hl.
  { intros b (id & e & Hid). exists id, e. by rewrite Hb. }
  split; [done..| | |].
  - eapply messages_frame; eauto; [apply views_touch|].
    intros j b k [Hj|(_ & -> & _)]%touch_by_guard; [by left|right].
    destruct Ha as (id & e & Hid & _). apply Hl. by do 2 eexists.
  - by apply (accesses_touch_inv s).
  - by apply (known_touch o s).
Qed.

(** ** The slot word *)

(** Steps of the slot word: what the guards know only grows. *)
Lemma known_slot o s s' m m' :
  known_inv o s m → accesses m' = accesses m → (∀ a, views m a ⊆ views m' a) →
  (∀ b j, live_batch s' b → before m j b → live_batch s b ∨ j ∈ views m' (Guarding b)) →
  (slot_sync o = true → ∀ n j, n < count s' → before m j n → j ∈ slot_view m') →
  (slot_sync o = true → ∀ id b e n j, batch_at s' id = Some (b, Some e) → b ≤ n < e →
    before m j n → batch_at s id = Some (b, Some e) ∨ j ∈ views m' (Guarding b)) →
  known_inv o s' m'.
Proof.
  intros K Ha Hv Hl Hslot Hnew.
  assert (∀ j n, before m' j n → before m j n) as Hbe by (unfold before; by rewrite Ha).
  split.
  - intros b j Hb Hj%Hbe. destruct (Hl _ _ Hb Hj); [|done]. apply Hv. by apply (ri_first _ _ _ K).
  - eauto.
  - intros Hsync id b e n j Hid Hn Hj%Hbe.
    destruct (Hnew Hsync id b e n j Hid Hn Hj); [|done]. apply Hv. by eapply (ri_bounded _ _ _ K).
Qed.

(** The owner's [fetch_add] publishes the task it has written. *)
Lemma races_claim o q gs h ws index c base_slot v m :
  let s := mkSys q (Written index c) gs h ws in
  let s' := mkSys (set_slot v q) (Claimed index base_slot) gs (h ++ [c]) ws in
  races_inv o s m → ranges_inv s' → exclusion_inv s' →
  races_inv o s' (rmw_slot (slot_add o) Owning m).
Proof.
  intros s s' [I E M A K] I' E'.
  assert (count s' = count s + 1) as Hc by (unfold count; simpl; rewrite length_app; simpl; lia).
  assert (claimed s ≤ claimed s') as Hcl.
  { unfold claimed, begun. simpl. destruct (eqb _ _); simpl; lia. }
  assert (∀ a, views m a ⊆ views (rmw_slot (slot_add o) Owning m) a) as Hv by apply views_rmw_slot.
  split; [done..| | |].
  - eapply messages_frame; eauto.
  - eapply accesses_frame; eauto.
    + unfold written. rewrite Hc. simpl. lia.
    + intros j b n Hj. unfold room. rewrite Hc. simpl.
      destruct (ri_room _ _ A _ _ _ Hj) as [|Hr]; [left; by apply Hv|right].
      unfold room in Hr. simpl in Hr. lia.
    + intros id lo e n Hid Hn Hn'. exists id, e. split; [done|].
      change (claimed s) with (count s) in Hn'. destruct e; simpl in *; lia.
  - eapply known_slot; eauto. intros Hsync n j Hn Hj. simpl.
    apply andb_prop in Hsync as Hrel. destruct Hrel as [Hrel _].
    destruct (decide (n < count s)) as [Hlt|].
    + apply (told_msg _ _ _ j). by apply (ri_slot _ _ _ K Hsync n).
    + apply (told_known _ _ _ Hrel j), heard_known. apply (owner_knows s m j n A); [|done].
      unfold room. simpl. lia.
Qed.

(** The guard's [fetch_xor] reads what the owner published. *)
Lemma races_bound o q pc gs h ws id base_slot start rs re v m :
  let s := mkSys q pc gs h ws in
  let s' := mkSys (set_slot v q) pc
    (<[id := Bounded rs re start (Z.of_nat (length h)) start]> gs) h ws in
  races_inv o s m → ranges_inv s' → exclusion_inv s' →
  gs !! id = Some (Unbounded base_slot start) →
  races_inv o s' (rmw_slot (slot_xor o) (Guarding start) m).
Proof.
  intros s s' [I E M A K] I' E' Hid.
  assert (batch_at s id = Some (start, None)) as Hb by (unfold batch_at; simpl; by rewrite Hid).
  assert (∀ id', id' ≠ id → batch_at s' id' = batch_at s id') as Hne.
  { intros id' Hn. unfold batch_at. simpl. by rewrite fin_maps.lookup_insert_ne by done. }
  assert (batch_at s' id = Some (start, Some (count s))) as Hb'.
  { unfold batch_at. simpl. by rewrite fin_maps.lookup_insert_eq. }
  assert (∀ a, views m a ⊆ views (rmw_slot (slot_xor o) (Guarding start) m) a) as Hv
    by apply views_rmw_slot.
  assert (∀ b, live_batch s b ↔ live_batch s' b) as Hl.
  { intros b. split; intros (id' & e & Hid'); destruct (decide (id' = id)) as [->|];
      [| |rewrite Hb' in Hid'|]; simplify_eq; try by do 2 eexists.
    - exists id', e. by rewrite Hne.
    - exists id', e. by rewrite <- Hne. }
  split; [done..| | |].
  - eapply messages_frame; eauto. intros b. apply Hl.
  - eapply accesses_frame; eauto; [reflexivity|reflexivity|by intros b n j _ ?%Hl| |].
    + intros j b n Hj. destruct (ri_room _ _ A _ _ _ Hj); [left; by apply Hv|by right].
    + intros id' lo e n Hid' Hn _. destruct (decide (id' = id)) as [->|].
      * rewrite Hb' in Hid'. injection Hid' as <- <-. exists id, None. split; [done|apply Hn].
      * rewrite Hne in Hid' by done. exists id', e. split; [done|apply Hn].
  - eapply known_slot; eauto; [intros b j ?%Hl; by left| |].
    + intros Hsync n j Hn Hj. apply (told_msg _ _ _ j). by apply (ri_slot _ _ _ K Hsync n).
    + intros Hsync id' b e n j Hid' Hn Hj. destruct (decide (id' = id)) as [->|].
      * right. rewrite Hb' in Hid'. simplify_eq. simpl. rewrite fn_lookup_insert.
        apply andb_prop in Hsync as Hacq. destruct Hacq as [_ Hacq].
        apply (heard_msg _ _ _ Hacq j). apply (ri_slot _ _ _ K Hsync n); [lia|done].
      * left. by rewrite <- Hne.
Qed.
End steps.

Section occupancy_steps.
Context {C : QueueCfg} {HS : SafeCfg} {cell W D : Type} `{Deque W D}.
Implicit Types (q : StackQueue cell D) (s : sys cell W D) (gs : gmap nat guard) (m : memory)
  (h : list cell) (ws : list (observation W)).

(** ** The occupancy word *)
Lemma newest_rmw o a new m :
  newest (rmw_word o a new m)
    = told o (heard o (views m a) (newest m)) (newest m).
Proof. unfold newest at 1. simpl. by rewrite last_snoc. Qed.

(** A new message tells of every access by a guard that is not live any more. *)
Lemma told_or_live s s' o a new m j b n :
  messages_inv s m → by_guard m j b n →
  (live_batch s b → live_batch s' b
    ∨ (releases o = true ∧ j ∈ views m a)) →
  j ∈ newest (rmw_word o a new m) ∨ live_batch s' b.
Proof.
  intros M Hj Hl. rewrite newest_rmw.
  destruct (ri_newest_told _ _ M _ _ _ Hj) as [Hn|[|[Hr Hv]]%Hl]; [left|by right|left].
  - by apply (told_msg _ _ _ j).
  - apply (told_known _ _ _ Hr j). by apply heard_known.
Qed.

(** A batch begins: its guard learns what the owner knows. *)
Lemma messages_occupy s s' o m b :
  messages_inv s m → exclusion_inv s' → acquires o = true →
  sq_occupancy (sys_queue s') = occupancy (inner (sys_queue s')) →
  (∀ b, live_batch s b → live_batch s' b) →
  messages_inv s'
    (hand_out b (rmw_word o Owning (occupancy (inner (sys_queue s'))) m)).
Proof.
  intros M E' Hacq Hsq Hl. set (new := occupancy (inner (sys_queue s'))).
  set (m1 := rmw_word o Owning new m). set (m' := hand_out b m1).
  assert (∀ j b n, by_guard m' j b n → j ∈ newest m1 ∨ live_batch s' b) as Hnew.
  { intros j b' n Hj. eapply (told_or_live s); [done|exact Hj|]. intros ?. left. auto. }
  split.
  - eexists. simpl. apply last_snoc.
  - eexists. simpl. rewrite Hsq. split.
    + rewrite lookup_app_r, Nat.sub_diag by done. reflexivity.
    + rewrite fn_lookup_insert_ne, fn_lookup_insert by done. by apply told_heard.
  - intros k w v Hk Hkv. simpl in Hk, Hkv.
    apply lookup_app_Some in Hkv as [Hkv|[_ Hkv]]; [apply lookup_lt_Some in Hkv; lia|].
    apply list_lookup_singleton_Some in Hkv as [_ [= <- <-]]. done.
  - intros k w v j b' n Hk Hkv Hj. simpl in Hk, Hkv.
    apply lookup_app_Some in Hkv as [Hkv|[_ Hkv]]; [apply lookup_lt_Some in Hkv; lia|].
    apply list_lookup_singleton_Some in Hkv as [_ [= <- <-]].
    destruct (Hnew _ _ _ Hj) as [Hj'|Hlive]; [left|right; by apply live_batch_lane].
    by rewrite <- (newest_rmw o Owning new).
  - exact Hnew.
Qed.

Lemma races_occupy o q gs h ws ws' index base_slot id m :
  let s := mkSys q (Occupying index base_slot) gs h ws in
  let n := Z.of_nat (length h) - 1 in
  let s' := mkSys (occupied index q) Idle (<[id := Unbounded base_slot n]> gs) h ws' in
  occ_sync o = true → gs !! id = None →
  races_inv o s m → ranges_inv s' → exclusion_inv s' →
  races_inv o s' (hand_out (count s - 1)
    (rmw_word (occ_add o) Owning (occupancy (inner (sys_queue s'))) m)).
Proof.
  intros s n s' Hsync Hid [I E M A K] I' E'. set (m' := hand_out _ _).
  assert (batch_at s id = None) as Hb by (unfold batch_at; simpl; by rewrite Hid).
  assert (batch_at s' id = Some (n, None)) as Hb'.
  { unfold batch_at. simpl. by rewrite fin_maps.lookup_insert_eq. }
  assert (∀ id', id' ≠ id → batch_at s' id' = batch_at s id') as Hne.
  { intros id' Hn. unfold batch_at. simpl. by rewrite fin_maps.lookup_insert_ne by done. }
  assert (∀ b, live_batch s b → live_batch s' b) as Hl.
  { intros b (id' & e & Hid'). exists id', e. rewrite Hne; [done|]. congruence. }
  assert (∀ b, live_batch s' b → live_batch s b ∨ b = n) as Hl'.
  { intros b (id' & e & Hid'). destruct (decide (id' = id)) as [->|].
    - right. congruence.
    - left. exists id', e. by rewrite <- Hne. }
  assert (∀ a, views m a ⊆ views m' a) as Hv.
  { intros a. etrans; [apply views_rmw_word|apply views_hand_out]. }
  assert (∀ j b k, by_guard m j b k → k < n) as Hold.
  { intros j b k (i & w & Hj). destruct (ri_cells _ _ A _ _ Hj) as [_ Hk]. simpl in Hk.
    unfold claimed, begun in Hk. simpl in Hk. unfold count in Hk. simpl in Hk. lia. }
  apply andb_prop in Hsync as [[Hadd Hsub]%andb_prop Hload].
  split; [done..| | |].
  - by eapply messages_occupy.
  - eapply accesses_frame; eauto; [reflexivity|unfold claimed, begun, count; simpl; lia| | |].
    + intros b k j Hj [| ->]%Hl'; [done|]. pose proof (Hold _ _ _ Hj) as Hk.
      destruct Hj as (i & w & Hj). destruct (ri_cells _ _ A _ _ Hj) as [_ Hx]. simpl in Hx. lia.
    + intros j b k Hj. destruct (ri_room _ _ A _ _ _ Hj); [left; by apply Hv|by right].
    + intros id' lo e k Hid' Hk Hcl. unfold claimed, begun, count in Hcl. simpl in Hcl.
      destruct (decide (id' = id)) as [->|].
      * rewrite Hb' in Hid'. injection Hid' as <- <-. unfold n in Hk. lia.
      * rewrite Hne in Hid' by done. exists id', e. split; [done|apply Hk].
  - eapply known_slot; eauto.
    + intros b j [| ->]%Hl' Hj; [by left|right]. simpl. change (count s - 1) with n.
      rewrite fn_lookup_insert. apply elem_of_union_r. rewrite fn_lookup_insert.
      apply heard_known. apply (owner_knows s m j n A); [|done]. unfold room, count, n. simpl. lia.
    + intros Hs k j Hk Hj. by apply (ri_slot _ _ _ K Hs k).
    + intros Hs id' b e k j Hid' Hk Hj. left. rewrite <- Hne; [done|]. congruence.
Qed.

(** A batch is released: the message tells what its guard did. *)
Lemma messages_release s s' o m b :
  messages_inv s m → accesses_inv s m → exclusion_inv s' → releases o = true →
  sq_occupancy (sys_queue s') = sq_occupancy (sys_queue s) → live_batch s b →
  (∀ r, 0 ≤ r < 8 → lane r (occupancy (inner (sys_queue s')))
    ≤ lane r (occupancy (inner (sys_queue s)))) →
  (∀ b', live_batch s b' → live_batch s' b' ∨ b' = b) →
  messages_inv s' (rmw_word o (Guarding b) (occupancy (inner (sys_queue s'))) m).
Proof.
  intros M A E' Hrel Hsq Hb Hle Hl. set (new := occupancy (inner (sys_queue s'))).
  set (m' := rmw_word o (Guarding b) new m).
  assert (∀ j b' n, by_guard m' j b' n → j ∈ newest m' ∨ live_batch s' b') as Hnew.
  { intros j b' n Hj. eapply (told_or_live s); [done|exact Hj|]. intros Hb'.
    destruct (Hl _ Hb') as [| ->]; [by left|right]. split; [done|].
    by eapply (ri_guard_own _ _ A). }
  destruct (ri_seen _ _ M) as (vs & Hseen & Hvs). pose proof (lookup_lt_Some _ _ _ Hseen) as Hlt.
  split.
  - eexists. simpl. apply last_snoc.
  - exists vs. simpl. rewrite lookup_app_l, Hsq, fn_lookup_insert_ne by done. done.
  - intros k w v Hk [Hkv|[_ Hkv]]%lookup_app_Some r Hr.
    + etrans; [by apply Hle|]. by eapply (ri_stale _ _ M k).
    + apply list_lookup_singleton_Some in Hkv as [_ [= <- <-]]. done.
  - intros k w v j b' n Hk [Hkv|[_ Hkv]]%lookup_app_Some Hj.
    + by eapply (ri_told _ _ M k).
    + apply list_lookup_singleton_Some in Hkv as [_ [= <- <-]].
      destruct (Hnew _ _ _ Hj) as [Hj'|Hlive]; [left|right; by apply live_batch_lane].
      by rewrite <- (newest_rmw o (Guarding b) new).
  - exact Hnew.
Qed.

Lemma races_release o q q' pc gs gs' h ws id rs re b e n m :
  let s := mkSys q pc gs h ws in
  let s' := mkSys q' pc gs' h ws in
  occ_sync o = true → gs !! id = Some (Bounded rs re b e n) →
  (∃ limit, gs' = <[id := Waking limit]> gs) ∨ gs' = delete id gs →
  sq_occupancy q' = sq_occupancy q → sq_slot q' = sq_slot q →
  races_inv o s m → ranges_inv s' → exclusion_inv s' →
  races_inv o s' (rmw_word (occ_sub o) (Guarding b) (occupancy (inner q')) m).
Proof.
  intros s s' Hsync Hid Hgs Hsq Hsl [I E M A K] I' E'.
  apply andb_prop in Hsync as [[Hadd Hsub]%andb_prop Hload].
  assert (batch_at s id = Some (b, Some e)) as Hb by (unfold batch_at; simpl; by rewrite Hid).
  assert (batch_at s' id = None ∧ ∀ id', id' ≠ id → batch_at s' id' = batch_at s id') as [Hb' Hne].
  { unfold batch_at. destruct Hgs as [[limit ->]| ->]; simpl.
    - rewrite fin_maps.lookup_insert_eq. split; [done|]. intros. by rewrite fin_maps.lookup_insert_ne.
    - rewrite fin_maps.lookup_delete_eq. split; [done|]. intros. by rewrite fin_maps.lookup_delete_ne. }
  assert (∀ id' b' e', batch_at s' id' = Some (b', e') → batch_at s id' = Some (b', e')) as Hold.
  { intros id' b' e' Hid'. rewrite <- Hne; [done|]. congruence. }
  assert (∀ b', live_batch s' b' → live_batch s b') as Hl by (intros b' (id' & e' & ?%Hold); by do 2 eexists).
  assert (begun s' = begun s) as Hbeg by (unfold begun; simpl; by rewrite Hsl).
  assert (∀ a, views m a ⊆ views (rmw_word (occ_sub o) (Guarding b) (occupancy (inner q')) m) a)
    as Hv by apply views_rmw_word.
  split; [done..| | |].
  - eapply messages_release; eauto; [by do 2 eexists| |].
    + intros r Hr. rewrite (ex_lanes _ E' r Hr), (ex_lanes _ E r Hr). simpl.
      destruct Hgs as [[limit ->]| ->].
      * rewrite (live_in_update _ _ _ _ _ Hid). unfold starts_in at 2. simpl.
        pose proof (b2z_nonneg (starts_in r (Bounded rs re b e n))). lia.
      * rewrite (live_in_delete _ _ _ _ Hid).
        pose proof (b2z_nonneg (starts_in r (Bounded rs re b e n))). lia.
    + intros b' (id' & e' & Hid'). destruct (decide (id' = id)) as [->|]; [right; congruence|left].
      exists id', e'. by rewrite Hne.
  - eapply accesses_frame; eauto; [reflexivity|unfold claimed; by rewrite Hbeg| |].
    + intros j b' k Hj. destruct (ri_room _ _ A _ _ _ Hj); [left; by apply Hv|by right].
    + intros id' lo e' k Hid'%Hold Hk _. exists id', e'. split; [done|apply Hk].
  - by eapply known_frame.
Qed.

(** ** The region check *)

(** The owner refreshes its copy of the word with a message it may not have seen. *)
Lemma races_load o q gs h ws k w v m :
  let s := mkSys q Idle gs h ws in
  let s' := mkSys (set_sq_occupancy w q) Idle gs h ws in
  occ_sync o = true → word_messages m !! k = Some (w, v) → (word_seen m ≤ k)%nat →
  races_inv o s m → races_inv o s' (load_message (occ_load o) k m).
Proof.
  intros s s' Hsync Hk Hseen [I E M A K]. apply andb_prop in Hsync as [_ Hload].
  set (m' := load_message _ _ _).
  assert (∀ a, views m a ⊆ views m' a) as Hv by apply views_load.
  split.
  - revert I. by apply ranges_inv_same_guards.
  - destruct E. split; try done. intros r Hr. simpl. by eapply (ri_stale _ _ M k).
  - split; try apply M.
    + exists v. simpl. rewrite Hk, fn_lookup_insert. split; [done|].
      simpl. apply heard_msg. done.
    + intros k' w' v' Hk' Hkv. eapply (ri_stale _ _ M k'); [|done]. simpl in Hk'. lia.
    + intros k' w' v' j b n Hk' Hkv Hj. eapply (ri_told _ _ M k'); [|done..]. simpl in Hk'. lia.
  - eapply accesses_frame; eauto; [reflexivity|reflexivity| |].
    + intros j b n Hj. destruct (ri_room _ _ A _ _ _ Hj); [left; by apply Hv|by right].
    + intros id lo e n Hid Hn _. exists id, e. split; [done|apply Hn].
  - by eapply known_frame.
Qed.

(** A check passed on the local copy: whoever is not live any more is known. *)
Lemma races_pass o q gs h ws c m :
  let s := mkSys q Idle gs h ws in
  let s' := mkSys q (Checked (count s mod N) c) gs h ws in
  races_inv o s m → ranges_inv s' → exclusion_inv s' →
  at_region_start (count s mod N) = false ∨ lane (region_of (count s)) (sq_occupancy q) = 0 →
  races_inv o s' m.
Proof.
  intros s s' [I E M A K] I' E' Hc. split; [done..| | |].
  - eapply messages_frame; eauto.
  - eapply accesses_frame; eauto; [reflexivity|reflexivity| |].
    + intros j b n Hj. destruct (ri_room _ _ A _ _ _ Hj) as [|Hr]; [by left|].
      change (count s') with (count s). unfold room in Hr |- *. simpl in Hr |- *.
      destruct (decide (count s = region_floor b + N)) as [Heq|]; [|right; lia].
      destruct (next_lap_region b) as [Hreg Hst]. rewrite <- Heq in Hreg, Hst.
      destruct Hc as [Hc|Hc]; [congruence|left].
      destruct (ri_seen _ _ M) as (v & Hseen & Hv). apply Hv.
      destruct (ri_told _ _ M _ _ _ _ _ _ (le_n _) Hseen Hj) as [|Hpos]; [done|].
      rewrite Hreg in Hc. simpl in Hpos. lia.
    + intros id lo e n Hid Hn _. exists id, e. split; [done|apply Hn].
  - by eapply known_frame.
Qed.
End occupancy_steps.

Section preservation.
Context {C : QueueCfg} {HS : SafeCfg} {cell W D : Type} `{Deque W D}.
Implicit Types (q : StackQueue cell D) (s : sys cell W D) (gs : gmap nat guard) (m : memory)
  (h : list cell) (ws : list (observation W)).

(** What the check does, with and without a load. *)
Lemma check_loaded_run q index v :
  loads q index = true →
  check_loaded v index q
    = Done (if Z.land v (region_mask index) =? 0 then Ok () else Err queue_full,
            set_sq_occupancy v q).
Proof.
  unfold loads, check_loaded. intros [Hst Hl%negb_true_iff]%andb_prop.
  rewrite check_write_index_run, check_regional_occupancy_run, Hst. simpl. rewrite Hl.
  by destruct q as [? ? [] ?].
Qed.

Lemma check_fresh_run q index :
  check_write_index index q =
    if loads q index then check_loaded (occupancy (inner q)) index q else Done (Ok (), q).
Proof.
  destruct (loads q index) eqn:Hl.
  - rewrite check_loaded_run by done. unfold loads in Hl. apply andb_prop in Hl as [Hst Hl%negb_true_iff].
    by rewrite check_write_index_run, check_regional_occupancy_run, Hst, Hl.
  - unfold loads in Hl. rewrite check_write_index_run, check_regional_occupancy_run.
    destruct (at_region_start index); [|done]. simpl in Hl. apply negb_false_iff in Hl. by rewrite Hl.
Qed.

(** A check without a load. *)
Lemma races_check_local o q gs h ws index c m :
  let s := mkSys q Idle gs h ws in
  current_write_index q = Done (index, q) → loads q index = false →
  races_inv o s m → races_inv o (mkSys q (Checked index c) gs h ws) m.
Proof.
  intros s Hidx Hl R. pose proof (ri_ranges _ _ _ R) as I.
  destruct (inv_owner _ I) as (phase & _ & _ & lp & Hslot & _).
  pose proof Hidx as Hidx'. simpl in Hslot. rewrite (current_write_index_run _ _ _ Hslot) in Hidx'.
  injection Hidx' as <-.
  assert (step s (mkSys q (Checked (count s mod N) c) gs h ws)) as Hst.
  { eapply step_check; [exact Hidx|]. by rewrite check_fresh_run, Hl. }
  apply races_pass; [done| | |].
  - eapply ranges_inv_step; [exact Hst|done].
  - eapply exclusion_inv_step; [exact Hst|done|apply (ri_exclusion _ _ _ R)].
  - unfold loads in Hl. destruct (at_region_start _); [right|by left]. simpl in Hl.
    apply negb_false_iff in Hl. rewrite region_mask_lane, lane_mask_test in Hl
      by (pose proof (region_of_range (count s)); lia). by apply Z.eqb_eq.
Qed.

(** A refused check changes nothing but the copy, which the load has refreshed; neither
    does giving up. *)
Definition refusing (pc : owner_pc cell W) : bool :=
  match pc with Idle | Rejected _ => true | _ => false end.

Lemma races_refusing o q pc pc' gs h ws m :
  refusing pc = true → refusing pc' = true →
  races_inv o (mkSys q pc gs h ws) m → races_inv o (mkSys q pc' gs h ws) m.
Proof.
  intros Hpc Hpc' R. apply (races_frame _ (mkSys q pc gs h ws)); try done.
  2: eapply (exclusion_owner q q pc); try done; [by left| | | |apply R].
  all: try by destruct pc, pc'.
  - generalize (ri_ranges _ _ _ R). by apply ranges_inv_same_guards; destruct pc, pc'.
  - destruct pc, pc'; by left.
  - right. by destruct pc'.
  - intros id g b Hid Hb. pose proof (ex_room _ (ri_exclusion _ _ _ R) _ _ _ Hid Hb) as Hr.
    unfold room in *. by destruct pc, pc'.
Qed.

Lemma races_check o q q' gs h ws index r pc' k v view m :
  let s := mkSys q Idle gs h ws in
  occ_sync o = true → current_write_index q = Done (index, q) → loads q index = true →
  word_messages m !! k = Some (v, view) → (word_seen m ≤ k)%nat →
  check_loaded v index q = Done (r, q') →
  match r with
  | Ok _ => ∃ c, pc' = Checked index c
  | Err _ => ∃ waker, pc' = Rejected waker
  end →
  races_inv o s m →
  races_inv o (mkSys q' pc' gs h ws) (load_message (occ_load o) k m).
Proof.
  intros s Hsync Hidx Hl Hk Hseen Hc Hpc R. rewrite check_loaded_run in Hc by done.
  injection Hc as <- <-. pose proof (races_load _ _ _ _ _ _ _ _ _ Hsync Hk Hseen R) as R1.
  destruct (Z.land v (region_mask index) =? 0) eqn:Hz.
  - destruct Hpc as [c ->]. apply races_check_local; [|unfold loads; simpl; by rewrite Hz, andb_false_r|done].
    unfold current_write_index, gets in *. simpl. by injection Hidx as <-.
  - destruct Hpc as [wk ->]. exact (races_refusing o _ Idle (Rejected wk) _ _ _ _ eq_refl eq_refl R1).
Qed.

Lemma batch_at_update s s' id g g' :
  sys_guards s !! id = Some g → sys_guards s' = <[id := g']> (sys_guards s) →
  batch_of g' = batch_of g → ∀ id', batch_at s' id' = batch_at s id'.
Proof.
  intros Hid Hgs Hb id'. unfold batch_at. rewrite Hgs. destruct (decide (id' = id)) as [->|].
  - by rewrite fin_maps.lookup_insert_eq, Hid.
  - by rewrite fin_maps.lookup_insert_ne.
Qed.

Lemma batch_at_gone s s' id g :
  sys_guards s !! id = Some g → sys_guards s' = delete id (sys_guards s) →
  batch_of g = None → ∀ id', batch_at s' id' = batch_at s id'.
Proof.
  intros Hid Hgs Hb id'. unfold batch_at. rewrite Hgs. destruct (decide (id' = id)) as [->|].
  - by rewrite fin_maps.lookup_delete_eq, Hid.
  - by rewrite fin_maps.lookup_delete_ne.
Qed.

Lemma races_owner o c waker id s s' m :
  occ_sync o = true → owner_action c waker id s = Some s' →
  races_inv o s m → races_inv o s' (effect o (Owner c waker id) s s' m).
Proof.
  intros Hsync Hrun R. pose proof (owner_action_sound _ _ _ _ _ Hrun) as Hst.
  pose proof (ranges_inv_step _ _ Hst (ri_ranges _ _ _ R)) as I'.
  pose proof (exclusion_inv_step _ _ Hst (ri_ranges _ _ _ R) (ri_exclusion _ _ _ R)) as E'.
  destruct s as [q pc gs h ws]. destruct (inv_owner _ (ri_ranges _ _ _ R)) as (phase & _ & Hown).
  destruct pc; simpl in Hrun |- *; unfold owner_effect; simpl.
  - rewrite check_fresh_run in Hrun. destruct (loads q _) eqn:Hl.
    + destruct (ri_newest _ _ (ri_messages _ _ _ R)) as (v & Hlast). simpl in Hlast.
      rewrite last_lookup in Hlast. replace (pred _) with (length (word_messages m) - 1)%nat in Hlast by lia.
      destruct (ri_seen _ _ (ri_messages _ _ _ R)) as (v' & Hseen%lookup_lt_Some & _).
      destruct (check_loaded _ _ q) as [[r q']| |] eqn:Hc; [|done..].
      assert (∃ pc', s' = mkSys q' pc' gs h ws ∧ match r with
        | Ok _ => ∃ c, pc' = Checked (slot_index (sq_slot q)) c
        | Err _ => ∃ waker, pc' = Rejected waker end) as (pc' & -> & Hpc).
      { destruct r; simplify_eq; eexists; split; eauto. }
      eapply races_check; eauto. lia.
    + simplify_eq. by apply races_check_local.
  - destruct (write_cell _ _ _) as [[[] q']| |] eqn:Hw; simplify_eq.
    apply write_cell_frame in Hw as [_ ->]. destruct Hown as [Hi _].
    change (index = Z.of_nat (length h) mod N) in Hi. subst index.
    apply (races_touch o _ _ _ _ _ _ R I' E'); try done; unfold written, count; simpl; lia.
  - simplify_eq. by apply races_claim.
  - simplify_eq. rewrite same_phase_test in *. destruct (eqb _ _) eqn:Hp;
      (eapply races_frame; try done); unfold begun; simpl; by rewrite Hp.
  - destruct (gs !! id) eqn:Hid; [done|]. simplify_eq. by apply races_occupy.
  - simplify_eq. by eapply races_frame.
Qed.

Lemma races_guard o a s s' m :
  occ_sync o = true → run_action a s = Some s' → match a with Owner _ _ _ => False | _ => True end →
  races_inv o s m → races_inv o s' (effect o a s s' m).
Proof.
  intros Hsync Hrun Ha R. pose proof (run_action_sound _ _ _ Hrun) as Hst.
  pose proof (ranges_inv_step _ _ Hst (ri_ranges _ _ _ R)) as I'.
  pose proof (exclusion_inv_step _ _ Hst (ri_ranges _ _ _ R) (ri_exclusion _ _ _ R)) as E'.
  destruct s as [q pc gs h ws].
  destruct a as [|id|id c|id|id]; [done|..]; simpl in Hrun |- *; unfold guard_action in Hrun;
    simpl in Hrun; destruct (gs !! id) as [g|] eqn:Hid; try done; destruct g; try done.
  - simplify_eq. by eapply races_bound.
  - destruct (Z.ltb_spec current stop); [|done].
    destruct (write_cell _ _ _) as [[[] q']| |] eqn:Hw; simplify_eq.
    apply write_cell_frame in Hw as [_ ->]. unfold index_of. rewrite land_N in *.
    pose proof (inv_guards _ (ri_ranges _ _ _ R) _ _ Hid) as Hok. simpl in Hok.
    apply (races_touch o _ _ _ _ _ _ R I' E'); try done.
    + exists id, stop. unfold batch_at. simpl. rewrite Hid. simpl. split; [done|lia].
    + by eapply batch_at_update.
  - simplify_eq. apply (races_release o q _ pc gs _ h ws id range_start range_end start stop
      current m Hsync Hid); try done. destruct (_ =? _); [left; by eexists|by right].
  - assert (∀ q' gs' ws', inner q' = inner q → sq_occupancy q' = sq_occupancy q →
      sq_slot q' = sq_slot q → (gs' = gs ∨ gs' = delete id gs ∨ ∃ l, gs' = <[id := Waking l]> gs) →
      s' = mkSys q' pc gs' h ws' → races_inv o s' m) as Hframe.
    { intros q' gs' ws' Hi Hsq Hsl Hgs ->. eapply races_frame; try done; simpl.
      - by rewrite Hi.
      - unfold begun. simpl. by rewrite Hsl.
      - destruct Hgs as [-> |[-> |[l ->]]]; [done|by eapply batch_at_gone|by eapply batch_at_update]. }
    destruct (0 <? batch_limit); [destruct (stealer_steal _) as [[] d]|destruct (batch_limit =? 0)];
      simplify_eq; (eapply Hframe; [..|reflexivity]); try done; auto. right. right. by eexists.
Qed.

Lemma races_inv_step o (x x' : wsys (cell := cell) (W := W) (D := D)) :
  occ_sync o = true → wstep o x x' →
  races_inv o (w_sys x) (w_mem x) → races_inv o (w_sys x') (w_mem x').
Proof.
  intros Hsync Hst. destruct Hst; simpl; intros R.
  - destruct a; [by apply races_owner|by apply races_guard..].
  - by eapply races_check.
  - exact (races_refusing o _ (Rejected waker) Idle _ _ _ _ eq_refl eq_refl R).
  - unfold index_of. rewrite land_N.
    pose proof (inv_guards _ (ri_ranges _ _ _ R) _ _ H0) as Hok. simpl in Hok.
    eapply races_touch; try done; try apply R.
    exists id, e. unfold batch_at. rewrite H0. simpl. split; [done|lia].
Qed.

Lemma races_inv_initial o uninit :
  races_inv o (initial uninit : sys cell W D) initial_memory.
Proof.
  split; [apply ranges_inv_initial|apply exclusion_inv_initial|..].
  - split; try by eexists.
    + intros k w v _ [_ [= <- <-]]%list_lookup_singleton_Some r Hr. done.
    + intros k w v j b n _ _ (i & w' & [=]).
    + intros j b n (i & w' & [=]).
  - split; try (intros j; intros; exfalso; done).
    all: by intros j b n (i & w' & [=]).
  - split; [intros b j _|intros _ n j _|intros _ id b e n j _ _]; by intros (x & [=] & _).
Qed.

Lemma races_inv_reachable o uninit (x : wsys (cell := cell) (W := W) (D := D)) :
  occ_sync o = true → wreachable o uninit x → races_inv o (w_sys x) (w_mem x).
Proof.
  intros Hsync.
  apply (rtc_invariant (wstep o) (λ x, races_inv o (w_sys x) (w_mem x))
    (mkW (initial uninit) initial_memory) x); [|apply races_inv_initial].
  intros y z Hst. by apply races_inv_step.
Qed.
End preservation.
