(* ===== verification/Orderings.v ===== *)
(** Which accesses of cells are ordered by the atomic words: the theorems of the
    interleaving with memory orderings ([Races]).

    Released cells are always rewritten in order; the first task of a batch is always read
    in order; the tasks that join a batch are read in order exactly when the slot word
    releases and acquires, which in the source it does not. *)
From S2P Require Import Views Prelude Usize Helpers Occupancy Deque Queue Protocol Exclusion Schedule Safety Races.
Local Open Scope Z_scope.

Section ordered.
Context {C : QueueCfg} {HS : SafeCfg} {cell W D : Type} `{Deque W D}.
Implicit Types (s : sys cell W D) (m : memory).

(** What a race of a guard looks like: an access before its turn that it does not know. *)
Lemma guard_race o s m id rs re b e current n w :
  races_inv o s m → sys_guards s !! id = Some (Bounded rs re b e current) →
  current ≤ n < e → races m (Guarding b) (index_of n) w →
  ∃ j, before m j n ∧ j ∉ views m (Guarding b).
Proof.
  intros [I E _ A _] Hid Hn (j & x & Hj & Hi & _ & Hv). exists j. split; [|done].
  unfold index_of in Hi. rewrite land_N in Hi.
  pose proof (inv_guards _ I _ _ Hid) as Hok. simpl in Hok. pose proof (claimed_le _ I).
  assert (batch_at s id = Some (b, Some e)) as Hb by (unfold batch_at; by rewrite Hid).
  assert (live_batch s b) as Hlive by by do 2 eexists.
  destruct (live_batch_window _ _ I E Hlive) as (_ & _ & Hw). pose proof (room_nonneg s).
  destruct (ri_cells _ _ A _ _ Hj) as [Hc Hx].
  assert (ac_task x ≤ n) as Hle.
  { destruct (decide (ac_task x ≤ n)); [done|]. exfalso.
    assert (n + N ≤ ac_task x) by (apply lap_apart; [lia|congruence]).
    unfold written, room in *. destruct (ac_by x); [|lia]. destruct (sys_pc s); simpl in *; lia. }
  exists x. repeat split; [done..|]. destruct (decide (ac_task x = n)) as [Heq|]; [right|left; lia].
  destruct x as [[|b'] i n' w']; [done|]. simpl in *. subst n'. exfalso. apply Hv.
  assert (by_guard m j b' n) as Hby by by do 2 eexists.
  assert (b' = b) as -> by (apply (ri_apart _ _ A _ _ _ _ _ _ Hby Hb); simpl; lia).
  by eapply (ri_guard_own _ _ A).
Qed.

(** The owner knows all there is to know of the cell it is about to write. *)
Lemma owner_race_free o s m index c :
  races_inv o s m → sys_pc s = Checked index c → ¬ races m Owning index true.
Proof.
  intros [I E _ A _] Hpc (j & x & Hj & Hi & _ & Hv). apply Hv.
  destruct (inv_owner _ I) as (phase & _ & Hown).
  assert (index = count s mod N ∧ room s = 1) as [Hidx Hroom].
  { unfold owner_ok, room in *. rewrite Hpc in *. by destruct Hown. }
  assert (ac_task x < count s) as Hlt.
  { destruct (ri_cells _ _ A _ _ Hj) as [_ Hx]. pose proof (claimed_le _ I).
    unfold written in Hx. rewrite Hpc in Hx. simpl in Hx. destruct (ac_by x); lia. }
  destruct (ri_cells _ _ A _ _ Hj) as [Hc _].
  eapply (owner_knows s m j (count s) A); [lia|]. exists x. repeat split; [done|congruence|lia|by left].
Qed.
End ordered.

(** ** Runs *)
Section runs.
Context {C : QueueCfg} {cell W D : Type} `{Deque W D}.
Implicit Types (s : sys cell W D) (m : memory).

(** A schedule with its memory; loads are fresh. *)
Fixpoint run_weak (o : orderings) (l : list (action cell W)) (x : wsys) : option (wsys (D := D)) :=
  match l with
  | [] => Some x
  | a :: l =>
      match run_action a (w_sys x) with
      | Some s' => run_weak o l (mkW s' (effect o a (w_sys x) s' (w_mem x)))
      | None => None
      end
  end.

Lemma run_weak_sound o l x y : run_weak o l x = Some y → rtc (wstep o) x y.
Proof.
  revert x. induction l as [|a l IH]; simpl; intros [s m] Hl; [by simplify_eq|].
  simpl in Hl. destruct (run_action a s) as [s'|] eqn:E; [|done].
  eapply rtc_l; [by apply w_action|]. by apply IH.
Qed.

Lemma run_weak_reachable o uninit l x :
  run_weak o l (mkW (initial uninit) initial_memory) = Some x → wreachable o uninit x.
Proof. apply run_weak_sound. Qed.

(** Every interleaving of [Protocol] is one of these runs, with some memory. *)
Lemma reachable_wreachable `{Inhabited cell, Inhabited W} o uninit s :
  reachable uninit s → ∃ m, wreachable o uninit (mkW s m).
Proof.
  revert s. apply rtc_ind_r; [by exists initial_memory; apply rtc_refl|].
  intros s s' _ Hst [m Hm].
  destruct (step_run_action s s' Hst) as [[a Ha]|(q & gs & h & ws & waker & -> & ->)]; eexists.
  - eapply rtc_r; [exact Hm|]. by apply w_action.
  - eapply rtc_r; [exact Hm|]. apply w_give_up.
Qed.
End runs.

Definition weak_demo (o : orderings) (l : list (action (option Z) Z))
  : option (@wsys (option Z) Z (list_deque Z)) :=
  @run_weak demo_cfg _ _ _ _ o l (mkW (@initial demo_cfg _ _ _ _ None) initial_memory).

(** Push 10, which begins a batch; push 11, which joins it; bound the batch. *)
Definition joined_schedule : list (action (option Z) Z) :=
  push_beginning 10 0 ++ push_joining 11 ++ [Bound 0%nat].

(** Whether the access numbered [j], a write of cell [i], is unknown to [a]. *)
Definition unknown_write (m : memory) (a : agent) (i : Z) (j : nat) : bool :=
  match accesses m !! j with
  | Some x => bool_decide (ac_cell x = i) && ac_write x && bool_decide (j ∉ views m a)
  | None => false
  end.

Lemma unknown_write_races m a i j w : unknown_write m a i j = true → races m a i w.
Proof.
  unfold unknown_write. destruct (accesses m !! j) as [x|] eqn:Hj; [|done].
  intros [[Hi%bool_decide_eq_true Hw]%andb_prop Hv%bool_decide_eq_true]%andb_prop.
  exists j, x. rewrite Hw, orb_true_r. done.
Qed.

Lemma joined_race o :
  occ_sync o = true → slot_sync o = false →
  match weak_demo o joined_schedule with
  | Some x => sys_guards (w_sys x) !! 0%nat = Some (Bounded 0 2 0 2 0)
      ∧ unknown_write (w_mem x) (Guarding 0) 1 1 = true
  | None => False
  end.
Proof.
  destruct o as [a b c d e]. unfold occ_sync, slot_sync. simpl. intros Hocc Hslot.
  destruct a, b, c; try discriminate Hslot; try discriminate Hocc; vm_compute; auto.
Qed.

Definition weak_state (o : orderings) (l : list (action (option Z) Z))
  : @wsys (option Z) Z (list_deque Z) :=
  default (mkW (@initial demo_cfg _ _ _ _ None) initial_memory) (weak_demo o l).

Lemma weak_state_reachable o l :
  (if weak_demo o l is Some _ then true else false) = true →
  wreachable (C := demo_cfg) o None (mkW (w_sys (weak_state o l)) (w_mem (weak_state o l))).
Proof.
  unfold weak_state. destruct (weak_demo o l) as [[s m]|] eqn:Hx; [intros _|done].
  by apply (run_weak_reachable (C := demo_cfg)) in Hx.
Defined.

(** A lap: 64 tasks in one batch, bounded, two of them taken, released; then the region
    check of the 65th push, which finds its copy of the word stale and loads. *)
Definition lap_schedule : list (action (option Z) Z) :=
  full_schedule ++ [Bound 0%nat; Consume 0%nat None; Consume 0%nat None; Release 0%nat;
                    Owner (Some 64) 64 0%nat].

Definition synchronised : orderings := mkOrderings Views.Release Acquire AcqRel AcqRel Acquire.

(** C15. With the occupancy word as the source orders it, whatever the orderings of the
    slot: when the owner writes a cell, every earlier access of that cell, by whichever
    guard, happened before. Stale loads of the occupancy word do not change that. *)
Theorem owner_writes_ordered {C : QueueCfg} {HS : SafeCfg} {cell W D : Type} `{Deque W D}
  (o : orderings) (uninit : cell) (s : sys cell W D) m index c :
  occ_sync o = true → wreachable o uninit (mkW s m) → sys_pc s = Checked index c →
  ¬ races m Owning index true.
Proof. intros Hsync Hr. by apply (owner_race_free o s), (races_inv_reachable _ _ _ Hsync Hr). Qed.

Lemma owner_writes_ordered_witness :
  ¬ races (w_mem (weak_state source_orderings lap_schedule)) Owning 0 true.
Proof.
  refine (owner_writes_ordered (C := demo_cfg) (HS := demo_safe) source_orderings None
    (w_sys (weak_state source_orderings lap_schedule)) _ 0 (Some 64) eq_refl
    (weak_state_reachable _ lap_schedule _) _); [by vm_compute|by vm_compute].
Defined.

(** The first task of a batch, whatever the orderings of the slot: the guard was handed
    out after it was written, so every access of its cell by its guard is ordered after all
    conflicting ones. *)
Theorem first_task_ordered {C : QueueCfg} {HS : SafeCfg} {cell W D : Type} `{Deque W D}
  (o : orderings) (uninit : cell) (s : sys cell W D) m id rs re b e w :
  occ_sync o = true → wreachable o uninit (mkW s m) →
  sys_guards s !! id = Some (Bounded rs re b e b) → ¬ races m (Guarding b) (index_of b) w.
Proof.
  intros Hsync Hr Hid Hrace. pose proof (races_inv_reachable _ _ _ Hsync Hr) as R. simpl in R.
  pose proof (inv_guards _ (ri_ranges _ _ _ R) _ _ Hid) as Hok. simpl in Hok.
  destruct (guard_race o s m id rs re b e b b w R Hid) as (j & Hj & Hv); [lia|done|].
  apply Hv. apply (ri_first _ _ _ (ri_known _ _ _ R)); [|done].
  exists id, (Some e). unfold batch_at. by rewrite Hid.
Qed.

Lemma first_task_ordered_witness :
  ¬ races (w_mem (weak_state source_orderings joined_schedule)) (Guarding 0)
    (index_of (C := demo_cfg) 0) true.
Proof.
  refine (first_task_ordered (C := demo_cfg) (HS := demo_safe) source_orderings None
    (w_sys (weak_state source_orderings joined_schedule)) _ 0%nat 0 2 0 2 true eq_refl
    (weak_state_reachable _ joined_schedule _) _); [by vm_compute|by vm_compute].
Defined.

(** With a releasing [fetch_add] and an acquiring [fetch_xor] on the slot word, every
    access of a cell by the owner or a guard would be ordered after all conflicting ones:
    the queue would be free of data races. *)
Theorem synchronised_slot_no_races {C : QueueCfg} {HS : SafeCfg} {cell W D : Type} `{Deque W D}
  (o : orderings) (uninit : cell) (s : sys cell W D) m a n index w :
  occ_sync o = true → slot_sync o = true → wreachable o uninit (mkW s m) →
  next_access s a n index w → ¬ races m a index w.
Proof.
  intros Hocc Hslot Hr Hnext Hrace. pose proof (races_inv_reachable _ _ _ Hocc Hr) as R. simpl in R.
  destruct Hnext as [index c Hpc|id rs re b e current n w Hid Hn].
  - by eapply owner_race_free.
  - destruct (guard_race o s m id rs re b e current n w R Hid Hn Hrace) as (j & Hj & Hv).
    pose proof (inv_guards _ (ri_ranges _ _ _ R) _ _ Hid) as Hok. simpl in Hok.
    apply Hv. apply (ri_bounded _ _ _ (ri_known _ _ _ R) Hslot id b e n); [|lia|done].
    unfold batch_at. by rewrite Hid.
Qed.

Lemma synchronised_slot_no_races_witness :
  ¬ races (w_mem (weak_state synchronised joined_schedule)) (Guarding 0)
    (index_of (C := demo_cfg) 1) true.
Proof.
  refine (synchronised_slot_no_races (C := demo_cfg) (HS := demo_safe) synchronised None
    (w_sys (weak_state synchronised joined_schedule)) _ _ 1 _ _ eq_refl eq_refl
    (weak_state_reachable _ joined_schedule _) _); [by vm_compute|].
  apply (next_take (C := demo_cfg) _ 0%nat 0 2 0 2 0); [by vm_compute|lia].
Defined.

(** C16. With any other orderings of the slot there is a data race. Push 10, which begins a
    batch, push 11, which joins it, bound the batch: the guard is about to read the cell
    of 11, written by the owner without anything that orders the two. *)
Theorem relaxed_slot_races (o : orderings) :
  occ_sync o = true → slot_sync o = false →
  ∃ s m, wreachable (C := demo_cfg) (D := list_deque Z) o (None : option Z) (mkW s m)
    ∧ next_access (C := demo_cfg) s (Guarding 0) 1 1 false ∧ races m (Guarding 0) 1 false.
Proof.
  intros Hocc Hslot. pose proof (joined_race o Hocc Hslot) as Hrun.
  destruct (weak_demo o joined_schedule) as [[s m]|] eqn:Hx; [|done]. destruct Hrun as [Hg Hw].
  exists s, m. split; [by apply (run_weak_reachable (C := demo_cfg)) in Hx|]. split.
  - by apply (next_take (C := demo_cfg) s 0%nat 0 2 0 2 0 1 false Hg).
  - by apply (unknown_write_races _ _ _ 1%nat).
Qed.

(** The orderings of the source. *)
Lemma relaxed_slot_races_witness :
  ∃ s m, wreachable (C := demo_cfg) (D := list_deque Z) source_orderings (None : option Z) (mkW s m)
    ∧ next_access (C := demo_cfg) s (Guarding 0) 1 1 false ∧ races m (Guarding 0) 1 false.
Proof. by apply (relaxed_slot_races source_orderings). Defined.

(** A stale load is harmless: whichever message the owner reads, a check that passes
    means that no live batch starts in the region it enters. *)
Theorem stale_check_is_safe {C : QueueCfg} {HS : SafeCfg} {cell W D : Type} `{Deque W D}
  (o : orderings) (uninit : cell) (s : sys cell W D) m k v view index q' :
  occ_sync o = true → wreachable o uninit (mkW s m) → sys_pc s = Idle →
  current_write_index (sys_queue s) = Done (index, sys_queue s) →
  loads (sys_queue s) index = true → word_messages m !! k = Some (v, view) →
  (word_seen m ≤ k)%nat → check_loaded v index (sys_queue s) = Done (Ok (), q') →
  live_in (region_of (count s)) (sys_guards s) = 0.
Proof.
  intros Hocc Hr Hpc Hidx Hl Hk Hseen Hc.
  pose proof (races_inv_reachable _ _ _ Hocc Hr) as [I E M _ _]. simpl in *.
  destruct (inv_owner _ I) as (phase & _ & Hown). unfold owner_ok in Hown. rewrite Hpc in Hown.
  destruct Hown as (_ & lp & Hslot & _). rewrite (current_write_index_run _ _ _ Hslot) in Hidx.
  injection Hidx as <-. rewrite check_loaded_run in Hc by done.
  pose proof (region_of_range (count s)) as Hreg.
  rewrite region_mask_lane, lane_mask_test in Hc by lia.
  destruct (Z.eqb_spec (lane (region_of (count s)) v) 0) as [Hz|]; [|done].
  pose proof (ri_stale _ _ M k v view Hseen Hk _ Hreg). rewrite <- (ex_lanes _ E _ Hreg).
  pose proof (lane_bounds (region_of (count s)) (occupancy (inner (sys_queue s)))). lia.
Qed.

(** The check of the 65th push again, before it loads. *)
Lemma stale_check_is_safe_witness :
  live_in (C := demo_cfg) 0 (sys_guards (w_sys (weak_state source_orderings
    (full_schedule ++ [Bound 0%nat; Release 0%nat])))) = 0.
Proof.
  refine (stale_check_is_safe (C := demo_cfg) (HS := demo_safe) source_orderings None
    (w_sys (weak_state source_orderings (full_schedule ++ [Bound 0%nat; Release 0%nat])))
    _ 2%nat 0 _ 0 _ eq_refl (weak_state_reachable _ _ _) _ _ _ _ _ _).
  all: first [by vm_compute|vm_compute; lia].
Defined.
