(* ===== verification/Spec.v ===== *)
(** The contract of the queue, without words, phases, regions or cells, and the proof
    that the interleaving model keeps it.

    An abstract queue is the list of all tasks ever accepted and the live batches, each a
    range of that list. Its steps are what a user of the crate sees: a task joins the one
    open batch or begins a new one, a task is refused while some batch is live, a batch is
    closed, its tasks are taken in order, it is released. *)
From S2P Require Import Prelude Usize Helpers Occupancy Deque Queue Protocol Exclusion Schedule Safety.
Local Open Scope Z_scope.

(** A live batch: its first task, the one after its last once it is closed, and the next
    one to be taken. *)
Record batch : Type := mkBatch { b_start : Z; b_stop : option Z; b_next : Z }.

Record spec (cell : Type) : Type := mkSpec {
  sp_tasks : list cell;
  sp_live : gmap nat batch
}.
Arguments mkSpec {_} _ _.
Arguments sp_tasks {_} _.
Arguments sp_live {_} _.

Inductive label (cell : Type) : Type :=
| LJoin (c : cell)
| LBegin (id : nat) (c : cell)
| LRefuse
| LClose (id : nat)
| LTake (id : nat) (c : cell)
| LRelease (id : nat).
Arguments LJoin {_} _.
Arguments LBegin {_} _ _.
Arguments LRefuse {_}.
Arguments LClose {_} _.
Arguments LTake {_} _ _.
Arguments LRelease {_} _.

Section spec.
Context {cell : Type}.
Implicit Types (ts : list cell) (live : gmap nat batch).

Definition open_in live : Prop := ∃ id b n, live !! id = Some (mkBatch b None n).

Inductive spec_step : spec cell → label cell → spec cell → Prop :=
| spec_join ts live c :
    open_in live → spec_step (mkSpec ts live) (LJoin c) (mkSpec (ts ++ [c]) live)
| spec_begin ts live id c :
    ¬ open_in live → live !! id = None →
    let n := Z.of_nat (length ts) in
    spec_step (mkSpec ts live) (LBegin id c)
      (mkSpec (ts ++ [c]) (<[id := mkBatch n None n]> live))
| spec_refuse ts live :
    live ≠ ∅ → spec_step (mkSpec ts live) LRefuse (mkSpec ts live)
| spec_close ts live id b n :
    live !! id = Some (mkBatch b None n) →
    spec_step (mkSpec ts live) (LClose id)
      (mkSpec ts (<[id := mkBatch b (Some (Z.of_nat (length ts))) n]> live))
| spec_take ts live id b e n c :
    live !! id = Some (mkBatch b (Some e) n) → n < e → ts !! Z.to_nat n = Some c →
    spec_step (mkSpec ts live) (LTake id c)
      (mkSpec ts (<[id := mkBatch b (Some e) (n + 1)]> live))
| spec_release ts live id b e n :
    live !! id = Some (mkBatch b (Some e) n) →
    spec_step (mkSpec ts live) (LRelease id) (mkSpec ts (delete id live)).
End spec.

Section refinement.
Context {C : QueueCfg} {HS : SafeCfg} {cell W D : Type} `{Deque W D}.
Implicit Types (q : StackQueue cell D) (s : sys cell W D) (gs : gmap nat guard)
  (pc : owner_pc cell W) (h : list cell) (ws : list (observation W)).

Definition abs_guard (g : guard) : option batch :=
  match g with
  | Unbounded _ start => Some (mkBatch start None start)
  | Bounded _ _ start stop current => Some (mkBatch start (Some stop) current)
  | Waking _ => None
  end.

(** The accepted tasks are those whose batch has a guard. *)
Definition abs s : spec cell :=
  mkSpec (take (Z.to_nat (claimed s)) (sys_history s)) (omap abs_guard (sys_guards s)).

(** What a step of the model shows of the label it performs. *)
Definition shows s (l : label cell) s' : Prop :=
  match l with
  | LJoin c => ∃ index, sys_pc s = Written index c
  | LBegin id c => (∃ index base, sys_pc s = Occupying index base) ∧ last (sys_history s) = Some c
  | LRefuse => sys_pc s = Idle ∧ ∃ waker, sys_pc s' = Rejected waker
  | LClose id => ∃ rs re b e n, sys_guards s' !! id = Some (Bounded rs re b e n)
  | LTake id c => ∃ rs re b e n, sys_guards s !! id = Some (Bounded rs re b e n)
      ∧ buffer (inner (sys_queue s)) !! Z.to_nat (n mod N) = Some c
  | LRelease id => ∃ rs re b e n, sys_guards s !! id = Some (Bounded rs re b e n)
      ∧ occupancy (inner (sys_queue s'))
          = wrapping_sub usize_bits (occupancy (inner (sys_queue s))) (one_shifted (b mod N))
  end.

(** A step that shows nothing: no change, and no refusal either. *)
Definition silent s s' : Prop :=
  abs s' = abs s ∧ (sys_pc s = Idle → ∀ waker, sys_pc s' ≠ Rejected waker).

Lemma abs_open s : open_in (sp_live (abs s)) ↔ has_open s.
Proof.
  unfold abs, has_open. simpl. split.
  - intros (id & b & n & Hid). rewrite lookup_omap in Hid.
    destruct (sys_guards s !! id) as [[]|] eqn:Hg; simplify_eq/=. eauto.
  - intros (id & w & b & Hid). exists id, b, b. by rewrite lookup_omap, Hid.
Qed.

Lemma abs_lookup gs id g : gs !! id = Some g → omap abs_guard gs !! id = abs_guard g.
Proof. intros Hid. by rewrite lookup_omap, Hid. Qed.

Lemma claimed_not_begun s : begun s = None → claimed s = count s.
Proof. intros Hb. unfold claimed. by rewrite Hb. Qed.

Lemma take_count s : take (Z.to_nat (count s)) (sys_history s) = sys_history s.
Proof. apply take_ge. unfold count. lia. Qed.

(** The owner is refused only while a batch is live. *)
Lemma refused_live s index q' :
  ranges_inv s → exclusion_inv s → sys_pc s = Idle →
  current_write_index (sys_queue s) = Done (index, sys_queue s) →
  check_write_index index (sys_queue s) = Done (Err queue_full, q') →
  sp_live (abs s) ≠ ∅.
Proof.
  intros I E Hpc Hidx Hc. destruct (inv_owner _ I) as (phase & _ & Hown).
  unfold owner_ok in Hown. rewrite Hpc in Hown. destruct Hown as (_ & lp & Hl & _).
  rewrite (current_write_index_run _ _ _ Hl) in Hidx. injection Hidx as <-.
  rewrite check_write_index_run, check_regional_occupancy_run in Hc.
  destruct (at_region_start _); [|done]. destruct (_ =? 0); [done|].
  rewrite region_mask_lane, lane_mask_test in Hc by (pose proof (region_of_range (count s)); lia).
  pose proof (region_of_range (count s)) as Hr. rewrite (ex_lanes _ E _ Hr) in Hc.
  destruct (Z.eqb_spec (live_in (region_of (count s)) (sys_guards s)) 0) as [|Hne]; [done|].
  intros Hemp. apply Hne. unfold live_in.
  enough (filter (λ kv : nat * guard, starts_in (region_of (count s)) kv.2 = true)
            (sys_guards s) = ∅) as -> by done.
  apply map_empty. intros id. apply map_lookup_filter_None. right. intros g Hid Hs.
  apply (f_equal (lookup id)) in Hemp. simpl in Hemp.
  rewrite (abs_lookup _ _ _ Hid), lookup_empty in Hemp. by destruct g.
Qed.

Lemma silent_same s s' :
  sys_guards s' = sys_guards s → sys_history s' = sys_history s → begun s' = begun s →
  (sys_pc s = Idle → ∀ waker, sys_pc s' ≠ Rejected waker) → silent s s'.
Proof.
  intros Hg Hh Hb Hp. split; [|done]. unfold abs, claimed, count. by rewrite Hg, Hh, Hb.
Qed.

Lemma take_last_claim h (c : cell) :
  take (Z.to_nat (Z.of_nat (length (h ++ [c])) - 1)) (h ++ [c]) = h.
Proof.
  rewrite length_app. simpl. replace (Z.to_nat _) with (length h) by lia. apply take_app_length.
Qed.

(** The task of a claim joins the open batch, or waits for its batch to be handed out. *)
Lemma claim_refines q q' gs h ws index c base_slot :
  let s := mkSys q (Written index c) gs h ws in
  let s' := mkSys q' (Claimed index base_slot) gs (h ++ [c]) ws in
  ranges_inv s → fetch_add_slot q = Done (base_slot, q') →
  silent s s' ∨ (shows s (LJoin c) s' ∧ spec_step (abs s) (LJoin c) (abs s')).
Proof.
  intros s s' I Hf. destruct (inv_owner _ I) as (phase & Hs & _ & lp & Hl & Ho).
  injection Hf as <- <-. assert (claimed s = count s) as Hcl by by apply claimed_not_begun.
  assert (abs s = mkSpec h (omap abs_guard gs)) as Ha
    by (unfold abs; by rewrite Hcl, take_count).
  assert (begun s' = if eqb phase lp then None else Some (count s' - 1)) as Hb.
  { unfold begun. simpl in *. by rewrite Hs, Hl, !slot_word_bit0. }
  destruct (eqb phase lp) eqn:Hp.
  - right. split; [by eexists|]. apply claimed_not_begun in Hb. rewrite Ha. unfold abs.
    rewrite Hb, take_count. apply spec_join. apply (abs_open s), Ho. by apply eqb_prop.
  - left. split; [|done]. rewrite Ha. unfold abs, claimed. rewrite Hb. unfold count. cbn.
    by rewrite take_last_claim.
Qed.

Lemma occupy_refines q q' gs h ws index base_slot id :
  let s := mkSys q (Occupying index base_slot) gs h ws in
  let n := Z.of_nat (length h) - 1 in
  let s' := mkSys q' Idle (<[id := Unbounded base_slot n]> gs) h (ws ++ [Began n]) in
  ranges_inv s → gs !! id = None →
  ∃ c, shows s (LBegin id c) s' ∧ spec_step (abs s) (LBegin id c) (abs s').
Proof.
  intros s n s' I Hid. destruct (inv_owner _ I) as (phase & _ & Hpos & _ & _ & _ & Hno).
  destruct (exists_last (l := h)) as (ts & c & Hh); [intros ->; unfold count in Hpos; simpl in *; lia|].
  exists c. split; [split; [by eexists _, _|simpl; by rewrite Hh, last_snoc]|].
  assert (n = Z.of_nat (length ts)) as Hn by (unfold n; rewrite Hh, length_app; simpl; lia).
  assert (abs s = mkSpec ts (omap abs_guard gs)) as ->.
  { unfold abs, claimed, begun, count. cbn. rewrite Hh at 1. by rewrite Hh, take_last_claim. }
  assert (abs s' = mkSpec (ts ++ [c]) (<[id := mkBatch n None n]> (omap abs_guard gs))) as ->.
  { unfold abs. rewrite claimed_not_begun, take_count by done. simpl.
    f_equal; [exact Hh|]. apply (fin_maps.omap_insert abs_guard gs id (Unbounded base_slot n)). }
  rewrite Hn. apply spec_begin; [|by rewrite lookup_omap, Hid].
  intros Ho. apply Hno, (abs_open s). exact Ho.
Qed.

(** Steps of a guard that change its batch to [b'], and nothing else of the abstraction. *)
Lemma guard_step_abs s q' id g' ws' :
  let s' := mkSys q' (sys_pc s) (<[id := g']> (sys_guards s)) (sys_history s) ws' in
  begun s' = begun s →
  abs s' = mkSpec (sp_tasks (abs s))
    (match abs_guard g' with
     | Some b => <[id := b]> (sp_live (abs s))
     | None => delete id (sp_live (abs s))
     end).
Proof.
  intros s' Hb. unfold abs, claimed, count. rewrite Hb. simpl. f_equal.
  rewrite (fin_maps.omap_insert abs_guard (sys_guards s) id g'). by destruct (abs_guard g').
Qed.

Lemma guard_gone_abs s q' id ws' :
  let s' := mkSys q' (sys_pc s) (delete id (sys_guards s)) (sys_history s) ws' in
  begun s' = begun s →
  abs s' = mkSpec (sp_tasks (abs s)) (delete id (sp_live (abs s))).
Proof.
  intros s' Hb. unfold abs, claimed, count. rewrite Hb. simpl. f_equal.
  apply (fin_maps.omap_delete abs_guard).
Qed.

(** Only the phase bit and the local slot matter to what has begun. *)
Lemma begun_frame s q' gs ws :
  sq_slot q' = sq_slot (sys_queue s) →
  begun (mkSys q' (sys_pc s) gs (sys_history s) ws) = begun s.
Proof. intros Hs. unfold begun, count. simpl. by rewrite Hs. Qed.

(** A guard that is only waking owners carries no batch any more. *)
Lemma waking_silent s q' id limit gs' ws' :
  sys_guards s !! id = Some (Waking limit) → sq_slot q' = sq_slot (sys_queue s) →
  gs' = delete id (sys_guards s) ∨ (∃ l, gs' = <[id := Waking l]> (sys_guards s)) →
  silent s (mkSys q' (sys_pc s) gs' (sys_history s) ws').
Proof.
  intros Hid Hs Hgs. split; [|by simpl; intros ->].
  assert (delete id (sp_live (abs s)) = sp_live (abs s)) as Hd.
  { apply delete_id. simpl. by rewrite (abs_lookup _ _ _ Hid). }
  destruct Hgs as [->|[l ->]].
  - rewrite guard_gone_abs by by apply begun_frame. rewrite Hd. by destruct (abs s).
  - rewrite guard_step_abs by by apply begun_frame. simpl abs_guard. cbv iota. rewrite Hd.
    by destruct (abs s).
Qed.

(** Closing ends the batch at the number of tasks accepted so far. *)
Lemma bound_refines q q' pc gs h ws id base_slot start rs re :
  let s := mkSys q pc gs h ws in
  let s' := mkSys q' pc (<[id := Bounded rs re start (Z.of_nat (length h)) start]> gs) h ws in
  ranges_inv s → gs !! id = Some (Unbounded base_slot start) →
  sq_slot q' = sq_slot q →
  shows s (LClose id) s' ∧ spec_step (abs s) (LClose id) (abs s').
Proof.
  intros s s' I Hid Hs. split.
  { exists rs, re, start, (Z.of_nat (length h)), start. simpl. apply fin_maps.lookup_insert_eq. }
  destruct (open_claimed s I) as [_ Hcl]; [by do 3 eexists|].
  unfold s'. rewrite (guard_step_abs s) by by apply begun_frame. simpl abs_guard. cbv iota.
  assert (abs s = mkSpec h (omap abs_guard gs)) as -> by (unfold abs; by rewrite Hcl, take_count).
  apply spec_close. exact (abs_lookup _ _ _ Hid).
Qed.

(** The cell a guard reads holds the task the contract hands out. *)
Lemma consume_refines q q' pc gs h ws id rs re b e n :
  let s := mkSys q pc gs h ws in
  let s' := mkSys q' pc (<[id := Bounded rs re b e (n + 1)]> gs) h ws in
  ranges_inv s → exclusion_inv s → gs !! id = Some (Bounded rs re b e n) → n < e →
  sq_slot q' = sq_slot q →
  ∃ c, shows s (LTake id c) s' ∧ spec_step (abs s) (LTake id c) (abs s').
Proof.
  intros s s' I E Hid Hlt Hs.
  pose proof (inv_guards _ I _ _ Hid) as (Hb & He & Hn & _). 
  destruct (inv_owner _ I) as (phase & _ & Hown). pose proof (claimed_le_count _ _ Hown) as Hcl.
  pose proof (ex_contents _ E _ _ n e n Hid eq_refl ltac:(lia)) as Hc.
  destruct (lookup_lt_is_Some_2 h (Z.to_nat n)) as [c Ht].
  { unfold count in Hcl. simpl in Hcl. lia. }
  unfold cell_at, task_at in Hc. simpl in Hc. rewrite Ht in Hc.
  exists c. split; [by exists rs, re, b, e, n|].
  unfold s'. rewrite (guard_step_abs s) by by apply begun_frame. simpl abs_guard. cbv iota.
  apply spec_take; [exact (abs_lookup _ _ _ Hid)|done|].
  simpl. rewrite lookup_take_lt by lia. exact Ht.
Qed.

(** Releasing gives the batch's count of its region back. *)
Lemma release_refines q q' pc gs h ws id rs re b e n prev :
  let one := one_shifted (Z.land rs (wrapping_sub usize_bits N 1)) in
  let s := mkSys q pc gs h ws in
  let s' := mkSys q' pc
    (if prev =? one then <[id := Waking region_size]> gs else delete id gs) h ws in
  ranges_inv s → gs !! id = Some (Bounded rs re b e n) →
  fetch_sub_occupancy one q = Done (prev, q') →
  shows s (LRelease id) s' ∧ spec_step (abs s) (LRelease id) (abs s').
Proof.
  intros one s s' I Hid Hf. injection Hf as _ Hq.
  pose proof (inv_guards _ I _ _ Hid) as (_ & _ & _ & Hrs & _). split.
  { exists rs, re, b, e, n. split; [done|]. simpl. rewrite <- Hq. simpl. unfold one.
    by rewrite land_N, Hrs, mod_counter_mod_N. }
  assert (sq_slot q' = sq_slot q) as Hs by by rewrite <- Hq.
  assert (abs s' = mkSpec (sp_tasks (abs s)) (delete id (sp_live (abs s)))) as ->.
  { unfold s'. destruct (_ =? _).
    - rewrite (guard_step_abs s) by by apply begun_frame. done.
    - by rewrite (guard_gone_abs s) by by apply begun_frame. }
  apply (spec_release _ _ _ b e n). exact (abs_lookup _ _ _ Hid).
Qed.

(** Replacing the local slot decides nothing that the claim had not decided. *)
Lemma begun_join q q' gs h ws index base_slot :
  Z.land (Z.lxor base_slot (sq_slot q)) PHASE = 0 →
  begun (mkSys q' Idle gs h ws) = begun (mkSys q (Claimed index base_slot) gs h ws).
Proof. intros Hp%Z.eqb_eq. rewrite same_phase_test in Hp. unfold begun. simpl. by rewrite Hp. Qed.

Lemma begun_begin q q' gs h ws index base_slot :
  Z.land (Z.lxor base_slot (sq_slot q)) PHASE ≠ 0 →
  begun (mkSys q' (Occupying index base_slot) gs h ws)
    = begun (mkSys q (Claimed index base_slot) gs h ws).
Proof. intros Hp%Z.eqb_neq. rewrite same_phase_test in Hp. unfold begun. simpl. by rewrite Hp. Qed.
End refinement.

(** C5. The interleaving model implements the contract: an empty queue abstracts to
    no task and no batch, and every atomic step of the owner or of a guard, in any reachable
    state, is either invisible or exactly one step of the contract, with the data the
    machine shows for it: the cell read is the task due, the word given back is the batch's,
    a refusal happens only while a batch is live. *)
Theorem protocol_refines_spec {C : QueueCfg} {HS : SafeCfg} {cell W D : Type} `{Deque W D}
  (uninit : cell) (s s' : sys cell W D) :
  abs (initial uninit : sys cell W D) = mkSpec [] ∅
  ∧ (reachable uninit s → step s s' →
     silent s s' ∨ ∃ l, shows s l s' ∧ spec_step (abs s) l (abs s')).
Proof.
  split; [done|]. intros [I E]%exclusion_inv_reachable Hst. destruct Hst.
  - left. apply silent_same; try done. 
  - right. exists LRefuse. split; [by split; [|eexists]|]. 
    assert (abs (mkSys q' (Rejected waker) gs h ws) = abs (mkSys q Idle gs h ws)) as -> by done.
    pose proof (refused_live _ _ _ I E eq_refl H0 H1) as Hl. destruct (abs _). by apply spec_refuse.
  - left. by apply silent_same.
  - left. by apply silent_same.
  - left. by apply silent_same.
  - destruct (claim_refines q q' gs h ws index c base_slot I H0) as [|]; eauto.
  - left. injection H0 as <- <-. apply silent_same; try done. by eapply begun_join.
  - left. injection H0 as <- <-. apply silent_same; try done. by eapply begun_begin.
  - right. destruct (occupy_refines q q' gs h ws index base_slot id I H1) as (c & ?). eauto.
  - right. exists (LClose id).
    injection H1 as <- <-. by eapply (bound_refines q _ pc gs h ws id base_slot start).
  - right. apply write_cell_frame in H2 as [_ ->].
    destruct (consume_refines q (set_buffer (<[Z.to_nat (Z.land current
      (wrapping_sub usize_bits N 1)) := c]> (buffer (inner q))) q) pc gs h ws id rs re start stop
      current I E H0 H1 eq_refl) as (c' & ?). eauto.
  - right. exists (LRelease id).
    exact (release_refines q q' pc gs h ws id rs re start stop current prev I H0 H1).
  - left. eapply (waking_silent (mkSys q pc gs h ws)); eauto.
  - left. apply silent_same; try done. by simpl; intros ->.
  - left. eapply (waking_silent (mkSys q pc gs h ws)); eauto.
  - left. eapply (waking_silent (mkSys q pc gs h ws)); eauto.
Qed.

Lemma protocol_refines_spec_witness :
  let s := demo_state in
  let s' := default demo_state (@run_action demo_cfg _ _ _ _ (Consume 0%nat None) demo_state) in
  silent s s'
  ∨ ∃ l, shows (C := demo_cfg) s l s' ∧ spec_step (abs s) l (abs s').
Proof.
  apply (protocol_refines_spec (C := demo_cfg) None demo_state); [exact demo_reachable|].
  apply (run_action_sound (C := demo_cfg) (Consume 0%nat None)). by vm_compute.
Defined.

(** In that state the contract has three tasks, a closed batch of two and an open one; the
    step of the witness hands out the task [Some 10] and leaves one in the batch. *)
Example demo_abs :
  let s' := default demo_state (@run_action demo_cfg _ _ _ _ (Consume 0%nat None) demo_state) in
  abs demo_state
    = mkSpec [Some 10; Some 11; Some 12]
        (<[1%nat := mkBatch 2 None 2]> {[0%nat := mkBatch 0 (Some 2) 0]})
  ∧ shows (C := demo_cfg) demo_state (LTake 0%nat (Some 10)) s'
  ∧ sp_live (abs s') !! 0%nat = Some (mkBatch 0 (Some 2) 1).
Proof. split; [by vm_compute|]. split; [by exists 0, 2, 0, 2, 0|by vm_compute]. Qed.
