(* ===== verification/TaskRef.v ===== *)
(** [task.rs], the cells and receivers of a [TaskQueue]: [TaskRef] in the buffer of the
    queue, [Receiver] pinned inside a [BatchedTask], and the word of flags through
    which a resolver and the owner of the future agree who touches the value last.

    A [&TaskRef] is the index of its cell; a [*const Receiver] is the address of the
    [BatchedTask] that holds it, a key of the store [futures] of live futures. *)
From S2P Require Import Prelude Usize Helpers Deque Queue Ranges.
Local Open Scope Z_scope.

Definition SETTING_VALUE : Z := Z.shiftl 1 0.
Definition VALUE_SET : Z := Z.shiftl 1 1.
Definition RX_DROPPED : Z := Z.shiftl 1 2.

Notation addr := nat (only parsing).

Record TaskRef (T : Type) : Type := mkTaskRef {
  state : Z;
  rx : option addr;
  task : option T
}.
Arguments mkTaskRef {_} _ _ _.
Arguments state {_} _.
Arguments rx {_} _.
Arguments task {_} _.

Record Receiver (V W : Type) : Type := mkReceiver {
  rx_state : Z;
  value : option V;
  waker : W
}.
Arguments mkReceiver {_ _} _ _ _.
Arguments rx_state {_ _} _.
Arguments value {_ _} _.
Arguments waker {_ _} _.

(** [State], the contents of a [BatchedTask]. *)
Inductive State (T V W : Type) : Type :=
| Unbatched (t : T)
| Batched (r : Receiver V W)
| Received.
Arguments Unbatched {_ _ _} _.
Arguments Batched {_ _ _} _.
Arguments Received {_ _ _}.

Inductive Poll (A : Type) : Type :=
| Ready (a : A)
| Pending.
Arguments Ready {_} _.
Arguments Pending {_}.

(** [TaskRef::new_uninit] and [Receiver::new]. *)
Definition new_uninit {T : Type} : TaskRef T := mkTaskRef 0 None None.
Definition new_receiver {V W : Type} (state : Z) (waker : W) : Receiver V W :=
  mkReceiver state None waker.

(** The futures in memory, by the address they are pinned at. *)
Abbreviation futures T V W := (gmap addr (State T V W)).

Section task_ref.
Context {C : QueueCfg} {T V W D : Type} `{Deque W D} `{NeedsDrop T, NeedsDrop V}.

(** Values that can be dropped here: tasks and results. *)
Abbreviation task_world := (world (TaskRef T) D (futures T V W) (event W (T + V) Z)).
Abbreviation op A := (M task_world A).

(** [drop(task)] and [drop(value)]: an event when the type has a destructor. *)
Definition drop_task (t : T) : op unit :=
  if needs_drop (T := T) then emit (Dropped (inl t)) else mret ().
Definition drop_result (v : V) : op unit :=
  if needs_drop (T := V) then emit (Dropped (inr v)) else mret ().

(** Change the cell at an index, through its interior mutability. *)
Definition update_cell (i : Z) (f : TaskRef T → TaskRef T) : op unit :=
  on_queue (c ← read_cell i; write_cell i (f c)).

Definition set_state (s : Z) (c : TaskRef T) : TaskRef T := mkTaskRef s (rx c) (task c).
Definition with_rx (a : addr) (c : TaskRef T) : TaskRef T := mkTaskRef (state c) (Some a) (task c).
Definition with_task (t : option T) (c : TaskRef T) : TaskRef T := mkTaskRef (state c) (rx c) t.

(** The atomic operations on the word of flags of the cell at an index; they return
    the word before. *)
Definition load_state (i : Z) : op Z := c ← on_queue (read_cell i); mret (state c).
Definition fetch_or_state (i flags : Z) : op Z :=
  s ← load_state i; update_cell i (set_state (Z.lor s flags)) ;; mret s.
Definition fetch_xor_state (i flags : Z) : op Z :=
  s ← load_state i; update_cell i (set_state (Z.lxor s flags)) ;; mret s.

(** The future at an address. *)
Definition deref (a : addr) : op (State T V W) :=
  m ← gets ext;
  match m !! a with
  | Some st => mret st
  | None => undef dangling_receiver
  end.

(** [mem::replace] of the state of a future. *)
Definition replace_future (a : addr) (st : State T V W) : op (State T V W) :=
  old ← deref a; modify (λ w, set_ext (<[a := st]> (ext w)) w) ;; mret old.

Definition init (i : Z) (t : T) (a : addr) : op unit :=
  update_cell i (set_state 0) ;;
  update_cell i (with_rx a) ;;
  update_cell i (with_task (Some t)).

Definition take_task_unchecked (i : Z) : op T :=
  c ← on_queue (read_cell i);
  update_cell i (with_task None) ;;
  assume_init (task c).

(** [rx]: the receiver the cell points to. *)
Definition receiver (i : Z) : op (addr * Receiver V W) :=
  c ← on_queue (read_cell i);
  a ← assume_init (rx c);
  st ← deref a;
  match st with
  | Batched r => mret (a, r)
  | _ => undef dangling_receiver
  end.

(** The accesses of [resolve_unchecked], one per step another thread can see: set the
    flag, write the value, wake the receiver, settle the flags. *)
Definition begin_resolve (i : Z) : op Z := fetch_or_state i SETTING_VALUE.

Definition write_value (i : Z) (v : V) : op unit :=
  ar ← receiver i;
  let (a, r) := (ar : addr * Receiver V W) in
  replace_future a (Batched (mkReceiver (rx_state r) (Some v) (waker r))) ;; mret ().

Definition wake_receiver (i : Z) : op unit :=
  ar ← receiver i;
  let (_, r) := (ar : addr * Receiver V W) in emit (Woken (waker r)).

Definition end_resolve (i : Z) : op unit :=
  fetch_xor_state i (Z.lor SETTING_VALUE VALUE_SET) ;; mret ().

(** The value is dropped with the argument it came in when the receiver is gone. *)
Definition resolve_unchecked (i : Z) (v : V) : op unit :=
  state ← begin_resolve i;
  if Z.land state RX_DROPPED =? 0
  then write_value i v ;; wake_receiver i ;; end_resolve i
  else drop_result v.

(** The closure that [BatchedTask::poll] gives to [enqueue]: the task moves from the
    future into the cell, a receiver takes its place. *)
Definition place (a : addr) (cx : W) (task_ref : Z) : op unit :=
  old ← replace_future a (Batched (new_receiver task_ref cx));
  t ← match old with Unbatched t => mret t | _ => undef unreachable_code end;
  now ← deref a;
  p ← match now with Batched _ => mret a | _ => undef unreachable_code end;
  init task_ref t p.

(** [BatchedTask::poll]. *)
Definition poll (a : addr) (cx : W) : op (Poll V) :=
  st ← deref a;
  match st with
  | Unbatched _ =>
      assignment ← enqueue (place a cx);
      match assignment with
      | Ok (Some base_slot) => emit (Spawned base_slot)
      | Ok None => mret ()
      | Err _ => push_pending cx
      end ;;
      mret Pending
  | Batched _ =>
      old ← replace_future a Received;
      v ← match old with Batched r => assume_init (value r) | _ => undef unreachable_code end;
      mret (Ready v)
  | Received => mret Pending
  end.

(** The accesses of the destructor of [BatchedTask]: mark the receiver dropped, spin
    while a value is being set, drop the value. [needs_drop] is asked of the type of
    the tasks, as in the code. *)
Definition mark_dropped (i : Z) : op Z := fetch_or_state i RX_DROPPED.

Fixpoint spin_while_setting (fuel : nat) (i state : Z) : op Z :=
  match fuel with
  | O => out_of_fuel
  | S fuel =>
      if Z.land state SETTING_VALUE =? SETTING_VALUE
      then s ← load_state i; spin_while_setting fuel i s
      else mret state
  end.

Definition drop_value (r : Receiver V W) (state : Z) : op unit :=
  if needs_drop (T := T) && (Z.land state VALUE_SET =? VALUE_SET)
  then v ← assume_init (value r); drop_result v
  else mret ().

(** The future itself goes: its fields are dropped and its memory is released. *)
Definition release_future (a : addr) : op unit :=
  st ← deref a;
  modify (λ w, set_ext (delete a (ext w)) w) ;;
  match st with
  | Unbatched t => drop_task t
  | _ => mret ()
  end.

Definition drop_batched_task (fuel : nat) (a : addr) : op unit :=
  st ← deref a;
  match st with
  | Batched r =>
      state ← mark_dropped (rx_state r);
      state ← spin_while_setting fuel (rx_state r) state;
      now ← deref a;
      match now with
      | Batched r => drop_value r state
      | _ => undef unreachable_code
      end
  | _ => mret ()
  end ;;
  release_future a.
End task_ref.
