(* ===== verification/Assignment.v ===== *)
(** [assignment.rs], the guards over [TaskRef] cells: [PendingAssignment] and
    [TaskAssignment], with their destructors.

    The slices of an assignment hold references to cells, that is, their indices; an
    assignment is a range of task numbers as in [Ranges]. A [CompletionReceipt] holds
    no data: the type [unit]. *)
From S2P Require Import Prelude Usize Helpers Deque Queue Ranges TaskRef.
Local Open Scope Z_scope.

Record PendingAssignment : Type := mkPendingAssignment { base_slot : Z }.
Record TaskAssignment : Type := mkTaskAssignment { task_range : BoundedRange }.

Section assignments.
Context {C : QueueCfg} {T V W D : Type} `{Deque W D} `{NeedsDrop T, NeedsDrop V}.
Abbreviation task_world := (world (TaskRef T) D (futures T V W) (event W (T + V) Z)).
Abbreviation op A := (M task_world A).

Definition set_assignment_bounds (p : PendingAssignment) : op BoundedRange :=
  end_slot ← on_queue fetch_xor_slot;
  mret (mkBoundedRange (shr usize_bits (base_slot p) INDEX_SHIFT)
                       (shr usize_bits end_slot INDEX_SHIFT)).

Definition into_assignment (p : PendingAssignment) : op TaskAssignment :=
  task_range ← set_assignment_bounds p; mret (mkTaskAssignment task_range).

(** References to the cells of the buffer. *)
Definition cell_refs : list Z := seqZ 0 N.

Definition assignment_slices (a : TaskAssignment) : op (list Z * list Z) :=
  circular_slices cell_refs (task_range a).

Definition tasks (a : TaskAssignment) : op (list Z) :=
  slices ← assignment_slices a; mret (slices.1 ++ slices.2).

Definition deoccupy_assignment (a : TaskAssignment) : op unit :=
  deoccupy_region (index_mask (range_start (task_range a))).

Definition into_completion_receipt (a : TaskAssignment) : op unit := deoccupy_assignment a.

(** [values]: what the iterator yields; [zip] stops at the shorter side. *)
Definition resolve_with_iter (values : list V) (a : TaskAssignment) : op unit :=
  refs ← tasks a;
  for_each (zip refs values) (λ rv : Z * V,
    let (task_ref, value) := rv in
    (if needs_drop (T := T)
     then t ← take_task_unchecked task_ref; drop_task t
     else mret ()) ;;
    resolve_unchecked task_ref value) ;;
  into_completion_receipt a.

Definition map_assignment (f : T → V) (a : TaskAssignment) : op unit :=
  refs ← tasks a;
  for_each refs (λ task_ref,
    t ← take_task_unchecked task_ref;
    resolve_unchecked task_ref (f t)) ;;
  into_completion_receipt a.

(** [Drop for TaskAssignment] *)
Definition drop_assignment (a : TaskAssignment) : op unit :=
  (if needs_drop (T := T)
   then refs ← tasks a;
        for_each refs (λ task_ref, t ← take_task_unchecked task_ref; drop_task t)
   else mret ()) ;;
  deoccupy_assignment a.

(** [Drop for PendingAssignment] *)
Definition drop_pending (p : PendingAssignment) : op unit :=
  task_range ← set_assignment_bounds p;
  drop_assignment (mkTaskAssignment task_range).

(** [map] when the closure panics on task [n]: the tasks before it are resolved, its
    own task unwinds with the closure that took it, and the assignment, not yet
    forgotten, is dropped. *)
Definition map_unwinding (n : nat) (f : T → V) (a : TaskAssignment) : op unit :=
  refs ← tasks a;
  for_each (take n refs) (λ task_ref,
    t ← take_task_unchecked task_ref;
    resolve_unchecked task_ref (f t)) ;;
  for_each (take 1 (drop n refs)) (λ task_ref,
    t ← take_task_unchecked task_ref; drop_task t) ;;
  drop_assignment a.

(** [resolve_with_iter] when the iterator panics after it has yielded [values], of which
    there are fewer than tasks. *)
Definition iter_unwinding (values : list V) (a : TaskAssignment) : op unit :=
  refs ← tasks a;
  for_each (zip refs values) (λ rv : Z * V,
    let (task_ref, value) := rv in
    (if needs_drop (T := T)
     then t ← take_task_unchecked task_ref; drop_task t
     else mret ()) ;;
    resolve_unchecked task_ref value) ;;
  drop_assignment a.
End assignments.
