(* ===== verification/Resolution.v ===== *)
(** How a [TaskAssignment] settles the tasks of its batch: every live receiver gets the
    value of its task and is woken once, the value of a dropped receiver is dropped, and
    the region is released after the last of them. *)
From S2P Require Import Prelude Usize Helpers Deque Queue Ranges TaskRef Assignment.
Local Open Scope Z_scope.

(** A task of a batch: the future it came from, the waker of that future's task, and
    whether the future is still alive. *)
Record entry (T W : Type) : Type := mkEntry {
  e_task : T;
  e_addr : addr;
  e_waker : W;
  e_live : bool
}.
Arguments mkEntry {_ _} _ _ _ _.
Arguments e_task {_ _} _.
Arguments e_addr {_ _} _.
Arguments e_waker {_ _} _.
Arguments e_live {_ _} _.

Abbreviation cells w := (buffer (inner (queue w))).

Section cells.
Context {C : QueueCfg} {T V W D : Type} `{Deque W D} `{NeedsDrop T, NeedsDrop V}.
Abbreviation task_world := (world (TaskRef T) D (futures T V W) (event W (T + V) Z)).
Implicit Types (w : task_world) (c : TaskRef T).

Definition set_cell (i : Z) c w : task_world :=
  set_queue (set_buffer (<[Z.to_nat i := c]> (cells w)) (queue w)) w.

Lemma read_cell_world i c w :
  0 ≤ i → cells w !! Z.to_nat i = Some c → on_queue (read_cell i) w = Done (c, w).
Proof.
  intros Hi Hc. unfold on_queue. destruct w as [q x tr]. erewrite run_zoom; [reflexivity|].
  unfold read_cell. run. by apply run_get_unchecked.
Qed.

Lemma update_cell_run i f c w :
  0 ≤ i → cells w !! Z.to_nat i = Some c → update_cell i f w = Done ((), set_cell i (f c) w).
Proof.
  intros Hi Hc. unfold update_cell, on_queue. erewrite run_zoom; [reflexivity|].
  pose proof (lookup_lt_Some _ _ _ Hc).
  assert (read_cell i (queue w) = Done (c, queue w)) as Hr.
  { unfold read_cell. run. by apply run_get_unchecked. }
  run_with Hr. apply write_cell_run. lia.
Qed.

Lemma set_cell_lookup i c w :
  (Z.to_nat i < length (cells w))%nat → cells (set_cell i c w) !! Z.to_nat i = Some c.
Proof. intros. by apply list_lookup_insert_eq. Qed.

Lemma set_cell_twice i c1 c2 w : set_cell i c2 (set_cell i c1 w) = set_cell i c2 w.
Proof. unfold set_cell, set_queue, set_buffer. simpl. by rewrite list_insert_insert_eq. Qed.

(** The atomic operations on the flags. *)
Lemma fetch_or_run i flags c w :
  0 ≤ i → cells w !! Z.to_nat i = Some c →
  fetch_or_state i flags w
    = Done (state c, set_cell i (set_state (Z.lor (state c) flags) c) w).
Proof.
  intros Hi Hc. unfold fetch_or_state, load_state.
  erewrite run_bind by (run_with (read_cell_world _ _ _ Hi Hc); reflexivity).
  by run_with (update_cell_run _ (set_state (Z.lor (state c) flags)) _ _ Hi Hc).
Qed.

Lemma fetch_xor_run i flags c w :
  0 ≤ i → cells w !! Z.to_nat i = Some c →
  fetch_xor_state i flags w
    = Done (state c, set_cell i (set_state (Z.lxor (state c) flags) c) w).
Proof.
  intros Hi Hc. unfold fetch_xor_state, load_state.
  erewrite run_bind by (run_with (read_cell_world _ _ _ Hi Hc); reflexivity).
  by run_with (update_cell_run _ (set_state (Z.lxor (state c) flags)) _ _ Hi Hc).
Qed.

Lemma deref_run a st w : ext w !! a = Some st → deref a w = Done (st, w).
Proof. intros Ha. unfold deref. run. by rewrite Ha. Qed.

Lemma replace_future_run a st old w :
  ext w !! a = Some old →
  replace_future a st w = Done (old, set_ext (<[a := st]> (ext w)) w).
Proof. intros Ha. unfold replace_future. by run_with (deref_run _ _ _ Ha). Qed.

Lemma receiver_run i c a r w :
  0 ≤ i → cells w !! Z.to_nat i = Some c → rx c = Some a → ext w !! a = Some (Batched r) →
  receiver i w = Done ((a, r), w).
Proof.
  intros Hi Hc Ha Hr. unfold receiver. run_with (read_cell_world _ _ _ Hi Hc). rewrite Ha.
  run_with (run_ret a w). by run_with (deref_run _ _ _ Hr).
Qed.

(** The three later accesses of a resolver. *)
Lemma write_value_run i c a r v w :
  0 ≤ i → cells w !! Z.to_nat i = Some c → rx c = Some a → ext w !! a = Some (Batched r) →
  write_value i v w
    = Done ((), set_ext (<[a := Batched (mkReceiver (rx_state r) (Some v) (waker r))]> (ext w)) w).
Proof.
  intros Hi Hc Ha Hr. unfold write_value. run_with (receiver_run _ _ _ _ _ Hi Hc Ha Hr).
  by run_with (replace_future_run _ (Batched (mkReceiver (rx_state r) (Some v) (waker r))) _ _ Hr).
Qed.

Lemma wake_receiver_run i c a r w :
  0 ≤ i → cells w !! Z.to_nat i = Some c → rx c = Some a → ext w !! a = Some (Batched r) →
  wake_receiver i w = Done ((), mkWorld (queue w) (ext w) (trace w ++ [Woken (waker r)])).
Proof.
  intros Hi Hc Ha Hr. unfold wake_receiver. by run_with (receiver_run _ _ _ _ _ Hi Hc Ha Hr).
Qed.

Lemma take_task_run i c t w :
  0 ≤ i → cells w !! Z.to_nat i = Some c → task c = Some t →
  take_task_unchecked i w = Done (t, set_cell i (with_task None c) w).
Proof.
  intros Hi Hc Ht. unfold take_task_unchecked. run_with (read_cell_world _ _ _ Hi Hc).
  run_with (update_cell_run _ (with_task None) _ _ Hi Hc). by rewrite Ht.
Qed.
End cells.

(** * Settling one task *)
Section settle.
Context {C : QueueCfg} {T V W D : Type} `{Deque W D} `{NeedsDrop T, NeedsDrop V}.
Abbreviation task_world := (world (TaskRef T) D (futures T V W) (event W (T + V) Z)).
Abbreviation ev := (event W (T + V) Z).
Implicit Types (w : task_world) (c : TaskRef T) (e : entry T W).

Definition entry_flags e : Z := if e_live e then 0 else RX_DROPPED.

(** The entry is in the cell [i], not settled yet. *)
Definition in_cell (i : Z) e w : Prop :=
  cells w !! Z.to_nat i = Some (mkTaskRef (entry_flags e) (Some (e_addr e)) (Some (e_task e)))
  ∧ (e_live e = true →
     ext w !! e_addr e = Some (Batched (mkReceiver i None (e_waker e)))).

(** What settling an entry with [v] tells the rest of the program. *)
Definition settle_events e (v : V) : list ev :=
  if e_live e then [Woken (e_waker e)]
  else if needs_drop (T := V) then [Dropped (inr v)] else [].

Definition settled_flags e : Z :=
  if e_live e then VALUE_SET else Z.lor RX_DROPPED SETTING_VALUE.

Definition settled_futures (i : Z) e (v : V) w : futures T V W :=
  if e_live e then <[e_addr e := Batched (mkReceiver i (Some v) (e_waker e))]> (ext w)
  else ext w.

(** The world after [e], in cell [i], is settled with [v]: [left] is what stays in the
    cell of the task, [before] the events of taking it. *)
Definition settle (i : Z) e (v : V) (left : option T) (before : list ev) w : task_world :=
  mkWorld
    (set_buffer (<[Z.to_nat i := mkTaskRef (settled_flags e) (Some (e_addr e)) left]> (cells w))
       (queue w))
    (settled_futures i e v w)
    (trace w ++ before ++ settle_events e v).

Lemma resolve_run i e v left w :
  0 ≤ i →
  cells w !! Z.to_nat i = Some (mkTaskRef (entry_flags e) (Some (e_addr e)) left) →
  (e_live e = true → ext w !! e_addr e = Some (Batched (mkReceiver i None (e_waker e)))) →
  resolve_unchecked i v w = Done ((), settle i e v left [] w).
Proof.
  intros Hi Hc Hr. pose proof (lookup_lt_Some _ _ _ Hc) as Hlt. unfold resolve_unchecked.
  assert (begin_resolve i w = _) as Hb by apply (fetch_or_run i SETTING_VALUE _ w Hi Hc).
  run_with Hb. unfold settle, entry_flags, settled_flags, settle_events, settled_futures in *.
  destruct (e_live e) eqn:Hl; cbn -[set_cell set_state write_value wake_receiver end_resolve].
  - set (c1 := set_state _ _). set (w1 := set_cell i c1 w).
    assert (cells w1 !! Z.to_nat i = Some c1) as Hc1 by by apply set_cell_lookup.
    change (Z.land 0 RX_DROPPED =? 0) with true. cbv iota.
    run_with (write_value_run i c1 _ _ v w1 Hi Hc1 eq_refl (Hr eq_refl)).
    set (w2 := set_ext _ w1).
    assert (ext w2 !! e_addr e = Some (Batched (mkReceiver i (Some v) (e_waker e)))) as Hr2
      by exact (fin_maps.lookup_insert_eq (M := gmap addr) _ _ _).
    run_with (wake_receiver_run i c1 _ _ w2 Hi Hc1 eq_refl Hr2). set (w3 := mkWorld _ _ _).
    unfold end_resolve. run_with (fetch_xor_run i (Z.lor SETTING_VALUE VALUE_SET) c1 w3 Hi Hc1).
    rewrite run_ret. unfold w3, w2, w1, c1, set_cell, set_queue, set_buffer, set_ext. simpl.
    by rewrite list_insert_insert_eq.
  - change (Z.land RX_DROPPED RX_DROPPED =? 0) with false. cbv iota.
    unfold drop_result. destruct needs_drop; [reflexivity|].
    rewrite run_ret. unfold set_cell, set_queue. simpl. by rewrite app_nil_r.
Qed.
End settle.

(** * Settling a batch *)
Section batch.
Context {C : QueueCfg} {HV : ValidCfg} {T V W D : Type} `{DequeLaws W D}
  `{NeedsDrop T, NeedsDrop V}.
Abbreviation task_world := (world (TaskRef T) D (futures T V W) (event W (T + V) Z)).
Abbreviation ev := (event W (T + V) Z).
Implicit Types (w : task_world) (e : entry T W) (es : list (entry T W)).

(** The cell of the [k]-th task of a batch that begins at [start]. *)
Definition batch_cell (start : Z) (k : nat) : Z := (start + Z.of_nat k) mod N.

(** The entries of the batch that begins at [start], none settled yet. *)
Definition unsettled (start : Z) es w : Prop :=
  Z.of_nat (length es) ≤ N ∧ ∀ k e, es !! k = Some e → in_cell (batch_cell start k) e w.

Lemma batch_cell_bounds start k : 0 ≤ batch_cell start k < N.
Proof. apply Z.mod_pos_bound. pose proof N_ge_64. lia. Qed.

Lemma batch_cell_succ start k : batch_cell (start + 1) k = batch_cell start (S k).
Proof. unfold batch_cell. f_equal. lia. Qed.

Lemma batch_cell_0 start : batch_cell start 0 = start mod N.
Proof. unfold batch_cell. f_equal. lia. Qed.

Lemma batch_cell_inj start j k :
  Z.of_nat j < N → Z.of_nat k < N → batch_cell start j = batch_cell start k → j = k.
Proof.
  intros Hj Hk He. unfold batch_cell in He. pose proof N_ge_64.
  apply mod_inj_window in He; lia.
Qed.

(** Settling one entry leaves the others where they are. *)
Lemma settle_frame i e v left before j e' w :
  0 ≤ i → 0 ≤ j → i ≠ j → in_cell i e w → in_cell j e' w →
  in_cell j e' (settle i e v left before w).
Proof.
  intros Hi Hj Hne [Hc Hr] [Hc' Hr']. unfold settle, in_cell, settled_futures. simpl. split.
  - rewrite list_lookup_insert_ne by lia. done.
  - intros Hl'. specialize (Hr' Hl'). destruct (e_live e) eqn:Hl; [|done].
    specialize (Hr eq_refl). rewrite fin_maps.lookup_insert_ne; [done|].
    intros Ha. rewrite Ha, Hr' in Hr. by injection Hr.
Qed.

Lemma unsettled_cons start e es v left before w :
  unsettled start (e :: es) w →
  in_cell (start mod N) e w
  ∧ unsettled (start + 1) es (settle (start mod N) e v left before w).
Proof.
  intros [Hl Hu]. pose proof (Hu 0%nat e eq_refl) as He. rewrite batch_cell_0 in He.
  split; [done|]. cbn [length] in Hl. split; [lia|]. intros k e' Hk. rewrite batch_cell_succ.
  pose proof (batch_cell_bounds start (S k)). pose proof (batch_cell_bounds start 0).
  rewrite <- (batch_cell_0 start) in *. apply lookup_lt_Some in Hk as Hlt.
  apply settle_frame; [lia|lia| |done|by apply Hu].
  intros Heq%batch_cell_inj; lia.
Qed.

(** All entries of a batch settled, first to last. *)
Fixpoint settle_all (left : T → option T) (before : T → list ev) (start : Z)
  (evs : list (entry T W * V)) w : task_world :=
  match evs with
  | [] => w
  | (e, v) :: evs =>
      settle_all left before (start + 1) evs
        (settle (start mod N) e v (left (e_task e)) (before (e_task e)) w)
  end.

Lemma for_each_settle {A : Type} (body : A → M task_world unit) left before xs start evs w :
  (∀ k x e v, xs !! k = Some x → evs !! k = Some (e, v) →
     ∀ w, in_cell (batch_cell start k) e w →
     body x w = Done ((), settle (batch_cell start k) e v (left (e_task e))
                            (before (e_task e)) w)) →
  length xs = length evs → unsettled start evs.*1 w →
  for_each xs body w = Done ((), settle_all left before start evs w).
Proof.
  revert xs start w. induction evs as [|[e v] evs IH]; intros [|x xs] start w Hb Hlen Hu;
    simplify_eq/=; [done|].
  destruct (unsettled_cons _ _ _ v (left (e_task e)) (before (e_task e)) _ Hu) as [He Hu'].
  rewrite <- batch_cell_0 in *. run_with (Hb 0%nat x e v eq_refl eq_refl w He).
  apply IH; [|lia|done]. intros k x' e' v' Hx He' w'. rewrite batch_cell_succ. by apply Hb.
Qed.

(** ** What [settle_all] leaves behind *)
Lemma settle_all_trace left before start evs w :
  trace (settle_all left before start evs w)
    = trace w ++ concat ((λ ev, before (e_task ev.1) ++ settle_events ev.1 ev.2) <$> evs).
Proof.
  revert start w. induction evs as [|[e v] evs IH]; intros start w; simpl.
  - by rewrite app_nil_r.
  - rewrite IH. simpl. by rewrite <- !app_assoc.
Qed.

Lemma settle_all_futures left before start evs w a :
  (∀ k e v, evs !! k = Some (e, v) → e_live e = true → e_addr e ≠ a) →
  ext (settle_all left before start evs w) !! a = ext w !! a.
Proof.
  revert start w. induction evs as [|[e v] evs IH]; intros start w Ha; simpl; [done|].
  rewrite IH by (intros k; apply (Ha (S k))). simpl. unfold settled_futures.
  specialize (Ha 0%nat e v eq_refl).
  destruct (e_live e); [|done]. by rewrite fin_maps.lookup_insert_ne by auto.
Qed.

Lemma settle_all_value left before start evs w k e v :
  unsettled start evs.*1 w → evs !! k = Some (e, v) → e_live e = true →
  ext (settle_all left before start evs w) !! e_addr e
    = Some (Batched (mkReceiver (batch_cell start k) (Some v) (e_waker e))).
Proof.
  revert start w k. induction evs as [|[e0 v0] evs IH]; intros start w k Hu Hk Hl; [done|].
  pose proof (unsettled_cons _ _ _ v0 (left (e_task e0)) (before (e_task e0)) _ Hu) as [He Hu'].
  destruct k as [|k]; simplify_eq/=.
  - rewrite settle_all_futures.
    + simpl. unfold settled_futures. rewrite Hl, batch_cell_0. by rewrite fin_maps.lookup_insert_eq.
    + intros k e' v' Hk Hl' Ha.
      assert (evs.*1 !! k = Some e') as Hk' by (by rewrite list_lookup_fmap, Hk).
      destruct Hu as [Hlen Hu]. pose proof (Hu (S k) e' Hk') as [_ Hr'].
      destruct He as [_ Hr]. specialize (Hr Hl). specialize (Hr' Hl'). rewrite Ha, Hr in Hr'.
      simplify_eq. rewrite <- batch_cell_0 in *.
      apply lookup_lt_Some in Hk'. cbn [length] in Hlen.
      apply batch_cell_inj in Hr'; cbn [length] in *; lia.
  - rewrite <- batch_cell_succ. by apply IH.
Qed.

Lemma settle_all_other_cells left before start evs w i :
  (∀ k, (k < length evs)%nat → batch_cell start k ≠ Z.of_nat i) →
  cells (settle_all left before start evs w) !! i = cells w !! i.
Proof.
  revert start w. induction evs as [|[e v] evs IH]; intros start w Hi; [done|].
  cbn [settle_all]. rewrite IH.
  - cbn. rewrite list_lookup_insert_ne; [done|].
    pose proof (batch_cell_bounds start 0). specialize (Hi 0%nat ltac:(cbn; lia)).
    rewrite batch_cell_0 in *. lia.
  - intros k Hk. rewrite batch_cell_succ. apply Hi. cbn. lia.
Qed.

Lemma settle_all_queue left before start evs w :
  ∃ b, queue (settle_all left before start evs w) = set_buffer b (queue w).
Proof.
  revert start w. induction evs as [|[e v] evs IH]; intros start w; simpl.
  - exists (cells w). by destruct (queue w) as [? ? [] ?].
  - destruct (IH (start + 1) (settle (start mod N) e v (left (e_task e)) (before (e_task e)) w))
      as [b Hb]. exists b. by rewrite Hb.
Qed.
End batch.

(** * The assignment *)
Section assignment.
Context {C : QueueCfg} {HV : ValidCfg} {T V W D : Type} `{DequeLaws W D}
  `{NeedsDrop T, NeedsDrop V}.
Abbreviation task_world := (world (TaskRef T) D (futures T V W) (event W (T + V) Z)).
Abbreviation ev := (event W (T + V) Z).
Implicit Types (w : task_world) (e : entry T W) (es : list (entry T W)) (vs : list V).

(** The assignment of [n] tasks from number [start] on. *)
Definition assignment (start : Z) (n : nat) : TaskAssignment :=
  mkTaskAssignment (range_of start (start + Z.of_nat n)).

Lemma cell_refs_lookup i : 0 ≤ i < N → cell_refs !! Z.to_nat i = Some i.
Proof. intros Hi. unfold cell_refs. apply lookup_seqZ. lia. Qed.

Lemma tasks_run start n w :
  1 ≤ Z.of_nat n ≤ N → tasks (assignment start n) w = Done (batch_cell start <$> seq 0 n, w).
Proof.
  intros Hn. unfold tasks, assignment_slices, assignment. cbn [task_range].
  destruct (circular_slices_run cell_refs start (start + Z.of_nat n) w)
    as (f & b & Hcs & Hl & Hfb); [unfold cell_refs; rewrite length_seqZ; lia|lia|].
  run_with Hcs. rewrite run_ret. cbn [fst snd]. do 2 f_equal.
  apply list_eq_same_length with n; [rewrite length_fmap, length_seq; lia|lia|].
  intros i x y Hi Hx Hy. rewrite Hfb in Hx by lia.
  rewrite cell_refs_lookup in Hx by apply batch_cell_bounds.
  apply list_lookup_fmap_Some in Hy as (k & -> & Hk). apply lookup_seq in Hk as [-> _].
  by injection Hx.
Qed.

Lemma deoccupy_assignment_run start n w w' :
  deoccupy_region (start mod N) w = Done ((), w') →
  deoccupy_assignment (assignment start n) w = Done ((), w').
Proof. unfold deoccupy_assignment. cbn. by rewrite index_mask_word. Qed.

Lemma deoccupy_returns start w : ∃ w', deoccupy_region (start mod N) w = Done ((), w').
Proof.
  pose proof (batch_cell_bounds start 0) as Hb. rewrite batch_cell_0 in Hb.
  pose proof (deoccupy_region_run (start mod N) w Hb) as Hr. cbv zeta in Hr.
  case_decide; [destruct Hr as (w' & Hr & _)|]; eexists; exact Hr.
Qed.

(** Taking a task leaves its cell with the flags and the pointer only. *)
Lemma take_in_cell i e w :
  0 ≤ i → in_cell i e w →
  take_task_unchecked i w
    = Done (e_task e, set_cell i (mkTaskRef (entry_flags e) (Some (e_addr e)) None) w).
Proof. intros Hi [Hc _]. exact (take_task_run i _ (e_task e) w Hi Hc eq_refl). Qed.

Lemma settle_set_cell i e v left before c w :
  settle i e v left before (set_cell i c w) = settle i e v left before w.
Proof. unfold settle, set_cell, set_buffer. simpl. by rewrite list_insert_insert_eq. Qed.

Lemma resolve_taken i e v c w :
  0 ≤ i → in_cell i e w → c = mkTaskRef (entry_flags e) (Some (e_addr e)) None →
  resolve_unchecked i v (set_cell i c w) = Done ((), settle i e v None [] w).
Proof.
  intros Hi [Hc Hr] ->. rewrite (resolve_run i e v None); [by rewrite settle_set_cell|done| |done].
  apply set_cell_lookup. by apply lookup_lt_Some in Hc.
Qed.

Lemma settle_before i e v left before w :
  settle i e v left before w
    = settle i e v left [] (mkWorld (queue w) (ext w) (trace w ++ before)).
Proof. unfold settle. simpl. by rewrite <- app_assoc. Qed.

(** The body of [resolve_with_iter]. *)
Definition resolve_left (t : T) : option T := if needs_drop (T := T) then None else Some t.
Definition resolve_before (t : T) : list ev :=
  if needs_drop (T := T) then [Dropped (inl t)] else [].

Lemma resolve_step_run i e v w :
  0 ≤ i → in_cell i e w →
  ((if needs_drop (T := T)
    then t ← take_task_unchecked i; drop_task t
    else mret ()) ;;
   resolve_unchecked i v) w
    = Done ((), settle i e v (resolve_left (e_task e)) (resolve_before (e_task e)) w).
Proof.
  intros Hi Hin. unfold resolve_left, resolve_before, drop_task.
  destruct (needs_drop (T := T)) eqn:Hd.
  - set (c := mkTaskRef (T := T) (entry_flags e) (Some (e_addr e)) None).
    set (w1 := mkWorld (queue w) (ext w) (trace w ++ [Dropped (inl (e_task e))])).
    erewrite run_bind.
    2:{ rewrite (run_bind _ _ _ _ _ (take_in_cell i e w Hi Hin)). reflexivity. }
    rewrite settle_before. exact (resolve_taken i e v c w1 Hi Hin eq_refl).
  - run_with (run_ret () w). destruct Hin as [Hc Hr]. by apply resolve_run.
Qed.

(** Entries with the values [resolve_with_iter] pairs them with. *)
Lemma resolve_loop_run start es vs w :
  unsettled start es w →
  for_each (zip (batch_cell start <$> seq 0 (length es)) vs) (λ rv : Z * V,
    let (task_ref, value) := rv in
    (if needs_drop (T := T)
     then t ← take_task_unchecked task_ref; drop_task t
     else mret ()) ;;
    resolve_unchecked task_ref value) w
  = Done ((), settle_all resolve_left resolve_before start (zip es vs) w).
Proof.
  intros Hu. apply for_each_settle.
  - intros k [i v'] e v Hx Hev w' Hin.
    apply lookup_zip_with_Some in Hx as (i' & v1 & [= -> ->] & Hi & Hv).
    apply lookup_zip_with_Some in Hev as (e' & v2 & [= -> ->] & He & Hv2).
    rewrite Hv in Hv2. injection Hv2 as ->.
    apply list_lookup_fmap_Some in Hi as (j & -> & Hj). apply lookup_seq in Hj as [-> _].
    apply resolve_step_run; [apply batch_cell_bounds|done].
  - rewrite !length_zip_with, length_fmap, length_seq. done.
  - destruct Hu as [Hl Hu]. split.
    + rewrite length_fmap, length_zip_with. lia.
    + intros k e Hk. apply list_lookup_fmap_Some in Hk as ([e' v] & -> & Hk).
      apply lookup_zip_with_Some in Hk as (? & ? & [= -> ->] & He & _). by apply Hu.
Qed.

Lemma map_loop_run (f : T → V) start es w :
  unsettled start es w →
  for_each (batch_cell start <$> seq 0 (length es)) (λ task_ref,
    t ← take_task_unchecked task_ref;
    resolve_unchecked task_ref (f t)) w
  = Done ((), settle_all (λ _, None) (λ _, []) start
                ((λ e, (e, f (e_task e))) <$> es) w).
Proof.
  intros Hu. apply for_each_settle.
  - intros k i e v Hx Hev w' Hin.
    apply list_lookup_fmap_Some in Hx as (j & -> & Hj). apply lookup_seq in Hj as [-> _].
    apply list_lookup_fmap_Some in Hev as (e' & [= -> ->] & He).
    pose proof (batch_cell_bounds start k) as Hb. run_with (take_in_cell _ _ _ (proj1 Hb) Hin).
    exact (resolve_taken _ _ _ _ _ (proj1 Hb) Hin eq_refl).
  - by rewrite !length_fmap, length_seq.
  - rewrite <- list_fmap_compose, list_fmap_id. done.
Qed.
End assignment.
