(* ===== verification/Delivery.v ===== *)
(** What a [TaskQueue] promises to the futures waiting in it: a polled task enters the
    batch or is parked, its result reaches the future that asked for it, and nobody
    else's. *)
From S2P Require Import Prelude Usize Helpers Deque Queue Ranges TaskRef Assignment Resolution.
Local Open Scope Z_scope.

Section polls.
Context {C : QueueCfg} {HV : ValidCfg} {T V W D : Type} `{DequeLaws W D}
  `{NeedsDrop T, NeedsDrop V}.
Abbreviation task_world := (world (TaskRef T) D (futures T V W) (event W (T + V) Z)).
Implicit Types (w : task_world) (e : entry T W).

Lemma init_run i t a c w :
  0 ≤ i → cells w !! Z.to_nat i = Some c →
  init i t a w = Done ((), set_cell i (mkTaskRef 0 (Some a) (Some t)) w).
Proof.
  intros Hi Hc. unfold init. pose proof (lookup_lt_Some _ _ _ Hc) as Hlt.
  assert (∀ c1 c2 f, f c1 = c2 →
    update_cell i f (set_cell i c1 w) = Done ((), set_cell i c2 w)) as Hup.
  { intros c1 c2 f <-. rewrite (update_cell_run i f c1); [by rewrite set_cell_twice|done|].
    by apply set_cell_lookup. }
  run_with (update_cell_run i (set_state 0) _ _ Hi Hc). run_with (Hup _ _ (with_rx a) eq_refl).
  exact (Hup _ _ (with_task (Some t)) eq_refl).
Qed.

(** The queue of the world with another queue operation behind it. *)
Lemma on_queue_run {A : Type} (m : M (StackQueue (TaskRef T) D) A) w r q :
  m (queue w) = Done (r, q) → on_queue m w = Done (r, set_queue q w).
Proof. intros Hm. unfold on_queue. by erewrite run_zoom. Qed.

Definition enqueued (i : Z) (t : T) (a : addr) (cx : W) w : task_world :=
  set_cell i (mkTaskRef 0 (Some a) (Some t))
    (set_ext (<[a := Batched (new_receiver i cx)]> (ext w)) w).

Lemma place_run i t a cx c w :
  0 ≤ i → cells w !! Z.to_nat i = Some c → ext w !! a = Some (Unbatched t) →
  place a cx i w = Done ((), enqueued i t a cx w).
Proof.
  intros Hi Hc Ha. unfold place.
  run_with (replace_future_run a (Batched (new_receiver i cx)) _ w Ha).
  run_with (run_ret t (set_ext (<[a:=Batched (new_receiver i cx)]> (ext w)) w)).
  erewrite run_bind by (apply deref_run, fin_maps.lookup_insert_eq). cbv beta iota.
  run. by apply (init_run _ _ _ c).
Qed.

Lemma enqueued_in_cell i t a cx w :
  0 ≤ i < Z.of_nat (length (cells w)) → in_cell i (mkEntry t a cx true) (enqueued i t a cx w).
Proof.
  intros Hi. split; [|intros _; apply fin_maps.lookup_insert_eq].
  apply set_cell_lookup. simpl. lia.
Qed.

Lemma poll_ok a t cx count phase local w q' :
  slots_at count phase local (queue w) → length (cells w) = Z.to_nat N →
  ext w !! a = Some (Unbatched t) →
  check_write_index (count mod N) (queue w) = Done (Ok (), q') →
  let w1 := enqueued (count mod N) t a cx (set_queue q' w) in
  poll a cx w =
    if eqb phase local then Done (Pending, set_queue (advanced count phase (queue w1)) w1)
    else Done (Pending,
           mkWorld (occupied (count mod N) (advanced count phase (queue w1)))
             (ext w1) (trace w1 ++ [Spawned (slot_word count phase)])).
Proof.
  intros [Hs Hl] Hlen Ha Hc w1. unfold poll. run_with (deref_run _ _ _ Ha).
  assert (inner q' = inner (queue w) ∧ sq_slot q' = sq_slot (queue w)) as [Hin Hsl].
  { rewrite check_write_index_run, check_regional_occupancy_run in Hc.
    destruct (at_region_start _); [|by simplify_eq].
    destruct (_ =? 0); by simplify_eq. }
  pose proof N_ge_64. assert (0 ≤ count mod N < N) as Hb by (apply Z.mod_pos_bound; lia).
  destruct (lookup_lt_is_Some_2 (cells w) (Z.to_nat (count mod N))) as [c Hcell]; [lia|].
  assert (slots_at count phase local (queue w1)) as Hs1 by (split; simpl; congruence).
  assert (enqueue (place a cx) w
    = if eqb phase local then Done (Ok None, set_queue (advanced count phase (queue w1)) w1)
      else Done (Ok (Some (slot_word count phase)),
             set_queue (occupied (count mod N) (advanced count phase (queue w1))) w1)) as He.
  { unfold enqueue.
    run_with (on_queue_run _ _ _ _ (current_write_index_run _ _ _ Hl)).
    change (set_queue (queue w) w) with (mkWorld (queue w) (ext w) (trace w)).
    run_with (on_queue_run _ (mkWorld (queue w) (ext w) (trace w)) _ _ Hc).
    set (w0 := set_queue q' _).
    assert (cells w0 !! Z.to_nat (count mod N) = Some c) as Hc0 by (simpl; by rewrite Hin).
    run_with (read_cell_world _ _ _ (proj1 Hb) Hc0).
    run_with (place_run (count mod N) t a cx c w0 (proj1 Hb) Hc0 Ha).
    change (enqueued _ _ _ _ _) with w1.
    pose proof (publish_run (count mod N) _ _ _ _ Hs1) as Hp.
    destruct (eqb phase local); by run_with (on_queue_run _ _ _ _ Hp). }
  destruct (eqb phase local); run_with He.
  - by run_with (run_ret () (set_queue (advanced count phase (queue w1)) w1)).
  - reflexivity.
Qed.

Lemma poll_full a t cx count phase local w q' :
  slots_at count phase local (queue w) → ext w !! a = Some (Unbatched t) →
  check_write_index (count mod N) (queue w) = Done (Err queue_full, q') →
  poll a cx w = Done (Pending, set_queue (set_pending (worker_push cx (pending q')) q') w).
Proof.
  intros [Hs Hl] Ha Hc. unfold poll. run_with (deref_run _ _ _ Ha). unfold enqueue.
  erewrite run_bind.
  2:{ run_with (on_queue_run _ _ _ _ (current_write_index_run _ _ _ Hl)).
      change (set_queue (queue w) w) with (mkWorld (queue w) (ext w) (trace w)).
      run_with (on_queue_run _ (mkWorld (queue w) (ext w) (trace w)) _ _ Hc). reflexivity. }
  reflexivity.
Qed.
End polls.

(** * Delivery *)
Section delivery.
Context {C : QueueCfg} {HV : ValidCfg} {T V W D : Type} `{DequeLaws W D}
  `{NeedsDrop T, NeedsDrop V}.
Abbreviation task_world := (world (TaskRef T) D (futures T V W) (event W (T + V) Z)).
Abbreviation ev := (event W (T + V) Z).
Implicit Types (w : task_world) (e : entry T W) (es : list (entry T W)) (vs : list V).

(** Releasing a region leaves the futures alone. *)
Lemma release_futures start w :
  ∃ w', deoccupy_region (start mod N) w = Done ((), w') ∧ ext w' = ext w.
Proof.
  pose proof (batch_cell_bounds start 0) as Hb. rewrite batch_cell_0 in Hb.
  pose proof (deoccupy_region_run (start mod N) w Hb) as Hr. cbv zeta in Hr.
  case_decide; [destruct Hr as (w' & Hr & He & _)|]; eexists; split; eauto.
Qed.

Lemma poll_value a r v cx w :
  ext w !! a = Some (Batched r) → value r = Some v →
  poll a cx w = Done (Ready v, set_ext (<[a := Received]> (ext w)) w).
Proof.
  intros Ha Hv. unfold poll. run_with (deref_run _ _ _ Ha).
  run_with (replace_future_run _ Received _ _ Ha). rewrite Hv. reflexivity.
Qed.

Lemma settle_all_rest left before start es vs k e w :
  unsettled start es w → es !! k = Some e → (length vs ≤ k)%nat →
  in_cell (batch_cell start k) e (settle_all left before start (zip es vs) w).
Proof.
  revert start vs k w. induction es as [|e0 es IH]; intros start [|v vs] k w Hu Hk Hv.
  - done.
  - done.
  - destruct Hu as [_ Hu]. by apply Hu.
  - destruct k as [|k]; [simpl in Hv; lia|]. simpl in Hk, Hv |- *.
    pose proof (unsettled_cons _ _ _ v (left (e_task e0)) (before (e_task e0)) _ Hu) as [_ Hu'].
    rewrite <- batch_cell_succ. apply IH; [done|done|lia].
Qed.

Lemma resolve_with_iter_run vs start es w w' :
  unsettled start es w → (1 ≤ length es)%nat →
  deoccupy_region (start mod N)
    (settle_all resolve_left resolve_before start (zip es vs) w) = Done ((), w') →
  resolve_with_iter vs (assignment start (length es)) w = Done ((), w').
Proof.
  intros Hu Hne Hr. unfold resolve_with_iter. pose proof Hu as [Hl _].
  erewrite run_bind by (apply tasks_run; lia). cbv beta.
  run_with (resolve_loop_run start es vs w Hu). by apply deoccupy_assignment_run.
Qed.

Lemma map_assignment_run f start es w w' :
  unsettled start es w → (1 ≤ length es)%nat →
  deoccupy_region (start mod N)
    (settle_all (λ _, None) (λ _, []) start ((λ e, (e, f (e_task e))) <$> es) w)
    = Done ((), w') →
  map_assignment f (assignment start (length es)) w = Done ((), w').
Proof.
  intros Hu Hne Hr. unfold map_assignment. pose proof Hu as [Hl _].
  erewrite run_bind by (apply tasks_run; lia). cbv beta.
  run_with (map_loop_run f start es w Hu). by apply deoccupy_assignment_run.
Qed.

(** C17. [map] computes the value of every task of the batch from that task, wakes each
    live future once, in the order of the tasks, drops the values of the dropped ones,
    and releases the region last; the next poll of a live future returns the value
    computed from its own task. Futures and cells outside the batch are not touched. *)
Theorem map_delivers_results f start es w :
  unsettled start es w → (1 ≤ length es)%nat →
  ∃ w1 w', map_assignment f (assignment start (length es)) w = Done ((), w')
    ∧ deoccupy_region (start mod N) w1 = Done ((), w')
    ∧ trace w1 = trace w ++ concat ((λ e, settle_events e (f (e_task e))) <$> es)
    ∧ (∀ e cx, e ∈ es → e_live e = true →
         ∃ w2, poll (e_addr e) cx w' = Done (Ready (f (e_task e)), w2))
    ∧ (∀ a, (∀ e, e ∈ es → e_live e = true → e_addr e ≠ a) → ext w' !! a = ext w !! a)
    ∧ (∀ i, (∀ k, (k < length es)%nat → batch_cell start k ≠ Z.of_nat i) →
         cells w1 !! i = cells w !! i).
Proof.
  intros Hu Hne. set (evs := (λ e, (e, f (e_task e))) <$> es).
  set (w1 := settle_all (λ _, None) (λ _, []) start evs w).
  destruct (release_futures start w1) as (w' & Hr & Hx). exists w1, w'.
  assert (evs.*1 = es) as Hes by (unfold evs; by rewrite <- list_fmap_compose, list_fmap_id).
  split; [by apply map_assignment_run|]. split; [done|].
  split; [by unfold w1, evs; rewrite settle_all_trace, <- list_fmap_compose|]. split; [|split].
  - intros e cx [k Hk]%list_elem_of_lookup Hl.
    assert (evs !! k = Some (e, f (e_task e))) as Hev
      by (unfold evs; by rewrite list_lookup_fmap, Hk).
    eexists. eapply poll_value; [rewrite Hx; eapply settle_all_value; [by rewrite Hes|done..]|done].
  - intros a Ha. rewrite Hx. apply settle_all_futures. intros k e v Hk Hl.
    apply Ha; [|done]. rewrite <- Hes. apply list_elem_of_fmap. exists (e, v).
    split; [done|]. by eapply list_elem_of_lookup_2.
  - intros i Hi. apply settle_all_other_cells. unfold evs. by rewrite length_fmap.
Qed.

(** [resolve_with_iter] pairs the values with the tasks by position: task [k] gets
    value [k], after its own destructor ran. When the iterator ends early, the tasks
    from there on keep their cells as they were, unresolved and not dropped, and their
    futures are not woken, although the region is released under them. *)
Theorem resolve_with_iter_by_position vs start es w :
  unsettled start es w → (1 ≤ length es)%nat →
  ∃ w1 w', resolve_with_iter vs (assignment start (length es)) w = Done ((), w')
    ∧ deoccupy_region (start mod N) w1 = Done ((), w')
    ∧ trace w1 = trace w ++ concat
        ((λ ev, resolve_before (e_task ev.1) ++ settle_events ev.1 ev.2) <$> zip es vs)
    ∧ (∀ k e v cx, es !! k = Some e → vs !! k = Some v → e_live e = true →
         ∃ w2, poll (e_addr e) cx w' = Done (Ready v, w2))
    ∧ (∀ k e, es !! k = Some e → (length vs ≤ k)%nat → in_cell (batch_cell start k) e w1).
Proof.
  intros Hu Hne. set (w1 := settle_all resolve_left resolve_before start (zip es vs) w).
  destruct (release_futures start w1) as (w' & Hr & Hx). exists w1, w'.
  split; [by apply resolve_with_iter_run|]. split; [done|].
  split; [by apply settle_all_trace|]. split.
  - intros k e v cx Hk Hv Hl.
    assert (zip es vs !! k = Some (e, v)) as Hev
      by (apply lookup_zip_with_Some; by exists e, v).
    eexists. eapply poll_value; [rewrite Hx; eapply settle_all_value; [|exact Hev|done]|done].
    destruct Hu as [Hlen Hu]. split.
    + rewrite length_fmap, length_zip_with. lia.
    + intros j e' Hj. apply list_lookup_fmap_Some in Hj as ([? ?] & -> & Hj).
      apply lookup_zip_with_Some in Hj as (? & ? & [= -> ->] & Hj & _). by apply Hu.
  - intros k e Hk Hv. by apply settle_all_rest.
Qed.

(** The first poll of a task, when its cell may be written: the task moves into the
    next cell of the batch with the address and the waker of its future, both task
    counters advance by one, and the poll is the one that hands a new batch to the
    executor exactly when the phase moved since the last task. *)
Theorem first_poll_joins_batch a t cx count phase local w q' :
  slots_at count phase local (queue w) → length (cells w) = Z.to_nat N →
  ext w !! a = Some (Unbatched t) →
  check_write_index (count mod N) (queue w) = Done (Ok (), q') →
  ∃ w', poll a cx w = Done (Pending, w')
    ∧ in_cell (count mod N) (mkEntry t a cx true) w'
    ∧ slots_at (count + 1) phase phase (queue w')
    ∧ trace w' = trace w ++ (if eqb phase local then [] else [Spawned (slot_word count phase)])
    ∧ (∀ b, b ≠ a → ext w' !! b = ext w !! b).
Proof.
  intros Hs Hlen Ha Hc. pose proof (poll_ok a t cx _ _ _ _ _ Hs Hlen Ha Hc) as Hp.
  pose proof N_ge_64. assert (0 ≤ count mod N < N) as Hb by (apply Z.mod_pos_bound; lia).
  set (w1 := enqueued (count mod N) t a cx (set_queue q' w)) in *.
  assert (in_cell (count mod N) (mkEntry t a cx true) w1) as Hin.
  { apply enqueued_in_cell. simpl.
    rewrite check_write_index_run, check_regional_occupancy_run in Hc.
    destruct (at_region_start _); [destruct (_ =? 0)|]; simplify_eq/=; lia. }
  assert (∀ b, b ≠ a → ext w1 !! b = ext w !! b) as Hx
    by (intros b Hba; by apply fin_maps.lookup_insert_ne).
  simpl in Hp. destruct (eqb phase local); eexists; (split; [exact Hp|]); simpl.
  - split; [exact Hin|]. split; [done|]. split; [by rewrite app_nil_r|done].
  - split; [exact Hin|]. split; [done|]. split; [done|done].
Qed.

(** A poll that finds its region occupied changes nothing but the local copy of the
    occupancy word: the task stays in its future, whose waker is parked behind all
    others. *)
Theorem full_queue_parks_the_poll a t cx count phase local w q' :
  slots_at count phase local (queue w) → ext w !! a = Some (Unbatched t) →
  check_write_index (count mod N) (queue w) = Done (Err queue_full, q') →
  ∃ w', poll a cx w = Done (Pending, w')
    ∧ ext w' = ext w ∧ trace w' = trace w
    ∧ inner (queue w') = inner (queue w) ∧ sq_slot (queue w') = sq_slot (queue w)
    ∧ deque_items (pending (queue w')) = deque_items (pending (queue w)) ++ [cx].
Proof.
  intros Hs Ha Hc. eexists. split; [by eapply poll_full|]. simpl.
  rewrite check_write_index_run, check_regional_occupancy_run in Hc.
  rewrite push_items.
  destruct (at_region_start _); [destruct (_ =? 0)|]; by simplify_eq/=.
Qed.

(** A second poll of a future whose task waits in a batch reads the value of the
    receiver without looking at the flags: before the value is written this reads
    uninitialised memory, so a future of a [TaskQueue] must not be polled again until
    it was woken. *)
Theorem early_poll_reads_uninit i e cx w :
  in_cell i e w → e_live e = true → poll (e_addr e) cx w = Undef uninit_read.
Proof.
  intros [_ Hr] Hl. unfold poll. run_with (deref_run _ _ _ (Hr Hl)).
  by run_with (replace_future_run _ Received _ _ (Hr Hl)).
Qed.
End delivery.

(** * Futures that go early, batches that go unresolved *)
Section dropping.
Context {C : QueueCfg} {HV : ValidCfg} {T V W D : Type} `{DequeLaws W D}
  `{NeedsDrop T, NeedsDrop V}.
Abbreviation task_world := (world (TaskRef T) D (futures T V W) (event W (T + V) Z)).
Abbreviation ev := (event W (T + V) Z).
Implicit Types (w : task_world) (e : entry T W) (es : list (entry T W)).

Definition dropped_tasks (ts : list T) : list ev :=
  if needs_drop (T := T) then Dropped ∘ inl <$> ts else [].
Definition dropped_values (vs : list V) : list ev :=
  if needs_drop (T := V) then Dropped ∘ inr <$> vs else [].

Lemma drop_result_run v w :
  drop_result v w = Done ((), mkWorld (queue w) (ext w) (trace w ++ dropped_values [v])).
Proof.
  unfold drop_result, dropped_values. destruct needs_drop; [done|].
  rewrite app_nil_r. by destruct w.
Qed.

(** The destructor of a future in a batch whose value is not being set right now. *)
Lemma drop_batched_run fuel a r c w :
  0 ≤ rx_state r → ext w !! a = Some (Batched r) →
  cells w !! Z.to_nat (rx_state r) = Some c →
  (Z.land (state c) SETTING_VALUE =? SETTING_VALUE) = false →
  ((Z.land (state c) VALUE_SET =? VALUE_SET) = true → is_Some (value r)) →
  let dropped :=
    if needs_drop (T := T) && (Z.land (state c) VALUE_SET =? VALUE_SET)
    then match value r with Some v => dropped_values [v] | None => [] end else [] in
  drop_batched_task (S fuel) a w
    = Done ((), mkWorld (queue (set_cell (rx_state r) (set_state (Z.lor (state c) RX_DROPPED) c) w))
                  (delete a (ext w)) (trace w ++ dropped)).
Proof.
  intros Hi Ha Hc Hset Hval dropped. unfold drop_batched_task.
  run_with (deref_run _ _ _ Ha).
  set (w1 := set_cell (rx_state r) (set_state (Z.lor (state c) RX_DROPPED) c) w).
  assert (ext w1 !! a = Some (Batched r)) as Ha1 by done.
  set (w2 := mkWorld (queue w1) (ext w1) (trace w1 ++ dropped)).
  erewrite run_bind with (s' := w2).
  2:{ run_with (fetch_or_run (rx_state r) RX_DROPPED c w Hi Hc). fold w1.
      assert (spin_while_setting (S fuel) (rx_state r) (state c) w1 = Done (state c, w1)) as Hs
        by (simpl; by rewrite Hset).
      run_with Hs. run_with (deref_run _ _ _ Ha1). unfold drop_value, w2, dropped.
      destruct (needs_drop (T := T) && _) eqn:Hd.
      - apply andb_prop in Hd as [_ Hd]. destruct (Hval Hd) as [v Hv]. rewrite Hv.
        run_with (run_ret v w1). apply drop_result_run.
      - rewrite run_ret, app_nil_r. by destruct w1. }
  cbv beta. unfold release_future. by run_with (deref_run a (Batched r) w2 Ha).
Qed.

(** A future dropped with its value set but not taken releases the value with it,
    once, and nothing is left pointing at it that a resolver would use; but only when
    the type of the tasks has a destructor: the code asks [needs_drop] of [T::Task]
    where the value is a [T::Value], so a value with a destructor is leaked when the
    task has none. *)
Theorem dropped_future_drops_value fuel i a b cx v tk w :
  0 ≤ i → ext w !! a = Some (Batched (mkReceiver i (Some v) cx)) →
  cells w !! Z.to_nat i = Some (mkTaskRef VALUE_SET (Some b) tk) →
  ∃ w', drop_batched_task (S fuel) a w = Done ((), w')
    ∧ ext w' = delete a (ext w)
    ∧ trace w' = trace w ++ (if needs_drop (T := T) then dropped_values [v] else []).
Proof.
  intros Hi Ha Hc. eexists. split.
  { by apply (drop_batched_run fuel a (mkReceiver i (Some v) cx) _ w Hi Ha Hc); [|eauto]. }
  split; [done|]. simpl. by destruct (needs_drop (T := T)).
Qed.

(** A future dropped before its task is resolved only marks the cell: a later
    resolution sees the mark, drops the value and touches neither the memory of the
    future nor its waker. *)
Theorem resolve_after_drop fuel i e v w :
  0 ≤ i → in_cell i e w → e_live e = true →
  ∃ w', drop_batched_task (S fuel) (e_addr e) w = Done ((), w')
    ∧ ext w' = delete (e_addr e) (ext w) ∧ trace w' = trace w
    ∧ ∃ w2, resolve_unchecked i v w' = Done ((), w2)
        ∧ ext w2 = ext w' ∧ trace w2 = trace w' ++ dropped_values [v].
Proof.
  intros Hi [Hc Hr] Hl. specialize (Hr Hl). unfold entry_flags in Hc. rewrite Hl in Hc.
  eexists. split.
  { by apply (drop_batched_run fuel (e_addr e) (mkReceiver i None (e_waker e)) _ w Hi Hr Hc). }
  split; [done|]. simpl. rewrite andb_false_r, app_nil_r. split; [done|].
  eexists. split.
  - apply (resolve_run i (mkEntry (e_task e) (e_addr e) (e_waker e) false) v (Some (e_task e)));
      [done| |done].
    apply set_cell_lookup. by eapply lookup_lt_Some.
  - split; [done|]. unfold settle, settle_events, dropped_values. simpl.
    by destruct (needs_drop (T := V)).
Qed.

(** The destructor of a future whose flag nobody takes back. *)
Lemma drop_spins_for_ever spins i a rv cx c w :
  0 ≤ i → ext w !! a = Some (Batched (mkReceiver i rv cx)) →
  cells w !! Z.to_nat i = Some c → Z.land (state c) SETTING_VALUE = SETTING_VALUE →
  drop_batched_task spins a w = OutOfFuel.
Proof.
  intros Hi Ha Hc Hset. unfold drop_batched_task. run_with (deref_run _ _ _ Ha).
  unfold mbind at 1, M_bind at 1. run_with (fetch_or_run i RX_DROPPED c w Hi Hc).
  set (c1 := set_state _ c). set (w1 := set_cell i c1 w).
  assert (cells w1 !! Z.to_nat i = Some c1) as Hc1
    by (apply set_cell_lookup; by eapply lookup_lt_Some).
  assert (∀ st, Z.land st SETTING_VALUE = SETTING_VALUE →
    spin_while_setting spins i st w1 = OutOfFuel) as Hspin.
  { induction spins as [|spins IH]; intros st Hst; [done|]. simpl. rewrite Hst, Z.eqb_refl.
    erewrite run_bind by (unfold load_state; run_with (read_cell_world _ _ _ Hi Hc1); reflexivity).
    apply IH. simpl. by rewrite Z.land_lor_distr_l, Hset. }
  unfold mbind, M_bind. by rewrite Hspin.
Qed.

(** A resolved future keeps its pointer to the flags of a cell it no longer owns.
    When the cell holds the next task [e] by the time the future is dropped, with its
    value still inside, the mark goes to the wrong task: the value of the dropped
    future is leaked, and the resolution of [e] takes its live receiver for a dropped
    one, so that [e] is never woken and its value is lost. That resolution never takes its
    flag back: the destructor of [e] then spins for ever. *)
Theorem stale_receiver_silences_next_task fuel i a ca v e u w :
  0 ≤ i → in_cell i e w → e_live e = true → a ≠ e_addr e →
  ext w !! a = Some (Batched (mkReceiver i (Some v) ca)) →
  ∃ w' w2, drop_batched_task (S fuel) a w = Done ((), w') ∧ trace w' = trace w
    ∧ resolve_unchecked i u w' = Done ((), w2)
    ∧ trace w2 = trace w ++ dropped_values [u]
    ∧ ext w2 !! e_addr e = Some (Batched (mkReceiver i None (e_waker e)))
    ∧ ∀ spins, drop_batched_task spins (e_addr e) w2 = OutOfFuel.
Proof.
  intros Hi [Hc Hr] Hl Hne Ha. specialize (Hr Hl). unfold entry_flags in Hc. rewrite Hl in Hc.
  do 2 eexists. split.
  { by apply (drop_batched_run fuel a (mkReceiver i (Some v) ca) _ w Hi Ha Hc). }
  simpl. rewrite andb_false_r, app_nil_r. split; [done|]. split.
  - apply (resolve_run i (mkEntry (e_task e) (e_addr e) (e_waker e) false) u (Some (e_task e)));
      [done| |done].
    apply set_cell_lookup. by eapply lookup_lt_Some.
  - unfold settle, settle_events, settled_futures, dropped_values. simpl.
    split; [by destruct (needs_drop (T := V))|].
    assert (∀ x : futures T V W, delete a (ext w) = x →
      x !! e_addr e = Some (Batched (mkReceiver i None (e_waker e)))) as Hx
      by (intros x <-; by rewrite fin_maps.lookup_delete_ne).
    split; [by apply Hx|]. intros spins.
    eapply drop_spins_for_ever; [done|by apply Hx| |].
    + apply list_lookup_insert_eq. rewrite length_insert. by eapply lookup_lt_Some.
    + done.
Qed.

(** A future whose value never came and whose cell holds another task that was resolved
    takes the flags of that task for its own: its destructor drops a value that was never
    written. *)
Lemma silenced_drop_reads_uninit spins i a cx c w :
  0 ≤ i → ext w !! a = Some (Batched (mkReceiver i None cx)) →
  cells w !! Z.to_nat i = Some c → Z.land (state c) SETTING_VALUE ≠ SETTING_VALUE →
  Z.land (state c) VALUE_SET = VALUE_SET → needs_drop (T := T) = true →
  drop_batched_task (S spins) a w = Undef uninit_read.
Proof.
  intros Hi Ha Hc Hset%Z.eqb_neq Hval%Z.eqb_eq Hd. unfold drop_batched_task.
  run_with (deref_run _ _ _ Ha). apply run_bind_undef.
  run_with (fetch_or_run i RX_DROPPED c w Hi Hc). set (w1 := set_cell _ _ w).
  assert (spin_while_setting (S spins) i (state c) w1 = Done (state c, w1)) as Hs
    by (simpl; by rewrite Hset).
  run_with Hs. run_with (deref_run a (Batched (mkReceiver i None cx)) w1 Ha).
  unfold drop_value. by rewrite Hd, Hval.
Qed.
End dropping.

(** * Assignments that are dropped *)
Section unresolved.
Context {C : QueueCfg} {HV : ValidCfg} {T V W D : Type} `{DequeLaws W D}
  `{NeedsDrop T, NeedsDrop V}.
Abbreviation task_world := (world (TaskRef T) D (futures T V W) (event W (T + V) Z)).
Implicit Types (w : task_world) (e : entry T W) (es : list (entry T W)).

Lemma batch_cells_cons start n :
  batch_cell start <$> seq 0 (S n) = start mod N :: (batch_cell (start + 1) <$> seq 0 n).
Proof.
  cbn [seq fmap list_fmap]. rewrite batch_cell_0. f_equal. rewrite <- fmap_S_seq, <- list_fmap_compose.
  apply list_fmap_ext. intros _ k _. apply eq_sym, batch_cell_succ.
Qed.

(** A batch after its first cell changed, and only that one. *)
Lemma unsettled_set_cell start e es c w tr :
  unsettled start (e :: es) w →
  unsettled (start + 1) es (mkWorld (queue (set_cell (start mod N) c w)) (ext w) tr).
Proof.
  intros [Hl Hu]. cbn [length] in Hl. split; [lia|]. intros k e' Hk. rewrite batch_cell_succ.
  destruct (Hu (S k) e' Hk) as [Hc Hr]. split; [|exact Hr]. simpl.
  pose proof (batch_cell_bounds start (S k)). pose proof (batch_cell_bounds start 0).
  apply lookup_lt_Some in Hk. rewrite <- batch_cell_0 in *.
  rewrite list_lookup_insert_ne; [done|]. intros Heq%Z2Nat.inj%batch_cell_inj; lia.
Qed.

Lemma drop_loop_run start es w :
  unsettled start es w → needs_drop (T := T) = true →
  ∃ b, for_each (batch_cell start <$> seq 0 (length es)) (λ task_ref,
         t ← take_task_unchecked task_ref; drop_task t) w
    = Done ((), mkWorld (set_buffer b (queue w)) (ext w)
                  (trace w ++ dropped_tasks (e_task <$> es))).
Proof.
  intros Hu Hd. unfold dropped_tasks. rewrite Hd. revert start w Hu.
  induction es as [|e es IH]; intros start w Hu.
  - exists (cells w). cbn. rewrite app_nil_r. by destruct w as [[? ? [] ?] ? ?].
  - cbn [length]. rewrite batch_cells_cons. cbn [for_each].
    pose proof (proj2 Hu 0%nat e eq_refl) as Hin. rewrite batch_cell_0 in Hin.
    pose proof (batch_cell_bounds start 0) as Hb. rewrite batch_cell_0 in Hb.
    set (c := mkTaskRef (T := T) (entry_flags e) (Some (e_addr e)) None).
    set (w1 := mkWorld (queue (set_cell (start mod N) c w)) (ext w)
      (trace w ++ [Dropped (inl (e_task e))])).
    destruct (IH (start + 1) w1) as [b Hr]; [by apply (unsettled_set_cell start e)|].
    exists b. erewrite run_bind.
    2:{ run_with (take_in_cell _ _ _ (proj1 Hb) Hin). unfold drop_task. rewrite Hd. reflexivity. }
    cbv beta. etransitivity; [exact Hr|]. simpl. by rewrite <- app_assoc.
Qed.

(** Dropping an assignment: what is left in the cells, then the release. *)
Lemma drop_assignment_run start es w :
  unsettled start es w → (1 ≤ length es)%nat →
  ∃ b w', drop_assignment (assignment start (length es)) w = Done ((), w')
    ∧ deoccupy_region (start mod N) (mkWorld (set_buffer b (queue w)) (ext w)
        (trace w ++ dropped_tasks (e_task <$> es))) = Done ((), w').
Proof.
  intros Hu Hne. pose proof Hu as [Hl _].
  assert (∃ b, (if needs_drop (T := T)
    then refs ← tasks (assignment start (length es));
         for_each refs (λ task_ref, t ← take_task_unchecked task_ref; drop_task t)
    else mret ()) w = Done ((), mkWorld (set_buffer b (queue w)) (ext w)
        (trace w ++ dropped_tasks (e_task <$> es)))) as (b & Hw).
  { destruct (needs_drop (T := T)) eqn:Hd.
    - destruct (drop_loop_run start es w Hu Hd) as [b Hb].
      erewrite run_bind by (apply tasks_run; lia). by exists b.
    - exists (cells w). unfold dropped_tasks. rewrite Hd, app_nil_r. by destruct w as [[? ? [] ?] ? ?]. }
  destruct (deoccupy_returns start (mkWorld (set_buffer b (queue w)) (ext w)
    (trace w ++ dropped_tasks (e_task <$> es)))) as (w' & Hr). exists b, w'. split; [|done].
  unfold drop_assignment. run_with Hw. by apply deoccupy_assignment_run.
Qed.

(** An assignment dropped without being resolved drops every task of the batch once
    and releases the region, but wakes none of the futures and leaves them as they
    were: they stay pending, and a later poll of one of them is the undefined read of
    [early_poll_reads_uninit]. *)
Theorem dropped_assignment_strands_futures start es w :
  unsettled start es w → (1 ≤ length es)%nat →
  ∃ w1 w', drop_assignment (assignment start (length es)) w = Done ((), w')
    ∧ deoccupy_region (start mod N) w1 = Done ((), w')
    ∧ trace w1 = trace w ++ dropped_tasks (e_task <$> es)
    ∧ ext w' = ext w.
Proof.
  intros Hu Hne. destruct (drop_assignment_run start es w Hu Hne) as (b & w' & Hd & Hr).
  eexists _, w'. split; [exact Hd|]. split; [exact Hr|]. split; [done|].
  set (w1 := mkWorld _ _ _) in Hr. destruct (release_futures start w1) as (w2 & Hr2 & Hx).
  rewrite Hr in Hr2. by injection Hr2 as ->.
Qed.

Lemma run_bind_head {A : Type} (x : A) xs (body : A → M task_world unit) w u :
  body x w = Undef u → for_each (x :: xs) body w = Undef u.
Proof. intros Hb. simpl. by apply run_bind_undef. Qed.

(** Taking a task twice reads a cell that was left uninitialised. *)
Lemma take_taken i c w :
  0 ≤ i → cells w !! Z.to_nat i = Some c → task c = None →
  take_task_unchecked i w = Undef uninit_read.
Proof.
  intros Hi Hc Ht. unfold take_task_unchecked. run_with (read_cell_world _ _ _ Hi Hc).
  run_with (update_cell_run _ (with_task None) _ _ Hi Hc). by rewrite Ht.
Qed.

Lemma drop_taken_assignment start n c w :
  1 ≤ Z.of_nat n ≤ N → needs_drop (T := T) = true →
  cells w !! Z.to_nat (start mod N) = Some c → task c = None →
  drop_assignment (assignment start n) w = Undef uninit_read.
Proof.
  intros Hn Hd Hc Ht. unfold drop_assignment. rewrite Hd. apply run_bind_undef.
  erewrite run_bind by by apply tasks_run. cbv beta.
  destruct n as [|n]; [lia|]. rewrite batch_cells_cons. apply run_bind_head, run_bind_undef.
  pose proof (batch_cell_bounds start 0) as Hb. rewrite batch_cell_0 in Hb.
  exact (take_taken _ _ _ (proj1 Hb) Hc Ht).
Qed.

Lemma settle_all_head left before start e v evs w :
  Z.of_nat (S (length evs)) ≤ N → (Z.to_nat (start mod N) < length (cells w))%nat →
  cells (settle_all left before start ((e, v) :: evs) w) !! Z.to_nat (start mod N)
    = Some (mkTaskRef (settled_flags e) (Some (e_addr e)) (left (e_task e))).
Proof.
  intros Hl Hlt. pose proof (batch_cell_bounds start 0) as Hb. cbn [settle_all].
  rewrite settle_all_other_cells.
  - simpl. by apply list_lookup_insert_eq.
  - intros k Hk. rewrite batch_cell_succ, <- batch_cell_0 in *. rewrite Z2Nat.id by lia.
    intros Heq%batch_cell_inj; lia.
Qed.

Lemma zip_take_map f es n :
  zip es ((f ∘ e_task) <$> take n es) = (λ e, (e, (f (e_task e) : V))) <$> take n es.
Proof.
  revert n. induction es as [|e es IH]; intros [|n]; simpl; [done..|]. by rewrite <- IH.
Qed.

(** The first [n] tasks of a batch resolved by [map]. *)
Definition partly_mapped n f start es w : task_world :=
  settle_all (λ _, None) (λ _, []) start ((λ e, (e, f (e_task e))) <$> take n es) w.

Lemma partly_mapped_next n f start es e w :
  unsettled start es w → es !! n = Some e →
  in_cell (batch_cell start n) e (partly_mapped n f start es w).
Proof.
  intros Hu He. unfold partly_mapped. rewrite <- zip_take_map.
  apply settle_all_rest; [done|done|]. rewrite length_fmap, length_take. lia.
Qed.

Lemma partly_mapped_head n f start es e (tr : list (event W (T + V) Z)) w :
  unsettled start es w → es !! n = Some e →
  let w1 := partly_mapped n f start es w in
  let c := mkTaskRef (entry_flags e) (Some (e_addr e)) None in
  ∃ c', cells (mkWorld (queue (set_cell (batch_cell start n) c w1)) (ext w1) tr)
          !! Z.to_nat (start mod N) = Some c' ∧ task c' = None.
Proof.
  intros Hu He w1 c. pose proof (partly_mapped_next n f start es e w Hu He) as [Hin _].
  apply lookup_lt_Some in Hin. fold w1 in Hin. simpl.
  destruct n as [|n]; [exists c; rewrite batch_cell_0 in *; by rewrite list_lookup_insert_eq|].
  destruct es as [|e0 es]; [done|]. destruct Hu as [Hl Hu].
  pose proof (Hu 0%nat e0 eq_refl) as [Hc0 _]. apply lookup_lt_Some in Hc0, He.
  pose proof (batch_cell_bounds start 0). pose proof (batch_cell_bounds start (S n)).
  rewrite batch_cell_0 in *. eexists. rewrite list_lookup_insert_ne.
  - unfold w1, partly_mapped. cbn [take fmap list_fmap]. rewrite settle_all_head; [done| |done].
    rewrite length_fmap, length_take. cbn in *. lia.
  - rewrite <- batch_cell_0 in *. intros Heq%Z2Nat.inj%batch_cell_inj; cbn in *; lia.
Qed.

Lemma map_unwinding_undef n f start es w :
  unsettled start es w → (n < length es)%nat → needs_drop (T := T) = true →
  map_unwinding n f (assignment start (length es)) w = Undef uninit_read.
Proof.
  intros Hu Hn Hd. pose proof Hu as [Hl Hu']. unfold map_unwinding.
  erewrite run_bind by (apply tasks_run; lia). cbv beta.
  rewrite <- fmap_take, take_seq, <- fmap_drop, drop_seq, Nat.min_l by lia.
  assert (unsettled start (take n es) w) as Hm%(map_loop_run f).
  { split; [rewrite length_take; lia|]. intros k e [Hk _]%lookup_take_Some. by apply Hu'. }
  rewrite length_take, Nat.min_l in Hm by lia. run_with Hm.
  fold (partly_mapped n f start es w).
  destruct (lookup_lt_is_Some_2 es n Hn) as [e He].
  pose proof (partly_mapped_next n f start es e w Hu He) as Hin.
  pose proof (batch_cell_bounds start n) as Hb.
  replace (length es - n)%nat with (S (length es - n - 1)) by lia. cbn [seq fmap list_fmap take].
  erewrite run_bind.
  2:{ cbn [for_each]. erewrite run_bind; [reflexivity|].
      run_with (take_in_cell _ _ _ (proj1 Hb) Hin). unfold drop_task. rewrite Hd. reflexivity. }
  cbv beta. edestruct (partly_mapped_head n f start es e) as (c & Hc & Ht); [done..|].
  eapply drop_taken_assignment; [lia|done|exact Hc|done].
Qed.

(** A panic in the iterator of [resolve_with_iter] after its first value. *)
Lemma iter_unwinding_undef v vs start es w :
  unsettled start es w → (1 ≤ length es)%nat → needs_drop (T := T) = true →
  iter_unwinding (v :: vs) (assignment start (length es)) w = Undef uninit_read.
Proof.
  intros Hu Hne Hd. pose proof Hu as [Hl Hu']. unfold iter_unwinding.
  erewrite run_bind by (apply tasks_run; lia). cbv beta.
  run_with (resolve_loop_run start es (v :: vs) w Hu).
  destruct es as [|e es]; [simpl in Hne; lia|]. cbn [zip_with zip].
  destruct (Hu' 0%nat e eq_refl) as [Hc _]. rewrite batch_cell_0 in Hc. apply lookup_lt_Some in Hc.
  eapply drop_taken_assignment; [lia|done| |].
  - apply settle_all_head; [|done]. rewrite length_zip_with. cbn [length] in *. lia.
  - unfold resolve_left. simpl. by rewrite Hd.
Qed.

(** Without destructors unwinding only gives the region back. *)
Lemma drop_assignment_plain start n w :
  needs_drop (T := T) = false →
  ∃ w', drop_assignment (assignment start n) w = Done ((), w')
    ∧ deoccupy_region (start mod N) w = Done ((), w').
Proof.
  intros Hd. destruct (deoccupy_returns start w) as [w' Hr]. exists w'. split; [|done].
  unfold drop_assignment. rewrite Hd. run_with (run_ret () w). by apply deoccupy_assignment_run.
Qed.

Lemma map_unwinding_plain n f start es w :
  unsettled start es w → (n < length es)%nat → needs_drop (T := T) = false →
  ∃ w1 w' b, map_unwinding n f (assignment start (length es)) w = Done ((), w')
    ∧ deoccupy_region (start mod N) w1 = Done ((), w') ∧ queue w1 = set_buffer b (queue w).
Proof.
  intros Hu Hn Hd. pose proof Hu as [Hl Hu'].
  destruct (lookup_lt_is_Some_2 es n Hn) as [e He].
  pose proof (partly_mapped_next n f start es e w Hu He) as Hin.
  pose proof (batch_cell_bounds start n) as Hb.
  set (w1 := set_cell (batch_cell start n) (mkTaskRef (entry_flags e) (Some (e_addr e)) None)
    (partly_mapped n f start es w)).
  destruct (drop_assignment_plain start (length es) w1 Hd) as (w' & Hdr & Hr).
  assert (∃ b, queue w1 = set_buffer b (queue w)) as [b Hq].
  { destruct (settle_all_queue (λ _, None) (λ _, []) start
      ((λ e, (e, f (e_task e))) <$> take n es) w) as [b Hq].
    exists (cells w1). unfold w1, partly_mapped, set_cell. simpl. rewrite Hq.
    by destruct (queue w) as [? ? [] ?]. }
  exists w1, w', b. split; [|done]. unfold map_unwinding.
  erewrite run_bind by (apply tasks_run; lia). cbv beta.
  rewrite <- fmap_take, take_seq, <- fmap_drop, drop_seq, Nat.min_l by lia.
  assert (unsettled start (take n es) w) as Hm%(map_loop_run f).
  { split; [rewrite length_take; lia|]. intros k e' [Hk _]%lookup_take_Some. by apply Hu'. }
  rewrite length_take, Nat.min_l in Hm by lia. run_with Hm. fold (partly_mapped n f start es w).
  replace (length es - n)%nat with (S (length es - n - 1)) by lia. cbn [seq fmap list_fmap take].
  erewrite run_bind; [exact Hdr|].
  cbn [for_each]. erewrite run_bind; [reflexivity|].
  run_with (take_in_cell _ _ _ (proj1 Hb) Hin). unfold drop_task. rewrite Hd. reflexivity.
Qed.

Lemma iter_unwinding_plain vs start es w :
  unsettled start es w → (1 ≤ length es)%nat → vs = [] ∨ needs_drop (T := T) = false →
  ∃ w1 w' b, iter_unwinding vs (assignment start (length es)) w = Done ((), w')
    ∧ deoccupy_region (start mod N) w1 = Done ((), w') ∧ queue w1 = set_buffer b (queue w).
Proof.
  intros Hu Hne Hor. pose proof Hu as [Hl Hu'].
  pose proof (resolve_loop_run start es vs w Hu) as Hloop.
  set (w1 := settle_all _ _ _ _ _) in Hloop.
  assert (∃ w2 w' b, drop_assignment (assignment start (length es)) w1 = Done ((), w')
    ∧ deoccupy_region (start mod N) w2 = Done ((), w') ∧ queue w2 = set_buffer b (queue w1))
    as (w2 & w' & b & Hdr & Hr & Hq).
  { destruct Hor as [->|Hd].
    - assert (w1 = w) as -> by (unfold w1; by destruct es).
      destruct (drop_assignment_run start es w Hu Hne) as (b & w' & Hdr & Hr). by eexists _, w', b.
    - destruct (drop_assignment_plain start (length es) w1 Hd) as (w' & Hdr & Hr).
      exists w1, w', (cells w1). split; [done|]. split; [done|]. by destruct (queue w1) as [? ? [] ?]. }
  destruct (settle_all_queue resolve_left resolve_before start (zip es vs) w) as [b1 Hq1].
  fold w1 in Hq1. exists w2, w', b. split; [|split; [done|by rewrite Hq, Hq1]].
  unfold iter_unwinding. erewrite run_bind by (apply tasks_run; lia). cbv beta. by run_with Hloop.
Qed.

(** C37. When the closure given to [map] panics, on whichever task, the unwinding drops
    the assignment, whose destructor takes every task of the batch again, the ones
    already taken too: for tasks with a destructor that is undefined behaviour. *)
Theorem panicking_map_drops_twice n f start es w :
  unsettled start es w → (n < length es)%nat → needs_drop (T := T) = true →
  map_unwinding n f (assignment start (length es)) w = Undef uninit_read.
Proof. apply map_unwinding_undef. Qed.
End unresolved.

(** * Concrete runs

    A fresh 64-cell queue and 65 futures, future [k] asking for task [100 + k] with waker
    [k]; tasks ([Z]) and values ([nat]) have destructors. *)
Local Instance task_needs_drop : NeedsDrop Z := true.
Local Instance value_needs_drop : NeedsDrop nat := true.

Definition cfg : QueueCfg := cfg64 64.
#[local] Instance valid : @ValidCfg cfg := eq_refl.

Abbreviation demo_world :=
  (world (TaskRef Z) (list_deque Z) (futures Z nat Z) (event Z (Z + nat) Z)).

Definition demo_futures : futures Z nat Z :=
  list_to_map ((λ k, (k, Unbatched (100 + Z.of_nat k))) <$> seq 0 65).
Definition demo_start : demo_world := mkWorld (@new_queue cfg _ _ _ _ new_uninit) demo_futures [].

Definition poll_from (k n : nat) : M demo_world unit :=
  for_each (seq k n) (λ a, poll (C := cfg) a (Z.of_nat a) ;; mret ()).
Definition map_from (start : Z) : M demo_world unit :=
  p ← into_assignment (C := cfg) (mkPendingAssignment (@slot_word cfg start true));
  map_assignment (C := cfg) Z.to_nat p.
Definition after (m : M demo_world unit) : demo_world :=
  match m demo_start with Done (_, w) => w | _ => demo_start end.

(** Three polls, then the third future is dropped. *)
Definition three : demo_world :=
  Eval vm_compute in after (poll_from 0 3 ;; drop_batched_task 1 2%nat).
Definition three_entries : list (entry Z Z) :=
  [mkEntry 100 0 0 true; mkEntry 101 1 1 true; mkEntry 102 2 2 false].

(** The buffer full, all of it one batch. *)
Definition full : demo_world := Eval vm_compute in after (poll_from 0 64).

(** Eight tasks resolved, but their values not polled; the rest of the buffer used and
    resolved too; then the cell of the first task reused by future 64. *)
Definition reused : demo_world :=
  Eval vm_compute in
    after (poll_from 0 8 ;; map_from 0 ;; poll_from 8 56 ;; map_from 8 ;; poll_from 64 1).

Lemma three_unsettled : @unsettled cfg Z nat Z _ 0 three_entries three.
Proof.
  split; [by vm_compute|].
  intros [|[|[|k]]] e; intros [= <-]; (split; [reflexivity|]); intros; by vm_compute.
Qed.

Lemma map_delivers_results_witness :
  ∃ w1 w', map_assignment (C := cfg) Z.to_nat (@assignment cfg 0 3) three = Done ((), w')
    ∧ @deoccupy_region cfg _ _ _ _ _ _ _ (0 mod @N cfg) w1 = Done ((), w')
    ∧ trace w1 = trace three ++ concat ((λ e, settle_events e (Z.to_nat (e_task e))) <$> three_entries)
    ∧ (∀ e cx, e ∈ three_entries → e_live e = true →
         ∃ w2, poll (C := cfg) (e_addr e) cx w' = Done (Ready (Z.to_nat (e_task e)), w2))
    ∧ (∀ a, (∀ e, e ∈ three_entries → e_live e = true → e_addr e ≠ a) → ext w' !! a = ext three !! a)
    ∧ (∀ i, (∀ k, (k < 3)%nat → @batch_cell cfg 0 k ≠ Z.of_nat i) →
         buffer (inner (queue w1)) !! i = buffer (inner (queue three)) !! i).
Proof.
  exact (map_delivers_results (C := cfg) (HV := valid) Z.to_nat 0 three_entries three
    three_unsettled ltac:(cbn; lia)).
Defined.

Lemma resolve_with_iter_by_position_witness :
  ∃ w1 w', resolve_with_iter (C := cfg) [7%nat] (@assignment cfg 0 3) three = Done ((), w')
    ∧ @deoccupy_region cfg _ _ _ _ _ _ _ (0 mod @N cfg) w1 = Done ((), w')
    ∧ trace w1 = trace three ++ concat
        ((λ ev, resolve_before (e_task ev.1) ++ settle_events ev.1 ev.2) <$> zip three_entries [7%nat])
    ∧ (∀ k e v cx, three_entries !! k = Some e → [7%nat] !! k = Some v → e_live e = true →
         ∃ w2, poll (C := cfg) (e_addr e) cx w' = Done (Ready v, w2))
    ∧ (∀ k e, three_entries !! k = Some e → (1 ≤ k)%nat → in_cell (@batch_cell cfg 0 k) e w1).
Proof.
  exact (resolve_with_iter_by_position (C := cfg) (HV := valid) [7%nat] 0 three_entries three
    three_unsettled ltac:(cbn; lia)).
Defined.

Lemma first_poll_joins_batch_witness :
  ∃ w', poll (C := cfg) 3 3 three = Done (Pending, w')
    ∧ in_cell (3 mod @N cfg) (mkEntry 103 3 3 true) w'
    ∧ @slots_at cfg _ _ (3 + 1) false false (queue w')
    ∧ trace w' = trace three ++ (if eqb false false then [] else [Spawned (@slot_word cfg 3 false)])
    ∧ (∀ b, b ≠ 3%nat → ext w' !! b = ext three !! b).
Proof.
  refine (first_poll_joins_batch (C := cfg) (HV := valid) 3 103 3 3 false false three
    (queue three) _ _ _ _); [by split; vm_compute|by vm_compute..].
Defined.

Lemma full_queue_parks_the_poll_witness :
  ∃ w', poll (C := cfg) 64 64 full = Done (Pending, w')
    ∧ ext w' = ext full ∧ trace w' = trace full
    ∧ inner (queue w') = inner (queue full) ∧ sq_slot (queue w') = sq_slot (queue full)
    ∧ deque_items (pending (queue w')) = deque_items (pending (queue full)) ++ [64].
Proof.
  refine (full_queue_parks_the_poll (C := cfg) (HV := valid) 64 164 64 64 false false full
    (queue full) _ _ _); [by split; vm_compute|by vm_compute..].
Defined.

Lemma early_poll_reads_uninit_witness : poll (C := cfg) 0 0 three = Undef uninit_read.
Proof.
  exact (early_poll_reads_uninit (C := cfg) 0 (mkEntry 100 0 0 true) 0 three
    (proj2 three_unsettled 0%nat _ eq_refl) eq_refl).
Defined.

Lemma dropped_future_drops_value_witness :
  ∃ w', drop_batched_task 1 1 reused = Done ((), w')
    ∧ ext w' = delete 1%nat (ext reused)
    ∧ trace w' = trace reused ++ [Dropped (inr 101%nat)].
Proof.
  refine (dropped_future_drops_value 0 1 1 1 1 101%nat None reused _ _ _); by vm_compute.
Defined.

Lemma resolve_after_drop_witness :
  ∃ w', drop_batched_task 1 0 three = Done ((), w')
    ∧ ext w' = delete 0%nat (ext three) ∧ trace w' = trace three
    ∧ ∃ w2, resolve_unchecked 0 9%nat w' = Done ((), w2)
        ∧ ext w2 = ext w' ∧ trace w2 = trace w' ++ dropped_values [9%nat].
Proof.
  exact (resolve_after_drop 0 0 (mkEntry 100 0 0 true) 9%nat three ltac:(lia)
    (proj2 three_unsettled 0%nat _ eq_refl) eq_refl).
Defined.

Lemma stale_receiver_silences_next_task_witness :
  ∃ w' w2, drop_batched_task 1 0 reused = Done ((), w') ∧ trace w' = trace reused
    ∧ resolve_unchecked 0 164%nat w' = Done ((), w2)
    ∧ trace w2 = trace reused ++ dropped_values [164%nat]
    ∧ ext w2 !! 64%nat = Some (Batched (mkReceiver 0 None 64))
    ∧ ∀ spins, drop_batched_task spins 64%nat w2 = OutOfFuel.
Proof.
  refine (stale_receiver_silences_next_task 0 0 0 0 100%nat (mkEntry 164 64 64 true) 164%nat
    reused _ _ _ _ _); [lia|by split; [|intros]; vm_compute|done|done|by vm_compute].
Defined.

Lemma dropped_assignment_strands_futures_witness :
  ∃ w1 w', drop_assignment (C := cfg) (@assignment cfg 0 3) three = Done ((), w')
    ∧ @deoccupy_region cfg _ _ _ _ _ _ _ (0 mod @N cfg) w1 = Done ((), w')
    ∧ trace w1 = trace three ++ [Dropped (inl 100); Dropped (inl 101); Dropped (inl 102)]
    ∧ ext w' = ext three.
Proof.
  exact (dropped_assignment_strands_futures (C := cfg) (HV := valid) 0 three_entries three
    three_unsettled ltac:(cbn; lia)).
Defined.

Lemma panicking_map_drops_twice_witness :
  map_unwinding (C := cfg) 1 Z.to_nat (@assignment cfg 0 3) three = Undef uninit_read.
Proof.
  exact (panicking_map_drops_twice (C := cfg) (HV := valid) 1 Z.to_nat 0 three_entries three
    three_unsettled ltac:(cbn; lia) eq_refl).
Defined.

(** Three laps of a 64-cell queue, by one thread: future 0 is resolved and not polled, future
    64 gets its cell, future 0 is dropped, the batch of future 64 is mapped. In the third
    lap future 128 gets the cell and is resolved. *)
Definition laps_start : demo_world :=
  mkWorld (queue demo_start) (list_to_map ((λ k, (k, Unbatched (100 + Z.of_nat k))) <$> seq 0 129)) [].

Definition two_laps : M demo_world unit :=
  poll_from 0 8 ;; map_from 0 ;; poll_from 8 56 ;; map_from 8 ;;
  poll_from 64 1 ;; drop_batched_task 1 0%nat ;; map_from 64.

Definition third_lap : M demo_world unit :=
  poll_from 65 63 ;; map_from 65 ;; poll_from 128 1 ;; map_from 128.

Definition run_to (m : M demo_world unit) (w : demo_world) : demo_world :=
  match m w with Done (_, w') => w' | _ => w end.

Definition second_lap_end : demo_world := Eval vm_compute in run_to two_laps laps_start.
Definition third_lap_end : demo_world := Eval vm_compute in run_to third_lap second_lap_end.

Lemma run_two_laps : two_laps laps_start = Done ((), second_lap_end).
Proof. by vm_compute. Qed.

Lemma run_third_lap : third_lap second_lap_end = Done ((), third_lap_end).
Proof. by vm_compute. Qed.

(** C36. Polls, [map] and destructors alone, all of them in the order their contracts allow,
    reach undefined behaviour: after future 0 was dropped late, future 64, whose batch was
    mapped, is never woken, although its neighbours are; dropped before the next lap it
    spins for ever, dropped after it, it drops a value that was never written. *)
Theorem stale_receivers_reach_undefined :
  (∀ spins, (two_laps ;; drop_batched_task spins 64%nat) laps_start = OutOfFuel)
  ∧ ∃ w, (two_laps ;; third_lap) laps_start = Done ((), w)
      ∧ 64 ∉ wakes (trace w) ∧ 63 ∈ wakes (trace w) ∧ 65 ∈ wakes (trace w)
      ∧ ∀ spins, drop_batched_task (S spins) 64%nat w = Undef uninit_read.
Proof.
  split.
  - intros spins. run_with run_two_laps.
    apply (drop_spins_for_ever spins 0 64 None 64 (mkTaskRef 5 (Some 64%nat) None)); by vm_compute.
  - exists third_lap_end. split; [run_with run_two_laps; exact run_third_lap|].
    split; [apply (bool_decide_unpack _); by vm_compute|].
    split; [apply (bool_decide_unpack _); by vm_compute|].
    split; [apply (bool_decide_unpack _); by vm_compute|]. intros spins.
    apply (silenced_drop_reads_uninit spins 0 64 64 (mkTaskRef 2 (Some 128%nat) None));
      by vm_compute.
Qed.
