(* ===== verification/Handover.v ===== *)
(** The handover of one value: a resolver on one thread, the owner of the future on
    another, interleaved at their atomic accesses.

    [resolver_step] and [owner_step] are the accesses of [resolve_unchecked] and of the
    destructor of [BatchedTask] in [TaskRef], one at a time; a waiting future may also be
    polled once it was woken. The memory is sequentially consistent. *)
From S2P Require Import Prelude Usize Helpers Deque Queue Ranges TaskRef Assignment Resolution Delivery.
Local Open Scope Z_scope.

Section defs.
Context {C : QueueCfg} {T V W D : Type} `{Deque W D} `{NeedsDrop T, NeedsDrop V}.
Abbreviation task_world := (world (TaskRef T) D (futures T V W) (event W (T + V) Z)).
Abbreviation op A := (M task_world A).

(** The cell, the address and waker of the future, and the value to hand over. *)
Variables (i : Z) (a : addr) (wk : W) (v : V).

Inductive resolver_pc : Type :=
| RStart
| RWrite
| RWake
| REnd
| RDropValue
| RDone (delivered : bool).

(** How the future ended: with a value, or dropped, after the value was set or not. *)
Inductive fate : Type :=
| Taken (v : V)
| Discarded (value_set : bool).

Inductive owner_pc : Type :=
| Waiting
| Spinning (state : Z)
| Leaving (f : fate)
| Gone (f : fate).

Definition resolver_step (pc : resolver_pc) : op resolver_pc :=
  match pc with
  | RStart =>
      state ← begin_resolve i;
      mret (if Z.land state RX_DROPPED =? 0 then RWrite else RDropValue)
  | RWrite => write_value i v ;; mret RWake
  | RWake => wake_receiver i ;; mret REnd
  | REnd => end_resolve i ;; mret (RDone true)
  | RDropValue => drop_result v ;; mret (RDone false)
  | RDone delivered => mret (RDone delivered)
  end.

Definition owner_step (pc : owner_pc) : op owner_pc :=
  match pc with
  | Waiting => state ← mark_dropped i; mret (Spinning state)
  | Spinning state =>
      if Z.land state SETTING_VALUE =? SETTING_VALUE
      then state ← load_state i; mret (Spinning state)
      else now ← deref a;
           match now with
           | Batched r =>
               drop_value r state ;;
               mret (Leaving (Discarded (Z.land state VALUE_SET =? VALUE_SET)))
           | _ => undef unreachable_code
           end
  | Leaving f => release_future a ;; mret (Gone f)
  | Gone f => mret (Gone f)
  end.

Definition owner_poll (cx : W) : op owner_pc :=
  p ← poll a cx;
  match p with
  | Ready v => mret (Leaving (Taken v))
  | Pending => mret Waiting
  end.

Record race : Type := mkRace { r_pc : resolver_pc; o_pc : owner_pc; r_world : task_world }.

Inductive race_step : race → race → Prop :=
| race_resolver pc pc' opc w w' :
    resolver_step pc w = Done (pc', w') → race_step (mkRace pc opc w) (mkRace pc' opc w')
| race_owner rpc pc pc' w w' :
    owner_step pc w = Done (pc', w') → race_step (mkRace rpc pc w) (mkRace rpc pc' w')
| race_poll rpc pc' cx w w' :
    Woken wk ∈ trace w → owner_poll cx w = Done (pc', w') →
    race_step (mkRace rpc Waiting w) (mkRace rpc pc' w').

(** A task waiting in its cell, nobody at it yet, no events so far. *)
Definition race_start (tk : option T) (s : race) : Prop :=
  r_pc s = RStart ∧ o_pc s = Waiting ∧ trace (r_world s) = []
  ∧ cells (r_world s) !! Z.to_nat i = Some (mkTaskRef 0 (Some a) tk)
  ∧ ext (r_world s) !! a = Some (Batched (mkReceiver i None wk)).

Definition race_reachable (s : race) : Prop := ∃ tk s0, race_start tk s0 ∧ rtc race_step s0 s.

(** ** What holds along the way *)
Definition resolver_flags (pc : resolver_pc) : Z :=
  match pc with
  | RStart => 0
  | RWrite | RWake | REnd | RDropValue | RDone false => SETTING_VALUE
  | RDone true => VALUE_SET
  end.

Definition marked (pc : owner_pc) : bool :=
  match pc with
  | Spinning _ | Leaving (Discarded _) | Gone (Discarded _) => true
  | _ => false
  end.

Definition race_flags (s : race) : Z :=
  Z.lor (resolver_flags (r_pc s)) (if marked (o_pc s) then RX_DROPPED else 0).

Definition received_value (pc : resolver_pc) : option V :=
  match pc with RWake | REnd | RDone true => Some v | _ => None end.

Definition race_future (s : race) : option (State T V W) :=
  let batched := Batched (mkReceiver i (received_value (r_pc s)) wk) in
  match o_pc s with
  | Waiting | Spinning _ | Leaving (Discarded _) => Some batched
  | Leaving (Taken _) => Some Received
  | Gone _ => None
  end.

Definition discard_events (pc : owner_pc) : list (event W (T + V) Z) :=
  match pc with
  | Leaving (Discarded true) | Gone (Discarded true) =>
      if needs_drop (T := T) then dropped_values [v] else []
  | _ => []
  end.

Definition race_trace (s : race) : list (event W (T + V) Z) :=
  match r_pc s with
  | REnd | RDone true => [Woken wk]
  | RDone false => dropped_values [v]
  | _ => []
  end ++ discard_events (o_pc s).

(** Which states of the two go together. *)
Definition race_pair (rpc : resolver_pc) (opc : owner_pc) : Prop :=
  match rpc, opc with
  | RStart, (Waiting | Leaving (Discarded false) | Gone (Discarded false)) => True
  | RStart, Spinning s => s = 0
  | (RWrite | RWake | REnd), Spinning s =>
      s = SETTING_VALUE ∨ s = Z.lor SETTING_VALUE RX_DROPPED
  | (RWrite | RWake), Waiting => True
  | (REnd | RDone true), Waiting => True
  | (REnd | RDone true), (Leaving (Taken v') | Gone (Taken v')) => v' = v
  | RDone true, Spinning s =>
      s ∈ [SETTING_VALUE; Z.lor SETTING_VALUE RX_DROPPED; VALUE_SET; Z.lor VALUE_SET RX_DROPPED]
  | RDone true, (Leaving (Discarded true) | Gone (Discarded true)) => True
  | (RDropValue | RDone false), Spinning s => s = 0
  | (RDropValue | RDone false), (Leaving (Discarded false) | Gone (Discarded false)) => True
  | _, _ => False
  end.

(** [w'] differs from [w] at most in the cell, in the future and in the log. *)
Definition nearby (w w' : task_world) : Prop :=
  ∃ buf, queue w' = set_buffer buf (queue w) ∧ length buf = length (cells w)
    ∧ (∀ j, j ≠ Z.to_nat i → buf !! j = cells w !! j)
    ∧ (∀ b, b ≠ a → ext w' !! b = ext w !! b).

Record race_inv (tk : option T) (s : race) : Prop := {
  rc_cell : cells (r_world s) !! Z.to_nat i = Some (mkTaskRef (race_flags s) (Some a) tk);
  rc_future : ext (r_world s) !! a = race_future s;
  rc_trace : trace (r_world s) = race_trace s;
  rc_pair : race_pair (r_pc s) (o_pc s)
}.
End defs.
Arguments Taken {_} _.
Arguments Discarded {_} _.
Arguments Waiting {_}.
Arguments Spinning {_} _.
Arguments Leaving {_} _.
Arguments Gone {_} _.
Arguments mkRace {_ _ _ _} _ _ _.

Section proofs.
Context {C : QueueCfg} {T V W D : Type} `{Deque W D} `{NeedsDrop T, NeedsDrop V}.
Abbreviation task_world := (world (TaskRef T) D (futures T V W) (event W (T + V) Z)).
Variables (i : Z) (a : addr) (wk : W) (v : V).
Hypothesis (Hi : 0 ≤ i).
Implicit Types (w : task_world) (s : race (T := T) (V := V) (W := W) (D := D)).

Abbreviation inv := (race_inv i a wk v).

(** A race invariant only looks at the cell, the future and the events. *)
Lemma race_inv_intro tk rpc opc w flags :
  cells w !! Z.to_nat i = Some (mkTaskRef flags (Some a) tk) →
  ext w !! a = race_future i wk v (mkRace rpc opc w) →
  trace w = race_trace wk v (mkRace rpc opc w) →
  race_pair v rpc opc → flags = race_flags (mkRace rpc opc w) →
  inv tk (mkRace rpc opc w).
Proof. intros ? ? ? ? ->. by split. Qed.

(** An access touches the cell, the future and the log of its own race. *)
Lemma nearby_events w tr : nearby i a w (mkWorld (queue w) (ext w) tr).
Proof. exists (cells w). split; [by destruct w as [[? ? [] ?] ? ?]|done]. Qed.

Lemma nearby_same w : nearby i a w w.
Proof. destruct w as [q x tr]. apply (nearby_events (mkWorld q x tr)). Qed.

Lemma nearby_cell c w : nearby i a w (set_cell i c w).
Proof.
  eexists. split; [done|]. split; [by rewrite length_insert|]. split; [|done].
  intros j Hj. by apply list_lookup_insert_ne.
Qed.

Lemma nearby_future x w :
  (∀ b, b ≠ a → x !! b = ext w !! b) → nearby i a w (set_ext x w).
Proof. intros Hx. exists (cells w). split; [by destruct w as [[? ? [] ?] ? ?]|done]. Qed.

Lemma nearby_put st w : nearby i a w (set_ext (<[a := st]> (ext w)) w).
Proof. apply nearby_future. intros b Hb. by apply fin_maps.lookup_insert_ne. Qed.

Lemma nearby_gone w : nearby i a w (set_ext (delete a (ext w)) w).
Proof. apply nearby_future. intros b Hb. by apply fin_maps.lookup_delete_ne. Qed.

#[local] Hint Resolve nearby_events nearby_same nearby_cell nearby_put nearby_gone : core.

Lemma resolver_step_run tk s :
  inv tk s → ∃ pc' w', resolver_step i v (r_pc s) (r_world s) = Done (pc', w')
    ∧ inv tk (mkRace pc' (o_pc s) w') ∧ nearby i a (r_world s) w'.
Proof.
  destruct s as [rpc opc w]. intros [Hc Hf Ht Hp]. simpl in *.
  pose proof (lookup_lt_Some _ _ _ Hc) as Hlt.
  assert (∀ r, rpc = RWrite ∨ rpc = RWake → race_future i wk v (mkRace rpc opc w) = r →
    r = Some (Batched (mkReceiver i (received_value v rpc) wk))) as Hlive.
  { intros r [-> | ->] <-; destruct opc as [|st|[]|[]]; done. }
  destruct rpc as [| | | | |d].
  - do 2 eexists. split.
    { unfold resolver_step. rewrite (run_bind _ _ _ _ _ (fetch_or_run i SETTING_VALUE _ w Hi Hc)).
      reflexivity. }
    split; [|by auto]. destruct opc as [|st|[v'|[]]|[v'|[]]]; try done; simpl in Hp; subst;
      (eapply race_inv_intro; [by apply set_cell_lookup|exact Hf|exact Ht|done|done]).
  - rewrite (Hlive _ (or_introl eq_refl) eq_refl) in Hf. do 2 eexists. split.
    { unfold resolver_step. rewrite (run_bind _ _ _ _ _ (write_value_run i _ a _ v w Hi Hc eq_refl Hf)).
      reflexivity. }
    split; [|by auto]. eapply race_inv_intro; [exact Hc| |exact Ht| |]; destruct opc as [|st|[v'|[]]|[v'|[]]];
      try done; apply fin_maps.lookup_insert_eq.
  - rewrite (Hlive _ (or_intror eq_refl) eq_refl) in Hf. do 2 eexists. split.
    { unfold resolver_step. rewrite (run_bind _ _ _ _ _ (wake_receiver_run i _ a _ w Hi Hc eq_refl Hf)).
      reflexivity. }
    split; [|by auto]. simpl in Ht. eapply race_inv_intro; [exact Hc| | | |]; destruct opc as [|st|[v'|[]]|[v'|[]]];
      try done; simpl; by rewrite Ht.
  - do 2 eexists. split.
    { unfold resolver_step, end_resolve.
      erewrite run_bind; [reflexivity|].
      rewrite (run_bind _ _ _ _ _
        (fetch_xor_run i (Z.lor SETTING_VALUE VALUE_SET) _ w Hi Hc)). reflexivity. }
    split; [|by auto]. destruct opc as [|st|[v'|[]]|[v'|[]]]; try done; simpl in Hp; subst;
      (eapply race_inv_intro; [by apply set_cell_lookup|exact Hf|exact Ht| |done]); [done| |done..].
    simpl. set_solver.
  - do 2 eexists. split.
    { unfold resolver_step. rewrite (run_bind _ _ _ _ _ (drop_result_run v w)). reflexivity. }
    split; [|by auto]. simpl in Ht. eapply race_inv_intro; [exact Hc|exact Hf| |done|by destruct opc].
    cbn. rewrite Ht. destruct opc as [|st|[v'|[]]|[v'|[]]]; try done; cbn; by rewrite ?app_nil_r.
  - exists (RDone d), w. split_and!; by auto.
Qed.

Lemma release_future_run (f : fate (V := V)) w st :
  ext w !! a = Some st → (∀ t, st ≠ Unbatched t) →
  (release_future a ;; mret (Gone f)) w = Done (Gone f, set_ext (delete a (ext w)) w).
Proof.
  intros Ha Hst. unfold release_future. erewrite run_bind; [reflexivity|].
  run_with (deref_run _ _ _ Ha). erewrite run_bind by reflexivity.
  destruct st as [t| |]; [by destruct (Hst t)|done..].
Qed.

Lemma owner_leaves tk rpc f w :
  inv tk (mkRace rpc (Leaving f) w) →
  ∃ w', owner_step i a (Leaving f) w = Done (Gone f, w') ∧ inv tk (mkRace rpc (Gone f) w')
    ∧ nearby i a w w'.
Proof.
  intros [Hc Hf Ht Hp]. simpl in *. eexists. split; [|split; [|by auto]].
  - destruct f; simpl in Hf; (eapply release_future_run; [exact Hf|done]).
  - eapply race_inv_intro; [exact Hc| | | |]; [|destruct rpc as [| | | | |[]], f as [|[]]; done..].
    apply fin_maps.lookup_delete_eq.
Qed.

Lemma drop_value_run rpc st w :
  ((Z.land st VALUE_SET =? VALUE_SET) = true → rpc = RDone true) →
  drop_value (mkReceiver i (received_value v rpc) wk) st w
    = Done ((), mkWorld (queue w) (ext w)
        (trace w ++ discard_events v (Leaving (Discarded (Z.land st VALUE_SET =? VALUE_SET))))).
Proof.
  intros Hv. unfold drop_value. destruct (Z.land st VALUE_SET =? VALUE_SET); cbn.
  - rewrite Hv by done. destruct (needs_drop (T := T)); cbn.
    + run_with (run_ret v w). apply drop_result_run.
    + rewrite app_nil_r. by destruct w.
  - rewrite andb_false_r, app_nil_r. by destruct w.
Qed.

(** A spinning owner goes on in two cases: the value is set, or it never will be. *)
Lemma spin_exit rpc st :
  race_pair v rpc (Spinning st) → (Z.land st SETTING_VALUE =? SETTING_VALUE) = false →
  ((Z.land st VALUE_SET =? VALUE_SET) = true ∧ rpc = RDone true)
  ∨ ((Z.land st VALUE_SET =? VALUE_SET) = false
     ∧ (rpc = RStart ∨ rpc = RDropValue ∨ rpc = RDone false)).
Proof.
  intros Hp Hset. destruct rpc as [| | | | |[]]; simpl in Hp; subst; auto;
    [by destruct Hp as [-> | ->]..|].
  left. split; [|done]. rewrite !elem_of_cons, elem_of_nil in Hp.
  by destruct Hp as [-> |[-> |[-> |[-> |[]]]]].
Qed.

Lemma owner_spins tk rpc st w :
  inv tk (mkRace rpc (Spinning st) w) →
  ∃ pc' w', owner_step i a (Spinning st) w = Done (pc', w') ∧ inv tk (mkRace rpc pc' w')
    ∧ nearby i a w w'.
Proof.
  intros [Hc Hf Ht Hp]. simpl in Hc, Hf, Ht, Hp. simpl owner_step.
  destruct (Z.land st SETTING_VALUE =? SETTING_VALUE) eqn:Hset.
  - do 2 eexists. split.
    { unfold load_state. erewrite run_bind; [reflexivity|].
      run_with (read_cell_world _ _ _ Hi Hc). reflexivity. }
    split; [|by auto]. eapply race_inv_intro; [exact Hc|exact Hf|exact Ht| |done].
    destruct rpc as [| | | | |[]]; simpl in *; subst; try done; [by right..|].
    rewrite !elem_of_cons. by right; right; right; left.
  - pose proof (spin_exit _ _ Hp Hset) as Hex.
    assert ((Z.land st VALUE_SET =? VALUE_SET) = true → rpc = RDone true) as Hdone
      by (intros; destruct Hex as [[_ ?]|[? _]]; congruence).
    do 2 eexists. split.
    { run_with (deref_run _ _ _ Hf). run_with (drop_value_run _ _ w Hdone). reflexivity. }
    split; [|by auto]. destruct Hex as [[-> ->]|[-> Hrpc]];
      (eapply race_inv_intro; [exact Hc|exact Hf| | |]); try done.
    + change (trace w ++ discard_events v (Leaving (Discarded true)) =
        [Woken wk] ++ discard_events v (Leaving (Discarded true))). by rewrite Ht.
    + change (trace w ++ [] = race_trace wk v (mkRace rpc (Leaving (Discarded false)) w)).
      rewrite app_nil_r, Ht. done.
    + by destruct Hrpc as [-> |[-> | ->]].
Qed.

Lemma owner_step_run tk s :
  inv tk s → ∃ pc' w', owner_step i a (o_pc s) (r_world s) = Done (pc', w')
    ∧ inv tk (mkRace (r_pc s) pc' w') ∧ nearby i a (r_world s) w'.
Proof.
  destruct s as [rpc [|st|f|f] w]; intros I.
  - destruct I as [Hc Hf Ht Hp]. pose proof (lookup_lt_Some _ _ _ Hc) as Hlt.
    do 2 eexists. split.
    { simpl owner_step. unfold mark_dropped. rewrite (run_bind _ _ _ _ _ (fetch_or_run i RX_DROPPED _ _ Hi Hc)).
      reflexivity. }
    split; [|by auto]. simpl in Hp. eapply race_inv_intro; [by apply set_cell_lookup|exact Hf|exact Ht| |];
      destruct rpc as [| | | | |[]]; simpl in *; try done; try by left.
    rewrite !elem_of_cons. by right; right; left.
  - by apply owner_spins.
  - destruct (owner_leaves _ _ _ _ I) as (w' & Hs & I'). eauto.
  - exists (Gone f), w. split_and!; by auto.
Qed.

Lemma owner_poll_run tk rpc cx w :
  inv tk (mkRace rpc Waiting w) → Woken wk ∈ trace w →
  ∃ w', owner_poll a cx w = Done (Leaving (Taken v), w')
    ∧ inv tk (mkRace rpc (Leaving (Taken v)) w').
Proof.
  intros [Hc Hf Ht Hp] Hwk. simpl in Hc, Hf, Ht, Hp.
  assert (received_value v rpc = Some v ∧ (rpc = REnd ∨ rpc = RDone true)) as [Hv Hrpc].
  { rewrite Ht in Hwk. destruct rpc as [| | | | |[]]; try done; auto; by apply elem_of_nil in Hwk. }
  eexists. split.
  - unfold owner_poll. run_with (poll_value a _ v cx w Hf Hv). reflexivity.
  - destruct Hrpc as [-> | ->]; (eapply race_inv_intro; [exact Hc| |exact Ht|done|done]);
      apply fin_maps.lookup_insert_eq.
Qed.

Lemma race_inv_reachable s : race_reachable i a wk v s → ∃ tk, inv tk s.
Proof.
  intros (tk & s0 & (Hr & Ho & Ht & Hc & Hf) & Hrun). exists tk.
  assert (inv tk s0) as I.
  { destruct s0 as [rpc opc w]. simpl in *. subst. by eapply race_inv_intro. }
  refine (rtc_invariant (race_step i a wk v) (inv tk) s0 s _ I Hrun).
  clear - Hi. intros s s' Hst I.
  destruct Hst as [pc pc' opc w w' Hs|rpc pc pc' w w' Hs|rpc pc' cx w w' Hwk Hs].
  - destruct (resolver_step_run _ _ I) as (? & ? & Hs' & I' & _).
    cbn [r_pc o_pc r_world] in Hs', I'. rewrite Hs in Hs'. by simplify_eq.
  - destruct (owner_step_run _ _ I) as (? & ? & Hs' & I' & _).
    cbn [r_pc o_pc r_world] in Hs', I'. rewrite Hs in Hs'. by simplify_eq.
  - destruct (owner_poll_run _ _ cx _ I Hwk) as (? & Hs' & I').
    rewrite Hs in Hs'. by simplify_eq.
Qed.
End proofs.

(** * What the handover guarantees *)
Section guarantees.
Context {C : QueueCfg} {T V W D : Type} `{Deque W D} `{NeedsDrop T, NeedsDrop V}.
Abbreviation task_world := (world (TaskRef T) D (futures T V W) (event W (T + V) Z)).
Implicit Types (w : task_world) (s : race (T := T) (V := V) (W := W) (D := D)).

(** A number of accesses of the resolver. *)
Fixpoint resolver_steps (k : nat) (i : Z) (v : V) (pc : resolver_pc)
  : M task_world resolver_pc :=
  match k with
  | O => mret pc
  | S k => pc ← resolver_step i v pc; resolver_steps k i v pc
  end.

Lemma resolver_steps_done k i v d w : resolver_steps k i v (RDone d) w = Done (RDone d, w).
Proof. induction k as [|k IH]; [done|]. exact IH. Qed.

(** The accesses of [resolver_step], run from the start without interruption, are
    [resolve_unchecked]. *)
Lemma resolver_steps_are_resolve i v w :
  (resolver_steps 4 i v RStart ;; mret ()) w = resolve_unchecked i v w.
Proof.
  unfold resolve_unchecked, resolver_steps, resolver_step. unfold mbind, M_bind, mret, M_ret.
  destruct (begin_resolve i w) as [[st w1]| |]; [|done..].
  destruct (Z.land st RX_DROPPED =? 0).
  - destruct (write_value i v w1) as [[[] w2]| |]; [|done..].
    destruct (wake_receiver i w2) as [[[] w3]| |]; [|done..].
    by destruct (end_resolve i w3) as [[[] w4]| |].
  - by destruct (drop_result v w1) as [[[] w2]| |].
Qed.

(** The same for the owner. *)
Fixpoint owner_steps (k : nat) (i : Z) (a : addr) (pc : owner_pc (V := V))
  : M task_world (owner_pc (V := V)) :=
  match k with
  | O => mret pc
  | S k => pc ← owner_step i a pc; owner_steps k i a pc
  end.

Lemma owner_steps_gone k i a f w : owner_steps k i a (Gone f) w = Done (Gone f, w).
Proof. induction k as [|k IH]; [done|]. exact IH. Qed.

Lemma load_state_same i w x w' : load_state i w = Done (x, w') → w' = w.
Proof.
  unfold load_state. intros Hl. inv_run Hl. injection Hl as _ <-.
  unfold on_queue in Hrun. apply zoom_done in Hrun as (q & Hr & ->).
  unfold read_cell, mbind, M_bind, gets, id, get_unchecked in Hr.
  case_bool_decide; [|done]. destruct (_ !! _); [|done]. unfold mret, M_ret in Hr.
  injection Hr as _ <-. by destruct w.
Qed.

Lemma spin_same fuel i st w x w' : spin_while_setting fuel i st w = Done (x, w') → w' = w.
Proof.
  revert st. induction fuel as [|fuel IH]; intros st Hs; [done|]. simpl in Hs.
  destruct (_ =? _); [|by injection Hs as _ <-]. inv_run Hs.
  pose proof (load_state_same _ _ _ _ Hrun) as ->. by eapply IH.
Qed.

Lemma mark_dropped_ext i w x w' : mark_dropped i w = Done (x, w') → ext w' = ext w.
Proof.
  unfold mark_dropped, fetch_or_state. intros Hm. inv_run Hm.
  pose proof (load_state_same _ _ _ _ Hrun) as ->. inv_run Hm. injection Hm as _ <-.
  unfold update_cell, on_queue in Hrun0. by apply zoom_done in Hrun0 as (q & _ & ->).
Qed.

(** The spin loop and what comes after it, from a loaded word of flags. *)
Lemma owner_steps_spin fuel i a r st w st1 w1 w' :
  ext w !! a = Some (Batched r) →
  spin_while_setting fuel i st w = Done (st1, w1) →
  (drop_value r st1 ;; release_future a) w1 = Done ((), w') →
  ∃ f, owner_steps (S fuel) i a (Spinning st) w = Done (Gone f, w').
Proof.
  intros Ha. revert st. induction fuel as [|fuel IH]; intros st Hs Hd; [done|].
  simpl in Hs. change (owner_steps (S (S fuel)) i a (Spinning st) w)
    with ((pc ← owner_step i a (Spinning st); owner_steps (S fuel) i a pc) w).
  unfold owner_step at 1. destruct (Z.land st SETTING_VALUE =? SETTING_VALUE).
  - inv_run Hs. pose proof (load_state_same _ _ _ _ Hrun) as ->.
    destruct (IH _ Hs Hd) as (f & Hf). exists f. erewrite run_bind; [exact Hf|].
    by run_with Hrun.
  - injection Hs as <- <-. inv_run Hd. exists (Discarded (Z.land st VALUE_SET =? VALUE_SET)).
    erewrite run_bind.
    2:{ run_with (deref_run _ _ _ Ha). run_with Hrun. reflexivity. }
    cbn [owner_steps]. erewrite run_bind; [apply owner_steps_gone|].
    simpl owner_step. by run_with Hd.
Qed.

(** The accesses of [owner_step], run from the start without interruption, are the
    destructor of a batched future: if the destructor returns, after at most [fuel] rounds
    of its spin loop, that many steps and two more lead to the same memory and events. *)
Theorem owner_steps_are_drop fuel a r w w' :
  ext w !! a = Some (Batched r) → drop_batched_task fuel a w = Done ((), w') →
  ∃ f, owner_steps (S (S fuel)) (rx_state r) a Waiting w = Done (Gone f, w').
Proof.
  intros Ha Hd. unfold drop_batched_task in Hd. inv_run Hd.
  rewrite (deref_run _ _ _ Ha) in Hrun. injection Hrun as <- <-. inv_run Hd.
  apply bind_done in Hrun as (st & wm & Hm & Hrun).
  apply bind_done in Hrun as (st1 & ws & Hs & Hrun).
  pose proof (spin_same _ _ _ _ _ _ Hs) as ->. inv_run Hrun.
  assert (ext wm !! a = Some (Batched r)) as Ha2 by by rewrite (mark_dropped_ext _ _ _ _ Hm).
  rewrite (deref_run _ _ _ Ha2) in Hrun0. injection Hrun0 as <- <-.
  destruct (owner_steps_spin fuel (rx_state r) a r _ wm _ wm w' Ha2 Hs) as (f & Hf).
  { by run_with Hrun. }
  exists f. change (owner_steps (S (S fuel)) (rx_state r) a Waiting w)
    with ((pc ← owner_step (rx_state r) a Waiting; owner_steps (S fuel) (rx_state r) a pc) w).
  erewrite run_bind; [exact Hf|]. simpl. by run_with Hm.
Qed.

(** However the accesses of a resolver and of the owner of the future interleave,
    none is undefined: the resolver never writes to or wakes a receiver that is gone,
    the destructor never drops a value that is not there, and a future polled after it
    was woken finds its value. *)
Theorem handover_never_undefined i a wk v s :
  0 ≤ i → race_reachable i a wk v s →
  (∃ pc w, resolver_step i v (r_pc s) (r_world s) = Done (pc, w))
  ∧ (∃ pc w, owner_step i a (o_pc s) (r_world s) = Done (pc, w))
  ∧ (o_pc s = Waiting → Woken wk ∈ trace (r_world s) →
     ∀ cx, ∃ w, owner_poll a cx (r_world s) = Done (Leaving (Taken v), w)).
Proof.
  intros Hi [tk I]%race_inv_reachable; [|done]. split; [|split].
  - destruct (resolver_step_run i a wk v Hi tk s I) as (pc & w & Hs & _). eauto.
  - destruct (owner_step_run i a wk v Hi tk s I) as (pc & w & Hs & _). eauto.
  - intros Ho Hwk cx. destruct s as [rpc opc w]. simpl in *. subst opc.
    destruct (owner_poll_run i a wk v tk rpc cx w I Hwk) as (w' & Hp & _). eauto.
Qed.

(** C18. When both sides are done the value went to exactly one place: it was returned
    by the poll that followed the one wake-up; or the future had been dropped before
    the resolver came, and the resolver dropped it; or the future was dropped later
    and dropped it, provided the tasks have a destructor (otherwise it is leaked). In
    every case the future's memory is gone and its waker was woken at most once. *)
Theorem value_goes_to_one_place i a wk v s delivered f :
  0 ≤ i → race_reachable i a wk v s → r_pc s = RDone delivered → o_pc s = Gone f →
  ext (r_world s) !! a = None
  ∧ match f with
    | Taken v' => v' = v ∧ delivered = true ∧ trace (r_world s) = [Woken wk]
    | Discarded true =>
        delivered = true ∧ trace (r_world s)
          = Woken wk :: (if needs_drop (T := T) then dropped_values [v] else [])
    | Discarded false =>
        delivered = false ∧ trace (r_world s) = dropped_values [v]
    end.
Proof.
  intros Hi [tk [_ Hf Ht Hp]]%race_inv_reachable Hr Ho; [|done].
  destruct s as [rpc opc w]. simpl in *. subst. split; [done|].
  destruct delivered, f as [v'|[]]; simpl in Hp; try done.
  cbn in Ht. by rewrite app_nil_r in Ht.
Qed.

Lemma owner_reloads i a wk v tk rpc st w :
  0 ≤ i → race_inv i a wk v tk (mkRace rpc (Spinning st) w) →
  Z.land st SETTING_VALUE = SETTING_VALUE →
  owner_step i a (Spinning st) w
    = Done (Spinning (race_flags (mkRace rpc (Spinning st) w)), w).
Proof.
  intros Hi [Hc _ _ _] Hset. simpl owner_step. rewrite Hset, Z.eqb_refl. unfold load_state.
  erewrite run_bind; [reflexivity|]. run_with (read_cell_world _ _ _ Hi Hc). reflexivity.
Qed.

Lemma owner_exits i a wk v tk rpc st w :
  0 ≤ i → race_inv i a wk v tk (mkRace rpc (Spinning st) w) →
  Z.land st SETTING_VALUE ≠ SETTING_VALUE →
  ∃ b w', owner_step i a (Spinning st) w = Done (Leaving (Discarded b), w').
Proof.
  intros Hi I Hne. destruct (owner_step_run i a wk v Hi tk _ I) as (pc' & w' & Hs & _).
  cbn [o_pc r_world] in Hs. rewrite Hs. simpl in Hs. apply Z.eqb_neq in Hne. rewrite Hne in Hs.
  apply bind_done in Hs as (now & w1 & _ & Hs). destruct now; try done.
  apply bind_done in Hs as ([] & w2 & _ & Hs). unfold mret, M_ret in Hs. simplify_eq. eauto.
Qed.

(** The accesses still missing once the flag is set. *)
Lemma resolver_finishes i a wk v tk rpc opc w :
  0 ≤ i → race_inv i a wk v tk (mkRace rpc opc w) →
  rpc ∈ [RWrite; RWake; REnd; RDone true] →
  ∃ w', (pc ← resolver_step i v rpc; pc ← resolver_step i v pc; resolver_step i v pc) w
    = Done (RDone true, w').
Proof.
  intros Hi I Hrpc.
  destruct (resolver_step_run i a wk v Hi tk _ I) as (p1 & w1 & Hs1 & I1 & _).
  destruct (resolver_step_run i a wk v Hi tk _ I1) as (p2 & w2 & Hs2 & I2 & _).
  destruct (resolver_step_run i a wk v Hi tk _ I2) as (p3 & w3 & Hs3 & I3 & _).
  cbn [r_pc r_world o_pc] in *. exists w3. run_with Hs1. run_with Hs2. rewrite Hs3.
  assert (∀ pc pc' w w', resolver_step i v pc w = Done (pc', w') →
    match pc with
    | RWrite => pc' = RWake | RWake => pc' = REnd
    | REnd | RDone true => pc' = RDone true | _ => True
    end) as Hnext.
  { clear. intros pc pc' w w' Hs. destruct pc as [| | | | |[]]; simpl in Hs; try done;
      try (apply bind_done in Hs as (? & ? & _ & Hs)); unfold mret, M_ret in Hs; by simplify_eq. }
  apply Hnext in Hs1, Hs2, Hs3. rewrite !elem_of_cons, elem_of_nil in Hrpc.
  by destruct Hrpc as [-> |[-> |[-> |[-> |[]]]]]; simpl in *; subst; simpl in *; subst.
Qed.

(** The spin loop of the destructor ends: once the resolver is done, the owner leaves
    the loop after at most one more load, and while it sees the flag of a resolver at
    work, at most three accesses of that resolver are missing. *)
Theorem spin_loop_ends i a wk v s st :
  0 ≤ i → race_reachable i a wk v s → o_pc s = Spinning st →
  (∀ d, r_pc s = RDone d →
     ∃ b w, (pc ← owner_step i a (Spinning st);
             match pc with Spinning st => owner_step i a (Spinning st) | _ => mret pc end)
              (r_world s) = Done (Leaving (Discarded b), w))
  ∧ (Z.land st SETTING_VALUE = SETTING_VALUE →
     ∃ w, (pc ← resolver_step i v (r_pc s); pc ← resolver_step i v pc; resolver_step i v pc)
            (r_world s) = Done (RDone true, w)).
Proof.
  intros Hi [tk I]%race_inv_reachable Ho; [|done]. destruct s as [rpc opc w]. simpl in *. subst opc.
  pose proof (rc_pair _ _ _ _ _ _ I) as Hp. simpl in Hp. split.
  - intros d ->. destruct (decide (Z.land st SETTING_VALUE = SETTING_VALUE)) as [Hset|Hset].
    + rewrite (run_bind _ _ _ _ _ (owner_reloads _ _ _ _ _ _ _ _ Hi I Hset)).
      destruct d; [|by simpl in Hp; subst]. eapply (owner_exits i a wk v tk (RDone true)); [done| |done].
      destruct I as [Hc Hf Ht _]. split; [exact Hc|exact Hf|exact Ht|].
      simpl. rewrite !elem_of_cons. by right; right; right; left.
    + destruct (owner_exits _ _ _ _ _ _ _ _ Hi I Hset) as (b & w' & Hs).
      exists b, w'. by run_with Hs.
  - intros Hset. apply (resolver_finishes i a wk v tk rpc _ w Hi I).
    destruct rpc as [| | | | |[]]; simpl in Hp; subst; try done; set_solver.
Qed.
End guarantees.

(** * A concrete race

    Future 0 of [three], in cell 0: the resolver sets its flag, the owner drops the
    future and spins, the resolver writes, wakes and settles, the owner leaves. *)
Local Instance task_needs_drop : NeedsDrop Z := true.
Local Instance value_needs_drop : NeedsDrop nat := true.
Local Instance race_cfg : QueueCfg := cfg64 64.

(** [true]: an access of the resolver, [false]: one of the owner. *)
Fixpoint race_run (l : list bool)
  (s : race (T := Z) (V := nat) (W := Z) (D := list_deque Z)) : option race :=
  match l with
  | [] => Some s
  | true :: l =>
      match resolver_step 0 9%nat (r_pc s) (r_world s) with
      | Done (pc, w) => race_run l (mkRace pc (o_pc s) w)
      | _ => None
      end
  | false :: l =>
      match owner_step 0 0 (o_pc s) (r_world s) with
      | Done (pc, w) => race_run l (mkRace (r_pc s) pc w)
      | _ => None
      end
  end.

Lemma race_run_sound l s s' :
  race_run l s = Some s' → rtc (race_step 0 0 0 9%nat) s s'.
Proof.
  revert s. induction l as [|[] l IH]; intros [rpc opc w] Hr; simpl in Hr; [by simplify_eq| |].
  - destruct (resolver_step 0 9%nat rpc w) as [[pc w']| |] eqn:Hs; [|done..].
    eapply rtc_l; [by apply race_resolver, Hs|by apply IH].
  - destruct (owner_step 0 0 opc w) as [[pc w']| |] eqn:Hs; [|done..].
    eapply rtc_l; [by apply race_owner, Hs|by apply IH].
Qed.

Definition race_0 : race := mkRace RStart Waiting (mkWorld (queue three) (ext three) []).
Definition race_spinning : race :=
  Eval vm_compute in default race_0 (race_run [true; false; true] race_0).
Definition race_over : race :=
  Eval vm_compute in
    default race_0 (race_run [true; false; true; true; false; true; false; false; false] race_0).

Lemma race_reachable_run l s :
  race_run l race_0 = Some s → race_reachable 0 0 0 9%nat s.
Proof.
  intros Hr. exists (Some 100), race_0. split; [|by eapply race_run_sound].
  repeat split; by vm_compute.
Qed.

Lemma race_spinning_reachable : race_reachable 0 0 0 9%nat race_spinning.
Proof. apply (race_reachable_run [true; false; true]). by vm_compute. Qed.

Lemma race_over_reachable : race_reachable 0 0 0 9%nat race_over.
Proof.
  apply (race_reachable_run [true; false; true; true; false; true; false; false; false]).
  by vm_compute.
Qed.

Lemma handover_never_undefined_witness :
  (∃ pc w, resolver_step 0 9%nat RWake (r_world race_spinning) = Done (pc, w))
  ∧ (∃ pc w, owner_step 0 0 (Spinning 1) (r_world race_spinning) = Done (pc, w)).
Proof.
  destruct (handover_never_undefined 0 0 0 9%nat race_spinning ltac:(lia) race_spinning_reachable)
    as (Hr & Ho & _).
  split; [exact Hr|exact Ho].
Defined.

Lemma value_goes_to_one_place_witness :
  ext (r_world race_over) !! 0%nat = None
  ∧ true = true ∧ trace (r_world race_over) = [Woken 0; Dropped (inr 9%nat)].
Proof.
  exact (value_goes_to_one_place 0 0 0 9%nat race_over true (Discarded true) ltac:(lia)
    race_over_reachable eq_refl eq_refl).
Defined.

Lemma spin_loop_ends_witness :
  ∃ w, (pc ← resolver_step 0 9%nat RWake; pc ← resolver_step 0 9%nat pc; resolver_step 0 9%nat pc)
         (r_world race_spinning) = Done (RDone true, w).
Proof.
  exact (proj2 (spin_loop_ends 0 0 0 9%nat race_spinning 1 ltac:(lia) race_spinning_reachable
    eq_refl) eq_refl).
Defined.

Lemma owner_steps_are_drop_witness :
  ∃ f, owner_steps 3 0 0 Waiting (r_world race_0)
    = Done (Gone f, match drop_batched_task 1 0%nat (r_world race_0) with
                    | Done (_, w) => w | _ => r_world race_0 end).
Proof.
  refine (owner_steps_are_drop 1 0 (mkReceiver 0 None 0) (r_world race_0) _ _ _); by vm_compute.
Defined.
