(* ===== verification/Negotiation.v ===== *)
(** The loom test [it_negotiates_receiver_drop] of [queue.rs]: a thread resolves a task, the
    thread of the future drops it, with a mutex and a condition variable between the
    creation of the task and its resolution.

    The mutex guard of the resolver is held until its closure ends. That of the other thread
    goes before the future does, since locals are dropped in reverse order: the explicit
    [drop] in the test only drops the pinned reference. *)
From S2P Require Import Prelude Usize Helpers Deque Queue Ranges TaskRef Assignment Resolution Delivery Handover.
Local Open Scope Z_scope.

(** * A race can always be brought to its end *)
Section ends.
Context {C : QueueCfg} {T V W D : Type} `{Deque W D} `{NeedsDrop T, NeedsDrop V}.
Abbreviation race := (race (T := T) (V := V) (W := W) (D := D)).
Variables (i : Z) (a : addr) (wk : W) (v : V).
Hypothesis (Hi : 0 ≤ i).
Implicit Types (s : race) (tk : option T)
  (w : world (TaskRef T) D (futures T V W) (event W (T + V) Z)).

Abbreviation inv := (race_inv i a wk v).

(** An access of the resolver or of the destructor. *)
Definition thread_step s s' : Prop :=
  (∃ pc w, resolver_step i v (r_pc s) (r_world s) = Done (pc, w) ∧ s' = mkRace pc (o_pc s) w)
  ∨ (∃ pc w, owner_step i a (o_pc s) (r_world s) = Done (pc, w) ∧ s' = mkRace (r_pc s) pc w).
Abbreviation steps := (rtc thread_step).

(** How many accesses the resolver is from its end. *)
Definition resolver_left (pc : resolver_pc) : nat :=
  match pc with
  | RStart => 4 | RWrite => 3 | RWake => 2 | REnd | RDropValue => 1 | RDone _ => 0
  end.

Lemma resolver_done tk s :
  inv tk s → ∃ d w, steps s (mkRace (RDone d) (o_pc s) w) ∧ inv tk (mkRace (RDone d) (o_pc s) w).
Proof.
  remember (resolver_left (r_pc s)) as n eqn:Hn. revert s Hn.
  induction (lt_wf n) as [n _ IH]. intros [rpc opc w] -> I.
  destruct (decide (resolver_left rpc = 0%nat)) as [Hz|Hne].
  { assert (∃ d, rpc = RDone d) as [d ->] by (destruct rpc; simpl in Hz; try done; eauto).
    exists d, w. split; [apply rtc_refl|done]. }
  destruct (resolver_step_run i a wk v Hi tk _ I) as (pc & w1 & Hs & I1 & _). cbn in Hs, I1.
  assert (resolver_left pc < resolver_left rpc)%nat as Hlt.
  { destruct rpc; simpl in Hs; try (inv_run Hs; injection Hs as <- _); simpl; try lia.
    - destruct (_ =? _); simpl; lia.
    - done. }
  destruct (IH _ Hlt (mkRace pc opc w1) eq_refl I1) as (d & w2 & Hr & I2).
  exists d, w2. split; [|done]. eapply rtc_l; [left; by exists pc, w1|exact Hr].
Qed.

Lemma owner_move_on tk rpc opc w :
  inv tk (mkRace rpc opc w) →
  ∃ opc' w', owner_step i a opc w = Done (opc', w') ∧ inv tk (mkRace rpc opc' w')
    ∧ thread_step (mkRace rpc opc w) (mkRace rpc opc' w').
Proof.
  intros I. destruct (owner_step_run i a wk v Hi tk _ I) as (opc' & w' & Hs & I' & _).
  exists opc', w'. split; [done|]. split; [done|]. right. by exists opc', w'.
Qed.

(** A spinning owner that sees the word of flags leaves the loop, once the resolver is done. *)
Lemma spinning_leaves tk d st w :
  inv tk (mkRace (RDone d) (Spinning st) w) →
  ∃ b w', steps (mkRace (RDone d) (Spinning st) w) (mkRace (RDone d) (Leaving (Discarded b)) w')
    ∧ inv tk (mkRace (RDone d) (Leaving (Discarded b)) w').
Proof.
  assert (∀ st w, inv tk (mkRace (RDone d) (Spinning st) w) → Z.land st SETTING_VALUE ≠ SETTING_VALUE →
    ∃ b w', steps (mkRace (RDone d) (Spinning st) w) (mkRace (RDone d) (Leaving (Discarded b)) w')
      ∧ inv tk (mkRace (RDone d) (Leaving (Discarded b)) w')) as Hout.
  { intros st1 w1 I Hne. destruct (owner_exits _ _ _ _ _ _ _ _ Hi I Hne) as (b & w2 & Hs).
    destruct (owner_move_on _ _ _ _ I) as (opc & w3 & Hs' & I' & Hst). rewrite Hs in Hs'.
    injection Hs' as <- <-. exists b, w2. split; [by eapply rtc_once|done]. }
  intros I. destruct (decide (Z.land st SETTING_VALUE = SETTING_VALUE)) as [He|Hne]; [|by apply Hout].
  pose proof (owner_reloads _ _ _ _ _ _ _ _ Hi I He) as Hs.
  destruct (owner_move_on _ _ _ _ I) as (opc & w1 & Hs' & I' & Hst). rewrite Hs in Hs'.
  injection Hs' as <- <-. destruct (Hout _ _ I') as (b & w2 & Hr & I2).
  - destruct d; [done|]. pose proof (rc_pair _ _ _ _ _ _ I) as Hp. simpl in Hp. subst st. done.
  - exists b, w2. split; [by eapply rtc_l|done].
Qed.

Lemma race_ends tk s :
  inv tk s → ∃ d f w, steps s (mkRace (RDone d) (Gone f) w) ∧ inv tk (mkRace (RDone d) (Gone f) w).
Proof.
  intros I. destruct (resolver_done tk s I) as (d & w & Hr & I1).
  assert (∀ f w1, inv tk (mkRace (RDone d) (Leaving f) w1) → steps s (mkRace (RDone d) (Leaving f) w1) →
    ∃ d f w, steps s (mkRace (RDone d) (Gone f) w) ∧ inv tk (mkRace (RDone d) (Gone f) w)) as Hleave.
  { intros f w1 J Hs. destruct (owner_leaves i a wk v tk _ _ _ J) as (w2 & Hst & J' & _).
    exists d, f, w2. split; [|done]. eapply rtc_r; [exact Hs|]. right. by exists (Gone f), w2. }
  assert (∀ st w1, inv tk (mkRace (RDone d) (Spinning st) w1) → steps s (mkRace (RDone d) (Spinning st) w1) →
    ∃ d f w, steps s (mkRace (RDone d) (Gone f) w) ∧ inv tk (mkRace (RDone d) (Gone f) w)) as Hspin.
  { intros st w1 J Hs. destruct (spinning_leaves tk d st w1 J) as (b & w2 & Hst & J').
    eapply Hleave; [exact J'|]. by etransitivity. }
  destruct (o_pc s) as [|st|f|f].
  - destruct (owner_move_on _ _ _ _ I1) as (opc & w1 & Hs & I2 & Hst).
    assert (∃ st, opc = Spinning st) as [st ->] by (simpl in Hs; inv_run Hs; injection Hs as <- _; eauto).
    eapply Hspin; [exact I2|]. by eapply rtc_r.
  - by eapply Hspin.
  - by eapply Hleave.
  - by exists d, f, w.
Qed.
End ends.

(** * The test *)
Section test.
Context {C : QueueCfg} {W D : Type} `{Deque W D} `{NeedsDrop Z}.
Abbreviation test_world := (world (TaskRef Z) D (futures Z Z W) (event W (Z + Z) Z)).
Implicit Types (w : test_world).

(** Where the future is, its [noop_waker], and what is in the cell before [init]. *)
Variables (a : addr) (wk : W).

Definition resolved_with : Z := 9001.

(** The thread of [resolve_unchecked]: it wants the mutex, waits on the condition variable,
    resolves with the mutex held, has returned. *)
Inductive resolver_thread : Type :=
| Locking
| Parked
| Holding (pc : resolver_pc)
| Returned (delivered : bool).

(** The thread of the future: creates the receiver, initialises the task, wants the mutex, sets
    the flag and notifies, leaves the mutex, drops the future. *)
Inductive receiver_thread : Type :=
| Creating
| Initialising
| Acquiring
| Notifying
| Releasing
| Ending (pc : owner_pc (V := Z)).

Record test : Type := mkTest {
  t_locked : bool;
  t_initialized : bool;
  t_resolver : resolver_thread;
  t_receiver : receiver_thread;
  t_world : test_world
}.

(** [notify_one] *)
Definition notified (r : resolver_thread) : resolver_thread :=
  match r with Parked => Locking | r => r end.

Inductive test_step : test → test → Prop :=
| test_wait q w :
    test_step (mkTest false false Locking q w) (mkTest false false Parked q w)
| test_spurious l b q w :
    test_step (mkTest l b Parked q w) (mkTest l b Locking q w)
| test_proceed q w :
    test_step (mkTest false true Locking q w) (mkTest true true (Holding RStart) q w)
| test_resolve l b pc pc' q w w' :
    resolver_step 0 resolved_with pc w = Done (pc', w') → (∀ d, pc ≠ RDone d) →
    test_step (mkTest l b (Holding pc) q w) (mkTest l b (Holding pc') q w')
| test_return l b d q w :
    test_step (mkTest l b (Holding (RDone d)) q w) (mkTest false b (Returned d) q w)
| test_create l b r w :
    test_step (mkTest l b r Creating w)
      (mkTest l b r Initialising (set_ext (<[a := Batched (new_receiver 0 wk)]> (ext w)) w))
| test_init l b r w w' :
    init 0 resolved_with a w = Done ((), w') →
    test_step (mkTest l b r Initialising w) (mkTest l b r Acquiring w')
| test_acquire b r w :
    test_step (mkTest false b r Acquiring w) (mkTest true b r Notifying w)
| test_notify l b r w :
    test_step (mkTest l b r Notifying w) (mkTest l true (notified r) Releasing w)
| test_release l b r w :
    test_step (mkTest l b r Releasing w) (mkTest false b r (Ending Waiting) w)
| test_drop l b r pc pc' w w' :
    owner_step 0 a pc w = Done (pc', w') →
    test_step (mkTest l b r (Ending pc) w) (mkTest l b r (Ending pc') w').

(** [TaskRef::new_uninit()], nothing happened yet. *)
Definition test_start (s : test) : Prop :=
  ∃ w, s = mkTest false false Locking Creating w ∧ trace w = [] ∧ cells w !! 0%nat = Some new_uninit.

Definition test_reachable (s : test) : Prop := ∃ s0, test_start s0 ∧ rtc test_step s0 s.

Definition test_over (s : test) : Prop :=
  ∃ d f, t_resolver s = Returned d ∧ t_receiver s = Ending (Gone f).

(** ** What holds along the way *)
Definition stage_of (r : resolver_thread) : resolver_pc :=
  match r with Locking | Parked => RStart | Holding pc => pc | Returned d => RDone d end.

Abbreviation inv := (race_inv 0 a wk resolved_with (Some resolved_with)).

(** Nobody polls the future. *)
Definition not_taken (pc : owner_pc (V := Z)) : Prop :=
  match pc with Leaving (Taken _) | Gone (Taken _) => False | _ => True end.

Lemma not_taken_step pc pc' w w' :
  owner_step 0 a pc w = Done (pc', w') → not_taken pc → not_taken pc'.
Proof.
  destruct pc as [|st|f|f]; simpl; intros Hs Hn.
  - inv_run Hs. by injection Hs as <- _.
  - destruct (_ =? _); [inv_run Hs; by injection Hs as <- _|].
    inv_run Hs. destruct a0; try done. inv_run Hs. by injection Hs as <- _.
  - inv_run Hs. by injection Hs as <- _.
  - by injection Hs as <- _.
Qed.

Definition asleep (r : resolver_thread) : Prop := r = Locking ∨ r = Parked.

Definition test_inv (s : test) : Prop :=
  let w := t_world s in
  let r := t_resolver s in
  match t_receiver s with
  | Creating => t_locked s = false ∧ t_initialized s = false ∧ asleep r
      ∧ trace w = [] ∧ cells w !! 0%nat = Some new_uninit
  | Initialising => t_locked s = false ∧ t_initialized s = false ∧ asleep r
      ∧ trace w = [] ∧ cells w !! 0%nat = Some new_uninit
      ∧ ext w !! a = Some (Batched (new_receiver 0 wk))
  | Acquiring => t_locked s = false ∧ t_initialized s = false ∧ asleep r
      ∧ inv (mkRace RStart Waiting w)
  | Notifying => t_locked s = true ∧ t_initialized s = false ∧ asleep r
      ∧ inv (mkRace RStart Waiting w)
  | Releasing => t_locked s = true ∧ t_initialized s = true ∧ r = Locking
      ∧ inv (mkRace RStart Waiting w)
  | Ending pc => t_locked s = (match r with Holding _ => true | _ => false end)
      ∧ t_initialized s = true ∧ r ≠ Parked ∧ not_taken pc ∧ inv (mkRace (stage_of r) pc w)
  end.

Lemma init_starts w w' :
  trace w = [] → cells w !! 0%nat = Some new_uninit →
  ext w !! a = Some (Batched (new_receiver 0 wk)) →
  init 0 resolved_with a w = Done ((), w') → inv (mkRace RStart Waiting w').
Proof.
  intros Ht Hc Ha Hi. rewrite (init_run 0 resolved_with a new_uninit w ltac:(lia) Hc) in Hi.
  injection Hi as <-. apply lookup_lt_Some in Hc as Hl.
  eapply race_inv_intro; [by apply set_cell_lookup|exact Ha|exact Ht|done|done].
Qed.

Lemma test_inv_step s s' : test_step s s' → test_inv s → test_inv s'.
Proof.
  unfold test_inv, asleep. intros Hs.
  destruct Hs as [q w|l b q w|q w|l b pc pc' q w w' Hs Hd|l b d q w|l b r w|l b r w w' Hs|b r w|l b r w|l b r w
    |l b r pc pc' w w' Hs]; simpl.
  - destruct q; naive_solver.
  - destruct q; naive_solver.
  - destruct q; naive_solver.
  - destruct q; [naive_solver..|]. intros (-> & -> & _ & Hnt & I). do 4 (split; [done|]).
    destruct (resolver_step_run 0 a wk resolved_with ltac:(lia) _ _ I) as (? & ? & Hs' & I' & _).
    cbn in Hs', I'. rewrite Hs in Hs'. by injection Hs' as <- <-.
  - destruct q; naive_solver.
  - intros (-> & -> & Hr & Ht & Hc). split_and!; try done. apply lookup_insert_eq.
  - intros (-> & -> & Hr & Ht & Hc & Ha). split_and!; try done. by eapply init_starts.
  - naive_solver.
  - intros (-> & -> & [-> | ->] & I); done.
  - intros (-> & -> & -> & I). by split_and!.
  - intros (-> & -> & Hr & Hnt & I). do 3 (split; [done|]).
    split; [by eapply not_taken_step|].
    destruct (owner_step_run 0 a wk resolved_with ltac:(lia) _ _ I) as (? & ? & Hs' & I' & _).
    cbn in Hs', I'. rewrite Hs in Hs'. by injection Hs' as <- <-.
Qed.

Lemma test_inv_reachable s : test_reachable s → test_inv s.
Proof.
  intros (s0 & (w & -> & Ht & Hc) & Hr).
  refine (rtc_invariant test_step test_inv _ s _ _ Hr); [intros x y; apply test_inv_step|].
  unfold test_inv, asleep. simpl. naive_solver.
Qed.

(** ** Every run can be brought to its end *)
Definition running (s : test) (rpc : resolver_pc) (opc : owner_pc) (w : test_world) : Prop :=
  (∃ l, s = mkTest l true (Holding rpc) (Ending opc) w)
  ∨ (∃ l d, rpc = RDone d ∧ s = mkTest l true (Returned d) (Ending opc) w).

Lemma thread_steps_test s rpc opc w rpc' opc' w' :
  rtc (thread_step 0 a resolved_with) (mkRace rpc opc w) (mkRace rpc' opc' w') →
  running s rpc opc w → ∃ s', rtc test_step s s' ∧ running s' rpc' opc' w'.
Proof.
  remember (mkRace rpc opc w) as x eqn:Hx. remember (mkRace rpc' opc' w') as y eqn:Hy.
  intros Hr. revert s rpc opc w Hx.
  induction Hr as [x|x z y Hst Hr IH]; intros s rpc opc w -> Hrun.
  - injection Hy as <- <- <-. by exists s.
  - assert (∃ s1, rtc test_step s s1 ∧ running s1 (r_pc z) (o_pc z) (r_world z)) as (s1 & Hs1 & Hrun1).
    { destruct Hst as [(pc & w1 & Hs & ->)|(pc & w1 & Hs & ->)]; simpl in *.
      - destruct Hrun as [[l ->]|(l & d & -> & ->)].
        + destruct rpc as [| | | | |d].
          6:{ injection Hs as <- <-. eexists. split; [apply rtc_refl|]. left. by eexists. }
          all: eexists; split; [by eapply rtc_once, test_resolve|left; by eexists].
        + injection Hs as <- <-. eexists. split; [apply rtc_refl|]. right. by do 2 eexists.
      - destruct Hrun as [[l ->]|(l & d & -> & ->)]; eexists;
          (split; [by eapply rtc_once, test_drop|]); [left|right]; by repeat eexists. }
    destruct z as [rz oz wz]. destruct (IH Hy s1 rz oz wz eq_refl Hrun1) as (s' & Hs' & Hrun').
    exists s'. split; [by etransitivity|done].
Qed.

Lemma running_ends s rpc opc w :
  running s rpc opc w → inv (mkRace rpc opc w) → ∃ s', rtc test_step s s' ∧ test_over s'.
Proof.
  intros Hrun I.
  destruct (race_ends 0 a wk resolved_with ltac:(lia) _ _ I) as (d & f & w' & Hr & _).
  destruct (thread_steps_test s _ _ _ _ _ _ Hr Hrun) as (s' & Hs' & [[l ->]|(l & d' & [= <-] & ->)]).
  - eexists. split; [eapply rtc_r; [exact Hs'|apply test_return]|]. by exists d, f.
  - eexists. split; [exact Hs'|]. by exists d, f.
Qed.

Lemma ending_ends s pc :
  test_inv s → t_receiver s = Ending pc → ∃ s', rtc test_step s s' ∧ test_over s'.
Proof.
  destruct s as [l b r q w]. unfold test_inv. simpl. intros I ->.
  destruct I as (Hl & -> & Hr & _ & I). destruct r as [| |rpc|d]; [|done|..]; subst l.
  - destruct (running_ends (mkTest true true (Holding RStart) (Ending pc) w) RStart pc w)
      as (s' & Hs & Ho); [left; by eexists|done|].
    exists s'. split; [eapply rtc_l; [apply test_proceed|exact Hs]|done].
  - apply (running_ends _ rpc pc w); [left; by eexists|done].
  - apply (running_ends _ (RDone d) pc w); [right; by do 2 eexists|done].
Qed.

(** How far the thread of the future is from its last phase. *)
Definition receiver_left (q : receiver_thread) : nat :=
  match q with
  | Creating => 5 | Initialising => 4 | Acquiring => 3 | Notifying => 2 | Releasing => 1 | Ending _ => 0
  end.

Lemma receiver_moves s :
  test_inv s → receiver_left (t_receiver s) ≠ 0%nat →
  ∃ s', test_step s s' ∧ (receiver_left (t_receiver s') < receiver_left (t_receiver s))%nat.
Proof.
  destruct s as [l b r q w]. unfold test_inv. destruct q; simpl; intros I Hne; try done.
  - eexists. split; [apply test_create|simpl; lia].
  - destruct I as (_ & _ & _ & _ & Hc & _).
    eexists. split; [by apply test_init, (init_run 0 resolved_with a new_uninit w)|simpl; lia].
  - destruct I as (-> & _). eexists. split; [apply test_acquire|simpl; lia].
  - eexists. split; [apply test_notify|simpl; lia].
  - eexists. split; [apply test_release|simpl; lia].
Qed.

Lemma test_ends s : test_inv s → ∃ s', rtc test_step s s' ∧ test_over s'.
Proof.
  remember (receiver_left (t_receiver s)) as n eqn:Hn. revert s Hn.
  induction (lt_wf n) as [n _ IH]. intros s -> I.
  destruct (decide (receiver_left (t_receiver s) = 0%nat)) as [Hz|Hne].
  - destruct (t_receiver s) as [| | | | |pc] eqn:Hq; simpl in Hz; try done. by eapply ending_ends.
  - destruct (receiver_moves s I Hne) as (s1 & Hst & Hlt).
    destruct (IH _ Hlt s1 eq_refl (test_inv_step _ _ Hst I)) as (s' & Hr & Ho).
    exists s'. split; [by eapply rtc_l|done].
Qed.

(** The test [it_negotiates_receiver_drop] passes in every interleaving of its two threads:
    whoever holds the mutex or waits, the accesses of the resolver and of the destructor are
    defined; from everywhere the test comes to an end, also when the notification comes
    before the wait; at the end the memory of the future is gone, and either the value was
    written and the waker woken, once, or it was dropped by the resolver. *)
Theorem it_negotiates_receiver_drop s :
  test_reachable s →
  (∀ pc, t_resolver s = Holding pc →
     ∃ pc' w, resolver_step 0 resolved_with pc (t_world s) = Done (pc', w))
  ∧ (∀ pc, t_receiver s = Ending pc → ∃ pc' w, owner_step 0 a pc (t_world s) = Done (pc', w))
  ∧ (∃ s', rtc test_step s s' ∧ test_over s')
  ∧ (∀ d f, t_resolver s = Returned d → t_receiver s = Ending (Gone f) →
     ext (t_world s) !! a = None
     ∧ trace (t_world s) = (if d then [Woken wk] else []) ++ dropped_values [resolved_with]).
Proof.
  intros Hr. pose proof (test_inv_reachable s Hr) as I. split_and!.
  - intros pc Hpc. destruct s as [l b r q w]. simpl in *. subst r. unfold test_inv, asleep in I. simpl in I.
    destruct q; try naive_solver. destruct I as (_ & _ & _ & _ & I).
    destruct (resolver_step_run 0 a wk resolved_with ltac:(lia) _ _ I) as (pc' & w' & Hs & _). eauto.
  - intros pc Hpc. destruct s as [l b r q w]. simpl in *. subst q. unfold test_inv in I. simpl in I.
    destruct I as (_ & _ & _ & _ & I).
    destruct (owner_step_run 0 a wk resolved_with ltac:(lia) _ _ I) as (pc' & w' & Hs & _). eauto.
  - by apply test_ends.
  - intros d f Hd Hf. destruct s as [l b r q w]. simpl in *. subst r q. unfold test_inv in I. simpl in I.
    destruct I as (_ & _ & _ & Hnt & [_ Hx Ht Hp]). simpl in *. split; [done|].
    rewrite Ht. unfold race_trace, dropped_values. simpl.
    destruct d, f as [v'|[]]; simpl in *; try done; unfold dropped_values; by destruct needs_drop.
Qed.
End test.

(** The test from its start. *)
#[local] Instance number_no_drop : NeedsDrop Z := false.

Definition test_cell : world (TaskRef Z) (list_deque Z) (futures Z Z Z) (event Z (Z + Z) Z) :=
  mkWorld (@new_queue (cfg64 64) _ _ _ _ new_uninit) ∅ [].

Lemma it_negotiates_receiver_drop_witness :
  ∃ s', rtc (test_step (D := list_deque Z) 0 7)
          (mkTest false false Locking Creating test_cell) s'
    ∧ test_over s'.
Proof.
  assert (test_reachable (D := list_deque Z) 0 7 (mkTest false false Locking Creating test_cell)) as Hr.
  { eexists. split; [|apply rtc_refl]. eexists. split; [done|]. by split. }
  exact (proj1 (proj2 (proj2 (it_negotiates_receiver_drop 0 7 _ Hr)))).
Defined.
