(* ===== verification/Loom.v ===== *)
(** The two small loom tests of [queue.rs]: the occupancy word across a thread that is joined
    ([the_occupancy_model_synchronizes]), and a queue that is dropped unused
    ([stack_queue_drops]).

    An atomic is the list of its values, oldest first; what a thread knows of it is the place
    of the newest value that it has read or written, or that another thread knew when the
    two synchronised by a spawn or a join. A load may return any value that is not older. *)
From S2P Require Import Prelude Usize Helpers Deque Queue.
Local Open Scope Z_scope.

(** * Coherence of one atomic *)
Definition fetch_update (g : Z → Z) (values : list Z) : Z * list Z * nat :=
  let old := default 0 (last values) in (old, values ++ [g old], length values).

Definition may_load (known k : nat) (values : list Z) : option Z :=
  if (known <=? k)%nat then values !! k else None.

Section occupancy.
Context {C : QueueCfg}.

(** What the [fetch_add] returns and what the load finds, if it reads the value at [k]. The
    spawned thread begins with what its parent knows; [joined] says whether it is joined. *)
Definition the_occupancy_model_synchronizes (joined : bool) (k : nat) : option (Z * Z) :=
  let values := [0] in
  let '(added_to, values, main) := fetch_update (λ x, wrapping_add usize_bits x 1) values in
  let '(_, values, child) := fetch_update (λ x, wrapping_sub usize_bits x 1) values in
  let main := if joined then Nat.max main child else main in
  (λ found, (added_to, found)) <$> may_load main k values.

(** Both assertions of the test hold whichever value the load may read, and there is one; were
    the thread not joined, the load could find the increment. *)
Theorem occupancy_synchronizes_by_join :
  (∃ k, is_Some (the_occupancy_model_synchronizes true k))
  ∧ (∀ k r, the_occupancy_model_synchronizes true k = Some r → r = (0, 0))
  ∧ the_occupancy_model_synchronizes false 1 = Some (0, 1).
Proof.
  assert (wrapping_add usize_bits 0 1 = 1 ∧ wrapping_sub usize_bits 1 1 = 0) as [H1 H0]
    by (unfold usize_bits; by destruct cfg_target).
  unfold the_occupancy_model_synchronizes, fetch_update. simpl. rewrite H1, H0.
  split; [by exists 2%nat|]. split; [|done].
  intros [|[|[|k]]] r Hk; try done. by injection Hk as <-.
Qed.
End occupancy.

(** * A queue that is dropped *)
Section drops.
Context {C : QueueCfg} {cell W D : Type} `{DequeLaws W D}.

(** A [StackQueue] has no destructor of its own and its cells are [MaybeUninit]: what is
    destroyed with it are the wakers parked in it. *)
Definition drop_queue (q : StackQueue cell D) : list W := deque_items (pending q).

Definition stack_queue_drops (uninit : cell) : option (list W) :=
  drop_queue <$> stack_queue_default true uninit.

Theorem unused_queue_drops_nothing uninit :
  stack_queue_drops uninit = if buffer_len_ok then Some [] else None.
Proof.
  unfold stack_queue_drops, stack_queue_default. destruct buffer_len_ok; [|done].
  simpl. unfold drop_queue. simpl. by rewrite new_fifo_items.
Qed.
End drops.
