(* ===== verification/System.v ===== *)
(** The whole [TaskQueue]: the interleavings of [Protocol] and, for every task in it, the
    handover of [Handover], over one memory of cells and futures.

    The cells of the [sys] hold tickets, the names of the tasks put there; the cells of the
    program are [y_cells]. Every write of a ticket comes with the write of a cell, so the
    two buffers go together, and the accesses of resolvers, destructors and polls work on
    [y_cells] and [y_futures] alone. A [move] is one access of one thread, or the work of a
    thread between two accesses; [possible] says when the program may come to it. A guard may
    treat every task of its batch in another way, which covers the methods of [TaskAssignment].

    An address is an allocation: a new future never gets the address of another one. The runs
    ([system_reachable]) are made of [timely] moves: without destructors that come to their
    cell after it was given to another task, and without polls before the wake-up. The code
    enforces neither; [Delivery.stale_receivers_reach_undefined] and
    [Delivery.early_poll_reads_uninit] show what they do. *)
From S2P Require Import Prelude Usize Helpers Deque Queue Protocol Schedule Exclusion Safety.
From S2P Require Import Ranges TaskRef Assignment Resolution Delivery Handover.
Local Open Scope Z_scope.

(** ** Tasks by their number, and how far each of them is *)
Record ticket (T W : Type) : Type := mkTicket {
  tk_number : nat;
  tk_task : T;
  tk_addr : addr;
  tk_waker : W
}.
Arguments mkTicket {_ _} _ _ _ _.
Arguments tk_number {_ _} _.
Arguments tk_task {_ _} _.
Arguments tk_addr {_ _} _.
Arguments tk_waker {_ _} _.

(** What the guard of a batch does with one of its tasks: [map] takes it and computes a
    value; [resolve_with_iter] drops it and has a value from the iterator, or passes it by
    when the iterator has come to its end; the destructor of the assignment drops it. *)
Inductive treatment (V : Type) : Type :=
| Map
| Supply (v : V)
| PassBy
| Discard.
Arguments Map {_}.
Arguments Supply {_} _.
Arguments PassBy {_}.
Arguments Discard {_}.

(** How far that is: nothing done; a value, computed from the task or not, is on its way,
    [resolve_unchecked] at some access; the task is left without a value, dropped or not. *)
Inductive progress (V : Type) : Type :=
| Untouched
| Resolving (mapped : bool) (v : V) (pc : resolver_pc)
| GivenUp (dropped : bool).
Arguments Untouched {_}.
Arguments Resolving {_} _ _ _.
Arguments GivenUp {_} _.

(** [h_log]: what happened to this task, oldest first. *)
Record handover (T V W : Type) : Type := mkHandover {
  h_ticket : ticket T W;
  h_progress : progress V;
  h_owner : owner_pc (V := V);
  h_log : list (event W (T + V) Z)
}.
Arguments mkHandover {_ _ _} _ _ _ _.
Arguments h_ticket {_ _ _} _.
Arguments h_progress {_ _ _} _.
Arguments h_owner {_ _ _} _.
Arguments h_log {_ _ _} _.

Record system (T V W D : Type) : Type := mkSystem {
  y_sys : sys (option (ticket T W)) W D;
  y_cells : list (TaskRef T);
  y_futures : futures T V W;
  y_handovers : gmap nat (handover T V W)
}.
Arguments mkSystem {_ _ _ _} _ _ _ _.
Arguments y_sys {_ _ _ _} _.
Arguments y_cells {_ _ _ _} _.
Arguments y_futures {_ _ _ _} _.
Arguments y_handovers {_ _ _ _} _.

(** The moves of the owner thread: a future is created, dropped before it was batched,
    polled for the first time; the task is placed; the counters are advanced and a batch
    begins, or the waker is parked. Of the guard of a batch: it is bounded, treats a task,
    resolves it, goes on to the next, releases the region, wakes. Of the thread of a
    future: its destructor goes on; it is polled again. *)
Inductive move (T V W : Type) : Type :=
| Spawn (a : addr) (t : T)
| Abort (a : addr)
| Begin (a : addr) (cx : W)
| Place
| Publish (id : nat)
| Close (id : nat)
| Treat (id : nat) (how : treatment V)
| Resolve (id : nat)
| Next (id : nat)
| Finish (id : nat)
| WakeUp (id : nat)
| Drop (n : nat)
| Poll (n : nat) (cx : W).
Arguments Spawn {_ _ _} _ _.
Arguments Abort {_ _ _} _.
Arguments Begin {_ _ _} _ _.
Arguments Place {_ _ _}.
Arguments Publish {_ _ _} _.
Arguments Close {_ _ _} _.
Arguments Treat {_ _ _} _ _.
Arguments Resolve {_ _ _} _.
Arguments Next {_ _ _} _.
Arguments Finish {_ _ _} _.
Arguments WakeUp {_ _ _} _.
Arguments Drop {_ _ _} _.
Arguments Poll {_ _ _} _ _.

Definition with_buffer {cell cell' D : Type} (b : list cell') (q : StackQueue cell D)
  : StackQueue cell' D :=
  mkStackQueue (sq_slot q) (sq_occupancy q) (mkInner (slot (inner q)) (occupancy (inner q)) b)
    (pending q).

(** A computation that looks at the whole state. *)
Lemma run_get {S A : Type} (k : S → M S A) (s : S) : (x ← gets id; k x) s = k s s.
Proof. reflexivity. Qed.

Section system.
Context {C : QueueCfg} {T V W D : Type} `{Deque W D} `{NeedsDrop T, NeedsDrop V} `{Inhabited W}.
Abbreviation task_world := (world (TaskRef T) D (futures T V W) (event W (T + V) Z)).
Abbreviation op A := (M task_world A).
Abbreviation system := (system T V W D).
Abbreviation handover := (handover T V W).
Abbreviation ticket := (ticket T W).
Implicit Types (y : system) (h : handover) (tk : ticket).

(** The closure given to [map]. *)
Variable (f : T → V).

Definition set_sys (s : sys (option ticket) W D) y : system :=
  mkSystem s (y_cells y) (y_futures y) (y_handovers y).
Definition set_futures (fs : futures T V W) y : system :=
  mkSystem (y_sys y) (y_cells y) fs (y_handovers y).
Definition set_handover (n : nat) h y : system :=
  mkSystem (y_sys y) (y_cells y) (y_futures y) (<[n := h]> (y_handovers y)).

(** The memory of the program, with the log of one task. *)
Definition view (log : list (event W (T + V) Z)) y : task_world :=
  mkWorld (with_buffer (y_cells y) (sys_queue (y_sys y))) (y_futures y) log.
Definition put_back (w : task_world) y : system :=
  let s := y_sys y in
  mkSystem
    (mkSys (with_buffer (buffer (inner (sys_queue s))) (queue w))
       (sys_pc s) (sys_guards s) (sys_history s) (sys_trace s))
    (cells w) (ext w) (y_handovers y).

Definition on_view {A : Type} (log : list (event W (T + V) Z)) (m : op A)
  : M system (A * list (event W (T + V) Z)) := λ y,
  match m (view log y) with
  | Done (r, w) => Done ((r, trace w), put_back w y)
  | Undef u => Undef u
  | OutOfFuel => OutOfFuel
  end.

(** A step of [Protocol]; one that cannot be taken counts as undefined. *)
Definition act (a : action (option ticket) W) : M system unit := λ y,
  match run_action a (y_sys y) with
  | Some s => Done ((), set_sys s y)
  | None => Undef unreachable_code
  end.

(** Accesses for task [n], whose log they extend. *)
Definition for_task (n : nat) (m : handover → op (progress V * owner_pc (V := V)))
  : M system unit :=
  y ← gets id;
  match y_handovers y !! n with
  | None => undef unreachable_code
  | Some h =>
      r ← on_view (h_log h) (m h);
      modify (set_handover n (mkHandover (h_ticket h) r.1.1 r.1.2 r.2))
  end.

(** The task a guard is at. *)
Definition at_task (id : nat) y : option nat :=
  match sys_guards (y_sys y) !! id with
  | Some (Bounded _ _ _ stop current) =>
      if current <? stop then Some (Z.to_nat current) else None
  | _ => None
  end.

Definition for_current (b : nat) (m : handover → op (progress V * owner_pc (V := V)))
  : M system unit :=
  y ← gets id;
  match at_task b y with Some n => for_task n m | None => undef unreachable_code end.

(** The cell of a task. *)
Definition cell_of h : Z := Z.of_nat (tk_number (h_ticket h)) mod N.

(** [if needs_drop::<T::Task>() { drop(task_ref.take_task_unchecked()); }] *)
Definition drop_in_cell h : op unit :=
  if needs_drop (T := T) then t ← take_task_unchecked (cell_of h); drop_task t else mret ().

Definition treat_task (how : treatment V) h : op (progress V * owner_pc (V := V)) :=
  match how with
  | Map => t ← take_task_unchecked (cell_of h); mret (Resolving true (f t) RStart, h_owner h)
  | Supply v => drop_in_cell h ;; mret (Resolving false v RStart, h_owner h)
  | PassBy => mret (GivenUp false, h_owner h)
  | Discard => drop_in_cell h ;; mret (GivenUp true, h_owner h)
  end.

Definition resolve_task h : op (progress V * owner_pc (V := V)) :=
  match h_progress h with
  | Resolving mapped v pc =>
      pc ← resolver_step (cell_of h) v pc; mret (Resolving mapped v pc, h_owner h)
  | _ => undef unreachable_code
  end.

Definition drop_future h : op (progress V * owner_pc (V := V)) :=
  pc ← owner_step (cell_of h) (tk_addr (h_ticket h)) (h_owner h); mret (h_progress h, pc).

Definition poll_future (cx : W) h : op (progress V * owner_pc (V := V)) :=
  pc ← owner_poll (tk_addr (h_ticket h)) cx; mret (h_progress h, pc).

Definition perform (m : move T V W) : M system unit :=
  y ← gets id;
  let s := y_sys y in
  match m with
  | Spawn a t => modify (set_futures (<[a := Unbatched t]> (y_futures y)))
  | Abort a => on_view [] (drop_batched_task 1 a) ;; mret ()
  | Begin a cx =>
      match y_futures y !! a with
      | Some (Unbatched t) =>
          act (Owner (Some (mkTicket (length (sys_history s)) t a cx)) cx 0)
      | _ => undef unreachable_code
      end
  | Place =>
      match sys_pc s with
      | Checked index (Some tk) =>
          r ← on_view [] (place (tk_addr tk) (tk_waker tk) index);
          act (Owner None inhabitant 0) ;;
          modify (set_handover (tk_number tk) (mkHandover tk Untouched Waiting r.2))
      | _ => undef unreachable_code
      end
  | Publish id => act (Owner None inhabitant id)
  | Close id => act (Bound id)
  | Treat id how => for_current id (treat_task how)
  | Resolve id => for_current id resolve_task
  | Next id =>
      match at_task id y with
      | Some n => act (Consume id (default None (sys_history s !! n)))
      | None => undef unreachable_code
      end
  | Finish id => act (Release id)
  | WakeUp id => act (WakeNext id)
  | Drop n => for_task n drop_future
  | Poll n cx => for_task n (poll_future cx)
  end.

(** ** When the program comes to a move *)
Definition resolved h : bool :=
  match h_progress h with Resolving _ _ (RDone _) => true | _ => false end.

(** The guard is done with the task. *)
Definition settled h : bool :=
  match h_progress h with GivenUp _ => true | _ => resolved h end.

Definition was_woken h : bool :=
  existsb (λ e, match e with Woken _ => true | _ => false end) (h_log h).

(** The cell of the task has not been given to another one. *)
Definition owns y h : bool :=
  match cell_at (y_sys y) (Z.of_nat (tk_number (h_ticket h))) with
  | Some (Some tk) => (tk_number tk =? tk_number (h_ticket h))%nat
  | _ => false
  end.

Definition unbatched (a : addr) y : bool :=
  match y_futures y !! a with Some (Unbatched _) => true | _ => false end.

(** The future whose first poll is about to place its task. *)
Definition in_flight (a : addr) y : bool :=
  match sys_pc (y_sys y) with
  | Checked _ (Some tk) => (tk_addr tk =? a)%nat
  | _ => false
  end.

Definition fresh (a : addr) y : bool :=
  bool_decide (¬ is_Some (y_futures y !! a))
  && bool_decide (map_Forall (λ _ h, tk_addr (h_ticket h) ≠ a) (y_handovers y)).

Definition about_task (n : nat) y (p : handover → bool) : bool :=
  match y_handovers y !! n with Some h => p h | None => false end.

Definition about_current (id : nat) y (p : handover → bool) : bool :=
  match at_task id y with Some n => about_task n y p | None => false end.

(** The accesses that the code comes to, in its order: what its control flow allows,
    whatever the other threads did. *)
Definition possible (m : move T V W) y : bool :=
  let s := y_sys y in
  match m with
  | Spawn a _ => fresh a y
  | Abort a => unbatched a y && negb (in_flight a y)
  | Begin a _ => match sys_pc s with Idle => unbatched a y | _ => false end
  | Place => match sys_pc s with Checked _ _ => true | _ => false end
  | Publish id =>
      match sys_pc s with
      | Idle | Checked _ _ => false
      | _ => bool_decide (¬ is_Some (sys_guards s !! id))
      end
  | Close id => match sys_guards s !! id with Some (Unbounded _ _) => true | _ => false end
  | Treat id _ =>
      about_current id y (λ h, match h_progress h with Untouched => true | _ => false end)
  | Resolve id =>
      about_current id y (λ h,
        match h_progress h with Resolving _ _ _ => negb (resolved h) | _ => false end)
  | Next id => about_current id y settled
  | Finish id =>
      match sys_guards s !! id with
      | Some (Bounded _ _ _ stop current) => current =? stop
      | _ => false
      end
  | WakeUp id => match sys_guards s !! id with Some (Waking _) => true | _ => false end
  | Drop n => about_task n y (λ h, match h_owner h with Gone _ => false | _ => true end)
  | Poll n _ => about_task n y (λ h, match h_owner h with Waiting => true | _ => false end)
  end.

(** The destructor of a future that waits for its value or spins comes before the cell of its
    task was given to another task; a poll after the first one comes after the wake-up.
    Neither is enforced by the code. *)
Definition timely (m : move T V W) y : bool :=
  match m with
  | Drop n =>
      about_task n y (λ h,
        match h_owner h with Waiting | Spinning _ => owns y h | _ => true end)
  | Poll n _ => about_task n y was_woken
  | _ => true
  end.

Definition allowed (m : move T V W) y : bool := if timely m y then possible m y else false.

Definition system_start (fs : futures T V W) : system :=
  mkSystem (initial None) (replicate (Z.to_nat N) new_uninit) fs ∅.

Definition system_step y y' : Prop :=
  ∃ m, allowed m y = true ∧ perform m y = Done ((), y').

(** Futures enter by [Spawn]. *)
Definition system_reachable y : Prop := rtc system_step (system_start ∅) y.

Fixpoint perform_all (l : list (move T V W)) y : option system :=
  match l with
  | [] => Some y
  | m :: l =>
      if allowed m y
      then match perform m y with Done (_, y') => perform_all l y' | _ => None end
      else None
  end.

Lemma perform_all_sound l y y' : perform_all l y = Some y' → rtc system_step y y'.
Proof.
  revert y. induction l as [|m l IH]; intros y Hl; simpl in Hl; [by simplify_eq|].
  destruct (allowed m y) eqn:Ha; [|done]. destruct (perform m y) as [[[] y1]| |] eqn:Hp; [|done..].
  eapply rtc_l; [by exists m|by apply IH].
Qed.

Lemma allowed_drop n y :
  allowed (Drop n) y = about_task n y (λ h,
    match h_owner h with
    | Waiting | Spinning _ => owns y h
    | Leaving _ => true
    | Gone _ => false
    end).
Proof.
  unfold allowed, timely, possible, about_task. destruct (y_handovers y !! n) as [h|]; [|done].
  destruct (h_owner h); try done; by destruct (owns y h).
Qed.

Lemma allowed_poll n cx y :
  allowed (Poll n cx) y
  = about_task n y (λ h, match h_owner h with Waiting => was_woken h | _ => false end).
Proof.
  unfold allowed, timely, possible, about_task. destruct (y_handovers y !! n) as [h|]; [|done].
  destruct (h_owner h), (was_woken h); done.
Qed.
End system.

(** [simpl] shows what a move asks for. *)
Arguments allowed {C T V W D} !m y /.
Arguments timely {C T V W D} !m y /.
Arguments possible {T V W D} !m y /.
