(* ===== verification/Composition.v ===== *)
(** Why the composition of [System] is safe: as long as a task is not settled it is in a
    live batch or in the one being begun, so its cell is its own and its handover is a
    race of [Handover]; what one thread does for its task, no other task sees. *)
From S2P Require Import Prelude Usize Helpers Deque Queue Protocol Schedule Exclusion Safety.
From S2P Require Import Ranges TaskRef Assignment Resolution Delivery Handover System.
Local Open Scope Z_scope.

(** * Tasks that guards have still to take *)
Section covered.
Context {C : QueueCfg} {HS : SafeCfg} {cell W D : Type} `{Deque W D}.
Implicit Types (q : StackQueue cell D) (s : sys cell W D) (gs : gmap nat guard).

(** Task [n] is in the unread part of a live batch, or begins the next one. *)
Definition covered s (n : Z) : Prop :=
  (∃ id g lo hi, sys_guards s !! id = Some g ∧ unread s g = Some (lo, hi) ∧ lo ≤ n < hi)
  ∨ begun s = Some n.

Lemma begun_count s n : begun s = Some n → n = count s - 1 ∧ room s = 0.
Proof.
  unfold begun, room. destruct (sys_pc s); try done; [destruct (eqb _ _)|]; intros; by simplify_eq.
Qed.

Lemma covered_window s n :
  ranges_inv s → exclusion_inv s → covered s n →
  0 ≤ n < count s ∧ count s + room s ≤ n + N.
Proof.
  intros I E [(id & g & lo & hi & Hid & Hu & Hn)|Hb].
  - pose proof (unread_window s id g lo hi n I E Hid Hu Hn). lia.
  - destruct (begun_count _ _ Hb) as [-> ->]. pose proof N_ge_64.
    destruct (inv_owner _ I) as (phase & _ & Hown). unfold owner_ok in Hown.
    unfold begun in Hb. destruct (sys_pc s); try done; lia.
Qed.

(** A covered task still has its cell. *)
Lemma covered_cell s n :
  exclusion_inv s → covered s n → cell_at s n = task_at s n.
Proof.
  intros E [(id & g & lo & hi & Hid & Hu & Hn)|Hb]; [by eapply ex_contents|by apply ex_begun].
Qed.

(** Same guards, same tasks, same batch being begun. *)
Lemma covered_same s s' n :
  sys_guards s' = sys_guards s → count s' = count s → begun s' = begun s →
  covered s n → covered s' n.
Proof.
  intros Hg Hc Hb [(id & g & lo & hi & Hid & Hu & Hn)|Hn]; [left|right; congruence].
  exists id, g, lo, hi. rewrite Hg. split; [done|]. split; [|done].
  rewrite <- Hu. unfold unread. by rewrite Hc.
Qed.

(** One guard changes, the task stays covered by what it becomes. *)
Lemma covered_update q q' pc gs h tr tr' id g g' n :
  sq_slot q' = sq_slot q → gs !! id = Some g →
  (∀ lo hi, unread (mkSys q pc gs h tr) g = Some (lo, hi) → lo ≤ n < hi →
     ∃ lo' hi', unread (mkSys q' pc gs h tr') g' = Some (lo', hi') ∧ lo' ≤ n < hi') →
  covered (mkSys q pc gs h tr) n → covered (mkSys q' pc (<[id := g']> gs) h tr') n.
Proof.
  intros Hsl Hid Hg [(id1 & g1 & lo & hi & Hid1 & Hu & Hn)|Hn].
  - left. simpl in Hid1. destruct (decide (id1 = id)) as [->|Hne].
    + rewrite Hid in Hid1. injection Hid1 as <-. destruct (Hg _ _ Hu Hn) as (lo' & hi' & ? & ?).
      exists id, g', lo', hi'. split; [apply lookup_insert_eq|done].
    + exists id1, g1, lo, hi. split; [by apply lookup_insert_Some; right|done].
  - right. revert Hn. unfold begun. simpl. by rewrite Hsl.
Qed.

Lemma covered_delete q q' pc gs h tr tr' id g n :
  sq_slot q' = sq_slot q → gs !! id = Some g →
  (∀ lo hi, unread (mkSys q pc gs h tr) g = Some (lo, hi) → ¬ lo ≤ n < hi) →
  covered (mkSys q pc gs h tr) n → covered (mkSys q' pc (delete id gs) h tr') n.
Proof.
  intros Hsl Hid Hg [(id1 & g1 & lo & hi & Hid1 & Hu & Hn)|Hn].
  - left. simpl in Hid1. exists id1, g1, lo, hi. split; [|done]. apply lookup_delete_Some.
    split; [|done]. intros <-. simplify_eq. by apply (Hg _ _ Hu).
  - right. revert Hn. unfold begun. simpl. by rewrite Hsl.
Qed.

(** The counter moves on: the new task is covered, and the old ones still are. *)
Lemma covered_claim q gs h tr index c n :
  let s := mkSys q (Written index c) gs h tr in
  let s' := mkSys (set_slot (wrapping_add usize_bits (slot (inner q))
                     (shl usize_bits 1 INDEX_SHIFT)) q)
              (Claimed index (slot (inner q))) gs (h ++ [c]) tr in
  ranges_inv s → covered s n ∨ n = count s → covered s' n.
Proof.
  intros s s' I.
  assert (count s' = count s + 1) as Hc by (unfold count; simpl; rewrite length_app; simpl; lia).
  intros [[(id & g & lo & hi & Hid & Hu & Hn)|Hn]| ->]; [|done|].
  - left. destruct g as [w st|rs re st sp cur|]; simplify_eq/=.
    + exists id, (Unbounded w lo), lo, (count s'). split; [done|]. split; [done|lia].
    + by exists id, (Bounded rs re st hi lo), lo, hi.
  - destruct (inv_owner _ I) as (phase & Hslot & _ & lp & Hl & Ho). simpl in Hslot, Hl.
    assert (begun s' = if eqb phase lp then None else Some (count s)) as Hb.
    { unfold begun. simpl. rewrite Hslot, Hl, !slot_word_bit0, Hc.
      destruct (eqb _ _); [done|f_equal; lia]. }
    destruct (eqb phase lp) eqn:Hp; [left|right; by rewrite Hb].
    apply eqb_prop in Hp. destruct (proj2 Ho Hp) as (id & w & st & Hid).
    exists id, (Unbounded w st), st, (count s'). split; [done|]. split; [done|].
    pose proof (guard_range_bounds _ _ _ _ _ I Hid eq_refl). unfold s in *. lia.
Qed.

(** The slot is replaced: whether a batch begins was decided by the counter. *)
Lemma covered_replace q gs h tr index base_slot v n :
  covered (mkSys q (Claimed index base_slot) gs h tr) n →
  covered (mkSys (set_sq_slot v q)
    (if Z.land (Z.lxor base_slot (sq_slot q)) PHASE =? 0 then Idle
     else Occupying index base_slot) gs h tr) n.
Proof.
  apply covered_same; try done. rewrite same_phase_test. unfold begun. simpl.
  by destruct (eqb _ _).
Qed.

(** The guard of the batch that was begun covers its first task. *)
Lemma covered_occupy q gs h tr tr' index base_slot id n :
  gs !! id = None →
  covered (mkSys q (Occupying index base_slot) gs h tr) n →
  covered (mkSys (occupied index q) Idle
    (<[id := Unbounded base_slot (Z.of_nat (length h) - 1)]> gs) h tr') n.
Proof.
  intros Hnew [(id1 & g1 & lo & hi & Hid1 & Hu & Hn)|Hn]; left.
  - exists id1, g1, lo, hi. split; [|by destruct g1].
    apply lookup_insert_Some. right. split; [|done]. intros ->. simpl in Hid1. congruence.
  - injection Hn as <-. do 4 eexists. split; [apply lookup_insert_eq|]. split; [done|].
    unfold count. simpl. lia.
Qed.

(** The guard of a batch is bounded: its tasks are the same. *)
Lemma covered_bound q q' pc gs h tr id base_slot start rs re n :
  sq_slot q' = sq_slot q → gs !! id = Some (Unbounded base_slot start) →
  covered (mkSys q pc gs h tr) n →
  covered (mkSys q' pc (<[id := Bounded rs re start (Z.of_nat (length h)) start]> gs) h tr) n.
Proof.
  intros Hsl Hid. eapply covered_update; [done|exact Hid|]. intros lo hi [= <- <-] Hn. eauto.
Qed.
End covered.

(** * Logs that begin with other events

    Accesses only add to the log: what they do does not depend on what is in it. *)
Section logs.
Context {C : QueueCfg} {T V W D : Type} `{Deque W D} `{NeedsDrop T, NeedsDrop V}.
Abbreviation task_world := (world (TaskRef T) D (futures T V W) (event W (T + V) Z)).
Abbreviation op A := (M task_world A).
Implicit Types (w : task_world).

Definition after_log (p : list (event W (T + V) Z)) w : task_world :=
  mkWorld (queue w) (ext w) (p ++ trace w).

Definition only_adds {A : Type} (m : op A) : Prop :=
  ∀ p w, m (after_log p w)
    = match m w with
      | Done (a, w') => Done (a, after_log p w') | Undef u => Undef u | OutOfFuel => OutOfFuel
      end.

Lemma adds_bind {A B : Type} (m : op A) (k : A → op B) :
  only_adds m → (∀ a, only_adds (k a)) → only_adds (a ← m; k a).
Proof.
  intros Hm Hk p w. unfold mbind, M_bind. rewrite Hm. destruct (m w) as [[a w']| |]; [apply Hk|done..].
Qed.

Lemma adds_ret {A : Type} (a : A) : only_adds (mret a).
Proof. done. Qed.
Lemma adds_undef {A : Type} u : only_adds (undef u : op A).
Proof. done. Qed.
Lemma adds_gets_ext : only_adds (gets ext).
Proof. done. Qed.
Lemma adds_ext g : only_adds (modify (λ w, set_ext (g (ext w)) w)).
Proof. done. Qed.
Lemma adds_emit e : only_adds (emit e).
Proof. intros p w. cbn. unfold after_log. simpl. by rewrite app_assoc. Qed.
Lemma adds_on_queue {A : Type} (m : M (StackQueue (TaskRef T) D) A) : only_adds (on_queue m).
Proof. intros p w. unfold on_queue, zoom. simpl. by destruct (m (queue w)) as [[a q]| |]. Qed.

Create HintDb adding discriminated.
#[local] Hint Resolve adds_bind adds_ret adds_undef adds_gets_ext adds_ext adds_emit adds_on_queue
  : adding.

(** Goes down to the elementary operations. *)
Ltac adds :=
  repeat first
    [ progress auto 1 with adding nocore | apply adds_bind; [|intros ?] | case_match ].

Lemma adds_replace a st : only_adds (replace_future (T := T) (V := V) (W := W) (D := D) a st).
Proof. unfold replace_future, deref. adds. Qed.

Lemma adds_receiver i : only_adds (receiver (T := T) (V := V) (W := W) (D := D) i).
Proof. unfold receiver, deref, assume_init. adds. Qed.

Lemma adds_resolver i v pc : only_adds (resolver_step (T := T) (W := W) (D := D) i v pc).
Proof.
  pose proof adds_receiver. pose proof adds_replace.
  destruct pc; simpl; unfold begin_resolve, write_value, wake_receiver, end_resolve, drop_result,
    fetch_or_state, fetch_xor_state, load_state, update_cell; adds; auto.
Qed.

Lemma adds_owner i a pc : only_adds (owner_step (T := T) (V := V) (W := W) (D := D) i a pc).
Proof.
  destruct pc; simpl; unfold mark_dropped, drop_value, drop_result, release_future, drop_task, deref,
    assume_init, fetch_or_state, load_state, update_cell; adds.
Qed.
End logs.

(** * One task *)
Section tasks.
Context {C : QueueCfg} {HS : SafeCfg} {T V W D : Type} `{Deque W D}
  `{NeedsDrop T, NeedsDrop V} `{Inhabited W}.
Abbreviation task_world := (world (TaskRef T) D (futures T V W) (event W (T + V) Z)).
Abbreviation op A := (M task_world A).
Abbreviation system := (system T V W D).
Abbreviation handover := (handover T V W).
Implicit Types (y : system) (h k : handover) (w : task_world).
Variable (f : T → V).

Definition stage h : resolver_pc :=
  match h_progress h with Resolving _ _ pc => pc | _ => RStart end.

(** The task went with a value that was computed from it. *)
Definition mapped h : bool :=
  match h_progress h with Resolving mapped _ _ => mapped | _ => false end.

(** The task was dropped in its cell, if tasks have a destructor. *)
Definition dropped_in_cell h : bool :=
  match h_progress h with
  | Resolving mapped _ _ => negb mapped && needs_drop (T := T)
  | GivenUp dropped => dropped && needs_drop (T := T)
  | Untouched => false
  end.

Definition left_over h : option T :=
  if mapped h || dropped_in_cell h then None else Some (tk_task (h_ticket h)).

(** What was logged before the first access of a resolver. *)
Definition task_log h : list (event W (T + V) Z) :=
  if dropped_in_cell h then [Dropped (inl (tk_task (h_ticket h)))] else [].

(** The value for the future; any value, as long as there is none. *)
Definition answer h : V :=
  match h_progress h with Resolving _ v _ => v | _ => f (tk_task (h_ticket h)) end.

Definition race_log h : list (event W (T + V) Z) := drop (length (task_log h)) (h_log h).
Definition race_of y h : race := mkRace (stage h) (h_owner h) (view (race_log h) y).

Abbreviation address h := (tk_addr (h_ticket h)).
Abbreviation task_waker h := (tk_waker (h_ticket h)).
Abbreviation handover_race h := (race_inv (cell_of h) (address h) (task_waker h) (answer h)).

(** The handover is in a state of a race of [Handover], if not for the cell: that may have
    been given to another task once this one is settled. *)
Record handover_ok y h : Prop := {
  ho_value : mapped h = true → answer h = f (tk_task (h_ticket h));
  ho_future : y_futures y !! address h
    = race_future (cell_of h) (task_waker h) (answer h) (race_of y h);
  ho_log : h_log h = task_log h ++ race_trace (task_waker h) (answer h) (race_of y h);
  ho_pair : race_pair (answer h) (stage h) (h_owner h);
  ho_cell : if owns y h
    then y_cells y !! Z.to_nat (cell_of h)
      = Some (mkTaskRef (race_flags (race_of y h)) (Some (address h)) (left_over h))
    else settled h = true
}.

Lemma cell_of_pos h : 0 ≤ cell_of h < N.
Proof. apply mod_N_bounds. Qed.

Lemma handover_is_race y h :
  handover_ok y h → owns y h = true → handover_race h (left_over h) (race_of y h).
Proof.
  intros [_ Hf Hl Hp Hc] Ho. rewrite Ho in Hc. split; [done|done| |done].
  simpl. unfold race_log. rewrite Hl at 1. apply drop_app_length.
Qed.

(** What is done on the log of the race is done on the log of the task. *)
Lemma log_split y h :
  handover_ok y h → h_log h = task_log h ++ race_log h.
Proof. intros [_ _ Hl _ _]. unfold race_log. by rewrite Hl, drop_app_length. Qed.

Lemma on_task_log {A : Type} (m : op A) y h a w :
  handover_ok y h → only_adds m → m (view (race_log h) y) = Done (a, w) →
  m (view (h_log h) y) = Done (a, after_log (task_log h) w).
Proof.
  intros Hok Ha Hm. rewrite (log_split _ _ Hok).
  change (view (task_log h ++ race_log h) y) with (after_log (task_log h) (view (race_log h) y)).
  by rewrite Ha, Hm.
Qed.

Lemma race_is_handover y h w :
  handover_race h (left_over h) (mkRace (stage h) (h_owner h) w) →
  (mapped h = true → answer h = f (tk_task (h_ticket h))) →
  y_cells y = cells w → y_futures y = ext w → h_log h = task_log h ++ trace w → owns y h = true →
  handover_ok y h.
Proof.
  intros [Hc Hf Hl Hp] Hv Hcs Hfs Hlog Ho. split; [done| | |done|].
  - by rewrite Hfs.
  - rewrite Hlog. f_equal. exact Hl.
  - by rewrite Ho, Hcs.
Qed.

(** A future in a batch is not [Unbatched]. *)
Lemma handover_not_unbatched y h t :
  handover_ok y h → y_futures y !! address h ≠ Some (Unbatched t).
Proof.
  intros [_ Hf _ _ _]. rewrite Hf. unfold race_future, race_of. simpl.
  by destruct (h_owner h) as [| |[]|].
Qed.

(** Nothing of this task has changed, except that its cell may be gone. *)
Lemma handover_frame y y' h :
  y_futures y' !! address h = y_futures y !! address h →
  owns y' h = owns y h ∨ owns y' h = false ∧ settled h = true →
  (owns y' h = true → y_cells y' !! Z.to_nat (cell_of h) = y_cells y !! Z.to_nat (cell_of h)) →
  handover_ok y h → handover_ok y' h.
Proof.
  intros Hf Ho Hc [Hv Hf0 Hl Hp Hc0]. split; [done| |done|done|].
  - by rewrite Hf.
  - destruct Ho as [Ho|[-> Ho]]; [|done]. rewrite Ho in *. destruct (owns y h); [|done].
    by rewrite Hc.
Qed.

(** Only the memory counts, and which ticket is in the cell. *)
Lemma handover_ok_set n k y h : handover_ok y h → handover_ok (set_handover n k y) h.
Proof. intros Ho. apply (handover_frame y); auto. Qed.

(** The task that owns a cell is the one of the ticket in it. *)
Lemma owns_inj y h k :
  owns y h = true → owns y k = true → cell_of h = cell_of k →
  tk_number (h_ticket h) = tk_number (h_ticket k).
Proof.
  unfold owns, cell_at, cell_of. intros Hh Hk He. rewrite <- He in Hk.
  destruct (_ !! _) as [[tk|]|]; try done.
  apply Nat.eqb_eq in Hh, Hk. congruence.
Qed.

Lemma cell_of_nat h k : Z.to_nat (cell_of h) = Z.to_nat (cell_of k) → cell_of h = cell_of k.
Proof. pose proof (cell_of_pos h). pose proof (cell_of_pos k). lia. Qed.

(** ** The accesses for a task *)
Lemma view_put_back buf y w :
  queue w = set_buffer buf (with_buffer (y_cells y) (sys_queue (y_sys y))) →
  put_back w y = mkSystem (y_sys y) buf (ext w) (y_handovers y).
Proof.
  intros Hq. unfold put_back. rewrite Hq. by destruct y as [[[? ? [] ?]] ? ? ?].
Qed.

Lemma put_back_nearby i a log y w :
  nearby i a (view log y) w →
  put_back w y = mkSystem (y_sys y) (cells w) (ext w) (y_handovers y).
Proof.
  intros (buf & Hq & _). rewrite (view_put_back buf) by done. by rewrite Hq.
Qed.

Lemma on_view_run {A : Type} i a log (m : op A) y r w :
  m (view log y) = Done (r, w) → nearby i a (view log y) w →
  on_view log m y = Done ((r, trace w), mkSystem (y_sys y) (cells w) (ext w) (y_handovers y)).
Proof.
  intros Hm Hn. unfold on_view. rewrite Hm. by rewrite (put_back_nearby i a log).
Qed.

(** The system after an access for task [n] that leads to [w]. *)
Definition after_task n h pr opc w y : system :=
  set_handover n (mkHandover (h_ticket h) pr opc (trace w))
    (mkSystem (y_sys y) (cells w) (ext w) (y_handovers y)).

Lemma for_task_run i a n m y h r opc w :
  y_handovers y !! n = Some h → m h (view (h_log h) y) = Done ((r, opc), w) →
  nearby i a (view (h_log h) y) w → for_task n m y = Done ((), after_task n h r opc w y).
Proof.
  intros Hn Hm Hw. unfold for_task. rewrite run_get, Hn.
  by run_with (on_view_run i a _ _ _ _ _ Hm Hw).
Qed.
End tasks.

(** * The invariant *)
Section invariant.
Context {C : QueueCfg} {HS : SafeCfg} {T V W D : Type} `{Deque W D}
  `{NeedsDrop T, NeedsDrop V} `{Inhabited W}.
Abbreviation task_world := (world (TaskRef T) D (futures T V W) (event W (T + V) Z)).
Abbreviation op A := (M task_world A).
Abbreviation system := (system T V W D).
Abbreviation handover := (handover T V W).
Implicit Types (y : system) (h k : handover) (w : task_world).
Variable (f : T → V).

Abbreviation address h := (tk_addr (h_ticket h)).

(** What the owner thread is about to place, or has placed and not yet counted. *)
Definition owner_fits y (pc : Protocol.owner_pc (option (ticket T W)) W) : Prop :=
  let n := length (sys_history (y_sys y)) in
  match pc with
  | Checked _ c =>
      ∃ tk, c = Some tk ∧ tk_number tk = n
        ∧ y_futures y !! tk_addr tk = Some (Unbatched (tk_task tk))
  | Written _ c => ∃ h, y_handovers y !! n = Some h ∧ c = Some (h_ticket h)
  | _ => True
  end.

Definition placed (pc : Protocol.owner_pc (option (ticket T W)) W) : nat :=
  match pc with Written _ _ => 1%nat | _ => 0%nat end.

Record system_inv y : Prop := {
  sy_reachable : Protocol.reachable None (y_sys y);
  sy_cells : length (y_cells y) = Z.to_nat N;
  sy_history : ∀ n c, sys_history (y_sys y) !! n = Some c →
    ∃ h, y_handovers y !! n = Some h ∧ c = Some (h_ticket h);
  sy_numbers : ∀ n h, y_handovers y !! n = Some h →
    tk_number (h_ticket h) = n
    ∧ (n < length (sys_history (y_sys y)) + placed (sys_pc (y_sys y)))%nat;
  sy_owner : owner_fits y (sys_pc (y_sys y));
  sy_addresses : ∀ n1 n2 h1 h2, y_handovers y !! n1 = Some h1 → y_handovers y !! n2 = Some h2 →
    address h1 = address h2 → n1 = n2;
  sy_handover : ∀ n h, y_handovers y !! n = Some h → handover_ok f y h;
  sy_pending : ∀ n h, y_handovers y !! n = Some h → settled h = false →
    (n < length (sys_history (y_sys y)))%nat → covered (y_sys y) (Z.of_nat n)
}.

(** What a move means to the queue: at most one step of [Protocol]. *)
Definition moved y y' : Prop :=
  y_sys y' = y_sys y ∨ ∃ a, run_action a (y_sys y) = Some (y_sys y').

(** The futures whose task is still their own. *)
Definition newcomers y : gmap addr T :=
  omap (λ st, match st with Unbatched t => Some t | _ => None end) (y_futures y).

(** A move by which no task comes into the queue. *)
Definition kept y y' : Prop :=
  moved y y' ∧ newcomers y' = newcomers y
  ∧ buffer (inner (sys_queue (y_sys y'))) = buffer (inner (sys_queue (y_sys y))).

(** A move for a task that is in the queue. *)
Definition touched y y' : Prop := y_sys y' = y_sys y ∧ newcomers y' = newcomers y.

Lemma touched_kept y y' : touched y y' → kept y y'.
Proof. intros [Hs Hn]. split; [by left|]. by rewrite Hs. Qed.

Lemma newcomers_lookup y a t :
  newcomers y !! a = Some t ↔ y_futures y !! a = Some (Unbatched t).
Proof.
  clear f. unfold newcomers. rewrite lookup_omap. destruct (_ !! a) as [[]|]; simpl; naive_solver.
Qed.

Lemma kept_newcomers y y' :
  (∀ a t, y_futures y' !! a = Some (Unbatched t) ↔ y_futures y !! a = Some (Unbatched t)) →
  newcomers y' = newcomers y.
Proof.
  intros Hf. apply map_eq. intros a. apply option_eq. intros t. by rewrite !newcomers_lookup.
Qed.

Lemma system_ranges y : system_inv y → ranges_inv (y_sys y) ∧ exclusion_inv (y_sys y).
Proof. intros I. by apply exclusion_inv_reachable with (uninit := None), sy_reachable. Qed.

Lemma system_inv_start : system_inv (system_start ∅).
Proof.
  split; simpl; try done.
  - apply rtc_refl.
  - by rewrite length_replicate.
Qed.

(** Two tasks that own their cells own different ones. *)
Lemma owners_apart y n1 n2 h1 h2 :
  system_inv y → y_handovers y !! n1 = Some h1 → y_handovers y !! n2 = Some h2 → n1 ≠ n2 →
  owns y h1 = true → owns y h2 = true → Z.to_nat (cell_of h1) ≠ Z.to_nat (cell_of h2).
Proof.
  intros I H1' H2' Hne Ho1 Ho2 He%cell_of_nat. pose proof (owns_inj _ _ _ Ho1 Ho2 He).
  destruct (sy_numbers _ I _ _ H1'), (sy_numbers _ I _ _ H2'). congruence.
Qed.

(** The other tasks do not see what one task's threads do nearby. *)
Lemma nearby_handover y n h k m w log :
  system_inv y → y_handovers y !! n = Some h → y_handovers y !! m = Some k → n ≠ m →
  nearby (cell_of h) (address h) (view log y) w →
  owns y h = true ∨ cells w = y_cells y →
  handover_ok f (mkSystem (y_sys y) (cells w) (ext w) (y_handovers y)) k.
Proof.
  intros I Hn Hm Hne (buf & Hq & Hlen & Hbuf & Hext) Hown.
  assert (cells w = buf) as Hcw by by rewrite Hq.
  apply (handover_frame f y); [|by left| |by eapply sy_handover]; simpl.
  - apply Hext. intros He. destruct Hne. by eapply sy_addresses.
  - intros Hok. destruct Hown as [Ho|Ho]; [|by rewrite Ho]. rewrite Hcw. apply Hbuf.
    intros He. by eapply (owners_apart y n m).
Qed.

(** An access for task [n] keeps the invariant if it is one of the task's race. *)
Lemma for_task_inv n m y h r opc w :
  system_inv y → y_handovers y !! n = Some h →
  m h (view (h_log h) y) = Done ((r, opc), w) →
  nearby (cell_of h) (address h) (view (h_log h) y) w →
  owns y h = true ∨ cells w = y_cells y →
  (let h' := mkHandover (h_ticket h) r opc (trace w) in
   handover_ok f (mkSystem (y_sys y) (cells w) (ext w) (y_handovers y)) h'
   ∧ (settled h = true → settled h' = true)) →
  ∃ y', for_task n m y = Done ((), y') ∧ system_inv y' ∧ touched y y'.
Proof.
  intros I Hn Hm Hw Hown. set (h' := mkHandover _ _ _ _). intros [Hok Hres].
  set (y' := after_task n h r opc w y). exists y'. split; [by eapply for_task_run|].
  destruct Hw as (buf & Hq & Hlen & Hbuf & Hext). split; [|split; [done|]].
  2:{ apply kept_newcomers. intros b t. simpl. destruct (decide (b = address h)) as [->|Hne].
    - split; intros Hb; exfalso; revert Hb.
      + apply (handover_not_unbatched f _ h' t Hok).
      + apply (handover_not_unbatched f y h t (sy_handover _ I _ _ Hn)).
    - by rewrite (Hext b Hne). }
  assert (cells w = buf) as Hcw by by rewrite Hq.
  assert (∀ m k, y_handovers y' !! m = Some k →
    ∃ k0, y_handovers y !! m = Some k0 ∧ h_ticket k0 = h_ticket k
      ∧ (settled k0 = true → settled k = true)
      ∧ handover_ok f y' k) as Hback.
  { intros m' k [[<- <-]|[Hne Hk]]%(lookup_insert_Some (y_handovers y)).
    { exists h. split; [done|]. split; [done|]. split; [done|]. by apply handover_ok_set. }
    exists k. split; [done|]. split; [done|]. split; [done|].
    apply handover_ok_set. eapply (nearby_handover y n h k m'); try done. by exists buf. }
  assert (∀ m k, y_handovers y !! m = Some k →
    ∃ k', y_handovers y' !! m = Some k' ∧ h_ticket k' = h_ticket k) as Hforth.
  { intros m' k Hk. destruct (decide (m' = n)) as [->|Hne].
    - exists h'. split; [apply lookup_insert_eq|]. by simplify_eq.
    - exists k. split; [|done]. by apply lookup_insert_Some; right. }
  split.
  - exact (sy_reachable _ I).
  - simpl. rewrite Hcw. rewrite Hlen. exact (sy_cells _ I).
  - intros m' c Hc. destruct (sy_history _ I _ _ Hc) as (k & Hk & ->).
    destruct (Hforth _ _ Hk) as (k' & ? & Ht). exists k'. by rewrite Ht.
  - intros m' k Hk. destruct (Hback _ _ Hk) as (k0 & Hk0 & <- & _). by apply (sy_numbers _ I).
  - pose proof (sy_owner _ I) as Ho. unfold owner_fits in *. simpl.
    destruct (sys_pc (y_sys y)); try done.
    + destruct Ho as (tk & -> & Hnum & Hfut). exists tk. split; [done|]. split; [done|].
      rewrite <- Hfut. apply Hext. intros He. rewrite He in Hfut.
      by destruct (handover_not_unbatched f y h (tk_task tk) (sy_handover _ I _ _ Hn)).
    + destruct Ho as (k & Hk & ->). destruct (Hforth _ _ Hk) as (k' & ? & Ht).
      exists k'. by rewrite Ht.
  - intros n1 n2 h1 h2 H1' H2'. destruct (Hback _ _ H1') as (k1 & Hk1 & <- & _).
    destruct (Hback _ _ H2') as (k2 & Hk2 & <- & _). by apply (sy_addresses _ I).
  - intros m' k Hk. by destruct (Hback _ _ Hk) as (_ & _ & _ & _ & ?).
  - intros m' k Hk Hr. destruct (Hback _ _ Hk) as (k0 & Hk0 & _ & Hres0 & _).
    apply (sy_pending _ I m' k0); [done|]. destruct (settled k0); [|done]. by rewrite Hres0 in Hr.
Qed.
End invariant.

(** * The moves for one task *)
Section task_moves.
Context {C : QueueCfg} {HS : SafeCfg} {T V W D : Type} `{Deque W D}
  `{NeedsDrop T, NeedsDrop V} `{Inhabited W}.
Abbreviation system := (system T V W D).
Abbreviation handover := (handover T V W).
Implicit Types (y : system) (h k : handover).
Variable (f : T → V).

Abbreviation address h := (tk_addr (h_ticket h)).

(** A guard is always at a task that is there and owns its cell. *)
Lemma at_task_owns y id n :
  system_inv f y → at_task id y = Some n →
  ∃ h rs re start stop, y_handovers y !! n = Some h ∧ owns y h = true
    ∧ sys_guards (y_sys y) !! id = Some (Bounded rs re start stop (Z.of_nat n))
    ∧ Z.of_nat n < stop ∧ sys_history (y_sys y) !! n = Some (Some (h_ticket h)).
Proof.
  intros I Hat. destruct (system_ranges _ _ I) as [R E]. unfold at_task in Hat.
  destruct (_ !! id) as [[|rs re start stop current|]|] eqn:Hid; try done.
  destruct (Z.ltb_spec current stop) as [Hlt|]; [|done]. injection Hat as <-.
  pose proof (unread_window _ _ _ _ _ current R E Hid eq_refl ltac:(lia)) as Hw.
  pose proof (ex_contents _ E _ _ _ _ current Hid eq_refl ltac:(lia)) as Hc.
  assert (is_Some (sys_history (y_sys y) !! Z.to_nat current)) as [c Hh].
  { apply lookup_lt_is_Some. unfold count in Hw. lia. }
  destruct (sy_history _ _ I _ _ Hh) as (h & Hh' & ->). unfold task_at in Hc. rewrite Hh in Hc.
  rewrite Z2Nat.id by lia.
  exists h, rs, re, start, stop. split; [done|]. split; [|by split_and!].
  destruct (sy_numbers _ _ I _ _ Hh') as [Hn _]. unfold owns.
  by rewrite Hn, Z2Nat.id, Hc, Hn, Nat.eqb_refl by lia.
Qed.

Lemma about_current_task y id p :
  about_current id y p = true →
  ∃ n h, at_task id y = Some n ∧ y_handovers y !! n = Some h ∧ p h = true.
Proof.
  unfold about_current, about_task. destruct (at_task id y) as [n|]; [|done].
  destruct (_ !! n) as [h|] eqn:Hn; [|done]. eauto.
Qed.

Lemma for_current_inv id n m y h r opc w :
  system_inv f y → at_task id y = Some n → y_handovers y !! n = Some h →
  m h (view (h_log h) y) = Done ((r, opc), w) →
  nearby (cell_of h) (address h) (view (h_log h) y) w →
  (owns y h = true →
   let h' := mkHandover (h_ticket h) r opc (trace w) in
   handover_ok f (mkSystem (y_sys y) (cells w) (ext w) (y_handovers y)) h'
   ∧ (settled h = true → settled h' = true)) →
  ∃ y', for_current id m y = Done ((), y') ∧ system_inv f y' ∧ touched y y'.
Proof.
  intros I Hat Hh Hm Hn Hok. destruct (at_task_owns _ _ _ I Hat) as (h1 & ? & ? & ? & ? & Hh1 & Ho & _).
  rewrite Hh in Hh1. injection Hh1 as <-. unfold for_current.
  rewrite run_get, Hat. eapply for_task_inv; eauto.
Qed.

(** The memory after a task was treated, and what the handover has become. *)
Definition treated (how : treatment V) h : progress V :=
  match how with
  | Map => Resolving true (f (tk_task (h_ticket h))) RStart
  | Supply v => Resolving false v RStart
  | PassBy => GivenUp false
  | Discard => GivenUp true
  end.

Definition treat_world (how : treatment V) h y : world (TaskRef T) D (futures T V W) (event W (T + V) Z) :=
  let h' := mkHandover (h_ticket h) (treated how h) (h_owner h) [] in
  let w := after_log (h_log h) (view (task_log h') y) in
  if mapped h' || dropped_in_cell h'
  then set_cell (cell_of h)
         (mkTaskRef (race_flags (race_of y h)) (Some (address h)) None) w
  else w.

(** The task is still in its cell, and nothing has been logged. *)
Lemma untouched_task y h :
  handover_ok f y h → owns y h = true → h_progress h = Untouched →
  h_log h = []
  ∧ cells (view (h_log h) y) !! Z.to_nat (cell_of h)
    = Some (mkTaskRef (race_flags (race_of y h)) (Some (address h)) (Some (tk_task (h_ticket h)))).
Proof.
  intros [_ _ Hl Hp Hc] Ho Hr. rewrite Ho in Hc. split.
  - rewrite Hl. unfold task_log, dropped_in_cell, race_trace, race_of, stage in *. simpl in *.
    rewrite Hr in *. simpl in *. by destruct (h_owner h) as [|?|[|[]]|[|[]]].
  - etransitivity; [exact Hc|]. unfold left_over, mapped, dropped_in_cell. by rewrite Hr.
Qed.

Lemma treat_task_run how y h :
  handover_ok f y h → owns y h = true → h_progress h = Untouched →
  treat_task f how h (view (h_log h) y) = Done ((treated how h, h_owner h), treat_world how h y)
  ∧ nearby (cell_of h) (address h) (view (h_log h) y) (treat_world how h y).
Proof.
  intros Hok Ho Hr. destruct (untouched_task y h Hok Ho Hr) as [Hlog Hc].
  pose proof (cell_of_pos h) as [Hpos _].
  pose proof (take_task_run (cell_of h) _ _ (view (h_log h) y) Hpos Hc eq_refl) as Ht.
  assert (∀ l, nearby (cell_of h) (address h) (view (h_log h) y)
    (set_cell (cell_of h) (mkTaskRef (race_flags (race_of y h)) (Some (address h)) None) (view l y))) as Hn
    by (intros l; apply (nearby_cell (cell_of h) (address h) _ (view (h_log h) y))).
  assert (nearby (cell_of h) (address h) (view (h_log h) y) (view (h_log h) y)) as Hs
    by apply nearby_same.
  unfold treat_world, mapped, dropped_in_cell, task_log. rewrite Hlog in *. unfold after_log.
  destruct how; simpl; unfold dropped_in_cell; simpl; unfold drop_in_cell, drop_task;
    try destruct (needs_drop (T := T)); simpl; (split; [|by apply Hn || exact Hs]).
  all: first [by run_with Ht | reflexivity | erewrite run_bind; [reflexivity|by run_with Ht]].
Qed.

(** A race in which the resolver has not begun does not depend on the value. *)
Lemma race_unbegun i a wk v v' tk tk' flags opc
  (w w' : world (TaskRef T) D (futures T V W) (event W (T + V) Z)) :
  race_inv i a wk v tk (mkRace RStart opc w) →
  flags = race_flags (mkRace RStart opc w) →
  cells w' !! Z.to_nat i = Some (mkTaskRef flags (Some a) tk') → ext w' = ext w →
  trace w' = [] →
  race_inv i a wk v' tk' (mkRace RStart opc w').
Proof.
  intros [Hc Hf Ht Hp] -> Hc' Hx Ht'. simpl in *. eapply race_inv_intro; [exact Hc'| | | |done].
  - simpl. rewrite Hx, Hf. unfold race_future. simpl. by destruct opc as [| |[]|].
  - simpl. rewrite Ht'. unfold race_trace. simpl. by destruct opc as [|?|[|[]]|[|[]]].
  - by destruct opc as [|?|[|[]]|[|[]]].
Qed.

Lemma treat_task_inv y id how :
  system_inv f y → allowed (Treat id how) y = true →
  ∃ y', perform f (Treat id how) y = Done ((), y') ∧ system_inv f y' ∧ touched y y'.
Proof.
  intros I (n & h & Hat & Hh & Hp)%about_current_task. unfold perform. rewrite run_get.
  destruct (h_progress h) eqn:Hr; try done. clear Hp.
  destruct (at_task_owns _ _ _ I Hat) as (h1 & ? & ? & ? & ? & Hh1 & Ho & _).
  rewrite Hh in Hh1. injection Hh1 as <-. pose proof (sy_handover _ _ I _ _ Hh) as Hok.
  destruct (treat_task_run how y h Hok Ho Hr) as [Hrun Hn].
  destruct (untouched_task y h Hok Ho Hr) as [Hlog Hc].
  pose proof (handover_is_race _ _ _ Hok Ho) as Hrace.
  eapply for_current_inv; [done|done|exact Hh|exact Hrun|exact Hn|].
  intros _. set (h' := mkHandover _ _ _ _). split; [|unfold settled, resolved; by rewrite Hr].
  assert (stage h' = RStart ∧ stage h = RStart) as [Hst' Hst]
    by (unfold stage; rewrite Hr; by destruct how).
  set (w' := treat_world how h y) in *.
  assert (trace w' = task_log h') as Htr.
  { unfold w', treat_world, after_log, task_log. rewrite Hlog. by destruct (_ || _). }
  apply race_is_handover with (w := mkWorld (queue w') (ext w') []); try done.
  - rewrite Hst'. unfold race_of in Hrace. rewrite Hst in Hrace.
    eapply race_unbegun; [exact Hrace|done| | |done]; simpl.
    + unfold w', treat_world, left_over, race_of. rewrite Hst.
      change (mapped (mkHandover (h_ticket h) (treated how h) (h_owner h) [])) with (mapped h').
      change (dropped_in_cell (mkHandover (h_ticket h) (treated how h) (h_owner h) []))
        with (dropped_in_cell h').
      destruct (_ || _); [apply set_cell_lookup; by eapply lookup_lt_Some|].
      etransitivity; [exact Hc|]. unfold race_of. by rewrite Hst.
    + unfold w', treat_world. by destruct (_ || _).
  - by destruct how.
  - simpl. by rewrite app_nil_r.
Qed.

Lemma resolve_task_inv y id :
  system_inv f y → allowed (Resolve id) y = true →
  ∃ y', perform f (Resolve id) y = Done ((), y') ∧ system_inv f y' ∧ touched y y'.
Proof.
  intros I (n & h & Hat & Hh & Hp)%about_current_task. unfold perform. rewrite run_get.
  destruct (h_progress h) as [|b v pc|] eqn:Hr; [done| |done].
  destruct (at_task_owns _ _ _ I Hat) as (h1 & ? & ? & ? & ? & Hh1 & Ho & _).
  rewrite Hh in Hh1. injection Hh1 as <-. pose proof (sy_handover _ _ I _ _ Hh) as Hok.
  pose proof (cell_of_pos h) as [Hpos _].
  destruct (resolver_step_run _ _ _ _ Hpos _ _ (handover_is_race _ _ _ Hok Ho))
    as (pc' & w' & Hs & I' & Hn).
  assert (stage h = pc ∧ answer f h = v) as [Hst Hv] by (unfold stage, answer; by rewrite Hr).
  apply (on_task_log f _ _ _ _ _ Hok (adds_resolver _ _ _)) in Hs. simpl in Hs. rewrite Hst, Hv in Hs.
  eapply for_current_inv with (w := after_log (task_log h) w'); [done|done|exact Hh| |exact Hn|].
  - unfold resolve_task. rewrite Hr. run_with Hs. reflexivity.
  - intros _. set (h' := mkHandover _ _ _ _).
    assert (mapped h' = mapped h ∧ left_over h' = left_over h ∧ task_log h' = task_log h
      ∧ answer f h' = answer f h) as (Hm & Hlo & Htl & Han)
      by (unfold left_over, task_log, mapped, dropped_in_cell, answer; by rewrite Hr).
    split.
    + apply race_is_handover with (w := w'); try done.
      * by rewrite Hlo, Han.
      * rewrite Hm, Han. apply (ho_value _ _ _ Hok).
      * by rewrite Htl.
    + unfold settled, resolved. rewrite Hr. simpl. clear Hp. destruct pc as [| | | | |d]; try done.
      cbn [resolver_step] in Hs. unfold mret, M_ret in Hs. by injection Hs as <-.
Qed.

(** A future that is no longer [Batched] or whose value is settled is freed. *)
Lemma leave_task_inv y n h fate :
  system_inv f y → y_handovers y !! n = Some h → h_owner h = Leaving fate →
  ∃ y', perform f (Drop n) y = Done ((), y') ∧ system_inv f y' ∧ touched y y'.
Proof.
  intros I Hh How. unfold perform. rewrite run_get.
  pose proof (sy_handover _ _ I _ _ Hh) as [Hv Hf Hl Hp Hc].
  set (w := view (h_log h) y).
  assert (∃ st, ext w !! address h = Some st ∧ ∀ t, st ≠ Unbatched t) as (st & Hst & Hnot).
  { simpl. rewrite Hf. unfold race_future, race_of. simpl. rewrite How.
    destruct fate as [|[]]; by eexists. }
  eapply for_task_inv; [done|exact Hh| |apply nearby_gone|by right|].
  - unfold drop_future. rewrite How.
    exact (run_bind _ _ _ _ _ (release_future_run (address h) fate w st Hst Hnot)).
  - split; [|done]. set (h' := mkHandover _ _ _ _).
    split; [exact Hv| | | |].
    + apply fin_maps.lookup_delete_eq.
    + etransitivity; [exact Hl|]. unfold race_trace, race_of, h'. simpl. rewrite How.
      by destruct fate as [|[]].
    + change (stage h') with (stage h). rewrite How in Hp. simpl in *.
      destruct (stage h) as [| | | | |[]], fate as [|[]]; done.
    + change (owns _ h') with (owns y h). destruct (owns y h); [|exact Hc].
      etransitivity; [exact Hc|]. unfold race_flags, race_of, h'. simpl. rewrite How.
      by destruct fate as [|[]].
Qed.

Lemma drop_task_inv y n :
  system_inv f y → allowed (Drop n) y = true →
  ∃ y', perform f (Drop n) y = Done ((), y') ∧ system_inv f y' ∧ touched y y'.
Proof.
  intros I Ha. rewrite allowed_drop in Ha. unfold about_task in Ha. destruct (y_handovers y !! n) as [h|] eqn:Hh; [|done].
  destruct (h_owner h) as [|st|fate|] eqn:How; [| |by eapply leave_task_inv|done].
  all: pose proof (sy_handover _ _ I _ _ Hh) as Hok; pose proof (cell_of_pos h) as [Hpos _].
  all: destruct (owner_step_run _ _ _ _ Hpos _ _ (handover_is_race _ _ _ Hok Ha))
    as (pc' & w' & Hs & I' & Hn).
  all: apply (on_task_log f _ _ _ _ _ Hok (adds_owner _ _ _)) in Hs; simpl in Hs; rewrite How in Hs.
  all: unfold perform; rewrite run_get;
    eapply for_task_inv with (w := after_log (task_log h) w'); [done|exact Hh| |exact Hn|by left|].
  1, 3: unfold drop_future; rewrite How; run_with Hs; reflexivity.
  all: split; [|done]; apply race_is_handover with (w := w'); try done; apply (ho_value _ _ _ Hok).
Qed.

Lemma no_wake_in_task_log h :
  existsb (λ e, match e with Woken _ => true | _ => false end) (task_log h) = false.
Proof. unfold task_log. by destruct (dropped_in_cell h). Qed.

(** A future that was woken finds the value of its own task. *)
Lemma woken_poll y h cx :
  handover_ok f y h → h_owner h = Waiting → was_woken h = true →
  (stage h = REnd ∨ stage h = RDone true)
  ∧ owner_poll (address h) cx (view (h_log h) y)
    = Done (Leaving (Taken (answer f h)),
        set_ext (<[address h := Received]> (y_futures y)) (view (h_log h) y)).
Proof.
  intros [Hv Hf Hl Hp Hc] How Ha. rewrite How in Hp.
  unfold was_woken in Ha. rewrite Hl, existsb_app, no_wake_in_task_log in Ha.
  unfold race_trace, race_of in Ha. simpl in Ha. rewrite How, app_nil_r in Ha.
  assert (received_value (answer f h) (stage h) = Some (answer f h)
    ∧ (stage h = REnd ∨ stage h = RDone true)) as [Hval Hst].
  { by destruct (stage h) as [| | | | |[]]; auto. }
  split; [done|]. unfold race_future, race_of in Hf. simpl in Hf. rewrite How, Hval in Hf.
  unfold owner_poll.
  run_with (poll_value (address h) _ (answer f h) cx (view (h_log h) y) Hf eq_refl). reflexivity.
Qed.

Lemma poll_task_inv y n cx :
  system_inv f y → allowed (Poll n cx) y = true →
  ∃ y', perform f (Poll n cx) y = Done ((), y') ∧ system_inv f y' ∧ touched y y'.
Proof.
  intros I Ha. rewrite allowed_poll in Ha. unfold about_task in Ha. destruct (y_handovers y !! n) as [h|] eqn:Hh; [|done].
  destruct (h_owner h) eqn:How; try done. pose proof (sy_handover _ _ I _ _ Hh) as Hok.
  destruct (woken_poll y h cx Hok How Ha) as [Hst Hpoll]. destruct Hok as [Hv Hf Hl Hp Hc].
  unfold perform; rewrite run_get.
  eapply for_task_inv; [done|exact Hh| |apply nearby_put|by right|].
  - unfold poll_future. run_with Hpoll. reflexivity.
  - split; [|done]. set (h' := mkHandover _ _ _ _). split; [exact Hv| | | |].
    + apply fin_maps.lookup_insert_eq.
    + etransitivity; [exact Hl|]. unfold race_trace, race_of, h'. simpl. by rewrite How.
    + change (stage h') with (stage h). by destruct Hst as [-> | ->].
    + change (owns _ h') with (owns y h). destruct (owns y h); [|exact Hc].
      etransitivity; [exact Hc|]. unfold race_flags, race_of, h'. simpl. by rewrite How.
Qed.
End task_moves.

(** * The moves of the owner thread and of the guards *)
Section queue_moves.
Context {C : QueueCfg} {HS : SafeCfg} {T V W D : Type} `{Deque W D}
  `{NeedsDrop T, NeedsDrop V} `{Inhabited W}.
Abbreviation system := (system T V W D).
Abbreviation handover := (handover T V W).
Abbreviation slots := (sys (option (ticket T W)) W D).
Implicit Types (y : system) (h k : handover) (s : slots).
Variable (f : T → V).

Abbreviation address h := (tk_addr (h_ticket h)).

(** The futures that change belong to no task in the queue. *)
Lemma futures_inv y fs :
  system_inv f y →
  (∀ n h, y_handovers y !! n = Some h → fs !! address h = y_futures y !! address h) →
  (∀ index tk, sys_pc (y_sys y) = Checked index (Some tk) →
     fs !! tk_addr tk = y_futures y !! tk_addr tk) →
  system_inv f (set_futures fs y).
Proof.
  intros I Hh Hc. split; try apply I.
  - pose proof (sy_owner _ _ I) as Ho. unfold owner_fits in *. simpl.
    destruct (sys_pc (y_sys y)) eqn:Hpc; try done. destruct Ho as (tk & -> & ? & Hf).
    exists tk. split; [done|]. split; [done|]. by rewrite <- Hf, (Hc index).
  - intros n h Hn. apply (handover_frame f y); [by eapply Hh|by left|done|by eapply sy_handover].
Qed.

Lemma spawn_inv y a t :
  system_inv f y → allowed (Spawn a t) y = true →
  ∃ y', perform f (Spawn a t) y = Done ((), y') ∧ system_inv f y' ∧ moved y y'.
Proof.
  unfold allowed, timely, possible. intros I Hfr. apply andb_prop in Hfr as [Hf%bool_decide_eq_true Hh%bool_decide_eq_true].
  exists (set_futures (<[a := Unbatched t]> (y_futures y)) y). split; [reflexivity|].
  split; [|by left]. apply futures_inv; [done|..].
  - intros n h Hn. apply fin_maps.lookup_insert_ne. intros He. by apply (Hh n h Hn).
  - intros index tk Hpc. apply fin_maps.lookup_insert_ne. intros ->.
    pose proof (sy_owner _ _ I) as Ho. unfold owner_fits in Ho. rewrite Hpc in Ho.
    destruct Ho as (tk' & [= <-] & _ & Hfut). rewrite Hfut in Hf. by destruct Hf.
Qed.

Lemma unbatched_future (a : addr) y :
  unbatched a y = true → ∃ t, y_futures y !! a = Some (Unbatched t).
Proof. unfold unbatched. destruct (_ !! a) as [[t| |]|]; eauto; done. Qed.

Lemma perform_abort y a t :
  y_futures y !! a = Some (Unbatched t) →
  perform f (Abort a) y = Done ((), set_futures (delete a (y_futures y)) y).
Proof.
  intros Ht. set (w := view [] y). assert (ext w !! a = Some (Unbatched t)) as Ha by done.
  assert (∃ tr, drop_batched_task 1 a w = Done ((), mkWorld (queue w) (delete a (ext w)) tr)) as [tr Hd].
  { unfold drop_batched_task. run_with (deref_run _ _ _ Ha). run_with (run_ret () w).
    unfold release_future. run_with (deref_run _ _ _ Ha). run. unfold drop_task.
    destruct needs_drop; by eexists. }
  unfold perform. rewrite run_get. erewrite run_bind; [reflexivity|].
  apply (on_view_run 0 a [] _ y () _ Hd).
  pose proof (nearby_gone 0 a w) as (buf & Hq & Hrest). by exists buf.
Qed.

Lemma abort_inv y a :
  system_inv f y → allowed (Abort a) y = true →
  ∃ y', perform f (Abort a) y = Done ((), y') ∧ system_inv f y' ∧ moved y y'.
Proof.
  change (allowed (Abort a) y) with (unbatched a y && negb (in_flight a y)).
  intros I [[t Ht]%unbatched_future Hfl]%andb_prop.
  eexists. split; [by eapply perform_abort|].
  split; [|by left]. apply (futures_inv y (delete a (y_futures y))); [done|..].
  - intros n h Hn. apply fin_maps.lookup_delete_ne. intros ->.
    exact (handover_not_unbatched f y h t (sy_handover _ _ I _ _ Hn) Ht).
  - intros index tk Hpc. apply fin_maps.lookup_delete_ne. intros ->. unfold in_flight in Hfl.
    by rewrite Hpc, Nat.eqb_refl in Hfl.
Qed.

(** A step of [Protocol] that leaves the cells and the history alone. *)
Lemma act_inv y a s' :
  system_inv f y → run_action a (y_sys y) = Some s' →
  buffer (inner (sys_queue s')) = buffer (inner (sys_queue (y_sys y))) →
  sys_history s' = sys_history (y_sys y) →
  (sys_pc s' = sys_pc (y_sys y)
   ∨ placed (sys_pc (y_sys y)) = 0%nat ∧ owner_fits y (sys_pc s')) →
  (∀ n h, y_handovers y !! n = Some h → settled h = false →
     covered (y_sys y) (Z.of_nat n) → covered s' (Z.of_nat n)) →
  act a y = Done ((), set_sys s' y) ∧ system_inv f (set_sys s' y) ∧ kept y (set_sys s' y).
Proof.
  intros I Hrun Hb Hh Hpc Hcov. split; [unfold act; by rewrite Hrun|]. split; [|split; [right; by exists a|by split]].
  assert (∀ h, owns (set_sys s' y) h = owns y h) as Howns
    by (intros h; unfold owns, cell_at; simpl; by rewrite Hb).
  split; simpl; rewrite ?Hh; try apply I.
  - eapply rtc_r; [apply (sy_reachable _ _ I)|]. by eapply run_action_sound.
  - intros n h Hn. destruct (sy_numbers _ _ I _ _ Hn) as [? Hlt]. split; [done|].
    destruct Hpc as [->|[Hz _]]; [done|]. rewrite Hz in Hlt. lia.
  - assert (owner_fits y (sys_pc s')) as Ho
      by (destruct Hpc as [->|[_ ?]]; [apply (sy_owner _ _ I)|done]).
    unfold owner_fits in *. simpl. by rewrite Hh.
  - intros n h Hn. apply (handover_frame f y); [done|by left|done|by eapply sy_handover].
  - intros n h Hn Hr Hlt. apply (Hcov n h); [done|done|]. by apply (sy_pending _ _ I n h).
Qed.

Lemma begin_poll_inv y a cx :
  system_inv f y → allowed (Begin a cx) y = true →
  ∃ y', perform f (Begin a cx) y = Done ((), y') ∧ system_inv f y' ∧ kept y y'.
Proof.
  destruct y as [[q pc gs h tr] cs fs hs]. unfold allowed, timely, possible, perform. rewrite run_get. simpl.
  intros I Ha. destruct pc; try done. apply unbatched_future in Ha as [t Ht]. simpl in Ht.
  rewrite Ht. set (y := mkSystem _ _ _ _) in *. set (tk := mkTicket (length h) t a cx).
  set (index := slot_index (sq_slot q)).
  destruct (check_write_index_total index q) as [[q' Hc]|[q' Hc]];
    destruct (check_write_index_frame _ _ _ _ Hc) as (Hi & _ & _).
  - eexists. apply (act_inv y _ (mkSys q' (Checked index (Some tk)) gs h tr)); simpl; try done.
    + by fold index; rewrite Hc.
    + by rewrite Hi.
    + right. split; [done|]. by exists tk.
  - eexists. apply (act_inv y _ (mkSys q' (Rejected cx) gs h tr)); simpl; try done.
    + by fold index; rewrite Hc.
    + by rewrite Hi.
    + by right.
Qed.

Lemma close_inv y id :
  system_inv f y → allowed (Close id) y = true →
  ∃ y', perform f (Close id) y = Done ((), y') ∧ system_inv f y' ∧ kept y y'.
Proof.
  destruct y as [[q pc gs h tr] cs fs hs]. unfold allowed, timely, possible, perform. rewrite run_get. simpl.
  intros I Ha. destruct (gs !! id) as [[base_slot start| |]|] eqn:Hid; try done.
  set (y := mkSystem _ _ _ _) in *. eexists.
  eapply (act_inv y);
    [exact I|simpl; unfold guard_action; simpl; rewrite Hid; reflexivity|done|done|by left|].
  simpl.
  intros n k _ _. by eapply covered_bound.
Qed.

Lemma next_inv y id :
  system_inv f y → allowed (Next id) y = true →
  ∃ y', perform f (Next id) y = Done ((), y') ∧ system_inv f y' ∧ kept y y'.
Proof.
  intros I (n & k & Hat & Hk & Hres)%about_current_task.
  destruct (at_task_owns f y id n I Hat) as (k' & rs & re & start & stop & Hk' & _ & Hid & Hlt & Hh).
  rewrite Hk in Hk'. injection Hk' as <-. destruct (system_ranges _ _ I) as [R E].
  assert (cell_at (y_sys y) (Z.of_nat n) = Some (Some (h_ticket k))) as Hcell.
  { rewrite (ex_contents _ E _ _ _ _ (Z.of_nat n) Hid eq_refl ltac:(lia)). unfold task_at.
    by rewrite Nat2Z.id. }
  unfold perform. rewrite run_get, Hat, Hh. simpl.
  destruct y as [[q pc gs h tr] cs fs hs]. simpl in *. set (y := mkSystem _ _ _ _) in *.
  set (i := Z.land (Z.of_nat n) (wrapping_sub usize_bits N 1)).
  assert (i = Z.of_nat n mod N) as Hi by apply land_N.
  assert (write_cell i (Some (h_ticket k)) q
    = Done ((), set_buffer (<[Z.to_nat i := Some (h_ticket k)]> (buffer (inner q))) q)) as Hw.
  { apply write_cell_run. pose proof (inv_length _ R) as Hl. simpl in Hl. rewrite Hl, Hi.
    pose proof (mod_N_bounds (Z.of_nat n)). lia. }
  eexists. apply (act_inv y _ (mkSys (set_buffer (<[Z.to_nat i := Some (h_ticket k)]> (buffer (inner q))) q)
    pc (<[id := Bounded rs re start stop (Z.of_nat n + 1)]> gs) h tr)); simpl; try done.
  - unfold guard_action. simpl. rewrite Hid. fold i. rewrite Hw.
    by rewrite (proj2 (Z.ltb_lt _ _) Hlt).
  - unfold cell_at in Hcell. simpl in Hcell. rewrite <- Hi in Hcell. by apply list_insert_id.
  - by left.
  - intros m k2 Hk2 Hr2. eapply covered_update; [done|exact Hid|].
    intros lo hi [= <- <-] Hm. do 2 eexists. split; [done|].
    assert (m ≠ n) by (intros ->; rewrite Hk in Hk2; congruence). lia.
Qed.

Lemma finish_inv y id :
  system_inv f y → allowed (Finish id) y = true →
  ∃ y', perform f (Finish id) y = Done ((), y') ∧ system_inv f y' ∧ kept y y'.
Proof.
  destruct y as [[q pc gs h tr] cs fs hs]. unfold allowed, timely, possible, perform. rewrite run_get. simpl.
  intros I Ha. destruct (gs !! id) as [[|rs re start stop current|]|] eqn:Hid; try done.
  apply Z.eqb_eq in Ha. set (y := mkSystem _ _ _ _) in *.
  eexists. eapply (act_inv y);
    [exact I|simpl; unfold guard_action; simpl; rewrite Hid; reflexivity|done|done|by left|].
  simpl. intros n k _ _ Hc. destruct (_ =? _); revert Hc.
  - eapply covered_update; [done|exact Hid|]. intros lo hi [= <- <-]. lia.
  - eapply covered_delete; [done|exact Hid|]. intros lo hi [= <- <-]. lia.
Qed.

Lemma wake_up_inv y id :
  system_inv f y → allowed (WakeUp id) y = true →
  ∃ y', perform f (WakeUp id) y = Done ((), y') ∧ system_inv f y' ∧ kept y y'.
Proof.
  intros I. destruct (system_ranges _ _ I) as [R _]. revert I R.
  destruct y as [[q pc gs h tr] cs fs hs]. unfold allowed, timely, possible, perform. rewrite run_get. simpl.
  intros I R Ha. destruct (gs !! id) as [[| |limit]|] eqn:Hid; try done.
  pose proof (inv_guards _ R _ _ Hid) as Hlim. simpl in Hlim. set (y := mkSystem _ _ _ _) in *.
  assert (∀ q' gs' tr', run_action (WakeNext id) (y_sys y) = Some (mkSys q' pc gs' h tr') →
    inner q' = inner q → sq_slot q' = sq_slot q →
    gs' = gs ∨ gs' = delete id gs ∨ (∃ l, gs' = <[id := Waking l]> gs) →
    ∃ y', act (WakeNext id) y = Done ((), y') ∧ system_inv f y' ∧ kept y y') as Hact.
  { intros q' gs' tr' Hrun Hi Hsl Hgs. eexists. apply (act_inv y _ _ I Hrun); simpl.
    - by rewrite Hi.
    - done.
    - by left.
    - intros n k _ _. destruct Hgs as [->|[->|[l ->]]].
      + apply covered_same; try done. unfold begun. simpl. by rewrite Hsl.
      + by eapply covered_delete.
      + by eapply covered_update. }
  simpl in Hact. unfold guard_action in Hact. simpl in Hact. rewrite Hid in Hact.
  destruct (Z.ltb_spec 0 limit).
  - destruct (stealer_steal (pending q)) as [[|wk|] d]; eapply Hact; eauto.
  - rewrite (proj2 (Z.eqb_eq limit 0)) in Hact by lia. eapply Hact; eauto.
Qed.

(** The counter moves past the task that was placed: from now on it is in the queue. *)
Lemma claim_inv q index c gs l tr cs fs hs :
  let y := mkSystem (mkSys q (Written index c) gs l tr) cs fs hs in
  let y' := mkSystem (mkSys (set_slot (wrapping_add usize_bits (slot (inner q))
                        (shl usize_bits 1 INDEX_SHIFT)) q)
                 (Claimed index (slot (inner q))) gs (l ++ [c]) tr) cs fs hs in
  system_inv f y → system_inv f y'.
Proof.
  intros y y' I. destruct (system_ranges _ _ I) as [R _]. simpl in R.
  destruct (sy_owner _ _ I) as (k0 & Hk0 & Hc). simpl in Hk0.
  split; try exact (sy_cells _ _ I); try exact (sy_addresses _ _ I).
  - eapply rtc_r; [apply (sy_reachable _ _ I)|]. by apply step_claim.
  - simpl. intros n c' [Hn|[Hlt Hn]]%lookup_app_Some; [by apply (sy_history _ _ I)|].
    apply list_lookup_singleton_Some in Hn as [Hn <-].
    exists k0. split; [|done]. replace n with (length l) by lia. done.
  - simpl. intros n k Hn. destruct (sy_numbers _ _ I n k Hn) as [? Hlt]. split; [done|].
    simpl in Hlt. rewrite length_app. simpl. lia.
  - done.
  - intros n k Hn. apply (handover_frame f y); [done|by left|done|by apply (sy_handover _ _ I n)].
  - simpl. intros n k Hn Hr Hlt. apply covered_claim; [done|]. rewrite length_app in Hlt. simpl in Hlt.
    destruct (decide (n = length l)) as [->|Hne]; [by right|left].
    apply (sy_pending _ _ I n k); [done..|simpl; lia].
Qed.

Lemma publish_inv y id :
  system_inv f y → allowed (Publish id) y = true →
  ∃ y', perform f (Publish id) y = Done ((), y') ∧ system_inv f y' ∧ kept y y'.
Proof.
  destruct y as [[q pc gs h tr] cs fs hs]. unfold allowed, timely, possible, perform. rewrite run_get. simpl.
  intros I Ha. set (y := mkSystem _ _ _ _) in *.
  destruct pc as [|i c|i c|index base_slot|index base_slot|wk]; try done;
    apply bool_decide_eq_true in Ha.
  - eexists. split; [reflexivity|]. split; [by apply claim_inv|].
    split; [right; by exists (Owner None inhabitant id)|by split].
  - eexists. eapply (act_inv y); [exact I|reflexivity|done|done| |].
    + right. split; [done|]. simpl. by destruct (_ =? _).
    + intros n k _ _. apply covered_replace.
  - apply eq_None_not_Some in Ha. eexists. eapply (act_inv y);
      [exact I|simpl; rewrite Ha; reflexivity|done|done|by right|].
    intros n k _ _. by apply covered_occupy.
  - eexists. eapply (act_inv y); [exact I|reflexivity|done|done|by right|].
    intros n k _ _. by apply covered_same.
Qed.

(** ** Placing a task *)
Lemma place_nearby i (t : T) a cx (w : world (TaskRef T) D (futures T V W) (event W (T + V) Z)) :
  nearby i a w (enqueued i t a cx w).
Proof.
  eexists. split; [done|]. split; [by rewrite length_insert|]. split.
  - intros j Hj. by apply list_lookup_insert_ne.
  - intros b Hb. by apply fin_maps.lookup_insert_ne.
Qed.

(** The owner only writes to cells whose tasks are settled. *)
Lemma write_settled y index tk n k :
  system_inv f y → sys_pc (y_sys y) = Checked index (Some tk) → y_handovers y !! n = Some k →
  (n < length (sys_history (y_sys y)))%nat
  ∧ (cell_of k = index → settled k = true)
  ∧ index = count (y_sys y) mod N.
Proof.
  intros I Hpc Hn. destruct (system_ranges _ _ I) as [R E].
  destruct (sy_numbers _ _ I _ _ Hn) as [Hnum Hlt]. rewrite Hpc in Hlt. simpl in Hlt.
  rewrite Nat.add_0_r in Hlt. split; [done|].
  destruct (inv_owner _ R) as (phase & _ & Hown). unfold owner_ok in Hown. rewrite Hpc in Hown.
  destruct Hown as [Hidx _]. split; [|done]. intros Hcell.
  destruct (settled k) eqn:Hr; [done|]. exfalso.
  pose proof (sy_pending _ _ I _ _ Hn Hr Hlt) as Hcov.
  pose proof (covered_window _ _ R E Hcov) as [Hw1 Hw2]. unfold room in Hw2. rewrite Hpc in Hw2.
  assert (Z.of_nat n = count (y_sys y)); [|lia]. pose proof N_ge_64.
  apply (mod_inj_window _ _ N); [lia|lia|lia|]. rewrite <- Hidx, <- Hcell. unfold cell_of. by rewrite Hnum.
Qed.

(** The ticket of a placed task takes the cell from the task that had it. *)
Lemma owns_placed y y' index tk n k :
  system_inv f y → sys_pc (y_sys y) = Checked index (Some tk) → y_handovers y !! n = Some k →
  buffer (inner (sys_queue (y_sys y')))
    = <[Z.to_nat index := Some tk]> (buffer (inner (sys_queue (y_sys y)))) →
  owns y' k = owns y k ∧ Z.to_nat (cell_of k) ≠ Z.to_nat index
  ∨ owns y' k = false ∧ settled k = true.
Proof.
  intros I Hpc Hn Hb. destruct (write_settled y index tk n k I Hpc Hn) as (Hlt & Hres & Hidx).
  destruct (system_ranges _ _ I) as [R _]. pose proof (mod_N_bounds (count (y_sys y))).
  destruct (sy_numbers _ _ I _ _ Hn) as [Hnum _]. pose proof (cell_of_pos k).
  pose proof (sy_owner _ _ I) as Ho. unfold owner_fits in Ho. rewrite Hpc in Ho.
  destruct Ho as (tk' & [= <-] & Htk & _).
  assert (Z.to_nat (Z.of_nat (tk_number (h_ticket k)) mod N) = Z.to_nat (cell_of k)) as Hcell by done.
  destruct (decide (cell_of k = index)) as [He|Hne]; [right; split; [|by apply Hres]|left].
  - unfold owns, cell_at. rewrite Hb, Hcell, He, list_lookup_insert_eq.
    + apply Nat.eqb_neq. rewrite Hnum, Htk. lia.
    + rewrite (inv_length _ R), Hidx. lia.
  - assert (Z.to_nat (cell_of k) ≠ Z.to_nat index) as Hne' by lia. split; [|done].
    unfold owns, cell_at. by rewrite Hb, Hcell, list_lookup_insert_ne.
Qed.

(** The system after the owner placed the task of [tk]. *)
Definition placed_task index (tk : ticket T W) y : system :=
  let w := enqueued index (tk_task tk) (tk_addr tk) (tk_waker tk) (view [] y) in
  let s := y_sys y in
  set_handover (tk_number tk) (mkHandover tk Untouched Waiting [])
    (mkSystem
      (mkSys (set_buffer (<[Z.to_nat index := Some tk]> (buffer (inner (sys_queue s)))) (sys_queue s))
         (Written index (Some tk)) (sys_guards s) (sys_history s) (sys_trace s))
      (cells w) (ext w) (y_handovers y)).

(** What the invariant says of the owner about to place a task. *)
Lemma checked_facts y index c :
  system_inv f y → sys_pc (y_sys y) = Checked index c →
  ∃ tk, c = Some tk ∧ tk_number tk = length (sys_history (y_sys y))
    ∧ y_futures y !! tk_addr tk = Some (Unbatched (tk_task tk))
    ∧ index = count (y_sys y) mod N ∧ 0 ≤ index < N
    ∧ length (buffer (inner (sys_queue (y_sys y)))) = Z.to_nat N.
Proof.
  intros I Hpc. destruct (system_ranges _ _ I) as [R _].
  pose proof (sy_owner _ _ I) as Ho. unfold owner_fits in Ho. rewrite Hpc in Ho.
  destruct Ho as (tk & -> & Htk & Hfut). exists tk.
  destruct (inv_owner _ R) as (phase & _ & Hown). unfold owner_ok in Hown. rewrite Hpc in Hown.
  destruct Hown as [Hidx _]. do 4 (split; [done|]). split; [rewrite Hidx; apply mod_N_bounds|].
  apply (inv_length _ R).
Qed.

Lemma perform_place y index tk :
  system_inv f y → sys_pc (y_sys y) = Checked index (Some tk) →
  perform f Place y = Done ((), placed_task index tk y).
Proof.
  intros I Hpc.
  destruct (checked_facts _ _ _ I Hpc) as (? & [= <-] & _ & Hfut & _ & Hb & Hlen').
  pose proof (sy_cells _ _ I) as Hlen.
  destruct (lookup_lt_is_Some_2 (y_cells y) (Z.to_nat index)) as [c Hc]; [lia|].
  assert (place (tk_addr tk) (tk_waker tk) index (view [] y) = Done ((), _)) as Hp
    by (eapply place_run; [lia|exact Hc|exact Hfut]).
  unfold perform. rewrite run_get, Hpc.
  run_with (on_view_run index (tk_addr tk) [] _ y () _ Hp (place_nearby _ _ _ _ _)).
  unfold placed_task. destruct y as [[q pc gs l tr] cs fs hs]. simpl in *. subst pc.
  erewrite run_bind; [reflexivity|]. unfold act. simpl. rewrite write_cell_run by lia. done.
Qed.

Lemma placed_others y index tk n k :
  system_inv f y → sys_pc (y_sys y) = Checked index (Some tk) → y_handovers y !! n = Some k →
  address k ≠ tk_addr tk ∧ n ≠ tk_number tk ∧ handover_ok f (placed_task index tk y) k.
Proof.
  intros I Hpc Hn. pose proof (sy_handover _ _ I _ _ Hn) as Hok.
  destruct (checked_facts _ _ _ I Hpc) as (? & [= <-] & Htk & Hfut & _).
  assert (address k ≠ tk_addr tk) as Hne.
  { intros He. apply (handover_not_unbatched f y k (tk_task tk) Hok). by rewrite He. }
  destruct (write_settled y index tk n k I Hpc Hn) as (Hlt & _). split; [done|]. split; [lia|].
  pose proof (owns_placed y (placed_task index tk y) index tk n k I Hpc Hn eq_refl) as Howns.
  apply (handover_frame f y); [by apply fin_maps.lookup_insert_ne| | |done].
  - destruct Howns as [[? _]|?]; auto.
  - intros Ho. apply list_lookup_insert_ne. destruct Howns as [[_ ?]|[? _]]; congruence.
Qed.

Lemma placed_new y index tk :
  system_inv f y → sys_pc (y_sys y) = Checked index (Some tk) →
  handover_ok f (placed_task index tk y) (mkHandover tk Untouched Waiting []).
Proof.
  intros I Hpc. destruct (checked_facts _ _ _ I Hpc) as (? & [= <-] & Htk & _ & Hidx & Hb & Hlen').
  pose proof (sy_cells _ _ I) as Hlen. set (k := mkHandover tk Untouched Waiting [] : handover).
  assert (cell_of k = index) as Hcell by (rewrite Hidx; unfold cell_of; simpl; by rewrite Htk).
  split; [done| |done|done|].
  - rewrite Hcell. apply fin_maps.lookup_insert_eq.
  - assert (owns (placed_task index tk y) k = true) as ->.
    { unfold owns, cell_at. change (Z.of_nat _ mod N) with (cell_of k). rewrite Hcell. simpl.
      rewrite list_lookup_insert_eq by lia. apply Nat.eqb_refl. }
    rewrite Hcell. apply list_lookup_insert_eq. simpl. lia.
Qed.

Lemma placed_task_inv y index tk :
  system_inv f y → sys_pc (y_sys y) = Checked index (Some tk) →
  system_inv f (placed_task index tk y).
Proof.
  intros I Hpc. pose proof (placed_others y index tk) as Hold.
  destruct (checked_facts _ _ _ I Hpc) as (? & [= <-] & Htk & Hfut & _ & Hb & Hlen').
  set (k := mkHandover tk Untouched Waiting [] : handover).
  split; simpl; fold k.
  - eapply rtc_r; [apply (sy_reachable _ _ I)|]. destruct (y_sys y) as [q pc gs l tr].
    simpl in *. subst pc. apply step_write, write_cell_run. lia.
  - rewrite length_insert. apply (sy_cells _ _ I).
  - intros n c Hn. destruct (sy_history _ _ I _ _ Hn) as (k0 & Hk0 & ->). exists k0.
    split; [|done]. apply lookup_insert_Some. right. split; [|done]. by apply not_eq_sym, (Hold n k0).
  - intros n k0 [[<- <-]|[_ Hn]]%(lookup_insert_Some (y_handovers y)); [simpl; lia|].
    destruct (sy_numbers _ _ I _ _ Hn) as [? Hlt]. rewrite Hpc in Hlt. simpl in Hlt. lia.
  - exists k. rewrite <- Htk. split; [apply lookup_insert_eq|done].
  - intros n1 n2 k1 k2 [[<- <-]|[_ Hn1]]%(lookup_insert_Some (y_handovers y))
      [[<- <-]|[_ Hn2]]%(lookup_insert_Some (y_handovers y)) He; [done|..].
    + by destruct (Hold _ _ I Hpc Hn2) as [[] _].
    + by destruct (Hold _ _ I Hpc Hn1) as [[] _].
    + by apply (sy_addresses _ _ I n1 n2 k1 k2).
  - intros n k0 [[<- <-]|[_ Hn]]%(lookup_insert_Some (y_handovers y)); [by apply placed_new|].
    by apply (Hold n).
  - intros n k0 [[<- <-]|[_ Hn]]%(lookup_insert_Some (y_handovers y)) Hr Hlt; [simpl in *; lia|].
    pose proof (sy_pending _ _ I n k0 Hn Hr Hlt) as Hcov. revert Hcov.
    apply covered_same; try done. unfold begun. simpl. by rewrite Hpc.
Qed.

Lemma place_inv y :
  system_inv f y → allowed Place y = true →
  ∃ y', perform f Place y = Done ((), y') ∧ system_inv f y' ∧ moved y y'.
Proof.
  intros I Ha. unfold allowed, timely, possible in Ha. destruct (sys_pc (y_sys y)) as [|index c| | | |] eqn:Hpc; try done.
  destruct (checked_facts _ _ _ I Hpc) as (tk & -> & _).
  exists (placed_task index tk y). split; [by apply perform_place|]. split; [by apply placed_task_inv|].
  destruct (checked_facts _ _ _ I Hpc) as (_ & _ & _ & _ & _ & Hb & Hlen).
  right. exists (Owner None inhabitant 0). destruct y as [[q pc gs l tr] cs fs hs]. simpl in *. subst pc.
  rewrite write_cell_run by lia. done.
Qed.

(** The moves by which a task comes, or goes before it is in the queue. *)
Definition entering (m : move T V W) : bool :=
  match m with Spawn _ _ | Abort _ | Place => true | _ => false end.

(** The moves for one task that is in the queue. *)
Definition touching (m : move T V W) : bool :=
  match m with Treat _ _ | Resolve _ | Drop _ | Poll _ _ => true | _ => false end.

Lemma perform_touches m y :
  system_inv f y → allowed m y = true → touching m = true →
  ∃ y', perform f m y = Done ((), y') ∧ system_inv f y' ∧ touched y y'.
Proof.
  intros I Ha Hm. revert I Ha. destruct m; try done;
    [apply treat_task_inv|apply resolve_task_inv|apply drop_task_inv|apply poll_task_inv].
Qed.

Lemma perform_keeps m y :
  system_inv f y → allowed m y = true → entering m = false →
  ∃ y', perform f m y = Done ((), y') ∧ system_inv f y' ∧ kept y y'.
Proof.
  intros I Ha Hm. destruct (touching m) eqn:Ht.
  { destruct (perform_touches m y I Ha Ht) as (y' & Hp & I' & Hk%touched_kept). eauto. }
  revert I Ha. destruct m; try done;
    [apply begin_poll_inv|apply publish_inv|apply close_inv|apply next_inv|apply finish_inv
    |apply wake_up_inv].
Qed.

(** Every move the program comes to returns, and keeps the invariant. *)
Lemma perform_moves m y :
  system_inv f y → allowed m y = true →
  ∃ y', perform f m y = Done ((), y') ∧ system_inv f y' ∧ moved y y'.
Proof.
  intros I Ha. destruct (entering m) eqn:Hm.
  - revert I Ha. destruct m; try done; [apply spawn_inv|apply abort_inv|apply place_inv].
  - destruct (perform_keeps m y I Ha Hm) as (y' & Hp & I' & Hk & _). eauto.
Qed.

Lemma perform_inv m y :
  system_inv f y → allowed m y = true → ∃ y', perform f m y = Done ((), y') ∧ system_inv f y'.
Proof. intros I Ha. destruct (perform_moves m y I Ha) as (y' & Hp & I' & _). eauto. Qed.

Lemma system_inv_reachable y : system_reachable f y → system_inv f y.
Proof.
  intros Hr. eapply (rtc_invariant _ (system_inv f)); [|apply system_inv_start|exact Hr].
  intros y1 y2 (m & Ha & Hp) I. destruct (perform_inv m y1 I Ha) as (y2' & Hp' & I').
  rewrite Hp in Hp'. by injection Hp' as ->.
Qed.
End queue_moves.
