(* ===== verification/Whole.v ===== *)
(** What the whole [TaskQueue] guarantees, whatever the interleaving of the owner, the
    guards and the futures, and how the moves of [System] make up [poll] and the loops of the
    assignments. *)
From S2P Require Import Prelude Usize Helpers Deque Queue Protocol Schedule Exclusion Safety.
From S2P Require Import Ranges TaskRef Assignment Resolution Delivery Handover System Composition.
Local Open Scope Z_scope.

Section guarantees.
Context {C : QueueCfg} {HS : SafeCfg} {T V W D : Type} `{Deque W D}
  `{NeedsDrop T, NeedsDrop V} `{Inhabited W}.
Abbreviation system := (system T V W D).
Abbreviation handover := (handover T V W).
Implicit Types (y : system) (h k : handover).
Variable (f : T → V).

(** A poll while the future has no value yet reads one that is not there. *)
Lemma valueless_poll y n h r cx :
  y_handovers y !! n = Some h → y_futures y !! tk_addr (h_ticket h) = Some (Batched r) →
  value r = None → perform f (Poll n cx) y = Undef uninit_read.
Proof.
  intros Hn Hf Hv. unfold perform. rewrite run_get. unfold for_task. rewrite run_get, Hn.
  assert (owner_poll (tk_addr (h_ticket h)) cx (view (h_log h) y) = Undef uninit_read) as Hp.
  { unfold owner_poll, poll, mbind, M_bind.
    rewrite (deref_run (tk_addr (h_ticket h)) (Batched r) (view (h_log h) y) Hf).
    rewrite (replace_future_run _ Received _ _ (Hf : ext (view (h_log h) y) !! _ = _)). simpl.
    by rewrite Hv. }
  unfold mbind at 1, M_bind at 1, on_view, poll_future, mbind, M_bind. by rewrite Hp.
Qed.

(** C6. Whichever thread moves next, wherever its code allows: if the move is timely, its
    access is defined, no cell and no receiver is read that is not there and no value is taken
    twice. There are two kinds of moves that are not timely, and the code prevents neither: a
    destructor that comes after the cell of its task, which is settled, was given to a later
    task ([Delivery.stale_receivers_reach_undefined] shows what becomes of it), and a poll
    after the first one and before the wake-up, which is undefined at once as long as the
    value is not written. The runs considered make only timely moves before. *)
Theorem timely_moves_are_defined m y :
  system_reachable f y → possible m y = true →
  (timely m y = true → ∃ y', perform f m y = Done ((), y'))
  ∧ (timely m y = false → ∃ n h, y_handovers y !! n = Some h
       ∧ ((m = Drop n ∧ owns y h = false ∧ settled h = true)
          ∨ ∃ cx, m = Poll n cx ∧ h_owner h = Waiting ∧ was_woken h = false
              ∧ ∀ r, y_futures y !! tk_addr (h_ticket h) = Some (Batched r) → value r = None →
                  perform f m y = Undef uninit_read)).
Proof.
  intros I%system_inv_reachable Hp. split; intros Ht.
  - assert (allowed m y = true) as Ha by (unfold allowed; by rewrite Ht).
    destruct (perform_inv f m y I Ha) as (y' & Hy & _). eauto.
  - destruct m as [| | | | | | | | | | |n|n cx]; try done; simpl in Hp, Ht;
      unfold about_task in Hp, Ht; destruct (y_handovers y !! n) as [h|] eqn:Hn; try done;
      exists n, h; (split; [done|]).
    + left. assert (owns y h = false) as Ho by (by destruct (h_owner h)).
      split; [done|]. split; [done|].
      pose proof (ho_cell _ _ _ (sy_handover _ _ I _ _ Hn)) as Hc. by rewrite Ho in Hc.
    + right. exists cx. split; [done|]. destruct (h_owner h) eqn:How; try done.
      do 2 (split; [done|]). intros r Hr Hv. by eapply valueless_poll.
Qed.

(** What was decided about a task, once it was treated. *)
Definition decision h : progress V :=
  match h_progress h with Resolving mapped v _ => Resolving mapped v RStart | p => p end.

Lemma for_task_done n m y y' :
  for_task n m y = Done ((), y') →
  ∃ h pr opc w, y_handovers y !! n = Some h ∧ m h (view (h_log h) y) = Done ((pr, opc), w)
    ∧ y' = set_handover n (mkHandover (h_ticket h) pr opc (trace w)) (put_back w y).
Proof.
  unfold for_task. rewrite run_get. destruct (y_handovers y !! n) as [h|] eqn:Hn; [|done].
  intros Hr. inv_run Hr. unfold on_view in Hrun.
  destruct (m h (view (h_log h) y)) as [[[pr opc] w]| |] eqn:Hm; [|done..].
  injection Hrun as <- <-. injection Hr as <-. by exists h, pr, opc, w.
Qed.

(** An access for one task that keeps or makes its decision. *)
Lemma for_task_decides (P : nat → handover → handover → Prop) j m y y' n h :
  for_task j m y = Done ((), y') → y_handovers y !! n = Some h →
  (∀ h, P n h h) →
  (j = n → ∀ pr opc w, m h (view (h_log h) y) = Done ((pr, opc), w) →
     P n h (mkHandover (h_ticket h) pr opc (trace w))) →
  ∃ h', y_handovers y' !! n = Some h' ∧ h_ticket h' = h_ticket h ∧ P n h h'.
Proof.
  intros (h1 & pr & opc & w & Hh1 & Hm & ->)%for_task_done Hh Hrefl Hp. simpl.
  destruct (decide (j = n)) as [->|Hne].
  - rewrite Hh in Hh1. injection Hh1 as <-. eexists. split; [apply lookup_insert_eq|]. eauto.
  - exists h. split; [by apply lookup_insert_Some; right|]. auto.
Qed.

Lemma act_handovers a y y' : act a y = Done ((), y') → y_handovers y' = y_handovers y.
Proof. unfold act. destruct (run_action a (y_sys y)); [|done]. by intros [= <-]. Qed.

(** What move [m] may do to the decision about task [n]. *)
Definition decides (m : move T V W) y (n : nat) h h' : Prop :=
  (settled h = true → settled h' = true)
  ∧ (decision h' = decision h
     ∨ h_progress h = Untouched ∧ ∃ id how, m = Treat id how ∧ at_task id y = Some n
         ∧ decision h' = treated f how h).

Lemma decides_same m y n h h' : h_progress h' = h_progress h → decides m y n h h'.
Proof. intros He. unfold decides, settled, resolved, decision. rewrite He. auto. Qed.

Lemma perform_decides m y y' n h :
  system_inv f y → allowed m y = true → perform f m y = Done ((), y') →
  y_handovers y !! n = Some h →
  ∃ h', y_handovers y' !! n = Some h' ∧ h_ticket h' = h_ticket h ∧ decides m y n h h'.
Proof.
  intros I Ha Hp Hh.
  assert (y_handovers y' = y_handovers y →
    ∃ h', y_handovers y' !! n = Some h' ∧ h_ticket h' = h_ticket h ∧ decides m y n h h') as Hsame.
  { intros ->. exists h. split; [done|]. split; [done|by apply decides_same]. }
  assert (∀ k, decides m y n k k) as Hrefl by (intros k; by apply decides_same).
  unfold perform in Hp. rewrite run_get in Hp. destruct m as [a t|a|a cx| |id|id|id how|id|id|id|id|j|j cx].
  - apply Hsame. by injection Hp as <-.
  - apply Hsame. inv_run Hp. injection Hp as <-. unfold on_view in Hrun.
    destruct (drop_batched_task 1 a (view [] y)) as [[? w]| |]; [|done..]. by injection Hrun as _ <-.
  - apply Hsame. destruct (y_futures y !! a) as [[]|]; try done. by apply act_handovers in Hp.
  - simpl in Ha. destruct (sys_pc (y_sys y)) as [|index c| | | |] eqn:Hpc; try done.
    destruct (checked_facts _ _ _ _ I Hpc) as (tk & -> & _).
    pose proof (perform_place f y index tk I Hpc) as Hpl. unfold perform in Hpl.
    rewrite run_get, Hpc, Hp in Hpl. injection Hpl as ->.
    destruct (placed_others f y index tk n h I Hpc Hh) as (_ & Hne & _).
    exists h. split; [by apply lookup_insert_Some; right|]. split; [done|by apply decides_same].
  - apply Hsame. by apply act_handovers in Hp.
  - apply Hsame. by apply act_handovers in Hp.
  - unfold for_current in Hp. rewrite run_get in Hp. destruct (at_task id y) as [j|] eqn:Hat; [|done].
    apply (for_task_decides (decides (Treat id how) y) _ _ _ _ _ _ Hp Hh Hrefl). intros -> pr opc w Hm.
    simpl in Ha. unfold about_current, about_task in Ha. rewrite Hat, Hh in Ha.
    destruct (h_progress h) eqn:Hr; try done. split; [unfold settled, resolved; by rewrite Hr|].
    right. split; [done|]. exists id, how.
    split; [done|]. split; [done|].
    destruct (at_task_owns f y id n I Hat) as (h1 & ? & ? & ? & ? & Hh1 & Ho & _).
    rewrite Hh in Hh1. injection Hh1 as <-.
    destruct (treat_task_run f how y h (sy_handover _ _ I _ _ Hh) Ho Hr) as [Hrun _].
    rewrite Hm in Hrun. injection Hrun as -> _ _. by destruct how.
  - unfold for_current in Hp. rewrite run_get in Hp. destruct (at_task id y) as [j|] eqn:Hat; [|done].
    apply (for_task_decides (decides (Resolve id) y) _ _ _ _ _ _ Hp Hh Hrefl). intros -> pr opc w Hm.
    simpl in Ha. unfold about_current, about_task in Ha. rewrite Hat, Hh in Ha.
    unfold decides, settled, resolve_task, decision in *. destruct (h_progress h) eqn:Hr; try done.
    inv_run Hm. injection Hm as <- <- <-. split; [|by left].
    intros Hs. unfold resolved in Ha, Hs. rewrite Hr in Ha, Hs. by destruct pc as [| | | | |[]].
  - apply Hsame. destruct (at_task id y); [|done]. by apply act_handovers in Hp.
  - apply Hsame. by apply act_handovers in Hp.
  - apply Hsame. by apply act_handovers in Hp.
  - apply (for_task_decides (decides (Drop j) y) _ _ _ _ _ _ Hp Hh Hrefl). intros -> pr opc w Hm.
    apply decides_same. unfold drop_future in Hm. inv_run Hm. by injection Hm as <- <- <-.
  - apply (for_task_decides (decides (Poll j cx) y) _ _ _ _ _ _ Hp Hh Hrefl). intros -> pr opc w Hm.
    apply decides_same. unfold poll_future in Hm. inv_run Hm. by injection Hm as <- <- <-.
Qed.

Lemma decision_kept y y' n h :
  system_inv f y → y_handovers y !! n = Some h → h_progress h ≠ Untouched →
  rtc (system_step f) y y' →
  ∃ h', y_handovers y' !! n = Some h' ∧ h_ticket h' = h_ticket h ∧ decision h' = decision h.
Proof.
  intros I Hh Hne Hrun. revert h I Hh Hne.
  induction Hrun as [y|y y1 y2 (m & Ha & Hp) Hrun IH]; intros h I Hh Hne; [by exists h|].
  destruct (perform_inv f m y I Ha) as (y1' & Hp' & I1). rewrite Hp in Hp'. injection Hp' as <-.
  destruct (perform_decides m y y1 n h I Ha Hp Hh) as (h1 & Hh1 & Ht1 & _ & [Hd1|[? _]]); [|done].
  destruct (IH h1 I1 Hh1) as (h2 & Hh2 & Ht2 & Hd2).
  - intros Hu. unfold decision in Hd1. rewrite Hu in Hd1. by destruct (h_progress h).
  - exists h2. split; [done|]. split; congruence.
Qed.

(** The log of a task whose future is leaving or gone. *)
Lemma fate_in_log y h fate :
  handover_ok f y h → h_owner h = Leaving fate ∨ h_owner h = Gone fate →
  let tk := h_ticket h in
  match fate with
  | Taken v => (∃ mapped, decision h = Resolving mapped v RStart)
      ∧ h_log h = task_log h ++ [Woken (tk_waker tk)]
  | Discarded value_set => resolved h = true →
      ∃ mapped v, decision h = Resolving mapped v RStart
      ∧ h_log h = task_log h ++
        (if value_set
         then Woken (tk_waker tk) :: (if needs_drop (T := T) then dropped_values [v] else [])
         else dropped_values [v])
  end.
Proof.
  intros [_ _ Hl Hp _] How tk. rewrite Hl. unfold race_trace, race_of, resolved, decision, stage, answer in *.
  simpl in *.
  destruct How as [How|How]; rewrite How in *;
    destruct (h_progress h) as [|b v' [| | | | |[]]|], fate as [v1|[]]; try done; simpl in *;
    rewrite ?app_nil_r; subst; eauto.
Qed.

(** C7. A future only ever gets the value that was decided on for its own task, once and for all: the
    value [map] computes from that task or the one [resolve_with_iter] has for it. The poll
    that follows the wake-up returns it and its waker was woken exactly once. When the future
    was dropped instead, its destructor coming before its cell was reused, then either the
    resolver saw it and dropped the value, or the value had been set: then the destructor
    dropped it if the tasks have a destructor and leaked it otherwise ([task.rs:416] asks
    [needs_drop] of the wrong type). *)
Theorem results_reach_their_futures y n h :
  system_reachable f y → y_handovers y !! n = Some h →
  let tk := h_ticket h in
  (∀ v pc, h_progress h = Resolving true v pc → v = f (tk_task tk))
  ∧ (h_progress h ≠ Untouched → ∀ y', rtc (system_step f) y y' →
      ∃ h', y_handovers y' !! n = Some h' ∧ h_ticket h' = tk ∧ decision h' = decision h)
  ∧ match h_owner h with
    | Waiting => was_woken h = true → ∃ mapped v, decision h = Resolving mapped v RStart
        ∧ ∀ cx, ∃ y' h', perform f (Poll n cx) y = Done ((), y') ∧ y_handovers y' !! n = Some h'
            ∧ h_owner h' = Leaving (Taken v)
    | Spinning _ => True
    | Leaving (Taken v) | Gone (Taken v) =>
        (∃ mapped, decision h = Resolving mapped v RStart)
        ∧ h_log h = task_log h ++ [Woken (tk_waker tk)]
    | Leaving (Discarded value_set) | Gone (Discarded value_set) => resolved h = true →
        ∃ mapped v, decision h = Resolving mapped v RStart
        ∧ h_log h = task_log h ++
          (if value_set
           then Woken (tk_waker tk) :: (if needs_drop (T := T) then dropped_values [v] else [])
           else dropped_values [v])
    end.
Proof.
  intros I%system_inv_reachable Hh tk. pose proof (sy_handover _ _ I _ _ Hh) as Hok.
  split; [|split].
  - intros v pc Hr. pose proof (ho_value _ _ _ Hok) as Hv. unfold mapped, answer in Hv.
    rewrite Hr in Hv. by apply Hv.
  - intros Hne y' Hrun. by eapply decision_kept.
  - destruct (h_owner h) as [|st|fate|fate] eqn:How; [|done|..].
    + intros Hw. destruct (woken_poll f y h inhabitant Hok How Hw) as [Hst _].
      assert (∃ mapped, decision h = Resolving mapped (answer f h) RStart) as [b Hb].
      { unfold stage, decision, answer in *. destruct (h_progress h); [by destruct Hst..| |by destruct Hst].
        eauto. }
      exists b, (answer f h). split; [done|]. intros cx.
      destruct (woken_poll f y h cx Hok How Hw) as [_ Hpoll].
      exists (after_task n h (h_progress h) (Leaving (Taken (answer f h)))
        (set_ext (<[tk_addr tk := Received]> (y_futures y)) (view (h_log h) y)) y). eexists.
      split; [|split; [apply lookup_insert_eq|done]]. unfold perform. rewrite run_get.
      apply (for_task_run (cell_of h) (tk_addr tk)); [done| |apply nearby_put].
      unfold poll_future. by run_with Hpoll.
    + apply (fate_in_log y h fate Hok); auto.
    + apply (fate_in_log y h fate Hok); auto.
Qed.

(** C8. Every task that entered the queue is either settled - its future was woken, or was
    gone and the value dropped, or the guard left it without a value, and then it was
    dropped unless the iterator had come to its end and nobody was woken - or still in its
    own cell, in a batch that some guard has to take it from or that is being begun. *)
Theorem no_task_forgotten y n tk :
  system_reachable f y → sys_history (y_sys y) !! n = Some (Some tk) →
  ∃ h, y_handovers y !! n = Some h ∧ h_ticket h = tk ∧
    match h_progress h with
    | Resolving _ v (RDone _) => was_woken h = true ∨ h_log h = task_log h ++ dropped_values [v]
    | GivenUp dropped =>
        h_log h = if dropped && needs_drop (T := T) then [Dropped (inl (tk_task tk))] else []
    | _ => covered (y_sys y) (Z.of_nat n)
        ∧ ∃ flags, y_cells y !! Z.to_nat (Z.of_nat n mod N)
            = Some (mkTaskRef flags (Some (tk_addr tk)) (left_over h))
    end.
Proof.
  intros I%system_inv_reachable Hn. pose proof (lookup_lt_Some _ _ _ Hn) as Hlt.
  destruct (sy_history _ _ I _ _ Hn) as (h & Hh & [= ->]). exists h. do 2 (split; [done|]).
  pose proof (sy_handover _ _ I _ _ Hh) as Hok.
  assert (settled h = false → covered (y_sys y) (Z.of_nat n)
    ∧ ∃ flags, y_cells y !! Z.to_nat (Z.of_nat n mod N)
        = Some (mkTaskRef flags (Some (tk_addr (h_ticket h))) (left_over h))) as Hopen.
  { intros Hs. split; [by apply (sy_pending _ _ I n h)|].
    pose proof (ho_cell _ _ _ Hok) as Hc. destruct (owns y h); [|congruence].
    eexists. destruct (sy_numbers _ _ I _ _ Hh) as [<- _]. exact Hc. }
  destruct Hok as [_ _ Hl Hp _]. unfold settled, resolved in Hopen. unfold was_woken. rewrite Hl.
  unfold race_trace, race_of, stage, task_log, dropped_in_cell, answer in *. simpl in *.
  destruct (h_progress h) as [|b v [| | | | |[]]|b]; try by apply Hopen.
  - left. rewrite !existsb_app. simpl. by rewrite orb_true_r.
  - right. f_equal. destruct (h_owner h) as [| |[|[]]|[|[]]]; try done; apply app_nil_r.
  - simpl in *. destruct (h_owner h) as [| |[|[]]|[|[]]]; try done; simpl; by rewrite app_nil_r; destruct (_ && _).
Qed.

(** ** A guard that runs by itself *)

(** The moves of guard [id], which treats task [n] as [choice n] says. *)
Definition guard_moves (choice : nat → treatment V) (id : nat) (m : move T V W) : Prop :=
  m = Resolve id ∨ m = Next id ∨ ∃ n, m = Treat id (choice n).

Definition rank (pc : resolver_pc) : nat :=
  match pc with
  | RStart => 1
  | RWrite | RDropValue => 2
  | RWake => 3
  | REnd => 4
  | RDone _ => 5
  end.

(** What is done for a task, out of the six moves it may take. *)
Definition done_so_far (p : progress V) : nat :=
  match p with Untouched => 0 | Resolving _ _ pc => rank pc | GivenUp _ => 5 end.
Definition done_for h : nat := done_so_far (h_progress h).

Definition work_left id y : nat :=
  match sys_guards (y_sys y) !! id with
  | Some (Bounded _ _ _ stop current) =>
      (6 * Z.to_nat (stop - current)%Z
       - (if (current <? stop)%Z
          then match y_handovers y !! Z.to_nat current with Some h => done_for h | None => 0 end
          else 0))%nat
  | _ => 0%nat
  end.

Lemma rank_le pc : (rank pc ≤ 5)%nat.
Proof. destruct pc; simpl; lia. Qed.

Lemma done_le p : (done_so_far p ≤ 5)%nat.
Proof. destruct p as [|b v pc|]; simpl; [lia|apply rank_le|lia]. Qed.

Lemma resolver_step_rank i v pc pc' (w w' : world (TaskRef T) D (futures T V W) (event W (T + V) Z)) :
  resolver_step i v pc w = Done (pc', w') → (∀ d, pc ≠ RDone d) → (rank pc < rank pc')%nat.
Proof.
  intros Hs Hd. destruct pc; simpl in Hs; try (inv_run Hs; injection Hs as <- <-; simpl; try lia).
  - destruct (_ =? _); simpl; lia.
  - by destruct (Hd delivered).
Qed.

(** A move for the current task that brings it forward brings the guard forward. *)
Lemma task_move_work id n m y y' rs re start stop h :
  sys_guards (y_sys y) !! id = Some (Bounded rs re start stop (Z.of_nat n)) →
  Z.of_nat n < stop → y_handovers y !! n = Some h →
  for_task n m y = Done ((), y') →
  (∀ pr opc w, m h (view (h_log h) y) = Done ((pr, opc), w) →
     (done_for h < done_so_far pr)%nat) →
  sys_guards (y_sys y') = sys_guards (y_sys y) ∧ (work_left id y' < work_left id y)%nat.
Proof.
  intros Hid Hlt Hh (h1 & r & opc & w & Hh1 & Hm & ->)%for_task_done Hrank.
  rewrite Hh in Hh1. injection Hh1 as <-. specialize (Hrank _ _ _ Hm). split; [done|].
  unfold work_left. simpl. rewrite Hid, (proj2 (Z.ltb_lt _ _) Hlt), Nat2Z.id, Hh.
  rewrite lookup_insert_eq. unfold done_for at 1. simpl. pose proof (done_le r).
  assert (0 < Z.to_nat (stop - Z.of_nat n))%nat by lia. lia.
Qed.

Definition chosen (choice : nat → treatment V) (m : move T V W) y : Prop :=
  match m with Treat id how => ∀ n, at_task id y = Some n → how = choice n | _ => True end.

(** One move of the guard, from [y] to [y'], in its batch. *)
Definition guard_advances choice id rs re start stop y : Prop :=
  ∃ m y' current', guard_moves choice id m ∧ allowed m y = true
    ∧ chosen choice m y
    ∧ perform f m y = Done ((), y') ∧ system_inv f y'
    ∧ sys_guards (y_sys y') !! id = Some (Bounded rs re start stop current')
    ∧ (work_left id y' < work_left id y)%nat.

Lemma task_advances choice id n m mv y rs re start stop h :
  system_inv f y → sys_guards (y_sys y) !! id = Some (Bounded rs re start stop (Z.of_nat n)) →
  Z.of_nat n < stop → y_handovers y !! n = Some h →
  guard_moves choice id mv → allowed mv y = true →
  chosen choice mv y →
  perform f mv y = for_task n m y →
  (∀ pr opc w, m h (view (h_log h) y) = Done ((pr, opc), w) →
     (done_for h < done_so_far pr)%nat) →
  guard_advances choice id rs re start stop y.
Proof.
  intros I Hid Hlt Hh Hmv Ha Hch Hp Hr. destruct (perform_inv f mv y I Ha) as (y' & Hy & I').
  rewrite Hp in Hy. destruct (task_move_work id n m y y' _ _ _ _ h Hid Hlt Hh Hy Hr) as [Hg Hw].
  exists mv, y', (Z.of_nat n). rewrite Hp, Hg. by split_and!.
Qed.

Lemma next_advances choice id n y rs re start stop h :
  system_inv f y → sys_guards (y_sys y) !! id = Some (Bounded rs re start stop (Z.of_nat n)) →
  Z.of_nat n < stop → y_handovers y !! n = Some h → at_task id y = Some n →
  allowed (Next id) y = true → guard_advances choice id rs re start stop y.
Proof.
  intros I Hid Hlt Hh Hat Ha. destruct (perform_inv f _ y I Ha) as (y' & Hy & I').
  destruct (at_task_owns f y id n I Hat) as (h1 & _ & _ & _ & _ & _ & _ & _ & _ & Hhist).
  exists (Next id), y', (Z.of_nat n + 1). split; [by right; left|]. do 4 (split; [done|]).
  revert Hy. unfold perform, act. rewrite run_get, Hat, Hhist.
  destruct y as [[q pc' gs l tr] cs fs hs]. simpl in *.
  unfold guard_action. simpl. rewrite Hid, (proj2 (Z.ltb_lt _ _) Hlt).
  destruct (write_cell _ _ q) as [[[] q']| |]; [|done..]. intros [= <-].
  unfold work_left. simpl. rewrite lookup_insert_eq. split; [done|].
  rewrite Hid, (proj2 (Z.ltb_lt _ _) Hlt), Nat2Z.id, Hh. pose proof (done_le (h_progress h)).
  unfold done_for. lia.
Qed.

Lemma guard_step choice id y rs re start stop current :
  system_inv f y → sys_guards (y_sys y) !! id = Some (Bounded rs re start stop current) →
  current < stop → guard_advances choice id rs re start stop y.
Proof.
  intros I Hid Hlt. destruct (system_ranges _ _ I) as [R _].
  pose proof (inv_guards _ R _ _ Hid) as Hok. simpl in Hok.
  set (n := Z.to_nat current). assert (Z.of_nat n = current) as Hn by lia.
  assert (at_task id y = Some n) as Hat.
  { unfold at_task. by rewrite Hid, (proj2 (Z.ltb_lt _ _) Hlt). }
  destruct (at_task_owns f y id n I Hat) as (h & _ & _ & _ & _ & Hh & Ho & _).
  rewrite <- Hn in Hid, Hlt.
  assert (∀ p, about_current id y p = p h) as Habout.
  { intros p. unfold about_current, about_task. by rewrite Hat, Hh. }
  destruct (settled h) eqn:Hs; [|destruct (h_progress h) as [|b v pc|] eqn:Hr].
  - eapply next_advances; [done..|]. simpl. by rewrite Habout.
  - eapply (task_advances choice id n (treat_task f (choice n)) (Treat id (choice n)));
      [done..|by right; right; exists n| | | |].
    + simpl. by rewrite Habout, Hr.
    + simpl. rewrite Hat. by intros j [= <-].
    + unfold perform, for_current. by rewrite !run_get, Hat.
    + destruct (treat_task_run f (choice n) y h (sy_handover _ _ I _ _ Hh) Ho Hr) as [-> _].
      unfold done_for. rewrite Hr. intros pr opc w [= <- <- <-]. destruct (choice n); simpl; lia.
  - assert (∀ d, pc ≠ RDone d) as Hd.
    { intros d ->. unfold settled, resolved in Hs. by rewrite Hr in Hs. }
    eapply (task_advances choice id n resolve_task (Resolve id)); [done..|by left| |done| |].
    + simpl. rewrite Habout, Hr. unfold settled in Hs. rewrite Hr in Hs. by rewrite Hs.
    + unfold perform, for_current. by rewrite !run_get, Hat.
    + unfold resolve_task, done_for. rewrite Hr. intros pr opc w Hm. inv_run Hm.
      injection Hm as <- <- <-. by eapply resolver_step_rank.
  - unfold settled in Hs. by rewrite Hr in Hs.
Qed.

(** A task that a guard has passed is behind it. *)
Lemma passed_uncovered id y rs re start stop current n :
  system_inv f y → sys_guards (y_sys y) !! id = Some (Bounded rs re start stop current) →
  start ≤ n < current → ¬ covered (y_sys y) n.
Proof.
  intros I Hid Hn Hc. destruct (system_ranges _ _ I) as [R E].
  pose proof (inv_guards _ R _ _ Hid) as Hok. simpl in Hok.
  destruct Hc as [(id' & g & lo & hi & Hid' & Hu & Hin)|Hb].
  - destruct (decide (id' = id)) as [->|Hne]; [simplify_eq/=; lia|].
    destruct (guard_range (y_sys y) g) as [[b e]|] eqn:Hg; [|by destruct g].
    pose proof (inv_disjoint _ R _ _ _ _ _ _ _ _ Hne Hid' Hid Hg eq_refl).
    pose proof (inv_guards _ R _ _ Hid'). destruct g; simplify_eq/=; lia.
  - destruct (begun_count _ _ Hb) as [Heq _]. unfold claimed in Hok. rewrite Hb in Hok. simpl in Hok. lia.
Qed.

(** The tasks a guard has passed are settled. *)
Lemma passed_settled id y rs re start stop current n h :
  system_inv f y → sys_guards (y_sys y) !! id = Some (Bounded rs re start stop current) →
  start ≤ Z.of_nat n < current → y_handovers y !! n = Some h → settled h = true.
Proof.
  intros I Hid Hn Hh. destruct (system_ranges _ _ I) as [R E].
  pose proof (inv_guards _ R _ _ Hid) as Hok. simpl in Hok.
  destruct (inv_owner _ R) as (phase & _ & Hown). pose proof (claimed_le_count _ _ Hown) as Hle.
  destruct (settled h) eqn:Hr; [done|]. exfalso. unfold count in Hle.
  eapply passed_uncovered; [exact I|exact Hid|exact Hn|]. apply (sy_pending _ _ I n h); [done..|lia].
Qed.

(** The decision the guard takes for a task that is still untouched. *)
Definition decided_by (choice : nat → treatment V) n h h' : Prop :=
  h_ticket h' = h_ticket h
  ∧ decision h' = match h_progress h with Untouched => treated f (choice n) h | _ => decision h end.

Lemma decided_before choice m y n h h1 h' :
  chosen choice m y →
  h_ticket h1 = h_ticket h → decides m y n h h1 → decided_by choice n h1 h' →
  decided_by choice n h h'.
Proof.
  intros Hch Ht [_ Hdec] [Ht' Hd']. split; [congruence|].
  assert (∀ h, h_progress h = Untouched ↔ decision h = Untouched) as Hiff
    by (intros k; unfold decision; destruct (h_progress k); by split).
  destruct Hdec as [Hd|(Hu & id & how & -> & Hat & Hd)].
  - rewrite Hd'. unfold treated. rewrite Ht. unfold decision in *.
    destruct (h_progress h), (h_progress h1); simplify_eq; done.
  - rewrite Hu. rewrite (Hch _ Hat) in Hd. rewrite Hd'.
    destruct (h_progress h1) eqn:Hr; [|done..]. exfalso.
    unfold decision in Hd. rewrite Hr in Hd. by destruct (choice n).
Qed.

(** C9. No guard waits for anybody: from every state, with all other threads stopped where
    they are, the guard of a bounded batch can settle and pass all its tasks by its own
    moves, treating each as it chooses, and then release the region. A task it has begun
    with before keeps the value it has. *)
Theorem guard_finishes choice id y rs re start stop current :
  system_reachable f y → sys_guards (y_sys y) !! id = Some (Bounded rs re start stop current) →
  ∃ l y', Forall (guard_moves choice id) l ∧ perform_all f l y = Some y'
    ∧ allowed (Finish id) y' = true
    ∧ ∀ n, start ≤ Z.of_nat n < stop →
        ∃ h h', y_handovers y !! n = Some h ∧ y_handovers y' !! n = Some h'
          ∧ settled h' = true ∧ decided_by choice n h h'.
Proof.
  intros I%system_inv_reachable. remember (work_left id y) as k eqn:Hk. revert y current I Hk.
  induction (lt_wf k) as [k _ IH]. intros y current I -> Hid.
  destruct (system_ranges _ _ I) as [R _]. pose proof (inv_guards _ R _ _ Hid) as Hok.
  simpl in Hok. destruct (inv_owner _ R) as (phase & _ & Hown).
  pose proof (claimed_le_count _ _ Hown) as Hle.
  assert (∀ n, start ≤ Z.of_nat n < stop → ∃ h, y_handovers y !! n = Some h) as Hthere.
  { intros n Hn. destruct (lookup_lt_is_Some_2 (sys_history (y_sys y)) n) as [c Hc];
      [unfold count in Hle; lia|].
    destruct (sy_history _ _ I _ _ Hc) as (h & Hh & _). eauto. }
  destruct (decide (current < stop)) as [Hlt|Hge].
  - destruct (guard_step choice _ _ _ _ _ _ _ I Hid Hlt)
      as (m & y1 & c1 & Hm & Ha & Hch & Hp & I1 & Hid1 & Hw).
    destruct (IH _ Hw y1 c1 I1 eq_refl Hid1) as (l & y' & Hl & Hrun & Hfin & Hall).
    exists (m :: l), y'. split; [by constructor|]. split; [simpl; by rewrite Ha, Hp|].
    split; [done|]. intros n Hn. destruct (Hthere n Hn) as [h Hh].
    destruct (Hall n Hn) as (h1 & h' & Hh1 & Hh' & Hs & Hd). exists h, h'. do 3 (split; [done|]).
    destruct (perform_decides m y y1 n h I Ha Hp Hh) as (h2 & Hh2 & Ht & Hdec).
    rewrite Hh1 in Hh2. injection Hh2 as <-. by eapply decided_before.
  - assert (current = stop) as -> by lia. exists [], y. split; [done|]. split; [done|].
    split; [simpl; by rewrite Hid, Z.eqb_refl|]. intros n Hn.
    destruct (Hthere n Hn) as [h Hh]. exists h, h. do 2 (split; [done|]).
    pose proof (passed_settled _ _ _ _ _ _ _ _ _ I Hid Hn Hh) as Hs. split; [done|].
    split; [done|]. unfold settled, resolved in Hs. by destruct (h_progress h).
Qed.
End guarantees.

(** * [poll] and the loop bodies are made of moves *)
Section moves.
Context {C : QueueCfg} {HS : SafeCfg} {T V W D : Type} `{DequeLaws W D}
  `{NeedsDrop T, NeedsDrop V} `{Inhabited W}.
Abbreviation task_world := (world (TaskRef T) D (futures T V W) (event W (T + V) Z)).
Abbreviation system := (system T V W D).
Abbreviation handover := (handover T V W).
Implicit Types (y : system) (h k : handover) (w : task_world).
Variable (f : T → V).

Lemma perform_all_cons m l y y1 :
  allowed m y = true → perform f m y = Done ((), y1) →
  perform_all f (m :: l) y = perform_all f l y1.
Proof. intros Ha Hp. simpl. by rewrite Ha, Hp. Qed.

Lemma check_same_cells {cell' : Type} (b : list cell') index q r q' :
  check_write_index index q = Done (r, q') →
  check_write_index index (with_buffer (cell := option (ticket T W)) (D := D) b q)
    = Done (r, with_buffer b q').
Proof.
  rewrite !check_write_index_run, !check_regional_occupancy_run.
  destruct (at_region_start index); [|by intros [= <- <-]]. simpl.
  destruct (_ =? 0); by intros [= <- <-].
Qed.

(** The tail of a push: the counters, and a guard when a batch begins. *)
Lemma publish_moves id q index c gs l tr cs fs hs phase local :
  let n := Z.of_nat (length l) in
  slots_at n phase local q → gs !! id = None →
  perform_all f (Publish id :: Publish id :: if eqb phase local then [] else [Publish id])
    (mkSystem (mkSys q (Written index c) gs l tr) cs fs hs : system)
  = Some (mkSystem
      (if eqb phase local then mkSys (advanced n phase q) Idle gs (l ++ [c]) tr
       else mkSys (occupied index (advanced n phase q)) Idle
              (<[id := Unbounded (slot_word n phase) n]> gs) (l ++ [c]) (tr ++ [Began n]))
      cs fs hs).
Proof.
  intros n [Hs Hl] Hid. assert (bool_decide (¬ is_Some (gs !! id)) = true) as Hfree.
  { apply bool_decide_eq_true. by apply eq_None_not_Some. }
  erewrite perform_all_cons; [|exact Hfree|unfold perform; rewrite run_get; reflexivity].
  rewrite Hs. erewrite perform_all_cons; [|exact Hfree|unfold perform; rewrite run_get; reflexivity].
  simpl sq_slot. rewrite Hl, same_phase_slots, slot_word_next.
  destruct (eqb phase local); [done|].
  erewrite perform_all_cons; [|exact Hfree|].
  2:{ unfold perform. rewrite run_get. unfold act. simpl. rewrite Hid. reflexivity. }
  unfold set_sys. simpl. do 2 f_equal. rewrite length_app. simpl.
  replace (Z.of_nat (length l + 1) - 1) with n by lia. done.
Qed.

Lemma begin_moves y q gs l tr cs fs hs a t cx q' r :
  y = mkSystem (mkSys q Idle gs l tr) cs fs hs → fs !! a = Some (Unbatched t) →
  check_write_index (slot_index (sq_slot q)) q = Done (r, q') →
  let tk := mkTicket (length l) t a cx in
  let y1 := mkSystem (mkSys q' (match r with
              | Ok _ => Checked (slot_index (sq_slot q)) (Some tk)
              | Err _ => Rejected cx end) gs l tr) cs fs hs in
  allowed (Begin a cx) y = true ∧ perform f (Begin a cx) y = Done ((), y1).
Proof.
  intros -> Ha Hc tk y1. split; [unfold allowed, timely, possible, unbatched; simpl; by rewrite Ha|].
  unfold perform. rewrite run_get. simpl. rewrite Ha. unfold act. simpl. rewrite Hc.
  by destruct r.
Qed.

(** The task is placed and published. *)
Lemma place_and_publish q index gs l tr cs fs hs tk id phase local :
  let y := mkSystem (mkSys q (Checked index (Some tk)) gs l tr) cs fs hs in
  let n := Z.of_nat (length l) in
  let w := enqueued index (tk_task tk) (tk_addr tk) (tk_waker tk) (view [] y) in
  system_inv f y → slots_at n phase local q → gs !! id = None →
  perform_all f (Place :: Publish id :: Publish id :: if eqb phase local then [] else [Publish id]) y
  = Some (mkSystem
      (let q := set_buffer (<[Z.to_nat index := Some tk]> (buffer (inner q))) q in
       if eqb phase local then mkSys (advanced n phase q) Idle gs (l ++ [Some tk]) tr
       else mkSys (occupied index (advanced n phase q)) Idle
              (<[id := Unbounded (slot_word n phase) n]> gs) (l ++ [Some tk]) (tr ++ [Began n]))
      (cells w) (ext w) (<[tk_number tk := mkHandover tk Untouched Waiting []]> hs)).
Proof.
  intros y n w I [Hs Hl] Hid.
  erewrite perform_all_cons; [|done|exact (perform_place f y index tk I eq_refl)].
  apply publish_moves; [by split|done].
Qed.

(** C31. The first poll of a future is a run of at most five moves of the owner: the region
    check, then the waker parked, or the task placed, the counter advanced, the local slot
    replaced, and the region occupied when a batch begins, which is the batch that [poll]
    hands to the executor. *)
Theorem first_poll_is_moves y a t cx id :
  system_reachable f y → sys_pc (y_sys y) = Idle → y_futures y !! a = Some (Unbatched t) →
  sys_guards (y_sys y) !! id = None →
  ∃ l y', perform_all f (Begin a cx :: l) y = Some y'
    ∧ l ∈ [[Publish id]; [Place; Publish id; Publish id];
           [Place; Publish id; Publish id; Publish id]]
    ∧ sys_pc (y_sys y') = Idle
    ∧ poll a cx (view [] y) = Done (Pending,
        view (match sys_guards (y_sys y') !! id with
              | Some (Unbounded base_slot _) => [Spawned base_slot] | _ => [] end) y').
Proof.
  intros I%system_inv_reachable Hpc Ha Hid. destruct (system_ranges _ _ I) as [R _].
  destruct (inv_owner _ R) as (phase & Hs & Hown). unfold owner_ok in Hown. rewrite Hpc in Hown.
  destruct Hown as (_ & local & Hl & _). pose proof (sy_cells _ _ I) as Hlen.
  pose proof (current_write_index_run _ _ _ Hl) as Hidx. injection Hidx as Hidx.
  destruct y as [[q pc gs l tr] cs fs hs]. cbn [y_sys sys_pc sys_queue sys_guards y_futures] in *.
  subst pc. set (n := Z.of_nat (length l)). change (count (mkSys q Idle gs l tr)) with n in *.
  set (y := mkSystem _ _ _ _) in *.
  assert (slots_at n phase local (queue (view [] y))) as Hslots by (by split).
  change (slot_index (sq_slot q) = n mod N) in Hidx.
  destruct (check_write_index_total (n mod N) q) as [[q' Hc]|[q' Hc]];
    pose proof (check_same_cells cs _ _ _ _ Hc) as Hcv;
    destruct (check_write_index_frame _ _ _ _ Hc) as (Hi & Hsl & _);
    rewrite <- Hidx in Hc;
    destruct (begin_moves y q gs l tr cs fs hs a t cx q' _ eq_refl Ha Hc) as [Hal Hp];
    rewrite ?Hidx in Hp.
  - destruct (perform_inv f _ _ I Hal) as (y1 & Hp' & I1). rewrite Hp in Hp'. injection Hp' as <-.
    pose proof (poll_ok a t cx n phase local (view [] y) _ Hslots Hlen Ha Hcv) as Hpoll.
    assert (slots_at n phase local q') as Hs' by (split; congruence).
    pose proof (place_and_publish _ _ _ _ _ _ _ _ _ id phase local I1 Hs' Hid) as Hrun.
    cbv zeta in Hpoll. destruct (eqb phase local); eexists _, _.
    + split; [by erewrite perform_all_cons|]. split; [set_solver|]. split; [done|].
      simpl. rewrite Hid. exact Hpoll.
    + split; [by erewrite perform_all_cons|]. split; [set_solver|]. split; [done|].
      simpl. rewrite lookup_insert_eq. exact Hpoll.
  - pose proof (poll_full a t cx n phase local (view [] y) _ Hslots Ha Hcv) as Hpoll.
    eexists [Publish id], _. split; [|split; [set_solver|]].
    + erewrite perform_all_cons by done. erewrite perform_all_cons; [reflexivity| |].
      * by apply bool_decide_eq_true, eq_None_not_Some.
      * unfold perform. rewrite run_get. reflexivity.
    + split; [done|]. simpl. rewrite Hid. exact Hpoll.
Qed.

Lemma view_after_task i a n h r opc log y w :
  nearby i a (view log y) w → view (trace w) (after_task n h r opc w y) = w.
Proof.
  intros (buf & Hq & _). unfold view, after_task. simpl. rewrite Hq. destruct w as [q x tr].
  simpl in *. by rewrite Hq.
Qed.

(** The task guard [id] is at. *)
Definition guard_at id n h y : Prop :=
  system_inv f y ∧ at_task id y = Some n ∧ y_handovers y !! n = Some h.

(** The queue and the other tasks are as they were. *)
Definition others_same (n : nat) y y' : Prop :=
  y_sys y' = y_sys y ∧ ∀ j, j ≠ n → y_handovers y' !! j = y_handovers y !! j.

Lemma others_same_refl n y : others_same n y y.
Proof. done. Qed.

Lemma others_same_trans n y1 y2 y3 : others_same n y1 y2 → others_same n y2 y3 → others_same n y1 y3.
Proof. intros [Hs1 Ho1] [Hs2 Ho2]. split; [congruence|]. intros j Hj. by rewrite Ho2, Ho1. Qed.

Lemma task_move id n h mv m r opc w y :
  guard_at id n h y → allowed mv y = true → perform f mv y = for_task n m y →
  m h (view (h_log h) y) = Done ((r, opc), w) →
  nearby (cell_of h) (tk_addr (h_ticket h)) (view (h_log h) y) w →
  ∃ y', perform f mv y = Done ((), y')
    ∧ guard_at id n (mkHandover (h_ticket h) r opc (trace w)) y' ∧ view (trace w) y' = w
    ∧ others_same n y y'.
Proof.
  intros (I & Hat & Hh) Ha Hp Hm Hn.
  assert (perform f mv y = Done ((), after_task n h r opc w y)) as Hrun
    by (rewrite Hp; by eapply for_task_run).
  destruct (perform_inv f mv y I Ha) as (y' & Hy & I'). rewrite Hrun in Hy. injection Hy as <-.
  eexists. split; [exact Hrun|]. split; [|split; [by eapply view_after_task|]].
  - split; [done|]. split; [done|apply lookup_insert_eq].
  - split; [done|]. intros j Hj. simpl. by rewrite lookup_insert_ne.
Qed.

Lemma treat_move id n how h y :
  guard_at id n h y → h_progress h = Untouched →
  ∃ y' h', allowed (Treat id how) y = true ∧ perform f (Treat id how) y = Done ((), y')
    ∧ guard_at id n h' y' ∧ others_same n y y'
    ∧ h_ticket h' = h_ticket h ∧ h_progress h' = treated f how h
    ∧ treat_task f how h (view (h_log h) y) = Done ((treated f how h, h_owner h), view (h_log h') y').
Proof.
  intros G Hr. pose proof G as (I & Hat & Hh).
  destruct (at_task_owns f y id n I Hat) as (h1 & ? & ? & ? & ? & Hh1 & Ho & _).
  rewrite Hh in Hh1. injection Hh1 as <-.
  destruct (treat_task_run f how y h (sy_handover _ _ I _ _ Hh) Ho Hr) as [Ht Hn].
  assert (allowed (Treat id how) y = true) as Ha.
  { simpl. unfold about_current, about_task. by rewrite Hat, Hh, Hr. }
  edestruct (task_move id n h (Treat id how) (treat_task f how)) as (y' & Hp & G' & Hv & Ho');
    [exact G|exact Ha| |exact Ht|exact Hn|].
  { unfold perform, for_current. by rewrite !run_get, Hat. }
  eexists y', _. split; [done|]. split; [exact Hp|]. split; [exact G'|].
  split; [done|]. split; [done|]. split; [done|]. etransitivity; [exact Ht|]. by rewrite <- Hv at 1.
Qed.

Lemma resolve_move id n h b v pc y :
  guard_at id n h y → h_progress h = Resolving b v pc → (∀ d, pc ≠ RDone d) →
  ∃ y' h' pc', allowed (Resolve id) y = true ∧ perform f (Resolve id) y = Done ((), y')
    ∧ guard_at id n h' y' ∧ others_same n y y'
    ∧ h_ticket h' = h_ticket h ∧ h_progress h' = Resolving b v pc'
    ∧ resolver_step (cell_of h) v pc (view (h_log h) y) = Done (pc', view (h_log h') y').
Proof.
  intros G Hr Hd. pose proof G as (I & Hat & Hh). pose proof (cell_of_pos h) as [Hpos _].
  destruct (at_task_owns f y id n I Hat) as (h1 & ? & ? & ? & ? & Hh1 & Ho & _).
  rewrite Hh in Hh1. injection Hh1 as <-. pose proof (sy_handover _ _ I _ _ Hh) as Hok.
  destruct (resolver_step_run _ _ _ _ Hpos _ _ (handover_is_race _ _ _ Hok Ho))
    as (pc' & w' & Hs & _ & Hn).
  apply (on_task_log f _ _ _ _ _ Hok (adds_resolver _ _ _)) in Hs.
  unfold race_of, stage, answer in Hs. simpl in Hs. rewrite Hr in Hs.
  assert (allowed (Resolve id) y = true) as Ha.
  { simpl. unfold about_current, about_task. rewrite Hat, Hh, Hr. unfold resolved. rewrite Hr.
    destruct pc; try done. by destruct (Hd delivered). }
  edestruct (task_move id n h (Resolve id) resolve_task) as (y' & Hp & G' & Hv & Ho');
    [exact G|exact Ha| | |exact (Hn : nearby _ _ (view (h_log h) y) (after_log (task_log h) w'))|].
  { unfold perform, for_current. by rewrite !run_get, Hat. }
  { unfold resolve_task. rewrite Hr. run_with Hs. reflexivity. }
  eexists y', _, pc'. split; [done|]. split; [exact Hp|]. split; [exact G'|].
  split; [done|]. split; [done|]. split; [done|]. etransitivity; [exact Hs|]. by rewrite <- Hv at 1.
Qed.

(** The moves that bring a task from where its resolver is to the end. *)
Lemma resolve_moves j id n h b v pc y :
  guard_at id n h y → h_progress h = Resolving b v pc → (5 ≤ rank pc + j)%nat →
  ∃ l y' h' d, Forall (λ m, m = Resolve id) l ∧ perform_all f l y = Some y'
    ∧ guard_at id n h' y' ∧ others_same n y y'
    ∧ h_ticket h' = h_ticket h ∧ h_progress h' = Resolving b v (RDone d)
    ∧ resolver_steps j (cell_of h) v pc (view (h_log h) y) = Done (RDone d, view (h_log h') y').
Proof.
  revert h pc y. induction j as [|j IH]; intros h pc y G Hr Hk.
  - assert (∃ d, pc = RDone d) as [d ->] by (destruct pc; simpl in Hk; try lia; eauto).
    exists [], y, h, d. by split_and!.
  - destruct (decide (rank pc = 5)%nat) as [H5|H5].
    { assert (∃ d, pc = RDone d) as [d ->] by (destruct pc; simpl in H5; try lia; eauto).
      exists [], y, h, d. rewrite resolver_steps_done. by split_and!. }
    assert (∀ d, pc ≠ RDone d) as Hd by (intros d ->; by destruct H5).
    destruct (resolve_move id n h b v pc y G Hr Hd) as (y1 & h1 & pc1 & Ha & Hp & G1 & Ho1 & Ht & Hr1 & Hs).
    pose proof (resolver_step_rank _ _ _ _ _ _ Hs Hd) as Hlt.
    destruct (IH h1 pc1 y1 G1 Hr1 ltac:(lia)) as (l & y' & h' & d & Hl & Hrun & G' & Ho' & Ht' & Hr' & Hs').
    exists (Resolve id :: l), y', h', d. split; [by constructor|].
    split; [by erewrite perform_all_cons|]. split; [done|].
    split; [by eapply others_same_trans|]. split; [congruence|]. split; [done|].
    simpl. run_with Hs. unfold cell_of in *. rewrite Ht in Hs'. exact Hs'.
Qed.

(** What the code does with the task in cell [i]: the bodies of the loops of [map],
    [resolve_with_iter] and the destructor of [TaskAssignment]. *)
Definition body (how : treatment V) (i : Z) : M task_world unit :=
  match how with
  | Map => t ← take_task_unchecked i; resolve_unchecked i (f t)
  | Supply v =>
      (if needs_drop (T := T) then t ← take_task_unchecked i; drop_task t else mret ()) ;;
      resolve_unchecked i v
  | PassBy => mret ()
  | Discard => if needs_drop (T := T) then t ← take_task_unchecked i; drop_task t else mret ()
  end.

(** The body begins with the work of [treat_task], and goes on with [resolve_unchecked]. *)
Lemma body_begins how h (w w1 w2 : task_world) :
  treat_task f how h w = Done ((treated f how h, h_owner h), w1) →
  match treated f how h with
  | Resolving _ v _ => resolve_unchecked (cell_of h) v w1 = Done ((), w2)
  | _ => w2 = w1
  end → body how (cell_of h) w = Done ((), w2).
Proof.
  unfold treat_task, body, drop_in_cell. destruct how; simpl; intros Ht Hr; try subst w2.
  - apply bind_done in Ht as (t & w' & Ht & Hw). injection Hw as Hv <-. run_with Ht. by rewrite Hv.
  - apply bind_done in Ht as ([] & w' & Ht & Hw). injection Hw as <-. by run_with Ht.
  - by injection Ht as <-.
  - apply bind_done in Ht as ([] & w' & Ht & Hw). by injection Hw as <-.
Qed.

(** What the code does with one task of its assignment is a run of the moves of a guard. *)
Lemma body_moves y id n how h :
  guard_at id n h y → h_progress h = Untouched →
  ∃ l y' h', Forall (λ m, m = Resolve id) l
    ∧ perform_all f (Treat id how :: l) y = Some y'
    ∧ guard_at id n h' y' ∧ others_same n y y' ∧ settled h' = true ∧ h_ticket h' = h_ticket h
    ∧ decision h' = treated f how h
    ∧ body how (cell_of h) (view (h_log h) y) = Done ((), view (h_log h') y').
Proof.
  intros G Hr. destruct (treat_move id n how h y G Hr) as (y1 & h1 & Ha & Hp & G1 & Ho1 & Ht1 & Hr1 & Hs1).
  destruct (treated f how h) as [|b v pc|b] eqn:Htr.
  - by destruct how.
  - assert (pc = RStart) as -> by (destruct how; simpl in Htr; congruence).
    destruct (resolve_moves 4 id n h1 b v RStart y1 G1 Hr1 ltac:(simpl; lia))
      as (l & y' & h' & d & Hl & Hrun & G' & Ho' & Ht' & Hr' & Hs').
    exists l, y', h'. split; [done|]. split; [by erewrite perform_all_cons|]. split; [done|].
    split; [by eapply others_same_trans|].
    split; [unfold settled, resolved; by rewrite Hr'|]. split; [congruence|].
    split; [unfold decision; by rewrite Hr'|].
    rewrite <- Htr in Hs1. apply (body_begins how h _ _ _ Hs1). rewrite Htr.
    unfold cell_of in *. rewrite Ht1 in Hs'. rewrite <- resolver_steps_are_resolve. by run_with Hs'.
  - exists [], y1, h1. split; [done|]. split; [by erewrite perform_all_cons|]. do 2 (split; [done|]).
    split; [unfold settled; by rewrite Hr1|]. split; [done|]. split; [unfold decision; by rewrite Hr1|].
    rewrite <- Htr in Hs1. apply (body_begins how h _ _ _ Hs1). by rewrite Htr.
Qed.

(** The bodies of the loops of [map], of [resolve_with_iter] and of the destructor of an
    assignment, for one task, are runs of the moves of a guard: it takes the task and
    computes the value, or drops it, and goes through the accesses of [resolve_unchecked]. *)
Theorem loop_bodies_are_moves y id n how h :
  system_reachable f y → at_task id y = Some n → y_handovers y !! n = Some h →
  h_progress h = Untouched →
  ∃ l y' h', Forall (λ m, m = Resolve id) l
    ∧ perform_all f (Treat id how :: l) y = Some y'
    ∧ at_task id y' = Some n ∧ y_handovers y' !! n = Some h'
    ∧ settled h' = true ∧ decision h' = treated f how h
    ∧ body how (cell_of h) (view (h_log h) y) = Done ((), view (h_log h') y').
Proof.
  intros I%system_inv_reachable Hat Hh Hr.
  destruct (body_moves y id n how h (conj I (conj Hat Hh)) Hr)
    as (l & y' & h' & Hl & Hrun & (_ & Hat' & Hh') & _ & Hs & _ & Hd & Hb).
  by exists l, y', h'.
Qed.
End moves.

(** * A run of the whole queue

    Two futures enter one batch of a 64-cell queue. The first is dropped while its value is
    being set, so its destructor spins; the second gets its value, 101. *)
Local Instance task_needs_drop : NeedsDrop Z := true.
Local Instance value_needs_drop : NeedsDrop nat := true.
Local Instance whole_cfg : QueueCfg := cfg64 64.
#[local] Instance whole_safe : SafeCfg.
Proof. split; [reflexivity|reflexivity|]. by vm_compute. Defined.

Abbreviation demo := (system Z nat Z (list_deque Z)).

Definition demo_start : demo := system_start ∅.
Definition after_moves (l : list (move Z nat Z)) : demo :=
  default demo_start (perform_all Z.to_nat l demo_start).

Definition poll_moves (a : nat) (id joins : nat) : list (move Z nat Z) :=
  [Spawn a (100 + Z.of_nat a); Begin a (Z.of_nat a); Place] ++ replicate joins (Publish id).

Definition batch_moves : list (move Z nat Z) := poll_moves 0 0 3 ++ poll_moves 1 1 2 ++ [Close 0].

Definition batch_closed : demo := Eval vm_compute in after_moves batch_moves.

(** The resolver has set its flag, the destructor of the first future spins. *)
Definition spinning_moves : list (move Z nat Z) := batch_moves ++ [Treat 0 Map; Resolve 0; Drop 0; Resolve 0].
Definition spinning : demo := Eval vm_compute in after_moves spinning_moves.

(** Both tasks are resolved, the second future was woken and not polled. *)
Definition woken_moves : list (move Z nat Z) :=
  spinning_moves ++ [Resolve 0; Resolve 0; Drop 0; Drop 0; Drop 0; Next 0; Treat 0 Map]
  ++ replicate 4 (Resolve 0) ++ [Next 0; Finish 0].
Definition woken : demo := Eval vm_compute in after_moves woken_moves.

Lemma moves_reachable l y :
  perform_all Z.to_nat l demo_start = Some y → system_reachable Z.to_nat y.
Proof. apply perform_all_sound. Qed.

Lemma batch_closed_reachable : system_reachable Z.to_nat batch_closed.
Proof. apply (moves_reachable batch_moves). by vm_compute. Qed.

Lemma spinning_reachable : system_reachable Z.to_nat spinning.
Proof. apply (moves_reachable spinning_moves). by vm_compute. Qed.

Lemma woken_reachable : system_reachable Z.to_nat woken.
Proof. apply (moves_reachable woken_moves). by vm_compute. Qed.

Lemma timely_moves_are_defined_witness :
  possible (Drop 0) spinning = true ∧ timely (Drop 0) spinning = true
  ∧ (∃ y', perform Z.to_nat (Drop 0) spinning = Done ((), y'))
  ∧ possible (Poll 1 0) spinning = true ∧ timely (Poll 1 0) spinning = false.
Proof.
  split; [by vm_compute|]. split; [by vm_compute|]. split; [|by split; vm_compute].
  exact (proj1 (timely_moves_are_defined Z.to_nat (Drop 0) spinning spinning_reachable eq_refl)
    eq_refl).
Defined.

(** The second future of [woken], waiting for its poll. *)
Definition woken_task : handover Z nat Z :=
  mkHandover (mkTicket 1 101 1 1) (Resolving true 101%nat (RDone true)) Waiting [Woken 1].

Lemma results_reach_their_futures_witness :
  ∃ mapped v, decision woken_task = Resolving mapped v RStart
    ∧ ∀ cx, ∃ y' h', perform Z.to_nat (Poll 1 cx) woken = Done ((), y')
        ∧ y_handovers y' !! 1%nat = Some h' ∧ h_owner h' = Leaving (Taken v).
Proof.
  exact (proj2 (proj2 (results_reach_their_futures Z.to_nat woken 1%nat woken_task
    woken_reachable eq_refl)) eq_refl).
Defined.

Lemma no_task_forgotten_witness :
  ∃ h, y_handovers spinning !! 1%nat = Some h ∧ h_ticket h = mkTicket 1 101 1 1 ∧
    match h_progress h with
    | Resolving _ v (RDone _) => was_woken h = true ∨ h_log h = task_log h ++ dropped_values [v]
    | GivenUp dropped => h_log h = if dropped && true then [Dropped (inl 101)] else []
    | _ => covered (y_sys spinning) 1
        ∧ ∃ flags, y_cells spinning !! 1%nat = Some (mkTaskRef flags (Some 1%nat) (left_over h))
    end.
Proof.
  exact (no_task_forgotten Z.to_nat spinning 1%nat (mkTicket 1 101 1 1) spinning_reachable eq_refl).
Defined.

(** From [spinning] on, the second task gets a value of an iterator. *)
Lemma guard_finishes_witness :
  ∃ l y', Forall (guard_moves (λ _, Supply 7%nat) 0) l ∧ perform_all Z.to_nat l spinning = Some y'
    ∧ allowed (Finish 0) y' = true
    ∧ ∀ n, 0 ≤ Z.of_nat n < 2 →
        ∃ h h', y_handovers spinning !! n = Some h ∧ y_handovers y' !! n = Some h'
          ∧ settled h' = true ∧ decided_by Z.to_nat (λ _, Supply 7%nat) n h h'.
Proof.
  exact (guard_finishes Z.to_nat (λ _, Supply 7%nat) 0 spinning 0 2 0 2 0 spinning_reachable eq_refl).
Defined.

Lemma first_poll_is_moves_witness :
  ∃ l y', perform_all Z.to_nat (Begin 5 5 :: l) (set_futures {[5%nat := Unbatched 105]} demo_start) = Some y'
    ∧ l ∈ [[Publish 0]; [Place; Publish 0; Publish 0]; [Place; Publish 0; Publish 0; Publish 0]]
    ∧ sys_pc (y_sys y') = Idle
    ∧ poll 5 5 (view [] (set_futures {[5%nat := Unbatched 105]} demo_start)) = Done (Pending,
        view (match sys_guards (y_sys y') !! 0%nat with
              | Some (Unbounded base_slot _) => [Spawned base_slot] | _ => [] end) y').
Proof.
  apply (first_poll_is_moves Z.to_nat _ 5 105 5 0); [|by vm_compute..].
  by apply (moves_reachable [Spawn 5 105]).
Defined.

Lemma loop_bodies_are_moves_witness :
  ∃ l y' h', Forall (λ m, m = Resolve 0) l
    ∧ perform_all Z.to_nat (Treat 0 (Supply 7%nat) :: l) batch_closed = Some y'
    ∧ at_task 0 y' = Some 0%nat ∧ y_handovers y' !! 0%nat = Some h'
    ∧ settled h' = true ∧ decision h' = Resolving false 7%nat RStart
    ∧ ((t ← take_task_unchecked 0; drop_task t) ;; resolve_unchecked 0 7%nat)
        (view [] batch_closed) = Done ((), view (h_log h') y').
Proof.
  exact (loop_bodies_are_moves Z.to_nat batch_closed 0 0%nat (Supply 7%nat)
    (mkHandover (mkTicket 0 100 0 0) Untouched Waiting []) batch_closed_reachable eq_refl eq_refl eq_refl).
Defined.
