(* ===== verification/Settlement.v ===== *)
(** A batch of the whole [TaskQueue], from the guard that is bounded to the last waker: the
    methods of [PendingAssignment] and [TaskAssignment], run on a memory nobody else
    touches meanwhile, are runs of the moves of [System]. *)
From S2P Require Import Prelude Usize Helpers Deque Queue Protocol Schedule Exclusion Safety.
From S2P Require Import Ranges TaskRef Assignment Resolution Delivery Handover System Composition Whole.
Local Open Scope Z_scope.

(** * Nothing comes under a guard but new tasks *)
Section covers.
Context {C : QueueCfg} {HS : SafeCfg} {cell W D : Type} `{Deque W D}.
Implicit Types (q : StackQueue cell D) (s : sys cell W D) (gs : gmap nat guard)
  (pc : Protocol.owner_pc cell W) (tr : list (observation W)).

Lemma covered_other q q' pc gs h tr tr' id g g' n :
  sq_slot q' = sq_slot q → gs !! id = Some g →
  (∀ lo hi, unread (mkSys q' pc gs h tr') g' = Some (lo, hi) → lo ≤ n < hi →
     ∃ lo' hi', unread (mkSys q pc gs h tr) g = Some (lo', hi') ∧ lo' ≤ n < hi') →
  covered (mkSys q' pc (<[id := g']> gs) h tr') n →
  covered (mkSys q pc gs h tr) n.
Proof.
  intros Hsl Hid Hg Hc. rewrite <- (insert_id gs id g Hid), <- (insert_insert_eq gs id g g').
  eapply covered_update; [done|apply lookup_insert_eq|exact Hg|exact Hc].
Qed.

Lemma covered_deleted q q' pc gs h tr tr' id n :
  sq_slot q' = sq_slot q →
  covered (mkSys q' pc (delete id gs) h tr') n → covered (mkSys q pc gs h tr) n.
Proof.
  intros Hsl [(id1 & g1 & lo & hi & Hid1 & Hu & Hn)|Hn].
  - left. simpl in Hid1. apply lookup_delete_Some in Hid1 as [_ Hid1]. by exists id1, g1, lo, hi.
  - right. revert Hn. unfold begun. simpl. by rewrite Hsl.
Qed.

(** The owner counts a task. *)
Lemma claim_covers q gs h tr index c n :
  covered (mkSys (set_slot (wrapping_add usize_bits (slot (inner q))
             (shl usize_bits 1 INDEX_SHIFT)) q)
             (Claimed index (slot (inner q))) gs (h ++ [c]) tr) n →
  covered (mkSys q (Written index c) gs h tr) n ∨ Z.of_nat (length h) ≤ n.
Proof.
  intros [(id1 & g1 & lo & hi & Hid1 & Hu & Hn)|Hn].
  - destruct (decide (Z.of_nat (length h) ≤ n)); [by right|left; left]. simpl in Hid1.
    destruct g1 as [w st|rs re st sp cur|]; simplify_eq/=; eexists _, _, _, _;
      (split; [exact Hid1|]; split; [reflexivity|]); unfold count in *; simpl in *;
      rewrite ?length_app in *; simpl in *; lia.
  - right. apply begun_count in Hn as [-> _]. unfold count. simpl. rewrite length_app. simpl. lia.
Qed.

Lemma occupy_covers q index base_slot id gs h tr tr' n :
  gs !! id = None →
  covered (mkSys (occupied index q) Idle
    (<[id := Unbounded base_slot (Z.of_nat (length h) - 1)]> gs) h tr') n →
  covered (mkSys q (Occupying index base_slot) gs h tr) n.
Proof.
  intros Hid [(id1 & g1 & lo & hi & Hid1 & Hu & Hn)|Hn]; [|done].
  simpl in Hid1. apply lookup_insert_Some in Hid1 as [[<- <-]|[_ Hid1]].
  - right. injection Hu as <- <-. unfold begun, count in *. simpl in *. f_equal. lia.
  - left. exists id1, g1, lo, hi. split; [done|]. split; [|done]. by destruct g1.
Qed.

Lemma action_count a s s' : run_action a s = Some s' → count s ≤ count s'.
Proof.
  intros Hs%run_action_sound. destruct Hs; unfold count; simpl; rewrite ?length_app; lia.
Qed.

Lemma action_covers a s s' n :
  run_action a s = Some s' → covered s' n → covered s n ∨ count s ≤ n.
Proof.
  destruct s as [q pc gs h tr].
  assert (∀ s', sys_guards s' = gs → sys_history s' = h →
    begun s' = begun (mkSys q pc gs h tr) → covered s' n →
    covered (mkSys q pc gs h tr) n ∨ count (mkSys q pc gs h tr) ≤ n) as Hsame.
  { intros s1 Hg Hh Hb Hc. left. revert Hc. apply covered_same; [done| |done].
    unfold count. by rewrite Hh. }
  destruct a as [c cx j|j|j c|j|j]; simpl.
  - destruct pc as [|index c'|index c'|index b|index b|wk]; simpl.
    + destruct (check_write_index _ q) as [[[] ?]| |]; intros [= <-]; by apply Hsame.
    + destruct (write_cell _ _ q) as [[[] ?]| |]; intros [= <-]; by apply Hsame.
    + intros [= <-]. apply claim_covers.
    + intros [= <-]. apply Hsame; [done..|]. rewrite same_phase_test. unfold begun. simpl.
      by destruct (eqb _ _).
    + destruct (gs !! j) eqn:Hj; [done|]. intros [= <-] Hc. left. by eapply occupy_covers.
    + intros [= <-]. by apply Hsame.
  - unfold guard_action. simpl. destruct (gs !! j) as [[]|] eqn:Hj; try done. intros [= <-] Hc. left.
    eapply covered_other; [|exact Hj| |exact Hc]; [done|]. intros lo hi [= <- <-] Hn. eauto.
  - unfold guard_action. simpl. destruct (gs !! j) as [[|rs re start stop current|]|] eqn:Hj; try done.
    destruct (_ <? _); [|done]. destruct (write_cell _ c q) as [[[] q']| |] eqn:Hw; [|done..].
    intros [= <-] Hc. left. apply write_cell_frame in Hw as [_ ->].
    eapply covered_other; [|exact Hj| |exact Hc]; [done|]. intros lo hi [= <- <-] Hn.
    do 2 eexists. split; [done|]. lia.
  - unfold guard_action. simpl. destruct (gs !! j) as [[|rs re start stop current|]|] eqn:Hj; try done.
    intros [= <-]. intros Hc. left. revert Hc. destruct (_ =? _).
    + by eapply covered_other.
    + by apply covered_deleted.
  - unfold guard_action. simpl. destruct (gs !! j) as [[| |limit]|] eqn:Hj; try done.
    destruct (_ <? _); [destruct (stealer_steal _) as [[|wk|] d]|destruct (_ =? 0)];
      intros [= <-] Hc; left; revert Hc.
    + by apply covered_deleted.
    + by eapply covered_other.
    + by apply covered_same.
    + by apply covered_deleted.
Qed.
End covers.

(** * Only the task a guard is at is neither untouched nor settled *)
Section current.
Context {C : QueueCfg} {HS : SafeCfg} {T V W D : Type} `{Deque W D}
  `{NeedsDrop T, NeedsDrop V} `{Inhabited W}.
Abbreviation system := (system T V W D).
Abbreviation handover := (handover T V W).
Implicit Types (y : system) (h k : handover).
Variable (f : T → V).

(** A step of [Protocol] that is not of guard [id], or wakes. *)
Lemma act_at_task a y y' id n :
  act a y = Done ((), y') → at_task id y = Some n →
  match a with
  | Owner _ _ _ | Bound _ | WakeNext _ => True
  | Consume j _ => j ≠ id
  | Release j => at_task j y = None
  end → at_task id y' = Some n.
Proof.
  destruct y as [[q pc gs h tr] cs fs hs]. unfold act, at_task. simpl. intros Ha Hat Hk.
  assert (∀ j g, gs !! j = g → match g with Some (Bounded _ _ _ _ _) => False | _ => True end →
    j ≠ id) as Hother by (intros j g Hj Hg ->; rewrite Hj in Hat; by destruct g as [[]|]).
  destruct a as [c cx j|j|j c|j|j]; simpl in Ha.
  - destruct pc; simpl in Ha.
    + destruct (check_write_index _ q) as [[[] ?]| |]; by simplify_eq/=.
    + destruct (write_cell _ _ q) as [[[] ?]| |]; by simplify_eq/=.
    + by simplify_eq/=.
    + by simplify_eq/=.
    + destruct (gs !! j) eqn:Hj; simplify_eq/=. rewrite lookup_insert_ne; [done|]. by eapply Hother.
    + by simplify_eq/=.
  - unfold guard_action in Ha. simpl in Ha. destruct (gs !! j) as [[]|] eqn:Hj; simplify_eq/=.
    rewrite lookup_insert_ne; [done|]. by eapply Hother.
  - unfold guard_action in Ha. simpl in Ha. destruct (gs !! j) as [[]|] eqn:Hj; try done.
    destruct (_ <? _); [|done]. destruct (write_cell _ _ q) as [[[] ?]| |]; simplify_eq/=.
    by rewrite lookup_insert_ne.
  - assert (j ≠ id) as Hne by (intros ->; by rewrite Hk in Hat).
    unfold guard_action in Ha. simpl in Ha. destruct (gs !! j) as [[]|] eqn:Hj; try done.
    simplify_eq/=. destruct (_ =? _); by rewrite ?lookup_insert_ne, ?lookup_delete_ne.
  - unfold guard_action in Ha. simpl in Ha. destruct (gs !! j) as [[]|] eqn:Hj; try done.
    assert (j ≠ id) as Hne by by eapply Hother.
    destruct (_ <? _); [destruct (stealer_steal _) as [[] ?]|destruct (_ =? 0)]; simplify_eq/=;
      by rewrite ?lookup_insert_ne, ?lookup_delete_ne.
Qed.

Lemma for_task_sys n m y y' : for_task n m y = Done ((), y') → sys_guards (y_sys y') = sys_guards (y_sys y).
Proof. intros (h & pr & opc & w & _ & _ & ->)%for_task_done. done. Qed.

(** A guard leaves its task by [Next] alone. *)
Lemma at_task_kept m y y' id n :
  system_inv f y → allowed m y = true → perform f m y = Done ((), y') → at_task id y = Some n →
  m = Next id ∨ at_task id y' = Some n.
Proof.
  intros I Ha Hp Hat.
  assert (sys_guards (y_sys y') = sys_guards (y_sys y) → at_task id y' = Some n) as Hsame
    by (intros Hg; unfold at_task; by rewrite Hg).
  unfold perform in Hp. rewrite run_get in Hp.
  destruct m as [a t|a|a cx| |j|j|j how|j|j|j|j|j|j cx].
  - right. apply Hsame. by injection Hp as <-.
  - right. apply Hsame. inv_run Hp. injection Hp as <-. unfold on_view in Hrun.
    destruct (drop_batched_task 1 a (view [] y)) as [[? w]| |]; [|done..]. by injection Hrun as _ <-.
  - right. destruct (y_futures y !! a) as [[]|]; try done. by eapply act_at_task.
  - right. simpl in Ha. destruct (sys_pc (y_sys y)) as [|index c| | | |] eqn:Hpc; try done.
    destruct (checked_facts _ _ _ _ I Hpc) as (tk & -> & _).
    pose proof (perform_place f y index tk I Hpc) as Hpl. unfold perform in Hpl.
    rewrite run_get, Hpc, Hp in Hpl. by injection Hpl as ->.
  - right. by eapply act_at_task.
  - right. by eapply act_at_task.
  - right. apply Hsame. unfold for_current in Hp. rewrite run_get in Hp.
    destruct (at_task j y); [|done]. by eapply for_task_sys.
  - right. apply Hsame. unfold for_current in Hp. rewrite run_get in Hp.
    destruct (at_task j y); [|done]. by eapply for_task_sys.
  - destruct (decide (j = id)) as [->|Hne]; [by left|right].
    destruct (at_task j y); [|done]. by eapply act_at_task.
  - right. eapply act_at_task; [done..|]. simpl in Ha. unfold at_task.
    destruct (_ !! j) as [[|? ? ? stop current|]|]; try done. apply Z.eqb_eq in Ha as ->.
    by rewrite Z.ltb_irrefl.
  - right. by eapply act_at_task.
  - right. apply Hsame. by eapply for_task_sys.
  - right. apply Hsame. by eapply for_task_sys.
Qed.

(** A task that was not there before is untouched. *)
Lemma perform_back m y y' n h' :
  system_inv f y → allowed m y = true → perform f m y = Done ((), y') →
  y_handovers y' !! n = Some h' → is_Some (y_handovers y !! n) ∨ h_progress h' = Untouched.
Proof.
  intros I Ha Hp Hh'.
  assert (y_handovers y' = y_handovers y → is_Some (y_handovers y !! n)) as Hsame
    by (intros <-; by eexists).
  assert (∀ j mm, for_task j mm y = Done ((), y') → is_Some (y_handovers y !! n)) as Htask.
  { intros j mm (h & pr & opc & w & Hh & _ & ->)%for_task_done. simpl in Hh'.
    apply lookup_insert_Some in Hh' as [[<- _]|[_ Hh']]; by eexists. }
  unfold perform in Hp. rewrite run_get in Hp.
  destruct m as [a t|a|a cx| |j|j|j how|j|j|j|j|j|j cx].
  - left. apply Hsame. by injection Hp as <-.
  - left. apply Hsame. inv_run Hp. injection Hp as <-. unfold on_view in Hrun.
    destruct (drop_batched_task 1 a (view [] y)) as [[? w]| |]; [|done..]. by injection Hrun as _ <-.
  - left. apply Hsame. destruct (y_futures y !! a) as [[]|]; try done. by eapply act_handovers.
  - simpl in Ha. destruct (sys_pc (y_sys y)) as [|index c| | | |] eqn:Hpc; try done.
    destruct (checked_facts _ _ _ _ I Hpc) as (tk & -> & _).
    pose proof (perform_place f y index tk I Hpc) as Hpl. unfold perform in Hpl.
    rewrite run_get, Hpc, Hp in Hpl. injection Hpl as ->. simpl in Hh'.
    apply lookup_insert_Some in Hh' as [[_ <-]|[_ Hh']]; [by right|left; by eexists].
  - left. apply Hsame. by eapply act_handovers.
  - left. apply Hsame. by eapply act_handovers.
  - left. unfold for_current in Hp. rewrite run_get in Hp. destruct (at_task j y); [by eapply Htask|done].
  - left. unfold for_current in Hp. rewrite run_get in Hp. destruct (at_task j y); [by eapply Htask|done].
  - left. apply Hsame. destruct (at_task j y); [|done]. by eapply act_handovers.
  - left. apply Hsame. by eapply act_handovers.
  - left. apply Hsame. by eapply act_handovers.
  - left. by eapply Htask.
  - left. by eapply Htask.
Qed.

(** A task of a live batch or of the one being begun, or on its way into the queue, is
    untouched, unless a guard is at it. *)
Definition only_current y : Prop :=
  ∀ n h, y_handovers y !! n = Some h →
    covered (y_sys y) (Z.of_nat n) ∨ count (y_sys y) ≤ Z.of_nat n →
    h_progress h = Untouched ∨ ∃ id, at_task id y = Some n.

Lemma decision_untouched h : decision h = Untouched ↔ h_progress h = Untouched.
Proof. unfold decision. by destruct (h_progress h). Qed.

Lemma moved_covers y y' n :
  moved y y' → covered (y_sys y') n ∨ count (y_sys y') ≤ n →
  covered (y_sys y) n ∨ count (y_sys y) ≤ n.
Proof.
  intros [->|[a Ha]]; [done|]. intros [Hc|Hc]; [by eapply action_covers|].
  right. pose proof (action_count _ _ _ Ha). lia.
Qed.

Lemma next_uncovers id y y' n :
  system_inv f y' → perform f (Next id) y = Done ((), y') → at_task id y = Some n →
  system_inv f y → ¬ covered (y_sys y') (Z.of_nat n).
Proof.
  intros I' Hp Hat I.
  destruct (at_task_owns f y id n I Hat) as (h1 & rs & re & start & stop & _ & _ & Hid & Hlt & Hhist).
  destruct (system_ranges _ _ I) as [R _]. pose proof (inv_guards _ R _ _ Hid) as Hok. simpl in Hok.
  eapply (passed_uncovered f id y' rs re start stop (Z.of_nat n + 1)); [done| |lia].
  revert Hp. unfold perform, act. rewrite run_get, Hat, Hhist.
  destruct y as [[q pc gs l tr] cs fs hs]. simpl in *.
  unfold guard_action. simpl. rewrite Hid, (proj2 (Z.ltb_lt _ _) Hlt).
  destruct (write_cell _ _ q) as [[[] q']| |]; [|done..]. intros [= <-]. apply lookup_insert_eq.
Qed.

Lemma only_current_step m y y' :
  system_inv f y → only_current y → allowed m y = true → perform f m y = Done ((), y') →
  only_current y'.
Proof.
  intros I Hoc Ha Hp n h' Hh' Hcov.
  destruct (perform_moves f m y I Ha) as (y1 & Hp1 & I' & Hm). rewrite Hp in Hp1. injection Hp1 as <-.
  destruct (perform_back m y y' n h' I Ha Hp Hh') as [[h Hh]|Hu]; [|by left].
  destruct (perform_decides f m y y' n h I Ha Hp Hh) as (h1 & Hh1 & _ & _ & Hdec).
  rewrite Hh' in Hh1. injection Hh1 as <-.
  pose proof (moved_covers _ _ _ Hm Hcov) as Hcov0.
  assert (∀ id, at_task id y = Some n →
    h_progress h' = Untouched ∨ ∃ id, at_task id y' = Some n) as Hcur.
  { intros id Hat. destruct (at_task_kept m y y' id n I Ha Hp Hat) as [->|?]; [|eauto].
    destruct Hcov as [Hc|Hc]; [by apply (next_uncovers id y y' n) in Hc|].
    destruct (at_task_owns f y id n I Hat) as (_ & _ & _ & _ & _ & _ & _ & _ & _ & Hn%lookup_lt_Some).
    destruct Hm as [Hm|[a Hm]]; [rewrite Hm in Hc|pose proof (action_count _ _ _ Hm)];
      unfold count in *; lia. }
  destruct Hdec as [Hd|(_ & id & how & _ & Hat & _)]; [|by eapply Hcur].
  destruct (Hoc n h Hh Hcov0) as [Hu|[id Hat]]; [|by eapply Hcur].
  left. apply decision_untouched. rewrite Hd. by apply decision_untouched.
Qed.

Lemma only_current_reachable y : system_reachable f y → system_inv f y ∧ only_current y.
Proof.
  intros Hr. refine (rtc_invariant _ (λ y, system_inv f y ∧ only_current y) _ y _ _ Hr).
  - intros y1 y2 (m & Ha & Hp) [I Hoc]. destruct (perform_inv f m y1 I Ha) as (y2' & Hp' & I').
    rewrite Hp in Hp'. injection Hp' as <-. split; [done|]. by apply (only_current_step m y1).
  - split; [apply system_inv_start|]. by intros n h Hh.
Qed.

(** No task of an unbounded guard was touched. *)
Lemma open_untouched y id base_slot start n h :
  system_inv f y → only_current y → sys_guards (y_sys y) !! id = Some (Unbounded base_slot start) →
  start ≤ Z.of_nat n < count (y_sys y) → y_handovers y !! n = Some h →
  h_progress h = Untouched.
Proof.
  intros I Hoc Hid Hn Hh. destruct (system_ranges _ _ I) as [R E].
  destruct (Hoc n h Hh) as [?|[j Hj]]; [|done|].
  { left. left. exists id, (Unbounded base_slot start), start, (count (y_sys y)). done. }
  destruct (at_task_owns f y j n I Hj) as (h1 & rs & re & st & stop & _ & _ & Hjg & Hlt & _).
  destruct (decide (j = id)) as [->|Hne]; [congruence|].
  pose proof (inv_guards _ R _ _ Hjg) as Hok. simpl in Hok.
  pose proof (inv_disjoint _ R _ _ _ _ _ _ _ _ Hne Hjg Hid eq_refl eq_refl). lia.
Qed.
End current.

(** * The methods of the assignments, task by task *)
Section methods.
Context {C : QueueCfg} {HV : ValidCfg} {T V W D : Type} `{DequeLaws W D}
  `{NeedsDrop T, NeedsDrop V}.
Abbreviation task_world := (world (TaskRef T) D (futures T V W) (event W (T + V) Z)).
Implicit Types (w : task_world).
Variable (f : T → V).

(** How a batch is settled: [map], [resolve_with_iter], or the destructor. *)
Inductive settlement : Type :=
| ByMap
| ByIter (values : list V)
| ByDrop.

Definition settle (how : settlement) (a : TaskAssignment) : M task_world unit :=
  match how with
  | ByMap => map_assignment f a
  | ByIter values => resolve_with_iter values a
  | ByDrop => drop_assignment a
  end.

(** What that means to task [n] of a batch that starts with task [start]. *)
Definition choice_of (how : settlement) (start n : nat) : treatment V :=
  match how with
  | ByMap => Map
  | ByIter values => match values !! (n - start)%nat with Some v => Supply v | None => PassBy end
  | ByDrop => Discard
  end.

Definition number_cell (n : nat) : Z := Z.of_nat n mod N.

Lemma bind_same {A B : Type} (m m' : M task_world A) (k k' : A → M task_world B) w :
  m w = m' w → (∀ a w, k a w = k' a w) → (m ≫= k) w = (m' ≫= k') w.
Proof. intros Hm Hk. unfold mbind, M_bind. rewrite Hm. destruct (m' w) as [[a w1]| |]; [apply Hk|done..]. Qed.

Lemma for_each_cells (g : Z → M task_world unit) start i n w :
  for_each (batch_cell (Z.of_nat start) <$> seq i n) g w
    = for_each (seq (start + i) n) (λ k, g (number_cell k)) w.
Proof.
  revert i w. induction n as [|n IH]; intros i w; [done|].
  assert (batch_cell (Z.of_nat start) i = number_cell (start + i)) as Hc
    by (unfold batch_cell, number_cell; f_equal; lia).
  simpl. rewrite Hc. apply bind_same; [done|]. intros [] w1. rewrite IH.
  by replace (start + S i)%nat with (S (start + i)) by lia.
Qed.

(** Bodies that do nothing. *)
Lemma for_each_nothing {A : Type} (l : list A) (g : A → M task_world unit) w :
  (∀ x, x ∈ l → g x w = Done ((), w)) → for_each l g w = Done ((), w).
Proof.
  intros Hg. induction l as [|x l IH]; [done|]. simpl. rewrite (run_bind _ _ _ _ _ (Hg x ltac:(by left))).
  apply IH. intros y Hy. apply Hg. by right.
Qed.

Lemma for_each_values values start i n w :
  for_each (zip (batch_cell (Z.of_nat start) <$> seq i n) (drop i values)) (λ rv : Z * V,
    let (task_ref, value) := rv in
    (if needs_drop (T := T) then t ← take_task_unchecked task_ref; drop_task t else mret ()) ;;
    resolve_unchecked task_ref value) w
  = for_each (seq (start + i) n)
      (λ k, body f (choice_of (ByIter values) start k) (number_cell k)) w.
Proof.
  revert i w. induction n as [|n IH]; intros i w; [done|].
  destruct (values !! i) as [v|] eqn:Hv.
  - rewrite (drop_S _ _ _ Hv).
    assert (batch_cell (Z.of_nat start) i = number_cell (start + i)) as Hc
      by (unfold batch_cell, number_cell; f_equal; lia).
    cbn [seq fmap list_fmap zip_with for_each]. rewrite Hc. apply bind_same.
    + simpl. by replace (start + i - start)%nat with i by lia; rewrite Hv.
    + intros [] w1. rewrite IH. by replace (start + S i)%nat with (S (start + i)) by lia.
  - rewrite drop_ge by by apply lookup_ge_None. rewrite zip_with_nil_r.
    symmetry. apply for_each_nothing. intros k Hk%elem_of_seq. simpl.
    apply lookup_ge_None in Hv. by rewrite lookup_ge_None_2 by lia.
Qed.

(** A method goes through the tasks of the batch and releases its region. *)
Lemma settle_run how start n w :
  1 ≤ Z.of_nat n ≤ N →
  settle how (assignment (Z.of_nat start) n) w
    = (for_each (seq start n) (λ k, body f (choice_of how start k) (number_cell k)) ;;
       deoccupy_region (number_cell start)) w.
Proof.
  intros Hn. pose proof (tasks_run (Z.of_nat start) n w Hn) as Ht.
  assert (∀ w, deoccupy_assignment (assignment (Z.of_nat start) n) w
    = deoccupy_region (number_cell start) w) as Hr.
  { intros w1. destruct (deoccupy_returns (Z.of_nat start) w1) as [w2 Hw].
    rewrite (deoccupy_assignment_run _ n _ _ Hw). by rewrite <- Hw. }
  assert (∀ (m1 m2 : M task_world unit), m1 w = m2 w →
    (m1 ;; deoccupy_assignment (assignment (Z.of_nat start) n)) w
      = (m2 ;; deoccupy_region (number_cell start)) w) as Hend.
  { intros m1 m2 He. apply bind_same; [done|]. intros [] w1. apply Hr. }
  destruct how as [|values|]; simpl.
  - unfold map_assignment. run_with Ht. apply Hend. rewrite for_each_cells. by rewrite Nat.add_0_r.
  - unfold resolve_with_iter. run_with Ht. apply Hend.
    pose proof (for_each_values values start 0 n w) as Hv. by rewrite Nat.add_0_r in Hv.
  - unfold drop_assignment. apply Hend. unfold body. simpl. destruct (needs_drop (T := T)).
    + run_with Ht. rewrite for_each_cells. by rewrite Nat.add_0_r.
    + symmetry. by apply for_each_nothing.
Qed.
End methods.
Arguments ByMap {_}.
Arguments ByIter {_} _.
Arguments ByDrop {_}.

(** * A batch as moves *)
Section batch.
Context {C : QueueCfg} {HS : SafeCfg} {T V W D : Type} `{DequeLaws W D}
  `{NeedsDrop T, NeedsDrop V} `{Inhabited W}.
Abbreviation task_world := (world (TaskRef T) D (futures T V W) (event W (T + V) Z)).
Abbreviation system := (system T V W D).
Abbreviation handover := (handover T V W).
Implicit Types (y : system) (h k : handover) (w : task_world) (log L : list (event W (T + V) Z)).
Variable (f : T → V).

Lemma perform_all_app l1 l2 y y1 :
  perform_all f l1 y = Some y1 → perform_all f (l1 ++ l2) y = perform_all f l2 y1.
Proof.
  revert y. induction l1 as [|m l1 IH]; intros y Hl; simpl in *; [by injection Hl as ->|].
  destruct (allowed m y); [|done]. destruct (perform f m y) as [[[] y2]| |]; [by apply IH|done..].
Qed.

Lemma adds_steps j i v pc : only_adds (resolver_steps (T := T) (W := W) (D := D) j i v pc).
Proof.
  revert pc. induction j as [|j IH]; intros pc; [apply adds_ret|].
  apply adds_bind; [apply adds_resolver|apply IH].
Qed.

(** The body of a loop only adds to the log. *)
Lemma adds_body how i : only_adds (body (W := W) (D := D) f how i).
Proof.
  assert (∀ v, only_adds (resolve_unchecked (T := T) (W := W) (D := D) i v)) as Hr.
  { intros v p w. rewrite <- !resolver_steps_are_resolve. revert p w.
    apply adds_bind; [apply adds_steps|intros ?; apply adds_ret]. }
  assert (only_adds (take_task_unchecked (V := V) (W := W) (D := D) (T := T) i)) as Ht.
  { unfold take_task_unchecked, update_cell, assume_init.
    apply adds_bind; [apply adds_on_queue|]. intros c. apply adds_bind; [apply adds_on_queue|].
    intros []. by destruct (task c). }
  assert (∀ t : T, only_adds (drop_task (V := V) (W := W) (D := D) t)) as Hd.
  { intros t. unfold drop_task. destruct needs_drop; [apply adds_emit|apply adds_ret]. }
  destruct how; simpl; try destruct (needs_drop (T := T)); auto using adds_bind, adds_ret.
Qed.

Lemma view_append log y : view log y = after_log log (view [] y).
Proof. unfold after_log, view. simpl. by rewrite app_nil_r. Qed.

(** Guard [id] works on the batch [start..stop), the tasks from [cur] on are untouched. *)
Record working (id : nat) rs re start stop (cur : nat) y : Prop := {
  wk_inv : system_inv f y;
  wk_guard : sys_guards (y_sys y) !! id = Some (Bounded rs re start stop (Z.of_nat cur));
  wk_rest : ∀ n h, (cur ≤ n)%nat → Z.of_nat n < stop → y_handovers y !! n = Some h →
    h_progress h = Untouched
}.

(** [Next] as such: only the guard moves on. *)
Lemma next_move y id rs re start stop n h :
  system_inv f y → sys_guards (y_sys y) !! id = Some (Bounded rs re start stop (Z.of_nat n)) →
  Z.of_nat n < stop → y_handovers y !! n = Some h → settled h = true →
  ∃ y', allowed (Next id) y = true ∧ perform f (Next id) y = Done ((), y') ∧ system_inv f y'
    ∧ sys_guards (y_sys y') !! id = Some (Bounded rs re start stop (Z.of_nat (S n)))
    ∧ y_handovers y' = y_handovers y ∧ ∀ L, view L y' = view L y.
Proof.
  intros I Hid Hlt Hh Hs.
  assert (at_task id y = Some n) as Hat
    by (unfold at_task; by rewrite Hid, (proj2 (Z.ltb_lt _ _) Hlt), Nat2Z.id).
  assert (allowed (Next id) y = true) as Ha
    by (simpl; unfold about_current, about_task; by rewrite Hat, Hh).
  destruct (perform_inv f _ y I Ha) as (y' & Hp & I'). exists y'. do 3 (split; [done|]).
  destruct (at_task_owns f y id n I Hat) as (h1 & _ & _ & _ & _ & _ & _ & _ & _ & Hhist).
  revert Hp. unfold perform, act. rewrite run_get, Hat, Hhist.
  destruct y as [[q pc gs l tr] cs fs hs]. simpl in *.
  unfold guard_action. simpl. rewrite Hid, (proj2 (Z.ltb_lt _ _) Hlt).
  destruct (write_cell _ _ q) as [[[] q']| |] eqn:Hw; [|done..]. intros [= <-]. simpl.
  rewrite lookup_insert_eq. apply write_cell_frame in Hw as [_ ->].
  split; [do 2 f_equal; lia|]. done.
Qed.

(** One task, from the move that treats it to the one that passes it. *)
Lemma work_task choice id rs re start stop cur y :
  working id rs re start stop cur y → Z.of_nat cur < stop →
  ∃ l y' h h' log, Forall (guard_moves choice id) l ∧ perform_all f l y = Some y'
    ∧ working id rs re start stop (S cur) y'
    ∧ y_handovers y !! cur = Some h ∧ y_handovers y' !! cur = Some h' ∧ settled h' = true
    ∧ h_ticket h' = h_ticket h ∧ decision h' = treated f (choice cur) h
    ∧ (∀ j, j ≠ cur → y_handovers y' !! j = y_handovers y !! j)
    ∧ ∀ L, body f (choice cur) (number_cell cur) (view L y) = Done ((), view (L ++ log) y').
Proof.
  intros [I Hid Hrest] Hlt.
  assert (at_task id y = Some cur) as Hat
    by (unfold at_task; by rewrite Hid, (proj2 (Z.ltb_lt _ _) Hlt), Nat2Z.id).
  destruct (at_task_owns f y id cur I Hat) as (h & ? & ? & ? & ? & Hh & Ho & _).
  pose proof (Hrest cur h ltac:(lia) Hlt Hh) as Hu.
  destruct (body_moves f y id cur (choice cur) h (conj I (conj Hat Hh)) Hu)
    as (l & y1 & h1 & Hl & Hrun & (I1 & Hat1 & Hh1) & Hoth & Hset & Htk & Hdec & Hb).
  assert (sys_guards (y_sys y1) !! id = Some (Bounded rs re start stop (Z.of_nat cur))) as Hid1.
  { by rewrite (proj1 Hoth). }
  destruct (next_move y1 id rs re start stop cur h1 I1 Hid1 Hlt Hh1 Hset)
    as (y2 & Ha2 & Hp2 & I2 & Hid2 & Hhs2 & Hv2).
  exists ((Treat id (choice cur) :: l) ++ [Next id]), y2, h, h1, (h_log h1).
  split.
  { apply Forall_app. split; [constructor; [by right; right; exists cur|]|].
    - eapply Forall_impl; [exact Hl|]. intros m ->. by left.
    - constructor; [by right; left|done]. }
  split; [rewrite (perform_all_app _ _ _ _ Hrun); by erewrite perform_all_cons|].
  split.
  { split; [done..|]. intros n k Hn Hstop Hk. rewrite Hhs2 in Hk.
    rewrite (proj2 Hoth) in Hk by lia. apply (Hrest n); [lia|done|done]. }
  split; [done|]. split; [by rewrite Hhs2|]. do 3 (split; [done|]).
  split; [intros j Hj; by rewrite Hhs2, (proj2 Hoth)|].
  intros L. rewrite view_append. rewrite (adds_body (choice cur) (number_cell cur) L (view [] y)).
  destruct (untouched_task f y h (sy_handover _ _ I _ _ Hh) Ho Hu) as [Hlog _].
  rewrite Hlog in Hb. assert (cell_of h = number_cell cur) as Hc.
  { unfold cell_of, number_cell. destruct (sy_numbers _ _ I _ _ Hh) as [-> _]. done. }
  rewrite Hc in Hb. rewrite Hb. rewrite Hv2. done.
Qed.

(** All tasks from [cur] on. *)
Lemma work_tasks choice id rs re start stop j cur y :
  working id rs re start stop cur y → Z.of_nat (cur + j) = stop →
  ∃ l y' log, Forall (guard_moves choice id) l ∧ perform_all f l y = Some y'
    ∧ working id rs re start stop (cur + j) y'
    ∧ (∀ n, (n < cur)%nat → y_handovers y' !! n = y_handovers y !! n)
    ∧ (∀ n h, (cur ≤ n < cur + j)%nat → y_handovers y !! n = Some h →
        ∃ h', y_handovers y' !! n = Some h' ∧ settled h' = true ∧ h_ticket h' = h_ticket h
          ∧ decision h' = treated f (choice n) h)
    ∧ ∀ L, for_each (seq cur j) (λ n, body f (choice n) (number_cell n)) (view L y)
        = Done ((), view (L ++ log) y').
Proof.
  revert cur y. induction j as [|j IH]; intros cur y Hw Hstop.
  - exists [], y, []. rewrite Nat.add_0_r. do 4 (split; [done|]).
    split; [lia|]. intros L. by rewrite app_nil_r.
  - destruct (work_task choice id rs re start stop cur y Hw ltac:(lia))
      as (l1 & y1 & h1 & h1' & log1 & Hl1 & Hr1 & Hw1 & Hh1 & Hh1' & Hs1 & Ht1 & Hd1 & Ho1 & Hb1).
    destruct (IH (S cur) y1 Hw1 ltac:(lia)) as (l2 & y2 & log2 & Hl2 & Hr2 & Hw2 & Ho2 & Hall2 & Hb2).
    exists (l1 ++ l2), y2, (log1 ++ log2).
    split; [by apply Forall_app|]. split; [by rewrite (perform_all_app _ _ _ _ Hr1)|].
    split; [by replace (cur + S j)%nat with (S cur + j)%nat by lia|].
    split; [intros n Hn; rewrite Ho2, Ho1 by lia; done|]. split.
    + intros n h Hn Hh. destruct (decide (n = cur)) as [->|Hne].
      * rewrite Hh1 in Hh. injection Hh as <-. exists h1'. by rewrite Ho2 by lia.
      * apply Hall2; [lia|]. by rewrite Ho1.
    + intros L. simpl. run_with (Hb1 L). rewrite app_assoc. apply Hb2.
Qed.

(** ** The release of the region and the wakers *)
Definition after_steal (id : nat) (limit : Z) (r : Steal W) (d : D) y : system :=
  let '(mkSys q pc gs h tr) := y_sys y in
  set_sys (mkSys (set_pending d q) pc
    (match r with
     | Empty => delete id gs | Success _ => <[id := Waking (limit - 1)]> gs | Retry => gs end)
    h (match r with Success wk => tr ++ [Woke wk] | _ => tr end)) y.

Lemma wake_up_run id limit r d y :
  sys_guards (y_sys y) !! id = Some (Waking limit) → 0 < limit →
  stealer_steal (pending (sys_queue (y_sys y))) = (r, d) →
  perform f (WakeUp id) y = Done ((), after_steal id limit r d y).
Proof.
  destruct y as [[q pc gs h tr] cs fs hs]. simpl. intros Hid Hl Hs. unfold perform. rewrite run_get.
  unfold act. simpl. unfold guard_action. simpl. rewrite Hid, (proj2 (Z.ltb_lt _ _) Hl), Hs.
  by destruct r.
Qed.

Lemma after_steal_view id limit r d y L :
  view L (after_steal id limit r d y) = set_queue (set_pending d (queue (view L y))) (view L y).
Proof. by destruct y as [[q pc gs h tr] cs fs hs]. Qed.

Lemma after_steal_guard id limit r d y :
  sys_guards (y_sys y) !! id = Some (Waking limit) →
  sys_guards (y_sys (after_steal id limit r d y)) !! id
    = match r with Empty => None | Success _ => Some (Waking (limit - 1)) | Retry => Some (Waking limit) end
  ∧ y_handovers (after_steal id limit r d y) = y_handovers y.
Proof.
  destruct y as [[q pc gs h tr] cs fs hs]. simpl. intros Hid.
  destruct r; rewrite ?lookup_delete_eq, ?lookup_insert_eq; auto.
Qed.

Lemma wake_moves fuel limit id y L w' :
  0 ≤ limit ≤ region_size → sys_guards (y_sys y) !! id = Some (Waking limit) →
  wake_pending fuel limit (view L y) = Done ((), w') →
  ∃ l y' ws, Forall (λ m, m = WakeUp id) l ∧ perform_all f l y = Some y'
    ∧ sys_guards (y_sys y') !! id = None ∧ y_handovers y' = y_handovers y
    ∧ w' = view (L ++ map Woken ws) y'.
Proof.
  revert limit y L. induction fuel as [|fuel IH]; intros limit y L Hlim Hid Hr; [done|].
  assert (allowed (WakeUp id) y = true) as Ha by (simpl; by rewrite Hid).
  simpl in Hr. destruct (Z.ltb_spec 0 limit) as [Hpos|].
  - apply bind_done in Hr as (r & w1 & Hs & Hr).
    destruct (stealer_steal (pending (sys_queue (y_sys y)))) as [r1 d] eqn:Hst.
    rewrite (steal_waker_run (view L y) r1 d Hst), <- (after_steal_view id limit r1 d y L) in Hs.
    pose proof (wake_up_run id limit r1 d y Hid Hpos Hst) as Hp.
    destruct (after_steal_guard id limit r1 d y Hid) as [Hid1 Hh1].
    set (y1 := after_steal id limit r1 d y) in *. clearbody y1. injection Hs as <- <-.
    assert (∀ limit' L', 0 ≤ limit' ≤ region_size → sys_guards (y_sys y1) !! id = Some (Waking limit') →
      wake_pending fuel limit' (view (L ++ L') y1) = Done ((), w') → (∃ ws, L' = map Woken ws) →
      ∃ l y' ws, Forall (λ m, m = WakeUp id) l ∧ perform_all f l y = Some y'
        ∧ sys_guards (y_sys y') !! id = None ∧ y_handovers y' = y_handovers y
        ∧ w' = view (L ++ map Woken ws) y') as Hgo.
    { intros limit' L' Hl' Hid' Hr' [ws1 ->].
      destruct (IH limit' y1 _ Hl' Hid' Hr') as (l & y' & ws & Hl & Hrun & Hg & Hh & Hw).
      exists (WakeUp id :: l), y', (ws1 ++ ws). split; [by constructor|].
      split; [by erewrite perform_all_cons|]. split; [done|]. split; [congruence|].
      by rewrite map_app, app_assoc. }
    destruct r1 as [|wk|].
    + injection Hr as <-. exists [WakeUp id], y1, []. split; [by constructor|].
      split; [by erewrite perform_all_cons|]. split; [done|]. split; [done|]. by rewrite app_nil_r.
    + apply bind_done in Hr as ([] & w2 & He & Hr). injection He as <-.
      unfold wrapping_sub in Hr. rewrite wrap_small in Hr 
        by (rewrite safe_usize_bits; pose proof region_size_le; split; lia).
      apply (Hgo (limit - 1) [Woken wk]); [lia|done|exact Hr|by exists [wk]].
    + apply (Hgo limit []); [done|done|by rewrite app_nil_r|by exists []].
  - assert (limit = 0) as -> by lia. injection Hr as <-. exists [WakeUp id].
    destruct y as [[q pc gs h tr] cs fs hs]. simpl in Hid. eexists _, [].
    split; [by constructor|]. split; [erewrite perform_all_cons; [reflexivity|exact Ha|]|].
    + unfold perform. rewrite run_get. unfold act. simpl. unfold guard_action. simpl. by rewrite Hid.
    + simpl. split; [apply lookup_delete_eq|]. by rewrite app_nil_r.
Qed.

Definition release_moves (id : nat) (m : move T V W) : Prop := m = Finish id ∨ m = WakeUp id.

Lemma release_run y id rs re start stop L :
  system_inv f y → sys_guards (y_sys y) !! id = Some (Bounded rs re start stop stop) →
  ∃ l y' ws, Forall (release_moves id) l ∧ perform_all f l y = Some y'
    ∧ sys_guards (y_sys y') !! id = None ∧ y_handovers y' = y_handovers y
    ∧ deoccupy_region (start mod N) (view L y) = Done ((), view (L ++ map Woken ws) y').
Proof.
  intros I Hid. destruct (system_ranges _ _ I) as [R _].
  pose proof (inv_guards _ R _ _ Hid) as Hok. simpl in Hok.
  assert (Z.land rs (wrapping_sub usize_bits N 1) = start mod N) as Hcell.
  { destruct Hok as (_ & _ & _ & -> & _). apply index_mask_word. }
  destruct (deoccupy_returns start (view L y)) as [w' Hd].
  pose proof Hd as Hr. unfold deoccupy_region in Hr.
  apply bind_done in Hr as (prev & w1 & Hf & Hr).
  set (occ := occupancy (inner (sys_queue (y_sys y)))).
  set (one := one_shifted (start mod N)) in *.
  set (y1 := set_sys (mkSys (set_occupancy (wrapping_sub usize_bits occ one) (sys_queue (y_sys y)))
    (sys_pc (y_sys y)) (if occ =? one then <[id := Waking region_size]> (sys_guards (y_sys y))
       else delete id (sys_guards (y_sys y))) (sys_history (y_sys y)) (sys_trace (y_sys y))) y).
  assert (prev = occ ∧ w1 = view L y1) as [-> ->].
  { unfold on_queue, zoom in Hf. simpl in Hf. injection Hf as <- <-. done. }
  assert (allowed (Finish id) y = true) as Ha by (simpl; by rewrite Hid, Z.eqb_refl).
  assert (perform f (Finish id) y = Done ((), y1)) as Hp.
  { unfold perform. rewrite run_get. unfold act, y1, occ, one. rewrite <- Hcell.
    destruct y as [[q pc gs h tr] cs fs hs]. simpl in *. unfold guard_action. simpl. by rewrite Hid. }
  destruct (occ =? one) eqn:Hlast.
  - apply bind_done in Hr as (n & w2 & Hn & Hr).
    assert (w2 = view L y1) as -> by (injection Hn as _ <-; done).
    edestruct (wake_moves (S (Z.to_nat region_size + n)) region_size id y1 L w') as (l & y' & ws & Hl & Hrun & Hg & Hh & ->);
      [pose proof region_size_bounds; lia|apply lookup_insert_eq|exact Hr|].
    exists (Finish id :: l), y', ws. split.
    { constructor; [by left|]. eapply Forall_impl; [exact Hl|]. by right. }
    split; [by erewrite perform_all_cons|]. by split.
  - injection Hr as <-. exists [Finish id], y1, []. split; [by constructor; [left|]|].
    split; [by erewrite perform_all_cons|]. split; [apply lookup_delete_eq|].
    split; [done|]. by rewrite app_nil_r.
Qed.

Lemma into_assignment_shares start stop phase ph w :
  slot (inner (queue w)) = slot_word stop ph →
  into_assignment (mkPendingAssignment (slot_word start phase)) w
    = Done (mkTaskAssignment (range_of start stop),
        set_queue (set_slot (Z.lxor (slot (inner (queue w))) PHASE) (queue w)) w).
Proof.
  intros Hs. unfold into_assignment, set_assignment_bounds, on_queue, zoom, fetch_xor_slot.
  unfold mbind, M_bind, mret, M_ret. simpl. by rewrite Hs, !slot_word_shr.
Qed.

(** [into_assignment]: the guard is bounded. *)
Lemma close_run y id base_slot start L :
  system_inv f y → only_current y →
  sys_guards (y_sys y) !! id = Some (Unbounded base_slot start) →
  let stop := count (y_sys y) in
  ∃ y', allowed (Close id) y = true ∧ perform f (Close id) y = Done ((), y')
    ∧ y_handovers y' = y_handovers y ∧ 0 ≤ start < stop ∧ stop - start ≤ N
    ∧ working id (start mod counter_modulus) (stop mod counter_modulus) start stop (Z.to_nat start) y'
    ∧ into_assignment (mkPendingAssignment base_slot) (view L y)
      = Done (assignment start (Z.to_nat (stop - start)), view L y').
Proof.
  intros I Hoc Hid stop. destruct (system_ranges _ _ I) as [R E].
  pose proof (inv_guards _ R _ _ Hid) as (Hst & phase & Hbase).
  destruct (inv_owner _ R) as (ph & Hslot & Hown). pose proof (claimed_le_count _ _ Hown) as Hle.
  pose proof (unread_window (y_sys y) id _ start stop start R E Hid eq_refl ltac:(unfold stop; lia)) as Hwin.
  assert (0 ≤ room (y_sys y)) as Hroom by (unfold room; destruct (sys_pc (y_sys y)); lia).
  assert (allowed (Close id) y = true) as Ha by (simpl; by rewrite Hid).
  assert (∀ n h, (Z.to_nat start ≤ n)%nat → Z.of_nat n < stop → y_handovers y !! n = Some h →
    h_progress h = Untouched) as Hrest.
  { intros n h Hn Hlt Hh. apply (open_untouched f y id base_slot start n); try done. unfold stop in Hlt. lia. }
  destruct (perform_inv f _ y I Ha) as (y' & Hp & I'). exists y'. do 2 (split; [done|]).
  revert Hp. unfold perform, act. rewrite run_get.
  pose proof (into_assignment_shares start stop phase ph (view L y) Hslot) as Hinto. rewrite <- Hbase in Hinto.
  destruct y as [[q pc gs h tr] cs fs hs]. simpl in *. unfold guard_action. simpl. rewrite Hid.
  intros [= <-]. split; [done|]. split; [unfold stop; lia|]. split; [lia|].
  rewrite Hbase, Hslot, !slot_word_shr in I' |- *. rewrite <- Hbase. split.
  - split; [done| |done]. simpl. rewrite lookup_insert_eq. do 2 f_equal; lia.
  - unfold assignment. replace (start + Z.of_nat (Z.to_nat (stop - start))) with stop by lia.
    rewrite Hinto. simpl. by rewrite Hslot.
Qed.

(** C32. What a [batch_process] does with its batch - [into_assignment], and then [map],
    [resolve_with_iter] or the destructor - is, when nobody else moves meanwhile, a run
    of the moves of its guard, from the one that closes the batch to the last waker it wakes:
    each task gets the treatment the method has for it, all are settled and the guard is gone. *)
Theorem settlements_are_moves how id y base_slot start :
  system_reachable f y → sys_guards (y_sys y) !! id = Some (Unbounded base_slot start) →
  let choice := choice_of how (Z.to_nat start) in
  ∃ l y' log,
    Forall (λ m, guard_moves choice id m ∨ release_moves id m) l
    ∧ perform_all f (Close id :: l) y = Some y'
    ∧ sys_guards (y_sys y') !! id = None
    ∧ (∀ n, start ≤ Z.of_nat n < count (y_sys y) → ∃ h h', y_handovers y !! n = Some h
        ∧ y_handovers y' !! n = Some h' ∧ settled h' = true ∧ decided_by f choice n h h')
    ∧ (a ← into_assignment (mkPendingAssignment base_slot); settle f how a) (view [] y)
      = Done ((), view log y').
Proof.
  intros [I Hoc]%only_current_reachable Hid choice. set (s0 := Z.to_nat start) in *.
  destruct (close_run y id base_slot start [] I Hoc Hid)
    as (y1 & Ha & Hp & Hhs & Hst & Hlen & Hw & Hinto).
  set (stop := count (y_sys y)) in *. set (j := Z.to_nat (stop - start)) in *.
  destruct (work_tasks choice id _ _ start stop j s0 y1 Hw ltac:(lia))
    as (l1 & y2 & log & Hl1 & Hr1 & [I2 Hid2 _] & _ & Hall & Hb).
  replace (Z.of_nat (s0 + j)) with stop in Hid2 by lia.
  destruct (release_run y2 id _ _ start stop ([] ++ log) I2 Hid2)
    as (l2 & y3 & ws & Hl2 & Hr2 & Hgone & Hh3 & Hd).
  exists (l1 ++ l2), y3, (([] ++ log) ++ map Woken ws). split; [|split; [|split; [done|split]]].
  - apply Forall_app. split; (eapply Forall_impl; [done|]); auto.
  - erewrite perform_all_cons by done. by rewrite (perform_all_app _ _ _ _ Hr1).
  - intros n Hn. destruct (lookup_lt_is_Some_2 (sys_history (y_sys y)) n) as [c Hc];
      [unfold stop, count in Hn; lia|].
    destruct (sy_history _ _ I _ _ Hc) as (h & Hh & _). rewrite <- Hhs in Hh.
    destruct (Hall n h ltac:(lia) Hh) as (h' & Hh' & Hset & Htk & Hdec). rewrite Hhs in Hh.
    exists h, h'. split; [done|]. split; [by rewrite Hh3|]. split; [done|]. split; [done|].
    by rewrite (open_untouched f y id base_slot start n h I Hoc Hid Hn Hh).
  - run_with Hinto. replace start with (Z.of_nat s0) by lia.
    rewrite settle_run by lia. run_with (Hb []).
    unfold number_cell. replace (Z.of_nat s0) with start by lia. exact Hd.
Qed.
End batch.

(** * A batch with too few values

    Two futures of [Whole] in one open batch, an iterator with one value: the second task is
    passed by. *)
#[local] Existing Instance Whole.task_needs_drop.
#[local] Existing Instance Whole.value_needs_drop.
#[local] Existing Instance Whole.whole_cfg.

Definition open_moves : list (move Z nat Z) := poll_moves 0 0 3 ++ poll_moves 1 1 2.
Definition batch_open : system Z nat Z (list_deque Z) := Eval vm_compute in after_moves open_moves.

Lemma batch_open_reachable : system_reachable Z.to_nat batch_open.
Proof. apply (moves_reachable open_moves). by vm_compute. Qed.

Lemma settlements_are_moves_witness :
  let choice := choice_of (ByIter [7%nat]) 0 in
  ∃ l y' log,
    Forall (λ m, guard_moves choice 0 m ∨ release_moves 0 m) l
    ∧ perform_all Z.to_nat (Close 0 :: l) batch_open = Some y'
    ∧ sys_guards (y_sys y') !! 0%nat = None
    ∧ (∀ n, 0 ≤ Z.of_nat n < 2 → ∃ h h', y_handovers batch_open !! n = Some h
        ∧ y_handovers y' !! n = Some h' ∧ settled h' = true ∧ decided_by Z.to_nat choice n h h')
    ∧ (a ← into_assignment (mkPendingAssignment 0); resolve_with_iter [7%nat] a) (view [] batch_open)
      = Done ((), view log y').
Proof.
  exact (settlements_are_moves Z.to_nat (ByIter [7%nat]) 0 batch_open 0 0 batch_open_reachable eq_refl).
Defined.
