(* ===== verification/Threads.v ===== *)
(** A [TaskQueue] on an executor with any number of threads, as in the tests
    [it_has_drop_safety] and [it_negotiates_receiver_drop] of [queue.rs]: futures that are
    polled, and dropped before or after they were batched, and spawned jobs, every access of
    all of them interleaved.

    The futures are those whose first poll one worker thread makes, the owner of the queue;
    everything else happens on any thread. A [turn] is a timely move of [System] that the
    executor or the application comes to; with at most [N] futures every destructor is timely.
    Every handler maps its batch, after any pause. *)
From Stdlib Require Import Lexicographic_Product Relation_Operators.
From S2P Require Import Prelude Usize Helpers Deque Queue Protocol Schedule Exclusion Safety.
From S2P Require Import Ranges TaskRef Assignment Resolution Delivery Handover System Composition Whole Settlement.
Local Open Scope Z_scope.

(** * The program *)
Section program.
Context {C : QueueCfg} {T V D : Type} `{Deque nat D} `{NeedsDrop T, NeedsDrop V}.
Abbreviation system := (system T V nat D).
Abbreviation handover := (handover T V nat).
Implicit Types (y : system) (h : handover).
Variable (f : T → V).

(** The futures whose first poll is due, a waker being the address of its future; those the
    application has dropped. *)
Record run : Type := mkRun {
  p_system : system;
  p_ready : gset addr;
  p_aborted : gset addr
}.
Implicit Types s : run.

(** A future for each of [tasks], all to be polled. *)
Definition start (tasks : gmap addr T) : run :=
  mkRun (system_start (Unbatched <$> tasks)) (dom tasks) ∅.

(** What the handlers do with a task: [assignment.map]. *)
Definition handled (how : treatment V) : bool := match how with Map => true | _ => false end.

(** When the executor comes to a move that the program allows: it polls what is due, with the
    future's own waker; the jobs it has spawned map their tasks. *)
Definition due (m : move T V nat) s : bool :=
  match m with
  | Spawn _ _ => false
  | Begin a cx => bool_decide (a ∈ p_ready s) && (cx =? a)%nat
  | Treat _ how => handled how
  | Poll n cx => about_task n (p_system s) (λ h, cx =? tk_addr (h_ticket h))%nat
  | _ => true
  end.

(** The wakers that were woken by a release. *)
Definition woken_by y y' : list addr :=
  omap (λ o, match o with Woke a => Some a | Began _ => None end)
    (drop (length (sys_trace (y_sys y))) (sys_trace (y_sys y'))).

Definition ready_after (m : move T V nat) s y' : gset addr :=
  match m with
  | Begin a _ => p_ready s ∖ {[a]}
  | WakeUp _ => p_ready s ∪ list_to_set (woken_by (p_system s) y')
  | _ => p_ready s
  end.

(** The destructor of a future that still waits runs because the future was dropped. *)
Definition aborted_after (m : move T V nat) s : gset addr :=
  match m with
  | Abort a => {[a]} ∪ p_aborted s
  | Drop n =>
      match y_handovers (p_system s) !! n with
      | Some h => match h_owner h with
                  | Waiting => {[tk_addr (h_ticket h)]} ∪ p_aborted s
                  | _ => p_aborted s
                  end
      | None => p_aborted s
      end
  | _ => p_aborted s
  end.

Definition turn (m : move T V nat) s : option run :=
  if due m s && allowed m (p_system s) then
    match perform f m (p_system s) with
    | Done (_, y') => Some (mkRun y' (ready_after m s y') (aborted_after m s))
    | _ => None
    end
  else None.

Fixpoint turns (l : list (move T V nat)) s : option run :=
  match l with
  | [] => Some s
  | m :: l => match turn m s with Some s' => turns l s' | None => None end
  end.

(** A destructor that spins: it has seen the flag of a resolver. *)
Definition waits h : bool :=
  match h_owner h with
  | Spinning st => Z.land st SETTING_VALUE =? SETTING_VALUE
  | _ => false
  end.

(** The turn of a spin loop that sees the flag again. *)
Definition in_vain (m : move T V nat) s s' : bool :=
  match m with
  | Drop n => about_task n (p_system s) waits && about_task n (p_system s') waits
  | _ => false
  end.

Definition advances s s' : Prop := ∃ m, turn m s = Some s' ∧ in_vain m s s' = false.
Definition loops s s' : Prop := ∃ m, turn m s = Some s' ∧ in_vain m s s' = true.

Definition run_reachable (tasks : gmap addr T) s : Prop :=
  rtc (λ s s', ∃ m, turn m s = Some s') (start tasks) s.

(** Nobody has anything to do, unless it spins. *)
Definition at_rest s : Prop := ∀ s', ¬ advances s s'.

Lemma turns_reachable l tasks s s' :
  run_reachable tasks s → turns l s = Some s' → run_reachable tasks s'.
Proof.
  revert s. induction l as [|m l IH]; intros s Hs Hl; simpl in Hl; [by simplify_eq|].
  destruct (turn m s) as [s1|] eqn:Hm; [|done]. apply (IH s1); [|done].
  eapply rtc_r; [exact Hs|by exists m].
Qed.
End program.

(** * What holds in every state, and what every turn uses up *)
Section invariant.
Context {C : QueueCfg} {HS : SafeCfg} {T V D : Type} `{DequeLaws nat D} `{NeedsDrop T, NeedsDrop V}.
Abbreviation system := (system T V nat D).
Abbreviation handover := (handover T V nat).
Abbreviation run := (run (T := T) (V := V) (D := D)).
Implicit Types (y : system) (h : handover) (s : run) (tasks : gmap addr T).
Variable (f : T → V).

Abbreviation address h := (tk_addr (h_ticket h)).

(** The futures that were refused and wait for a waker. *)
Definition parked y : list addr :=
  deque_items (pending (sys_queue (y_sys y)))
    ++ match sys_pc (y_sys y) with Rejected a => [a] | _ => [] end.

(** The tasks that have a cell. *)
Definition counted y : nat := (length (sys_history (y_sys y)) + placed (sys_pc (y_sys y)))%nat.

(** Untouched, or with a value [map] has computed. *)
Definition ordinary (p : progress V) : bool :=
  match p with Untouched | Resolving true _ _ => true | _ => false end.

(** The future waits, or was polled to its end. *)
Definition polled_only (pc : owner_pc (V := V)) : bool :=
  match pc with Waiting | Leaving (Taken _) | Gone (Taken _) => true | _ => false end.

Definition awaited (ready : gset addr) y (a : addr) : Prop :=
  a ∈ ready ∨ in_flight a y = true ∨ a ∈ parked y.

Record run_inv tasks s : Prop := {
  ri_system : system_inv f (p_system s);
  ri_tasks : newcomers (p_system s) ⊆ tasks;
  ri_awaited : ∀ a t, newcomers (p_system s) !! a = Some t → awaited (p_ready s) (p_system s) a;
  ri_size : (counted (p_system s) + size (newcomers (p_system s)) ≤ size tasks)%nat;
  ri_handovers : ∀ n h, y_handovers (p_system s) !! n = Some h →
    tasks !! address h = Some (tk_task (h_ticket h)) ∧ ordinary (h_progress h) = true
    ∧ (polled_only (h_owner h) = true ∨ address h ∈ p_aborted s);
  ri_all : ∀ a t, tasks !! a = Some t →
    newcomers (p_system s) !! a = Some t ∨ a ∈ p_aborted s
    ∨ ∃ n h, y_handovers (p_system s) !! n = Some h ∧ address h = a;
  ri_cells : Z.of_nat (size tasks) ≤ N →
    ∀ n h, y_handovers (p_system s) !! n = Some h → owns (p_system s) h = true;
  ri_parked : Z.of_nat (size tasks) ≤ N → parked (p_system s) = []
}.

(** ** The work left

    A batch of [tot] tasks at most, then the wakers of a region, each of which may lead to a
    poll that is refused. *)
Definition wake_cost : nat := 4 * Z.to_nat region_size.

Definition guard_cost (tot : nat) (g : guard) : nat :=
  match g with
  | Unbounded _ _ => tot + wake_cost + 4
  | Bounded _ _ _ stop current => Z.to_nat (stop - current) + wake_cost + 3
  | Waking limit => 4 * Z.to_nat limit + 2
  end.

Definition pc_cost (tot : nat) (pc : Protocol.owner_pc (option (ticket T nat)) nat) : nat :=
  match pc with
  | Idle => 0
  | Checked _ _ | Rejected _ => 1
  | Written _ _ => tot + wake_cost + 7
  | Claimed _ _ => tot + wake_cost + 6
  | Occupying _ _ => tot + wake_cost + 5
  end.

Definition hand_cost h : nat :=
  (5 - done_for h)
  + match h_owner h with
    | Waiting => 4
    | Spinning _ => if waits h then 3 else 2
    | Leaving _ => 1
    | Gone _ => 0
    end.

Definition queue_cost (tot : nat) y (ready : gset addr) : nat :=
  pc_cost tot (sys_pc (y_sys y)) + map_sum (guard_cost tot) (sys_guards (y_sys y)) + 3 * size ready.

Definition cost (tot : nat) s : nat :=
  (tot + wake_cost + 20) * size (newcomers (p_system s))
  + map_sum hand_cost (y_handovers (p_system s))
  + queue_cost tot (p_system s) (p_ready s).

(** The retries the deque may still ask for come last. *)
Definition retries y : nat := contention (pending (sys_queue (y_sys y))).
Definition work (tot : nat) s : nat * nat := (cost tot s, retries (p_system s)).
Abbreviation less := (slexprod nat nat Nat.lt Nat.lt).

Lemma less_wf : well_founded less.
Proof. apply wf_slexprod; apply lt_wf. Qed.

Lemma less_fst x x' n n' : (x < x')%nat → less (x, n) (x', n').
Proof. apply left_slex. Qed.

Lemma less_add k x x' n n' : less (x, n) (x', n') → less (k + x, n)%nat (k + x', n')%nat.
Proof. inversion 1; subst; [apply left_slex; unfold Nat.lt in *; lia|by apply right_slex]. Qed.

Lemma less_weaken x x' z n n' :
  less (x', n) (z, n') → (x ≤ x')%nat → less (x, n) (z, n').
Proof.
  inversion 1; subst; intros Hle; [apply left_slex; unfold Nat.lt in *; lia|].
  destruct (decide (x = z)) as [->|]; [by apply right_slex|apply left_slex; unfold Nat.lt; lia].
Qed.

Definition good_turn tasks (m : move T V nat) s : Prop :=
  ∃ s', turn f m s = Some s' ∧ run_inv tasks s'
    ∧ if in_vain m s s' then work (size tasks) s' = work (size tasks) s
      else less (work (size tasks) s') (work (size tasks) s).

Lemma turn_done m s y' :
  due m s = true → allowed m (p_system s) = true → perform f m (p_system s) = Done ((), y') →
  turn f m s = Some (mkRun y' (ready_after m s y') (aborted_after m s)).
Proof. intros Hd Ha Hp. unfold turn. by rewrite Hd, Ha, Hp. Qed.

(** What a move of the queue has made of the state. *)
Ltac compute_move Hp :=
  let H := fresh "Hrun" in
  pose proof Hp as H; unfold perform, act in H; rewrite run_get in H; simpl in H;
  try unfold guard_action in H; simpl in H;
  try match goal with Hid : _ !! _ = _ |- _ => rewrite Hid in H end;
  injection H as <-.

(** ** The turns of the owner and of the guards *)
Lemma owns_same y y' h :
  buffer (inner (sys_queue (y_sys y'))) = buffer (inner (sys_queue (y_sys y))) →
  owns y' h = owns y h.
Proof. intros Hb. unfold owns, cell_at. by rewrite Hb. Qed.

(** The queue moves on; the tasks stay as they are. *)
Lemma queue_turn tasks m s y' ready' :
  run_inv tasks s → due m s = true → allowed m (p_system s) = true → entering m = false →
  perform f m (p_system s) = Done ((), y') → ready_after m s y' = ready' →
  aborted_after m s = p_aborted s → in_vain m s (mkRun y' ready' (p_aborted s)) = false →
  y_handovers y' = y_handovers (p_system s) → counted y' = counted (p_system s) →
  (∀ a, awaited (p_ready s) (p_system s) a → awaited ready' y' a) →
  (Z.of_nat (size tasks) ≤ N → parked (p_system s) = [] → parked y' = []) →
  less (queue_cost (size tasks) y' ready', retries y')
    (queue_cost (size tasks) (p_system s) (p_ready s), retries (p_system s)) →
  good_turn tasks m s.
Proof.
  intros [I Ht Hw Hs Hh Hall Hcell Hpk] Hd Ha Hm Hp Hr Hab Hv Hhs Hc Haw Hpk' Hless.
  destruct (perform_keeps f m _ I Ha Hm) as (y1 & Hp1 & I' & _ & Hn & Hb). rewrite Hp in Hp1.
  injection Hp1 as <-. exists (mkRun y' ready' (p_aborted s)).
  split; [rewrite (turn_done m s y' Hd Ha Hp); by rewrite Hr, Hab|]. rewrite Hv. split.
  - split; simpl; rewrite ?Hn, ?Hhs, ?Hc; eauto.
    intros HN n h Hnh. rewrite (owns_same (p_system s) y' h Hb). by eapply Hcell.
  - unfold work, cost. simpl. rewrite Hn, Hhs. by apply less_add.
Qed.

(** A due future is polled for the first time: it goes on to its cell, or is refused. *)
Lemma begin_turn tasks s a cx :
  run_inv tasks s → due (Begin a cx) s = true → allowed (Begin a cx) (p_system s) = true →
  good_turn tasks (Begin a cx) s.
Proof.
  intros I Hd Ha. pose proof Hd as [Hin%bool_decide_eq_true Hcx%Nat.eqb_eq]%andb_prop. subst cx.
  pose proof (ri_system _ _ I) as IS. destruct s as [[[q pc gs h tr] cs fs hs] ready ab].
  unfold allowed, timely, possible in Ha. simpl in *. destruct pc; try done.
  destruct (unbatched_future _ _ Ha) as [t Hfu]. simpl in Hfu.
  set (index := slot_index (sq_slot q)).
  assert (∀ pc' q', owner_action (Some (mkTicket (length h) t a a)) a 0 (mkSys q Idle gs h tr)
      = Some (mkSys q' pc' gs h tr) →
    perform f (Begin a a) (mkSystem (mkSys q Idle gs h tr) cs fs hs)
      = Done ((), mkSystem (mkSys q' pc' gs h tr) cs fs hs)) as Hperf.
  { intros pc' q' Hrun. unfold perform. rewrite run_get. simpl. rewrite Hfu. unfold act. simpl in *.
    by rewrite Hrun. }
  assert (size (ready ∖ {[a]}) + 1 = size ready)%nat as Hsz.
  { rewrite size_difference by set_solver. rewrite size_singleton.
    assert (size ready ≠ 0)%nat; [|lia]. intros Hz%size_empty_inv. set_solver. }
  destruct (check_write_index_total index q) as [[q' Hc]|[q' Hc]];
    destruct (check_write_index_frame _ _ _ _ Hc) as (_ & _ & Hpd);
    (eapply queue_turn; [exact I|exact Hd|exact Ha|done|apply Hperf; simpl; fold index; by rewrite Hc
      |done|done|done|done|done| | |]).
  all: try (apply less_fst; unfold queue_cost; simpl; lia).
  - intros b [Hb|[Hb|Hb]]; [|done|by right; right; unfold parked in *; simpl in *; rewrite Hpd].
    destruct (decide (b = a)) as [->|]; [right; left; apply Nat.eqb_refl|left; set_solver].
  - unfold parked. simpl. by rewrite Hpd.
  - intros b [Hb|[Hb|Hb]]; unfold awaited, parked in *; simpl in *; [|done|rewrite Hpd; set_solver].
    destruct (decide (b = a)) as [->|]; [right; right; set_solver|left; set_solver].
  - intros HN. exfalso. destruct (system_ranges _ _ IS) as [R E].
    destruct (first_lap_passes _ R E) as [q1 Hc1].
    + pose proof (ri_size _ _ I) as Hs. unfold counted in Hs. simpl in Hs. unfold count. simpl.
      set (y := mkSystem (mkSys q Idle gs h tr) cs fs hs) in *.
      assert (newcomers y !! a = Some t) as Hnew by by apply newcomers_lookup.
      assert (size (newcomers y) ≠ 0)%nat; [|lia].
      intros Hz%map_size_empty_inv. by rewrite Hz in Hnew.
    + destruct (inv_owner _ R) as (phase & _ & _ & lp & Hl & _).
      apply current_write_index_run in Hl. injection Hl as Hl. fold index in Hl.
      simpl in Hc1. rewrite <- Hl, Hc in Hc1. done.
Qed.

(** The counters are advanced, a batch begins, or the waker is parked. *)
Lemma publish_turn tasks s id :
  run_inv tasks s → allowed (Publish id) (p_system s) = true → good_turn tasks (Publish id) s.
Proof.
  intros I Ha. pose proof (ri_parked _ _ I) as Hnone. pose proof I as I0.
  destruct s as [[[q pc gs h tr] cs fs hs] ready ab]. pose proof Ha as Ha'.
  unfold allowed, timely, possible in Ha'. cbn [p_system y_sys sys_pc sys_guards sys_queue] in *.
  destruct pc as [|index c|index c|index b|index b|wk]; try done.
  - eapply queue_turn; [exact I0|done|exact Ha|done|unfold perform; rewrite run_get; reflexivity|done..| | | |].
    + unfold counted. simpl. rewrite length_app. simpl. lia.
    + intros a [Ho|[Ho|Ho]]; [by left|done|by right; right].
    + done.
    + apply less_fst. unfold queue_cost. simpl. lia.
  - eapply queue_turn; [exact I0|done|exact Ha|done|unfold perform; rewrite run_get; reflexivity|done..| | | |].
    + unfold counted. simpl. by destruct (_ =? _).
    + intros a [Ho|[Ho|Ho]]; [by left|done|right; right]. unfold parked in *. simpl in *.
      by destruct (_ =? _).
    + unfold parked. simpl. by destruct (_ =? _).
    + apply less_fst. unfold queue_cost. simpl. destruct (_ =? _); simpl; lia.
  - apply bool_decide_eq_true, eq_None_not_Some in Ha' as Hid.
    destruct (perform_inv f _ _ (ri_system _ _ I0) Ha) as (y1 & Hp & _). compute_move Hp.
    eapply queue_turn; [exact I0|done|exact Ha|done|exact Hp|done..| | |].
    + intros a [Ho|[Ho|Ho]]; [by left|done|by right; right].
    + done.
    + apply less_fst. unfold queue_cost. simpl. rewrite map_sum_new by done. simpl. lia.
  - eapply queue_turn; [exact I0|done|exact Ha|done|unfold perform; rewrite run_get; reflexivity|done..| | |].
    + intros a [Ho|[Ho|Ho]]; [by left|done|right; right]. unfold parked in *. simpl in *.
      by rewrite push_items, app_nil_r.
    + intros HN. specialize (Hnone HN). unfold parked in Hnone. by destruct (deque_items _).
    + apply less_fst. unfold queue_cost. simpl. lia.
Qed.

(** A batch is bounded: it has at most all the tasks. *)
Lemma close_turn tasks s id :
  run_inv tasks s → allowed (Close id) (p_system s) = true → good_turn tasks (Close id) s.
Proof.
  intros I Ha. pose proof (ri_size _ _ I) as Hs. pose proof I as I0.
  destruct (system_ranges _ _ (ri_system _ _ I)) as [R _].
  destruct s as [[[q pc gs h tr] cs fs hs] ready ab]. pose proof Ha as Ha'.
  unfold allowed, timely, possible in Ha'. cbn [p_system y_sys sys_pc sys_guards sys_queue] in *.
  destruct (gs !! id) as [[base start| |]|] eqn:Hid; try done.
  pose proof (inv_guards _ R _ _ Hid) as Hok. simpl in Hok.
  destruct (perform_inv f _ _ (ri_system _ _ I0) Ha) as (y1 & Hp & _). compute_move Hp.
  eapply queue_turn; [exact I0|done|exact Ha|done|exact Hp|done..| | |].
  - intros a [Ho|[Ho|Ho]]; [by left|by right; left|by right; right].
  - done.
  - apply less_fst. unfold queue_cost. simpl.
    set (g := Bounded _ _ _ _ _). pose proof (map_sum_replace (guard_cost (size tasks)) id _ g gs Hid) as Hm.
    unfold g in Hm. simpl in Hm. unfold counted in Hs. simpl in Hs. fold g in Hm |- *. lia.
Qed.

Lemma finish_turn tasks s id :
  run_inv tasks s → allowed (Finish id) (p_system s) = true → good_turn tasks (Finish id) s.
Proof.
  intros I Ha. pose proof I as I0.
  destruct s as [[[q pc gs h tr] cs fs hs] ready ab]. pose proof Ha as Ha'.
  unfold allowed, timely, possible in Ha'. cbn [p_system y_sys sys_pc sys_guards sys_queue] in *.
  destruct (gs !! id) as [[|rs re start stop current|]|] eqn:Hid; try done.
  destruct (perform_inv f _ _ (ri_system _ _ I0) Ha) as (y1 & Hp & _). compute_move Hp.
  eapply queue_turn; [exact I0|done|exact Ha|done|exact Hp|done..| | |].
  - intros a [Ho|[Ho|Ho]]; [by left|by right; left|by right; right].
  - done.
  - apply less_fst. unfold queue_cost. simpl.
    pose proof (map_sum_replace (guard_cost (size tasks)) id _ (Waking region_size) gs Hid) as Hm.
    pose proof (map_sum_delete (guard_cost (size tasks)) id _ gs Hid) as Hd.
    cbn [guard_cost] in Hm, Hd. unfold wake_cost in *. case_match; lia.
Qed.

(** A guard goes on to its next task. *)
Lemma next_turn tasks s id :
  run_inv tasks s → allowed (Next id) (p_system s) = true → good_turn tasks (Next id) s.
Proof.
  intros I Ha. pose proof I as I0. pose proof (ri_system _ _ I) as IS.
  destruct (about_current_task _ _ _ Ha) as (n & h0 & Hat & _).
  destruct (at_task_owns f _ id n IS Hat) as (h1 & rs & re & start & stop & _ & _ & Hid & Hlt & Hhist).
  destruct (perform_inv f _ _ IS Ha) as (y1 & Hp & _).
  destruct s as [[[q pc gs h tr] cs fs hs] ready ab]. cbn [p_system y_sys sys_pc sys_guards sys_history sys_queue] in *.
  pose proof Hp as Hp'.
  unfold perform, act in Hp'. rewrite run_get, Hat in Hp'. simpl in Hp'. rewrite Hhist in Hp'.
  unfold guard_action in Hp'. simpl in Hp'. rewrite Hid, (proj2 (Z.ltb_lt _ _) Hlt) in Hp'.
  destruct (write_cell _ _ q) as [[[] q']| |] eqn:Hw; [|done..]. injection Hp' as <-.
  apply write_cell_frame in Hw as [_ ->].
  eapply queue_turn; [exact I0|done|exact Ha|done|exact Hp|done..| | |].
  - intros a [Ho|[Ho|Ho]]; [by left|by right; left|by right; right].
  - done.
  - apply less_fst. unfold queue_cost. simpl. set (g := Bounded _ _ _ _ _).
    pose proof (map_sum_replace (guard_cost (size tasks)) id _ g gs Hid) as Hm.
    unfold g in Hm. simpl in Hm. fold g in Hm |- *. lia.
Qed.

(** What a look at the waker deque does: at most the wakers that were in it become due. *)
Lemma steal_turn tasks id q pc gs l tr cs fs hs ready ab q' gs' tr' :
  let s := mkRun (mkSystem (mkSys q pc gs l tr) cs fs hs) ready ab in
  run_inv tasks s → allowed (WakeUp id) (p_system s) = true →
  run_action (WakeNext id) (mkSys q pc gs l tr) = Some (mkSys q' pc gs' l (tr ++ tr')) →
  (∀ a, a ∈ deque_items (pending q) → a ∈ deque_items (pending q') ∨ Woke a ∈ tr') →
  (deque_items (pending q) = [] → deque_items (pending q') = []) →
  less (map_sum (guard_cost (size tasks)) gs' + 3 * length tr', contention (pending q'))%nat
    (map_sum (guard_cost (size tasks)) gs, contention (pending q)) →
  good_turn tasks (WakeUp id) s.
Proof.
  intros s I Ha Hrun Hkeep Hempty Hless.
  set (new := list_to_set (omap (λ o, match o with Woke a => Some a | Began _ => None end) tr') : gset addr).
  assert (size new ≤ length tr')%nat as Hnew by apply size_omap_le.
  eapply (queue_turn _ _ _ (mkSystem (mkSys q' pc gs' l (tr ++ tr')) cs fs hs) (ready ∪ new));
    [exact I|done|exact Ha|done| | |done..| | |].
  - unfold perform, act. rewrite run_get. cbn [s p_system y_sys]. by rewrite Hrun.
  - unfold ready_after, woken_by. simpl. by rewrite drop_app_length.
  - intros a [Ho|[Ho|Ho]]; [left; set_solver|by right; left|].
    unfold awaited, parked in *. simpl in *.
    apply elem_of_app in Ho as [[Ho|Ho]%Hkeep|Ho]; [set_solver| |set_solver].
    left. apply elem_of_union_r, elem_of_list_to_set, list_elem_of_omap. by exists (Woke a).
  - unfold parked. simpl. intros _ Hp. apply app_nil in Hp as [Hp1 ->]. by rewrite Hempty.
  - unfold queue_cost, retries. simpl. pose proof (size_union_le ready new).
    apply (less_add (pc_cost (size tasks) pc + 3 * size ready)) in Hless.
    replace (_ + _ + (size ready + _))%nat
      with (pc_cost (size tasks) pc + 3 * size ready + map_sum (guard_cost (size tasks)) gs)%nat by lia.
    eapply less_weaken; [exact Hless|lia].
Qed.

(** A waker is woken; or the deque is empty, or asks for another try. *)
Lemma wake_turn tasks s id :
  run_inv tasks s → allowed (WakeUp id) (p_system s) = true → good_turn tasks (WakeUp id) s.
Proof.
  intros I Ha. destruct (system_ranges _ _ (ri_system _ _ I)) as [R _].
  destruct s as [[[q pc gs h tr] cs fs hs] ready ab]. pose proof Ha as Ha'.
  unfold allowed, timely, possible in Ha'. cbn [p_system y_sys sys_pc sys_guards sys_queue] in *.
  destruct (gs !! id) as [[| |limit]|] eqn:Hid; try done.
  pose proof (inv_guards _ R _ _ Hid) as Hlim. simpl in Hlim.
  pose proof (map_sum_delete (guard_cost (size tasks)) id _ gs Hid) as Hd. cbn [guard_cost] in Hd.
  pose proof (map_sum_replace (guard_cost (size tasks)) id _ (Waking (limit - 1)) gs Hid) as Hm.
  cbn [guard_cost] in Hm.
  pose proof (λ q' gs' tr', steal_turn tasks id _ _ _ _ _ _ _ _ _ _ q' gs' tr' I Ha) as Hgood.
  simpl in Hgood. unfold guard_action in Hgood. simpl in Hgood. rewrite Hid in Hgood.
  pose proof (steal_items (pending q)) as Hst.
  destruct (Z.ltb_spec 0 limit) as [Hpos|Hpos].
  - destruct (stealer_steal (pending q)) as [[|wk|] d]; destruct Hst as [Hst1 Hst2].
    + eapply Hgood with (tr' := []);
        [rewrite app_nil_r; reflexivity|by rewrite Hst1; intros a ?%elem_of_nil|done|].
      apply less_fst. simpl. lia.
    + eapply Hgood with (tr' := [Woke wk]); [reflexivity| |by rewrite Hst1|].
      * rewrite Hst1. simpl. set_solver.
      * apply less_fst. simpl. lia.
    + eapply Hgood with (tr' := []);
        [rewrite app_nil_r; reflexivity|simpl; rewrite Hst1; by left|simpl; by rewrite Hst1|].
      simpl. rewrite Nat.add_0_r. by apply right_slex.
  - rewrite (proj2 (Z.eqb_eq limit 0)) in Hgood by lia.
    eapply Hgood with (tr' := []); [rewrite app_nil_r; reflexivity|by left|done|].
    apply less_fst. simpl. lia.
Qed.

(** ** The turns for one task *)
Lemma task_turn tasks m s n h h' y' :
  run_inv tasks s → due m s = true → allowed m (p_system s) = true → touching m = true →
  perform f m (p_system s) = Done ((), y') → ready_after m s y' = p_ready s →
  y_handovers (p_system s) !! n = Some h →
  y_handovers y' = <[n := h']> (y_handovers (p_system s)) → h_ticket h' = h_ticket h →
  ordinary (h_progress h') = true → p_aborted s ⊆ aborted_after m s →
  (polled_only (h_owner h) = true ∨ address h ∈ p_aborted s →
   polled_only (h_owner h') = true ∨ address h ∈ aborted_after m s) →
  (if in_vain m s (mkRun y' (p_ready s) (aborted_after m s)) then hand_cost h' = hand_cost h
   else (hand_cost h' < hand_cost h)%nat) →
  good_turn tasks m s.
Proof.
  intros [I Ht Hw Hs Hh Hall Hcell Hpk] Hd Ha Hm Hp Hr Hn Hhs Htk Hord Hab Hpo Hcost.
  destruct (perform_touches f m _ I Ha Hm) as (y1 & Hp1 & I' & Hy & Hnew). rewrite Hp in Hp1.
  injection Hp1 as <-. exists (mkRun y' (p_ready s) (aborted_after m s)).
  split; [rewrite (turn_done m s y' Hd Ha Hp); by rewrite Hr|].
  pose proof (map_sum_replace hand_cost n h h' _ Hn) as Hsum.
  split.
  - assert (counted y' = counted (p_system s) ∧ parked y' = parked (p_system s)) as [Hc Hpk']
      by (unfold counted, parked; by rewrite Hy).
    split; simpl; rewrite ?Hnew, ?Hhs, ?Hc, ?Hpk'; try done.
    + intros a t Hat. specialize (Hw a t Hat). unfold awaited, in_flight in *. by rewrite Hpk', Hy.
    + intros j k [[<- <-]|[_ Hk]]%lookup_insert_Some.
      * rewrite Htk. destruct (Hh n h Hn) as (? & _ & ?). split; [done|]. split; [done|auto].
      * destruct (Hh j k Hk) as (? & ? & [?|?]); split; [done| |done|]; (split; [done|auto]).
    + intros a t Hat. destruct (Hall a t Hat) as [?|[?|(j & k & Hk & <-)]]; [by left|right; left; auto|].
      right; right. destruct (decide (j = n)) as [->|Hne].
      * exists n, h'. split; [apply lookup_insert_eq|]. simplify_eq. by rewrite Htk.
      * exists j, k. by rewrite lookup_insert_ne.
    + intros HN j k [[<- <-]|[_ Hk]]%lookup_insert_Some;
        rewrite (owns_same (p_system s)) by (by rewrite Hy); [|by eapply Hcell].
      unfold owns. rewrite Htk. by apply (Hcell HN n h).
  - assert (retries y' = retries (p_system s)) as Hret by (unfold retries; by rewrite Hy).
    unfold work, cost, queue_cost. simpl. rewrite Hnew, Hhs, Hy, Hret.
    destruct (in_vain m s _); [f_equal; lia|]. apply less_fst. lia.
Qed.

Lemma treat_turn tasks s id how :
  run_inv tasks s → due (Treat id how) s = true → allowed (Treat id how) (p_system s) = true →
  good_turn tasks (Treat id how) s.
Proof.
  intros I Hd Ha. pose proof (ri_system _ _ I) as IS. destruct how; try done.
  destruct (about_current_task _ _ _ Ha) as (n & h & Hat & Hn & Hu).
  destruct (h_progress h) eqn:Hpr; try done.
  destruct (at_task_owns f _ id n IS Hat) as (h1 & _ & _ & _ & _ & Hn1 & Ho & _).
  rewrite Hn in Hn1. injection Hn1 as <-.
  destruct (perform_inv f _ _ IS Ha) as (y' & Hp & _). pose proof Hp as Hp'.
  unfold perform, for_current in Hp'. rewrite !run_get, Hat in Hp'.
  apply for_task_done in Hp' as (h1 & pr & opc & w & Hn1 & Hm & ->).
  rewrite Hn in Hn1. injection Hn1 as <-.
  rewrite (proj1 (treat_task_run f Map _ h (sy_handover _ _ IS _ _ Hn) Ho Hpr)) in Hm.
  injection Hm as <- <- <-.
  eapply task_turn; [exact I|done|exact Ha|done|exact Hp|done|exact Hn|done|done|done|done|auto|].
  unfold hand_cost, done_for, waits. simpl. rewrite Hpr. simpl. lia.
Qed.

Lemma resolve_turn tasks s id :
  run_inv tasks s → allowed (Resolve id) (p_system s) = true → good_turn tasks (Resolve id) s.
Proof.
  intros I Ha. pose proof (ri_system _ _ I) as IS.
  destruct (about_current_task _ _ _ Ha) as (n & h & Hat & Hn & Hu).
  destruct (ri_handovers _ _ I n h Hn) as (_ & Hord & _).
  destruct (h_progress h) as [|b v pc|] eqn:Hpr; try done.
  destruct (perform_inv f _ _ IS Ha) as (y' & Hp & _). pose proof Hp as Hp'.
  unfold perform, for_current in Hp'. rewrite !run_get, Hat in Hp'.
  apply for_task_done in Hp' as (h1 & pr & opc & w & Hn1 & Hm & ->).
  rewrite Hn in Hn1. injection Hn1 as <-.
  unfold resolve_task in Hm. rewrite Hpr in Hm. inv_run Hm. injection Hm as <- <- <-.
  eapply task_turn; [exact I|done|exact Ha|done|exact Hp|done|exact Hn|done|done|done|done|auto|].
  assert (∀ d, pc ≠ RDone d) as Hnd by (intros d ->; unfold resolved in Hu; by rewrite Hpr in Hu).
  pose proof (resolver_step_rank _ _ _ _ _ _ Hrun Hnd) as Hlt.
  unfold hand_cost, done_for, waits. simpl. rewrite Hpr. simpl.
  match goal with |- context [rank ?p] => pose proof (rank_le p) end. lia.
Qed.

Lemma poll_turn tasks s n cx :
  run_inv tasks s → due (Poll n cx) s = true → allowed (Poll n cx) (p_system s) = true →
  good_turn tasks (Poll n cx) s.
Proof.
  intros I Hd Ha. pose proof (ri_system _ _ I) as IS.
  pose proof Ha as Ha'. rewrite allowed_poll in Ha. unfold about_task in Ha.
  destruct (_ !! n) as [h|] eqn:Hn in Ha; [|done]. destruct (h_owner h) eqn:How; try done.
  destruct (perform_inv f _ _ IS Ha') as (y' & Hp & _). pose proof Hp as Hp'.
  unfold perform in Hp'. rewrite run_get in Hp'.
  apply for_task_done in Hp' as (h1 & pr & opc & w & Hn1 & Hm & ->).
  rewrite Hn in Hn1. injection Hn1 as <-.
  destruct (woken_poll f _ h cx (sy_handover _ _ IS _ _ Hn) How Ha) as [_ Hpoll].
  unfold poll_future in Hm. rewrite (run_bind _ _ _ _ _ Hpoll) in Hm. injection Hm as <- <- <-.
  destruct (ri_handovers _ _ I n h Hn) as (_ & Hord & _).
  eapply task_turn; [exact I|exact Hd|exact Ha'|done|exact Hp|done|exact Hn|done|done|done|done|by left|].
  unfold hand_cost, done_for. simpl. rewrite How. lia.
Qed.

(** What a destructor does next. *)
Lemma owner_step_cases i a (w w' : world (TaskRef T) D (futures T V nat) (event nat (T + V) Z)) opc opc' :
  owner_step i a opc w = Done (opc', w') →
  match opc with
  | Waiting => ∃ st, opc' = Spinning st
  | Spinning st =>
      if Z.land st SETTING_VALUE =? SETTING_VALUE then ∃ st', opc' = Spinning st'
      else ∃ b, opc' = Leaving (Discarded b)
  | Leaving fate | Gone fate => opc' = Gone fate
  end.
Proof.
  destruct opc as [|st|fate|fate]; simpl; intros Hs.
  - inv_run Hs. injection Hs as <- <-. eauto.
  - destruct (_ =? _); inv_run Hs; [injection Hs as <- <-; eauto|].
    destruct a0; try done. inv_run Hs. injection Hs as <- <-. eauto.
  - inv_run Hs. by injection Hs as <- <-.
  - by injection Hs as <- <-.
Qed.

Lemma drop_turn tasks s n :
  run_inv tasks s → allowed (Drop n) (p_system s) = true → good_turn tasks (Drop n) s.
Proof.
  intros I Ha. pose proof (ri_system _ _ I) as IS.
  destruct (perform_inv f _ _ IS Ha) as (y' & Hp & _). pose proof Hp as Hp'.
  unfold perform in Hp'. rewrite run_get in Hp'.
  apply for_task_done in Hp' as (h & pr & opc & w & Hn & Hm & ->).
  unfold drop_future in Hm. inv_run Hm. injection Hm as <- <- <-. apply owner_step_cases in Hrun.
  destruct (ri_handovers _ _ I n h Hn) as (_ & Hord & _).
  pose proof Ha as Ha'. rewrite allowed_drop in Ha. unfold about_task in Ha. rewrite Hn in Ha.
  eapply task_turn; [exact I|done|exact Ha'|done|exact Hp|done|exact Hn|done|done|done| | |].
  - simpl. rewrite Hn. destruct (h_owner h); set_solver.
  - simpl. rewrite Hn. destruct (h_owner h) as [|st|fate|fate].
    + intros _. right. set_solver.
    + intros [?|?]; [done|by right].
    + subst. intros [?|?]; [by left|by right].
    + done.
  - unfold in_vain, about_task, hand_cost, done_for, waits. simpl. rewrite Hn, lookup_insert_eq. simpl.
    destruct (h_owner h) as [|st|fate|fate]; simpl; try done.
    + destruct Hrun as [st ->]. simpl. destruct (_ =? _); lia.
    + destruct (_ =? _); destruct Hrun as [x ->]; simpl; [|lia]. destruct (_ =? _); lia.
    + subst. simpl. lia.
Qed.

(** ** The turns by which a task comes or goes *)
Lemma newcomers_fewer y a t :
  newcomers y !! a = Some t → size (newcomers y) = S (size (delete a (newcomers y))).
Proof.
  intros Ha. rewrite <- (fin_maps.insert_delete_id _ _ _ Ha) at 1.
  apply map_size_insert_None, fin_maps.lookup_delete_eq.
Qed.

Lemma abort_turn tasks s a :
  run_inv tasks s → allowed (Abort a) (p_system s) = true → good_turn tasks (Abort a) s.
Proof.
  intros I Ha. pose proof Ha as Hb.
  change (allowed (Abort a) (p_system s))
    with (unbatched a (p_system s) && negb (in_flight a (p_system s))) in Hb.
  apply andb_prop in Hb as [[t Ht]%unbatched_future Hfl].
  destruct (perform_inv f _ _ (ri_system _ _ I) Ha) as (y1 & Hp & I').
  pose proof (perform_abort f _ a t Ht) as Hp1. rewrite Hp in Hp1. injection Hp1 as ->.
  destruct I as [IS Htk Hw Hs Hh Hall Hcell Hpk].
  set (y' := set_futures (delete a (y_futures (p_system s))) (p_system s)) in *.
  assert (newcomers y' = delete a (newcomers (p_system s))) as Hnew by apply omap_delete.
  apply newcomers_lookup in Ht as Hat. pose proof (newcomers_fewer _ _ _ Hat) as Hfew.
  eexists. split; [by apply (turn_done (Abort a) s y')|]. split.
  - split; cbn [p_system p_ready p_aborted ready_after aborted_after]; rewrite ?Hnew.
    + done.
    + etransitivity; [apply delete_subseteq|done].
    + intros b u [_ Hb]%lookup_delete_Some. by apply (Hw b u).
    + change (counted y') with (counted (p_system s)). lia.
    + intros n h Hn. destruct (Hh n h Hn) as (? & ? & [?|?]); (do 2 (split; [done|])); [by left|right; set_solver].
    + intros b u Hb. destruct (decide (a = b)) as [<-|Hne]; [right; left; set_solver|].
      destruct (Hall b u Hb) as [?|[?|?]]; [left|right; left; set_solver|by right; right].
      by rewrite lookup_delete_ne.
    + done.
    + done.
  - apply less_fst. unfold cost. simpl. rewrite Hnew, Hfew.
    change (queue_cost (size tasks) y' (p_ready s)) with (queue_cost (size tasks) (p_system s) (p_ready s)).
    rewrite Nat.mul_succ_r. set (k := (_ * _)%nat). lia.
Qed.

Lemma placed_newcomers y index tk :
  newcomers (placed_task index tk y) = delete (tk_addr tk) (newcomers y).
Proof.
  apply map_eq. intros b. apply option_eq. intros u. rewrite newcomers_lookup. simpl.
  destruct (decide (tk_addr tk = b)) as [<-|Hne].
  - by rewrite fin_maps.lookup_insert_eq, fin_maps.lookup_delete_eq.
  - rewrite fin_maps.lookup_insert_ne, fin_maps.lookup_delete_ne by done. by rewrite newcomers_lookup.
Qed.

(** On the first lap a task is placed into a cell nobody has had. *)
Lemma placed_keeps_cells y index tk n h :
  system_inv f y → sys_pc (y_sys y) = Checked index (Some tk) → count (y_sys y) < N →
  y_handovers (placed_task index tk y) !! n = Some h →
  (∀ k, y_handovers y !! n = Some k → owns y k = true) →
  owns (placed_task index tk y) h = true.
Proof.
  intros I Hpc HN Hh Ho. destruct (checked_facts f _ _ _ I Hpc) as (? & [= <-] & Hnum & _ & Hidx & _).
  simpl in Hh. apply lookup_insert_Some in Hh as [[<- <-]|[_ Hk]].
  - pose proof (ho_cell _ _ _ (placed_new f _ index tk I Hpc)) as Hc. by destruct (owns _ _).
  - specialize (Ho h Hk). destruct (sy_numbers _ _ I n h Hk) as [Hkn Hlt].
    rewrite Hpc in Hlt. simpl in Hlt. unfold count in *. revert Ho. unfold owns, cell_at. simpl.
    rewrite Hkn, list_lookup_insert_ne; [done|]. rewrite Hidx, !Z.mod_small by lia. lia.
Qed.

(** A task is written into its cell. *)
Lemma place_turn tasks s :
  run_inv tasks s → allowed Place (p_system s) = true → good_turn tasks Place s.
Proof.
  intros I Ha. pose proof (ri_system _ _ I) as IS.
  assert (∃ index c, sys_pc (y_sys (p_system s)) = Checked index c) as (index & c & Hpc)
    by (unfold allowed, timely, possible in Ha; destruct (sys_pc _); try done; eauto).
  destruct (checked_facts f _ _ _ IS Hpc) as (tk & -> & Hnum & Hfut & Hidx & Hir & Hlen).
  pose proof (perform_place f _ index tk IS Hpc) as Hp.
  pose proof (placed_task_inv f _ index tk IS Hpc) as I'.
  pose proof (λ n k, placed_others f _ index tk n k IS Hpc) as Hold.
  pose proof (λ n k, placed_keeps_cells _ index tk n k IS Hpc) as Hown.
  pose proof (placed_newcomers (p_system s) index tk) as Hnew.
  set (y' := placed_task index tk (p_system s)) in *.
  apply newcomers_lookup in Hfut as Hat. pose proof (newcomers_fewer _ _ _ Hat) as Hfew.
  destruct I as [_ Htk Hw Hs Hh Hall Hcell Hpk].
  assert (y_handovers (p_system s) !! tk_number tk = None) as Hfree.
  { destruct (_ !! tk_number tk) as [k|] eqn:Hk; [|done]. by destruct (Hold _ k Hk) as (_ & [] & _). }
  set (k0 := mkHandover tk Untouched Waiting [] : handover).
  assert (y_handovers y' = <[tk_number tk := k0]> (y_handovers (p_system s))) as Hhs by done.
  assert (counted y' = S (counted (p_system s))) as Hcnt
    by (unfold counted; simpl; rewrite Hpc; simpl; lia).
  eexists. split; [by apply (turn_done Place s y')|]. split.
  - split; cbn [p_system p_ready p_aborted ready_after aborted_after]; rewrite ?Hnew, ?Hhs, ?Hcnt.
    + done.
    + etransitivity; [apply delete_subseteq|done].
    + intros b u [Hne Hb]%lookup_delete_Some. destruct (Hw b u Hb) as [?|[Hi|Hi]]; [by left| |].
      * unfold in_flight in Hi. rewrite Hpc in Hi. by apply Nat.eqb_eq in Hi.
      * right; right. revert Hi. unfold parked. rewrite Hpc. done.
    + lia.
    + intros n k [[<- <-]|[_ Hk]]%lookup_insert_Some; [|by apply (Hh n)].
      split; [by apply (lookup_weaken _ _ _ _ Hat)|]. split; [done|by left].
    + intros b u Hb. destruct (Hall b u Hb) as [Hn|[?|(n & k & Hk & <-)]]; [|by right; left|].
      * destruct (decide (tk_addr tk = b)) as [<-|Hne]; [|left; by rewrite lookup_delete_ne].
        right; right. exists (tk_number tk), k0. split; [apply lookup_insert_eq|done].
      * right; right. exists n, k. split; [|done]. apply lookup_insert_Some. right. split; [|done].
        by apply not_eq_sym, (Hold n k Hk).
    + intros HN n k Hk. rewrite <- Hhs in Hk. apply (Hown n k); [unfold counted, count in *; lia|done|by apply Hcell].
    + intros HN. specialize (Hpk HN). revert Hpk. unfold parked. rewrite Hpc. done.
  - apply less_fst. unfold cost, queue_cost. cbn [p_system p_ready ready_after].
    rewrite Hnew, Hfew, Hhs, map_sum_new by done. rewrite Hpc. simpl.
    change (hand_cost k0) with 9%nat. simpl. rewrite Nat.mul_succ_r. set (k := (_ * _)%nat). lia.
Qed.

(** Every turn that is due and allowed is taken, and uses something up unless it is one of a
    spin loop. *)
Lemma every_due_turn_good tasks s m :
  run_inv tasks s → due m s = true → allowed m (p_system s) = true → good_turn tasks m s.
Proof.
  intros I Hd Ha. destruct m; [done|by apply abort_turn|by apply begin_turn|by apply place_turn
    |by apply publish_turn|by apply close_turn|by apply treat_turn|by apply resolve_turn
    |by apply next_turn|by apply finish_turn|by apply wake_turn|by apply drop_turn|by apply poll_turn].
Qed.

Lemma turn_taken tasks s m s' :
  run_inv tasks s → turn f m s = Some s' →
  run_inv tasks s'
    ∧ if in_vain m s s' then work (size tasks) s' = work (size tasks) s
      else less (work (size tasks) s') (work (size tasks) s).
Proof.
  intros I Ht. destruct (due m s && allowed m (p_system s)) eqn:Hda.
  - apply andb_prop in Hda as [Hd Ha].
    destruct (every_due_turn_good tasks s m I Hd Ha) as (s1 & Hs1 & I1 & Hw).
    rewrite Ht in Hs1. by injection Hs1 as <-.
  - unfold turn in Ht. by rewrite Hda in Ht.
Qed.

Lemma start_run_inv tasks : run_inv tasks (start tasks).
Proof.
  assert (newcomers (p_system (start tasks : run)) = tasks) as Hn.
  { apply map_eq. intros a. apply option_eq. intros t. rewrite newcomers_lookup. simpl.
    rewrite lookup_fmap. destruct (tasks !! a); simpl; naive_solver. }
  simpl in Hn. split; simpl; rewrite ?Hn; try done.
  - split; simpl; try done; [apply rtc_refl|by rewrite length_replicate].
  - intros a t Ha. left. by apply elem_of_dom.
  - intros a t Ha. by left.
  - intros _. unfold parked. simpl. by rewrite new_fifo_items.
Qed.

Lemma run_inv_reachable tasks s : run_reachable f tasks s → run_inv tasks s.
Proof.
  intros Hr. eapply (rtc_invariant _ (run_inv tasks)); [|apply start_run_inv|exact Hr].
  intros s1 s2 [m Hm] I. by apply (turn_taken tasks s1 m s2 I Hm).
Qed.
End invariant.

(** * Every run ends, and how *)
Section ends.
Context {C : QueueCfg} {HS : SafeCfg} {T V D : Type} `{DequeLaws nat D} `{NeedsDrop T, NeedsDrop V}.
Abbreviation run := (run (T := T) (V := V) (D := D)).
Abbreviation handover := (handover T V nat).
Implicit Types (s : run) (h : handover) (tasks : gmap addr T).
Variable (f : T → V).

Lemma loops_keep tasks s s' :
  run_inv f tasks s → rtc (loops f) s s' →
  run_inv f tasks s' ∧ work (size tasks) s' = work (size tasks) s.
Proof.
  intros I Hr. revert I. induction Hr as [s|s s1 s2 (m & Hm & Hv) _ IH]; intros I; [done|].
  destruct (turn_taken f tasks s m s1 I Hm) as [I1 Hw]. rewrite Hv in Hw.
  destruct (IH I1) as [I2 Hw2]. split; [done|congruence].
Qed.

(** C11. Every run ends: however the threads interleave and whatever the application drops, no
    run makes endlessly many turns other than those of a spin loop that sees the flag again. *)
Theorem runs_end tasks s :
  run_reachable f tasks s → sn (λ s s', ∃ s1, rtc (loops f) s s1 ∧ advances f s1 s') s.
Proof.
  intros Hr%run_inv_reachable.
  apply (sn_by_order _ (slexprod nat nat Nat.lt Nat.lt)
    (λ n s, run_inv f tasks s ∧ work (size tasks) s = n)) with (work (size tasks) s).
  - apply less_wf.
  - intros n s1 s3 [I1 <-] (s2 & Hl & m & Hm & Hv).
    destruct (loops_keep tasks s1 s2 I1 Hl) as [I2 Hw2].
    destruct (turn_taken f tasks s2 m s3 I2 Hm) as [I3 Hw3]. rewrite Hv, Hw2 in Hw3. eauto.
  - done.
Qed.

(** At rest a turn that may be taken is one of a spin loop. *)
Lemma rest_in_vain tasks s m :
  run_inv f tasks s → at_rest f s → due m s = true → allowed m (p_system s) = true →
  ∃ s', turn f m s = Some s' ∧ in_vain m s s' = true.
Proof.
  intros I Hrest Hd Ha. destruct (every_due_turn_good f tasks s m I Hd Ha) as (s' & Ht & _).
  exists s'. split; [done|]. destruct (in_vain m s s') eqn:Hv; [done|]. exfalso.
  apply (Hrest s'). by exists m.
Qed.

Lemma rest_idle tasks s :
  run_inv f tasks s → at_rest f s →
  sys_pc (y_sys (p_system s)) = Idle ∧ sys_guards (y_sys (p_system s)) = ∅.
Proof.
  intros I Hrest. pose proof (λ m, rest_in_vain tasks s m I Hrest) as Hno.
  pose proof (ri_system _ _ _ I) as IS. split.
  - set (id := base.fresh (dom (sys_guards (y_sys (p_system s))))).
    assert (bool_decide (¬ is_Some (sys_guards (y_sys (p_system s)) !! id)) = true) as Hid
      by (apply bool_decide_eq_true; rewrite <- elem_of_dom; apply is_fresh).
    destruct (sys_pc (y_sys (p_system s))) eqn:Hpc; [done|exfalso..].
    1: destruct (Hno Place) as (? & _ & ?); [done|unfold allowed, timely, possible; by rewrite Hpc|done].
    all: destruct (Hno (Publish id)) as (? & _ & ?); [done|unfold allowed, timely, possible; by rewrite Hpc|done].
  - apply map_empty. intros id. destruct (_ !! id) as [g|] eqn:Hid; [exfalso|done].
    destruct g as [b st|rs re st sp cur|limit].
    + destruct (Hno (Close id)) as (? & _ & ?); [done|unfold allowed, timely, possible; by rewrite Hid|done].
    + destruct (system_ranges _ _ IS) as [R _]. pose proof (inv_guards _ R _ _ Hid) as Hok. simpl in Hok.
      destruct (decide (cur < sp)) as [Hlt|Hge].
      * destruct (guard_step f (λ _, Map) id _ _ _ _ _ _ IS Hid Hlt) as (m & _ & _ & Hm & Ha & _).
        destruct (Hno m) as (? & _ & Hv); [by destruct Hm as [->|[->|[? ->]]]|done|].
        by destruct Hm as [->|[->|[? ->]]].
      * destruct (Hno (Finish id)) as (? & _ & ?); [done| |done].
        unfold allowed, timely, possible. rewrite Hid. apply Z.eqb_eq. lia.
    + destruct (Hno (WakeUp id)) as (? & _ & ?); [done|unfold allowed, timely, possible; by rewrite Hid|done].
Qed.

Lemma rest_resolved tasks s n h :
  run_inv f tasks s → at_rest f s → y_handovers (p_system s) !! n = Some h → resolved h = true.
Proof.
  intros I Hrest Hn. pose proof (ri_system _ _ _ I) as IS.
  destruct (rest_idle tasks s I Hrest) as [Hpc Hgs]. destruct (settled h) eqn:Hs.
  - destruct (ri_handovers _ _ _ I n h Hn) as (_ & Hord & _). unfold settled in Hs.
    by destruct (h_progress h) as [|[]|].
  - exfalso. destruct (sy_numbers _ _ IS n h Hn) as [_ Hlt]. rewrite Hpc in Hlt. simpl in Hlt.
    destruct (sy_pending _ _ IS n h Hn Hs) as [(id & g & _ & _ & Hg & _)|Hb]; [lia| |].
    + rewrite Hgs in Hg. by apply lookup_empty_Some in Hg.
    + unfold begun in Hb. by rewrite Hpc in Hb.
Qed.

(** A destructor that spins although the value was handed over reads the flags again and leaves. *)
Lemma spinning_reloads y n h y' :
  system_inv f y → y_handovers y !! n = Some h → resolved h = true → owns y h = true →
  waits h = true → perform f (Drop n) y = Done ((), y') → about_task n y' waits = false.
Proof.
  intros I Hn Hr Ho Hw Hp. pose proof (sy_handover _ _ I n h Hn) as Hok.
  unfold waits in Hw. destruct (h_owner h) as [|st|fate|fate] eqn:How; try done.
  apply Z.eqb_eq in Hw. unfold perform in Hp. rewrite run_get in Hp.
  apply for_task_done in Hp as (h1 & pr & opc & w & Hn1 & Hm & ->).
  rewrite Hn in Hn1. injection Hn1 as <-.
  assert (stage h = RDone true) as Hst.
  { pose proof (ho_pair _ _ _ Hok) as Hpair. rewrite How in Hpair. unfold resolved, stage in *.
    destruct (h_progress h) as [|b v [| | | | |[]]|]; try done. simpl in Hpair. by subst. }
  pose proof (handover_is_race _ _ _ Hok Ho) as Hrace.
  unfold race_of in Hrace. rewrite Hst, How in Hrace. pose proof (cell_of_pos h) as [Hpos _].
  pose proof (owner_reloads _ _ _ _ _ _ _ _ Hpos Hrace Hw) as Hs.
  apply (on_task_log f _ _ _ _ _ Hok (adds_owner _ _ _)) in Hs.
  unfold drop_future in Hm. rewrite How in Hm. rewrite (run_bind _ _ _ _ _ Hs) in Hm.
  injection Hm as <- <- <-. unfold about_task. simpl. by rewrite lookup_insert_eq.
Qed.

(** At rest a future is gone, or its destructor has come too late. *)
Lemma rest_owner tasks s n h :
  run_inv f tasks s → at_rest f s → y_handovers (p_system s) !! n = Some h →
  (∃ fate, h_owner h = Gone fate) ∨ (∃ st, h_owner h = Spinning st) ∧ owns (p_system s) h = false.
Proof.
  intros I Hrest Hn. pose proof (rest_resolved tasks s n h I Hrest Hn) as Hr.
  pose proof (ri_system _ _ _ I) as IS. pose proof (sy_handover _ _ IS n h Hn) as Hok.
  pose proof (λ m, rest_in_vain tasks s m I Hrest) as Hno.
  destruct (h_owner h) as [|st|fate|fate] eqn:How.
  - exfalso. destruct (Hno (Poll n (tk_addr (h_ticket h)))) as (? & _ & ?); [| |done].
    + simpl. unfold about_task. by rewrite Hn, Nat.eqb_refl.
    + rewrite allowed_poll. unfold about_task. rewrite Hn, How. unfold was_woken.
      rewrite (ho_log _ _ _ Hok), existsb_app. pose proof (ho_pair _ _ _ Hok) as Hpair.
      unfold race_trace, race_of, resolved, stage in *. rewrite How in *.
      destruct (h_progress h) as [|b v [| | | | |[]]|]; try done. simpl. by rewrite orb_true_r.
  - destruct (owns (p_system s) h) eqn:Ho; [exfalso|by right; split; [eexists|]].
    destruct (Hno (Drop n)) as (s' & Ht & Hv);
      [done|rewrite allowed_drop; unfold about_task; by rewrite Hn, How|].
    unfold in_vain in Hv. apply andb_prop in Hv as [Hw Hw']. unfold about_task in Hw. rewrite Hn in Hw.
    unfold turn in Ht. destruct (_ && _); [|done].
    destruct (perform f (Drop n) (p_system s)) as [[[] y']| |] eqn:Hp; [|done..]. injection Ht as <-.
    simpl in Hw'. by rewrite (spinning_reloads _ n h y' IS Hn Hr Ho Hw Hp) in Hw'.
  - exfalso. destruct (Hno (Drop n)) as (? & _ & Hv);
      [done|rewrite allowed_drop; unfold about_task; by rewrite Hn, How|].
    unfold in_vain, about_task, waits in Hv. by rewrite Hn, How in Hv.
  - left. by eexists.
Qed.

(** C10. The executor polls a future again only when its waker was woken. With at most [N]
    futures no destructor ever comes too late, so the runs considered
    leave out nothing that dropped futures may do. How a run ends: the owner is idle, no batch
    is live, every task in the queue is resolved, and every future that was not dropped has
    returned what [map] made of its own task; with no more than [N] futures that is all, every
    future is gone. With more of them the runs are those in which no destructor comes after
    the cell of its task was given to a later task; then a future can also be left with its
    waker parked, and the futures whose destructors came too late stay as they are. *)
Theorem runs_rest tasks s :
  run_reachable f tasks s →
  (Z.of_nat (size tasks) ≤ N → ∀ n,
     possible (Drop n) (p_system s) = true → timely (Drop n) (p_system s) = true)
  ∧ (at_rest f s →
  sys_pc (y_sys (p_system s)) = Idle ∧ sys_guards (y_sys (p_system s)) = ∅
  ∧ (∀ n h, y_handovers (p_system s) !! n = Some h → resolved h = true
      ∧ ((∃ fate, h_owner h = Gone fate)
         ∨ N < Z.of_nat (size tasks) ∧ tk_addr (h_ticket h) ∈ p_aborted s
           ∧ owns (p_system s) h = false))
  ∧ ∀ a t, tasks !! a = Some t →
      a ∈ p_aborted s
      ∨ (∃ n h, y_handovers (p_system s) !! n = Some h ∧ tk_addr (h_ticket h) = a
          ∧ h_owner h = Gone (Taken (f t)))
      ∨ N < Z.of_nat (size tasks) ∧ y_futures (p_system s) !! a = Some (Unbatched t)
        ∧ a ∈ deque_items (pending (sys_queue (y_sys (p_system s))))).
Proof.
  intros I%run_inv_reachable. split.
  { intros HN n Hp. simpl in *. unfold about_task in *.
    destruct (y_handovers (p_system s) !! n) as [h|] eqn:Hn; [|done].
    pose proof (ri_cells _ _ _ I HN n h Hn) as Ho. by destruct (h_owner h). }
  intros Hrest. pose proof (ri_system _ _ _ I) as IS.
  destruct (rest_idle tasks s I Hrest) as [Hpc Hgs]. do 2 (split; [done|]).
  pose proof (λ n h, rest_owner tasks s n h I Hrest) as Hgone.
  split; [|intros a t Hat; destruct (ri_all _ _ _ I a t Hat) as [Hn|[?|(n & h & Hn & <-)]]; [|by left|]].
  - intros n h Hn. split; [by eapply rest_resolved|].
    destruct (ri_handovers _ _ _ I n h Hn) as (_ & _ & Hpo).
    destruct (Hgone n h Hn) as [?|[[st How] Ho]]; [by left|right].
    destruct (decide (Z.of_nat (size tasks) ≤ N)) as [HN|HN].
    + by rewrite (ri_cells _ _ _ I HN n h Hn) in Ho.
    + rewrite How in Hpo. destruct Hpo as [?|?]; [done|]. split; [lia|done].
  - right; right. apply newcomers_lookup in Hn as Hfut.
    destruct (ri_awaited _ _ _ I a t Hn) as [Hrd|[Hi|Hp]].
    + exfalso. destruct (rest_in_vain tasks s (Begin a a) I Hrest) as (? & _ & ?); [| |done].
      * simpl. by rewrite bool_decide_eq_true_2, Nat.eqb_refl.
      * unfold allowed, timely, possible, unbatched. by rewrite Hpc, Hfut.
    + unfold in_flight in Hi. by rewrite Hpc in Hi.
    + destruct (decide (Z.of_nat (size tasks) ≤ N)) as [HN|HN].
      * rewrite (ri_parked _ _ _ I HN) in Hp. by apply elem_of_nil in Hp.
      * unfold parked in Hp. rewrite Hpc, app_nil_r in Hp. split; [lia|done].
  - destruct (ri_handovers _ _ _ I n h Hn) as (Htk & Hord & [Hpo|?]); [|by left].
    rewrite Hat in Htk. injection Htk as ->. right; left. exists n, h. do 2 (split; [done|]).
    destruct (Hgone n h Hn) as [[fate How]|[[st How] _]]; rewrite How in Hpo; [|done].
    destruct fate as [v|]; [|done]. rewrite How. do 2 f_equal.
    pose proof (sy_handover _ _ IS n h Hn) as Hok. pose proof (ho_pair _ _ _ Hok) as Hpair.
    pose proof (ho_value _ _ _ Hok) as Hv. pose proof (rest_resolved tasks s n h I Hrest Hn) as Hr.
    unfold resolved, stage, mapped in *. rewrite How in Hpair.
    destruct (h_progress h) as [|[] v' [| | | | |[]]|] eqn:Hpr; try done.
    rewrite <- Hv by done. exact Hpair.
Qed.
End ends.

(** * The tests

    [it_has_drop_safety] spawns one future of [SlowQueue] and aborts it after a yield;
    [it_negotiates_receiver_drop] does so with 8192 futures of [YieldQueue], each of which
    may be on its way anywhere when it is dropped. The runs from these futures are all that
    a worker thread, the threads of the jobs and the application can do with them. *)
Definition it_has_drop_safety_tasks : gmap addr Z := {[0%nat := 0]}.
Definition it_negotiates_receiver_drop_tasks : gmap addr Z :=
  list_to_map ((λ i, (Z.to_nat i, i)) <$> seqZ 0 8192).

Section rest.
Context {C : QueueCfg} {HS : SafeCfg} {T V D : Type} `{DequeLaws nat D} `{NeedsDrop T, NeedsDrop V}.
Implicit Types s : run (T := T) (V := V) (D := D).
Variable (f : T → V).

Definition over (h : handover T V nat) : bool :=
  match h_owner h with Gone _ => true | _ => false end.

(** With no future, no batch and every handover over, there is nothing to do. *)
Lemma nothing_to_do s :
  sys_pc (y_sys (p_system s)) = Idle → sys_guards (y_sys (p_system s)) = ∅ →
  y_futures (p_system s) = ∅ →
  map_Forall (λ _ h, over h = true) (y_handovers (p_system s)) →
  at_rest f s.
Proof.
  intros Hpc Hgs Hfs Hhs s' (m & Hm & _). unfold turn in Hm.
  destruct (due m s && allowed m (p_system s)) eqn:Ha; [|done].
  apply andb_prop in Ha as [Hd Ha]. clear Hm.
  assert (∀ id, at_task id (p_system s) = None) as Hat
    by (intros id; unfold at_task; by rewrite Hgs, lookup_empty).
  assert (∀ n p, (∀ h, match h_owner h with Gone _ => p h = false | _ => True end) →
    about_task n (p_system s) p = false) as Hgone.
  { intros n p Hp. unfold about_task. destruct (_ !! n) as [h|] eqn:Hn; [|done].
    specialize (Hhs n h Hn). specialize (Hp h).
    unfold over in Hhs. by destruct (h_owner h). }
  destruct m; rewrite ?allowed_drop, ?allowed_poll in Ha;
    unfold allowed, timely, possible, unbatched, about_current in Ha;
    rewrite ?Hpc, ?Hgs, ?Hfs, ?Hat, ?lookup_empty in Ha; try done;
    rewrite Hgone in Ha; try done; intros h; by destruct (h_owner h).
Qed.
End rest.

Local Instance threads_task_drop : NeedsDrop Z := true.
Local Instance threads_cfg : QueueCfg := cfg64 64.
#[local] Instance threads_safe : SafeCfg.
Proof. split; [reflexivity|reflexivity|]. by vm_compute. Defined.

(** The future is dropped while a resolver is writing its value; its destructor spins. *)
Definition drop_safety_moves : list (move Z Z nat) :=
  [Begin 0 0%nat; Place; Publish 0; Publish 0; Publish 0; Close 0; Treat 0 Map; Resolve 0; Drop 0; Drop 0;
   Resolve 0; Resolve 0; Resolve 0; Drop 0; Drop 0; Drop 0; Next 0; Finish 0; WakeUp 0].

Abbreviation test_run := (run (T := Z) (V := Z) (D := list_deque nat)).
Definition drop_safety_start : test_run := start it_has_drop_safety_tasks.
Definition drop_safety_end : test_run :=
  Eval vm_compute in default drop_safety_start (turns (λ t, t) drop_safety_moves drop_safety_start).

Lemma drop_safety_reachable : run_reachable (λ t, t) it_has_drop_safety_tasks drop_safety_end.
Proof. apply (turns_reachable _ drop_safety_moves _ drop_safety_start); [apply rtc_refl|]. by vm_compute. Qed.

Lemma drop_safety_at_rest : at_rest (λ t, t) drop_safety_end.
Proof. apply nothing_to_do; [reflexivity..|]. by apply (bool_decide_eq_true_1 _). Qed.

Lemma runs_end_witness :
  sn (λ s s', ∃ s1, rtc (loops (λ t, t)) s s1 ∧ advances (λ t, t) s1 s') drop_safety_start.
Proof. apply (runs_end (λ t, t) it_has_drop_safety_tasks). apply rtc_refl. Defined.

Lemma runs_rest_witness :
  sys_guards (y_sys (p_system drop_safety_end)) = ∅
  ∧ (0%nat ∈ p_aborted drop_safety_end
     ∨ (∃ n h, y_handovers (p_system drop_safety_end) !! n = Some h ∧ tk_addr (h_ticket h) = 0%nat
         ∧ h_owner h = Gone (Taken 0))
     ∨ 64 < Z.of_nat (size it_has_drop_safety_tasks)
       ∧ y_futures (p_system drop_safety_end) !! 0%nat = Some (Unbatched 0)
       ∧ 0%nat ∈ deque_items (pending (sys_queue (y_sys (p_system drop_safety_end))))).
Proof.
  destruct (runs_rest (λ t, t) it_has_drop_safety_tasks drop_safety_end
    drop_safety_reachable) as [_ Hrest].
  destruct (Hrest drop_safety_at_rest) as (_ & Hgs & _ & Hends).
  split; [exact Hgs|]. apply (Hends 0%nat 0). reflexivity.
Defined.
