(* ===== verification/Consumers.v ===== *)
(** The queue over plain cells as a whole: one owner that pushes tasks, and the guards of
    [Ranges] at work on their threads, each at its own place in [into_bounded],
    [into_iter], [next], [to_vec] or a destructor.

    The state has no ghosts but the tasks that were pushed, in order, and the consumers
    in the order in which they began. [advance] is one atomic access of a guard with the
    local work around it, put together from the operations of [Ranges] and [Queue]; the
    accesses of the owner are those of [Schedule.owner_action]. [Streams] proves that this
    system refines [Protocol]. *)
From S2P Require Import Prelude Usize Helpers Deque Queue Ranges Protocol Schedule.
Local Open Scope Z_scope.

(** How far a guard is. [Opened], [Holding], [Iterating]: the three kinds of guard, before
    their destructors run. [Discarding], [Sweeping]: inside the loops of the destructors, of
    the iterator and of the ranges. [Leaving], [Rousing]: before and inside
    [deoccupy_region]; the [Z] of [Leaving] is its argument. *)
Inductive stage : Type :=
| Opened (r : UnboundedRange)
| Holding (b : BoundedRange)
| Iterating (it : BufferIter)
| Discarding (it : BufferIter)
| Sweeping (rest : list Z) (start_index : Z)
| Leaving (start_index : Z)
| Rousing (batch_limit : Z)
| Left.

(** What the program may ask of a guard; [Go] goes on inside a destructor. *)
Inductive command : Type :=
| IntoBounded
| Look
| IntoIter
| ToVec
| NextTask
| DropGuard
| Go.

(** A batch at work: its guard, the tasks moved out of it, and its events (destructors of
    tasks, wake-ups), oldest first. *)
Record consumer (T W P : Type) : Type := mkConsumer {
  c_stage : stage;
  c_taken : list T;
  c_log : list (event W T P)
}.
Arguments mkConsumer {_ _ _} _ _ _.
Arguments c_stage {_ _ _} _.
Arguments c_taken {_ _ _} _.
Arguments c_log {_ _ _} _.

Record pool (T W P D : Type) : Type := mkPool {
  p_queue : StackQueue (option T) D;
  p_pc : owner_pc (option T) W;
  p_consumers : gmap nat (consumer T W P);
  p_begun : list nat;
  p_pushed : list (option T);
  p_trace : list (observation W)
}.
Arguments mkPool {_ _ _ _} _ _ _ _ _ _.
Arguments p_queue {_ _ _ _} _.
Arguments p_pc {_ _ _ _} _.
Arguments p_consumers {_ _ _ _} _.
Arguments p_begun {_ _ _ _} _.
Arguments p_pushed {_ _ _ _} _.
Arguments p_trace {_ _ _ _} _.

(** The owner goes on with its push, or begins one of [t]: [cx] parks if the queue is full,
    [id] names the consumer of a new batch. [GiveUp]: the refused task goes back to the
    caller. *)
Inductive pool_move (T W : Type) : Type :=
| Push (t : T) (cx : W) (id : nat)
| GiveUp
| Command (id : nat) (cmd : command).
Arguments Push {_ _} _ _ _.
Arguments GiveUp {_ _}.
Arguments Command {_ _} _ _.

(** The values whose destructor ran. *)
Definition dropped {W V P : Type} (evs : list (event W V P)) : list V :=
  omap (λ e, match e with Dropped v => Some v | _ => None end) evs.

(** What became of the tasks of a batch, in order: moved out, then dropped. *)
Definition output {T W P : Type} (c : consumer T W P) : list T := c_taken c ++ dropped (c_log c).

Section consumers.
Context {C : QueueCfg} {T W P D : Type} `{Deque W D} `{NeedsDrop T}.
Abbreviation guard_world := (world (option T) D unit (event W T P)).
Abbreviation op A := (M guard_world A).
Abbreviation pool := (pool T W P D).
Abbreviation consumer := (consumer T W P).
Implicit Types (p : pool) (c : consumer) (st : stage).

(** The destructor of a range, once its bounds are known. *)
Definition sweep (b : BoundedRange) : stage :=
  let start_index := index_mask (range_start b) in
  if needs_drop (T := T) then Sweeping (range_iter b) start_index else Leaving start_index.

(** One access of a guard: the stage it leads to and the tasks it moves out. *)
Definition advance (cmd : command) st : op (stage * list T) :=
  match cmd, st with
  | IntoBounded, Opened r => b ← into_bounded r; mret (Holding b, [])
  | DropGuard, Opened r => b ← set_bounds r; mret (sweep b, [])
  | Look, Holding b => iter b ;; mret (Holding b, [])
  | IntoIter, Holding b => mret (Iterating (into_iter b), [])
  | ToVec, Holding b =>
      items ← as_slices b; mret (Leaving (index_mask (range_start b)), items.1 ++ items.2)
  | DropGuard, Holding b => mret (sweep b, [])
  | NextTask, Iterating it =>
      r ← next it;
      match r with
      | (Some t, it) => mret (Iterating it, [t])
      | (None, it) => mret (Iterating it, [])
      end
  | DropGuard, Iterating it =>
      mret (if needs_drop (T := T) then Discarding it
            else Leaving (index_mask (range_start (iter_range it))), [])
  | Go, Discarding it =>
      r ← next it;
      match r with
      | (Some t, it) => emit (Dropped t) ;; mret (Discarding it, [])
      | (None, it) => mret (Leaving (index_mask (range_start (iter_range it))), [])
      end
  | Go, Sweeping (index :: rest) start_index =>
      drop_task (index_mask index) ;; mret (Sweeping rest start_index, [])
  | Go, Sweeping [] start_index => mret (Leaving start_index, [])
  | Go, Leaving start_index =>
      prev ← on_queue (fetch_sub_occupancy (one_shifted start_index));
      mret (if prev =? one_shifted start_index then Rousing region_size else Left, [])
  | Go, Rousing batch_limit =>
      if 0 <? batch_limit then
        r ← steal_waker;
        match r with
        | Empty => mret (Left, [])
        | Success waker =>
            emit (Woken waker) ;; mret (Rousing (wrapping_sub usize_bits batch_limit 1), [])
        | Retry => mret (Rousing batch_limit, [])
        end
      else mret (Left, [])
  | _, _ => undef unreachable_code
  end.

(** A guard at work, alone: the tasks its commands moved out, in order. *)
Fixpoint advance_all (cmds : list command) st : op (stage * list T) :=
  match cmds with
  | [] => mret (st, [])
  | cmd :: cmds =>
      r ← advance cmd st;
      r' ← advance_all cmds r.1;
      mret (r'.1, r.2 ++ r'.2)
  end.

(** Which commands the types of the guards allow. *)
Definition may (cmd : command) st : bool :=
  match cmd, st with
  | (IntoBounded | DropGuard), Opened _
  | (Look | IntoIter | ToVec | DropGuard), Holding _
  | (NextTask | DropGuard), Iterating _
  | Go, (Discarding _ | Sweeping _ _ | Leaving _ | Rousing _) => true
  | _, _ => false
  end.

Definition new_consumer (base_slot : Z) : consumer :=
  mkConsumer (Opened (mkUnboundedRange base_slot)) [] [].

Definition owner_move (t : T) (cx : W) (id : nat) : M pool unit := λ p,
  match owner_action (Some t) cx id (mkSys (p_queue p) (p_pc p) ∅ (p_pushed p) (p_trace p)) with
  | Some s =>
      let '(cs, begun) :=
        match sys_guards s !! id with
        | Some (Unbounded base_slot _) =>
            (<[id := new_consumer base_slot]> (p_consumers p), p_begun p ++ [id])
        | _ => (p_consumers p, p_begun p)
        end in
      Done ((), mkPool (sys_queue s) (sys_pc s) cs begun (sys_history s) (sys_trace s))
  | None => Undef unreachable_code
  end.

Definition consumer_move (id : nat) (cmd : command) : M pool unit := λ p,
  match p_consumers p !! id with
  | Some c =>
      match advance cmd (c_stage c) (mkWorld (p_queue p) () (c_log c)) with
      | Done ((st, ts), w) =>
          Done ((), mkPool (queue w) (p_pc p)
            (<[id := mkConsumer st (c_taken c ++ ts) (trace w)]> (p_consumers p))
            (p_begun p) (p_pushed p)
            (p_trace p ++ (Woke <$> wakes (drop (length (c_log c)) (trace w)))))
      | Undef u => Undef u
      | OutOfFuel => OutOfFuel
      end
  | None => Undef unreachable_code
  end.

Definition pool_perform (m : pool_move T W) : M pool unit :=
  match m with
  | Push t cx id => owner_move t cx id
  | GiveUp =>
      modify (λ p, mkPool (p_queue p) Idle (p_consumers p) (p_begun p) (p_pushed p) (p_trace p))
  | Command id cmd => consumer_move id cmd
  end.

Definition pool_allows (m : pool_move T W) p : bool :=
  match m with
  | Push _ _ id => bool_decide (p_consumers p !! id = None)
  | GiveUp => match p_pc p with Rejected _ => true | _ => false end
  | Command id cmd => match p_consumers p !! id with Some c => may cmd (c_stage c) | None => false end
  end.

Definition pool_start : pool := mkPool (new_queue None) Idle ∅ [] [] [].

Definition pool_step p p' : Prop :=
  ∃ m, pool_allows m p = true ∧ pool_perform m p = Done ((), p').

Definition pool_reachable p : Prop := rtc pool_step pool_start p.

Fixpoint pool_run (l : list (pool_move T W)) p : option pool :=
  match l with
  | [] => Some p
  | m :: l =>
      if pool_allows m p
      then match pool_perform m p with Done (_, p') => pool_run l p' | _ => None end
      else None
  end.

Lemma pool_run_sound l p p' : pool_run l p = Some p' → rtc pool_step p p'.
Proof.
  revert p. induction l as [|m l IH]; intros p Hl; simpl in Hl; [by simplify_eq|].
  destruct (pool_allows m p) eqn:Ha; [|done].
  destruct (pool_perform m p) as [[[] p1]| |] eqn:Hp; [|done..].
  eapply rtc_l; [by exists m|by apply IH].
Qed.
End consumers.
