(* ===== verification/Streams.v ===== *)
(** The plain-cell queue of [Consumers] refines [Protocol]: every access of the owner or of a
    guard is a run of its steps and none is undefined; so every batch comes out of its
    guard in order, each task once. *)
From S2P Require Import Prelude Usize Helpers Deque Queue Ranges Protocol Schedule Exclusion Batches Safety Consumption Consumers.
Local Open Scope Z_scope.

(** * The owner, with other guards around *)
Section owner.
Context {C : QueueCfg} {HV : ValidCfg} {cell W D : Type} `{Deque W D}.
Implicit Types (q : StackQueue cell D) (s : sys cell W D) (gs : gmap nat guard).

Definition with_guards gs s : sys cell W D :=
  mkSys (sys_queue s) (sys_pc s) (sys_guards s ∪ gs) (sys_history s) (sys_trace s).

(** The owner does not look at the guards. *)
Lemma owner_action_guards c cx id q pc gs h tr :
  gs !! id = None →
  owner_action c cx id (mkSys q pc gs h tr)
    = with_guards gs <$> owner_action c cx id (mkSys q pc ∅ h tr).
Proof.
  intros Hid. unfold with_guards. destruct pc; simpl; rewrite ?(left_id_L ∅ (∪)); try done.
  - destruct (check_write_index _ q) as [[[] ?]| |]; simpl; by rewrite ?(left_id_L ∅ (∪)).
  - destruct (write_cell _ _ q) as [[[] ?]| |]; simpl; by rewrite ?(left_id_L ∅ (∪)).
  - rewrite Hid, lookup_empty. simpl. by rewrite <- insert_union_l, (left_id_L ∅ (∪)).
Qed.

Lemma owner_action_total c cx id q pc gs h tr :
  ranges_inv (mkSys q pc gs h tr) → gs !! id = None →
  is_Some (owner_action c cx id (mkSys q pc gs h tr)).
Proof.
  intros I Hid. pose proof (inv_length _ I) as Hlen. simpl in Hlen.
  destruct (inv_owner _ I) as (phase & _ & Hown). destruct pc as [|index c'|index c'|index b|index b|w];
    simpl; try by eexists.
  - rewrite check_write_index_run, check_regional_occupancy_run.
    destruct (at_region_start _); [|by eexists]. by repeat (destruct (_ =? 0); [by eexists|]); eexists.
  - destruct Hown as [Hi _]. pose proof N_ge_64.
    assert (0 ≤ index < N) by (rewrite Hi; apply Z.mod_pos_bound; lia).
    rewrite write_cell_run by (rewrite Hlen; lia). by eexists.
  - rewrite Hid. by eexists.
Qed.

Lemma same_starts s s' k :
  claimed s' = claimed s → batch_starts s' = batch_starts s → batch_end s' k = batch_end s k.
Proof. intros Hc Hs. unfold batch_end. by rewrite Hs, Hc. Qed.

(** The batches that are closed stay as they are. *)
Definition keeps_batches s s' : Prop :=
  (∃ l, sys_history s' = sys_history s ++ l)
  ∧ (has_open s → batch_starts s' = batch_starts s)
  ∧ (∀ k b, batch_starts s !! k = Some b → batch_starts s' !! k = Some b)
  ∧ ∀ k, (k < length (batch_starts s))%nat →
      (has_open s → (S k < length (batch_starts s))%nat) → batch_end s' k = batch_end s k.

Lemma keeps_batches_same s s' :
  sys_history s' = sys_history s → sys_trace s' = sys_trace s → claimed s' = claimed s →
  keeps_batches s s'.
Proof.
  intros Hh Ht Hc. assert (batch_starts s' = batch_starts s) as Hst
    by (unfold batch_starts; by rewrite Ht).
  split; [exists []; by rewrite app_nil_r|]. split; [done|]. split; [by rewrite Hst|].
  intros k _ _. by apply same_starts.
Qed.

Lemma keeps_batches_claim q gs h tr index c :
  let s := mkSys q (Written index c) gs h tr in
  ranges_inv s →
  keeps_batches s (mkSys (set_slot (wrapping_add usize_bits (slot (inner q))
                (shl usize_bits 1 INDEX_SHIFT)) q)
              (Claimed index (slot (inner q))) gs (h ++ [c]) tr).
Proof.
  intros s I. set (s' := mkSys _ _ _ _ _). split; [by eexists|]. split; [done|]. split; [done|].
  intros k Hk Hopen. unfold batch_end. change (batch_starts s') with (batch_starts s).
  destruct (batch_starts s !! S k) as [b|] eqn:Hb; [done|]. apply lookup_ge_None in Hb.
  destruct (inv_owner _ I) as (phase & Hs & _ & lp & Hl & Ho). simpl in Hs, Hl.
  assert (eqb phase lp = false) as Hp.
  { apply eqb_false_iff. intros Hx. apply Ho in Hx. specialize (Hopen Hx). lia. }
  simpl. unfold claimed, begun. simpl. rewrite Hs, Hl, !slot_word_bit0, Hp.
  unfold count, s. simpl. rewrite length_app. simpl. lia.
Qed.

Lemma keeps_batches_replace q gs h tr index base_slot v :
  keeps_batches (mkSys q (Claimed index base_slot) gs h tr)
    (mkSys (set_sq_slot v q)
      (if Z.land (Z.lxor base_slot (sq_slot q)) PHASE =? 0 then Idle
       else Occupying index base_slot) gs h tr).
Proof.
  apply keeps_batches_same; try done. rewrite same_phase_test. unfold claimed, begun. simpl.
  by destruct (eqb _ _).
Qed.

Lemma keeps_batches_occupy q gs h tr index base_slot id :
  let s := mkSys q (Occupying index base_slot) gs h tr in
  let start := Z.of_nat (length h) - 1 in
  ranges_inv s →
  keeps_batches s (mkSys (occupied index q) Idle (<[id := Unbounded base_slot start]> gs) h
    (tr ++ [Began start])).
Proof.
  intros s start I. set (s' := mkSys _ _ _ _ _).
  destruct (inv_owner _ I) as (phase & _ & Hn & _ & _ & _ & Hno).
  assert (batch_starts s' = batch_starts s ++ [start]) as Hst.
  { unfold batch_starts. simpl. by rewrite omap_app. }
  split; [exists []; by rewrite app_nil_r|]. split; [by intros Hx%Hno|].
  split; [intros k b; rewrite Hst; by apply lookup_app_l_Some|].
  intros k Hk _. unfold batch_end. rewrite Hst.
  destruct (decide (S k = length (batch_starts s))) as [->|].
  - by rewrite list_lookup_middle, lookup_ge_None_2 by lia.
  - rewrite lookup_app_l by lia.
    by destruct (lookup_lt_is_Some_2 (batch_starts s) (S k)) as [x ->]; [lia|].
Qed.

Lemma owner_action_batches c cx id s s' :
  owner_action c cx id s = Some s' → ranges_inv s → keeps_batches s s'.
Proof.
  intros Ha I. destruct s as [q pc gs h tr]. destruct pc; simpl in Ha.
  - destruct (check_write_index _ q) as [[[] q']| |]; simplify_eq; by apply keeps_batches_same.
  - destruct (write_cell _ _ q) as [[[] q']| |] eqn:Hw; simplify_eq. by apply keeps_batches_same.
  - simplify_eq. by apply keeps_batches_claim.
  - simplify_eq. apply keeps_batches_replace.
  - destruct (gs !! id); simplify_eq. by apply keeps_batches_occupy.
  - simplify_eq. by apply keeps_batches_same.
Qed.
End owner.

(** * Ranges of machine words and pieces of lists *)
Section words.
Context {C : QueueCfg} {HV : ValidCfg}.

(** The words of the batch [start .. stop - 1] do not wrap. *)
Definition fits (start stop : Z) : Prop := start mod counter_modulus + (stop - start) < counter_modulus.

#[global] Instance fits_decision start stop : Decision (fits start stop) := decide (_ < _).

Lemma fits_stop start stop :
  start ≤ stop → fits start stop →
  stop mod counter_modulus = start mod counter_modulus + (stop - start).
Proof.
  unfold fits. intros Hle Hf. pose proof counter_modulus_pos as Hp.
  pose proof (Z.mod_pos_bound start _ Hp).
  replace stop with (start + (stop - start)) at 1 by lia.
  rewrite <- Zplus_mod_idemp_l. apply Z.mod_small. lia.
Qed.

Lemma wraps_stop start stop :
  0 ≤ stop - start ≤ N → ¬ fits start stop →
  stop mod counter_modulus ≤ start mod counter_modulus.
Proof.
  unfold fits. intros Hle Hf. pose proof counter_modulus_pos as Hp. pose proof N_lt_counter.
  pose proof (Z.mod_pos_bound start _ Hp).
  replace stop with (start + (stop - start)) at 1 by lia. rewrite <- Zplus_mod_idemp_l.
  set (s := start mod counter_modulus) in *.
  replace (s + (stop - start)) with (s + (stop - start) - counter_modulus + 1 * counter_modulus) by lia.
  rewrite Z.mod_add, Z.mod_small by lia. lia.
Qed.

Lemma word_cell start cur : (start mod counter_modulus + (cur - start)) mod N = cur mod N.
Proof.
  rewrite <- Zplus_mod_idemp_l, mod_counter_mod_N, Zplus_mod_idemp_l. f_equal. lia.
Qed.
End words.

Lemma slice_nil {A : Type} (b : Z) (l : list A) : slice b b l = [].
Proof. unfold slice. by rewrite Z.sub_diag. Qed.

Lemma slice_snoc {A : Type} (b e : Z) (l : list A) x :
  0 ≤ b ≤ e → l !! Z.to_nat e = Some x → slice b (e + 1) l = slice b e l ++ [x].
Proof.
  intros Hb Hx. unfold slice. replace (Z.to_nat (e + 1 - b)) with (S (Z.to_nat (e - b))) by lia.
  apply take_S_r. rewrite lookup_drop, <- Hx. f_equal. lia.
Qed.

Lemma slice_app_l {A : Type} (b e : Z) (l k : list A) :
  0 ≤ b ≤ e → e ≤ Z.of_nat (length l) → slice b e (l ++ k) = slice b e l.
Proof.
  intros Hb He. unfold slice. rewrite drop_app_le, take_app_le; rewrite ?length_drop; auto; lia.
Qed.

Lemma slice_lookup {A : Type} (b e : Z) (l : list A) (i : nat) :
  0 ≤ b → Z.of_nat i < e - b → slice b e l !! i = l !! Z.to_nat (b + Z.of_nat i).
Proof.
  intros Hb Hi. unfold slice. rewrite lookup_take_lt, lookup_drop by lia. f_equal. lia.
Qed.

Lemma length_slice {A : Type} (b e : Z) (l : list A) :
  0 ≤ b ≤ e → e ≤ Z.of_nat (length l) → length (slice b e l) = Z.to_nat (e - b).
Proof. intros. unfold slice. rewrite length_take, length_drop. lia. Qed.

Lemma slice_fmap {A B : Type} (f : A → B) (b e : Z) (l : list A) : slice b e (f <$> l) = f <$> slice b e l.
Proof. unfold slice. by rewrite fmap_take, fmap_drop. Qed.

Lemma slice_split {A : Type} (b m e : Z) (l : list A) :
  0 ≤ b ≤ m → m ≤ e → slice b m l ++ slice m e l = slice b e l.
Proof.
  intros Hb He. unfold slice. replace (Z.to_nat (e - b)) with (Z.to_nat (m - b) + Z.to_nat (e - m))%nat by lia.
  rewrite <- (take_take_drop _ (Z.to_nat (m - b))). f_equal. rewrite drop_drop. f_equal. f_equal. lia.
Qed.

Lemma all_some {A : Type} (l : list (option A)) : Forall is_Some l → ∃ k, Some <$> k = l.
Proof.
  induction 1 as [|o l [x ->] _ [k <-]]; [by exists []|by exists (x :: k)].
Qed.

Lemma no_batch_woken {W : Type} (l : list W) : omap began (Woke <$> l) = [].
Proof. by induction l. Qed.

Lemma dropped_app {W V P : Type} (l k : list (event W V P)) : dropped (l ++ k) = dropped l ++ dropped k.
Proof. apply omap_app. Qed.

(** * The simulation *)
Section streams.
Context {C : QueueCfg} {HS : SafeCfg} {T W P D : Type} `{Deque W D} `{NeedsDrop T}.
Abbreviation pool := (pool T W P D).
Abbreviation consumer := (consumer T W P).
Abbreviation sys := (sys (option T) W D).
Implicit Types (p : pool) (c : consumer) (st : stage) (s : sys) (gs : gmap nat guard).

(** The state of [Protocol] behind a pool: the same words, with guards [gs]. *)
Definition erase p gs : sys := mkSys (p_queue p) (p_pc p) gs (p_pushed p) (p_trace p).

Definition bounded_at s (id : nat) (start stop cur : Z) (b : BoundedRange) : Prop :=
  sys_guards s !! id = Some (Bounded (range_start b) (range_end b) start stop cur).

(** Every task was taken, if that matters. *)
Definition exhausted (start stop cur : Z) : Prop :=
  fits start stop → needs_drop (T := T) = true → cur = stop.

(** The stage of a guard whose batch is [start .. stop - 1] and whose next task is [cur]. *)
Definition stage_ok s (id k : nat) (start stop cur : Z) st : Prop :=
  match st with
  | Opened r =>
      cur = start ∧ sys_guards s !! id = Some (Unbounded (ub_base_slot r) start)
      ∧ S k = length (batch_starts s)
  | Holding b => cur = start ∧ bounded_at s id start stop cur b
  | Iterating it | Discarding it =>
      bounded_at s id start stop cur (iter_range it)
      ∧ (fits start stop → current it = range_start (iter_range it) + (cur - start))
      ∧ (¬ fits start stop → range_end (iter_range it) ≤ current it)
  | Sweeping rest i =>
      ∃ b, bounded_at s id start stop cur b ∧ i = index_mask (range_start b)
        ∧ (fits start stop → rest = seqZ (range_start b + (cur - start)) (stop - cur))
        ∧ (¬ fits start stop → rest = [])
  | Leaving i =>
      ∃ b, bounded_at s id start stop cur b ∧ i = index_mask (range_start b)
        ∧ exhausted start stop cur
  | Rousing limit => sys_guards s !! id = Some (Waking limit) ∧ exhausted start stop cur
  | Left => sys_guards s !! id = None ∧ exhausted start stop cur
  end.

(** Before the destructors. *)
Definition in_use st : bool :=
  match st with Opened _ | Holding _ | Iterating _ => true | _ => false end.

Definition consumer_ok s (id k : nat) (start : Z) c : Prop :=
  ∃ cur, start ≤ cur ≤ batch_end s k
    ∧ Some <$> output c = slice start cur (sys_history s)
    ∧ (in_use (c_stage c) = true → dropped (c_log c) = [])
    ∧ stage_ok s id k start (batch_end s k) cur (c_stage c).

(** What the owner wrote or is about to write is a task. *)
Definition initialised (pc : owner_pc (option T) W) (h : list (option T)) : Prop :=
  Forall is_Some h ∧ match pc with Checked _ c | Written _ c => is_Some c | _ => True end.

Record pool_inv p gs : Prop := {
  pl_reachable : reachable None (erase p gs);
  pl_init : initialised (p_pc p) (p_pushed p);
  pl_begun : ∀ id, id ∈ p_begun p ↔ is_Some (p_consumers p !! id);
  pl_distinct : NoDup (p_begun p);
  pl_batches : length (p_begun p) = length (batch_starts (erase p gs));
  pl_guards : ∀ id, is_Some (gs !! id) → id ∈ p_begun p;
  pl_consumers : ∀ k id c start, p_begun p !! k = Some id → p_consumers p !! id = Some c →
    batch_starts (erase p gs) !! k = Some start → consumer_ok (erase p gs) id k start c
}.

Lemma pool_inv_start : pool_inv pool_start ∅.
Proof.
  split; simpl; try done.
  - apply rtc_refl.
  - intros id. rewrite lookup_empty. split; [intros Hx; inversion Hx|by intros []].
  - apply NoDup_nil_2.
  - intros id [g Hg]. by rewrite lookup_empty in Hg.
Qed.

Lemma pool_invs p gs :
  pool_inv p gs →
  ranges_inv (erase p gs) ∧ exclusion_inv (erase p gs) ∧ batches_inv (erase p gs).
Proof.
  intros Hp. pose proof (pl_reachable _ _ Hp) as Hr.
  pose proof (exclusion_inv_reachable _ _ Hr) as []. pose proof (batches_inv_reachable _ _ Hr) as [].
  done.
Qed.

Lemma stage_frame s s' id k start stop cur st :
  sys_guards s' !! id = sys_guards s !! id → length (batch_starts s') = length (batch_starts s) →
  stage_ok s id k start stop cur st → stage_ok s' id k start stop cur st.
Proof. intros Hg Hl. unfold stage_ok, bounded_at. by rewrite Hg, Hl. Qed.

(** The same guard, the same batch: a consumer stays as it is. *)
Lemma consumer_frame s s' id k start c :
  sys_guards s' !! id = sys_guards s !! id → sys_history s' = sys_history s →
  batch_starts s' = batch_starts s → claimed s' = claimed s →
  consumer_ok s id k start c → consumer_ok s' id k start c.
Proof.
  intros Hg Hh Hs Hc (cur & Hcur & Ho & Hd & Hst). exists cur.
  rewrite (same_starts s s' k Hc Hs), Hh. do 3 (split; [done|]).
  eapply stage_frame; [exact Hg|by rewrite Hs|exact Hst].
Qed.

(** ** A move of a consumer *)

(** What a move of consumer [id] has to show. *)
Lemma consumer_moves p gs id k c start cmd st ts w gs' evs :
  pool_inv p gs → p_begun p !! k = Some id → p_consumers p !! id = Some c →
  batch_starts (erase p gs) !! k = Some start →
  advance cmd (c_stage c) (mkWorld (p_queue p) () (c_log c)) = Done ((st, ts), w) →
  trace w = c_log c ++ evs → sq_slot (queue w) = sq_slot (p_queue p) →
  (∀ id', id' ≠ id → gs' !! id' = gs !! id') →
  let s' := mkSys (queue w) (p_pc p) gs' (p_pushed p) (p_trace p ++ (Woke <$> wakes evs)) in
  rtc step (erase p gs) s' →
  consumer_ok s' id k start (mkConsumer st (c_taken c ++ ts) (c_log c ++ evs)) →
  ∃ p' gs', consumer_move id cmd p = Done ((), p') ∧ rtc step (erase p gs) (erase p' gs')
    ∧ pool_inv p' gs'.
Proof.
  intros Hp Hk Hc Hst Hadv Htr Hsl Hgs s' Hrun Hok. destruct Hp as [Hr Hi Hb Hnd Hlen Hg Hcs].
  set (p' := mkPool (queue w) (p_pc p) (<[id := mkConsumer st (c_taken c ++ ts) (c_log c ++ evs)]>
    (p_consumers p)) (p_begun p) (p_pushed p) (p_trace p ++ (Woke <$> wakes evs))).
  exists p', gs'. split; [|split; [exact Hrun|]].
  { unfold consumer_move. rewrite Hc, Hadv, Htr, drop_app_length. done. }
  assert (batch_starts s' = batch_starts (erase p gs)) as Hs.
  { unfold batch_starts, s'. simpl. by rewrite omap_app, no_batch_woken, app_nil_r. }
  assert (claimed s' = claimed (erase p gs)) as Hcl
    by (unfold claimed, begun, s'; simpl; by rewrite Hsl).
  assert (id ∈ p_begun p) as Hid by (by eapply list_elem_of_lookup_2).
  split; try done.
  - unfold reachable. etrans; [exact Hr|exact Hrun].
  - intros id'. simpl. rewrite Hb. destruct (decide (id' = id)) as [->|Hne].
    + rewrite fin_maps.lookup_insert_eq, Hc. split; by eexists.
    + by rewrite fin_maps.lookup_insert_ne.
  - change (erase p' gs') with s'. by rewrite Hs.
  - intros id' Hx. destruct (decide (id' = id)) as [->|Hne]; [done|]. apply Hg. by rewrite <- Hgs.
  - intros k' id' c' start' Hk' Hc' Hst'. change (erase p' gs') with s' in *. rewrite Hs in Hst'.
    simpl in Hk', Hc'. destruct (decide (id' = id)) as [->|Hne].
    + assert (k' = k) as -> by (by eapply NoDup_lookup). rewrite fin_maps.lookup_insert_eq in Hc'.
      simplify_eq. done.
    + rewrite fin_maps.lookup_insert_ne in Hc' by done. apply (consumer_frame (erase p gs)); [by apply Hgs|done..|].
      by eapply Hcs.
Qed.

(** A local move: nothing changes but the stage. *)
Lemma local_moves p gs id k c start cur cmd st :
  pool_inv p gs → p_begun p !! k = Some id → p_consumers p !! id = Some c →
  batch_starts (erase p gs) !! k = Some start →
  advance cmd (c_stage c) (mkWorld (p_queue p) () (c_log c))
    = Done ((st, []), mkWorld (p_queue p) () (c_log c)) →
  start ≤ cur ≤ batch_end (erase p gs) k →
  Some <$> output c = slice start cur (p_pushed p) →
  (in_use st = true → dropped (c_log c) = []) →
  stage_ok (erase p gs) id k start (batch_end (erase p gs) k) cur st →
  ∃ p' gs', consumer_move id cmd p = Done ((), p') ∧ rtc step (erase p gs) (erase p' gs')
    ∧ pool_inv p' gs'.
Proof.
  intros Hp Hk Hc Hst Hadv Hcur Ho Hd Hok.
  eapply (consumer_moves p gs id k c start cmd st [] _ gs []); try done; simpl.
  - by rewrite app_nil_r.
  - rewrite app_nil_r. apply rtc_refl.
  - rewrite !app_nil_r. by exists cur.
Qed.

(** ** What the invariant of the protocol says of a closed batch *)
Lemma bounded_facts s id start stop cur b :
  reachable None s → bounded_at s id start stop cur b →
  range_start b = start mod counter_modulus ∧ range_end b = stop mod counter_modulus
  ∧ 0 ≤ start ≤ cur ∧ cur ≤ stop ∧ 1 ≤ stop - start ≤ N ∧ stop ≤ count s.
Proof.
  intros [I E]%exclusion_inv_reachable Hb.
  pose proof (inv_guards _ I _ _ Hb) as (? & ? & ? & ? & ?).
  destruct (inv_owner _ I) as (phase & _ & Hown). pose proof (claimed_le_count _ _ Hown).
  pose proof (range_window _ _ _ start stop start I E Hb eq_refl ltac:(lia)).
  assert (0 ≤ room s) by (unfold room; by destruct (sys_pc _)). lia.
Qed.

(** A task that has not been taken is in its cell. *)
Lemma task_in_cell p gs id start stop cur b i :
  pool_inv p gs → bounded_at (erase p gs) id start stop cur b → cur ≤ i < stop →
  ∃ t, p_pushed p !! Z.to_nat i = Some (Some t)
    ∧ buffer (inner (p_queue p)) !! Z.to_nat (i mod N) = Some (Some t).
Proof.
  intros Hp Hb Hi. destruct (pool_invs _ _ Hp) as (_ & E & _).
  pose proof (bounded_facts _ _ _ _ _ _ (pl_reachable _ _ Hp) Hb) as (_ & _ & ? & _ & _ & Hcount).
  pose proof (ex_contents _ E _ _ _ _ i Hb eq_refl Hi) as Hc. unfold cell_at, task_at in Hc.
  unfold count in Hcount. simpl in *.
  destruct (lookup_lt_is_Some_2 (p_pushed p) (Z.to_nat i)) as [o Ho]; [lia|].
  destruct (Forall_lookup_1 _ _ _ _ (proj1 (pl_init _ _ Hp)) Ho) as [t ->].
  exists t. by rewrite Hc.
Qed.

(** The guard takes a task and leaves its bits where they are. *)
Lemma take_step q pc gs h tr id start stop cur b :
  reachable None (mkSys q pc gs h tr) → bounded_at (mkSys q pc gs h tr) id start stop cur b →
  cur < stop →
  step (mkSys q pc gs h tr)
    (mkSys q pc (<[id := Bounded (range_start b) (range_end b) start stop (cur + 1)]> gs) h tr).
Proof.
  intros [I _]%exclusion_inv_reachable Hb Hlt. pose proof (inv_length _ I) as Hlen. simpl in Hlen.
  pose proof N_ge_64. pose proof (mod_N_bounds cur).
  destruct (lookup_lt_is_Some_2 (buffer (inner q)) (Z.to_nat (cur mod N))) as [o Ho]; [lia|].
  apply step_consume with (current := cur) (c := o); [done|done|].
  rewrite land_N, write_cell_run by lia. do 2 f_equal. rewrite list_insert_id by done.
  by destruct q as [? ? [] ?].
Qed.

(** All of them at once. *)
Lemma take_steps q pc gs h tr id start stop cur b :
  reachable None (mkSys q pc gs h tr) → bounded_at (mkSys q pc gs h tr) id start stop cur b →
  cur ≤ stop →
  rtc step (mkSys q pc gs h tr)
    (mkSys q pc (<[id := Bounded (range_start b) (range_end b) start stop stop]> gs) h tr).
Proof.
  intros Hr Hb Hle. remember (Z.to_nat (stop - cur)) as n eqn:Hn.
  revert cur gs Hr Hb Hle Hn. induction n as [|n IH]; intros cur gs Hr Hb Hle Hn.
  - assert (cur = stop) as -> by lia. rewrite insert_id by done. apply rtc_refl.
  - pose proof (take_step _ _ _ _ _ _ _ _ _ _ Hr Hb ltac:(lia)) as Hstep.
    eapply rtc_l; [exact Hstep|].
    set (gs1 := <[id := _]> gs) in *.
    replace (<[id := Bounded (range_start b) (range_end b) start stop stop]> gs)
      with (<[id := Bounded (range_start b) (range_end b) start stop stop]> gs1)
      by apply insert_insert_eq.
    apply IH with (cur := cur + 1); [|apply fin_maps.lookup_insert_eq|lia|lia].
    by eapply rtc_r.
Qed.

(** The bounds of the range, as the iterator and the sweep see them. *)
Lemma bounds_fit s id start stop cur b :
  reachable None s → bounded_at s id start stop cur b →
  (fits start stop → range_end b = range_start b + (stop - start))
  ∧ (¬ fits start stop → range_end b ≤ range_start b).
Proof.
  intros Hr Hb. pose proof (bounded_facts _ _ _ _ _ _ Hr Hb) as (-> & -> & ? & ? & ? & _). split.
  - intros Hf. apply fits_stop; [lia|done].
  - intros Hf. apply wraps_stop; [lia|done].
Qed.

Lemma sweep_ok s id k start stop b :
  reachable None s → bounded_at s id start stop start b →
  stage_ok s id k start stop start (sweep (T := T) b).
Proof.
  intros Hr Hb. destruct (bounds_fit _ _ _ _ _ _ Hr Hb) as [Hf Hw]. unfold sweep.
  destruct needs_drop eqn:Hnd; simpl; exists b; (split; [done|]; split; [done|]).
  - unfold range_iter. split; intros Hx.
    + rewrite Hf by done. f_equal; lia.
    + specialize (Hw Hx). apply seqZ_nil. lia.
  - intros _. by rewrite Hnd.
Qed.

Lemma into_iter_ok s id k start stop b :
  reachable None s → bounded_at s id start stop start b →
  stage_ok s id k start stop start (Iterating (into_iter b)).
Proof.
  intros Hr Hb. destruct (bounds_fit _ _ _ _ _ _ Hr Hb) as [Hf Hw]. simpl.
  split; [done|]. split; [lia|]. intros Hx. by apply Hw.
Qed.

(** The batch is closed: [into_bounded], and the destructor of an unbounded guard. *)
Lemma bound_moves p gs id k c r start cmd (f : BoundedRange → stage) :
  pool_inv p gs → p_begun p !! k = Some id → p_consumers p !! id = Some c →
  batch_starts (erase p gs) !! k = Some start → consumer_ok (erase p gs) id k start c →
  c_stage c = Opened r →
  (∀ w : world (option T) D unit (event W T P),
     advance cmd (Opened r) w = (b ← set_bounds r; mret (f b, [])) w) →
  (∀ b, in_use (f b) = true → in_use (Opened r) = true) →
  (∀ s id stop b, reachable None s → bounded_at s id start stop start b →
     stage_ok s id k start stop start (f b)) →
  ∃ p' gs', consumer_move id cmd p = Done ((), p') ∧ rtc step (erase p gs) (erase p' gs')
    ∧ pool_inv p' gs'.
Proof.
  intros Hp Hk Hc Hst (cur & Hcur & Ho & Hd & Hok) Hr Hadv Huse Hf.
  rewrite Hr in Hok, Hd. destruct Hok as (-> & Hg & Hlast). simpl in Hg.
  destruct (pool_invs _ _ Hp) as (I & _ & _).
  destruct (open_claimed _ I) as [_ Hcl]; [by do 3 eexists|].
  set (b := mkBoundedRange (shr usize_bits (ub_base_slot r) INDEX_SHIFT)
              (shr usize_bits (slot (inner (p_queue p))) INDEX_SHIFT)).
  set (q' := set_slot (Z.lxor (slot (inner (p_queue p))) PHASE) (p_queue p)).
  set (gs' := <[id := Bounded (range_start b) (range_end b) start (count (erase p gs)) start]> gs).
  assert (step (erase p gs) (mkSys q' (p_pc p) gs' (p_pushed p) (p_trace p))) as Hstep
    by (by apply step_bound).
  set (s' := mkSys q' _ _ _ _) in Hstep.
  assert (reachable None s') as Hr'
    by (eapply rtc_r; [exact (pl_reachable _ _ Hp)|exact Hstep]).
  assert (batch_end s' k = count (erase p gs)) as Hend.
  { unfold batch_end. rewrite lookup_ge_None_2 by (change (batch_starts s') with
      (batch_starts (erase p gs)); lia). simpl. rewrite <- Hcl. done. }
  assert (batch_end (erase p gs) k = count (erase p gs)) as Hend0.
  { unfold batch_end. rewrite lookup_ge_None_2 by lia. done. }
  rewrite Hend0 in Hcur.
  eapply (consumer_moves p gs id k c start cmd (f b) []
    (mkWorld q' () (c_log c)) gs' []); try done; simpl.
  - rewrite Hr, Hadv. reflexivity.
  - by rewrite app_nil_r.
  - intros id' Hne. by apply fin_maps.lookup_insert_ne.
  - rewrite app_nil_r. by apply rtc_once.
  - rewrite !app_nil_r. fold s'. exists start. rewrite Hend.
    split; [lia|]. split; [done|]. split; [by intros Hx%Huse; apply Hd|].
    apply Hf; [done|]. unfold bounded_at, s', gs'. simpl. apply fin_maps.lookup_insert_eq.
Qed.

(** The tasks from [cur] to [cur' - 1] are moved out, or the next one is dropped. *)
Lemma take_moves p gs id k c start cur cur' b cmd st ts evs :
  pool_inv p gs → p_begun p !! k = Some id → p_consumers p !! id = Some c →
  batch_starts (erase p gs) !! k = Some start →
  let stop := batch_end (erase p gs) k in
  bounded_at (erase p gs) id start stop cur b → cur ≤ cur' ≤ stop →
  Some <$> output c = slice start cur (p_pushed p) →
  advance cmd (c_stage c) (mkWorld (p_queue p) () (c_log c))
    = Done ((st, ts), mkWorld (p_queue p) () (c_log c ++ evs)) →
  (ts = [] ∨ evs = [] ∧ dropped (c_log c) = []) → wakes evs = [] →
  slice start cur' (p_pushed p)
    = slice start cur (p_pushed p) ++ (Some <$> ts ++ dropped evs) →
  (in_use st = true → dropped (c_log c ++ evs) = []) →
  (cur' = cur + 1 ∨ cur' = stop) →
  (∀ s', bounded_at s' id start stop cur' b → stage_ok s' id k start stop cur' st) →
  ∃ p' gs', consumer_move id cmd p = Done ((), p') ∧ rtc step (erase p gs) (erase p' gs')
    ∧ pool_inv p' gs'.
Proof.
  intros Hp Hk Hc Hst stop Hb Hcur Ho Hadv Hts Hwk Hsl Huse Hnext Hok.
  pose proof (bounded_facts _ _ _ _ _ _ (pl_reachable _ _ Hp) Hb) as (_ & _ & ? & _).
  set (gs' := <[id := Bounded (range_start b) (range_end b) start stop cur']> gs).
  eapply (consumer_moves p gs id k c start cmd st ts _ gs' evs); try done; simpl.
  - intros id' Hne. by apply fin_maps.lookup_insert_ne.
  - rewrite Hwk, app_nil_r. unfold gs'.
    destruct Hnext as [->| ->].
    + destruct (decide (cur = stop)) as [->|]; [lia|].
      apply rtc_once, take_step with (cur := cur); [exact (pl_reachable _ _ Hp)|done|lia].
    + apply take_steps with (cur := cur); [exact (pl_reachable _ _ Hp)|done|lia].
  - rewrite Hwk, app_nil_r. exists cur'. set (s' := mkSys _ _ gs' _ _).
    change (batch_end s' k) with stop. split; [lia|]. split; [|split; [done|]].
    + simpl. rewrite Hsl, <- Ho, <- fmap_app. f_equal. unfold output. simpl.
      rewrite dropped_app. destruct Hts as [->|[-> ->]]; simpl.
      * by rewrite app_nil_r, app_assoc.
      * by rewrite !app_nil_r.
    + apply Hok. unfold bounded_at, s', gs'. simpl. apply fin_maps.lookup_insert_eq.
Qed.

(** ** The commands, one by one *)

(** What a command has to show: it returns, and does what the protocol can do. *)
Definition simulated p gs (id : nat) (cmd : command) : Prop :=
  ∃ p' gs', consumer_move id cmd p = Done ((), p') ∧ rtc step (erase p gs) (erase p' gs')
    ∧ pool_inv p' gs'.

(** Consumer [id] is at [st], its batch is [start .. batch_end - 1] and its next task [cur]. *)
Definition at_stage p gs (id k : nat) c (start cur : Z) st : Prop :=
  pool_inv p gs ∧ p_begun p !! k = Some id ∧ p_consumers p !! id = Some c
  ∧ batch_starts (erase p gs) !! k = Some start ∧ start ≤ cur ≤ batch_end (erase p gs) k
  ∧ Some <$> output c = slice start cur (p_pushed p)
  ∧ (in_use st = true → dropped (c_log c) = [])
  ∧ c_stage c = st ∧ stage_ok (erase p gs) id k start (batch_end (erase p gs) k) cur st.

(** [next] on an iterator whose batch is not exhausted, and on one that is. *)
Lemma next_at p gs id start stop cur it (w : world (option T) D unit (event W T P)) :
  pool_inv p gs → queue w = p_queue p →
  stage_ok (erase p gs) id 0 start stop cur (Iterating it) →
  (∃ t, cur < stop ∧ p_pushed p !! Z.to_nat cur = Some (Some t)
     ∧ next it w = Done ((Some t, mkBufferIter (current it + 1) (iter_range it)), w)
     ∧ ∀ s', bounded_at s' id start stop (cur + 1) (iter_range it) →
         stage_ok s' id 0 start stop (cur + 1)
           (Iterating (mkBufferIter (current it + 1) (iter_range it))))
  ∨ next it w = Done ((None, it), w) ∧ (fits start stop → cur = stop).
Proof.
  intros Hp Hq (Hb & Hf & Hw). destruct it as [x b]. simpl in Hb, Hf, Hw.
  pose proof (bounded_facts _ _ _ _ _ _ (pl_reachable _ _ Hp) Hb) as (Hrs & Hre & ? & ? & ? & _).
  destruct (decide (fits start stop)) as [Hfit|Hfit].
  - specialize (Hf Hfit). destruct (decide (cur < stop)) as [Hlt|Hge].
    + left. destruct (task_in_cell _ _ _ _ _ _ _ cur Hp Hb ltac:(lia)) as (t & Ht & Hcell).
      exists t. split; [done|]. split; [done|].
      pose proof (fits_stop start stop ltac:(lia) Hfit) as Hstop.
      pose proof counter_modulus_pos as HM. pose proof (Z.mod_pos_bound start _ HM).
      unfold fits in Hfit. split.
      * destruct b as [rs re]. simpl in *. apply next_some; [lia..|].
        rewrite Hq, Hf, Hrs, word_cell. done.
      * intros s' Hs'. simpl. split; [done|]. split; [lia|done].
    + right. destruct b as [rs re]. simpl in *. split; [|lia]. apply next_none.
      rewrite Hre, Hf, Hrs, (fits_stop start stop ltac:(lia) Hfit). lia.
  - right. destruct b as [rs re]. simpl in *. split; [|done]. apply next_none. by apply Hw.
Qed.

Lemma slice_next p start cur t :
  0 ≤ start ≤ cur → p_pushed p !! Z.to_nat cur = Some (Some t) →
  slice start (cur + 1) (p_pushed p) = slice start cur (p_pushed p) ++ [Some t].
Proof. intros. by apply slice_snoc. Qed.

Lemma next_task_moves p gs id k c start cur it :
  at_stage p gs id k c start cur (Iterating it) → simulated p gs id NextTask.
Proof.
  intros (Hp & Hk & Hc & Hst & Hcur & Ho & Hd & Hcst & Hok). pose proof Hok as (Hb & _).
  pose proof (bounded_facts _ _ _ _ _ _ (pl_reachable _ _ Hp) Hb) as (_ & _ & ? & _).
  destruct (next_at p gs id _ _ _ _ (mkWorld (p_queue p) () (c_log c)) Hp eq_refl Hok)
    as [(t & Hlt & Ht & Hn & Hnew)|[Hn _]].
  - eapply (take_moves p gs id k c start cur (cur + 1) _ NextTask
      (Iterating (mkBufferIter (current it + 1) (iter_range it))) [t] []);
      [done|done|done|done|exact Hb|lia|done| |by right; rewrite Hd|done| | |by left|exact Hnew].
    + rewrite Hcst. simpl. run_with Hn. by rewrite app_nil_r.
    + by apply slice_next.
    + rewrite app_nil_r. intros _. by apply Hd.
  - eapply (local_moves p gs id k c start cur NextTask (Iterating it)); try done.
    rewrite Hcst. simpl. by run_with Hn.
Qed.

Lemma discard_moves p gs id k c start cur it :
  at_stage p gs id k c start cur (Discarding it) → simulated p gs id Go.
Proof.
  intros (Hp & Hk & Hc & Hst & Hcur & Ho & _ & Hcst & Hok). pose proof Hok as (Hb & _).
  pose proof (bounded_facts _ _ _ _ _ _ (pl_reachable _ _ Hp) Hb) as (_ & _ & ? & _).
  destruct (next_at p gs id _ _ _ _ (mkWorld (p_queue p) () (c_log c)) Hp eq_refl Hok)
    as [(t & Hlt & Ht & Hn & Hnew)|[Hn Hlast]].
  - eapply (take_moves p gs id k c start cur (cur + 1) _ Go
      (Discarding (mkBufferIter (current it + 1) (iter_range it))) [] [Dropped t]);
      [done|done|done|done|exact Hb|lia|done| |by left|done| |done|by left|exact Hnew].
    + rewrite Hcst. simpl. by run_with Hn.
    + by apply slice_next.
  - eapply (local_moves p gs id k c start cur Go (Leaving _)); try done.
    + rewrite Hcst. simpl. by run_with Hn.
    + exists (iter_range it). split; [done|]. split; [done|]. by intros Hx _; apply Hlast.
Qed.

Lemma sweep_moves p gs id k c start cur rest i :
  at_stage p gs id k c start cur (Sweeping rest i) → simulated p gs id Go.
Proof.
  intros (Hp & Hk & Hc & Hst & Hcur & Ho & _ & Hcst & (b & Hb & Hi & Hf & Hw)).
  set (stop := batch_end (erase p gs) k) in *.
  pose proof (bounded_facts _ _ _ _ _ _ (pl_reachable _ _ Hp) Hb) as (Hrs & _ & ? & ? & ? & _).
  destruct rest as [|index rest].
  - eapply (local_moves p gs id k c start cur Go (Leaving i)); try done.
    + by rewrite Hcst.
    + exists b. split; [done|]. split; [done|]. intros Hx _. specialize (Hf Hx).
      destruct (decide (cur = stop)) as [|Hne]; [done|]. by rewrite seqZ_cons in Hf by lia.
  - destruct (decide (fits start stop)) as [Hfit|Hfit]; [|by specialize (Hw Hfit)].
    specialize (Hf Hfit). destruct (decide (cur = stop)) as [->|Hne].
    { by rewrite Z.sub_diag in Hf. }
    rewrite seqZ_cons in Hf by lia. injection Hf as -> ->.
    destruct (task_in_cell _ _ _ _ _ _ _ cur Hp Hb ltac:(lia)) as (t & Ht & Hcell).
    eapply (take_moves p gs id k c start cur (cur + 1) b Go
      (Sweeping (seqZ (Z.succ (range_start b + (cur - start))) (Z.pred (stop - cur))) i) [] [Dropped t]);
      [done|done|done|done|exact Hb|lia|done| |by left|done| |done|by left|].
    + rewrite Hcst. simpl.
      run_with (drop_task_run (P := P) (range_start b + (cur - start)) t
        (mkWorld (p_queue p) () (c_log c)) ltac:(by rewrite Hrs, word_cell)). done.
    + by apply slice_next.
    + intros s' Hs'. exists b. split; [done|]. split; [done|]. split; [|by intros ?].
      intros _. f_equal; lia.
Qed.

(** The cells of a batch nobody took from hold its tasks. *)
Lemma batch_stored p gs id start stop b (log : list (event W T P)) :
  pool_inv p gs → bounded_at (erase p gs) id start stop start b →
  ∃ tasks, Some <$> tasks = slice start stop (p_pushed p) ∧ b = batch_range start tasks
    ∧ stored start tasks (mkWorld (p_queue p) () log).
Proof.
  intros Hp Hb. destruct (pool_invs _ _ Hp) as (I & _).
  pose proof (bounded_facts _ _ _ _ _ _ (pl_reachable _ _ Hp) Hb)
    as (Hrs & Hre & ? & ? & Hlen & Hcount).
  unfold count in Hcount. simpl in Hcount.
  assert (length (slice start stop (p_pushed p)) = Z.to_nat (stop - start)) as Hl
    by (apply length_slice; lia).
  destruct (all_some (slice start stop (p_pushed p))) as [tasks Ht];
    [apply Forall_take, Forall_drop, (pl_init _ _ Hp)|].
  exists tasks. rewrite <- Ht, length_fmap in Hl. split; [done|]. split.
  - destruct b as [rs re]. simpl in *. unfold batch_range, range_of. rewrite Hrs, Hre, Hl.
    do 2 f_equal. lia.
  - split; [exact (inv_length _ I)|]. split; [lia|]. intros i t Hi.
    pose proof (lookup_lt_Some _ _ _ Hi).
    destruct (task_in_cell _ _ _ _ _ _ _ (start + Z.of_nat i) Hp Hb ltac:(lia))
      as (t' & Ht' & Hcell). simpl. rewrite Hcell.
    assert ((Some <$> tasks) !! i = Some (Some t)) as Hs by (by rewrite list_lookup_fmap, Hi).
    rewrite Ht, slice_lookup in Hs by lia. congruence.
Qed.

Lemma holding_moves p gs id k c start cur b cmd :
  at_stage p gs id k c start cur (Holding b) → may cmd (Holding b) = true →
  simulated p gs id cmd.
Proof.
  intros (Hp & Hk & Hc & Hst & Hcur & Ho & Hd & Hcst & (-> & Hb)) Hmay.
  pose proof (pl_reachable _ _ Hp) as Hr. specialize (Hd eq_refl).
  destruct (batch_stored _ _ _ _ _ _ (c_log c) Hp Hb) as (tasks & Ht & Hbr & Hstored).
  destruct (as_slices_run _ _ _ Hstored) as (front & back & Hs & Happ). rewrite <- Hbr in Hs.
  destruct cmd; try done.
  - eapply (local_moves p gs id k c start start Look (Holding b)); try done.
    rewrite Hcst. simpl. unfold iter.
    erewrite run_bind by (erewrite run_bind by exact Hs; reflexivity). done.
  - eapply (local_moves p gs id k c start start IntoIter (Iterating (into_iter b))); try done.
    + by rewrite Hcst.
    + by apply into_iter_ok.
  - pose proof (bounded_facts _ _ _ _ _ _ Hr Hb) as (_ & _ & ? & ? & _).
    eapply (take_moves p gs id k c start start (batch_end (erase p gs) k) b ToVec
      (Leaving (index_mask (range_start b))) (front ++ back) []);
      [done|done|done|done|done|lia|done| |by right|done| |done|by right|].
    + rewrite Hcst. simpl. run_with Hs. by rewrite app_nil_r.
    + rewrite slice_nil, Happ. simpl. by rewrite app_nil_r.
    + intros s' Hs'. by exists b.
  - eapply (local_moves p gs id k c start start DropGuard (sweep b)); try done.
    + by rewrite Hcst.
    + by apply sweep_ok.
Qed.

Lemma drop_iter_moves p gs id k c start cur it :
  at_stage p gs id k c start cur (Iterating it) → simulated p gs id DropGuard.
Proof.
  intros (Hp & Hk & Hc & Hst & Hcur & Ho & Hd & Hcst & Hok).
  eapply (local_moves p gs id k c start cur DropGuard
    (if needs_drop (T := T) then Discarding it else Leaving _)); try done.
  - by rewrite Hcst.
  - intros _. by apply Hd.
  - destruct needs_drop eqn:Hnd; [exact Hok|]. exists (iter_range it).
    split; [apply Hok|]. split; [done|]. intros _. by rewrite Hnd.
Qed.

Lemma leaving_moves p gs id k c start cur i :
  at_stage p gs id k c start cur (Leaving i) → simulated p gs id Go.
Proof.
  intros (Hp & Hk & Hc & Hst & Hcur & Ho & _ & Hcst & (b & Hb & -> & Hx)).
  set (one := one_shifted (index_mask (range_start b))).
  set (q' := set_occupancy (wrapping_sub usize_bits (occupancy (inner (p_queue p))) one) (p_queue p)).
  set (last := occupancy (inner (p_queue p)) =? one).
  set (gs' := if last then <[id := Waking region_size]> gs else delete id gs).
  assert (step (erase p gs) (mkSys q' (p_pc p) gs' (p_pushed p) (p_trace p))) as Hstep
    by (eapply step_release; [exact Hb|reflexivity]).
  eapply (consumer_moves p gs id k c start Go (if last then Rousing region_size else Left) []
    (mkWorld q' () (c_log c)) gs' []); try done; simpl.
  - rewrite Hcst. done.
  - by rewrite app_nil_r.
  - intros id' Hne. unfold gs'. destruct last.
    + by apply fin_maps.lookup_insert_ne.
    + by apply fin_maps.lookup_delete_ne.
  - rewrite app_nil_r. by apply rtc_once.
  - rewrite !app_nil_r. exists cur. set (s' := mkSys _ _ _ _ _).
    change (batch_end s' k) with (batch_end (erase p gs) k).
    do 2 (split; [done|]). split; [by destruct last|]. simpl. unfold gs'.
    destruct last; simpl; (split; [|done]).
    + apply fin_maps.lookup_insert_eq.
    + apply fin_maps.lookup_delete_eq.
Qed.

(** A move inside the loop of [deoccupy_region]. *)
Lemma waking_moves p gs id k c start cur limit st w gs' evs :
  at_stage p gs id k c start cur (Rousing limit) →
  advance Go (Rousing limit) (mkWorld (p_queue p) () (c_log c)) = Done ((st, []), w) →
  trace w = c_log c ++ evs → (∃ d, queue w = set_pending d (p_queue p)) →
  (∀ id', id' ≠ id → gs' !! id' = gs !! id') →
  step (erase p gs)
    (mkSys (queue w) (p_pc p) gs' (p_pushed p) (p_trace p ++ (Woke <$> wakes evs))) →
  dropped evs = [] →
  match st with
  | Rousing l => gs' !! id = Some (Waking l)
  | Left => gs' !! id = None
  | _ => False
  end → simulated p gs id Go.
Proof.
  intros (Hp & Hk & Hc & Hst & Hcur & Ho & _ & Hcst & (Hg & Hx)) Hadv Htr [d Hq] Hgs Hstep Hdr Hst'.
  eapply (consumer_moves p gs id k c start Go st [] w gs' evs); try done.
  - by rewrite Hcst.
  - by rewrite Hq.
  - by apply rtc_once.
  - exists cur. set (s' := mkSys _ _ _ _ _).
    assert (batch_end s' k = batch_end (erase p gs) k) as ->.
    { apply same_starts; [unfold claimed, begun, s'; simpl; by rewrite Hq|].
      unfold batch_starts, s'. simpl. by rewrite omap_app, no_batch_woken, app_nil_r. }
    split; [done|]. split.
    { unfold output in *. simpl. by rewrite app_nil_r, dropped_app, Hdr, app_nil_r. }
    split; [by destruct st|]. by destruct st.
Qed.

Lemma rousing_moves p gs id k c start cur limit :
  at_stage p gs id k c start cur (Rousing limit) → simulated p gs id Go.
Proof.
  intros Hat. pose proof Hat as (Hp & _ & _ & _ & _ & _ & _ & _ & (Hg & _)).
  destruct (pool_invs _ _ Hp) as (I & _). pose proof (inv_guards _ I _ _ Hg) as Hlim. simpl in Hlim.
  pose proof region_size_le. set (w := mkWorld (p_queue p) () (c_log c)).
  destruct (Z.ltb_spec 0 limit) as [Hpos|Hzero].
  2:{ assert (limit = 0) as -> by lia.
      apply (waking_moves p gs id k c start cur 0 Left w (delete id gs) []); try done; simpl.
      - by rewrite app_nil_r.
      - exists (pending (p_queue p)). by destruct (p_queue p).
      - intros id' Hne. by apply fin_maps.lookup_delete_ne.
      - rewrite app_nil_r. by apply step_wake_limit.
      - apply fin_maps.lookup_delete_eq. }
  destruct (stealer_steal (pending (p_queue p))) as [r d] eqn:Hs.
  pose proof (steal_waker_run w r d Hs) as Hsteal.
  assert ((0 <? limit) = true) as Hl by (by apply Z.ltb_lt).
  destruct r as [|waker|].
  - eapply (waking_moves p gs id k c start cur limit Left _ (delete id gs) []);
      [done|simpl; rewrite Hl; by run_with Hsteal|simpl..]; try done.
    + by rewrite app_nil_r.
    + by exists d.
    + intros id' Hne. by apply fin_maps.lookup_delete_ne.
    + rewrite app_nil_r. by eapply step_wake_empty.
    + apply fin_maps.lookup_delete_eq.
  - apply (waking_moves p gs id k c start cur limit (Rousing (limit - 1))
      (mkWorld (set_pending d (p_queue p)) () (c_log c ++ [Woken waker]))
      (<[id := Waking (limit - 1)]> gs) [Woken waker]); try done.
    + simpl. rewrite Hl. run_with Hsteal. unfold wrapping_sub.
      by rewrite wrap_small by (rewrite safe_usize_bits; split; lia).
    + simpl. by exists d.
    + intros id' Hne. by apply fin_maps.lookup_insert_ne.
    + by apply step_wake.
    + apply fin_maps.lookup_insert_eq.
  - eapply (waking_moves p gs id k c start cur limit (Rousing limit) _ gs []);
      [done|simpl; rewrite Hl; by run_with Hsteal|simpl..]; try done.
    + by rewrite app_nil_r.
    + by exists d.
    + rewrite app_nil_r. by eapply step_wake_retry.
Qed.

(** Every consumer is at some batch. *)
Lemma consumer_at p gs id c :
  pool_inv p gs → p_consumers p !! id = Some c →
  ∃ k start cur, at_stage p gs id k c start cur (c_stage c).
Proof.
  intros Hp Hc. assert (id ∈ p_begun p) as [k Hk]%list_elem_of_lookup_1
    by (apply (pl_begun _ _ Hp); by eexists).
  destruct (lookup_lt_is_Some_2 (batch_starts (erase p gs)) k) as [start Hst].
  { rewrite <- (pl_batches _ _ Hp). by eapply lookup_lt_Some. }
  destruct (pl_consumers _ _ Hp _ _ _ _ Hk Hc Hst) as (cur & ? & ? & ? & ?).
  exists k, start, cur. unfold at_stage. split_and!; done || tauto.
Qed.

Lemma command_simulated p gs id cmd :
  pool_inv p gs → pool_allows (Command id cmd) p = true → simulated p gs id cmd.
Proof.
  intros Hp Hmay. simpl in Hmay. destruct (p_consumers p !! id) as [c|] eqn:Hc; [|done].
  destruct (consumer_at _ _ _ _ Hp Hc) as (k & start & cur & Hat).
  destruct (c_stage c) as [r|b|it|it|rest i|i|limit|] eqn:Hst.
  - destruct Hat as (_ & Hk & _ & Hs & Hcur & Ho & Hd & _ & Hok).
    assert (consumer_ok (erase p gs) id k start c) as Hcok
      by (exists cur; rewrite Hst; split_and!; done || tauto).
    destruct cmd; try done.
    + eapply (bound_moves p gs id k c r start IntoBounded Holding); try done.
    + eapply (bound_moves p gs id k c r start DropGuard sweep); try done.
      intros. by apply sweep_ok.
  - by eapply holding_moves.
  - destruct cmd; try done; [by eapply next_task_moves|by eapply drop_iter_moves].
  - destruct cmd; try done. by eapply discard_moves.
  - destruct cmd; try done. by eapply sweep_moves.
  - destruct cmd; try done. by eapply leaving_moves.
  - destruct cmd; try done. by eapply rousing_moves.
  - by destruct cmd.
Qed.

(** ** The moves of the owner *)

(** The consumers that were there before a step of the owner. *)
Lemma consumer_keeps s s' id k start c :
  keeps_batches s s' → ranges_inv s → batches_inv s → batches_inv s' →
  sys_guards s' !! id = sys_guards s !! id → batch_starts s !! k = Some start →
  (has_open s → S k < length (batch_starts s) ∨ ∃ r, c_stage c = Opened r)%nat →
  consumer_ok s id k start c → consumer_ok s' id k start c.
Proof.
  intros ([l Hh] & Hopen & Hkeep & Hend) I B B' Hg Hk Hlast (cur & Hcur & Ho & Hd & Hok).
  assert (0 ≤ start) as Hpos.
  { pose proof (batches_prefix s k I B) as [Hx _]; [apply lookup_lt_Some in Hk; lia|].
    by rewrite Hk in Hx. }
  pose proof (batch_end_le_claimed s k B) as Hle. destruct (inv_owner _ I) as (phase & _ & Hown).
  pose proof (claimed_le_count _ _ Hown) as Hcl. unfold count in Hcl.
  exists cur. rewrite Hh, slice_app_l by lia.
  destruct (c_stage c) as [r| | | | | | |] eqn:Hst; simpl in Hok.
  { destruct Hok as (-> & Hgu & Hl).
    assert (has_open s) as Hx by (by do 3 eexists).
    pose proof (bt_nonempty _ B' _ _ (Hkeep _ _ Hk)).
    split; [lia|]. do 2 (split; [done|]). simpl. by rewrite Hg, (Hopen Hx). }
  all: assert (batch_end s' k = batch_end s k) as ->
    by (apply Hend; [by eapply lookup_lt_Some|by intros [|[? [=]]]%Hlast]).
  all: do 3 (split; [done|]); unfold stage_ok, bounded_at in *; by rewrite Hg.
Qed.

(** Only the newest batch can be open, and then its consumer has not closed it. *)
Lemma open_is_last p gs k id c :
  pool_inv p gs → p_begun p !! k = Some id → p_consumers p !! id = Some c →
  has_open (erase p gs) →
  (S k < length (batch_starts (erase p gs)) ∨ ∃ r, c_stage c = Opened r)%nat.
Proof.
  intros Hp Hk Hc (id' & base_slot & start & Hg). simpl in Hg.
  destruct (pool_invs _ _ Hp) as (_ & _ & B).
  assert (id' ∈ p_begun p) as Hin by (apply (pl_guards _ _ Hp); by eexists).
  destruct (proj1 (pl_begun _ _ Hp id') Hin) as [c' Hc'].
  destruct (consumer_at _ _ _ _ Hp Hc') as (k' & start' & cur & (_ & Hk' & _ & Hs' & _ & _ & _ & _ & Hok)).
  assert (S k' = length (batch_starts (erase p gs)) ∧ ∃ r, c_stage c' = Opened r) as [Hlast Hop].
  { destruct (c_stage c'); simpl in Hok; unfold bounded_at in Hok; simpl in Hok.
    - destruct Hok as (_ & _ & ?). by split; [|eexists].
    - destruct Hok as [_ ?]. congruence.
    - destruct Hok as [? _]. congruence.
    - destruct Hok as [? _]. congruence.
    - destruct Hok as (b & ? & _). congruence.
    - destruct Hok as (b & ? & _). congruence.
    - destruct Hok as [? _]. congruence.
    - destruct Hok as [? _]. congruence. }
  destruct (decide (k = k')) as [->|Hne].
  { right. destruct Hop as [r Hr]. exists r. congruence. }
  left. pose proof (lookup_lt_Some _ _ _ Hk). pose proof (pl_batches _ _ Hp). lia.
Qed.

Lemma owner_initialised t cx id q pc gs h tr s' :
  owner_action (Some t) cx id (mkSys q pc gs h tr) = Some s' → initialised pc h →
  initialised (sys_pc s') (sys_history s').
Proof.
  intros Ha [Hh Hpc]. unfold initialised. destruct pc; simpl in Ha.
  - destruct (check_write_index _ q) as [[[] q']| |]; simplify_eq; simpl; by eauto.
  - destruct (write_cell _ _ q) as [[[] q']| |]; simplify_eq. by simpl.
  - simplify_eq. simpl. split; [|done]. apply Forall_app. by split; [|apply Forall_singleton].
  - simplify_eq. simpl. by destruct (_ =? 0).
  - destruct (gs !! id); simplify_eq. by simpl.
  - simplify_eq. by simpl.
Qed.

(** A step of the owner begins a batch or leaves guards and batches alone. *)
Lemma owner_begins t cx id q pc h tr s' :
  owner_action (Some t) cx id (mkSys q pc ∅ h tr) = Some s' →
  (sys_guards s' = ∅ ∧ sys_trace s' = tr)
  ∨ ∃ index base_slot, pc = Occupying index base_slot
      ∧ sys_guards s' = {[id := Unbounded base_slot (Z.of_nat (length h) - 1)]}
      ∧ sys_history s' = h ∧ sys_trace s' = tr ++ [Began (Z.of_nat (length h) - 1)].
Proof.
  intros Ha. destruct pc; simpl in Ha.
  - left. by destruct (check_write_index _ q) as [[[] q']| |]; simplify_eq.
  - left. by destruct (write_cell _ _ q) as [[[] q']| |]; simplify_eq.
  - left. by simplify_eq.
  - left. by simplify_eq.
  - right. exists index, base_slot. rewrite lookup_empty in Ha. by simplify_eq.
  - left. by simplify_eq.
Qed.

(** What a step of the owner has to show of the consumers. *)
Lemma owner_moves p gs t cx id s1 cs begun gs' :
  pool_inv p gs → p_consumers p !! id = None →
  owner_action (Some t) cx id (mkSys (p_queue p) (p_pc p) ∅ (p_pushed p) (p_trace p)) = Some s1 →
  let p' := mkPool (sys_queue s1) (sys_pc s1) cs begun (sys_history s1) (sys_trace s1) in
  gs' = sys_guards s1 ∪ gs →
  (∀ id, id ∈ begun ↔ is_Some (cs !! id)) → NoDup begun →
  length begun = length (batch_starts (erase p' gs')) →
  (∀ id, is_Some (gs' !! id) → id ∈ begun) →
  (∀ k id' c start, begun !! k = Some id' → cs !! id' = Some c →
     batch_starts (erase p' gs') !! k = Some start →
     (p_begun p !! k = Some id' ∧ p_consumers p !! id' = Some c
      ∧ batch_starts (erase p gs) !! k = Some start ∧ gs' !! id' = gs !! id')
     ∨ (batches_inv (erase p' gs') → consumer_ok (erase p' gs') id' k start c)) →
  rtc step (erase p gs) (erase p' gs') ∧ pool_inv p' gs'.
Proof.
  intros Hp Hid Hs1 p' -> Hb Hnd Hlen Hg Hcs. destruct (pool_invs _ _ Hp) as (I & E & B).
  assert (gs !! id = None) as Hfree.
  { apply eq_None_not_Some. intros Hx%(pl_guards _ _ Hp)%(pl_begun _ _ Hp).
    rewrite Hid in Hx. by destruct Hx. }
  assert (owner_action (Some t) cx id (erase p gs) = Some (erase p' (sys_guards s1 ∪ gs))) as Hfull
    by (unfold erase at 1; rewrite owner_action_guards, Hs1 by done; reflexivity).
  pose proof (owner_action_sound _ _ _ _ _ Hfull) as Hstep.
  pose proof (owner_action_batches _ _ _ _ _ Hfull I) as Hkeeps.
  assert (reachable None (erase p' (sys_guards s1 ∪ gs))) as Hr
    by (eapply rtc_r; [exact (pl_reachable _ _ Hp)|exact Hstep]).
  pose proof (batches_inv_reachable _ _ Hr) as [I' B'].
  split; [by apply rtc_once|]. split; try done.
  - exact (owner_initialised _ _ _ _ _ _ _ _ _ Hs1 (pl_init _ _ Hp)).
  - intros k id' c start Hk Hc Hst.
    destruct (Hcs _ _ _ _ Hk Hc Hst) as [(Hk0 & Hc0 & Hst0 & Hg0)|Hok]; [|by apply Hok].
    apply (consumer_keeps (erase p gs)); try done; [|by eapply (pl_consumers _ _ Hp)].
    intros Hop. by eapply open_is_last.
Qed.

Lemma push_simulated p gs t cx id :
  pool_inv p gs → pool_allows (Push t cx id) p = true →
  ∃ p' gs', owner_move t cx id p = Done ((), p') ∧ rtc step (erase p gs) (erase p' gs')
    ∧ pool_inv p' gs'.
Proof.
  intros Hp Hid%bool_decide_eq_true. destruct (pool_invs _ _ Hp) as (I & _).
  assert (id ∉ p_begun p) as Hnew by (intros [c Hc]%(pl_begun _ _ Hp); congruence).
  assert (gs !! id = None) as Hg by (apply eq_None_not_Some; by intros Hx%(pl_guards _ _ Hp)).
  destruct (owner_action_total (Some t) cx id _ _ _ _ _ I Hg) as [s' Hs'].
  rewrite owner_action_guards in Hs' by done. apply fmap_Some in Hs' as (s1 & Hs1 & _).
  destruct (owner_begins _ _ _ _ _ _ _ _ Hs1) as [(Hgs & Htr)|(index & base & Hpc & Hgs & Hh & Htr)].
  - do 2 eexists. split.
    { unfold owner_move. rewrite Hs1, Hgs, lookup_empty. reflexivity. }
    eapply (owner_moves p gs t cx id s1 _ _ gs); try done.
    + by rewrite Hgs, (left_id_L ∅ (∪)).
    + apply (pl_begun _ _ Hp).
    + apply (pl_distinct _ _ Hp).
    + unfold batch_starts. simpl. rewrite Htr. apply (pl_batches _ _ Hp).
    + apply (pl_guards _ _ Hp).
    + intros k id' c start Hk Hc Hst. left. unfold batch_starts in Hst. simpl in Hst.
      rewrite Htr in Hst. done.
  - set (start := Z.of_nat (length (p_pushed p)) - 1) in *.
    do 2 eexists. split.
    { unfold owner_move. rewrite Hs1, Hgs, lookup_singleton_eq. reflexivity. }
    set (gs' := <[id := Unbounded base start]> gs).
    set (p' := mkPool _ _ _ _ _ _).
    assert (batch_starts (erase p' gs') = batch_starts (erase p gs) ++ [start]) as Hst'
      by (unfold batch_starts; simpl; by rewrite Htr, omap_app).
    eapply (owner_moves p gs t cx id s1 _ _ gs'); try done.
    + unfold gs'. by rewrite Hgs, insert_union_singleton_l.
    + intros id'. rewrite elem_of_app, list_elem_of_singleton, (pl_begun _ _ Hp).
      destruct (decide (id' = id)) as [->|Hne].
      * rewrite fin_maps.lookup_insert_eq. split; [by eexists|by right].
      * rewrite fin_maps.lookup_insert_ne by done. split; [by intros [?|?]|by left].
    + apply NoDup_app. split_and!; [apply (pl_distinct _ _ Hp)| |apply NoDup_singleton].
      by intros x Hx ->%list_elem_of_singleton.
    + change (mkPool _ _ _ _ _ _) with p'. rewrite Hst', !length_app, (pl_batches _ _ Hp). done.
    + intros id' Hx. rewrite elem_of_app, list_elem_of_singleton.
      destruct (decide (id' = id)) as [->|Hne]; [by right|left].
      unfold gs' in Hx. rewrite fin_maps.lookup_insert_ne in Hx by done. by apply (pl_guards _ _ Hp).
    + change (mkPool _ _ _ _ _ _) with p'. rewrite Hst'. intros k id' c b Hk Hc Hb.
      pose proof (pl_batches _ _ Hp) as Hlen.
      apply lookup_app_Some in Hk as [Hk|[Hk Hx]].
      * left. pose proof (lookup_lt_Some _ _ _ Hk). assert (id' ≠ id) as Hne
          by (intros ->; apply Hnew; by eapply list_elem_of_lookup_2).
        rewrite fin_maps.lookup_insert_ne in Hc by done. rewrite lookup_app_l in Hb by lia.
        unfold gs'. rewrite fin_maps.lookup_insert_ne by done. done.
      * right. apply list_lookup_singleton_Some in Hx as [Hx <-].
        rewrite fin_maps.lookup_insert_eq in Hc. simplify_eq.
        rewrite lookup_app_r in Hb by lia.
        intros B'. assert (batch_starts (erase p' gs') !! k = Some b) as Hk'
          by (rewrite Hst', lookup_app_r by lia; exact Hb).
        pose proof (bt_nonempty _ B' _ _ Hk').
        apply list_lookup_singleton_Some in Hb as [Hkl <-].
        exists start. split; [lia|]. rewrite slice_nil. do 2 (split; [done|]).
        split; [done|]. split; [apply fin_maps.lookup_insert_eq|].
        rewrite Hst', length_app. simpl. lia.
Qed.

Lemma perform_simulated p gs m :
  pool_inv p gs → pool_allows m p = true →
  ∃ p' gs', pool_perform m p = Done ((), p') ∧ rtc step (erase p gs) (erase p' gs')
    ∧ pool_inv p' gs'.
Proof.
  intros Hp Hm. destruct m as [t cx id| |id cmd].
  - by apply push_simulated.
  - simpl in Hm. destruct (p_pc p) as [| | | | |w] eqn:Hpc; try done.
    set (p' := mkPool (p_queue p) Idle (p_consumers p) (p_begun p) (p_pushed p) (p_trace p)).
    assert (step (erase p gs) (erase p' gs)) as Hstep
      by (unfold erase; rewrite Hpc; apply step_give_up).
    exists p', gs. split; [done|]. split; [by apply rtc_once|].
    destruct Hp as [Hr [Hi _] Hb Hnd Hlen Hg Hcs]. split; try done.
    + by eapply rtc_r.
    + intros k id c start Hk Hc Hst. apply (consumer_frame (erase p gs)); try done.
      * unfold claimed, begun. simpl. by rewrite Hpc.
      * by eapply Hcs.
  - by apply command_simulated.
Qed.

Lemma pool_inv_reachable p : pool_reachable p → ∃ gs, pool_inv p gs.
Proof.
  intros Hr. eapply (rtc_invariant pool_step (λ p, ∃ gs, pool_inv p gs)); [| |exact Hr].
  - intros p1 p2 (m & Ha & Hm) [gs Hp].
    destruct (perform_simulated p1 gs m Hp Ha) as (p' & gs' & Hp' & _ & Hinv).
    exists gs'. congruence.
  - exists ∅. apply pool_inv_start.
Qed.

(** C12. The queue over plain cells, with its guards at work on their threads, refines the
    interleaving model: whatever the program has come to, every access it can make next,
    of the owner or of a guard, in a range, an iterator or a destructor, returns without
    undefined behaviour, and is a run of steps of [Protocol] for some guards behind it. *)
Theorem consumers_refine_protocol p :
  pool_reachable p →
  ∃ gs, reachable None (erase p gs)
    ∧ ∀ m, pool_allows m p = true →
        ∃ p' gs', pool_perform m p = Done ((), p') ∧ rtc step (erase p gs) (erase p' gs').
Proof.
  intros [gs Hp]%pool_inv_reachable. exists gs. split; [exact (pl_reachable _ _ Hp)|].
  intros m Hm. destruct (perform_simulated p gs m Hp Hm) as (p' & gs' & Hdo & Hrun & _). eauto.
Qed.

Definition finished c : bool := match c_stage c with Rousing _ | Left => true | _ => false end.

(** The tasks of batch [k], among the tasks pushed. *)
Definition batch_of s (ts : list T) (k : nat) : list T :=
  match batch_starts s !! k with Some b => slice b (batch_end s k) ts | None => [] end.

Lemma batch_of_tasks s ts k :
  Some <$> ts = sys_history s → Some <$> batch_of s ts k = batch_tasks s k.
Proof.
  intros Ht. unfold batch_of, batch_tasks. destruct (batch_starts s !! k); [|done].
  by rewrite <- Ht, slice_fmap.
Qed.

Lemma batches_before s ts k :
  Some <$> ts = sys_history s → ranges_inv s → batches_inv s → (k ≤ length (batch_starts s))%nat →
  concat (batch_of s ts <$> seq 0 k) = take (Z.to_nat (default (claimed s) (batch_starts s !! k))) ts.
Proof.
  intros Ht I B Hk. destruct (batches_prefix s k I B Hk) as [_ Hpre].
  apply (inj (fmap Some)). rewrite fmap_take, Ht, <- Hpre. unfold fmap. rewrite concat_map, map_map.
  f_equal. apply map_ext. intros j. by apply batch_of_tasks.
Qed.

(** What is left of the batch of a consumer. *)
Lemma consumer_rest p gs id k c ts :
  pool_inv p gs → Some <$> ts = p_pushed p → p_begun p !! k = Some id →
  p_consumers p !! id = Some c →
  ∃ start cur, batch_starts (erase p gs) !! k = Some start
    ∧ 0 ≤ start ≤ cur ∧ cur ≤ batch_end (erase p gs) k ≤ Z.of_nat (length ts)
    ∧ batch_of (erase p gs) ts k = output c ++ slice cur (batch_end (erase p gs) k) ts
    ∧ (finished c = true → exhausted start (batch_end (erase p gs) k) cur).
Proof.
  intros Hp Ht Hk Hc. destruct (pool_invs _ _ Hp) as (I & _ & B).
  destruct (lookup_lt_is_Some_2 (batch_starts (erase p gs)) k) as [start Hst].
  { rewrite <- (pl_batches _ _ Hp). by eapply lookup_lt_Some. }
  destruct (pl_consumers _ _ Hp _ _ _ _ Hk Hc Hst) as (cur & Hcur & Ho & _ & Hok).
  destruct (batches_prefix _ k I B) as [Hpos _]; [apply lookup_lt_Some in Hst; lia|].
  rewrite Hst in Hpos. simpl in Hpos.
  pose proof (batch_end_le_claimed _ k B) as Hle. destruct (inv_owner _ I) as (phase & _ & Hown).
  pose proof (claimed_le_count _ _ Hown) as Hcl. unfold count in Hcl. simpl in Hcl.
  rewrite <- Ht, length_fmap in Hcl.
  exists start, cur. split; [done|]. split; [lia|]. split; [lia|]. split.
  - unfold batch_of. rewrite Hst, <- (slice_split start cur) by lia. f_equal.
    apply (inj (fmap Some)). simpl in Ho. by rewrite Ho, <- Ht, slice_fmap.
  - unfold finished. destruct (c_stage c); try done; intros _; apply Hok.
Qed.

(** C13. Whatever the interleaving, the batches are the pushed tasks cut into pieces, in order,
    and what came out of a guard so far, moved out or dropped, is the beginning of its piece:
    no task comes out twice, of two guards, or out of order. When the type has a destructor and
    the task counter did not wrap in the batch, nothing is left of the piece once the region
    was released. *)
Theorem consumed_once_in_order p :
  pool_reachable p →
  ∃ batches : list (list T), length batches = length (p_begun p)
    ∧ Some <$> concat batches `prefix_of` p_pushed p
    ∧ (p_pc p = Idle → Some <$> concat batches = p_pushed p)
    ∧ ∀ k id c, p_begun p !! k = Some id → p_consumers p !! id = Some c →
        ∃ rest, batches !! k = Some (output c ++ rest)
          ∧ let first := Z.of_nat (length (concat (take k batches))) in
            let next := first + Z.of_nat (length (output c ++ rest)) in
            (finished c = true → needs_drop (T := T) = true → fits first next → rest = []).
Proof.
  intros [gs Hp]%pool_inv_reachable. destruct (pool_invs _ _ Hp) as (I & _ & B).
  destruct (all_some _ (proj1 (pl_init _ _ Hp))) as [ts Ht]. set (s := erase p gs) in *.
  set (n := length (batch_starts s)).
  pose proof (batches_before s ts n Ht I B ltac:(done)) as Hall.
  rewrite lookup_ge_None_2 in Hall by lia. simpl in Hall.
  exists (batch_of s ts <$> seq 0 n). split; [|split; [|split]].
  - rewrite length_fmap, length_seq. symmetry. apply (pl_batches _ _ Hp).
  - rewrite Hall, fmap_take, Ht. exists (drop (Z.to_nat (claimed s)) (p_pushed p)).
    by rewrite take_drop.
  - intros Hpc. rewrite Hall. unfold claimed, begun, s. simpl. rewrite Hpc. simpl. unfold count.
    simpl. rewrite <- Ht, length_fmap. by rewrite firstn_all2 by lia.
  - intros k id c Hk Hc. assert (k < n)%nat as Hkn.
    { apply lookup_lt_Some in Hk. rewrite (pl_batches _ _ Hp) in Hk. done. }
    destruct (consumer_rest _ _ _ _ _ ts Hp Ht Hk Hc) as (start & cur & Hst & Hsc & Hce & Hb & Hx).
    fold s in Hst, Hce, Hb, Hx. exists (slice cur (batch_end s k) ts). rewrite <- Hb.
    split; [by rewrite list_lookup_fmap, lookup_seq_lt by done|].
    rewrite <- fmap_take, take_seq, Nat.min_l by lia.
    rewrite (batches_before s ts k Ht I B ltac:(lia)), Hst.
    simpl. rewrite length_take. unfold batch_of. rewrite Hst, length_slice by lia.
    replace (Z.of_nat (Z.to_nat start `min` length ts)) with start by lia.
    replace (start + Z.of_nat (Z.to_nat (batch_end s k - start))) with (batch_end s k) by lia.
    intros Hf Hnd Hfit. rewrite (Hx Hf) by done. by apply slice_nil.
Qed.
End streams.

(** * The operations of the guards are their moves, one after the other *)
Section operations.
Context {C : QueueCfg} {T W P D : Type} `{Deque W D} `{NeedsDrop T}.
Abbreviation guard_world := (world (option T) D unit (event W T P)).
Implicit Types (w : guard_world) (st : stage) (ts : list T).

Definition leads st w ts st' w' : Prop :=
  ∃ cmds, advance_all cmds st w = Done ((st', ts), w').

Lemma leads_refl st w : leads st w [] st w.
Proof. by exists []. Qed.

Lemma leads_step cmd st w ts1 st1 w1 ts2 st' w' :
  advance cmd st w = Done ((st1, ts1), w1) → leads st1 w1 ts2 st' w' →
  leads st w (ts1 ++ ts2) st' w'.
Proof.
  intros Ha [cmds Hc]. exists (cmd :: cmds). simpl. run_with Ha. simpl. run_with Hc. done.
Qed.

Lemma leads_local cmd st w st1 w1 ts st' w' :
  advance cmd st w = Done ((st1, []), w1) → leads st1 w1 ts st' w' → leads st w ts st' w'.
Proof. intros Ha. by apply (leads_step cmd st w [] st1 w1 ts). Qed.

Lemma leads_trans st w ts1 st1 w1 ts2 st' w' :
  leads st w ts1 st1 w1 → leads st1 w1 ts2 st' w' → leads st w (ts1 ++ ts2) st' w'.
Proof.
  intros [cmds Hc]. revert st w ts1 Hc. induction cmds as [|cmd cmds IH]; intros st w ts1 Hc Hl.
  - simpl in Hc. by injection Hc as <- <- <-.
  - simpl in Hc. apply bind_done in Hc as ([st2 ts2'] & w2 & Ha & Hc).
    apply bind_done in Hc as ([st3 ts3] & w3 & Hc & Hr). injection Hr as <- <- <-. simpl.
    rewrite <- app_assoc. eapply leads_step; [exact Ha|]. by eapply IH.
Qed.

Lemma wake_pending_leads fuel limit w w' :
  wake_pending fuel limit w = Done ((), w') → leads (Rousing limit) w [] Left w'.
Proof.
  revert limit w. induction fuel as [|fuel IH]; intros limit w Hr; [done|]. simpl in Hr.
  destruct (0 <? limit) eqn:Hl.
  - apply bind_done in Hr as (r & w1 & Hs & Hr).
    assert (∀ st, (r = Empty → st = Left) → (r = Retry → st = Rousing limit) →
      (∀ wk, r = Success wk → False) → advance Go (Rousing limit) w = Done ((st, []), w1)) as Hgo.
    { intros st He Hr' Hsu. simpl. rewrite Hl. run_with Hs. destruct r as [|wk|].
      - by rewrite He. - by destruct (Hsu wk). - by rewrite Hr'. }
    destruct r as [|wk|].
    + injection Hr as <-. eapply (leads_local Go); [by apply (Hgo Left)|apply leads_refl].
    + apply bind_done in Hr as ([] & w2 & He & Hr).
      eapply (leads_local Go); [|by apply IH]. simpl. rewrite Hl. run_with Hs. by run_with He.
    + eapply (leads_local Go); [by apply (Hgo (Rousing limit))|by apply IH].
  - injection Hr as <-. eapply (leads_local Go); [|apply leads_refl]. simpl. by rewrite Hl.
Qed.

Lemma release_leads i w w' :
  deoccupy_region i w = Done ((), w') → leads (Leaving i) w [] Left w'.
Proof.
  intros Hr. apply bind_done in Hr as (prev & w1 & Hf & Hr).
  assert (advance Go (Leaving i) w
    = Done ((if prev =? one_shifted i then Rousing region_size else Left, []), w1)) as Hgo
    by (simpl; by run_with Hf).
  eapply (leads_local Go); [exact Hgo|]. destruct (prev =? one_shifted i).
  - apply bind_done in Hr as (n & w2 & Hn & Hr).
    assert (w2 = w1) as -> by (injection Hn as _ <-; by destruct w1).
    by eapply wake_pending_leads.
  - injection Hr as <-. apply leads_refl.
Qed.

Lemma next_range it w o it' w' :
  next it w = Done ((o, it'), w') → iter_range it' = iter_range it.
Proof.
  unfold next. destruct (_ <? _); intros Hn; [|by injection Hn as _ <- _].
  apply bind_done in Hn as (t & w1 & _ & Hn). by injection Hn as _ <- _.
Qed.

Lemma discard_leads fuel it it' w w' :
  next_loop fuel it (λ task, emit (Dropped task)) w = Done (it', w') →
  leads (Discarding it) w [] (Leaving (index_mask (range_start (iter_range it)))) w'.
Proof.
  revert it w. induction fuel as [|fuel IH]; intros it w Hr; [done|]. simpl in Hr.
  apply bind_done in Hr as ([[t|] it1] & w1 & Hn & Hr); pose proof (next_range _ _ _ _ _ Hn) as Hb.
  - apply bind_done in Hr as ([] & w2 & He & Hr). rewrite <- Hb.
    eapply (leads_local Go); [|by apply IH]. simpl. run_with Hn. by run_with He.
  - injection Hr as <- <-. eapply (leads_local Go); [|apply leads_refl]. simpl. run_with Hn.
    by rewrite Hb.
Qed.

Lemma drop_iter_leads it w w' :
  drop_iter it w = Done ((), w') → leads (Iterating it) w [] Left w'.
Proof.
  intros Hr. apply bind_done in Hr as ([] & w1 & Hd & Hr).
  assert (∀ st : stage, st = (if needs_drop (T := T) then Discarding it
    else Leaving (index_mask (range_start (iter_range it)))) →
    advance DropGuard (Iterating it) w = Done ((st, []), w)) as Hgo by (by intros ? ->).
  eapply (leads_local DropGuard); [by apply Hgo|].
  change (@nil T) with (@nil T ++ []). eapply leads_trans; [|by apply release_leads].
  destruct needs_drop.
  - apply bind_done in Hd as (it' & w2 & Hd & Hx). injection Hx as <-. by eapply discard_leads.
  - injection Hd as <-. apply leads_refl.
Qed.

Lemma sweep_leads indices i w w' :
  for_each indices (λ index, drop_task (index_mask index)) w = Done ((), w') →
  leads (Sweeping indices i) w [] (Leaving i) w'.
Proof.
  revert w. induction indices as [|index indices IH]; intros w Hr; simpl in Hr.
  - injection Hr as <-. eapply (leads_local Go); [reflexivity|apply leads_refl].
  - apply bind_done in Hr as ([] & w1 & Hd & Hr).
    eapply (leads_local Go); [|by apply IH]. simpl. by run_with Hd.
Qed.

Lemma drop_range_leads b w w1 w' :
  drop_range b w = Done ((), w1) →
  deoccupy_region (index_mask (range_start b)) w1 = Done ((), w') →
  leads (sweep (T := T) b) w [] Left w'.
Proof.
  intros Hd Hr. change (@nil T) with (@nil T ++ []).
  eapply leads_trans; [|by apply release_leads]. unfold drop_range, sweep in *.
  destruct needs_drop; [by apply sweep_leads|]. injection Hd as <-. apply leads_refl.
Qed.

Lemma take_leads n it ts w w' :
  take_then_drop n it w = Done (ts, w') → leads (Iterating it) w ts Left w'.
Proof.
  revert it ts w. induction n as [|n IH]; intros it ts w Hr; simpl in Hr.
  - apply bind_done in Hr as ([] & w1 & Hd & Hr). injection Hr as <- <-. by apply drop_iter_leads.
  - apply bind_done in Hr as ([[t|] it1] & w1 & Hn & Hr);
      apply bind_done in Hr as (x & w2 & Hd & Hr); injection Hr as <- <-.
    + apply (leads_step NextTask _ _ [t] (Iterating it1) w1); [simpl; by run_with Hn|by apply IH].
    + eapply (leads_local NextTask); [simpl; by run_with Hn|]. destruct x. by apply drop_iter_leads.
Qed.

(** C14. What the guards do as a whole, on a queue nobody else touches meanwhile, is what their
    moves do one after the other: the destructors of an unbounded and of a bounded range,
    [to_vec], and [into_iter] with any number of calls of [next] before the destructor of
    the iterator, up to the last waker that the release wakes. *)
Theorem guard_operations_are_moves w :
  (∀ r w', drop_unbounded r w = Done ((), w') → leads (Opened r) w [] Left w')
  ∧ (∀ b w', drop_bounded b w = Done ((), w') → leads (Holding b) w [] Left w')
  ∧ (∀ b ts w', to_vec b w = Done (ts, w') → leads (Holding b) w ts Left w')
  ∧ (∀ b n ts w', take_then_drop n (into_iter b) w = Done (ts, w') →
       leads (Holding b) w ts Left w').
Proof.
  split; [|split; [|split]].
  - intros r w' Hr. apply bind_done in Hr as (b & w1 & Hb & Hr).
    apply bind_done in Hr as ([] & w2 & Hd & Hr).
    eapply (leads_local DropGuard); [simpl; by run_with Hb|]. by eapply drop_range_leads.
  - intros b w' Hr. apply bind_done in Hr as ([] & w1 & Hd & Hr).
    eapply (leads_local DropGuard); [reflexivity|]. by eapply drop_range_leads.
  - intros b ts w' Hr. apply bind_done in Hr as ([front back] & w1 & Hs & Hr).
    apply bind_done in Hr as ([] & w2 & Hd & Hr). injection Hr as <- <-. simpl.
    replace (if bool_decide (0 < length back)%nat then back else []) with back
      by (case_bool_decide; [done|]; destruct back; [done|simpl in *; lia]).
    rewrite <- (app_nil_r (front ++ back)). eapply (leads_step ToVec); [simpl; by run_with Hs|].
    by apply release_leads.
  - intros b n ts w' Hr. eapply (leads_local IntoIter); [reflexivity|]. by eapply take_leads.
Qed.
End operations.

(** * A concrete run

    Two tasks in the batch of guard 0, one in that of guard 1; guard 0 moves one task out and
    drops the other; guard 1 is dropped unbounded while its batch is still open. *)
#[local] Instance needs_drop_word : NeedsDrop Z := true.

Definition demo_pool : Type := pool Z Z Z (list_deque Z).

Definition push_moves (t : Z) (id joins : nat) : list (pool_move Z Z) := replicate joins (Push t 7 id).

Definition demo_moves : list (pool_move Z Z) :=
  push_moves 10 0 5 ++ push_moves 11 5 4 ++ [Command 0 IntoBounded; Command 0 IntoIter]
  ++ push_moves 12 1 5 ++ [Command 0 NextTask; Command 1 DropGuard; Command 0 DropGuard; Command 1 Go]
  ++ replicate 3 (Command 0 Go).

Definition demo_after : demo_pool :=
  Eval vm_compute in default (pool_start (C := demo_cfg))
    (pool_run (C := demo_cfg) demo_moves (pool_start (C := demo_cfg))).

Lemma demo_after_reachable : pool_reachable (C := demo_cfg) demo_after.
Proof. apply (pool_run_sound (C := demo_cfg) demo_moves). by vm_compute. Defined.

Lemma consumers_refine_protocol_witness :
  pool_allows (Command 1 Go) demo_after = true
  ∧ ∃ gs, reachable (C := demo_cfg) None (erase demo_after gs)
    ∧ ∀ m, pool_allows m demo_after = true →
        ∃ p' gs', pool_perform (C := demo_cfg) m demo_after = Done ((), p')
          ∧ rtc (step (C := demo_cfg)) (erase demo_after gs) (erase p' gs').
Proof.
  split; [reflexivity|].
  exact (consumers_refine_protocol (C := demo_cfg) demo_after demo_after_reachable).
Defined.

Lemma consumed_once_in_order_witness :
  output <$> p_consumers demo_after !! 0%nat = Some [10; 11]
  ∧ ∃ batches : list (list Z), length batches = 2%nat
    ∧ Some <$> concat batches `prefix_of` [Some 10; Some 11; Some 12]
    ∧ (p_pc demo_after = Idle → Some <$> concat batches = [Some 10; Some 11; Some 12])
    ∧ ∀ k id c, p_begun demo_after !! k = Some id → p_consumers demo_after !! id = Some c →
        ∃ rest, batches !! k = Some (output c ++ rest)
          ∧ let first := Z.of_nat (length (concat (take k batches))) in
            let next := first + Z.of_nat (length (output c ++ rest)) in
            (finished c = true → needs_drop (T := Z) = true →
             fits (C := demo_cfg) first next → rest = []).
Proof.
  split; [reflexivity|].
  exact (consumed_once_in_order (C := demo_cfg) demo_after demo_after_reachable).
Defined.

Lemma guard_operations_are_moves_witness :
  ∃ w', to_vec (C := demo_cfg) (mkBoundedRange 62 65) filled_a = Done ([162; 163; 100], w')
    ∧ leads (C := demo_cfg) (Holding (mkBoundedRange 62 65)) filled_a [162; 163; 100] Left w'.
Proof.
  eexists. split; [vm_compute; reflexivity|].
  apply (guard_operations_are_moves (C := demo_cfg) (P := unit) filled_a). vm_compute. reflexivity.
Defined.
