(* ===== verification/Flags.v ===== *)
(** The memory orderings of the flags of a task: the handover of one value between a
    resolver and the future, with the views of [Views].

    The parties are those of [Handover]; what counts here are the accesses of the receiver
    that are not atomic, its value and its waker, and what orders them. In [Views] the
    future is the agent [Owning], the resolver [Guarding 0], and the word the flags. *)
From stdpp Require Import functions.
From S2P Require Import Views Prelude Usize Helpers Queue TaskRef.
Local Open Scope Z_scope.

(** [fetch_or] and [fetch_xor] of [resolve_unchecked], [fetch_or] and [load] of the destructor. *)
Record flag_orderings : Type := mkFlagOrderings {
  set_or : ordering;
  settle_xor : ordering;
  drop_or : ordering;
  spin_load : ordering
}.

Definition source_flag_orderings : flag_orderings :=
  mkFlagOrderings Views.Release Views.Release AcqRel Acquire.

(** The two places of a receiver. *)
Definition VALUE : Z := 0.
Definition WAKER : Z := 1.

Abbreviation future := Owning.
Abbreviation resolver := (Guarding 0).

(** [RWaking]: inside [wake_by_ref], which borrows the waker until it returns. *)
Inductive resolver_at : Type :=
| RStart
| RWrite
| RWake
| RWaking
| REnd
| RDone (delivered : bool).

(** [Leaving]: about to drop the value and to release the memory. [Taking]: polled again,
    about to replace the receiver by [Received]. *)
Inductive future_at : Type :=
| Waiting
| Spinning (state : Z)
| Leaving (state : Z)
| Taking
| Over (taken : bool).

(** [h_wake]: what is known where the wake-up happened. *)
Record handing : Type := mkHanding {
  h_resolver : resolver_at;
  h_future : future_at;
  h_wake : option view;
  h_mem : memory
}.

Definition has (flags flag : Z) : bool := Z.land flags flag =? flag.
Definition word (m : memory) : Z := from_option fst 0 (last (word_messages m)).

(** The future learns what its executor passes on from the wake-up to the poll. *)
Definition learn (v : view) (m : memory) : memory :=
  mkMemory (accesses m) (<[future := views m future ∪ v]> (views m)) (slot_view m)
    (word_messages m) (word_seen m).

Section defs.
Variables (o : flag_orderings) (wake_sync : bool).

Definition resolver_moves (s : handing) : option handing :=
  let m := h_mem s in
  let go pc m := Some (mkHanding pc (h_future s) (h_wake s) m) in
  match h_resolver s with
  | RStart =>
      go (if Z.land (word m) RX_DROPPED =? 0 then RWrite else RDone false)
         (rmw_word (set_or o) resolver (Z.lor (word m) SETTING_VALUE) m)
  | RWrite => go RWake (touch resolver VALUE 0 true m)
  | RWake =>
      let m := touch resolver WAKER 0 false m in
      Some (mkHanding RWaking (h_future s) (Some (views m resolver)) m)
  | RWaking => go REnd m
  | REnd =>
      go (RDone true)
         (rmw_word (settle_xor o) resolver (Z.lxor (word m) (Z.lor SETTING_VALUE VALUE_SET)) m)
  | RDone _ => None
  end.

(** The destructor; a load of the flags may return any message from [k] on. *)
Definition future_leaves (k : nat) (s : handing) : option handing :=
  let m := h_mem s in
  let go pc m := Some (mkHanding (h_resolver s) pc (h_wake s) m) in
  match h_future s with
  | Waiting => go (Spinning (word m)) (rmw_word (drop_or o) future (Z.lor (word m) RX_DROPPED) m)
  | Spinning state =>
      if Z.land state SETTING_VALUE =? SETTING_VALUE
      then '(v, _) ← word_messages m !! k;
           if decide (word_seen m ≤ k)%nat then go (Spinning v) (load_message (spin_load o) k m)
           else None
      else go (Leaving state) m
  | Leaving _ => go (Over false) (touch future WAKER 0 true (touch future VALUE 0 true m))
  | _ => None
  end.

(** A poll after the wake-up. *)
Definition future_polls (s : handing) : option handing :=
  let m := h_mem s in
  match h_future s, h_wake s with
  | Waiting, Some v =>
      Some (mkHanding (h_resolver s) Taking (h_wake s) (learn (if wake_sync then v else ∅) m))
  | Taking, _ =>
      Some (mkHanding (h_resolver s) (Over true) (h_wake s)
              (touch future WAKER 0 true (touch future VALUE 0 true m)))
  | _, _ => None
  end.

Inductive hand_step (s s' : handing) : Prop :=
| hs_resolver : resolver_moves s = Some s' → hand_step s s'
| hs_leave k : future_leaves k s = Some s' → hand_step s s'
| hs_poll : future_polls s = Some s' → hand_step s s'.

(** A batched task: nothing of its receiver was touched since it was published. *)
Definition hand_start : handing := mkHanding RStart Waiting None initial_memory.
Definition hand_reachable (s : handing) : Prop := rtc hand_step hand_start s.

(** The accesses of the receiver about to happen. While [wake_by_ref] has not returned, it may
    still read the waker it borrows. *)
Inductive next_touch (s : handing) : agent → Z → bool → Prop :=
| nt_write : h_resolver s = RWrite → next_touch s resolver VALUE true
| nt_wake : h_resolver s = RWake → next_touch s resolver WAKER false
| nt_waking : h_resolver s = RWaking → next_touch s resolver WAKER false
| nt_leave state p : h_future s = Leaving state → p = VALUE ∨ p = WAKER → next_touch s future p true
| nt_take p : h_future s = Taking → p = VALUE ∨ p = WAKER → next_touch s future p true.

(** What the destructor needs of the orderings: the value and the wake-up are published with
    the flag, and both ways to see the flag acquire it. *)
Definition flag_sync : bool :=
  releases (settle_xor o) && acquires (drop_or o) && acquires (spin_load o).
End defs.

(** ** The invariant *)
Section invariant.
Variables (o : flag_orderings) (Hsync : flag_sync o = true).
Implicit Types (s : handing) (m : memory) (v : view).

Definition both v : Prop := 0%nat ∈ v ∧ 1%nat ∈ v.

(** The accesses so far: number 0 writes the value, number 1 reads the waker. *)
Definition resolver_touches (pc : resolver_at) : list access :=
  let write := mkAccess resolver VALUE 0 true in
  match pc with
  | RStart | RWrite | RDone false => []
  | RWake => [write]
  | RWaking | REnd | RDone true => [write; mkAccess resolver WAKER 0 false]
  end.
Definition future_touches (pc : future_at) : list access :=
  match pc with
  | Over _ => [mkAccess future VALUE 0 true; mkAccess future WAKER 0 true]
  | _ => []
  end.

Definition resolver_flag (pc : resolver_at) : Z :=
  match pc with
  | RStart => 0
  | RDone true => VALUE_SET
  | _ => SETTING_VALUE
  end.
Definition dropped_flag (pc : future_at) : Z :=
  match pc with Spinning _ | Leaving _ | Over false => RX_DROPPED | _ => 0 end.

(** What the state the destructor last saw says about the resolver. *)
Definition seen_by (state : Z) (pc : resolver_at) : Prop :=
  if has state SETTING_VALUE then pc ≠ RStart ∧ pc ≠ RDone false
  else if has state VALUE_SET then pc = RDone true else pc = RStart ∨ pc = RDone false.

Definition compatible (r : resolver_at) (f : future_at) : Prop :=
  match f with
  | Waiting => r ≠ RDone false
  | Spinning state => seen_by state r
  | Leaving state => seen_by state r ∧ has state SETTING_VALUE = false
  | Taking | Over true => r = RWaking ∨ r = REnd ∨ r = RDone true
  | Over false => r = RStart ∨ ∃ d, r = RDone d
  end.

Record flags_inv s : Prop := {
  fi_word : word (h_mem s) = Z.lor (resolver_flag (h_resolver s)) (dropped_flag (h_future s));
  fi_compatible : compatible (h_resolver s) (h_future s);
  fi_touches : accesses (h_mem s) = resolver_touches (h_resolver s) ++ future_touches (h_future s);
  fi_resolver : ∀ j, (j < length (resolver_touches (h_resolver s)))%nat →
    j ∈ views (h_mem s) resolver;
  fi_told : ∀ k w v, word_messages (h_mem s) !! k = Some (w, v) → has w VALUE_SET = true → both v;
  fi_wake : ∀ v, h_wake s = Some v → both v
    ∧ (h_resolver s = RWaking ∨ h_resolver s = REnd ∨ h_resolver s = RDone true);
  fi_loads : ∀ state k w v, h_future s = Spinning state → has state SETTING_VALUE = true →
    (word_seen (h_mem s) ≤ k)%nat → word_messages (h_mem s) !! k = Some (w, v) →
    has w SETTING_VALUE = true ∨ (has w VALUE_SET = true ∧ h_resolver s = RDone true);
  fi_future : match h_future s with
    | Spinning state | Leaving state =>
        has state SETTING_VALUE = false → has state VALUE_SET = true → both (views (h_mem s) future)
    | Taking => both (views (h_mem s) future)
    | _ => True
    end
}.

Lemma both_subset v v' : v ⊆ v' → both v → both v'.
Proof. intros Hs []. split; by apply Hs. Qed.

Lemma word_rmw a n m ord : word (rmw_word ord a n m) = n.
Proof. unfold word. simpl. by rewrite last_snoc. Qed.

Lemma rmw_messages ord a n m k w v :
  word_messages (rmw_word ord a n m) !! k = Some (w, v) →
  word_messages m !! k = Some (w, v)
  ∨ (k = length (word_messages m) ∧ w = n
     ∧ v = told ord (heard ord (views m a) (newest m)) (newest m)).
Proof.
  simpl. intros [Hk|[Hk Hx]]%lookup_app_Some; [by left|right].
  apply list_lookup_singleton_Some in Hx as [? [= <- <-]]. split; [lia|done].
Qed.

(** Who acquires the word when its value is set knows the value and the wake-up. *)
Lemma newest_both s : flags_inv s → has (word (h_mem s)) VALUE_SET = true → both (newest (h_mem s)).
Proof.
  intros Hi. unfold word, newest. destruct (last (word_messages (h_mem s))) as [[w v]|] eqn:E; [|done].
  simpl. rewrite last_lookup in E. by apply (fi_told _ Hi _ _ _ E).
Qed.

Lemma flags_inv_start : flags_inv hand_start.
Proof.
  split; simpl; [done|done|done|lia| |done|done|done].
  intros [|k] w v; [by intros [= <- <-]|done].
Qed.

(** The flags can only be those of the two parties. *)
Lemma begin_inv f wk m :
  flags_inv (mkHanding RStart f wk m) →
  flags_inv (mkHanding (if Z.land (word m) RX_DROPPED =? 0 then RWrite else RDone false) f wk
    (rmw_word (set_or o) resolver (Z.lor (word m) SETTING_VALUE) m)).
Proof.
  intros [Hword Hcomp Htouch _ Htold Hwake Hloads Hfut]. simpl in *.
  set (r := if Z.land (word m) RX_DROPPED =? 0 then RWrite else RDone false).
  assert (has (Z.lor (word m) SETTING_VALUE) VALUE_SET = false) as Hunset
    by (rewrite Hword; by destruct f as [| | | |[]]).
  assert (resolver_touches r = [] ∧ (r = RWrite ∨ r = RDone false)) as [Hr Hr']
    by (unfold r; destruct (_ =? _); auto).
  split; cbn [h_resolver h_future h_wake h_mem].
  - rewrite word_rmw, Hword. unfold r. rewrite Hword. by destruct f as [| | | |[]].
  - unfold r. rewrite Hword. destruct f as [|st|st| |[]]; cbn [compatible] in *; [done| | | | |].
    + unfold seen_by in *. destruct (has st SETTING_VALUE); [naive_solver|].
      destruct (has st VALUE_SET); [done|by right].
    + destruct Hcomp as [Hs Hc]. unfold seen_by in *. rewrite Hc in *.
      destruct (has st VALUE_SET); [done|]. split; [by right|done].
    + naive_solver.
    + naive_solver.
    + right. by exists false.
  - by rewrite Hr.
  - rewrite Hr. simpl. lia.
  - intros k w v [Hk|(_ & -> & _)]%rmw_messages; [by eapply Htold|congruence].
  - intros v Hv. destruct (Hwake v Hv) as (_ & [|[|]]); done.
  - intros st k w v -> Hst. simpl in Hcomp. unfold seen_by in Hcomp. rewrite Hst in Hcomp. naive_solver.
  - destruct f; [done|..]; intros; try (eapply both_subset; [apply views_rmw_word|by apply Hfut]). done.
Qed.

(** While the flag is set the destructor can only spin. *)
Definition setting (r : resolver_at) : bool :=
  match r with RWrite | RWake | RWaking | REnd => true | _ => false end.

Lemma compatible_setting r f :
  compatible r f → setting r = true →
  f = Waiting ∨ (∃ st, f = Spinning st ∧ has st SETTING_VALUE = true)
  ∨ ((f = Taking ∨ f = Over true) ∧ (r = RWaking ∨ r = REnd)).
Proof.
  intros Hc Hr. destruct f as [|st|st| |[]]; cbn [compatible] in Hc; [by left| | | | |].
  - right. left. exists st. split; [done|]. unfold seen_by in Hc.
    destruct (has st SETTING_VALUE); [done|].
    destruct (has st VALUE_SET); [by subst|by destruct Hc as [-> | ->]].
  - destruct Hc as [Hs Hset]. unfold seen_by in Hs. rewrite Hset in Hs.
    destruct (has st VALUE_SET); [by subst|by destruct Hs as [-> | ->]].
  - right. right. destruct Hc as [|[|]]; subst; auto; done.
  - right. right. destruct Hc as [|[|]]; subst; auto; done.
  - destruct Hc as [->|[d ->]]; done.
Qed.

Lemma write_inv f wk m :
  flags_inv (mkHanding RWrite f wk m) →
  flags_inv (mkHanding RWake f wk (touch resolver VALUE 0 true m)).
Proof.
  intros [Hword Hcomp Htouch _ Htold Hwake Hloads Hfut]. cbn [h_resolver h_future h_wake h_mem] in *.
  assert (future_touches f = [] ∧ compatible RWake f) as [Hft Hc].
  { destruct (compatible_setting _ _ Hcomp) as [->|[(st & -> & Hst)|[_ [|]]]]; [done..| |done|done].
    cbn [compatible]. unfold seen_by. by rewrite Hst. }
  rewrite Hft in Htouch. cbn [resolver_touches app] in Htouch.
  split; cbn [h_resolver h_future h_wake h_mem]; [exact Hword|exact Hc| | |exact Htold| | |].
  - simpl. by rewrite Htouch, Hft.
  - intros [|j] Hj; [|simpl in Hj; lia]. pose proof (touch_known resolver VALUE 0 true m) as Hk.
    by rewrite Htouch in Hk.
  - intros v Hv. destruct (Hwake v Hv) as (_ & [|[|]]); done.
  - intros st k w v Hst Hset Hk Hl. destruct (Hloads st k w v Hst Hset Hk Hl) as [?|[_ ?]]; [by left|done].
  - destruct f; [done|..]; intros; try (eapply both_subset; [apply views_touch|by apply Hfut]). done.
Qed.

Lemma wake_inv f wk m :
  flags_inv (mkHanding RWake f wk m) →
  let m' := touch resolver WAKER 0 false m in
  flags_inv (mkHanding RWaking f (Some (views m' resolver)) m').
Proof.
  intros [Hword Hcomp Htouch Hres Htold Hwake Hloads Hfut] m'.
  cbn [h_resolver h_future h_wake h_mem] in *.
  assert (future_touches f = [] ∧ compatible RWaking f) as [Hft Hc].
  { destruct (compatible_setting _ _ Hcomp) as [->|[(st & -> & Hst)|[_ [|]]]]; [done..| |done|done].
    cbn [compatible]. unfold seen_by. by rewrite Hst. }
  rewrite Hft in Htouch. cbn [resolver_touches app] in Htouch.
  assert (both (views m' resolver)) as Hboth.
  { split.
    - apply (views_touch resolver WAKER 0 false m). apply (Hres 0%nat). simpl. lia.
    - pose proof (touch_known resolver WAKER 0 false m) as Hk. by rewrite Htouch in Hk. }
  split; cbn [h_resolver h_future h_wake h_mem]; [exact Hword|exact Hc| | |exact Htold| | |].
  - simpl. by rewrite Htouch, Hft.
  - intros [|[|j]] Hj; [apply Hboth|apply Hboth|simpl in Hj; lia].
  - intros v [= <-]. auto.
  - intros st k w v Hst Hset Hk Hl. destruct (Hloads st k w v Hst Hset Hk Hl) as [?|[_ ?]]; [by left|done].
  - destruct f; [done|..]; intros; try (eapply both_subset; [apply views_touch|by apply Hfut]). done.
Qed.

Lemma woken_inv f wk m :
  flags_inv (mkHanding RWaking f wk m) → flags_inv (mkHanding REnd f wk m).
Proof.
  intros [Hword Hcomp Htouch Hres Htold Hwake Hloads Hfut]. cbn [h_resolver h_future h_wake h_mem] in *.
  split; cbn [h_resolver h_future h_wake h_mem]; try done.
  - destruct (compatible_setting _ _ Hcomp) as [->|[(st & -> & Hst)|[[-> | ->] _]]]; [done..| |simpl; auto|simpl; auto].
    cbn [compatible]. unfold seen_by. by rewrite Hst.
  - intros v Hv. destruct (Hwake v Hv). auto.
  - intros st k w v Hst Hset Hk Hl. destruct (Hloads st k w v Hst Hset Hk Hl) as [?|[_ ?]]; [by left|done].
Qed.

Lemma settle_inv f wk m :
  flags_inv (mkHanding REnd f wk m) →
  flags_inv (mkHanding (RDone true) f wk
    (rmw_word (settle_xor o) resolver (Z.lxor (word m) (Z.lor SETTING_VALUE VALUE_SET)) m)).
Proof.
  intros [Hword Hcomp Htouch Hres Htold Hwake Hloads Hfut]. cbn [h_resolver h_future h_wake h_mem] in *.
  assert (both (views m resolver)) as Hboth by (split; apply Hres; simpl; lia).
  destruct (andb_prop _ _ Hsync) as [Hrs _]. destruct (andb_prop _ _ Hrs) as [Hrel _].
  set (flags := Z.lxor _ _).
  assert (has flags SETTING_VALUE = false ∧ has flags VALUE_SET = true
    ∧ flags = Z.lor VALUE_SET (dropped_flag f)) as (Hns & Hvs & Hflags)
    by (unfold flags; rewrite Hword; by destruct f as [| | | |[]]).
  split; cbn [h_resolver h_future h_wake h_mem].
  - by rewrite word_rmw.
  - destruct (compatible_setting _ _ Hcomp) as [->|[(st & -> & Hst)|[[-> | ->] _]]]; [done..| |simpl; auto|simpl; auto].
    cbn [compatible]. unfold seen_by. by rewrite Hst.
  - exact Htouch.
  - intros j Hj. apply views_rmw_word. by apply Hres.
  - intros k w v [Hk|(_ & _ & ->)]%rmw_messages; [by eapply Htold|]. intros _.
    eapply both_subset; [|exact Hboth].
    etransitivity; [apply heard_known|by apply told_known].
  - intros v Hv. destruct (Hwake v Hv). auto.
  - intros st k w v Hst Hset Hk [Hl|(_ & -> & _)]%rmw_messages; [|by auto].
    destruct (Hloads st k w v Hst Hset Hk Hl) as [?|[_ ?]]; [by left|done].
  - destruct f; [done|..]; intros; try (eapply both_subset; [apply views_rmw_word|by apply Hfut]). done.
Qed.

Lemma resolver_moves_inv s s' : flags_inv s → resolver_moves o s = Some s' → flags_inv s'.
Proof.
  destruct s as [r f wk m]. unfold resolver_moves. cbn [h_resolver h_future h_wake h_mem].
  intros Hi. destruct r as [| | | | |d]; intros [= <-].
  - by apply begin_inv.
  - by apply write_inv.
  - exact (wake_inv f wk m Hi).
  - by apply woken_inv.
  - by apply settle_inv.
Qed.

(** ** The future *)
Lemma mark_inv r wk m :
  flags_inv (mkHanding r Waiting wk m) →
  flags_inv (mkHanding r (Spinning (word m)) wk
    (rmw_word (drop_or o) future (Z.lor (word m) RX_DROPPED) m)).
Proof.
  intros Hi. pose proof (newest_both _ Hi) as Hnew.
  destruct Hi as [Hword Hcomp Htouch Hres Htold Hwake Hloads Hfut].
  cbn [h_resolver h_future h_wake h_mem compatible dropped_flag future_touches] in *.
  rewrite Z.lor_0_r in Hword. destruct (andb_prop _ _ Hsync) as [Hrs _]. destruct (andb_prop _ _ Hrs) as [_ Hacq].
  assert (has (Z.lor (word m) RX_DROPPED) VALUE_SET = has (word m) VALUE_SET
    ∧ has (Z.lor (word m) RX_DROPPED) SETTING_VALUE = has (word m) SETTING_VALUE) as [Hv Hs]
    by (rewrite Hword; by destruct r as [| | | | |[]]).
  split; cbn [h_resolver h_future h_wake h_mem compatible].
  - by rewrite word_rmw, Hword.
  - rewrite Hword. unfold seen_by. destruct r as [| | | | |[]]; simpl; auto.
  - exact Htouch.
  - intros j Hj. apply views_rmw_word. by apply Hres.
  - intros k w v [Hk|(_ & -> & ->)]%rmw_messages; [by eapply Htold|]. rewrite Hv. intros Hset.
    eapply both_subset; [apply told_msg|by apply Hnew].
  - exact Hwake.
  - intros st k w v [= <-] Hset Hk [Hl|(_ & -> & _)]%rmw_messages.
    + apply lookup_lt_Some in Hl. simpl in Hk. lia.
    + left. by rewrite Hs.
  - intros _ Hset. simpl. rewrite fn_lookup_insert.
    eapply both_subset; [by apply heard_msg|by apply Hnew].
Qed.

Lemma load_inv r st k w v wk m :
  flags_inv (mkHanding r (Spinning st) wk m) → has st SETTING_VALUE = true →
  word_messages m !! k = Some (w, v) → (word_seen m ≤ k)%nat →
  flags_inv (mkHanding r (Spinning w) wk (load_message (spin_load o) k m)).
Proof.
  intros [Hword Hcomp Htouch Hres Htold Hwake Hloads Hfut] Hst Hk Hseen.
  cbn [h_resolver h_future h_wake h_mem compatible dropped_flag future_touches] in *.
  destruct (andb_prop _ _ Hsync) as [_ Hacq]. pose proof (Hloads st k w v eq_refl Hst Hseen Hk) as Hw.
  split; cbn [h_resolver h_future h_wake h_mem compatible];
    [exact Hword| |exact Htouch| |exact Htold|exact Hwake| |].
  - unfold seen_by in *. rewrite Hst in Hcomp. destruct (has w SETTING_VALUE); [done|].
    destruct Hw as [|[-> ->]]; done.
  - intros j Hj. apply views_load. by apply Hres.
  - intros st' k' w' v' _ _ Hk' Hl. simpl in Hk', Hl. by apply (Hloads st k' w' v'); [| |lia|].
  - intros _ Hset. simpl. rewrite fn_lookup_insert, Hk. simpl.
    eapply both_subset; [by apply heard_msg|by eapply Htold].
Qed.

Lemma leave_inv r st wk m :
  flags_inv (mkHanding r (Spinning st) wk m) → has st SETTING_VALUE = false →
  flags_inv (mkHanding r (Leaving st) wk m).
Proof.
  intros [Hword Hcomp Htouch Hres Htold Hwake Hloads Hfut] Hst.
  by split; cbn [h_resolver h_future h_wake h_mem compatible] in *.
Qed.

(** The last two accesses of the future. *)
Lemma over_inv r f taken wk m :
  flags_inv (mkHanding r f wk m) → future_touches f = [] → compatible r (Over taken) →
  dropped_flag f = dropped_flag (Over taken) →
  flags_inv (mkHanding r (Over taken) wk (touch future WAKER 0 true (touch future VALUE 0 true m))).
Proof.
  intros [Hword Hcomp Htouch Hres Htold Hwake Hloads Hfut] Hft Hc Hd.
  cbn [h_resolver h_future h_wake h_mem] in *.
  split; cbn [h_resolver h_future h_wake h_mem]; [by rewrite <- Hd|exact Hc| | |exact Htold|exact Hwake|done|done].
  - simpl. by rewrite Htouch, Hft, app_nil_r, <- app_assoc.
  - intros j Hj. by apply views_touch, views_touch, Hres.
Qed.

Lemma future_leaves_inv k s s' : flags_inv s → future_leaves o k s = Some s' → flags_inv s'.
Proof.
  destruct s as [r f wk m]. unfold future_leaves. cbn [h_resolver h_future h_wake h_mem].
  intros Hi. destruct f as [|st|st| |]; [|fold (has st SETTING_VALUE); destruct (has st SETTING_VALUE) eqn:Hst| |done|done].
  - intros [= <-]. by apply mark_inv.
  - destruct (word_messages m !! k) as [[w v]|] eqn:Hk; [|done]. simpl.
    destruct (decide _) as [Hseen|]; [|done]. intros [= <-]. by eapply load_inv.
  - intros [= <-]. by apply leave_inv.
  - intros [= <-]. pose proof (fi_compatible _ Hi) as [Hs Hset]. simpl in Hs.
    apply (over_inv _ _ _ _ _ Hi); [done| |done]. simpl. unfold seen_by in Hs. simpl in Hset.
    rewrite Hset in Hs. destruct (has st VALUE_SET); [right; by exists true|].
    destruct Hs as [-> | ->]; [by left|right; by exists false].
Qed.

Lemma future_polls_inv s s' : flags_inv s → future_polls true s = Some s' → flags_inv s'.
Proof.
  destruct s as [r f wk m]. unfold future_polls. cbn [h_resolver h_future h_wake h_mem].
  intros Hi. destruct f as [|st|st| |]; [|done|done| |done].
  - destruct wk as [v|]; [|done]. intros [= <-].
    destruct (fi_wake _ Hi v eq_refl) as [Hboth Hr].
    destruct Hi as [Hword _ Htouch Hres Htold Hwake _ _].
    cbn [h_resolver h_future h_wake h_mem] in *.
    split; cbn [h_resolver h_future h_wake h_mem]; [exact Hword|exact Hr|exact Htouch| |exact Htold|exact Hwake|done|].
    + intros j Hj. simpl. rewrite fn_lookup_insert_ne by done. by apply Hres.
    + simpl. rewrite fn_lookup_insert. eapply both_subset; [|exact Hboth]. apply union_subseteq_r.
  - intros [= <-]. pose proof (fi_compatible _ Hi) as Hc. by apply (over_inv _ _ _ _ _ Hi).
Qed.

Lemma flags_inv_reachable s : hand_reachable o true s → flags_inv s.
Proof.
  apply rtc_invariant; [|apply flags_inv_start].
  intros s1 s2 [Hs|k Hs|Hs] Hi.
  - by eapply resolver_moves_inv.
  - by eapply future_leaves_inv.
  - by eapply future_polls_inv.
Qed.
End invariant.

(** C29. With the orderings of the source, and executors that order a poll after the wake-up
    that caused it, the two sides of a handover race on the receiver in one way only. They
    never race on the value: the resolver's write happens before the future reads or drops
    it, whether the future is polled or dropped, and however stale the flags are that the
    spin loop loads. On the waker no access of the future races with the wake-up that
    it was told of; the only race is that of [wake_by_ref], still reading the waker it
    borrows, with a future that was polled in the meantime and has dropped it. *)
Theorem receiver_races_only_while_waking (o : flag_orderings) (s : handing) a place w :
  flag_sync o = true → hand_reachable o true s → next_touch s a place w →
  races (h_mem s) a place w →
  a = resolver ∧ place = WAKER ∧ h_resolver s = RWaking ∧ h_future s = Over true.
Proof.
  intros Hsync Hr Hnext (j & x & Hj & Hplace & Hw & Hnot).
  pose proof (flags_inv_reachable o Hsync s Hr) as [_ Hcomp Htouch Hres _ _ _ Hfut].
  rewrite Htouch in Hj. destruct s as [r f wk m]. cbn [h_resolver h_future h_wake h_mem] in *.
  destruct Hnext as [Hpc|Hpc|Hpc|st p Hpc _|p Hpc _]; cbn [h_resolver h_future] in Hpc; subst.
  - exfalso. destruct (compatible_setting _ _ Hcomp) as [->|[(st & -> & _)|[_ [|]]]]; done.
  - exfalso. destruct (compatible_setting _ _ Hcomp) as [->|[(st & -> & _)|[_ [|]]]];
      [done| | |done|done]; destruct j as [|j]; try done; apply Hnot, Hres; simpl; lia.
  - destruct (compatible_setting _ _ Hcomp) as [->|[(st & -> & _)|[[-> | ->] _]]];
      [done| | | |by split_and!];
      exfalso; destruct j as [|[|j]]; try done; apply Hnot, Hres; simpl; lia.
  - exfalso. destruct Hcomp as [Hs Hset]. unfold seen_by in Hs. rewrite Hset in Hs.
    destruct (has st VALUE_SET) eqn:Hv.
    + subst r. destruct (Hfut Hset eq_refl). by destruct j as [|[|j]].
    + destruct Hs as [-> | ->]; by destruct j.
  - exfalso. destruct Hfut. destruct Hcomp as [->|[-> | ->]]; by destruct j as [|[|j]].
Qed.

(** ** Concrete runs *)
Inductive hand_choice : Type := ByResolver | Leave (k : nat) | Poll.

Definition hand_turn (o : flag_orderings) (ws : bool) (c : hand_choice) (s : handing) : option handing :=
  match c with
  | ByResolver => resolver_moves o s
  | Leave k => future_leaves o k s
  | Poll => future_polls ws s
  end.
Definition hand_run (o : flag_orderings) (ws : bool) (l : list hand_choice) : option handing :=
  foldl (λ s c, s ≫= hand_turn o ws c) (Some hand_start) l.

Lemma hand_run_reachable o ws l s : hand_run o ws l = Some s → hand_reachable o ws s.
Proof.
  revert s. unfold hand_run. induction l as [|c l IH] using rev_ind; intros s.
  - intros [= <-]. apply rtc_refl.
  - rewrite foldl_app. simpl. intros (s1 & Hs & Hc)%bind_Some.
    eapply rtc_r; [by apply IH|]. destruct c as [|k|].
    + by apply hs_resolver.
    + by apply (hs_leave _ _ _ _ k).
    + by apply hs_poll.
Qed.

(** Whether the write of the value is unknown to the future. *)
Definition value_unknown (s : handing) : bool :=
  match accesses (h_mem s) !! 0%nat with
  | Some x => bool_decide (ac_cell x = VALUE) && ac_write x
              && bool_decide (0%nat ∉ views (h_mem s) future)
  | None => false
  end.

Lemma value_unknown_races s : value_unknown s = true → races (h_mem s) future VALUE true.
Proof.
  unfold value_unknown. destruct (accesses (h_mem s) !! 0%nat) as [x|] eqn:Hx; [|done].
  intros [[Hc%bool_decide_eq_true _]%andb_prop Hv%bool_decide_eq_true]%andb_prop.
  by exists 0%nat, x.
Qed.

Definition leaving (s : handing) : bool :=
  match h_future s with Leaving _ => true | _ => false end.

Lemma leaving_races o ws l :
  match hand_run o ws l with Some s => leaving s && value_unknown s | None => false end = true →
  ∃ s, hand_reachable o ws s ∧ next_touch s future VALUE true ∧ races (h_mem s) future VALUE true.
Proof.
  destruct (hand_run o ws l) as [s|] eqn:Hr; [|done]. intros [Hl Hv]%andb_prop. exists s.
  split; [by eapply hand_run_reachable|]. split; [|by apply value_unknown_races].
  unfold leaving in Hl. destruct (h_future s) as [| |st| |] eqn:Hf; try done.
  eapply nt_leave; [exact Hf|by left].
Qed.

(** The flag is seen set and then cleared; the flag is seen cleared at once. *)
Definition spun : list hand_choice :=
  [ByResolver; ByResolver; Leave 0; ByResolver; ByResolver; ByResolver; Leave 3; Leave 0].
Definition settled : list hand_choice :=
  [ByResolver; ByResolver; ByResolver; ByResolver; ByResolver; Leave 0; Leave 0].

(** No ordering that [receiver_races_only_while_waking] asks for can be given up: if the resolver's
    [fetch_xor] does not release, or the destructor's [fetch_or] or its load does not
    acquire, the destructor drops a value without being ordered after its write. *)
Theorem flag_orderings_needed (o : flag_orderings) :
  flag_sync o = false →
  ∃ s, hand_reachable o true s ∧ next_touch s future VALUE true
    ∧ races (h_mem s) future VALUE true.
Proof.
  destruct o as [a b c d]. unfold flag_sync. cbn [settle_xor drop_or spin_load]. intros Hsync.
  destruct (releases b && acquires c) eqn:Hbc.
  - apply (leaving_races _ _ spun).
    destruct d; try discriminate Hsync; destruct a, b, c; try discriminate Hbc; vm_compute; reflexivity.
  - apply (leaving_races _ _ settled).
    destruct a, b, c; try discriminate Hbc; destruct d; vm_compute; reflexivity.
Qed.

Lemma flag_orderings_needed_witness :
  flag_sync (mkFlagOrderings Views.Release Relaxed AcqRel Acquire) = false
  ∧ ∃ s, hand_reachable (mkFlagOrderings Views.Release Relaxed AcqRel Acquire) true s
    ∧ next_touch s future VALUE true ∧ races (h_mem s) future VALUE true.
Proof. split; [done|]. by apply flag_orderings_needed. Defined.

(** The future is polled to completion between the wake-up and the return of [wake_by_ref]. *)
Definition taken_waking : list hand_choice := [ByResolver; ByResolver; ByResolver; Poll; Poll].

Lemma receiver_races_only_while_waking_witness :
  (∃ s, hand_run source_flag_orderings true spun = Some s ∧ next_touch s future VALUE true
     ∧ ¬ races (h_mem s) future VALUE true)
  ∧ ∃ s, hand_run source_flag_orderings true taken_waking = Some s
     ∧ next_touch s resolver WAKER false ∧ races (h_mem s) resolver WAKER false
     ∧ h_future s = Over true.
Proof.
  split.
  - eexists. split; [vm_compute; reflexivity|].
    match goal with |- next_touch ?s _ _ _ ∧ _ => assert (next_touch s future VALUE true) as Hn end.
    { eapply nt_leave; [reflexivity|by left]. }
    split; [exact Hn|]. intros Hr.
    refine (match proj1 (receiver_races_only_while_waking source_flag_orderings _ _ _ _ eq_refl _ Hn Hr)
      in _ = a return match a with future => True | resolver => False | _ => True end
      with eq_refl => I end).
    apply (hand_run_reachable _ _ spun). vm_compute. reflexivity.
  - destruct (hand_run source_flag_orderings true taken_waking) as [s|] eqn:Hrun; [|discriminate Hrun].
    exists s. split; [done|].
    assert (h_resolver s = RWaking) as Hw by (injection Hrun as <-; reflexivity).
    assert (races (h_mem s) resolver WAKER false) as Hr.
    { injection Hrun as <-. exists 3%nat. eexists. split; [vm_compute; reflexivity|].
      split; [reflexivity|]. split; [reflexivity|]. apply (bool_decide_unpack _). vm_compute. exact I. }
    split; [by apply nt_waking|]. split; [exact Hr|].
    apply (receiver_races_only_while_waking source_flag_orderings s resolver WAKER false eq_refl);
      [by apply (hand_run_reachable _ _ taken_waking)|by apply nt_waking|exact Hr].
Defined.

Definition over (s : handing) : bool :=
  match h_resolver s, h_future s with RWaking, Over true => true | _, _ => false end.

(** C30. The resolver is still inside [wake_by_ref], which borrows the waker of the receiver,
    when the future that it woke can already be polled on another thread: the poll moves
    the value out, replaces the state by [Received] and with it drops the waker. So no
    ordering of the flags keeps the borrowed waker alive until [wake_by_ref] returns. *)
Theorem waker_dropped_while_waking (o : flag_orderings) :
  ∃ s, hand_reachable o true s ∧ h_resolver s = RWaking ∧ h_future s = Over true
    ∧ last (accesses (h_mem s)) = Some (mkAccess future WAKER 0 true).
Proof.
  assert (∃ s, hand_run o true taken_waking = Some s ∧ over s = true
    ∧ last (accesses (h_mem s)) = Some (mkAccess future WAKER 0 true)) as (s & Hr & Ho & Hl).
  { eexists. split; [reflexivity|]. done. }
  exists s. split; [by eapply hand_run_reachable|]. unfold over in Ho.
  destruct (h_resolver s), (h_future s) as [| | | |[]]; done.
Qed.
