(* ===== verification/Futures.v ===== *)
(** [task.rs] and [queue.rs], the futures over plain buffer cells: [BackgroundEnqueue]
    and [background_process] of a [BackgroundQueue], [BatchReduce] and [BatchCollect] of
    a [BatchReducer].

    A future is its state; polling it returns the poll and the state it is left in. The
    [UnboundedRange] of a batch is the one built from the base slot [push] returns. *)
From S2P Require Import Prelude Usize Helpers Occupancy Deque Queue Ranges Consumption Protocol Exclusion TaskRef.
Local Open Scope Z_scope.

Inductive background_state (T : Type) : Type :=
| EnqueuePending (task : T)
| Enqueued.
Arguments EnqueuePending {_} _.
Arguments Enqueued {_}.

(** The tasks handed to the executor by [background_process]. *)
Inductive job (T : Type) : Type :=
| ProcessBatch (batch : UnboundedRange)
| EnqueueThenProcess (task : T).
Arguments ProcessBatch {_} _.
Arguments EnqueueThenProcess {_} _.

Inductive collect_state (T : Type) : Type :=
| CollectUnbatched (task : T)
| CollectCollecting (batch : UnboundedRange)
| CollectBatched.
Arguments CollectUnbatched {_} _.
Arguments CollectCollecting {_} _.
Arguments CollectBatched {_}.

(** [F] is the type of the reducers. *)
Inductive reduce_state (T F : Type) : Type :=
| ReduceUnbatched (task : T) (reducer : F)
| ReduceCollecting (batch : UnboundedRange) (reducer : F)
| ReduceBatched.
Arguments ReduceUnbatched {_ _} _ _.
Arguments ReduceCollecting {_ _} _ _.
Arguments ReduceBatched {_ _}.

Section futures.
Context {C : QueueCfg} {T W D X : Type} `{Deque W D}.
Abbreviation op A := (M (world (option T) D X (event W T (job T))) A).

(** [queue.push(task)], the base slot wrapped into its guard. *)
Definition push_range (task : T) : op (result (option UnboundedRange) T) :=
  r ← on_queue (push task);
  mret match r with
       | Ok base => Ok (mkUnboundedRange <$> base)
       | Err task => Err task
       end.

(** [BackgroundEnqueue::poll] *)
Definition poll_enqueue (st : background_state T) (cx : W)
  : op (Poll (option UnboundedRange) * background_state T) :=
  match st with
  | EnqueuePending task =>
      r ← push_range task;
      match r with
      | Ok assignment => mret (Ready assignment, Enqueued)
      | Err task => push_pending cx ;; mret (Pending, EnqueuePending task)
      end
  | Enqueued => mret (Ready None, Enqueued)
  end.

(** [StackQueue::background_process] *)
Definition background_process (task : T) : op unit :=
  r ← push_range task;
  match r with
  | Ok (Some assignment) => emit (Spawned (ProcessBatch assignment))
  | Ok None => mret ()
  | Err task => emit (Spawned (EnqueueThenProcess task))
  end.

(** [BatchCollect::poll] *)
Definition poll_collect (st : collect_state T) (cx : W)
  : op (Poll (option (list T)) * collect_state T) :=
  match st with
  | CollectUnbatched task =>
      r ← push_range task;
      match r with
      | Ok (Some batch) => emit (Woken cx) ;; mret (Pending, CollectCollecting batch)
      | Ok None => mret (Ready None, CollectBatched)
      | Err task => push_pending cx ;; mret (Pending, CollectUnbatched task)
      end
  | CollectCollecting batch =>
      range ← into_bounded batch;
      tasks ← to_vec range;
      mret (Ready (Some tasks), CollectBatched)
  | CollectBatched => mret (Ready None, CollectBatched)
  end.

(** [BatchReduce::poll] *)
Definition poll_reduce {R : Type} (st : reduce_state T (BufferIter → op R)) (cx : W)
  : op (Poll (option R) * reduce_state T (BufferIter → op R)) :=
  match st with
  | ReduceUnbatched task reducer =>
      r ← push_range task;
      match r with
      | Ok (Some batch) => emit (Woken cx) ;; mret (Pending, ReduceCollecting batch reducer)
      | Ok None => mret (Ready None, ReduceBatched)
      | Err task => push_pending cx ;; mret (Pending, ReduceUnbatched task reducer)
      end
  | ReduceCollecting batch reducer =>
      range ← into_bounded batch;
      r ← reducer (into_iter range);
      mret (Ready (Some r), ReduceBatched)
  | ReduceBatched => mret (Ready None, ReduceBatched)
  end.
End futures.

(** * A batch that grows on an otherwise idle queue *)
Section growing.
Context {C : QueueCfg} {HS : SafeCfg} {T D : Type}.
Implicit Types (q : StackQueue (option T) D) (tasks : list T).

(** No batch is live and the last one is closed; the local occupancy may be stale. *)
Definition idle {cell : Type} (count : Z) (phase : bool) (q : StackQueue cell D) : Prop :=
  slots_at count phase (negb phase) q ∧ length (buffer (inner q)) = Z.to_nat N
  ∧ occupancy (inner q) = 0.

(** One batch is live: it began at [start], holds [tasks], and is still open. *)
Definition growing (start : Z) (phase : bool) tasks q : Prop :=
  let count := start + Z.of_nat (length tasks) in
  slots_at count phase phase q ∧ length (buffer (inner q)) = Z.to_nat N
  ∧ occupancy (inner q) = one_shifted (start mod N)
  ∧ sq_occupancy q = one_shifted (start mod N)
  ∧ holds (buffer (inner q)) start tasks.

Lemma zero_region_free index : (Z.land 0 (region_mask index) =? 0) = true.
Proof. by rewrite Z.land_0_l. Qed.

(** The only live batch leaves the other regions free. *)
Lemma other_region_free start n :
  start < n < region_floor start + N → at_region_start (n mod N) = true →
  (Z.land (one_shifted (start mod N)) (region_mask (n mod N)) =? 0) = true.
Proof.
  intros Hn Hs. rewrite region_mask_lane, lane_mask_test, one_shifted_lane.
  2:{ pose proof (region_of_range n). lia. }
  rewrite at_region_start_mod, mod_N_mod_region in Hs. apply Z.eqb_eq in Hs.
  assert (region_floor n = n) as Hf by (unfold region_floor; lia).
  assert (region_of n ≠ region_of start) as Hne.
  { intros Heq. pose proof (region_floor_bounds start).
    apply same_region_floor in Heq; lia. }
  pose proof (region_of_range n). pose proof (region_of_range start).
  rewrite <- (Z.add_0_l (2 ^ _)), lane_add by (rewrite ?lane_0; lia).
  rewrite lane_0, decide_False by done. done.
Qed.

Lemma holds_app buf start tasks t :
  length buf = Z.to_nat N → Z.of_nat (length tasks) < N → holds buf start tasks →
  holds (<[Z.to_nat ((start + Z.of_nat (length tasks)) mod N) := Some t]> buf) start (tasks ++ [t]).
Proof.
  intros Hlen Hl Hh i t' Hi. pose proof (mod_N_bounds (start + Z.of_nat (length tasks))).
  apply lookup_app_Some in Hi as [Hi|[Hge Hi]].
  - rewrite list_lookup_insert_ne; [by apply Hh|].
    pose proof (mod_N_bounds (start + Z.of_nat i)). apply lookup_lt_Some in Hi.
    intros Heq%Z2Nat.inj; [|lia..].
    apply mod_inj_window in Heq; pose proof N_ge_64; lia.
  - apply list_lookup_singleton_Some in Hi as [Hi <-].
    replace (Z.of_nat i) with (Z.of_nat (length tasks)) by lia.
    apply list_lookup_insert_eq. lia.
Qed.

(** On an idle queue every check passes, and the word of the first batch is its increment. *)
Lemma idle_check {cell : Type} count phase (q : StackQueue cell D) :
  idle count phase q →
  ∃ q' : StackQueue cell D, check_write_index (count mod N) q = Done (Ok (), q')
    ∧ inner q' = inner q ∧ sq_slot q' = sq_slot q ∧ pending q' = pending q.
Proof.
  intros (Hs & Hlen & Ho).
  rewrite check_write_index_run, check_regional_occupancy_run, Ho, zero_region_free.
  destruct (at_region_start _); [destruct (_ =? 0)|]; by eexists.
Qed.

Lemma first_occupancy start :
  wrapping_add usize_bits 0 (one_shifted (start mod N)) = one_shifted (start mod N).
Proof.
  apply wrap_small. rewrite one_shifted_lane, safe_usize_bits. pose proof (region_of_range start).
  split; [auto with sq zarith|]. apply Z.pow_lt_mono_r; lia.
Qed.

(** The words of a queue on which one batch is live, begun at [start], open, of [n] tasks. *)
Definition open_at {cell : Type} (start : Z) (phase : bool) (n : nat) (q : StackQueue cell D)
  : Prop :=
  slots_at (start + Z.of_nat n) phase phase q ∧ length (buffer (inner q)) = Z.to_nat N
  ∧ occupancy (inner q) = one_shifted (start mod N)
  ∧ sq_occupancy q = one_shifted (start mod N).

Lemma open_check {cell : Type} start phase n (q : StackQueue cell D) :
  open_at start phase n q → (1 ≤ n)%nat → start + Z.of_nat n < region_floor start + N →
  check_write_index ((start + Z.of_nat n) mod N) q = Done (Ok (), q).
Proof.
  intros (Hs & Hlen & Ho & Hso) Hn Hroom.
  rewrite check_write_index_run. destruct (at_region_start _) eqn:Hat; [|done].
  rewrite check_regional_occupancy_run, Hso, other_region_free; [done|lia|done].
Qed.

(** One lap after the start of its region the batch blocks itself. *)
Lemma open_check_full {cell : Type} start phase n (q : StackQueue cell D) :
  open_at start phase n q → start + Z.of_nat n = region_floor start + N →
  check_write_index ((start + Z.of_nat n) mod N) q
    = Done (Err queue_full, set_sq_occupancy (occupancy (inner q)) q).
Proof.
  intros (Hs & Hlen & Ho & Hso) Hroom.
  destruct (next_lap_region start) as [Hr Hat]. rewrite <- Hroom in Hr, Hat.
  set (count := start + Z.of_nat n) in *.
  assert ((Z.land (one_shifted (start mod N)) (region_mask (count mod N)) =? 0) = false) as Hfull.
  { rewrite region_mask_lane, lane_mask_test, one_shifted_lane, Hr by
      (pose proof (region_of_range count); lia).
    pose proof (region_of_range start).
    rewrite <- (Z.add_0_l (2 ^ _)), lane_add by (rewrite ?lane_0; lia).
    by rewrite lane_0, decide_True. }
  by rewrite check_write_index_run, Hat, check_regional_occupancy_run, Hso, Ho, Hfull.
Qed.

Lemma growing_open start phase tasks q :
  growing start phase tasks q → open_at start phase (length tasks) q.
Proof. by intros (Hs & Hlen & Ho & Hso & _). Qed.

Lemma push_first count phase t q :
  idle count phase q →
  ∃ q', push t q = Done (Ok (Some (slot_word count phase)), q')
    ∧ growing count phase [t] q' ∧ pending q' = pending q.
Proof.
  intros Hidle. destruct (idle_check _ _ _ Hidle) as (q' & Hc & Hi & Hsl & Hp).
  destruct Hidle as (Hs & Hlen & Ho).
  pose proof (push_ok t _ _ _ _ _ Hs Hlen Hc) as Hpush. cbv zeta in Hpush.
  rewrite eqb_negb2 in Hpush. eexists. split; [exact Hpush|]. split; [|done]. unfold growing.
  split; [done|]. split; [by cbn; rewrite length_insert|].
  assert (wrapping_add usize_bits (occupancy (inner q')) (one_shifted (count mod N))
    = one_shifted (count mod N)) as Hocc by (rewrite Hi, Ho; apply first_occupancy).
  simpl. rewrite Hocc. split; [done|]. split; [done|].
  pose proof (holds_app (buffer (inner q)) count [] t Hlen) as Hh. simpl in Hh.
  rewrite Z.add_0_r in Hh. apply Hh; [pose proof N_ge_64; lia|by intros ? ? ?].
Qed.

Lemma push_next start phase tasks t q :
  growing start phase tasks q → (1 ≤ length tasks)%nat →
  start + Z.of_nat (length tasks) < region_floor start + N →
  ∃ q', push t q = Done (Ok None, q')
    ∧ growing start phase (tasks ++ [t]) q' ∧ pending q' = pending q.
Proof.
  intros Hg Hne Hroom. pose proof (open_check _ _ _ _ (growing_open _ _ _ _ Hg) Hne Hroom) as Hc.
  destruct Hg as (Hs & Hlen & Ho & Hso & Hh). set (count := start + Z.of_nat (length tasks)) in *.
  pose proof (push_ok t _ _ _ _ _ Hs Hlen Hc) as Hpush. cbv zeta in Hpush.
  rewrite eqb_reflx in Hpush. eexists. split; [exact Hpush|]. split; [|done]. unfold growing.
  replace (start + Z.of_nat (length (tasks ++ [t]))) with (count + 1)
    by (rewrite length_app; simpl; lia).
  split; [done|]. split; [by cbn; rewrite length_insert|]. split; [done|]. split; [done|].
  pose proof (region_floor_bounds start). apply holds_app; [done|lia|done].
Qed.

Lemma push_last start phase tasks t q :
  growing start phase tasks q →
  start + Z.of_nat (length tasks) = region_floor start + N →
  ∃ q', push t q = Done (Err t, q') ∧ growing start phase tasks q' ∧ pending q' = pending q.
Proof.
  intros Hg Hroom. pose proof (open_check_full _ _ _ _ (growing_open _ _ _ _ Hg) Hroom) as Hc.
  destruct Hg as (Hs & Hlen & Ho & Hso & Hh). eexists. split; [by eapply push_full|]. done.
Qed.
End growing.

(** * The release of the only batch *)
Section release.
Context {C : QueueCfg} {HS : SafeCfg} {cell W D X V P : Type} `{DequeLaws W D}.
Implicit Types (w : world cell D X (event W V P)).

(** The wakers [ws] left the deque and were woken, in order; tasks and futures are as before. *)
Definition woke (ws : list W) w w' : Prop :=
  ext w' = ext w ∧ trace w' = trace w ++ map Woken ws
  ∧ deque_items (pending (queue w)) = ws ++ deque_items (pending (queue w')).

(** A closed batch alone on the queue is released: the queue is idle, and the oldest
    [region_size] parked wakers are woken. *)
Lemma release_open start phase n w :
  slots_at (start + Z.of_nat n) (negb phase) phase (queue w) →
  length (buffer (inner (queue w))) = Z.to_nat N →
  occupancy (inner (queue w)) = one_shifted (start mod N) →
  ∃ w', deoccupy_region (start mod N) w = Done ((), w')
    ∧ idle (start + Z.of_nat n) (negb phase) (queue w')
    ∧ woke (wakeable region_size w) w w'.
Proof.
  intros [Hs Hl] Hlen Ho.
  pose proof (deoccupy_region_run (start mod N) w (mod_N_bounds start)) as Hd.
  cbv zeta in Hd. rewrite decide_True in Hd by done.
  destruct Hd as (w' & Hd & Hx & Ht & (d & Hq) & Hp). exists w'. split; [exact Hd|].
  split; [|by split_and!]. rewrite Hq. split; [split|split].
  - exact Hs.
  - simpl. by rewrite Hl, negb_involutive.
  - exact Hlen.
  - simpl. rewrite Ho. unfold wrapping_sub. rewrite Z.sub_diag. by apply Zmod_0_l.
Qed.
End release.

(** * Collecting and reducing *)
Section collecting.
Context {C : QueueCfg} {HS : SafeCfg} {T W D X : Type} `{DequeLaws W D}.
Abbreviation world := (world (option T) D X (event W T (job T))).
Implicit Types (w : world) (q : StackQueue (option T) D) (tasks : list T).

Lemma push_range_run task w r q :
  push task (queue w) = Done (r, q) →
  push_range task w = Done (match r with
                            | Ok base => Ok (mkUnboundedRange <$> base)
                            | Err task => Err task
                            end, set_queue q w).
Proof. intros Hp. unfold push_range, on_queue. unfold mbind, M_bind, zoom. by rewrite Hp. Qed.

Lemma growing_stored start phase tasks w :
  growing start phase tasks (queue w) → (1 ≤ length tasks)%nat →
  start + Z.of_nat (length tasks) ≤ region_floor start + N →
  slot (inner (queue w)) = slot_word (start + Z.of_nat (length tasks)) phase
  ∧ stored start tasks w.
Proof.
  intros ([Hs _] & Hlen & _ & _ & Hh) Hne Hroom. pose proof (region_floor_bounds start).
  split; [done|]. split; [done|]. split; [lia|done].
Qed.

(** The only batch of the queue is closed and released. *)
Lemma release_growing start phase tasks w :
  growing start phase tasks (queue w) →
  ∃ w', released start (closed w) w'
    ∧ idle (start + Z.of_nat (length tasks)) (negb phase) (queue w')
    ∧ woke (wakeable region_size w) w w'.
Proof.
  intros ([Hs Hl] & Hlen & Ho & _).
  apply (release_open start phase (length tasks) (closed w)); [|done..].
  split; [|exact Hl]. simpl. by rewrite Hs, slot_word_toggle.
Qed.

(** ** The polls of a [BatchCollect], one lemma per branch *)
Lemma collect_first count phase t cx w :
  idle count phase (queue w) →
  ∃ q', poll_collect (CollectUnbatched t) cx w
      = Done ((Pending, CollectCollecting (mkUnboundedRange (slot_word count phase))),
              mkWorld q' (ext w) (trace w ++ [Woken cx]))
    ∧ growing count phase [t] q' ∧ pending q' = pending (queue w).
Proof.
  intros Hidle. destruct (push_first _ _ t _ Hidle) as (q1 & Hp & Hg). exists q1.
  split; [|exact Hg]. unfold poll_collect. by run_with (push_range_run _ _ _ _ Hp).
Qed.

Lemma collect_join start phase tasks t cx w :
  growing start phase tasks (queue w) → (1 ≤ length tasks)%nat →
  start + Z.of_nat (length tasks) < region_floor start + N →
  ∃ q', poll_collect (CollectUnbatched t) cx w = Done ((Ready None, CollectBatched), set_queue q' w)
    ∧ growing start phase (tasks ++ [t]) q' ∧ pending q' = pending (queue w).
Proof.
  intros Hg Hne Hroom. destruct (push_next _ _ _ t _ Hg Hne Hroom) as (q' & Hp & Hg').
  exists q'. split; [|exact Hg']. unfold poll_collect. by run_with (push_range_run _ _ _ _ Hp).
Qed.

Lemma collect_refused start phase tasks t cx w :
  growing start phase tasks (queue w) →
  start + Z.of_nat (length tasks) = region_floor start + N →
  ∃ q', poll_collect (CollectUnbatched t) cx w
      = Done ((Pending, CollectUnbatched t), set_queue q' w)
    ∧ growing start phase tasks q'
    ∧ deque_items (pending q') = deque_items (pending (queue w)) ++ [cx].
Proof.
  intros Hg Hfull. destruct (push_last _ _ _ t _ Hg Hfull) as (q' & Hp & Hg' & Hpe).
  exists (set_pending (worker_push cx (pending q')) q'). split; [|split].
  - unfold poll_collect. by run_with (push_range_run _ _ _ _ Hp).
  - exact Hg'.
  - simpl. by rewrite push_items, Hpe.
Qed.

Lemma collect_finish start phase p tasks cx w :
  growing start phase tasks (queue w) → (1 ≤ length tasks)%nat →
  start + Z.of_nat (length tasks) ≤ region_floor start + N →
  ∃ w', poll_collect (CollectCollecting (mkUnboundedRange (slot_word start p))) cx w
      = Done ((Ready (Some tasks), CollectBatched), w')
    ∧ idle (start + Z.of_nat (length tasks)) (negb phase) (queue w')
    ∧ woke (wakeable region_size w) w w'.
Proof.
  intros Hg Hne Hroom. destruct (growing_stored _ _ _ _ Hg Hne Hroom) as [Hs Hst].
  destruct (release_growing _ _ _ _ Hg) as (w' & Hrel & Hidle & Haw). exists w'.
  split; [|done]. unfold poll_collect. run_with (into_bounded_run _ p _ _ _ Hs).
  by run_with (to_vec_run _ _ _ _ (stored_closed _ _ _ Hst) Hrel).
Qed.

(** The polls of the futures that join a batch: each finishes at once, without a
    result. *)
Lemma joiners_run start phase tasks ts cx w :
  growing start phase tasks (queue w) → (1 ≤ length tasks)%nat →
  start + Z.of_nat (length tasks + length ts) ≤ region_floor start + N →
  ∃ q', mapM (λ t, poll_collect (CollectUnbatched t) cx) ts w
      = Done (replicate (length ts) (Ready None, CollectBatched), set_queue q' w)
    ∧ growing start phase (tasks ++ ts) q'.
Proof.
  revert tasks w. induction ts as [|t ts IH]; intros tasks w Hg Hne Hroom; cbn [length] in Hroom.
  - exists (queue w). rewrite app_nil_r. by destruct w.
  - destruct (collect_join start phase tasks t cx w Hg Hne) as (q1 & Hpoll & Hg1 & _); [lia|].
    destruct (IH (tasks ++ [t]) (set_queue q1 w)) as (q2 & Hm & Hg2);
      [done|rewrite length_app; simpl; lia|rewrite length_app; simpl; lia|].
    exists q2. rewrite <- app_assoc in Hg2. split; [|done]. simpl.
    run_with Hpoll. by run_with Hm.
Qed.

(** C27. One [BatchCollect] per batch collects it, the others end without a result: on an
    idle queue the future that begins the batch is woken and polled once more, and then
    returns its own task and those of every future polled in between, in that order,
    as long as they fit one lap of the buffer. *)
Theorem collect_round_trip count phase t ts cx cx' w :
  idle count phase (queue w) →
  count + Z.of_nat (S (length ts)) ≤ region_floor count + N →
  ∃ batch w1 w2 w3,
    poll_collect (CollectUnbatched t) cx w = Done ((Pending, CollectCollecting batch), w1)
    ∧ trace w1 = trace w ++ [Woken cx]
    ∧ mapM (λ t, poll_collect (CollectUnbatched t) cx') ts w1
        = Done (replicate (length ts) (Ready None, CollectBatched), w2)
    ∧ poll_collect (CollectCollecting batch) cx w2
        = Done ((Ready (Some (t :: ts)), CollectBatched), w3)
    ∧ trace w2 = trace w1.
Proof.
  intros Hidle Hroom. destruct (collect_first _ _ t cx _ Hidle) as (q1 & Hp & Hg & _).
  set (w1 := mkWorld q1 (ext w) (trace w ++ [Woken cx])) in *.
  destruct (joiners_run count phase [t] ts cx' w1 Hg) as (q2 & Hm & Hg2);
    [simpl; lia|simpl; lia|].
  destruct (collect_finish count phase phase (t :: ts) cx (set_queue q2 w1) Hg2) as (w3 & Hf & _);
    [simpl; lia|simpl in *; lia|].
  by exists (mkUnboundedRange (slot_word count phase)), w1, (set_queue q2 w1), w3.
Qed.

(** The reducer of a [BatchReduce] runs once, on an iterator over exactly the tasks
    of the batch the future began, at the instant the batch is closed. *)
Theorem reduce_gets_the_batch {R : Type} (reducer : BufferIter → M world R)
  start phase p tasks cx w :
  growing start phase tasks (queue w) → (1 ≤ length tasks)%nat →
  start + Z.of_nat (length tasks) ≤ region_floor start + N →
  stored start tasks (closed w)
  ∧ slots_at (start + Z.of_nat (length tasks)) (negb phase) phase (queue (closed w))
  ∧ poll_reduce (ReduceCollecting (mkUnboundedRange (slot_word start p)) reducer) cx w
      = (r ← reducer (into_iter (batch_range start tasks));
         mret (Ready (Some r), ReduceBatched)) (closed w).
Proof.
  intros Hg Hne Hroom. destruct (growing_stored _ _ _ _ Hg Hne Hroom) as [Hs Hst].
  split; [exact Hst|]. split.
  - destruct Hg as [[_ Hl] _]. split; [|exact Hl]. simpl. by rewrite Hs, slot_word_toggle.
  - unfold poll_reduce. by run_with (into_bounded_run _ p _ _ _ Hs).
Qed.

(** C33. A batch alone on the queue grows up to the end of the lap that began at the
    start of its region, and no further: every push until then joins it, and the one
    that would reach the region again is refused with its task given back, so that
    the polls of all three futures park their wakers and keep their tasks. *)
Theorem batch_fills_one_lap start phase tasks t w cx :
  growing start phase tasks (queue w) → (1 ≤ length tasks)%nat →
  start + Z.of_nat (length tasks) ≤ region_floor start + N →
  if decide (start + Z.of_nat (length tasks) = region_floor start + N)
  then ∃ q', push t (queue w) = Done (Err t, q')
    ∧ (∃ w', poll_enqueue (EnqueuePending t) cx w = Done ((Pending, EnqueuePending t), w')
        ∧ deque_items (pending (queue w')) = deque_items (pending q') ++ [cx])
    ∧ (∃ w', poll_collect (CollectUnbatched t) cx w = Done ((Pending, CollectUnbatched t), w')
        ∧ deque_items (pending (queue w')) = deque_items (pending q') ++ [cx])
    ∧ (∀ reducer : BufferIter → M world unit, ∃ w',
        poll_reduce (ReduceUnbatched t reducer) cx w = Done ((Pending, ReduceUnbatched t reducer), w')
        ∧ deque_items (pending (queue w')) = deque_items (pending q') ++ [cx])
    ∧ (∃ w', background_process t w = Done ((), w')
        ∧ trace w' = trace w ++ [Spawned (EnqueueThenProcess t)])
  else ∃ q', push t (queue w) = Done (Ok None, q') ∧ growing start phase (tasks ++ [t]) q'.
Proof.
  intros Hg Hne Hroom. case_decide as Hfull.
  - destruct (push_last _ _ _ t _ Hg Hfull) as (q' & Hp & _). exists q'. split; [done|].
    pose proof (push_range_run t w _ _ Hp) as Hr. cbv beta iota in Hr.
    assert (∀ cx, push_pending cx (set_queue q' w)
      = Done ((), set_queue (set_pending (worker_push cx (pending q')) q') w)) as Hpp by done.
    repeat split; [| | |].
    + eexists. unfold poll_enqueue. run_with Hr. run_with (Hpp cx). split; [done|].
      simpl. apply push_items.
    + eexists. unfold poll_collect. run_with Hr. run_with (Hpp cx). split; [done|].
      simpl. apply push_items.
    + intros reducer. eexists. unfold poll_reduce. run_with Hr. run_with (Hpp cx). split; [done|].
      simpl. apply push_items.
    + eexists. unfold background_process. run_with Hr. split; [reflexivity|done].
  - destruct (push_next _ _ _ t _ Hg Hne) as (q' & Hp & Hg' & _); [lia|]. by exists q'.
Qed.
End collecting.

(** * Concrete runs on a fresh 64-cell queue *)
Definition cfg : QueueCfg := cfg64 64.

Lemma safe_cfg_64 : @SafeCfg cfg.
Proof. split; [reflexivity|reflexivity|by vm_compute]. Defined.

Abbreviation demo_world := (world (option Z) (list_deque Z) unit (event Z Z (job Z))).

Definition fresh : demo_world := mkWorld (@new_queue cfg _ _ _ _ None) () [].

Lemma fresh_idle : @idle cfg _ _ 0 false (queue fresh).
Proof. repeat split. Qed.

(** The queue after pushes of [0 .. n - 1], by repeated use of [push]. *)
Definition grown (n : Z) : demo_world :=
  match for_each (seqZ 0 n) (λ t, push_range (C := cfg) t ;; mret ()) fresh with
  | Done (_, w) => w
  | _ => fresh
  end.
Definition grown_2 : demo_world := Eval vm_compute in grown 2.
Definition grown_64 : demo_world := Eval vm_compute in grown 64.

Lemma holds_computed {C : QueueCfg} (buf : list (option Z)) start tasks :
  (λ i, buf !! Z.to_nat ((start + Z.of_nat i) mod N)) <$> seq 0 (length tasks)
    = Some ∘ Some <$> tasks →
  holds buf start tasks.
Proof.
  intros Hb i t Hi. pose proof (lookup_lt_Some _ _ _ Hi) as Hlt.
  apply (f_equal (lookup i)) in Hb. rewrite !list_lookup_fmap, Hi, lookup_seq_lt in Hb by done.
  by injection Hb.
Qed.

Lemma grown_2_growing : @growing cfg _ _ 0 false [0; 1] (queue grown_2).
Proof.
  split; [by split; vm_compute|]. split; [by vm_compute|]. split; [by vm_compute|].
  split; [by vm_compute|]. apply holds_computed. by vm_compute.
Qed.

Lemma grown_64_growing : @growing cfg _ _ 0 false (seqZ 0 64) (queue grown_64).
Proof.
  split; [by split; vm_compute|]. split; [by vm_compute|]. split; [by vm_compute|].
  split; [by vm_compute|]. apply holds_computed. by vm_compute.
Qed.

Lemma collect_round_trip_witness :
  ∃ batch w1 w2 w3,
    poll_collect (C := cfg) (CollectUnbatched 7) 1 fresh
      = Done ((Pending, CollectCollecting batch), w1)
    ∧ trace w1 = [Woken 1]
    ∧ mapM (λ t, poll_collect (C := cfg) (CollectUnbatched t) 2) [8; 9] w1
        = Done ([(Ready None, CollectBatched); (Ready None, CollectBatched)], w2)
    ∧ poll_collect (C := cfg) (CollectCollecting batch) 1 w2
        = Done ((Ready (Some [7; 8; 9]), CollectBatched), w3)
    ∧ trace w2 = trace w1.
Proof.
  refine (collect_round_trip (C := cfg) (HS := safe_cfg_64) 0 false 7 [8; 9] 1 2 fresh fresh_idle _).
  by vm_compute.
Defined.

Lemma reduce_gets_the_batch_witness :
  @stored cfg _ _ _ _ _ 0 [0; 1] (@closed cfg _ _ _ _ grown_2)
  ∧ @slots_at cfg _ _ (0 + Z.of_nat 2) true false (queue (@closed cfg _ _ _ _ grown_2))
  ∧ poll_reduce (C := cfg)
      (ReduceCollecting (mkUnboundedRange (@slot_word cfg 0 false)) (λ it, mret (current it))) 1 grown_2
    = (r ← (mret (current (into_iter (@batch_range cfg _ 0 [0; 1]))) : M demo_world Z);
       mret (Ready (Some r), ReduceBatched)) (@closed cfg _ _ _ _ grown_2).
Proof.
  refine (reduce_gets_the_batch (C := cfg) (HS := safe_cfg_64) (λ it, mret (current it))
    0 false false [0; 1] 1 grown_2 grown_2_growing _ _); [cbn; lia|by vm_compute].
Defined.

Lemma batch_fills_one_lap_witness :
  if decide (0 + Z.of_nat (length (seqZ 0 64)) = @region_floor cfg 0 + @N cfg)
  then ∃ q', push (C := cfg) 64 (queue grown_64) = Done (Err 64, q')
    ∧ (∃ w', poll_enqueue (C := cfg) (EnqueuePending 64) 5 grown_64
          = Done ((Pending, EnqueuePending 64), w')
        ∧ deque_items (pending (queue w')) = deque_items (pending q') ++ [5])
    ∧ (∃ w', poll_collect (C := cfg) (CollectUnbatched 64) 5 grown_64
          = Done ((Pending, CollectUnbatched 64), w')
        ∧ deque_items (pending (queue w')) = deque_items (pending q') ++ [5])
    ∧ (∀ reducer : BufferIter → M demo_world unit, ∃ w',
        poll_reduce (C := cfg) (ReduceUnbatched 64 reducer) 5 grown_64
          = Done ((Pending, ReduceUnbatched 64 reducer), w')
        ∧ deque_items (pending (queue w')) = deque_items (pending q') ++ [5])
    ∧ (∃ w', background_process (C := cfg) 64 grown_64 = Done ((), w')
        ∧ trace w' = trace grown_64 ++ [Spawned (EnqueueThenProcess 64)])
  else ∃ q', push (C := cfg) 64 (queue grown_64) = Done (Ok None, q')
    ∧ @growing cfg _ _ 0 false (seqZ 0 64 ++ [64]) q'.
Proof.
  refine (batch_fills_one_lap (C := cfg) (HS := safe_cfg_64) 0 false (seqZ 0 64) 64 grown_64 5
    grown_64_growing _ _); [by apply Nat.leb_le|by vm_compute].
Defined.
