(* ===== verification/Gather.v ===== *)
(** What the futures of a [BatchReducer] have in common, as an interface: a future that gathers
    a batch pushes its task when it is first polled; the one that begins the batch is woken
    at once, and polled again closes the batch and returns what it makes of its tasks.

    [BatchCollect] and [BatchReduce] implement it; [Collectors] proves its theorems about
    pools of futures against the interface only. *)
From S2P Require Import Prelude Usize Helpers Occupancy Deque Queue Ranges Consumption Protocol Exclusion TaskRef Futures.
Local Open Scope Z_scope.

(** [held]: the task of a future that has to push it; [collecting]: the batch of the future that
    will close it. [result] is what it returns for the tasks of a batch, provided that they
    are [allowed] where they start. *)
Class Gathering (T St R : Type) : Type := {
  held : St → option T;
  collecting : St → option UnboundedRange;
  sound : St → Prop;
  allowed : Z → list T → Prop;
  result : list T → R
}.

Class Polled {C : QueueCfg} (T W D X St R : Type) {HD : Deque W D} : Type :=
  poll_once : St → W → M (world (option T) D X (event W T (job T))) (Poll (option R) * St).

(** One law per branch of [poll]; the queue is otherwise idle, as in [Futures]. *)
Class Gatherer {C : QueueCfg} (T W D X St R : Type) {HD : Deque W D} {HL : DequeLaws W D}
  {HG : Gathering T St R} {HP : Polled T W D X St R} : Prop := {
  collecting_held (st : St) b : collecting st = Some b → held st = None;
  poll_first (st : St) (t : T) cx (w : world (option T) D X (event W T (job T))) (count : Z) phase :
    sound st → held st = Some t → idle count phase (queue w) →
    ∃ q' st', poll_once st cx w = Done ((Pending, st'), mkWorld q' (ext w) (trace w ++ [Woken cx]))
      ∧ sound st' ∧ collecting st' = Some (mkUnboundedRange (slot_word count phase))
      ∧ growing count phase [t] q' ∧ pending q' = pending (queue w);
  poll_join (st : St) (t : T) cx (w : world (option T) D X (event W T (job T))) (start : Z) phase (tasks : list T) :
    sound st → held st = Some t → growing start phase tasks (queue w) → (1 ≤ length tasks)%nat →
    start + Z.of_nat (length tasks) < region_floor start + N →
    ∃ q' st', poll_once st cx w = Done ((Ready None, st'), set_queue q' w)
      ∧ growing start phase (tasks ++ [t]) q' ∧ pending q' = pending (queue w);
  poll_full (st : St) (t : T) cx (w : world (option T) D X (event W T (job T))) (start : Z) phase (tasks : list T) :
    sound st → held st = Some t → growing start phase tasks (queue w) →
    start + Z.of_nat (length tasks) = region_floor start + N →
    ∃ q', poll_once st cx w = Done ((Pending, st), set_queue q' w)
      ∧ growing start phase tasks q'
      ∧ deque_items (pending q') = deque_items (pending (queue w)) ++ [cx];
  poll_finish (st : St) cx (w : world (option T) D X (event W T (job T))) (start : Z) phase p (tasks : list T) :
    sound st → collecting st = Some (mkUnboundedRange (slot_word start p)) →
    growing start phase tasks (queue w) → (1 ≤ length tasks)%nat →
    start + Z.of_nat (length tasks) ≤ region_floor start + N → allowed start tasks →
    ∃ st' w' evs, poll_once st cx w = Done ((Ready (Some (result tasks)), st'), w')
      ∧ idle (start + Z.of_nat (length tasks)) (negb phase) (queue w')
      ∧ trace w' = trace w ++ evs ∧ wakes evs = wakeable region_size w
      ∧ deque_items (pending (queue w)) = wakeable region_size w ++ deque_items (pending (queue w'))
}.

(** Whatever destructors ran before, the release of the only batch wakes the same wakers. *)
Section release.
Context {C : QueueCfg} {HS : SafeCfg} {T W D X : Type} `{DequeLaws W D}.
Implicit Types (w : world (option T) D X (event W T (job T))).

Lemma wakes_dropped (ts : list T) : wakes (map Dropped ts : list (event W T (job T))) = [].
Proof. by induction ts. Qed.

Lemma release_after start phase tasks drops w w1 w' :
  growing start phase tasks (queue w) → queue w1 = queue (closed w) →
  trace w1 = trace w ++ map Dropped drops → released start w1 w' →
  idle (start + Z.of_nat (length tasks)) (negb phase) (queue w') ∧ ext w' = ext w1
  ∧ ∃ evs, trace w' = trace w ++ evs ∧ wakes evs = wakeable region_size w
    ∧ deque_items (pending (queue w)) = wakeable region_size w ++ deque_items (pending (queue w')).
Proof.
  intros ([Hs Hl] & Hlen & Ho & _) Hq Hdt Hrel.
  destruct (release_open start phase (length tasks) w1)
    as (w2 & Hr & Hidle & Hx & Ht & Hd); rewrite ?Hq; [|done..|].
  { split; [|exact Hl]. simpl. by rewrite Hs, slot_word_toggle. }
  unfold released in Hrel. rewrite Hr in Hrel. injection Hrel as ->.
  split; [exact Hidle|]. split; [exact Hx|].
  unfold wakeable in *. rewrite Hq in Ht, Hd. eexists. split_and!.
  - rewrite Ht, Hdt, <- app_assoc. reflexivity.
  - rewrite wakes_app, wakes_dropped. apply wakes_woken.
  - exact Hd.
Qed.
End release.

(** * [BatchCollect] *)
Section collect.
Context {C : QueueCfg} {T W D X : Type}.

#[export] Instance collect_gathering : Gathering T (collect_state T) (list T) := {
  held st := match st with CollectUnbatched t => Some t | _ => None end;
  collecting st := match st with CollectCollecting b => Some b | _ => None end;
  sound _ := True;
  allowed _ _ := True;
  result tasks := tasks
}.

#[export] Instance collect_polled `{Deque W D} : Polled T W D X (collect_state T) (list T) :=
  poll_collect.

#[export] Instance collect_gatherer {HS : SafeCfg} `{DequeLaws W D} :
  Gatherer T W D X (collect_state T) (list T).
Proof.
  split; cbn.
  - by intros [].
  - intros [t'| |] t cx w count phase _ [= <-] Hidle.
    destruct (collect_first _ _ t' cx _ Hidle) as (q' & Hp & Hg & Hpe). by eexists q', _.
  - intros [t'| |] t cx w start phase tasks _ [= <-] Hg Hne Hroom.
    destruct (collect_join _ _ _ t' cx _ Hg Hne Hroom) as (q' & Hp & Hg' & Hpe). by eexists q', _.
  - intros [t'| |] t cx w start phase tasks _ [= <-] Hg Hfull. exact (collect_refused _ _ _ t' cx _ Hg Hfull).
  - intros [|b|] cx w start phase p tasks _ [= ->] Hg Hne Hroom _.
    destruct (collect_finish _ _ p _ cx _ Hg Hne Hroom) as (w' & Hp & Hidle & _ & Ht & Hd).
    eexists _, w', _. split_and!; [exact Hp|exact Hidle|exact Ht|apply wakes_woken|exact Hd].
Qed.
End collect.

(** * [BatchReduce] *)
Section reduce.
Context {C : QueueCfg} {T W D X R : Type} `{NeedsDrop T}.

(** A reducer that gets its result from the tasks: it may leave some to the destructor of the
    iterator, which releases the region when it is dropped. *)
Definition Reduces `{Deque W D} (f : list T → R)
  (reducer : BufferIter → M (world (option T) D X (event W T (job T))) R) : Prop :=
  ∀ start tasks w, stored start tasks w → no_counter_wrap start tasks →
    ∃ rest w', reducer (into_iter (batch_range start tasks)) w = Done (f tasks, w')
      ∧ released start (after_drops rest w) w'.

Definition reducer_of {F : Type} (st : reduce_state T F) : option F :=
  match st with
  | ReduceUnbatched _ r | ReduceCollecting _ r => Some r
  | ReduceBatched => None
  end.

Abbreviation reduce_st := (reduce_state T (BufferIter → M (world (option T) D X (event W T (job T))) R)).

Definition reduce_gathering `{Deque W D} (f : list T → R) : Gathering T reduce_st R := {|
  held st := match st with ReduceUnbatched t _ => Some t | _ => None end;
  collecting st := match st with ReduceCollecting b _ => Some b | _ => None end;
  sound st := ∀ reducer, reducer_of st = Some reducer → Reduces f reducer;
  allowed start tasks := no_counter_wrap start tasks;
  result := f
|}.

#[export] Instance reduce_polled `{Deque W D} : Polled T W D X reduce_st R := poll_reduce.

Context {HS : SafeCfg} `{DequeLaws W D} (f : list T → R).
Implicit Types (w : world (option T) D X (event W T (job T))).

Lemma release_after_drops start phase tasks rest w w' :
  growing start phase tasks (queue w) → released start (after_drops rest (closed w)) w' →
  idle (start + Z.of_nat (length tasks)) (negb phase) (queue w')
  ∧ ∃ evs, trace w' = trace w ++ evs ∧ wakes evs = wakeable region_size w
    ∧ deque_items (pending (queue w)) = wakeable region_size w ++ deque_items (pending (queue w')).
Proof.
  intros Hg Hrel.
  assert (queue (after_drops rest (closed w)) = queue (closed w)
    ∧ ∃ drops, trace (after_drops rest (closed w)) = trace w ++ map Dropped drops) as (Hq & drops & Hd).
  { unfold after_drops. destruct needs_drop; simpl; (split; [done|]); [by exists rest|].
    exists []. simpl. by rewrite app_nil_r. }
  by destruct (release_after start phase tasks drops w _ w' Hg Hq Hd Hrel) as (Hidle & _ & Hrest).
Qed.

Lemma reduce_gatherer : Gatherer T W D X reduce_st R (HG := reduce_gathering f).
Proof.
  split; cbn.
  - by intros [].
  - intros [t' r| |] t cx w count phase Hsd [= <-] Hidle.
    destruct (push_first _ _ t' _ Hidle) as (q1 & Hp & Hg). eexists q1, (ReduceCollecting _ r).
    split_and!; [|exact Hsd|done|apply Hg..].
    unfold poll_once, reduce_polled, poll_reduce. by run_with (push_range_run _ _ _ _ Hp).
  - intros [t' r| |] t cx w start phase tasks Hsd [= <-] Hg Hne Hroom.
    destruct (push_next _ _ _ t' _ Hg Hne Hroom) as (q1 & Hp & Hg'). eexists q1, _.
    split; [|exact Hg']. unfold poll_once, reduce_polled, poll_reduce. by run_with (push_range_run _ _ _ _ Hp).
  - intros [t' r| |] t cx w start phase tasks Hsd [= <-] Hg Hfull.
    destruct (push_last _ _ _ t' _ Hg Hfull) as (q1 & Hp & Hg' & Hpe).
    exists (set_pending (worker_push cx (pending q1)) q1). split_and!; [|exact Hg'|].
    + unfold poll_once, reduce_polled, poll_reduce. by run_with (push_range_run _ _ _ _ Hp).
    + simpl. by rewrite push_items, Hpe.
  - intros [|b r|] cx w start phase p tasks Hsd [= ->] Hg Hne Hroom Hn.
    destruct (growing_stored _ _ _ _ Hg Hne Hroom) as [Hs Hst].
    destruct (Hsd r eq_refl _ _ _ (stored_closed _ _ _ Hst) Hn) as (rest & w' & Hr & Hrel).
    destruct (release_after_drops _ _ _ _ _ _ Hg Hrel) as (Hidle & evs & Ht & Hw & Hd).
    eexists _, w', evs. split_and!; [|done..].
    unfold poll_once, reduce_polled, poll_reduce. run_with (into_bounded_run _ p _ _ _ Hs). by run_with Hr.
Qed.
End reduce.
