(* ===== verification/Wakeups.v ===== *)
(** The books of an executor: every live future is either to be polled or parked in the waker
    deque, never both, and parked once.

    [scheduled] is kept by whatever a turn of an executor does: a future ends and wakes others,
    parks, wakes itself, or a new one is spawned. *)
From S2P Require Import Prelude Usize Helpers Deque Queue.

(** The events between two worlds: what an executor reacts to after a turn. *)
Definition news {cell D X E : Type} (w w' : world cell D X E) : list E :=
  drop (length (trace w)) (trace w').

Lemma news_app {cell D X E : Type} (w w' : world cell D X E) evs :
  trace w' = trace w ++ evs → news w w' = evs.
Proof. intros Ht. unfold news. by rewrite Ht, drop_app_length. Qed.

Section books.
Context {A : Type}.
Implicit Types (m : gmap nat A) (ready : gset nat) (parked : list nat).

Record scheduled m ready parked : Prop := {
  sc_nodup : NoDup parked;
  sc_live : ∀ id, id ∈ parked → is_Some (m !! id);
  sc_ready : ∀ id, id ∈ ready ↔ is_Some (m !! id) ∧ id ∉ parked
}.

Lemma scheduled_size m ready parked : scheduled m ready parked → size ready ≤ size m.
Proof.
  intros Hs. rewrite <- (size_dom (D := gset nat)). apply subseteq_size. intros id Hid.
  apply elem_of_dom. by apply (sc_ready _ _ _ Hs).
Qed.

Lemma scheduled_all m : scheduled m (dom m) [].
Proof.
  split; [apply NoDup_nil_2|by intros id ?%not_elem_of_nil|].
  intros id. rewrite elem_of_dom. split; [|by intros []]. split; [done|apply not_elem_of_nil].
Qed.

(** A future that can be polled ends; the oldest parked ones are woken. *)
Lemma scheduled_ends m ready parked id woken parked' :
  scheduled m ready parked → id ∈ ready → parked = woken ++ parked' →
  scheduled (delete id m) (ready ∖ {[id]} ∪ list_to_set woken) parked'.
Proof.
  intros [Hnd Hlive Hrd] Hid ->. apply NoDup_app in Hnd as (_ & Hdis & Hnd).
  apply Hrd in Hid as [_ Hnp].
  assert (∀ x, x ∈ woken ++ parked' → delete id m !! x = m !! x) as Hother.
  { intros x Hx. apply fin_maps.lookup_delete_ne. by intros ->. }
  split; [done| |].
  - intros x Hx. rewrite Hother by set_solver. apply Hlive. set_solver.
  - intros x. rewrite elem_of_union, elem_of_difference, elem_of_singleton, elem_of_list_to_set, Hrd.
    destruct (decide (x ∈ woken ++ parked')) as [Hx|Hx].
    + rewrite (Hother x Hx). apply Hlive in Hx as Hl. split; [set_solver|].
      intros [_ ?]. right. set_solver.
    + destruct (decide (x = id)) as [->|Hne].
      * rewrite fin_maps.lookup_delete_eq. split; [set_solver|by intros [[? [=]] _]].
      * rewrite fin_maps.lookup_delete_ne by done. set_solver.
Qed.

Lemma scheduled_parks m ready parked id :
  scheduled m ready parked → id ∈ ready → scheduled m (ready ∖ {[id]} ∪ ∅) (parked ++ [id]).
Proof.
  intros [Hnd Hlive Hrd] Hid. pose proof (proj1 (Hrd id) Hid) as [Hl Hnp]. split.
  - apply NoDup_app. split_and!; [done| |apply NoDup_singleton].
    by intros x Hx ->%list_elem_of_singleton.
  - intros x [Hx|Hx%list_elem_of_singleton]%elem_of_app; [by apply Hlive|by subst].
  - intros x. rewrite elem_of_app, list_elem_of_singleton. pose proof (Hrd x). set_solver.
Qed.

Lemma scheduled_shrinks ready (id : nat) : id ∈ ready → size (ready ∖ {[id]} ∪ ∅) < size ready.
Proof.
  intros Hid. rewrite (right_id_L ∅ (∪)), size_difference by set_solver. rewrite size_singleton.
  assert (size ready ≠ 0); [|lia]. intros Hz%size_empty_inv. set_solver.
Qed.

(** A future changes its state and wakes itself. *)
Lemma scheduled_yields m ready parked id a :
  scheduled m ready parked → id ∈ ready →
  scheduled (<[id := a]> m) (ready ∖ {[id]} ∪ list_to_set [id]) parked.
Proof.
  intros [Hnd Hlive Hrd] Hid. pose proof (proj1 (Hrd id) Hid) as [Hl Hnp].
  assert (ready ∖ {[id]} ∪ list_to_set [id] = ready) as ->.
  { apply set_eq. intros x. destruct (decide (x = id)) as [->|]; set_solver. }
  split; [done| |].
  - intros x Hx. rewrite fin_maps.lookup_insert_ne by (by intros ->). by apply Hlive.
  - intros x. rewrite Hrd. destruct (decide (id = x)) as [->|Hne].
    + rewrite fin_maps.lookup_insert_eq. split; intros [_ ?]; by eauto.
    + by rewrite fin_maps.lookup_insert_ne.
Qed.

Lemma scheduled_spawns m ready parked id a :
  scheduled m ready parked → m !! id = None → scheduled (<[id := a]> m) (ready ∪ {[id]}) parked.
Proof.
  intros [Hnd Hlive Hrd] Hid.
  assert (id ∉ parked) as Hnp. { intros [x Hx]%Hlive. congruence. }
  split; [done| |].
  - intros x Hx. rewrite fin_maps.lookup_insert_ne by (by intros ->). by apply Hlive.
  - intros x. rewrite elem_of_union, elem_of_singleton, Hrd. destruct (decide (id = x)) as [->|Hne].
    + rewrite fin_maps.lookup_insert_eq. split; [by eauto|by right].
    + rewrite fin_maps.lookup_insert_ne by done. split; [by intros [?|?]|by left].
Qed.

(** A release that leaves wakers in the deque has woken some. *)
Lemma somebody_woken ready parked (n : Z) parked' (id : nat) :
  (0 < n)%Z → parked = take (Z.to_nat n) parked ++ parked' → parked' ≠ [] →
  ready ∖ {[id]} ∪ list_to_set (take (Z.to_nat n) parked) ≠ (∅ : gset nat).
Proof.
  intros Hn Hd Hleft. destruct parked as [|x parked]; [rewrite take_nil in Hd; by destruct parked'|].
  replace (Z.to_nat n) with (S (pred (Z.to_nat n))) by lia. simpl. set_solver.
Qed.
End books.
