(* ===== verification/Producer.v ===== *)
(** A producer that fills the queue and drains its open batch whenever a push is refused, as
    the test [it_manages_occupancy] does; proved from the runs of [push] on an otherwise idle
    queue ([Futures]) and of the range guards ([Ranges], [Consumption]). *)
From S2P Require Import Prelude Usize Helpers Occupancy Deque Queue Ranges Consumption Protocol Exclusion Safety Futures Gather.
Local Open Scope Z_scope.

(** [sum::<usize>()], without the debug assertion on overflow. *)
Definition usize_sum {C : QueueCfg} (ts : list Z) : Z := foldl (wrapping_add usize_bits) 0 ts.

Section producer.
Context {C : QueueCfg} {W D X : Type} `{Deque W D} `{NeedsDrop Z}.
Abbreviation op A := (M (world (option Z) D X (event W Z (job Z))) A).

(** [iter.sum()] *)
Definition sum_reducer (it : BufferIter) : op Z :=
  tasks ← take_then_drop (iter_fuel it) it; mret (usize_sum tasks).

(** [batch.into_bounded().into_iter().sum()] *)
Definition sum_batch (batch : UnboundedRange) : op Z :=
  range ← into_bounded batch; sum_reducer (into_iter range).

(** [batch.take()], its sum added to [total]; [None]: no batch to take. *)
Definition take_batch (batch : option UnboundedRange) (total : Z) : op (option Z) :=
  match batch with
  | Some batch => s ← sum_batch batch; mret (Some (wrapping_add usize_bits total s))
  | None => mret None
  end.

(** The loop [while i < limit], then the last batch; [None] is the panic on a full queue
    without a batch. *)
Fixpoint fill_and_drain (fuel : nat) (limit i : Z) (batch : option UnboundedRange) (total : Z)
  : op (option Z) :=
  match fuel with
  | O => out_of_fuel
  | S fuel =>
      if i <? limit then
        r ← push_range i;
        match r with
        | Ok (Some unbounded_batch) =>
            (* the assignment drops the batch it replaces *)
            match batch with Some old => drop_unbounded old | None => mret () end ;;
            fill_and_drain fuel limit (wrapping_add usize_bits i 1) (Some unbounded_batch) total
        | Ok None => fill_and_drain fuel limit (wrapping_add usize_bits i 1) batch total
        | Err _ =>
            t ← take_batch batch total;
            match t with
            | Some total => fill_and_drain fuel limit i None total
            | None => mret None
            end
        end
      else
        t ← take_batch batch total;
        mret (Some (default total t))
  end.
End producer.

Section fills.
Context {C : QueueCfg} {HS : SafeCfg} {W D X : Type} `{DequeLaws W D} `{NeedsDrop Z}.
Abbreviation world := (world (option Z) D X (event W Z (job Z))).
Implicit Types (w : world) (tasks : list Z).

Definition sum_of tasks : Z := foldr Z.add 0 tasks.

Lemma sum_of_app l k : sum_of (l ++ k) = sum_of l + sum_of k.
Proof. unfold sum_of. induction l as [|x l IH]; [done|]. simpl. rewrite IH. lia. Qed.

Lemma wrapping_add_wrap a b :
  wrapping_add usize_bits (wrap usize_bits a) (wrap usize_bits b) = wrap usize_bits (a + b).
Proof. unfold wrapping_add, wrap. by rewrite <- Zplus_mod. Qed.

Lemma usize_sum_wrap tasks : usize_sum tasks = wrap usize_bits (sum_of tasks).
Proof.
  unfold usize_sum. pose proof (Zmod_0_l (2 ^ usize_bits)) as Hz.
  enough (∀ a, foldl (wrapping_add usize_bits) (wrap usize_bits a) tasks
    = wrap usize_bits (a + sum_of tasks)) as He by (specialize (He 0); unfold wrap in *; by rewrite Hz in He).
  induction tasks as [|t tasks IH]; intros a; simpl; [by rewrite Z.add_0_r|].
  replace (wrapping_add usize_bits (wrap usize_bits a) t) with (wrap usize_bits (a + t)).
  - rewrite IH. f_equal. unfold sum_of. simpl. lia.
  - unfold wrapping_add, wrap. by rewrite Zplus_mod_idemp_l.
Qed.

Global Instance sum_of_perm : Proper ((≡ₚ) ==> eq) sum_of.
Proof. intros l k Hp. unfold sum_of. induction Hp; simpl; lia. Qed.

(** Summing batch by batch is summing all. *)
Lemma usize_sum_batches (batches : list (list Z)) :
  usize_sum ((λ ts, wrap usize_bits (sum_of ts)) <$> batches) = wrap usize_bits (sum_of (concat batches)).
Proof.
  rewrite usize_sum_wrap. induction batches as [|ts batches IH]; [done|].
  rewrite fmap_cons. simpl concat. rewrite sum_of_app. unfold wrap in *.
  change (sum_of (?x :: ?l)) with (x + sum_of l).
  by rewrite Zplus_mod_idemp_l, Zplus_mod, IH, <- Zplus_mod.
Qed.

(** The sum takes every task of the iterator, so that nothing is left to its destructor. *)
Lemma sum_reducer_run start tasks w w' :
  stored start tasks w → no_counter_wrap start tasks → released start w w' →
  sum_reducer (into_iter (batch_range start tasks)) w = Done (wrap usize_bits (sum_of tasks), w').
Proof.
  intros (_ & _ & Hh) Hnw Hrel. unfold sum_reducer. rewrite (batch_range_eq _ _ Hnw). cbv zeta.
  unfold into_iter. cbn [range_start]. set (s := start mod counter_modulus).
  pose proof (Z.mod_pos_bound start _ counter_modulus_pos). unfold no_counter_wrap in Hnw.
  assert (iter_fuel (mkBufferIter s (mkBoundedRange s (s + Z.of_nat (length tasks))))
    = S (length tasks)) as -> by (unfold iter_fuel; cbn; lia).
  erewrite run_bind.
  2:{ apply (take_then_drop_run (S (length tasks)) tasks s s w w'); [lia|lia|by apply holds_word|].
      rewrite drop_ge by lia. rewrite after_drops_nil. unfold released, s.
      rewrite mod_counter_mod_N. exact Hrel. }
  rewrite take_ge by lia. rewrite run_ret. by rewrite usize_sum_wrap.
Qed.

Lemma sum_reduces :
  Reduces (T := Z) (W := W) (D := D) (X := X) (λ tasks, wrap usize_bits (sum_of tasks)) sum_reducer.
Proof.
  intros start tasks w Hst Hnw. destruct (release_returns start w) as [w' Hrel].
  exists [], w'. rewrite after_drops_nil. split; [by apply sum_reducer_run|done].
Qed.

(** Draining the only batch gives its sum and leaves the queue idle. *)
Lemma sum_batch_run start phase p tasks w :
  growing start phase tasks (queue w) → (1 ≤ length tasks)%nat →
  start + Z.of_nat (length tasks) ≤ region_floor start + N → no_counter_wrap start tasks →
  ∃ w', sum_batch (mkUnboundedRange (slot_word start p)) w
      = Done (wrap usize_bits (sum_of tasks), w')
    ∧ idle (start + Z.of_nat (length tasks)) (negb phase) (queue w').
Proof.
  intros Hg Hne Hroom Hnw. destruct (growing_stored _ _ _ _ Hg Hne Hroom) as [Hs Hst].
  destruct (release_growing _ _ _ _ Hg) as (w' & Hrel & Hidle & _). exists w'. split; [|exact Hidle].
  unfold sum_batch. run_with (into_bounded_run _ p _ _ _ Hs). by apply sum_reducer_run.
Qed.

(** Between two turns of the loop: the tasks below [i] are pushed, those from [start] on are in
    the batch that is open, if any, and the others are counted. *)
Definition loop_state (c i : Z) (batch : option UnboundedRange) (total : Z) w : Prop :=
  match batch with
  | None => (∃ phase, idle (c + i) phase (queue w)) ∧ total = wrap usize_bits (sum_of (seqZ 0 i))
  | Some b => ∃ s phase, b = mkUnboundedRange (slot_word (c + s) phase)
      ∧ 0 ≤ s < i ∧ growing (c + s) phase (seqZ s (i - s)) (queue w)
      ∧ c + i ≤ region_floor (c + s) + N
      ∧ total = wrap usize_bits (sum_of (seqZ 0 s))
  end.

Lemma sum_of_split s i :
  0 ≤ s ≤ i → sum_of (seqZ 0 i) = sum_of (seqZ 0 s) + sum_of (seqZ s (i - s)).
Proof.
  intros. rewrite <- sum_of_app. f_equal. replace i with (s + (i - s)) at 1 by lia.
  rewrite seqZ_app by lia. by rewrite Z.add_0_l.
Qed.

Lemma take_batch_run c i batch total w :
  loop_state c i batch total w → 0 ≤ c → 0 ≤ i → c + i < counter_modulus →
  ∃ w' t, take_batch batch total w = Done (t, w') ∧ (is_Some batch → is_Some t)
    ∧ loop_state c i None (default total t) w'.
Proof.
  intros Hst Hc Hi Hm. destruct batch as [b|]; [|by eexists w, None].
  destruct Hst as (s & phase & -> & Hs & Hg & Hroom & ->).
  assert (Z.of_nat (length (seqZ s (i - s))) = i - s) as Hl by (rewrite length_seqZ; lia).
  destruct (sum_batch_run (c + s) phase phase _ w Hg) as (w' & Hr & Hidle); [lia|lia| |].
  { unfold no_counter_wrap. rewrite Hl, Z.mod_small; lia. }
  rewrite Hl in Hidle. replace (c + s + (i - s)) with (c + i) in Hidle by lia.
  eexists w', _. split; [unfold take_batch; run_with Hr; reflexivity|].
  split; [by eexists|]. split; [by eexists|]. cbn [default].
  unfold id. rewrite wrapping_add_wrap, (sum_of_split s i) by lia. done.
Qed.

(** The loop ends within two turns per task left and never finds the queue full without
    having a batch to drain. *)
Lemma fill_and_drain_run fuel limit c i batch total w :
  loop_state c i batch total w → 0 ≤ c → 0 ≤ i ≤ limit → c + limit < counter_modulus →
  (Z.to_nat (2 * (limit - i)) + (if batch is Some _ then 1 else 0) < fuel)%nat →
  ∃ w', fill_and_drain fuel limit i batch total w
      = Done (Some (wrap usize_bits (sum_of (seqZ 0 limit))), w')
    ∧ ∃ phase, idle (c + limit) phase (queue w').
Proof.
  revert i batch total w. induction fuel as [|fuel IH]; intros i batch total w Hst Hc Hi Hm Hf; [lia|].
  cbn [fill_and_drain]. destruct (Z.ltb_spec i limit) as [Hlt|Hge].
  2:{ assert (i = limit) as -> by lia.
      destruct (take_batch_run _ _ _ _ _ Hst Hc) as (w' & t & Hr & _ & Hidle & Ht); [lia|lia|].
      exists w'. split; [|done]. run_with Hr. by rewrite Ht. }
  assert (wrapping_add usize_bits i 1 = i + 1) as Hnext.
  { apply wrap_small. pose proof INDEX_SHIFT_bounds.
    pose proof (pow2_pos INDEX_SHIFT). split; [lia|]. rewrite pow_usize_bits. nia. }
  destruct batch as [b|].
  - pose proof Hst as Hst'. destruct Hst as (s & phase & -> & Hs & Hg & Hroom & ->).
    assert (Z.of_nat (length (seqZ s (i - s))) = i - s) as Hl by (rewrite length_seqZ; lia).
    destruct (decide (c + i = region_floor (c + s) + N)) as [Hfull|Hroom'].
    + destruct (push_last _ _ _ i _ Hg) as (q' & Hp & Hg' & _); [rewrite Hl; lia|].
      run_with (push_range_run i w _ _ Hp).
      assert (loop_state c i (Some (mkUnboundedRange (slot_word (c + s) phase)))
        (wrap usize_bits (sum_of (seqZ 0 s))) (set_queue q' w)) as Hst2
        by (exists s, phase; split_and!; done || lia).
      destruct (take_batch_run _ _ _ _ _ Hst2 Hc) as (w' & t & Hr & Ht & Hn); [lia|lia|].
      destruct Ht as [t' ->]; [by eexists|]. run_with Hr. cbn [default] in Hn.
      apply (IH i None t' w'); [done|done|lia|lia|lia].
    + destruct (push_next _ _ _ i _ Hg) as (q' & Hp & Hg' & _); [lia|rewrite Hl; lia|].
      run_with (push_range_run i w _ _ Hp). cbn [fmap option_fmap option_map]. rewrite Hnext.
      apply (IH (i + 1) (Some _)); [|done|lia|lia|simpl; lia].
      exists s, phase. split_and!; [done|lia|lia| |lia|done].
      replace (i + 1 - s) with (i - s + 1) by lia. rewrite seqZ_app by lia.
      by replace (s + (i - s)) with i by lia.
  - destruct Hst as [(phase & Hidle) ->].
    destruct (push_first _ _ i _ Hidle) as (q' & Hp & Hg & _).
    run_with (push_range_run i w _ _ Hp). cbn [fmap option_fmap option_map].
    run_with (run_ret () (set_queue q' w)). rewrite Hnext.
    apply (IH (i + 1) (Some _)); [|done|lia|lia|simpl; lia].
    exists i, phase. pose proof (region_floor_bounds (c + i)). pose proof region_size_le. pose proof N_eight_regions.
    split_and!; [done|lia|lia| |lia|done]. by replace (i + 1 - i) with 1 by lia.
Qed.

(** C26. A producer that drains its open batch whenever a push is refused gets all its tasks
    through a queue of any size: the loop ends within two turns per task, a refusal always
    finds a batch to drain, no batch is overwritten by the next, and every task is summed
    exactly once, over as many laps as it takes (while the task counter does not wrap);
    the queue is idle again at the end. *)
Theorem it_manages_occupancy limit c phase w :
  0 ≤ limit → 0 ≤ c → c + limit < counter_modulus → idle c phase (queue w) →
  ∃ w', fill_and_drain (Z.to_nat (2 * limit + 1)) limit 0 None 0 w
      = Done (Some (wrap usize_bits (sum_of (seqZ 0 limit))), w')
    ∧ ∃ phase', idle (c + limit) phase' (queue w').
Proof.
  intros Hl Hc Hm Hidle. apply (fill_and_drain_run _ _ c); [|lia|lia|lia|lia].
  split; [exists phase; by rewrite Z.add_0_r|]. unfold sum_of. cbn. symmetry. apply Zmod_0_l.
Qed.
End fills.

(** The test: 256 tasks through a queue of 64 cells. *)
#[local] Instance plain_usize : NeedsDrop Z := false.

Lemma it_manages_occupancy_witness :
  ∃ w', fill_and_drain (C := cfg) (Z.to_nat (2 * 256 + 1)) 256 0 None 0 fresh = Done (Some 32640, w')
    ∧ ∃ phase', idle (C := cfg) (0 + 256) phase' (queue w').
Proof.
  refine (it_manages_occupancy (C := cfg) (HS := safe_cfg_64) 256 0 false fresh _ _ _ fresh_idle).
  all: by vm_compute.
Defined.
