(* ===== verification/Collectors.v ===== *)
(** Many futures of one [BatchReducer] driven by one executor thread, as in the tests
    [it_batch_collects] and [it_batch_reduces]: the executor polls, in any order, futures that were woken.

    [poll_future] is one turn of the executor; [turn] is its step relation. The invariant
    [pool_inv] says where every task is: collected, in the one open batch, or in a future
    that still has to push it; and who will wake whom. *)
From S2P Require Import Prelude Usize Helpers Occupancy Deque Queue Ranges Consumption Protocol Exclusion TaskRef Futures Gather Wakeups Producer.
Local Open Scope Z_scope.

Section executor.
Context {C : QueueCfg} {T D X St R : Type} {HD : Deque nat D}.
Context {HG : Gathering T St R} {HP : Polled T nat D X St R}.

(** The futures by number, a waker being the number of its future; those to be polled; what
    the futures returned. *)
Record executor : Type := mkExecutor {
  pool : gmap nat St;
  ready : gset nat;
  collected : list R;
  e_world : world (option T) D X (event nat T (job T))
}.

(** A ready future is polled; a finished one leaves the pool with its result. *)
Definition poll_future (id : nat) (s : executor) : option executor :=
  st ← pool s !! id;
  if decide (id ∈ ready s) then
    match poll_once st id (e_world s) with
    | Done ((p, st'), w') =>
        let evs := news (e_world s) w' in
        let ready' := ready s ∖ {[id]} ∪ list_to_set (wakes evs) in
        Some match p with
             | Pending => mkExecutor (<[id := st']> (pool s)) ready' (collected s) w'
             | Ready r =>
                 mkExecutor (delete id (pool s)) ready' (collected s ++ option_list r) w'
             end
    | _ => None
    end
  else None.

Definition turn (s s' : executor) : Prop := ∃ id, poll_future id s = Some s'.

(** The tasks that futures still hold. *)
Definition waiting (p : gmap nat St) : list T := omap (held ∘ snd) (map_to_list p).

Lemma waiting_split p id st :
  p !! id = Some st → waiting p ≡ₚ option_list (held st) ++ waiting (delete id p).
Proof.
  intros Hp. unfold waiting. rewrite <- (map_to_list_delete p id st Hp). simpl.
  by destruct (held st).
Qed.

Lemma waiting_insert p id st :
  waiting (<[id := st]> p) ≡ₚ option_list (held st) ++ waiting (delete id p).
Proof.
  rewrite (waiting_split (<[id := st]> p) id st) by apply fin_maps.lookup_insert_eq.
  by rewrite fin_maps.delete_insert_eq.
Qed.

Lemma pool_size_delete (p : gmap nat St) id st :
  p !! id = Some st → size p = S (size (delete id p)).
Proof.
  intros Hp. rewrite <- (fin_maps.insert_delete_id p id st Hp) at 1.
  apply map_size_insert_None, fin_maps.lookup_delete_eq.
Qed.

(** A future for each of [tasks]. *)
Definition futures_for (new : T → St) (tasks : list T) : gmap nat St := map_seq 0 (new <$> tasks).

(** All futures made, none polled. *)
Definition pool_of (new : T → St) (tasks : list T) w : executor :=
  mkExecutor (futures_for new tasks) (dom (futures_for new tasks)) [] w.

Lemma waiting_futures new tasks :
  (∀ t, held (new t) = Some t) → waiting (futures_for new tasks) ≡ₚ tasks.
Proof.
  intros Hnew. unfold futures_for. generalize 0%nat as n.
  induction tasks as [|t tasks IH]; intros n; [done|].
  rewrite fmap_cons, map_seq_cons, waiting_insert, Hnew. simpl. constructor.
  rewrite fin_maps.delete_id by (apply map_seq_cons_disjoint). apply IH.
Qed.
End executor.

Section invariant.
Context {C : QueueCfg} {HS : SafeCfg} {T D X St R : Type} `{DequeLaws nat D}.
Context {HG : Gathering T St R} {HP : Polled T nat D X St R} {HF : Gatherer T nat D X St R}.
(** The number of the first task; what the futures make of a batch of this run is defined. *)
Context (c0 : Z) (tasks : list T).
Context (Hallowed : ∀ start ts,
  c0 ≤ start → start + Z.of_nat (length ts) ≤ c0 + Z.of_nat (length tasks) → allowed start ts).
Implicit Types (s : executor (T := T) (D := D) (X := X) (St := St) (R := R)).

Definition parked s : list nat := deque_items (pending (queue (e_world s))).

(** Futures that hold [tasks], all to be polled, on an idle queue where nobody waits. *)
Definition executor_start s : Prop :=
  (∀ id st, pool s !! id = Some st → sound st ∧ is_Some (held st))
  ∧ waiting (pool s) ≡ₚ tasks ∧ ready s = dom (pool s) ∧ collected s = [] ∧ parked s = []
  ∧ ∃ phase, idle c0 phase (queue (e_world s)).

Lemma pool_of_start new w phase :
  (∀ t, sound (new t) ∧ held (new t) = Some t) → idle c0 phase (queue w) →
  deque_items (pending (queue w)) = [] → executor_start (pool_of new tasks w).
Proof.
  intros Hnew Hidle Hpk. split_and!; [|by apply waiting_futures, Hnew|done..|by exists phase].
  intros id st. simpl. unfold futures_for. rewrite lookup_map_seq_0, list_lookup_fmap.
  destruct (tasks !! id) as [t|]; [|done]. intros [= <-]. destruct (Hnew t) as [Hs ->]. by eauto.
Qed.

(** Either no batch is live, or one, which future [id] began and will close. *)
Inductive batching : Type :=
| Quiet (count : Z) (phase : bool)
| Open (id : nat) (start : Z) (phase : bool) (ts : list T).

Definition open_tasks (l : batching) : list T :=
  match l with Quiet _ _ => [] | Open _ _ _ ts => ts end.
Definition first_number (l : batching) : Z :=
  match l with Quiet count _ => count | Open _ start _ _ => start end.

Definition queue_inv (l : batching) s : Prop :=
  match l with
  | Quiet count phase => idle count phase (queue (e_world s))
      ∧ (∀ id st, pool s !! id = Some st → is_Some (held st))
      ∧ (parked s ≠ [] → ready s ≠ ∅)
  | Open id start phase ts => growing start phase ts (queue (e_world s))
      ∧ (1 ≤ length ts)%nat ∧ start + Z.of_nat (length ts) ≤ region_floor start + N
      ∧ (∃ st, pool s !! id = Some st
          ∧ collecting st = Some (mkUnboundedRange (slot_word start phase)))
      ∧ id ∈ ready s ∧ (∀ id' st, id' ≠ id → pool s !! id' = Some st → is_Some (held st))
  end.

(** [done]: the batches so far. *)
Record pool_inv (done : list (list T)) (l : batching) s : Prop := {
  pi_queue : queue_inv l s;
  pi_sound : ∀ id st, pool s !! id = Some st → sound st;
  pi_scheduled : scheduled (pool s) (ready s) (parked s);
  pi_collected : collected s = result <$> done;
  pi_tasks : concat done ++ open_tasks l ++ waiting (pool s) ≡ₚ tasks;
  pi_count : first_number l = c0 + Z.of_nat (length (concat done))
}.

(** What every turn decreases: first the futures left, the one with the open batch counting
    less, then the futures to be polled. *)
Definition work_left (l : batching) s : nat :=
  let n := (2 * size (pool s) - match l with Quiet _ _ => 0 | Open _ _ _ _ => 1 end)%nat in
  (n * n + size (ready s))%nat.

(** The numbers of an open batch are those of tasks of the run. *)
Lemma open_allowed done id start phase ts s :
  pool_inv done (Open id start phase ts) s → allowed start ts.
Proof.
  intros Hi. pose proof (pi_count _ _ _ Hi) as Hc. pose proof (pi_tasks _ _ _ Hi) as Ht.
  apply Permutation_length in Ht. simpl in Hc, Ht. rewrite !length_app in Ht.
  apply Hallowed; lia.
Qed.

Lemma open_size done id start phase ts s :
  pool_inv done (Open id start phase ts) s → (1 ≤ size (pool s))%nat.
Proof.
  intros [(_ & _ & _ & (st & Hid & _) & _) _ _ _ _ _].
  destruct (size (pool s)) eqn:E; [|lia]. apply map_size_empty_inv in E. by rewrite E in Hid.
Qed.

(** Fewer or lighter futures outweigh any number of wake-ups. *)
Lemma less_polling done l' s' n r :
  pool_inv done l' s' →
  (2 * size (pool s') - match l' with Quiet _ _ => 0 | Open _ _ _ _ => 1 end < n)%nat →
  (work_left l' s' < n * n + r)%nat.
Proof.
  intros Hi Hn. pose proof (scheduled_size _ _ _ (pi_scheduled _ _ _ Hi)) as Hr. unfold work_left.
  destruct l' as [|id start phase ts]; [nia|]. pose proof (open_size _ _ _ _ _ _ Hi). nia.
Qed.

Lemma poll_future_run id st p st' s w' evs :
  pool s !! id = Some st → id ∈ ready s →
  poll_once st id (e_world s) = Done ((p, st'), w') → trace w' = trace (e_world s) ++ evs →
  let ready' := ready s ∖ {[id]} ∪ list_to_set (wakes evs) in
  poll_future id s = Some match p with
    | Pending => mkExecutor (<[id := st']> (pool s)) ready' (collected s) w'
    | Ready r => mkExecutor (delete id (pool s)) ready' (collected s ++ option_list r) w'
    end.
Proof.
  intros Hs Hr Hp Ht. unfold poll_future. rewrite Hs. simpl. rewrite decide_True by done.
  by rewrite Hp, (news_app _ _ _ Ht).
Qed.

(** A turn keeps the invariant and leaves less work. *)
Definition good_turn (l : batching) s id : Prop :=
  ∃ s' done' l', poll_future id s = Some s' ∧ pool_inv done' l' s' ∧ (work_left l' s' < work_left l s)%nat.

(** A ready future is there. *)
Lemma ready_future done l s id :
  pool_inv done l s → id ∈ ready s → ∃ st, pool s !! id = Some st ∧ sound st.
Proof.
  intros Hi [[st Hst] _]%(sc_ready _ _ _ (pi_scheduled _ _ _ Hi)).
  exists st. split; [done|by apply (pi_sound _ _ _ Hi id)].
Qed.

Lemma turn_first done count phase s id :
  pool_inv done (Quiet count phase) s → id ∈ ready s → good_turn (Quiet count phase) s id.
Proof.
  intros Hi Hr. destruct (ready_future _ _ _ _ Hi Hr) as (st & Hst & Hsound).
  pose proof Hi as [(Hidle & Hall & _) Hsd Hsc Hco Hts Hct]. destruct (Hall _ _ Hst) as [t Ht].
  destruct (poll_first st t id _ _ _ Hsound Ht Hidle) as (q' & st' & Hp & Hsd' & Hc & Hg & Hpe).
  pose proof (poll_future_run id _ _ _ s _ [Woken id] Hst Hr Hp eq_refl) as Hrun.
  cbn [wakes omap list_omap] in Hrun.
  set (s' := mkExecutor _ _ _ _) in Hrun. exists s', done, (Open id count phase [t]).
  split; [exact Hrun|].
  assert (parked s' = parked s) as Hpk' by (unfold parked, s'; simpl; by rewrite Hpe).
  pose proof (scheduled_yields _ _ _ id st' Hsc Hr) as Hsc'.
  assert (size (pool s') = size (pool s)) as Hsize.
  { simpl. apply map_size_insert_Some. by rewrite Hst. }
  assert (pool_inv done (Open id count phase [t]) s') as Hi'.
  { split; rewrite ?Hpk'; [| |exact Hsc'|exact Hco| |exact Hct].
    - split_and!; [exact Hg|simpl; lia| |exists st'; split; [apply fin_maps.lookup_insert_eq|done]| |].
      + pose proof (region_floor_bounds count). pose proof region_size_le.
        pose proof N_eight_regions. simpl. lia.
      + apply (sc_ready _ _ _ Hsc'). split; [|by apply (sc_ready _ _ _ Hsc)].
        rewrite fin_maps.lookup_insert_eq. by eexists.
      + simpl. intros id' st1 Hne [[]|[_ Hl]]%fin_maps.lookup_insert_Some; [done|by eapply Hall].
    - simpl. intros id' st1 [[<- <-]|[_ Hl]]%fin_maps.lookup_insert_Some; [done|by eapply Hsd].
    - simpl. rewrite waiting_insert. rewrite <- Hts. f_equiv.
      rewrite (waiting_split _ _ _ Hst), (collecting_held _ _ Hc), Ht. done. }
  split; [exact Hi'|]. unfold work_left at 2. apply (less_polling _ _ _ _ _ Hi').
  rewrite Hsize. pose proof (open_size _ _ _ _ _ _ Hi') as Hpos. rewrite Hsize in Hpos. lia.
Qed.

Lemma turn_join done id0 start phase ts s id :
  let l := Open id0 start phase ts in
  pool_inv done l s → id ∈ ready s → id ≠ id0 →
  start + Z.of_nat (length ts) < region_floor start + N → good_turn l s id.
Proof.
  intros l Hi Hr Hne0 Hroom. destruct (ready_future _ _ _ _ Hi Hr) as (st & Hst & Hsound).
  pose proof Hi as [(Hg & Hlen & _ & Hfirst & Hr0 & Hall) Hsd Hsc Hco Hts Hct].
  destruct (Hall _ _ Hne0 Hst) as [t Ht].
  destruct (poll_join st t id _ _ _ _ Hsound Ht Hg Hlen Hroom) as (q' & st' & Hp & Hg' & Hpe).
  pose proof (poll_future_run id _ _ _ s _ [] Hst Hr Hp (eq_sym (app_nil_r _))) as Hrun.
  cbn [wakes omap list_omap option_list] in Hrun. rewrite app_nil_r in Hrun.
  set (s' := mkExecutor _ _ _ _) in Hrun. exists s', done, (Open id0 start phase (ts ++ [t])).
  split; [exact Hrun|].
  assert (parked s' = parked s) as Hpk' by (unfold parked, s'; simpl; by rewrite Hpe).
  pose proof (scheduled_ends _ _ _ id [] _ Hsc Hr eq_refl) as Hsc'.
  assert (size (pool s) = S (size (pool s'))) as Hsize by by eapply pool_size_delete.
  assert (pool_inv done (Open id0 start phase (ts ++ [t])) s') as Hi'.
  { split; rewrite ?Hpk'; [| |exact Hsc'|exact Hco| |exact Hct].
    - split_and!; [exact Hg'|rewrite length_app; simpl; lia|rewrite length_app; simpl; lia| | |].
      + simpl. by rewrite fin_maps.lookup_delete_ne.
      + simpl. set_solver.
      + simpl. intros id' st1 Hne [Hne' Hl]%fin_maps.lookup_delete_Some. by eapply Hall.
    - simpl. intros id' st1 [_ Hl]%fin_maps.lookup_delete_Some. by eapply Hsd.
    - simpl. rewrite <- Hts. f_equiv.
      by rewrite (waiting_split _ _ _ Hst), Ht, <- app_assoc. }
  split; [exact Hi'|]. unfold work_left at 2, l. apply (less_polling _ _ _ _ _ Hi'). simpl.
  rewrite Hsize. simpl. lia.
Qed.

Lemma turn_parks done id0 start phase ts s id :
  let l := Open id0 start phase ts in
  pool_inv done l s → id ∈ ready s → id ≠ id0 →
  start + Z.of_nat (length ts) = region_floor start + N → good_turn l s id.
Proof.
  intros l Hi Hr Hne0 Hfull. destruct (ready_future _ _ _ _ Hi Hr) as (st & Hst & Hsound).
  pose proof Hi as [(Hg & Hlen & Hroom & Hfirst & Hr0 & Hall) Hsd Hsc Hco Hts Hct].
  destruct (Hall _ _ Hne0 Hst) as [t Ht].
  destruct (poll_full st t id _ _ _ _ Hsound Ht Hg Hfull) as (q' & Hp & Hg' & Hpe).
  pose proof (poll_future_run id _ _ _ s _ [] Hst Hr Hp (eq_sym (app_nil_r _))) as Hrun.
  cbn [wakes omap list_omap list_to_set] in Hrun. rewrite (fin_maps.insert_id _ _ _ Hst) in Hrun.
  set (s' := mkExecutor _ _ _ _) in Hrun. exists s', done, l. split; [exact Hrun|].
  assert (parked s' = parked s ++ [id]) as Hpk' by exact Hpe. split.
  - split; rewrite ?Hpk'; [|done|by apply scheduled_parks|done..].
    split_and!; [done..| |done]. simpl. set_solver.
  - unfold work_left, l. simpl. pose proof (scheduled_shrinks _ _ Hr). lia.
Qed.

Lemma turn_finish done id start phase ts s :
  let l := Open id start phase ts in
  pool_inv done l s → id ∈ ready s → good_turn l s id.
Proof.
  intros l Hi Hr. pose proof (open_allowed _ _ _ _ _ _ Hi) as Hal.
  pose proof Hi as [(Hg & Hlen & Hroom & (st & Hst & Hc) & _ & Hall) Hsd Hsc Hco Hts Hct].
  destruct (poll_finish st id _ _ _ _ _ (Hsd _ _ Hst) Hc Hg Hlen Hroom Hal)
    as (st' & w' & evs & Hp & Hidle & Ht & Hwk & Hd).
  pose proof (poll_future_run id _ _ _ s _ _ Hst Hr Hp Ht) as Hrun. rewrite Hwk in Hrun.
  unfold wakeable in *. fold (parked s) in *. cbn [option_list] in Hrun.
  set (s' := mkExecutor _ _ _ _) in Hrun.
  set (l' := Quiet (start + Z.of_nat (length ts)) (negb phase)).
  exists s', (done ++ [ts]), l'. split; [exact Hrun|]. fold (parked s') in Hd.
  pose proof (scheduled_ends _ _ _ id _ _ Hsc Hr Hd) as Hsc'.
  assert (size (pool s) = S (size (pool s'))) as Hsize by by eapply pool_size_delete.
  assert (pool_inv (done ++ [ts]) l' s') as Hi'.
  { split; [split; [exact Hidle|split]| |exact Hsc'| | |].
    - simpl. intros id' st1 [Hne Hl]%fin_maps.lookup_delete_Some. by eapply Hall.
    - apply somebody_woken; [|exact Hd]. pose proof region_size_le. lia.
    - simpl. intros id' st1 [_ Hl]%fin_maps.lookup_delete_Some. by eapply Hsd.
    - simpl. by rewrite Hco, fmap_app.
    - simpl. rewrite concat_app, <- Hts. simpl. rewrite app_nil_r, <- app_assoc. f_equiv. f_equiv.
      by rewrite (waiting_split _ _ _ Hst), (collecting_held _ _ Hc).
    - simpl in *. rewrite concat_app, length_app. simpl. rewrite app_nil_r. lia. }
  split; [exact Hi'|]. unfold work_left at 2, l. apply (less_polling _ _ _ _ _ Hi'). simpl.
  rewrite Hsize. simpl. lia.
Qed.

Lemma every_poll_progresses done l s id : pool_inv done l s → id ∈ ready s → good_turn l s id.
Proof.
  intros Hi Hr. destruct l as [count phase|id0 start phase ts]; [by eapply turn_first|].
  destruct (decide (id = id0)) as [->|Hne]; [by eapply turn_finish|].
  pose proof (pi_queue _ _ _ Hi) as (_ & _ & Hroom & _).
  destruct (decide (start + Z.of_nat (length ts) = region_floor start + N));
    [by eapply turn_parks|by eapply turn_join; [..|lia]].
Qed.

Lemma turn_ready s s' id : poll_future id s = Some s' → id ∈ ready s.
Proof.
  unfold poll_future. destruct (pool s !! id); simpl; [|done]. by destruct (decide (id ∈ ready s)).
Qed.

(** Nobody is left to be polled only when every future has ended. *)
Lemma quiet_at_end done l s :
  pool_inv done l s → ready s = ∅ →
  pool s = ∅ ∧ collected s = result <$> done ∧ concat done ≡ₚ tasks.
Proof.
  intros [Hq _ Hsc Hco Hts _] He. destruct l as [count phase|id start phase ts]; simpl in Hq.
  2:{ destruct Hq as (_ & _ & _ & _ & Hid & _). rewrite He in Hid. by apply not_elem_of_empty in Hid. }
  destruct Hq as (_ & _ & Hne). destruct (parked s) eqn:Ep; [|by destruct Hne].
  assert (pool s = ∅) as Hp.
  { apply map_empty. intros id. destruct (pool s !! id) eqn:E; [|done].
    destruct (not_elem_of_empty (C := gset nat) id). rewrite <- He. apply (sc_ready _ _ _ Hsc).
    rewrite E. split; [by eexists|apply not_elem_of_nil]. }
  split_and!; [done|done|]. rewrite <- Hts, Hp. simpl. by rewrite app_nil_r.
Qed.

Lemma collectors_inv s : executor_start s → ∃ l, pool_inv [] l s.
Proof.
  intros (Hp & Hw & Hr & Hc & Hpk & phase & Hidle). exists (Quiet c0 phase).
  split; rewrite ?Hpk, ?Hr; [| |apply scheduled_all|done|exact Hw|simpl; lia].
  - split; [done|]. split; [|by rewrite Hpk]. intros id st Hst. by apply (Hp id st).
  - intros id st Hst. by apply (Hp id st).
Qed.

(** What holds of every pool: no endless run, no stuck poll, and nobody waits at the end. *)
Definition pool_outcome (done_with : list R → Prop) s : Prop :=
  sn turn s
  ∧ (∀ id, id ∈ ready s → ∃ s', poll_future id s = Some s')
  ∧ (nf turn s → pool s = ∅ ∧ done_with (collected s)).

Lemma pool_outcome_weaken (P Q : list R → Prop) s :
  (∀ rs, P rs → Q rs) → pool_outcome P s → pool_outcome Q s.
Proof. intros HPQ (Hsn & Hpoll & Hend). split_and!; [done..|]. intros Hnf. destruct (Hend Hnf). auto. Qed.

Lemma gatherers_finish s0 s :
  executor_start s0 → rtc turn s0 s →
  pool_outcome (λ rs, ∃ batches, rs = result <$> batches ∧ concat batches ≡ₚ tasks) s.
Proof.
  intros Hstart Hr. assert (∃ done l, pool_inv done l s) as (done & l & Hi).
  { refine (rtc_invariant turn (λ s, ∃ done l, pool_inv done l s) s0 s _ (ex_intro _ [] (collectors_inv _ Hstart)) Hr).
    intros s1 s2 [id Hp] (done & l & Hi). pose proof (turn_ready _ _ _ Hp) as Hid.
    destruct (every_poll_progresses _ _ _ _ Hi Hid) as (s' & done' & l' & Hp' & Hi' & _).
    exists done', l'. congruence. }
  split_and!.
  - apply (sn_by_measure turn (λ n s, ∃ done l, pool_inv done l s ∧ work_left l s = n))
      with (work_left l s); [|by exists done, l].
    intros n s1 s2 (done1 & l1 & Hi1 & <-) [id Hp]. pose proof (turn_ready _ _ _ Hp) as Hid.
    destruct (every_poll_progresses _ _ _ _ Hi1 Hid) as (s' & done' & l' & Hp' & Hi' & Hw).
    assert (s' = s2) as -> by congruence. by eauto 6.
  - intros id Hid. destruct (every_poll_progresses _ _ _ _ Hi Hid) as (s' & _ & _ & Hp & _). by eauto.
  - intros Hnf. assert (ready s = ∅) as He.
    { apply elem_of_equiv_empty_L. intros id Hid. apply Hnf.
      destruct (every_poll_progresses _ _ _ _ Hi Hid) as (s' & _ & _ & Hp & _). by exists s', id. }
    destruct (quiet_at_end _ _ _ Hi He) as (Hp & Hc & Ht). by eauto.
Qed.
End invariant.

(** A pool of futures that collect their batches. *)
Lemma collects_finish {C : QueueCfg} {HS : SafeCfg} {T D X : Type} `{DequeLaws nat D}
  (tasks : list T) c0 phase (w0 : world (option T) D X (event nat T (job T))) s :
  idle c0 phase (queue w0) → deque_items (pending (queue w0)) = [] →
  rtc turn (pool_of CollectUnbatched tasks w0) s →
  pool_outcome (λ batches, concat batches ≡ₚ tasks) s.
Proof.
  intros Hidle Hpk Hr.
  eapply pool_outcome_weaken; [|eapply (gatherers_finish c0 tasks); [done| |exact Hr]].
  - intros rs (batches & -> & Ht). simpl. by rewrite list_fmap_id.
  - by eapply pool_of_start.
Qed.

(** C19. Any number of [BatchCollect] futures on one executor thread all end, and together they
    return every task exactly once. Whatever futures the executor chooses to poll among
    those that were woken, every poll returns, no run goes on for ever, and a run can only
    end when no future is left: a refused future is always woken again, although each
    release wakes at most one region's worth of them. *)
Theorem it_batch_collects {C : QueueCfg} {HS : SafeCfg} {T D X : Type} `{DequeLaws nat D}
  (tasks : list T) c0 phase (w0 : world (option T) D X (event nat T (job T))) s :
  idle c0 phase (queue w0) → deque_items (pending (queue w0)) = [] →
  rtc turn (pool_of CollectUnbatched tasks w0) s →
  pool_outcome (λ batches, concat batches ≡ₚ tasks) s.
Proof. apply collects_finish. Qed.

(** A pool of futures that sum their batches. *)
Lemma sums_finish {C : QueueCfg} {HS : SafeCfg} {D X : Type} `{DequeLaws nat D} `{NeedsDrop Z}
  (tasks : list Z) c0 phase (w0 : world (option Z) D X (event nat Z (job Z))) s :
  idle c0 phase (queue w0) → deque_items (pending (queue w0)) = [] →
  0 ≤ c0 → c0 + Z.of_nat (length tasks) < counter_modulus →
  rtc turn (pool_of (λ t, ReduceUnbatched t sum_reducer) tasks w0) s →
  pool_outcome (λ totals, usize_sum totals = usize_sum tasks) s.
Proof.
  intros Hidle Hpk Hc Hm Hr. set (total := λ ts, wrap usize_bits (sum_of ts)).
  pose (reduce_gathering (D := D) (X := X) total) as HG.
  pose proof (reduce_gatherer (D := D) (X := X) total) as HF.
  eapply pool_outcome_weaken; [|eapply (gatherers_finish c0 tasks); [| |exact Hr]].
  - intros rs (batches & -> & Ht). etransitivity; [exact (usize_sum_batches batches)|].
    by rewrite Ht, usize_sum_wrap.
  - intros start ts Hs Hl. unfold allowed. simpl. unfold no_counter_wrap. rewrite Z.mod_small; lia.
  - eapply pool_of_start; [|done..]. intros t. split; [|done]. intros r [= <-]. apply sum_reduces.
Qed.

(** Any number of [BatchReduce] futures on one executor thread, each summing the batch it
    began, all end in the same way, and the sum of their results, the futures without a result
    counting nothing, is the sum of all tasks: no task is lost, none is summed twice
    (while the task counter does not wrap, see [counter_wrap_loses_batch]). *)
Theorem it_batch_reduces {C : QueueCfg} {HS : SafeCfg} {D X : Type} `{DequeLaws nat D} `{NeedsDrop Z}
  (tasks : list Z) c0 phase (w0 : world (option Z) D X (event nat Z (job Z))) s :
  idle c0 phase (queue w0) → deque_items (pending (queue w0)) = [] →
  0 ≤ c0 → c0 + Z.of_nat (length tasks) < counter_modulus →
  rtc turn (pool_of (λ t, ReduceUnbatched t sum_reducer) tasks w0) s →
  pool_outcome (λ totals, usize_sum totals = usize_sum tasks) s.
Proof. apply sums_finish. Qed.

(** Seventy futures on a fresh queue of 64 cells, polled in a fixed order; six are refused. *)
Definition seventy : list Z := Z.of_nat <$> seq 0 70.
Definition demo_queue : world (option Z) (list_deque nat) unit (event nat Z (job Z)) :=
  mkWorld (@new_queue cfg _ _ _ _ None) () [].
Definition demo_polls : list nat := seq 0 70 ++ [0%nat] ++ seq 64 6.

Section runs.
Context {C : QueueCfg} {T D X St R : Type} {HD : Deque nat D} {HP : Polled T nat D X St R}.

Fixpoint run_polls (ids : list nat) (s : executor (T := T) (D := D) (X := X) (St := St) (R := R))
  : option executor :=
  match ids with
  | [] => Some s
  | id :: ids => s' ← poll_future id s; run_polls ids s'
  end.

Lemma run_polls_turns ids s s' : run_polls ids s = Some s' → rtc turn s s'.
Proof.
  revert s. induction ids as [|id ids IH]; intros s; simpl; [by intros [= ->]|].
  destruct (poll_future id s) as [s1|] eqn:E; [|done]. simpl. intros Hr.
  apply rtc_l with s1; [by exists id|by apply IH].
Qed.
End runs.

Lemma demo_idle : idle (C := cfg) 0 false (queue demo_queue).
Proof. repeat split. Qed.

Lemma it_batch_collects_witness : ∃ s,
  run_polls (C := cfg) demo_polls (pool_of CollectUnbatched seventy demo_queue) = Some s
  ∧ size (pool s) = 1%nat ∧ collected s = [seqZ 0 64]
  ∧ pool_outcome (C := cfg) (λ batches, concat batches ≡ₚ seventy) s.
Proof.
  eexists. split; [vm_compute; reflexivity|]. split; [by vm_compute|]. split; [by vm_compute|].
  refine (it_batch_collects (C := cfg) (HS := safe_cfg_64) seventy 0 false demo_queue _
    demo_idle eq_refl _).
  apply (run_polls_turns (C := cfg) demo_polls). by vm_compute.
Defined.

#[local] Instance usize_no_drop : NeedsDrop Z := false.

Lemma it_batch_reduces_witness : ∃ s,
  run_polls (C := cfg) demo_polls
    (pool_of (λ t, ReduceUnbatched t (sum_reducer (C := cfg) (D := list_deque nat)))
      seventy demo_queue) = Some s
  ∧ bool_decide (size (pool s) = 1%nat ∧ collected s = [2016]) = true
  ∧ pool_outcome (C := cfg) (λ totals, usize_sum (C := cfg) totals = usize_sum (C := cfg) seventy) s.
Proof.
  set (o := run_polls _ _).
  assert (from_option (λ s, bool_decide (size (pool s) = 1%nat ∧ collected s = [2016])) false o = true)
    as Ho by by vm_compute.
  destruct o as [s|] eqn:Hr; [|done]. exists s. split; [done|]. split; [exact Ho|].
  refine (it_batch_reduces (C := cfg) (HS := safe_cfg_64) seventy 0 false demo_queue _
    demo_idle eq_refl _ _ _); [done|by vm_compute|].
  by apply (run_polls_turns (C := cfg) demo_polls).
Defined.
