(* ===== verification/Background.v ===== *)
(** A [BackgroundQueue] on one executor thread, as in the test [it_process_background_tasks]: a
    producer calls [auto_batch], and the jobs it spawns, batches to process and tasks to
    enqueue again, run in any order between those calls.

    [auto_batch] and [run_job] are the turns; the queue is any [BackgroundQueue] whose
    [batch_process] satisfies [Handles]; [EchoBackgroundQueue] is the one of the test. *)
From S2P Require Import Prelude Usize Helpers Occupancy Deque Queue Ranges Consumption Protocol Exclusion TaskRef Futures Gather Wakeups Collectors.
Local Open Scope Z_scope.

(** [BackgroundQueue::batch_process], which does not wait for anything. *)
Class BackgroundQueue {C : QueueCfg} (T W D X : Type) {HD : Deque W D} : Type :=
  batch_process : UnboundedRange → M (world (option T) D X (event W T (job T))) unit.

(** It works on every task of its batch, in order, and gives the region back; other than that
    it may run destructors. *)
Class Handles {C : QueueCfg} {T W D X : Type} {HD : Deque W D}
  (B : BackgroundQueue T W D X) (consume : T → X → X) : Prop :=
  handles start tasks p p' (w : world (option T) D X (event W T (job T))) :
    slot (inner (queue w)) = slot_word (start + Z.of_nat (length tasks)) p' →
    stored start tasks w → no_counter_wrap start tasks →
    ∃ w1 w' dropped, batch_process (mkUnboundedRange (slot_word start p)) w = Done ((), w')
      ∧ queue w1 = queue (closed w) ∧ ext w1 = foldl (flip consume) (ext w) tasks
      ∧ trace w1 = trace w ++ map Dropped dropped ∧ released start w1 w'.

(** * The program *)
Section program.
Context {C : QueueCfg} {T D X : Type} {HD : Deque nat D} {B : BackgroundQueue T nat D X}.
Abbreviation job_world := (world (option T) D X (event nat T (job T))).

(** A spawned job: a batch to process, or a task that was refused and is enqueued first. *)
Inductive job_state : Type :=
| Process (batch : UnboundedRange)
| Enqueue (st : background_state T).

Definition start_job (j : job T) : job_state :=
  match j with
  | ProcessBatch batch => Process batch
  | EnqueueThenProcess task => Enqueue (EnqueuePending task)
  end.

(** A poll of job [id]: what is left of it, if anything. *)
Definition poll_job (id : nat) (j : job_state) : M job_world (option job_state) :=
  match j with
  | Process batch => batch_process batch ;; mret None
  | Enqueue st =>
      r ← poll_enqueue st id;
      match r with
      | (Ready (Some assignment), _) => batch_process assignment ;; mret None
      | (Ready None, _) => mret None
      | (Pending, st) => mret (Some (Enqueue st))
      end
  end.

(** The tasks still to be sent; the live jobs by number, a waker being the number of its job;
    the number of the next job; the jobs to be polled. *)
Record server : Type := mkServer {
  unsent : list T;
  jobs : gmap nat job_state;
  next_job : nat;
  runnable : gset nat;
  s_world : job_world
}.

Definition spawn (j : job T) (s : server) : server :=
  mkServer (unsent s) (<[next_job s := start_job j]> (jobs s)) (S (next_job s))
    (runnable s ∪ {[next_job s]}) (s_world s).

(** [auto_batch] *)
Definition auto_batch (s : server) : option server :=
  match unsent s with
  | [] => None
  | task :: tasks =>
      match background_process task (s_world s) with
      | Done (_, w') =>
          Some (foldl (flip spawn) (mkServer tasks (jobs s) (next_job s) (runnable s) w')
                  (spawns (news (s_world s) w')))
      | _ => None
      end
  end.

Definition run_job (id : nat) (s : server) : option server :=
  j ← jobs s !! id;
  if decide (id ∈ runnable s) then
    match poll_job id j (s_world s) with
    | Done (j', w') =>
        Some (mkServer (unsent s)
                (match j' with Some j' => <[id := j']> (jobs s) | None => delete id (jobs s) end)
                (next_job s)
                (runnable s ∖ {[id]} ∪ list_to_set (wakes (news (s_world s) w'))) w')
    | _ => None
    end
  else None.

Inductive serves (s s' : server) : Prop :=
| serves_send : auto_batch s = Some s' → serves s s'
| serves_job id : run_job id s = Some s' → serves s s'.

(** The task of a job that has to push it, for [waiting]. *)
#[export] Instance job_gathering : Gathering T job_state unit := {
  held j := match j with Enqueue (EnqueuePending t) => Some t | _ => None end;
  collecting j := match j with Process batch => Some batch | _ => None end;
  sound _ := True;
  allowed start tasks := no_counter_wrap start tasks;
  result _ := ()
}.

Lemma auto_batch_run task tasks s w' evs :
  unsent s = task :: tasks → background_process task (s_world s) = Done ((), w') →
  trace w' = trace (s_world s) ++ evs →
  auto_batch s = Some (foldl (flip spawn) (mkServer tasks (jobs s) (next_job s) (runnable s) w')
                         (spawns evs)).
Proof. intros Hu Hb Ht. unfold auto_batch. by rewrite Hu, Hb, (news_app _ _ _ Ht). Qed.

Lemma run_job_run id j s j' w' evs :
  jobs s !! id = Some j → id ∈ runnable s → poll_job id j (s_world s) = Done (j', w') →
  trace w' = trace (s_world s) ++ evs →
  run_job id s = Some (mkServer (unsent s)
    (match j' with Some j' => <[id := j']> (jobs s) | None => delete id (jobs s) end)
    (next_job s) (runnable s ∖ {[id]} ∪ list_to_set (wakes evs)) w').
Proof.
  intros Hj Hr Hp Ht. unfold run_job. rewrite Hj. simpl. rewrite decide_True by done.
  by rewrite Hp, (news_app _ _ _ Ht).
Qed.
End program.

(** * The invariant *)
Section invariant.
Context {C : QueueCfg} {HS : SafeCfg} {T D X : Type} `{DequeLaws nat D}.
Context {B : BackgroundQueue T nat D X} (consume : T → X → X) `{!Handles B consume}.
Context (c0 : Z) (x0 : X) (tasks : list T).
Context (Hc0 : 0 ≤ c0) (Hm : c0 + Z.of_nat (length tasks) < counter_modulus).
Abbreviation job_world := (world (option T) D X (event nat T (job T))).
Implicit Types (s : server (T := T) (D := D) (X := X)) (w : job_world) (ts done : list T).

Definition waits s : list nat := deque_items (pending (queue (s_world s))).

(** [batch_process] of the only batch of the queue. *)
Lemma process_growing start phase p ts w :
  growing start phase ts (queue w) → (1 ≤ length ts)%nat →
  start + Z.of_nat (length ts) ≤ region_floor start + N → no_counter_wrap start ts →
  ∃ w' evs, batch_process (mkUnboundedRange (slot_word start p)) w = Done ((), w')
    ∧ idle (start + Z.of_nat (length ts)) (negb phase) (queue w')
    ∧ ext w' = foldl (flip consume) (ext w) ts
    ∧ trace w' = trace w ++ evs ∧ wakes evs = wakeable region_size w
    ∧ deque_items (pending (queue w)) = wakeable region_size w ++ deque_items (pending (queue w')).
Proof.
  intros Hg Hne Hroom Hnw. destruct (growing_stored _ _ _ _ Hg Hne Hroom) as [Hs Hst].
  destruct (handles _ _ p _ _ Hs Hst Hnw) as (w1 & w' & dropped & Hb & Hq & Hx & Ht & Hrel).
  destruct (release_after _ _ _ _ _ _ _ Hg Hq Ht Hrel) as (Hidle & Hx' & evs & Hevs).
  exists w', evs. split_and!; [done|done|congruence|apply Hevs..].
Qed.

(** Tasks to send, an idle queue, no jobs. *)
Definition server_start s : Prop :=
  unsent s = tasks ∧ jobs s = ∅ ∧ runnable s = ∅ ∧ waits s = [] ∧ ext (s_world s) = x0
  ∧ ∃ phase, idle c0 phase (queue (s_world s)).

Definition service (l : batching (T := T)) s : Prop :=
  match l with
  | Quiet count phase => idle count phase (queue (s_world s))
      ∧ (∀ id j, jobs s !! id = Some j → is_Some (held j)) ∧ (waits s ≠ [] → runnable s ≠ ∅)
  | Open id start phase ts => growing start phase ts (queue (s_world s))
      ∧ (1 ≤ length ts)%nat ∧ start + Z.of_nat (length ts) ≤ region_floor start + N
      ∧ jobs s !! id = Some (Process (mkUnboundedRange (slot_word start phase)))
      ∧ id ∈ runnable s ∧ (∀ id' j, id' ≠ id → jobs s !! id' = Some j → is_Some (held j))
  end.

(** [done]: the tasks worked on so far. *)
Record server_inv done (l : batching (T := T)) s : Prop := {
  sv_service : service l s;
  sv_scheduled : scheduled (jobs s) (runnable s) (waits s);
  sv_fresh : ∀ id, is_Some (jobs s !! id) → (id < next_job s)%nat;
  sv_tasks : done ++ open_tasks l ++ waiting (jobs s) ++ unsent s ≡ₚ tasks;
  sv_ext : ext (s_world s) = foldl (flip consume) x0 done;
  sv_count : first_number l = c0 + Z.of_nat (length done)
}.

(** A task to be sent outweighs the job it may become. *)
Definition burden (l : batching (T := T)) s : nat :=
  (3 * length (unsent s) + 2 * size (jobs s) - match l with Quiet _ _ => 0 | Open _ _ _ _ => 1 end)%nat.
Definition work_ahead (l : batching (T := T)) s : nat := (burden l s * burden l s + size (runnable s))%nat.

Definition good_service (l : batching (T := T)) s (next : option server) : Prop :=
  ∃ s' done' l', next = Some s' ∧ server_inv done' l' s' ∧ (work_ahead l' s' < work_ahead l s)%nat.

Lemma jobs_some (m : gmap nat (job_state (T := T))) id j : m !! id = Some j → (1 ≤ size m)%nat.
Proof. intros Hj. rewrite (pool_size_delete m id j Hj). lia. Qed.

Lemma less_ahead done' l l' s s' :
  server_inv done' l' s' → (burden l' s' < burden l s)%nat → (work_ahead l' s' < work_ahead l s)%nat.
Proof.
  intros Hi Hw. pose proof (scheduled_size _ _ _ (sv_scheduled _ _ _ Hi)) as Hr.
  assert (size (jobs s') ≤ burden l' s')%nat.
  { unfold burden. destruct l' as [|id start phase ts]; [lia|].
    destruct (sv_service _ _ _ Hi) as (_ & _ & _ & Hid & _). pose proof (jobs_some _ _ _ Hid). lia. }
  unfold work_ahead. nia.
Qed.

(** No batch of the run reaches a wrap of the counter. *)
Lemma run_no_wrap start ts :
  c0 ≤ start → start + Z.of_nat (length ts) ≤ c0 + Z.of_nat (length tasks) → no_counter_wrap start ts.
Proof. intros. unfold no_counter_wrap. rewrite Z.mod_small; lia. Qed.

Lemma first_room count : count + 1 ≤ region_floor count + N.
Proof.
  pose proof (region_floor_bounds count). pose proof region_size_le. pose proof N_eight_regions. lia.
Qed.
(** ** The polls of a refused task's job *)
Lemma enqueue_serves count phase t id w :
  idle count phase (queue w) → no_counter_wrap count [t] →
  ∃ w' evs, poll_job id (Enqueue (EnqueuePending t)) w = Done (None, w')
    ∧ idle (count + 1) (negb phase) (queue w') ∧ ext w' = consume t (ext w)
    ∧ trace w' = trace w ++ evs ∧ wakes evs = wakeable region_size w
    ∧ deque_items (pending (queue w)) = wakeable region_size w ++ deque_items (pending (queue w')).
Proof.
  intros Hidle Hnw. destruct (push_first _ _ t _ Hidle) as (q1 & Hp & Hg & Hpe).
  destruct (process_growing count phase phase [t] (set_queue q1 w) Hg)
    as (w' & evs & Hb & Hidle' & Hx & Ht & Hw & Hd); [done|apply first_room|done|].
  exists w', evs. unfold wakeable in *. simpl in Hw, Hd, Hx. rewrite Hpe in Hw, Hd.
  split_and!; [|done..].
  unfold poll_job, poll_enqueue.
  erewrite run_bind; [|by run_with (push_range_run _ _ _ _ Hp)]. simpl. by run_with Hb.
Qed.

Lemma enqueue_joins start phase ts t id w :
  growing start phase ts (queue w) → (1 ≤ length ts)%nat →
  start + Z.of_nat (length ts) < region_floor start + N →
  ∃ q', poll_job id (Enqueue (EnqueuePending t)) w = Done (None, set_queue q' w)
    ∧ growing start phase (ts ++ [t]) q' ∧ pending q' = pending (queue w).
Proof.
  intros Hg Hne Hroom. destruct (push_next _ _ _ t _ Hg Hne Hroom) as (q1 & Hp & Hg').
  exists q1. split; [|exact Hg']. unfold poll_job, poll_enqueue.
  erewrite run_bind; [|by run_with (push_range_run _ _ _ _ Hp)]. done.
Qed.

Lemma enqueue_parks start phase ts t id w :
  growing start phase ts (queue w) → start + Z.of_nat (length ts) = region_floor start + N →
  ∃ q', poll_job id (Enqueue (EnqueuePending t)) w
      = Done (Some (Enqueue (EnqueuePending t)), set_queue q' w)
    ∧ growing start phase ts q'
    ∧ deque_items (pending q') = deque_items (pending (queue w)) ++ [id].
Proof.
  intros Hg Hfull. destruct (push_last _ _ _ t _ Hg Hfull) as (q1 & Hp & Hg' & Hpe).
  exists (set_pending (worker_push id (pending q1)) q1). split_and!; [|exact Hg'|].
  - unfold poll_job, poll_enqueue.
    erewrite run_bind; [|by run_with (push_range_run _ _ _ _ Hp)]. done.
  - simpl. by rewrite push_items, Hpe.
Qed.

Lemma held_pending (j : job_state (T := T)) t : held j = Some t → j = Enqueue (EnqueuePending t).
Proof. by destruct j as [|[]]; intros [= ->]. Qed.

(** ** The turns *)
Lemma service_first done count phase s id :
  server_inv done (Quiet count phase) s → id ∈ runnable s →
  good_service (Quiet count phase) s (run_job id s).
Proof.
  intros [(Hidle & Hall & _) Hsc Hfr Hts Hx Hct] Hr.
  destruct (proj1 (proj1 (sc_ready _ _ _ Hsc id) Hr)) as [j Hj].
  destruct (Hall _ _ Hj) as [t Ht]. apply held_pending in Ht as ->.
  pose proof (Permutation_length Hts) as Hlen. rewrite !length_app in Hlen.
  rewrite (waiting_split _ _ _ Hj) in Hlen. simpl in Hlen, Hct.
  destruct (enqueue_serves count phase t id _ Hidle) as (w' & evs & Hp & Hidle' & Hx' & Htr & Hw & Hd);
    [apply run_no_wrap; simpl; lia|].
  pose proof (run_job_run id _ s _ _ _ Hj Hr Hp Htr) as Hrun. rewrite Hw in Hrun.
  set (s' := mkServer _ _ _ _ _) in Hrun.
  assert (size (jobs s) = S (size (jobs s'))) as Hsize by by eapply pool_size_delete.
  assert (server_inv (done ++ [t]) (Quiet (count + 1) (negb phase)) s') as Hi'.
  { split; [split; [exact Hidle'|split]| | | | |].
    - simpl. intros id' st1 [Hne Hl]%fin_maps.lookup_delete_Some. by eapply Hall.
    - apply somebody_woken; [|exact Hd]. pose proof region_size_le. lia.
    - by eapply scheduled_ends.
    - simpl. intros id' [_ Hl]%fin_maps.lookup_delete_is_Some. by apply Hfr.
    - simpl. rewrite <- Hts. simpl. by rewrite (waiting_split _ _ _ Hj), <- app_assoc.
    - simpl. by rewrite Hx', Hx, foldl_app.
    - rewrite length_app. simpl. lia. }
  exists s', (done ++ [t]), (Quiet (count + 1) (negb phase)). split_and!; [exact Hrun|exact Hi'|].
  apply (less_ahead _ _ _ _ _ Hi'). unfold burden. change (unsent s') with (unsent s). lia.
Qed.

Lemma service_joins done id0 start phase ts s id :
  let l := Open id0 start phase ts in
  server_inv done l s → id ∈ runnable s → id ≠ id0 →
  start + Z.of_nat (length ts) < region_floor start + N → good_service l s (run_job id s).
Proof.
  intros l [(Hg & Hne & _ & Hfirst & Hr0 & Hall) Hsc Hfr Hts Hx Hct] Hr Hne0 Hroom.
  destruct (proj1 (proj1 (sc_ready _ _ _ Hsc id) Hr)) as [j Hj].
  destruct (Hall _ _ Hne0 Hj) as [t Ht]. apply held_pending in Ht as ->.
  destruct (enqueue_joins start phase ts t id _ Hg Hne Hroom) as (q' & Hp & Hg' & Hpe).
  pose proof (run_job_run id _ s _ _ [] Hj Hr Hp (eq_sym (app_nil_r _))) as Hrun.
  cbn [wakes omap list_omap] in Hrun. set (s' := mkServer _ _ _ _ _) in Hrun.
  assert (waits s' = waits s) as Hpk by (unfold waits, s'; simpl; by rewrite Hpe).
  assert (size (jobs s) = S (size (jobs s'))) as Hsize by by eapply pool_size_delete.
  assert (server_inv done (Open id0 start phase (ts ++ [t])) s') as Hi'.
  { split; rewrite ?Hpk; [split_and!; [exact Hg'|rewrite length_app; simpl; lia..| | |]| | | |exact Hx|exact Hct].
    - simpl. by rewrite fin_maps.lookup_delete_ne.
    - simpl. set_solver.
    - simpl. intros id' st1 Hne1 [Hne' Hl]%fin_maps.lookup_delete_Some. by eapply Hall.
    - by apply (scheduled_ends _ _ _ _ [] _ Hsc Hr).
    - simpl. intros id' [_ Hl]%fin_maps.lookup_delete_is_Some. by apply Hfr.
    - simpl. rewrite <- Hts. simpl. rewrite (waiting_split _ _ _ Hj). by rewrite <- app_assoc. }
  exists s', done, (Open id0 start phase (ts ++ [t])). split_and!; [exact Hrun|exact Hi'|].
  apply (less_ahead _ _ _ _ _ Hi'). unfold burden, l. change (unsent s') with (unsent s). lia.
Qed.

Lemma service_parks done id0 start phase ts s id :
  let l := Open id0 start phase ts in
  server_inv done l s → id ∈ runnable s → id ≠ id0 →
  start + Z.of_nat (length ts) = region_floor start + N → good_service l s (run_job id s).
Proof.
  intros l [(Hg & Hne & Hroom & Hfirst & Hr0 & Hall) Hsc Hfr Hts Hx Hct] Hr Hne0 Hfull.
  destruct (proj1 (proj1 (sc_ready _ _ _ Hsc id) Hr)) as [j Hj].
  destruct (Hall _ _ Hne0 Hj) as [t Ht]. apply held_pending in Ht as ->.
  destruct (enqueue_parks start phase ts t id _ Hg Hfull) as (q' & Hp & Hg' & Hpe).
  pose proof (run_job_run id _ s _ _ [] Hj Hr Hp (eq_sym (app_nil_r _))) as Hrun.
  cbn [wakes omap list_omap list_to_set] in Hrun. rewrite (fin_maps.insert_id _ _ _ Hj) in Hrun.
  set (s' := mkServer _ _ _ _ _) in Hrun.
  assert (waits s' = waits s ++ [id]) as Hpk by exact Hpe.
  exists s', done, l. split_and!; [exact Hrun| |].
  - split; rewrite ?Hpk; [|by apply scheduled_parks|done..].
    split_and!; [done..| |done]. simpl. set_solver.
  - unfold work_ahead, burden, l. simpl. pose proof (scheduled_shrinks _ _ Hr). lia.
Qed.

Lemma service_processes done id start phase ts s :
  let l := Open id start phase ts in
  server_inv done l s → good_service l s (run_job id s).
Proof.
  intros l [(Hg & Hne & Hroom & Hj & Hr & Hall) Hsc Hfr Hts Hx Hct].
  pose proof (Permutation_length Hts) as Hlen. rewrite !length_app in Hlen. simpl in Hlen, Hct.
  destruct (process_growing start phase phase ts _ Hg Hne Hroom)
    as (w' & evs & Hb & Hidle & Hx' & Htr & Hw & Hd); [apply run_no_wrap; lia|].
  assert (poll_job id (Process (mkUnboundedRange (slot_word start phase))) (s_world s) = Done (None, w'))
    as Hp by (unfold poll_job; by run_with Hb).
  pose proof (run_job_run id _ s _ _ _ Hj Hr Hp Htr) as Hrun. rewrite Hw in Hrun.
  set (s' := mkServer _ _ _ _ _) in Hrun.
  assert (size (jobs s) = S (size (jobs s'))) as Hsize by by eapply pool_size_delete.
  set (l' := Quiet (T := T) (start + Z.of_nat (length ts)) (negb phase)).
  assert (server_inv (done ++ ts) l' s') as Hi'.
  { split; [split; [exact Hidle|split]| | | | |].
    - simpl. intros id' st1 [Hne1 Hl]%fin_maps.lookup_delete_Some. by eapply Hall.
    - apply somebody_woken; [|exact Hd]. pose proof region_size_le. lia.
    - by eapply scheduled_ends.
    - simpl. intros id' [_ Hl]%fin_maps.lookup_delete_is_Some. by apply Hfr.
    - simpl. rewrite <- Hts. simpl. rewrite <- app_assoc.
      by rewrite (waiting_split (jobs s) _ _ Hj).
    - simpl. by rewrite Hx', Hx, foldl_app.
    - rewrite length_app. simpl. lia. }
  exists s', (done ++ ts), l'. split_and!; [exact Hrun|exact Hi'|].
  apply (less_ahead _ _ _ _ _ Hi'). unfold burden, l, l'. change (unsent s') with (unsent s). lia.
Qed.
(** A task is sent: [background_process] begins a batch, joins the open one, or spawns a job
    that will push the task. *)
Lemma fresh_job s : (∀ id, is_Some (jobs s !! id) → (id < next_job s)%nat) → jobs s !! next_job s = None.
Proof.
  intros Hfr. destruct (jobs s !! next_job s) eqn:E; [|done].
  assert (next_job s < next_job s)%nat; [|lia]. apply Hfr. by rewrite E.
Qed.

Lemma fresh_grows s j :
  (∀ id, is_Some (jobs s !! id) → (id < next_job s)%nat) →
  ∀ id, is_Some (<[next_job s := j]> (jobs s) !! id) → (id < S (next_job s))%nat.
Proof.
  intros Hfr id [x [[<- _]|[_ Hl]]%fin_maps.lookup_insert_Some]; [lia|].
  assert (id < next_job s)%nat; [|lia]. apply Hfr. by rewrite Hl.
Qed.

Lemma send_first done count phase s task rest :
  server_inv done (Quiet count phase) s → unsent s = task :: rest →
  good_service (Quiet count phase) s (auto_batch s).
Proof.
  intros [(Hidle & Hall & _) Hsc Hfr Hts Hx Hct] Hu.
  destruct (push_first _ _ task _ Hidle) as (q1 & Hp & Hg & Hpe).
  set (j := ProcessBatch (mkUnboundedRange (slot_word count phase)) : job T).
  assert (background_process task (s_world s)
    = Done ((), mkWorld q1 (ext (s_world s)) (trace (s_world s) ++ [Spawned j]))) as Hb
    by (unfold background_process; by run_with (push_range_run _ _ _ _ Hp)).
  pose proof (auto_batch_run _ _ s _ [Spawned j] Hu Hb eq_refl) as Hrun.
  cbn [spawns omap list_omap foldl flip] in Hrun. set (s' := spawn _ _) in Hrun.
  assert (waits s' = waits s) as Hpk by (unfold waits, s'; simpl; by rewrite Hpe).
  pose proof (fresh_job s Hfr) as Hnone.
  assert (size (jobs s') = S (size (jobs s))) as Hsize by by apply map_size_insert_None.
  assert (server_inv done (Open (next_job s) count phase [task]) s') as Hi'.
  { split; rewrite ?Hpk; [|by apply scheduled_spawns|by apply fresh_grows| |exact Hx|exact Hct].
    - split_and!; [exact Hg|simpl; lia|apply first_room|apply fin_maps.lookup_insert_eq| |].
      + simpl. set_solver.
      + simpl. intros id' j' Hne [[]|[_ Hl]]%fin_maps.lookup_insert_Some; [done|by eapply Hall].
    - simpl. rewrite waiting_insert, <- Hts, Hu, fin_maps.delete_id by done. simpl.
      by rewrite Permutation_middle. }
  exists s', done, (Open (next_job s) count phase [task]). split_and!; [exact Hrun|exact Hi'|].
  apply (less_ahead _ _ _ _ _ Hi'). unfold burden. rewrite Hsize, Hu. simpl. lia.
Qed.

Lemma send_joins done id start phase ts s task rest :
  let l := Open id start phase ts in
  server_inv done l s → unsent s = task :: rest →
  start + Z.of_nat (length ts) < region_floor start + N → good_service l s (auto_batch s).
Proof.
  intros l [(Hg & Hne & _ & Hj & Hr & Hall) Hsc Hfr Hts Hx Hct] Hu Hroom.
  destruct (push_next _ _ _ task _ Hg Hne Hroom) as (q1 & Hp & Hg' & Hpe).
  assert (background_process task (s_world s) = Done ((), set_queue q1 (s_world s))) as Hb
    by (unfold background_process; by run_with (push_range_run _ _ _ _ Hp)).
  pose proof (auto_batch_run _ _ s _ [] Hu Hb (eq_sym (app_nil_r _))) as Hrun.
  cbn [spawns omap list_omap foldl] in Hrun. set (s' := mkServer _ _ _ _ _) in Hrun.
  assert (waits s' = waits s) as Hpk by (unfold waits, s'; simpl; by rewrite Hpe).
  assert (server_inv done (Open id start phase (ts ++ [task])) s') as Hi'.
  { split; rewrite ?Hpk; [|exact Hsc|exact Hfr| |exact Hx|exact Hct].
    - split_and!; [exact Hg'|rewrite length_app; simpl; lia..|done|done|done].
    - simpl. rewrite <- Hts, Hu. simpl. rewrite <- app_assoc. simpl. by rewrite Permutation_middle. }
  exists s', done, (Open id start phase (ts ++ [task])). split_and!; [exact Hrun|exact Hi'|].
  apply (less_ahead _ _ _ _ _ Hi'). unfold burden, l. change (jobs s') with (jobs s).
  rewrite Hu. simpl. lia.
Qed.

Lemma send_refused done id start phase ts s task rest :
  let l := Open id start phase ts in
  server_inv done l s → unsent s = task :: rest →
  start + Z.of_nat (length ts) = region_floor start + N → good_service l s (auto_batch s).
Proof.
  intros l [(Hg & Hne & Hroom & Hj & Hr & Hall) Hsc Hfr Hts Hx Hct] Hu Hfull.
  destruct (push_last _ _ _ task _ Hg Hfull) as (q1 & Hp & Hg' & Hpe).
  assert (background_process task (s_world s) = Done ((),
    mkWorld q1 (ext (s_world s)) (trace (s_world s) ++ [Spawned (EnqueueThenProcess task)]))) as Hb
    by (unfold background_process; by run_with (push_range_run _ _ _ _ Hp)).
  pose proof (auto_batch_run _ _ s _ [Spawned (EnqueueThenProcess task)] Hu Hb eq_refl) as Hrun.
  cbn [spawns omap list_omap foldl flip] in Hrun. set (s' := spawn _ _) in Hrun.
  assert (waits s' = waits s) as Hpk by (unfold waits, s'; simpl; by rewrite Hpe).
  pose proof (fresh_job s Hfr) as Hnone.
  assert (size (jobs s') = S (size (jobs s))) as Hsize by by apply map_size_insert_None.
  assert (server_inv done l s') as Hi'.
  { split; rewrite ?Hpk; [|by apply scheduled_spawns|by apply fresh_grows| |exact Hx|exact Hct].
    - split_and!; [exact Hg'|done|done| | |].
      + simpl. rewrite fin_maps.lookup_insert_ne; [done|congruence].
      + simpl. set_solver.
      + simpl. intros id' j' Hne1 [[_ <-]|[_ Hl]]%fin_maps.lookup_insert_Some; [by eexists|by eapply Hall].
    - simpl. rewrite waiting_insert, <- Hts, Hu, fin_maps.delete_id by done. simpl.
      by rewrite Permutation_middle. }
  exists s', done, l. split_and!; [exact Hrun|exact Hi'|].
  apply (less_ahead _ _ _ _ _ Hi'). unfold burden, l. rewrite Hsize, Hu. simpl. lia.
Qed.

Lemma every_job_served done l s id :
  server_inv done l s → id ∈ runnable s → good_service l s (run_job id s).
Proof.
  intros Hi Hr. destruct l as [count phase|id0 start phase ts]; [by eapply service_first|].
  destruct (decide (id = id0)) as [->|Hne]; [by eapply service_processes|].
  pose proof (sv_service _ _ _ Hi) as (_ & _ & Hroom & _).
  destruct (decide (start + Z.of_nat (length ts) = region_floor start + N));
    [by eapply service_parks|by eapply service_joins; [..|lia]].
Qed.

Lemma every_task_sent done l s :
  server_inv done l s → unsent s ≠ [] → good_service l s (auto_batch s).
Proof.
  intros Hi Hne. destruct (unsent s) as [|task rest] eqn:Hu; [done|].
  destruct l as [count phase|id0 start phase ts]; [by eapply send_first|].
  pose proof (sv_service _ _ _ Hi) as (_ & _ & Hroom & _).
  destruct (decide (start + Z.of_nat (length ts) = region_floor start + N));
    [by eapply send_refused|by eapply send_joins; [..|lia]].
Qed.

Lemma every_service_good done l s s' :
  server_inv done l s → serves s s' →
  ∃ done' l', server_inv done' l' s' ∧ (work_ahead l' s' < work_ahead l s)%nat.
Proof.
  intros Hi Hsv. assert (good_service l s (Some s')) as (s1 & done' & l' & [= <-] & Hi' & Hw); [|by eauto].
  destruct Hsv as [Hs|id Hs]; rewrite <- Hs.
  - eapply every_task_sent; [exact Hi|]. intros Hu. unfold auto_batch in Hs. by rewrite Hu in Hs.
  - eapply every_job_served; [exact Hi|]. unfold run_job in Hs.
    destruct (jobs s !! id); simpl in Hs; [|done]. by destruct (decide (id ∈ runnable s)).
Qed.

(** Nothing is left to do only when every task was worked on. *)
Lemma served_at_end done l s :
  server_inv done l s → unsent s = [] → runnable s = ∅ → jobs s = ∅ ∧ done ≡ₚ tasks.
Proof.
  intros [Hq Hsc _ Hts _ _] Hu He. destruct l as [count phase|id start phase ts]; simpl in Hq.
  2:{ destruct Hq as (_ & _ & _ & _ & Hid & _). rewrite He in Hid. by apply not_elem_of_empty in Hid. }
  destruct Hq as (_ & _ & Hne). destruct (waits s) eqn:Ep; [|by destruct Hne].
  assert (jobs s = ∅) as Hp.
  { apply map_empty. intros id. destruct (jobs s !! id) eqn:E; [|done].
    destruct (not_elem_of_empty (C := gset nat) id). rewrite <- He. apply (sc_ready _ _ _ Hsc).
    rewrite E. split; [by eexists|apply not_elem_of_nil]. }
  split; [done|]. rewrite <- Hts, Hp, Hu. simpl. by rewrite app_nil_r.
Qed.

Lemma server_start_inv s : server_start s → ∃ l, server_inv [] l s.
Proof.
  intros (Hu & Hj & Hr & Hpk & Hx & phase & Hidle). exists (Quiet c0 phase).
  split; rewrite ?Hpk, ?Hj, ?Hr, ?Hu; [| | |done|done|simpl; lia].
  - split; [done|]. split; [|by rewrite Hpk]. intros id j. by rewrite Hj, fin_maps.lookup_empty.
  - rewrite <- (dom_empty_L (M := gmap nat) (D := gset nat) (A := job_state (T := T))). apply scheduled_all.
  - intros id. rewrite fin_maps.lookup_empty. by intros [].
Qed.

(** At any time some of the tasks were worked on, in some order, once each; a run ends with
    all of them. *)
Lemma serves_all s0 s :
  server_start s0 → rtc serves s0 s →
  sn serves s
  ∧ (unsent s ≠ [] → is_Some (auto_batch s)) ∧ (∀ id, id ∈ runnable s → is_Some (run_job id s))
  ∧ ∃ done rest, done ++ rest ≡ₚ tasks ∧ ext (s_world s) = foldl (flip consume) x0 done
      ∧ (nf serves s → unsent s = [] ∧ jobs s = ∅ ∧ rest = []).
Proof.
  intros Hstart Hr. assert (∃ done l, server_inv done l s) as (done & l & Hi).
  { refine (rtc_invariant serves (λ s, ∃ done l, server_inv done l s) s0 s _
      (ex_intro _ [] (server_start_inv _ Hstart)) Hr).
    intros s1 s2 Hs (done & l & Hi). destruct (every_service_good _ _ _ _ Hi Hs) as (d' & l' & Hi' & _). eauto. }
  assert (unsent s ≠ [] → is_Some (auto_batch s)) as Hsend.
  { intros Hne. destruct (every_task_sent _ _ _ Hi Hne) as (s' & _ & _ & -> & _). by eexists. }
  assert (∀ id, id ∈ runnable s → is_Some (run_job id s)) as Hjob.
  { intros id Hid. destruct (every_job_served _ _ _ id Hi Hid) as (s' & _ & _ & -> & _). by eexists. }
  split_and!; [|done|done|].
  - apply (sn_by_measure serves (λ n s, ∃ done l, server_inv done l s ∧ work_ahead l s = n))
      with (work_ahead l s); [|by exists done, l].
    intros n s1 s2 (d1 & l1 & Hi1 & <-) Hs.
    destruct (every_service_good _ _ _ _ Hi1 Hs) as (d' & l' & Hi' & Hw). by eauto 6.
  - exists done, (open_tasks l ++ waiting (jobs s) ++ unsent s).
    pose proof (sv_tasks _ _ _ Hi) as Hts. split; [done|]. split; [apply (sv_ext _ _ _ Hi)|].
    intros Hnf. assert (unsent s = []) as Hu.
    { destruct (unsent s) eqn:E; [done|]. destruct Hnf. destruct Hsend as [s' Hs]; [done|].
      exists s'. by apply serves_send. }
    assert (runnable s = ∅) as He.
    { apply elem_of_equiv_empty_L. intros id Hid. destruct Hnf. destruct (Hjob id Hid) as [s' Hs].
      exists s'. by apply (serves_job _ _ id). }
    destruct (served_at_end _ _ _ Hi Hu He) as [Hj Hd]. split_and!; [done|done|].
    rewrite <- Hd in Hts. apply Permutation_length in Hts. rewrite length_app in Hts.
    apply length_zero_iff_nil. lia.
Qed.
End invariant.

(** * The queue of the test *)

(** [oneshot::channel]: the sender of a channel is its number; [received] is what its receiver
    returns. A sender is used up by [send]. *)
Class Oneshot (V X : Type) : Type := {
  send : nat → V → X → X;
  received : nat → X → option V
}.

Class OneshotLaws (V X : Type) `{Oneshot V X} : Prop := {
  received_same tx (v : V) (x : X) : received tx (send tx v x) = Some v;
  received_other tx tx' (v : V) (x : X) : tx ≠ tx' → received tx' (send tx v x) = received tx' x
}.

#[export] Instance gmap_oneshot {V : Type} : Oneshot V (gmap nat V) := {
  send tx v x := <[tx := v]> x;
  received tx x := x !! tx
}.

#[export] Instance gmap_oneshot_laws {V : Type} : OneshotLaws V (gmap nat V).
Proof. split; intros; simpl; [apply fin_maps.lookup_insert_eq|by apply fin_maps.lookup_insert_ne]. Qed.

(** A [batch_process] that bounds its batch and works on each task in turn, as
    [for task in batch.into_bounded()] does; then the iterator is dropped. *)
Section consuming.
Context {C : QueueCfg} {T X : Type}.

Definition consume_batch {W D : Type} `{Deque W D} `{NeedsDrop T} (consume : T → X → X)
  : BackgroundQueue T W D X := λ batch,
  range ← into_bounded batch;
  let tasks := into_iter range in
  tasks ← next_loop (iter_fuel tasks) tasks (λ task, modify (λ w, set_ext (consume task (ext w)) w));
  drop_iter tasks.

Lemma consume_batch_handles {HS : SafeCfg} {W D : Type} `{DequeLaws W D} `{NeedsDrop T}
  (consume : T → X → X) : Handles (consume_batch (W := W) (D := D) consume) consume.
Proof.
  intros start tasks p p' w Hs Hst Hnw.
  set (after := λ task (w : world (option T) D X (event W T (job T))),
    set_ext (consume task (ext w)) w).
  set (w1 := set_ext (foldl (flip consume) (ext w) tasks) (closed w)).
  destruct (release_returns start w1) as [w' Hrel].
  exists w1, w', []. split_and!; [|done..|by rewrite app_nil_r|exact Hrel].
  assert (foldl (flip after) (closed w) tasks = w1) as Hfold.
  { unfold w1. change (ext w) with (ext (closed w)). generalize (closed w) as w0. clear.
    induction tasks as [|task tasks IH]; intros w0; [by destruct w0|]. simpl. by rewrite IH. }
  unfold batch_process, consume_batch. run_with (into_bounded_run _ p _ _ _ Hs).
  rewrite (batch_range_eq _ _ Hnw). cbv zeta. unfold into_iter. cbn [range_start].
  pose proof (Z.mod_pos_bound start _ counter_modulus_pos). unfold no_counter_wrap in Hnw.
  destruct Hst as (_ & _ & Hh).
  erewrite run_bind; [|apply (next_loop_sink _ after); [done|unfold iter_fuel; cbn; lia|lia|lia|by apply holds_word]].
  cbv beta. rewrite Hfold. set (stop := start mod counter_modulus + Z.of_nat (length tasks)).
  rewrite <- (Z.add_0_r stop) at 2.
  rewrite (drop_iter_run (start mod counter_modulus) [] stop w1); [|lia|simpl; lia|by intros ? ? ?].
  rewrite after_drops_nil, mod_counter_mod_N. exact Hrel.
Qed.
End consuming.

Section echo.
Context {C : QueueCfg} {V X : Type} `{OneshotLaws V X}.

(** [tx.send(val).ok()] *)
Definition send_value (task : V * nat) (x : X) : X := send task.2 task.1 x.

#[export] Instance EchoBackgroundQueue {W D : Type} `{Deque W D} `{NeedsDrop (V * nat)} :
  BackgroundQueue (V * nat) W D X := consume_batch send_value.

#[export] Instance echo_handles {HS : SafeCfg} {W D : Type} `{DequeLaws W D} `{NeedsDrop (V * nat)} :
  Handles (EchoBackgroundQueue (W := W) (D := D)) send_value.
Proof. apply consume_batch_handles. Qed.

(** Every value sent arrives, whatever the order. *)
Lemma sends_arrive (l : list (V * nat)) x v tx :
  NoDup (snd <$> l) → (v, tx) ∈ l → received tx (foldl (flip send_value) x l) = Some v.
Proof.
  induction l as [|[v' tx'] l IH] using rev_ind; intros Hnd Hin; [by apply elem_of_nil in Hin|].
  rewrite fmap_app in Hnd. apply NoDup_app in Hnd as (Hnd & Hdis & _).
  rewrite foldl_app. simpl. unfold send_value at 1. simpl.
  apply elem_of_app in Hin as [Hin|[= -> ->]%list_elem_of_singleton]; [|apply received_same].
  assert (tx ∈ (snd <$> l)) as Htx by (apply list_elem_of_fmap; by exists (v, tx)).
  rewrite received_other; [by apply IH|]. intros ->. by apply (Hdis tx Htx), list_elem_of_singleton.
Qed.
End echo.

(** Channels with the log of everything that was sent. *)
#[export] Instance logged_oneshot {V X : Type} `{Oneshot V X} : Oneshot V (list (V * nat) * X) := {
  send tx v x := (x.1 ++ [(v, tx)], send tx v x.2);
  received tx x := received tx x.2
}.
#[export] Instance logged_oneshot_laws {V X : Type} `{OneshotLaws V X} :
  OneshotLaws V (list (V * nat) * X).
Proof. split; intros; simpl; [apply received_same|by apply received_other]. Qed.

Lemma sends_logged {V X : Type} `{Oneshot V X} (l : list (V * nat)) (x : list (V * nat) * X) :
  (foldl (flip send_value) x l).1 = x.1 ++ l.
Proof.
  revert x. induction l as [|[v tx] l IH]; intros x; simpl; [by rewrite app_nil_r|].
  rewrite IH. simpl. by rewrite <- app_assoc.
Qed.

(** C20. Tasks sent to a background queue on one executor thread, however the spawned jobs run
    between the calls of [auto_batch] and after them, as long as the task counter does not
    wrap in the run: no call and no job is undefined or stuck, no run goes on for ever,
    refused tasks are enqueued again by their jobs and woken in time. At any time no task was
    worked on more often than it was sent; when nothing is left to do every task was worked on
    exactly once, and every receiver has the value that was sent with its task. What is
    worked on is the log of the channels: [batch_process] sends one value per task. *)
Theorem it_process_background_tasks {C : QueueCfg} {HS : SafeCfg} {V D X : Type} `{DequeLaws nat D}
  `{OneshotLaws V X} `{NeedsDrop (V * nat)} (tasks : list (V * nat)) c0 (x0 : X)
  (s0 s : server (T := V * nat) (D := D) (X := list (V * nat) * X)) :
  NoDup (snd <$> tasks) → 0 ≤ c0 → c0 + Z.of_nat (length tasks) < counter_modulus →
  server_start c0 ([], x0) tasks s0 → rtc serves s0 s →
  sn serves s
  ∧ (unsent s ≠ [] → is_Some (auto_batch s)) ∧ (∀ id, id ∈ runnable s → is_Some (run_job id s))
  ∧ (ext (s_world s)).1 ⊆+ tasks
  ∧ (nf serves s → unsent s = [] ∧ jobs s = ∅
      ∧ (ext (s_world s)).1 ≡ₚ tasks
      ∧ ∀ v tx, (v, tx) ∈ tasks → received tx (ext (s_world s)) = Some v).
Proof.
  intros Hnd Hc Hm Hstart Hr.
  destruct (serves_all send_value c0 _ tasks Hc Hm s0 s Hstart Hr)
    as (Hsn & Hsend & Hjob & l & rest & Hl & Hx & Hend).
  assert ((ext (s_world s)).1 = l) as Hlog by (rewrite Hx; apply sends_logged).
  split_and!; [done..| |].
  - rewrite Hlog, <- Hl. apply submseteq_inserts_r. reflexivity.
  - intros Hnf. destruct (Hend Hnf) as (Hu & Hj & ->). rewrite app_nil_r in Hl.
    split_and!; [done|done|by rewrite Hlog|].
    intros v tx Hin. rewrite Hx. apply sends_arrive; by rewrite Hl.
Qed.

(** Sixty-six tasks for a fresh queue of 64 cells: two are refused, one of them waits. *)
#[local] Instance pair_no_drop : NeedsDrop (Z * nat) := false.
Abbreviation demo_server := (server (T := Z * nat) (D := list_deque nat) (X := list (Z * nat) * gmap nat Z)).

Definition demo_sends (n : nat) : list (Z * nat) := (λ i, (100 + Z.of_nat i, i)) <$> seq 0 n.
Definition demo_server_start (n : nat) : demo_server :=
  mkServer (demo_sends n) ∅ 0 ∅ (mkWorld (@new_queue cfg _ _ _ _ None) ([], ∅) []).

(** [None]: the next [auto_batch]; [Some id]: a job. *)
Fixpoint run_services (choices : list (option nat)) (s : demo_server) : option demo_server :=
  match choices with
  | [] => Some s
  | c :: choices =>
      s' ← match c with
           | Some id => run_job (C := cfg) (B := EchoBackgroundQueue (C := cfg)) id s
           | None => auto_batch (C := cfg) s
           end;
      run_services choices s'
  end.

Lemma run_services_serves choices s s' :
  run_services choices s = Some s' →
  rtc (serves (C := cfg) (B := EchoBackgroundQueue (C := cfg))) s s'.
Proof.
  revert s. induction choices as [|c choices IH]; intros s; simpl; [by intros [= ->]|].
  intros (s1 & Hc & Hr)%bind_Some. apply rtc_l with s1; [|by apply IH].
  destruct c as [id|]; [by apply (serves_job _ _ id)|by apply serves_send].
Qed.

Definition demo_services : list (option nat) :=
  replicate 66 None ++ [Some 1%nat; Some 0%nat; Some 2%nat].

Lemma it_process_background_tasks_witness : ∃ s,
  run_services demo_services (demo_server_start 66) = Some s
  ∧ bool_decide (runnable s = {[1%nat]} ∧ size (ext (s_world s)).2 = 65%nat) = true
  ∧ sn (serves (C := cfg) (B := EchoBackgroundQueue (C := cfg))) s
  ∧ (unsent s ≠ [] → is_Some (auto_batch (C := cfg) s))
  ∧ (∀ id, id ∈ runnable s → is_Some (run_job (C := cfg) (B := EchoBackgroundQueue (C := cfg)) id s))
  ∧ (ext (s_world s)).1 ⊆+ demo_sends 66
  ∧ (nf (serves (C := cfg) (B := EchoBackgroundQueue (C := cfg))) s → unsent s = [] ∧ jobs s = ∅
      ∧ (ext (s_world s)).1 ≡ₚ demo_sends 66
      ∧ ∀ v tx, (v, tx) ∈ demo_sends 66 → received tx (ext (s_world s)) = Some v).
Proof.
  set (o := run_services _ _).
  assert (from_option (λ s, bool_decide (runnable s = {[1%nat]} ∧ size (ext (s_world s)).2 = 65%nat)) false o
    = true) as Ho by by vm_compute.
  destruct o as [s|] eqn:Hr; [|done]. exists s. split; [done|]. split; [exact Ho|].
  refine (it_process_background_tasks (C := cfg) (HS := safe_cfg_64) (demo_sends 66) 0 ∅
    (demo_server_start 66) s _ _ _ _ _); [|done|by vm_compute| |].
  - apply (bool_decide_unpack _). by vm_compute.
  - split_and!; [done..|]. exists false. repeat split.
  - by apply (run_services_serves demo_services).
Defined.
