(* ===== verification/Traits.v ===== *)
(** The traits of [queue.rs] that users implement, and the methods of [TaskRef] that forward
    to the task in its cell.

    A [batch_process] uses its [PendingAssignment] through the API of [assignment.rs], drops
    it or forgets it, and its closures may panic: it is a [handler]. [TaskQueue] is the interface a client relies on, the
    law [Resolves] says what its handler does to a batch. *)
From S2P Require Import Prelude Usize Helpers Occupancy Deque Queue Ranges Consumption Protocol Exclusion TaskRef Assignment Resolution Delivery Futures.
Local Open Scope Z_scope.

(** A proof of completion holds no data; it only comes from [into_completion_receipt]. *)
Inductive CompletionReceipt : Type := completion_receipt.

(** What may be done with a [TaskAssignment]: the methods of the crate, on this thread or on a
    blocking one ([started]: whether the runtime runs the closure given to [spawn_blocking],
    or drops it because it is shutting down); closures and iterators that panic; dropping it,
    on a panic or a cancellation elsewhere in the job too; [mem::forget].

    The closure of [PanickingMap] panics on the task number [n] of the batch, if there is one;
    the iterator of [PanickingIter] panics when it is asked for more than [values]. What the
    job does may depend on the tasks, which it can look at before: a use is what it does in
    the end. *)
Inductive assignment_use (T V : Type) : Type :=
| MapTasks (f : T → V)
| ResolveWithIter (values : list T → list V)
| BlockingAssignment (started : bool) (u : assignment_use T V)
| PanickingMap (n : nat) (f : T → V)
| PanickingIter (values : list V)
| DropAssignment
| ForgetAssignment.
Arguments MapTasks {_ _} _.
Arguments ResolveWithIter {_ _} _.
Arguments BlockingAssignment {_ _} _ _.
Arguments PanickingMap {_ _} _ _.
Arguments PanickingIter {_ _} _.
Arguments DropAssignment {_ _}.
Arguments ForgetAssignment {_ _}.

Inductive handler (T V : Type) : Type :=
| IntoAssignment (u : assignment_use T V)
| BlockingPending (started : bool) (h : handler T V)
| DropPending
| ForgetPending.
Arguments IntoAssignment {_ _} _.
Arguments BlockingPending {_ _} _ _.
Arguments DropPending {_ _}.
Arguments ForgetPending {_ _}.

(** How a handler ends: it returns its receipt; it stops without one; the assignment is
    forgotten, after or before the batch was closed; undefined behaviour. *)
Inductive ending : Type :=
| Completed
| Abandoned
| Forgotten (closed : bool)
| Undefined.

Section traits.
Context {C : QueueCfg} {T V W D : Type} `{Deque W D} `{NeedsDrop T, NeedsDrop V}.
Abbreviation task_world := (world (TaskRef T) D (futures T V W) (event W (T + V) Z)).
Abbreviation op A := (M task_world A).

(** [TaskRef::task], also [Deref]: the task is borrowed from its cell. *)
Definition task_of (i : Z) : op T := c ← on_queue (read_cell i); assume_init (task c).

(** [Debug], [BelongsTo::foreign_key] and [ToRedisArgs] call a method of the task. *)
Definition forward {A : Type} (method : T → A) (i : Z) : op A :=
  t ← task_of i; mret (method t).

(** [PartialEq] *)
Definition task_ref_eq (eq : T → T → bool) (i j : Z) : op bool :=
  t ← task_of i; u ← task_of j; mret (eq t u).

(** [PartialOrd] *)
Definition task_ref_partial_cmp (cmp : T → T → option comparison) (i j : Z) : op (option comparison) :=
  t ← task_of i; u ← task_of j; mret (cmp t u).

(** [None]: the thread panics instead of returning a receipt. *)
Abbreviation processing := (op (option CompletionReceipt)).

Fixpoint run_use (u : assignment_use T V) (a : TaskAssignment) : processing :=
  match u with
  | MapTasks f => map_assignment f a ;; mret (Some completion_receipt)
  | ResolveWithIter values =>
      refs ← tasks a;
      ts ← mapM task_of refs;
      resolve_with_iter (values ts) a ;; mret (Some completion_receipt)
  | BlockingAssignment started u =>
      if started then run_use u a else drop_assignment a ;; mret None
  | PanickingMap n f =>
      refs ← tasks a;
      if (n <? length refs)%nat then map_unwinding n f a ;; mret None
      else map_assignment f a ;; mret (Some completion_receipt)
  | PanickingIter values =>
      refs ← tasks a;
      if (length values <? length refs)%nat then iter_unwinding values a ;; mret None
      else resolve_with_iter values a ;; mret (Some completion_receipt)
  | DropAssignment => drop_assignment a ;; mret None
  | ForgetAssignment => mret None
  end.

Fixpoint run_handler (h : handler T V) (p : PendingAssignment) : processing :=
  match h with
  | IntoAssignment u => a ← into_assignment p; run_use u a
  | BlockingPending started h =>
      if started then run_handler h p else drop_pending p ;; mret None
  | DropPending => drop_pending p ;; mret None
  | ForgetPending => mret None
  end.

(** The ending for a batch of [k] tasks. *)
Fixpoint use_ending (k : nat) (u : assignment_use T V) : ending :=
  match u with
  | MapTasks _ | ResolveWithIter _ => Completed
  | BlockingAssignment started u => if started then use_ending k u else Abandoned
  | PanickingMap n _ =>
      if (n <? k)%nat then (if needs_drop (T := T) then Undefined else Abandoned) else Completed
  | PanickingIter values =>
      if (length values <? k)%nat
      then (if needs_drop (T := T) && (0 <? length values)%nat then Undefined else Abandoned)
      else Completed
  | DropAssignment => Abandoned
  | ForgetAssignment => Forgotten true
  end.
Fixpoint handler_ending (k : nat) (h : handler T V) : ending :=
  match h with
  | IntoAssignment u => use_ending k u
  | BlockingPending started h => if started then handler_ending k h else Abandoned
  | DropPending => Abandoned
  | ForgetPending => Forgotten false
  end.

(** Handlers that return their receipt whatever the batch is. *)
Fixpoint use_completes (u : assignment_use T V) : bool :=
  match u with
  | MapTasks _ | ResolveWithIter _ => true
  | BlockingAssignment started u => started && use_completes u
  | _ => false
  end.
Fixpoint completes (h : handler T V) : bool :=
  match h with
  | IntoAssignment u => use_completes u
  | BlockingPending started h => started && completes h
  | _ => false
  end.
End traits.

(** [TaskQueue], by its [batch_process]. *)
Class TaskQueue (T V : Type) : Type := batch_process : handler T V.

(** [TaskQueue::auto_batch], that is [BatchedTask::new]. *)
Definition auto_batch {T V W : Type} `{TaskQueue T V} (task : T) : State T V W := Unbatched task.

Section law.
Context {C : QueueCfg} {T V W D : Type} `{Deque W D} `{NeedsDrop T, NeedsDrop V}.
Abbreviation task_world := (world (TaskRef T) D (futures T V W) (event W (T + V) Z)).
Implicit Types (w : task_world) (es : list (entry T W)).

(** An open batch that holds the entries [es] from task number [start] on. *)
Definition open_batch (start : Z) (phase : bool) es w : Prop :=
  slot (inner (queue w)) = slot_word (start + Z.of_nat (length es)) phase
  ∧ unsettled start es w ∧ (1 ≤ length es)%nat.

Definition live_wakers es : list W := e_waker <$> filter (λ e, e_live e = true) es.

(** The batch closed, every live future holding the value [f] gives its task and woken once,
    and only then the region released. *)
Definition resolved (f : T → V) (start : Z) es w w' : Prop :=
  ∃ w1, deoccupy_region (start mod N) w1 = Done ((), w')
    ∧ (∃ b, length b = length (cells w) ∧ queue w1 = set_buffer b (queue (closed w)))
    ∧ (∀ k e, es !! k = Some e → e_live e = true →
        ext w1 !! e_addr e
          = Some (Batched (mkReceiver (batch_cell start k) (Some (f (e_task e))) (e_waker e))))
    ∧ (∃ evs, trace w1 = trace w ++ evs ∧ wakes evs ≡ₚ live_wakers es ∧ spawns evs = [])
    ∧ (∀ a, (∀ e, e ∈ es → e_live e = true → e_addr e ≠ a) → ext w1 !! a = ext w !! a).

Class Resolves (Q : TaskQueue T V) (f : T → V) : Prop :=
  resolves : ∀ start p phase es w, open_batch start phase es w →
    ∃ w', run_handler batch_process (mkPendingAssignment (slot_word start p)) w
            = Done (Some completion_receipt, w')
      ∧ resolved f start es w w'.
End law.

(** ** Handlers *)
Section handlers.
Context {C : QueueCfg} {HV : ValidCfg} {T V W D : Type} `{DequeLaws W D}
  `{NeedsDrop T, NeedsDrop V}.
Abbreviation task_world := (world (TaskRef T) D (futures T V W) (event W (T + V) Z)).
Implicit Types (w : task_world) (e : entry T W) (es : list (entry T W)) (u : assignment_use T V)
  (h : handler T V) (f : T → V).

Lemma task_of_run i e w : 0 ≤ i → in_cell i e w → task_of i w = Done (e_task e, w).
Proof.
  intros Hi [Hc _]. unfold task_of. by run_with (read_cell_world _ _ _ Hi Hc).
Qed.

Lemma unsettled_closed start es w : unsettled start es w → unsettled start es (closed w).
Proof. done. Qed.

Lemma into_assignment_run start p phase es w :
  open_batch start phase es w →
  into_assignment (mkPendingAssignment (slot_word start p)) w
    = Done (assignment start (length es), closed w).
Proof.
  intros (Hs & _ & _). unfold into_assignment, set_assignment_bounds.
  assert (on_queue fetch_xor_slot w = Done (slot (inner (queue w)), closed w)) as Hx by done.
  erewrite run_bind.
  2:{ run_with Hx. reflexivity. }
  rewrite run_ret, Hs. cbn [base_slot]. by rewrite !slot_word_shr.
Qed.

Lemma settle_all_length left before start evs w :
  length (cells (settle_all left before start evs w)) = length (cells w).
Proof.
  revert start w. induction evs as [|[e v] evs IH]; intros start w; [done|].
  simpl. rewrite IH. simpl. by rewrite length_insert.
Qed.

(** Settling a batch wakes its live futures and nobody else. *)
Lemma settled_events (before : T → list (event W (T + V) Z)) (evs : list (entry T W * V)) :
  (∀ t, wakes (before t) = [] ∧ spawns (before t) = []) →
  let tr := concat ((λ ev, before (e_task ev.1) ++ settle_events ev.1 ev.2) <$> evs) in
  wakes tr = live_wakers evs.*1 ∧ spawns tr = [].
Proof.
  intros Hquiet. induction evs as [|[e v] evs [IHw IHs]]; [done|].
  cbn [fmap list_fmap concat fst snd]. rewrite !wakes_app, !spawns_app, IHw, IHs.
  destruct (Hquiet (e_task e)) as [-> ->]. unfold settle_events, live_wakers.
  rewrite filter_cons. destruct (e_live e) eqn:El.
  - by rewrite decide_True.
  - rewrite decide_False by congruence. by destruct (needs_drop (T := V)).
Qed.

(** A batch settled with the values of [f], then released. *)
Lemma settled_resolved left before f start es w w' :
  (∀ t, wakes (before t) = [] ∧ spawns (before t) = []) →
  unsettled start es w →
  deoccupy_region (start mod N)
    (settle_all left before start ((λ e, (e, f (e_task e))) <$> es) (closed w)) = Done ((), w') →
  resolved f start es w w'.
Proof.
  intros Hquiet Hu Hr. set (evs := (λ e, (e, f (e_task e))) <$> es) in *.
  assert (evs.*1 = es) as Hes by (unfold evs; by rewrite <- list_fmap_compose, list_fmap_id).
  assert (unsettled start evs.*1 (closed w)) as Hu' by by rewrite Hes.
  eexists. split; [exact Hr|]. split; [|split; [|split]].
  - destruct (settle_all_queue left before start evs (closed w)) as [b Hb].
    exists b. split; [|done].
    pose proof (settle_all_length left before start evs (closed w)) as Hl. rewrite Hb in Hl. exact Hl.
  - intros k e Hk Hl. assert (evs !! k = Some (e, f (e_task e))) as Hev
      by (unfold evs; by rewrite list_lookup_fmap, Hk).
    by apply settle_all_value.
  - destruct (settled_events before evs Hquiet) as [Hw Hs]. rewrite Hes in Hw.
    eexists. split; [exact (settle_all_trace left before start evs (closed w))|]. by rewrite Hw.
  - intros a Ha. rewrite settle_all_futures; [done|]. intros k e v Hk Hl.
    apply Ha; [|done]. rewrite <- Hes. apply list_elem_of_fmap. exists (e, v).
    split; [done|]. by eapply list_elem_of_lookup_2.
Qed.

(** The tasks a handler reads through the references, before it resolves them. *)
Lemma mapM_task_of_run start es w :
  unsettled start es w →
  mapM task_of (batch_cell start <$> seq 0 (length es)) w = Done (e_task <$> es, w).
Proof.
  intros [Hl Hu]. assert (∀ k e, es !! k = Some e → in_cell (batch_cell start (0 + k)) e w) as Hu'
    by exact Hu. clear Hu Hl. revert Hu'. generalize 0%nat as n.
  induction es as [|e es IH]; intros n Hu; [done|].
  cbn [length seq fmap list_fmap mapM].
  pose proof (Hu 0%nat e eq_refl) as He. rewrite Nat.add_0_r in He.
  run_with (task_of_run _ _ _ (proj1 (batch_cell_bounds start n)) He).
  rewrite (run_bind _ _ _ _ _ (IH (S n) (λ k e' Hk,
    eq_ind _ (λ i, in_cell (batch_cell start i) e' w) (Hu (S k) e' Hk) _ (Nat.add_succ_r n k)))).
  done.
Qed.

(** What a handler computes, when it does. *)
Fixpoint use_computes f u : Prop :=
  match u with
  | MapTasks g => ∀ t, g t = f t
  | ResolveWithIter values => ∀ ts, values ts = f <$> ts
  | BlockingAssignment _ u => use_computes f u
  | _ => False
  end.
Fixpoint handler_computes f h : Prop :=
  match h with
  | IntoAssignment u => use_computes f u
  | BlockingPending _ h => handler_computes f h
  | _ => False
  end.

Lemma run_use_resolves f u start es w :
  unsettled start es w → (1 ≤ length es)%nat → use_completes u = true → use_computes f u →
  ∃ w', run_use u (assignment start (length es)) (closed w) = Done (Some completion_receipt, w')
    ∧ resolved f start es w w'.
Proof.
  intros Hu Hne. pose proof (unsettled_closed _ _ _ Hu) as Huc. pose proof (proj1 Hu) as Hl.
  induction u as [g|values|[] u IH| | | |]; simpl; intros Hc Hf;
    [| |by apply IH|done..].
  - destruct (deoccupy_returns start (settle_all (λ _, None) (λ _, []) start
      ((λ e, (e, f (e_task e))) <$> es) (closed w))) as (w' & Hr). exists w'.
    split; [|by eapply settled_resolved; [|done..]].
    assert ((λ e, (e, g (e_task e))) <$> es = (λ e, (e, f (e_task e))) <$> es) as Hgf
      by (apply list_fmap_ext; intros; by rewrite Hf).
    rewrite <- Hgf in Hr. by run_with (map_assignment_run g start es _ _ Huc Hne Hr).
  - destruct (deoccupy_returns start (settle_all resolve_left resolve_before start
      ((λ e, (e, f (e_task e))) <$> es) (closed w))) as (w' & Hr). exists w'.
    split; [|eapply settled_resolved; [|done..]; intros t; unfold resolve_before;
      by destruct (needs_drop (T := T))].
    assert (zip es (values (e_task <$> es)) = (λ e, (e, f (e_task e))) <$> es) as Hz.
    { rewrite Hf, <- list_fmap_compose. clear. induction es as [|e es IH]; [done|].
      cbn. f_equal. exact IH. }
    rewrite <- Hz in Hr. erewrite run_bind by (apply tasks_run; lia). cbv beta.
    run_with (mapM_task_of_run start es _ Huc).
    by run_with (resolve_with_iter_run _ start es _ _ Huc Hne Hr).
Qed.

(** The region is released once, at the end, from a queue that changed in its cells only. *)
Definition released_once (r : option CompletionReceipt)
  (run : M task_world (option CompletionReceipt)) (start : Z) w : Prop :=
  ∃ w1 w' b, run w = Done (r, w') ∧ deoccupy_region (start mod N) w1 = Done ((), w')
    ∧ queue w1 = set_buffer b (queue w).

Lemma then_return r (m : M task_world unit) start w :
  (∃ w1 w' b, m w = Done ((), w') ∧ deoccupy_region (start mod N) w1 = Done ((), w')
     ∧ queue w1 = set_buffer b (queue w)) →
  released_once r (m ;; mret r) start w.
Proof. intros (w1 & w' & b & Hm & Hd & Hq). exists w1, w', b. split; [by run_with Hm|done]. Qed.

Lemma map_released f start es w :
  unsettled start es w → (1 ≤ length es)%nat →
  ∃ w1 w' b, map_assignment f (assignment start (length es)) w = Done ((), w')
    ∧ deoccupy_region (start mod N) w1 = Done ((), w') ∧ queue w1 = set_buffer b (queue w).
Proof.
  intros Hu Hne.
  set (w1 := settle_all (λ _, None) (λ _, []) start ((λ e, (e, f (e_task e))) <$> es) w).
  destruct (deoccupy_returns start w1) as (w' & Hr).
  destruct (settle_all_queue (λ _, None) (λ _, []) start ((λ e, (e, f (e_task e))) <$> es) w)
    as [b Hb]. exists w1, w', b. split; [|done]. by apply map_assignment_run.
Qed.

Lemma iter_released vs start es w :
  unsettled start es w → (1 ≤ length es)%nat →
  ∃ w1 w' b, resolve_with_iter vs (assignment start (length es)) w = Done ((), w')
    ∧ deoccupy_region (start mod N) w1 = Done ((), w') ∧ queue w1 = set_buffer b (queue w).
Proof.
  intros Hu Hne. set (w1 := settle_all resolve_left resolve_before start (zip es vs) w).
  destruct (deoccupy_returns start w1) as (w' & Hr).
  destruct (settle_all_queue resolve_left resolve_before start (zip es vs) w) as [b Hb].
  exists w1, w', b. split; [|done]. by apply resolve_with_iter_run.
Qed.

Lemma drop_released start es w :
  unsettled start es w → (1 ≤ length es)%nat →
  ∃ w1 w' b, drop_assignment (assignment start (length es)) w = Done ((), w')
    ∧ deoccupy_region (start mod N) w1 = Done ((), w') ∧ queue w1 = set_buffer b (queue w).
Proof.
  intros Hu Hne. destruct (drop_assignment_run start es w Hu Hne) as (b & w' & Hd & Hr).
  by eexists _, w', b.
Qed.

(** Whatever is done with an assignment. *)
Lemma run_use_ends u start es w :
  unsettled start es w → (1 ≤ length es)%nat →
  match use_ending (length es) u with
  | Completed => released_once (Some completion_receipt) (run_use u (assignment start (length es))) start w
  | Abandoned => released_once None (run_use u (assignment start (length es))) start w
  | Forgotten _ => run_use u (assignment start (length es)) w = Done (None, w)
  | Undefined => run_use u (assignment start (length es)) w = Undef uninit_read
  end.
Proof.
  intros Hu Hne. pose proof (proj1 Hu) as Hl.
  assert (tasks (assignment start (length es)) w
    = Done (batch_cell start <$> seq 0 (length es), w)) as Htasks by (apply tasks_run; lia).
  induction u as [g|values|[] u IH|n g|values| |]; cbn [use_ending run_use].
  - by apply then_return, map_released.
  - unfold released_once. rewrite (run_bind _ _ _ _ _ Htasks).
    rewrite (run_bind _ _ _ _ _ (mapM_task_of_run start es w Hu)).
    by apply then_return, iter_released.
  - done.
  - by apply then_return, drop_released.
  - unfold released_once. rewrite (run_bind _ _ _ _ _ Htasks), length_fmap, length_seq.
    destruct (Nat.ltb_spec n (length es)) as [Hn|Hn]; [|by apply then_return, map_released].
    destruct (needs_drop (T := T)) eqn:Hd.
    + apply run_bind_undef. by apply map_unwinding_undef.
    + by apply then_return, map_unwinding_plain.
  - unfold released_once. rewrite (run_bind _ _ _ _ _ Htasks), length_fmap, length_seq.
    destruct (Nat.ltb_spec (length values) (length es)) as [Hn|Hn];
      [|by apply then_return, iter_released].
    destruct (needs_drop (T := T)) eqn:Hd; [destruct values as [|v vs]|]; cbn.
    + apply then_return, iter_unwinding_plain; auto.
    + apply run_bind_undef. by apply iter_unwinding_undef.
    + apply then_return, iter_unwinding_plain; auto.
  - by apply then_return, drop_released.
  - done.
Qed.

Lemma forgotten_closed k u b : use_ending k u = Forgotten b → b = true.
Proof.
  induction u as [| |[] u IH|n g|values| |]; simpl; intros Ho; try done; [by apply IH|..].
  - by destruct (_ <? _)%nat, (needs_drop (T := T)).
  - destruct (_ <? _)%nat; [by destruct (_ && _)|done].
  - by injection Ho as <-.
Qed.

Lemma drop_pending_run start p phase es w :
  open_batch start phase es w →
  ∃ w1 w' b, drop_pending (mkPendingAssignment (slot_word start p)) w = Done ((), w')
    ∧ deoccupy_region (start mod N) w1 = Done ((), w')
    ∧ queue w1 = set_buffer b (queue (closed w)).
Proof.
  intros Ho. destruct Ho as (Hs & Hu & Hne).
  destruct (drop_assignment_run start es (closed w) Hu Hne) as (b & w' & Hd & Hr).
  eexists _, w', b. split; [|done]. unfold drop_pending, set_assignment_bounds.
  assert (on_queue fetch_xor_slot w = Done (slot (inner (queue w)), closed w)) as Hx by done.
  erewrite run_bind by (run_with Hx; reflexivity). cbv beta.
  rewrite Hs. cbn [base_slot]. by rewrite !slot_word_shr.
Qed.
End handlers.

(** C25. Whatever a [batch_process] does with its assignment - map, iterators that end early,
    hand-offs to blocking threads that never start, dropping it, closures and iterators that
    panic, [mem::forget] - there are four endings, told apart by [handler_ending]. It
    returns its receipt, or is stopped without one: then the batch was closed exactly once
    and its region released exactly once, at the end, with no undefined access. The
    assignment is forgotten: then nothing is released, and before [into_assignment] the batch
    is not even closed. Or a closure panics, or an iterator after its first value, and the
    tasks have a destructor: then the unwinding takes a task a second time, which is
    undefined. *)
Theorem handler_endings {C : QueueCfg} {HV : ValidCfg} {T V W D : Type}
  `{DequeLaws W D} `{NeedsDrop T, NeedsDrop V} (h : handler T V) start p phase
  (es : list (entry T W)) (w : world (TaskRef T) D (futures T V W) (event W (T + V) Z)) :
  open_batch start phase es w →
  let run := run_handler h (mkPendingAssignment (slot_word start p)) in
  let released_once r := ∃ w1 w' b, run w = Done (r, w')
    ∧ deoccupy_region (start mod N) w1 = Done ((), w')
    ∧ queue w1 = set_buffer b (queue (closed w)) in
  match handler_ending (length es) h with
  | Completed => released_once (Some completion_receipt)
  | Abandoned => released_once None
  | Forgotten is_closed => run w = Done (None, if is_closed then closed w else w)
  | Undefined => run w = Undef uninit_read
  end.
Proof.
  intros Ho. pose proof (drop_pending_run start p phase es w Ho) as Hdrop.
  induction h as [u|[] h IH| |]; cbn [handler_ending run_handler].
  - pose proof (run_use_ends u start es (closed w) (proj1 (proj2 Ho)) (proj2 (proj2 Ho))) as Hu.
    unfold released_once in Hu. cbv zeta.
    rewrite (run_bind _ _ _ _ _ (into_assignment_run start p phase es w Ho)).
    destruct (use_ending (length es) u) as [| |b|] eqn:E; try exact Hu.
    by rewrite (forgotten_closed _ _ _ E).
  - exact IH.
  - destruct Hdrop as (w1 & w' & b & Hr & Hd & Hq). exists w1, w', b. split; [by run_with Hr|done].
  - destruct Hdrop as (w1 & w' & b & Hr & Hd & Hq). exists w1, w', b. split; [by run_with Hr|done].
  - done.
Qed.

(** A handler that completes and computes [f] is a lawful [batch_process]. *)
#[export] Instance handler_resolves {C : QueueCfg} {HV : ValidCfg} {T V W D : Type}
  `{DequeLaws W D} `{NeedsDrop T, NeedsDrop V} (h : handler T V) f
  (Hc : completes h = true) (Hf : handler_computes f h) :
  Resolves (W := W) (D := D) h f.
Proof.
  intros start p phase es w Ho. unfold batch_process.
  induction h as [u|[] h IH| |]; simpl in *; [|by apply IH|done..].
  destruct (run_use_resolves f u start es w (proj1 (proj2 Ho)) (proj2 (proj2 Ho)) Hc Hf)
    as (w' & Hr & Hres).
  exists w'. split; [|done]. by run_with (into_assignment_run start p phase es w Ho).
Qed.

(** A handler that hands the assignment to a blocking pool which is shutting down. *)
Definition cancelled_handler : handler Z nat :=
  BlockingPending true (IntoAssignment (BlockingAssignment false (MapTasks Z.to_nat))).

Lemma handler_endings_witness :
  handler_ending (H0 := task_needs_drop) 3 cancelled_handler = Abandoned
  ∧ ∃ w1 w' b, run_handler (C := Delivery.cfg) (H0 := task_needs_drop) (H1 := value_needs_drop)
      cancelled_handler (mkPendingAssignment (@slot_word Delivery.cfg 0 true)) three
      = Done (None, w')
    ∧ deoccupy_region (C := Delivery.cfg) (0 mod @N Delivery.cfg) w1 = Done ((), w')
    ∧ queue w1 = set_buffer b (queue (@closed Delivery.cfg _ _ _ _ three)).
Proof.
  split; [reflexivity|].
  refine (handler_endings (C := Delivery.cfg) (HV := Delivery.valid)
    (H1 := task_needs_drop) (H2 := value_needs_drop) cancelled_handler 0 true false
    three_entries three _).
  split; [by vm_compute|]. split; [exact three_unsettled|]. apply Nat.leb_le. reflexivity.
Defined.
