(* ===== verification/Tasks.v ===== *)
(** A batch of a [TaskQueue] alone on its queue: futures that begin it, join it or are
    refused, and the [batch_process] that settles it, on one thread. *)
From S2P Require Import Prelude Usize Helpers Occupancy Deque Queue Ranges Consumption Protocol Exclusion TaskRef Assignment Resolution Delivery Futures Traits.
Local Open Scope Z_scope.

Section tasks.
Context {C : QueueCfg} {HS : SafeCfg} {T V W D : Type} `{DequeLaws W D} `{NeedsDrop T, NeedsDrop V}.
Abbreviation task_world := (world (TaskRef T) D (futures T V W) (event W (T + V) Z)).
Implicit Types (w : task_world) (es : list (entry T W)).

(** One batch is live: it began at [start], waits with the entries [es], and is still open. *)
Definition gathering (start : Z) (phase : bool) es w : Prop :=
  open_at start phase (length es) (queue w) ∧ unsettled start es w ∧ (1 ≤ length es)%nat
  ∧ start + Z.of_nat (length es) ≤ region_floor start + N.

Lemma gathering_open start phase es w : gathering start phase es w → open_batch start phase es w.
Proof. by intros (([Hs _] & _) & Hu & Hne & _). Qed.

(** The first poll on an idle queue hands out a batch with the task alone. *)
Lemma poll_begins count phase a t cx w :
  idle count phase (queue w) → ext w !! a = Some (Unbatched t) →
  ∃ w', poll a cx w = Done (Pending, w')
    ∧ gathering count phase [mkEntry t a cx true] w'
    ∧ trace w' = trace w ++ [Spawned (slot_word count phase)]
    ∧ ext w' = <[a := Batched (new_receiver (count mod N) cx)]> (ext w)
    ∧ pending (queue w') = pending (queue w).
Proof.
  intros Hidle Ha. destruct (idle_check _ _ _ Hidle) as (q' & Hc & Hi & Hsl & Hpe).
  destruct Hidle as (Hs & Hlen & Ho).
  pose proof (poll_ok a t cx _ _ _ w q' Hs Hlen Ha Hc) as Hp. cbv zeta in Hp.
  rewrite eqb_negb2 in Hp. set (w1 := enqueued (count mod N) t a cx (set_queue q' w)) in *.
  eexists. split; [exact Hp|]. pose proof (mod_N_bounds count).
  assert (in_cell (count mod N) (mkEntry t a cx true) w1) as Hin
    by (apply enqueued_in_cell; simpl; rewrite Hi, Hlen; lia).
  assert (wrapping_add usize_bits (occupancy (inner q')) (one_shifted (count mod N))
    = one_shifted (count mod N)) as Hocc by (rewrite Hi, Ho; apply first_occupancy).
  split; [|by split_and!]. split; [|split; [|split]].
  - split; [done|]. split; [simpl; by rewrite length_insert, Hi|]. simpl. by rewrite Hocc.
  - split; [pose proof N_ge_64; simpl; lia|].
    intros [|k] e [= <-]. rewrite batch_cell_0. exact Hin.
  - simpl. lia.
  - pose proof (region_floor_bounds count). pose proof region_size_le.
    pose proof N_eight_regions. simpl. lia.
Qed.

(** A poll while the batch has room joins it. *)
Lemma poll_joins start phase es a t cx w :
  gathering start phase es w → ext w !! a = Some (Unbatched t) →
  start + Z.of_nat (length es) < region_floor start + N →
  ∃ w', poll a cx w = Done (Pending, w')
    ∧ gathering start phase (es ++ [mkEntry t a cx true]) w'
    ∧ trace w' = trace w
    ∧ ext w' = <[a := Batched (new_receiver (batch_cell start (length es)) cx)]> (ext w)
    ∧ pending (queue w') = pending (queue w).
Proof.
  intros (Hopen & Hu & Hne & _) Ha Hroom. pose proof (open_check _ _ _ _ Hopen Hne Hroom) as Hc.
  destruct Hopen as (Hs & Hlen & Ho & Hso).
  pose proof (poll_ok a t cx _ _ _ w (queue w) Hs Hlen Ha Hc) as Hp. cbv zeta in Hp.
  rewrite eqb_reflx in Hp. replace (set_queue (queue w) w) with w in Hp by (by destruct w).
  fold (batch_cell start (length es)) in Hp.
  set (w1 := enqueued (batch_cell start (length es)) t a cx w) in *.
  eexists. split; [exact Hp|]. pose proof (batch_cell_bounds start (length es)) as Hb.
  assert (length (es ++ [mkEntry t a cx true]) = S (length es)) as Hl
    by (rewrite length_app; simpl; lia).
  pose proof (region_floor_bounds start).
  split; [|by split_and!]. unfold gathering. rewrite Hl. split; [|split; [|split; [lia|lia]]].
  - split; [|split; [simpl; by rewrite length_insert|done]].
    replace (start + Z.of_nat (S (length es))) with (start + Z.of_nat (length es) + 1) by lia. done.
  - split; [rewrite Hl; lia|]. intros k e [Hk|[Hk He]]%lookup_app_Some.
    + pose proof (lookup_lt_Some _ _ _ Hk). destruct (proj2 Hu k e Hk) as [Hcell Hr]. split.
      * simpl. rewrite list_lookup_insert_ne; [done|]. pose proof (batch_cell_bounds start k).
        intros Heq%Z2Nat.inj%batch_cell_inj; lia.
      * intros Hlive. specialize (Hr Hlive). simpl. rewrite fin_maps.lookup_insert_ne; [done|congruence].
    + apply list_lookup_singleton_Some in He as [Hk' <-].
      replace k with (length es) by lia. apply enqueued_in_cell. lia.
Qed.

(** A poll once the batch filled its lap parks its waker. *)
Lemma poll_refused start phase es a t cx w :
  gathering start phase es w → ext w !! a = Some (Unbatched t) →
  start + Z.of_nat (length es) = region_floor start + N →
  ∃ w', poll a cx w = Done (Pending, w')
    ∧ gathering start phase es w' ∧ trace w' = trace w ∧ ext w' = ext w
    ∧ deque_items (pending (queue w')) = deque_items (pending (queue w)) ++ [cx].
Proof.
  intros (Hopen & Hu & Hne & Hroom) Ha Hfull.
  pose proof (open_check_full _ _ _ _ Hopen Hfull) as Hc.
  destruct Hopen as (Hs & Hlen & Ho & Hso).
  pose proof (poll_full a t cx _ _ _ w _ Hs Ha Hc) as Hp. eexists. split; [exact Hp|].
  split; [|split; [done|split; [done|simpl; by rewrite push_items]]].
  split; [|done]. by split_and!.
Qed.

(** The executor runs the [batch_process] of the only batch: every future of it gets its value
    and is woken, then the oldest parked futures are woken; the queue is idle. *)
Lemma process_alone (Q : TaskQueue T V) (f : T → V) `{!Resolves (W := W) (D := D) Q f}
  start phase p es w :
  gathering start phase es w →
  ∃ w' evs ws, run_handler batch_process (mkPendingAssignment (slot_word start p)) w
      = Done (Some completion_receipt, w')
    ∧ idle (start + Z.of_nat (length es)) (negb phase) (queue w')
    ∧ trace w' = trace w ++ evs ∧ wakes evs ≡ₚ live_wakers es ++ ws ∧ spawns evs = []
    ∧ ws = take (Z.to_nat region_size) (deque_items (pending (queue w)))
    ∧ deque_items (pending (queue w)) = ws ++ deque_items (pending (queue w'))
    ∧ (∀ k e, es !! k = Some e → e_live e = true →
        ext w' !! e_addr e
          = Some (Batched (mkReceiver (batch_cell start k) (Some (f (e_task e))) (e_waker e))))
    ∧ (∀ a, (∀ e, e ∈ es → e_live e = true → e_addr e ≠ a) → ext w' !! a = ext w !! a).
Proof.
  intros Hg. destruct (resolves start p phase es w (gathering_open _ _ _ _ Hg))
    as (w' & Hrun & w1 & Hrel & (b & Hb & Hq) & Hval & (evs & Ht & Hw & Hsp) & Hx).
  destruct Hg as (([Hs Hl] & Hlen & Ho & Hso) & _).
  destruct (release_open start phase (length es) w1) as (w2 & Hrel2 & Hidle & Hext & Htr & Hit).
  - rewrite Hq. split; [simpl; by rewrite Hs, slot_word_toggle|exact Hl].
  - rewrite Hq. simpl. congruence.
  - rewrite Hq. exact Ho.
  - rewrite Hrel in Hrel2. injection Hrel2 as <-.
    assert (wakeable region_size w1
      = take (Z.to_nat region_size) (deque_items (pending (queue w)))) as Hwk
      by (unfold wakeable; by rewrite Hq).
    exists w', (evs ++ map Woken (wakeable region_size w1)), (wakeable region_size w1).
    split; [done|]. split; [done|]. split; [by rewrite Htr, Ht, <- app_assoc|].
    split; [rewrite wakes_app, Hw; apply Permutation_app_head; by rewrite wakes_woken|].
    split; [rewrite spawns_app, Hsp; apply spawns_woken|]. split; [done|].
    split; [by rewrite <- Hit, Hq|]. split; [by rewrite Hext|by rewrite Hext].
Qed.
(** The destructor of a future that returned its value. *)
Lemma drop_received_run a w :
  ext w !! a = Some Received →
  drop_batched_task 1 a w = Done ((), set_ext (delete a (ext w)) w).
Proof.
  intros Ha. unfold drop_batched_task. run_with (deref_run _ _ _ Ha). run_with (run_ret () w).
  unfold release_future. by run_with (deref_run _ _ _ Ha).
Qed.
End tasks.
