(* ===== verification/Runtime.v ===== *)
(** A [TaskQueue] on one executor thread, as in the test [it_process_tasks]: any number of
    [BatchedTask] futures, polled in any order when they were woken, and the spawned
    [batch_process] jobs, run in any order between the polls.

    [poll_task] and [run_job] are the turns of the executor, [turn] its step relation. The
    queue is any lawful [TaskQueue]; the invariant [runtime_inv] says of every future whether
    its task is still inside, in the open batch, or resolved, and who will wake it. *)
From S2P Require Import Prelude Usize Helpers Occupancy Deque Queue Ranges Consumption Protocol Exclusion TaskRef Assignment Resolution Delivery Futures Wakeups Traits Tasks.
Local Open Scope Z_scope.

Section runtime.
Context {C : QueueCfg} {T V D : Type} `{Deque nat D} `{NeedsDrop T, NeedsDrop V} {Q : TaskQueue T V}.
Abbreviation task_world := (world (TaskRef T) D (futures T V nat) (event nat (T + V) Z)).

(** The futures to be polled, a waker being the address of its future; the assignments of
    the spawned jobs; what the futures returned. *)
Record runtime : Type := mkRuntime {
  woken : gset addr;
  jobs : list Z;
  results : gmap addr V;
  r_world : task_world
}.

(** A woken future is polled; when it is ready its value is kept and the future dropped. *)
Definition poll_task (a : addr) (s : runtime) : option runtime :=
  if decide (a ∈ woken s) then
    match poll a a (r_world s) with
    | Done (p, w1) =>
        let evs := news (r_world s) w1 in
        let woken' := woken s ∖ {[a]} ∪ list_to_set (wakes evs) in
        let jobs' := jobs s ++ spawns evs in
        match p with
        | Pending => Some (mkRuntime woken' jobs' (results s) w1)
        | Ready v =>
            match drop_batched_task 1 a w1 with
            | Done (_, w2) => Some (mkRuntime woken' jobs' (<[a := v]> (results s)) w2)
            | _ => None
            end
        end
    | _ => None
    end
  else None.

(** One of the jobs runs to its end. *)
Definition run_job (i : nat) (s : runtime) : option runtime :=
  base ← jobs s !! i;
  match run_handler batch_process (mkPendingAssignment base) (r_world s) with
  | Done (_, w1) =>
      let evs := news (r_world s) w1 in
      Some (mkRuntime (woken s ∪ list_to_set (wakes evs)) (delete i (jobs s) ++ spawns evs)
              (results s) w1)
  | _ => None
  end.

Inductive turn (s s' : runtime) : Prop :=
| turn_poll a : poll_task a s = Some s' → turn s s'
| turn_job i : run_job i s = Some s' → turn s s'.

(** The application drops a future it no longer waits for. *)
Definition abort_task (a : addr) (s : runtime) : option runtime :=
  match drop_batched_task 1 a (r_world s) with
  | Done (_, w1) => Some (mkRuntime (woken s ∖ {[a]}) (jobs s) (results s) w1)
  | _ => None
  end.

Definition unbatched (st : State T V nat) : option T :=
  match st with Unbatched t => Some t | _ => None end.

Lemma size_leaves (m : futures T V nat) a t :
  m !! a = Some (Unbatched t) →
  size (omap unbatched m) = S (size (omap unbatched (delete a m))).
Proof.
  intros Ha. rewrite omap_delete. assert (omap unbatched m !! a = Some t) as Hl
    by (by rewrite lookup_omap, Ha).
  rewrite <- (fin_maps.insert_delete_id _ _ _ Hl) at 1.
  apply map_size_insert_None, fin_maps.lookup_delete_eq.
Qed.

Lemma size_batched (m : futures T V nat) a r :
  omap unbatched (<[a := Batched r]> m) = omap unbatched (delete a m).
Proof. by rewrite omap_insert, omap_delete. Qed.

Lemma poll_task_pending a s w' evs :
  a ∈ woken s → poll a a (r_world s) = Done (Pending, w') → trace w' = trace (r_world s) ++ evs →
  poll_task a s
    = Some (mkRuntime (woken s ∖ {[a]} ∪ list_to_set (wakes evs)) (jobs s ++ spawns evs) (results s) w').
Proof.
  intros Ha Hp Ht. unfold poll_task. rewrite decide_True by done. rewrite Hp.
  by rewrite (news_app _ _ _ Ht).
Qed.
End runtime.

Section invariant.
Context {C : QueueCfg} {HS : SafeCfg} {T V D : Type} `{DequeLaws nat D} `{NeedsDrop T, NeedsDrop V}
  (Q : TaskQueue T V) (f : T → V) `{!Resolves (W := nat) (D := D) Q f}.
Abbreviation rt := (runtime (T := T) (V := V) (D := D)).
Abbreviation task_world := (world (TaskRef T) D (futures T V nat) (event nat (T + V) Z)).
Implicit Types (s : rt) (w : task_world) (tasks : gmap addr T).

Definition parked s : list addr := deque_items (pending (queue (r_world s))).
Abbreviation fut s := (ext (r_world s)).

(** A future for each of [tasks], all to be polled, on an idle queue. *)
Definition runtime_start tasks s : Prop :=
  fut s = Unbatched <$> tasks ∧ woken s = dom tasks ∧ jobs s = [] ∧ results s = ∅
  ∧ parked s = [] ∧ ∃ count phase, idle count phase (queue (r_world s)).

(** Either no batch is live, or one, whose job waits to be run. *)
Inductive serving : Type :=
| Resting (count : Z) (phase : bool)
| Gathering (start : Z) (phase : bool) (es : list (entry T nat)).

Definition entries (l : serving) : list (entry T nat) :=
  match l with Resting _ _ => [] | Gathering _ _ es => es end.

Definition serving_inv (l : serving) s : Prop :=
  match l with
  | Resting count phase => idle count phase (queue (r_world s)) ∧ jobs s = []
      ∧ (parked s ≠ [] → ∃ a t, a ∈ woken s ∧ fut s !! a = Some (Unbatched t))
  | Gathering start phase es =>
      gathering start phase es (r_world s) ∧ jobs s = [slot_word start phase]
  end.

Record runtime_inv tasks (l : serving) s : Prop := {
  ri_queue : serving_inv l s;
  ri_entries : ∀ e, e ∈ entries l →
    e_live e = true ∧ e_waker e = e_addr e ∧ tasks !! e_addr e = Some (e_task e);
  ri_futures : ∀ a st, fut s !! a = Some st → ∃ t, tasks !! a = Some t
    ∧ (st = Unbatched t ∨ (∃ i, st = Batched (mkReceiver i (Some (f t)) a))
       ∨ a ∈ e_addr <$> entries l);
  ri_parked : ∀ a, a ∈ parked s → ∃ t, fut s !! a = Some (Unbatched t);
  ri_nodup : NoDup (parked s);
  ri_woken : ∀ a, a ∈ woken s ↔ is_Some (fut s !! a) ∧ a ∉ parked s ∧ a ∉ e_addr <$> entries l;
  ri_results : ∀ a, results s !! a
    = match fut s !! a with Some _ => None | None => f <$> (tasks !! a) end
}.

(** What every turn decreases. *)
Definition weight s : nat :=
  (2 * size (fut s) + 2 * size (omap unbatched (fut s)) + length (jobs s))%nat.
Definition work_left s : nat := (weight s * weight s + size (woken s))%nat.

Definition good_turn tasks s (next : option rt) : Prop :=
  ∃ s' l', next = Some s' ∧ runtime_inv tasks l' s' ∧ (work_left s' < work_left s)%nat.

Lemma woken_size tasks l s : runtime_inv tasks l s → (size (woken s) ≤ size (fut s))%nat.
Proof.
  intros Hi. rewrite <- (size_dom (D := gset addr)). apply subseteq_size. intros a Ha.
  apply elem_of_dom. by apply (ri_woken _ _ _ Hi).
Qed.

Lemma less_work tasks l' s s' :
  runtime_inv tasks l' s' → (weight s' < weight s)%nat → (work_left s' < work_left s)%nat.
Proof.
  intros Hi Hw. pose proof (woken_size _ _ _ Hi). unfold work_left.
  assert (size (fut s') ≤ weight s')%nat by (unfold weight; lia). nia.
Qed.

(** The entries of the open batch are futures that wait for a value. *)
Lemma entry_future start phase es w e :
  gathering start phase es w → e ∈ es → e_live e = true →
  ∃ i, ext w !! e_addr e = Some (Batched (mkReceiver i None (e_waker e))).
Proof.
  intros (_ & [_ Hu] & _) [k Hk]%list_elem_of_lookup Hl. exists (batch_cell start k).
  by apply (Hu k e Hk).
Qed.

Lemma entry_in_fut tasks l s a :
  runtime_inv tasks l s → a ∈ e_addr <$> entries l → ∃ i wk, fut s !! a = Some (Batched (mkReceiver i None wk)).
Proof.
  intros [Hq He _ _ _ _ _] (e & -> & Hin)%list_elem_of_fmap. destruct l as [|start phase es]; [by apply elem_of_nil in Hin|].
  destruct (He e Hin) as (Hl & _). destruct Hq as [Hg _].
  destruct (entry_future _ _ _ _ e Hg Hin Hl) as [i Hi]. eauto.
Qed.

(** A woken future still has its task or has its value. *)
Lemma woken_future tasks l s a :
  runtime_inv tasks l s → a ∈ woken s →
  ∃ t, tasks !! a = Some t ∧ a ∉ parked s ∧ a ∉ e_addr <$> entries l
    ∧ (fut s !! a = Some (Unbatched t) ∨ ∃ i, fut s !! a = Some (Batched (mkReceiver i (Some (f t)) a))).
Proof.
  intros Hi ([st Hst] & Hp & He)%(ri_woken _ _ _ Hi).
  destruct (ri_futures _ _ _ Hi a st Hst) as (t & Ht & [->|[[i ->]|Hin]]); [..|done];
    exists t; eauto 6.
Qed.

(** A queue as it was, with other futures changed. *)
Lemma gathering_frame start phase es w w' :
  gathering start phase es w → queue w' = queue w →
  (∀ e, e ∈ es → ext w' !! e_addr e = ext w !! e_addr e) → gathering start phase es w'.
Proof.
  intros (Ho & [Hl Hu] & Hrest) Hq Hx. rewrite <- Hq in Ho. split; [done|]. split; [|done].
  split; [done|]. intros k e Hk. destruct (Hu k e Hk) as [Hc Hr]. split; [by rewrite Hq|].
  rewrite Hx; [done|]. by eapply list_elem_of_lookup_2.
Qed.

(** A future's task moves into the batch. *)
Lemma task_batched tasks l l' s s' a t r :
  runtime_inv tasks l s → a ∈ woken s → fut s !! a = Some (Unbatched t) →
  serving_inv l' s' → entries l' = entries l ++ [mkEntry t a a true] →
  fut s' = <[a := Batched r]> (fut s) → parked s' = parked s → woken s' = woken s ∖ {[a]} ∪ ∅ →
  results s' = results s → (length (jobs s') ≤ S (length (jobs s)))%nat →
  runtime_inv tasks l' s' ∧ (work_left s' < work_left s)%nat.
Proof.
  intros Hi Ha Hf Hq He Hx Hpk' Hw Hr Hj.
  destruct (woken_future _ _ _ _ Hi Ha) as (t' & Htask & Hnp & Hne & Hcase).
  assert (t' = t) as -> by (destruct Hcase as [|[i ?]]; congruence). clear Hcase.
  assert (e_addr <$> entries l' = (e_addr <$> entries l) ++ [a]) as Hea by by rewrite He, fmap_app.
  pose proof Hi as [_ Hen Hfut Hpk Hnd Hwk Hres].
  assert (∀ b, b ≠ a → fut s' !! b = fut s !! b) as Hother
    by (intros b Hb; rewrite Hx; by apply fin_maps.lookup_insert_ne).
  assert (fut s' !! a = Some (Batched r)) as Hsame by (rewrite Hx; apply fin_maps.lookup_insert_eq).
  assert (runtime_inv tasks l' s') as Hi'.
  { split; rewrite ?Hpk', ?Hea; [done| | | |done| |].
    - intros e. rewrite He. intros [Hin| ->%list_elem_of_singleton]%elem_of_app; [by apply Hen|done].
    - intros b st Hb. destruct (decide (b = a)) as [->|Hba]; [exists t; set_solver|].
      rewrite (Hother b Hba) in Hb. destruct (Hfut b st Hb) as (u & Hu & [?|[?|?]]); exists u; set_solver.
    - intros b Hb. rewrite (Hother b) by congruence. by apply Hpk.
    - intros b. rewrite Hw. destruct (decide (b = a)) as [->|Hba]; [set_solver|].
      rewrite (Hother b Hba). pose proof (Hwk b). set_solver.
    - intros b. rewrite Hr. destruct (decide (b = a)) as [->|Hba].
      + by rewrite Hsame, Hres, Hf.
      + by rewrite (Hother b Hba). }
  split; [exact Hi'|]. apply (less_work tasks _ _ _ Hi'). unfold weight.
  rewrite Hx, size_batched, map_size_insert_Some, (size_leaves _ _ _ Hf) by (by rewrite Hf). lia.
Qed.

Lemma turn_begins tasks count phase s a t :
  runtime_inv tasks (Resting count phase) s → a ∈ woken s → fut s !! a = Some (Unbatched t) →
  good_turn tasks s (poll_task a s).
Proof.
  intros Hi Ha Hf. pose proof Hi as [(Hidle & Hj & _) _ _ _ _ _ _].
  destruct (poll_begins count phase a t a (r_world s) Hidle Hf) as (w' & Hp & Hg & Ht & Hx & Hpe).
  pose proof (poll_task_pending a s w' _ Ha Hp Ht) as Hrun. rewrite Hj in Hrun. cbn in Hrun.
  eexists _, (Gathering count phase [mkEntry t a a true]). split; [exact Hrun|].
  eapply task_batched; [exact Hi|exact Ha|exact Hf|by split|done|exact Hx| |done|done|simpl; lia].
  unfold parked. simpl. by rewrite Hpe.
Qed.

Lemma turn_joins tasks start phase es s a t :
  runtime_inv tasks (Gathering start phase es) s → a ∈ woken s → fut s !! a = Some (Unbatched t) →
  start + Z.of_nat (length es) < region_floor start + N → good_turn tasks s (poll_task a s).
Proof.
  intros Hi Ha Hf Hroom. pose proof Hi as [(Hg & Hj) _ _ _ _ _ _].
  destruct (poll_joins start phase es a t a (r_world s) Hg Hf Hroom) as (w' & Hp & Hg' & Ht & Hx & Hpe).
  rewrite <- (app_nil_r (trace (r_world s))) in Ht.
  pose proof (poll_task_pending a s w' _ Ha Hp Ht) as Hrun. cbn in Hrun.
  eexists _, (Gathering start phase (es ++ [mkEntry t a a true])). split; [exact Hrun|].
  eapply task_batched; [exact Hi|exact Ha|exact Hf| |done|exact Hx| |done|done| ].
  - split; [done|]. simpl. by rewrite app_nil_r.
  - unfold parked. simpl. by rewrite Hpe.
  - simpl. rewrite app_nil_r. lia.
Qed.

Lemma turn_refused tasks start phase es s a t :
  runtime_inv tasks (Gathering start phase es) s → a ∈ woken s → fut s !! a = Some (Unbatched t) →
  start + Z.of_nat (length es) = region_floor start + N → good_turn tasks s (poll_task a s).
Proof.
  intros Hi Ha Hf Hfull. pose proof Hi as [(Hg & Hj) Hen Hfut Hpk Hnd Hwk Hres].
  destruct (poll_refused start phase es a t a (r_world s) Hg Hf Hfull) as (w' & Hp & Hg' & Ht & Hx & Hpe).
  rewrite <- (app_nil_r (trace (r_world s))) in Ht.
  pose proof (poll_task_pending a s w' _ Ha Hp Ht) as Hrun. cbn in Hrun. rewrite app_nil_r in Hrun.
  set (s' := mkRuntime _ _ _ _) in Hrun. exists s', (Gathering start phase es). split; [exact Hrun|].
  assert (parked s' = parked s ++ [a]) as Hpk' by exact Hpe.
  destruct (proj1 (Hwk a) Ha) as (_ & Hnp & _).
  assert (runtime_inv tasks (Gathering start phase es) s') as Hi'.
  { split; rewrite ?Hpk'; simpl; rewrite ?Hx; [by split|done|done| | | |done].
    - intros b [Hin| ->%list_elem_of_singleton]%elem_of_app; [by apply Hpk|by exists t].
    - apply NoDup_app. split_and!; [done| |apply NoDup_singleton].
      by intros x Hin ->%list_elem_of_singleton.
    - intros b. pose proof (Hwk b) as Hb. simpl in Hb. set_solver. }
  split; [exact Hi'|]. unfold work_left, weight. simpl. rewrite Hx, (right_id_L ∅ (∪)).
  rewrite size_difference by set_solver. rewrite size_singleton.
  assert (size (woken s) ≠ 0)%nat; [|lia]. intros Hz%size_empty_inv. set_solver.
Qed.

Lemma turn_returns tasks l s a t i :
  runtime_inv tasks l s → a ∈ woken s →
  fut s !! a = Some (Batched (mkReceiver i (Some (f t)) a)) → good_turn tasks s (poll_task a s).
Proof.
  intros Hi Ha Hf. destruct (woken_future _ _ _ _ Hi Ha) as (t' & Htask & Hnp & Hne & Hcase).
  assert (f t' = f t) as Hft by (destruct Hcase as [|[j ?]]; congruence). clear Hcase.
  pose proof Hi as [Hq Hen Hfut Hpk Hnd Hwk Hres].
  pose proof (poll_value a _ _ a (r_world s) Hf eq_refl) as Hp.
  set (w1 := set_ext _ _) in Hp.
  pose proof (drop_received_run a w1 (fin_maps.lookup_insert_eq _ _ _)) as Hd.
  assert (poll_task a s = Some (mkRuntime (woken s ∖ {[a]} ∪ ∅) (jobs s ++ []) (<[a := f t]> (results s))
    (set_ext (delete a (ext w1)) w1))) as Hrun.
  { unfold poll_task. rewrite decide_True by done. rewrite Hp.
    by rewrite (news_app (r_world s) w1 [] (eq_sym (app_nil_r _))), Hd. }
  rewrite app_nil_r, (right_id_L ∅ (∪)) in Hrun. set (s' := mkRuntime _ _ _ _) in Hrun.
  exists s', l. split; [exact Hrun|].
  assert (fut s' = delete a (fut s)) as Hx by apply fin_maps.delete_insert_eq.
  assert (∀ b, b ≠ a → fut s' !! b = fut s !! b) as Hother
    by (intros b Hb; rewrite Hx; by apply fin_maps.lookup_delete_ne).
  assert (fut s' !! a = None) as Hgone by (rewrite Hx; apply fin_maps.lookup_delete_eq).
  assert (runtime_inv tasks l s') as Hi'.
  { split; [ |done| | |done| |].
    - destruct l as [count phase|start phase es]; cbn [serving_inv] in Hq |- *.
      + destruct Hq as (Hidle & Hj & Hp'). split; [done|]. split; [done|].
        intros (b & u & Hb & Hbu)%Hp'. assert (b ≠ a) by congruence.
        exists b, u. split; [simpl; set_solver|]. by rewrite (Hother b).
      + destruct Hq as [Hg Hj]. split; [|done]. eapply gathering_frame; [exact Hg|done|].
        intros e He. apply (Hother (e_addr e)). intros <-. apply Hne. by apply list_elem_of_fmap_2.
    - intros b st Hb. assert (b ≠ a) as Hba by congruence. rewrite (Hother b Hba) in Hb. by apply Hfut.
    - intros b Hb. change (b ∈ parked s) in Hb. assert (b ≠ a) as Hba by congruence.
      rewrite (Hother b Hba). by apply Hpk.
    - intros b. simpl. destruct (decide (b = a)) as [->|Hba].
      + simpl in Hgone. rewrite Hgone. split; [set_solver|by intros [[? [=]] _]].
      + pose proof (Hwk b) as Hb. rewrite <- (Hother b Hba) in Hb. set_solver.
    - intros b. destruct (decide (b = a)) as [->|Hba].
      + rewrite Hgone. simpl. rewrite fin_maps.lookup_insert_eq, Htask. simpl. by rewrite Hft.
      + rewrite (Hother b Hba). simpl. by rewrite fin_maps.lookup_insert_ne. }
  split; [exact Hi'|]. apply (less_work tasks _ _ _ Hi'). unfold weight. rewrite Hx.
  assert (omap unbatched (delete a (fut s)) = omap unbatched (fut s)) as ->.
  { rewrite omap_delete. apply fin_maps.delete_id. by rewrite lookup_omap, Hf. }
  assert (size (fut s) ≠ 0)%nat by (intros Hz%map_size_empty_inv; by rewrite Hz in Hf).
  rewrite map_size_delete, Hf. simpl. lia.
Qed.

Lemma live_wakers_all (es : list (entry T nat)) :
  (∀ e, e ∈ es → e_live e = true ∧ e_waker e = e_addr e) →
  live_wakers es = e_addr <$> es.
Proof.
  unfold live_wakers. induction es as [|e es IH]; intros He; [done|].
  destruct (He e) as [Hl Hw]; [set_solver|]. rewrite filter_cons_True by done.
  rewrite !fmap_cons, Hw, IH by set_solver. done.
Qed.

(** What the job of the batch does to the futures. *)
Lemma job_futures tasks start phase es s w' :
  runtime_inv tasks (Gathering start phase es) s →
  (∀ k e, es !! k = Some e → e_live e = true →
     ext w' !! e_addr e = Some (Batched (mkReceiver (batch_cell start k) (Some (f (e_task e))) (e_waker e)))) →
  (∀ a, (∀ e, e ∈ es → e_live e = true → e_addr e ≠ a) → ext w' !! a = fut s !! a) →
  (∀ a, a ∉ e_addr <$> es → ext w' !! a = fut s !! a)
  ∧ (∀ a, a ∈ e_addr <$> es → ∃ t i, tasks !! a = Some t
       ∧ ext w' !! a = Some (Batched (mkReceiver i (Some (f t)) a)))
  ∧ size (ext w') = size (fut s) ∧ omap unbatched (ext w') = omap unbatched (fut s).
Proof.
  intros Hi Hv Hx. assert (∀ a, a ∈ e_addr <$> es → ∃ i wk, fut s !! a = Some (Batched (mkReceiver i None wk))) as Hin
    by (intros a; apply (entry_in_fut _ _ _ _ Hi)).
  pose proof (ri_entries _ _ _ Hi) as Hen. simpl in Hen, Hin.
  assert (∀ a, a ∉ e_addr <$> es → ext w' !! a = fut s !! a) as H1'.
  { intros a Ha. apply Hx. intros e He _ <-. apply Ha. by apply list_elem_of_fmap_2. }
  assert (∀ a, a ∈ e_addr <$> es → ∃ t i, tasks !! a = Some t
    ∧ ext w' !! a = Some (Batched (mkReceiver i (Some (f t)) a))) as H2'.
  { intros a (e & -> & He)%list_elem_of_fmap. destruct (Hen e He) as (Hl & Hw & Ht).
    apply list_elem_of_lookup in He as [k Hk]. pose proof (Hv k e Hk Hl) as Hval. rewrite Hw in Hval. eauto. }
  split; [done|]. split; [done|]. split.
  - rewrite <- !(size_dom (D := gset addr)). f_equal. apply set_eq. intros a. rewrite !elem_of_dom.
    destruct (decide (a ∈ e_addr <$> es)) as [Ha|Ha]; [|by rewrite H1'].
    destruct (H2' a Ha) as (t & i & _ & ->). destruct (Hin a Ha) as (j & wk & ->).
    split; by eexists.
  - apply fin_maps.map_eq. intros a. rewrite !lookup_omap.
    destruct (decide (a ∈ e_addr <$> es)) as [Ha|Ha]; [|by rewrite H1'].
    destruct (H2' a Ha) as (t & i & _ & ->). by destruct (Hin a Ha) as (j & wk & ->).
Qed.

Lemma turn_runs_job tasks start phase es s :
  runtime_inv tasks (Gathering start phase es) s → good_turn tasks s (run_job 0 s).
Proof.
  intros Hi. pose proof Hi as [[Hg Hj] Hen Hfut Hpk Hnd Hwk Hres].
  destruct (process_alone Q f start phase phase es (r_world s) Hg)
    as (w' & evs & ws & Hrun & Hidle & Ht & Hw & Hsp & Hws & Hsplit & Hv & Hx).
  destruct (job_futures tasks start phase es s w' Hi Hv Hx) as (Hout & Hin & Hsize & Homap).
  rewrite live_wakers_all in Hw by (intros e He; by destruct (Hen e He) as (? & ? & _)).
  set (s' := mkRuntime (woken s ∪ list_to_set (wakes evs)) [] (results s) w').
  exists s', (Resting (start + Z.of_nat (length es)) (negb phase)). split.
  { unfold run_job. rewrite Hj. simpl. rewrite Hrun, (news_app _ _ _ Ht), Hsp. done. }
  fold (parked s) in Hsplit, Hws. change (deque_items (pending (queue w'))) with (parked s') in Hsplit.
  pose proof Hnd as Hnd'. rewrite Hsplit in Hnd'. apply NoDup_app in Hnd' as (_ & Hdis & Hnd2).
  assert (∀ b, b ∈ parked s → b ∉ e_addr <$> es ∧ fut s' !! b = fut s !! b) as Hparked.
  { intros b Hb. assert (b ∉ e_addr <$> es) as Hn.
    { intros Hbe. destruct (entry_in_fut _ _ _ _ Hi Hbe) as (j & wk & Hbf).
      destruct (Hpk b Hb) as [t Ht']. congruence. }
    split; [done|]. by apply Hout. }
  assert (runtime_inv tasks (Resting (start + Z.of_nat (length es)) (negb phase)) s') as Hi'.
  { split; [split; [exact Hidle|split; [done|]]| | | |exact Hnd2| |].
    - intros Hleft. assert (parked s ≠ []) as Hpn by (rewrite Hsplit; by destruct ws).
      pose proof region_size_le. destruct ws as [|b ws'].
      { apply (f_equal length) in Hws. rewrite length_take in Hws. destruct (parked s); [done|].
        simpl in Hws. lia. }
      assert (b ∈ parked s) as Hb by (rewrite Hsplit; set_solver). destruct (Hpk b Hb) as [t Hbt].
      exists b, t. split; [|by rewrite (proj2 (Hparked b Hb))].
      simpl. rewrite Hw. set_solver.
    - by intros e ?%not_elem_of_nil.
    - intros b st Hb. destruct (decide (b ∈ e_addr <$> es)) as [Hbe|Hbe].
      + destruct (Hin b Hbe) as (t & i & Htk & Hbt). simpl in Hb. rewrite Hbt in Hb. injection Hb as <-.
        eauto 6.
      + simpl in Hb. rewrite Hout in Hb by done. destruct (Hfut b st Hb) as (t & Htk & [?|[?|?]]); eauto 6.
        done.
    - intros b Hb. assert (b ∈ parked s) as Hb' by (rewrite Hsplit; set_solver).
      rewrite (proj2 (Hparked b Hb')). by apply Hpk.
    - intros b. simpl. rewrite elem_of_union, elem_of_list_to_set, Hw, elem_of_app, Hwk.
      rewrite Hsplit at 1. rewrite elem_of_app. simpl.
      destruct (decide (b ∈ e_addr <$> es)) as [Hbe|Hbe].
      + destruct (Hin b Hbe) as (t & i & _ & ->). split; [|by auto].
        intros _. split; [by eexists|]. split; [|apply not_elem_of_nil].
        intros Hbp. apply (proj1 (Hparked b ltac:(rewrite Hsplit; set_solver))). done.
      + rewrite (Hout b Hbe). destruct (decide (b ∈ ws)) as [Hbw|Hbw].
        * assert (b ∈ parked s) as Hbp by (rewrite Hsplit; set_solver).
          destruct (Hpk b Hbp) as [t ->]. split; [|by auto]. intros _.
          split; [by eexists|]. split; [by apply Hdis|apply not_elem_of_nil].
        * pose proof (not_elem_of_nil b). tauto.
    - intros b. simpl. rewrite Hres. destruct (decide (b ∈ e_addr <$> es)) as [Hbe|Hbe].
      + destruct (Hin b Hbe) as (t & i & _ & ->). by destruct (entry_in_fut _ _ _ _ Hi Hbe) as (j & wk & ->).
      + by rewrite (Hout b Hbe). }
  split; [exact Hi'|]. apply (less_work tasks _ _ _ Hi'). unfold weight. simpl.
  rewrite Hsize, Homap, Hj. simpl. lia.
Qed.

Lemma poll_task_woken a s s' : poll_task a s = Some s' → a ∈ woken s.
Proof. unfold poll_task. by destruct (decide (a ∈ woken s)). Qed.

Lemma every_poll_good tasks l s a :
  runtime_inv tasks l s → a ∈ woken s → good_turn tasks s (poll_task a s).
Proof.
  intros Hi Ha. destruct (woken_future _ _ _ _ Hi Ha) as (t & _ & _ & _ & [Hf|[i Hf]]);
    [|by eapply turn_returns].
  destruct l as [count phase|start phase es]; [by eapply turn_begins|].
  pose proof (proj1 (ri_queue _ _ _ Hi)) as (_ & _ & _ & Hroom).
  destruct (decide (start + Z.of_nat (length es) = region_floor start + N));
    [by eapply turn_refused|eapply turn_joins; [exact Hi|exact Ha|exact Hf|lia]].
Qed.

Lemma every_job_good tasks l s i :
  runtime_inv tasks l s → (i < length (jobs s))%nat → good_turn tasks s (run_job i s).
Proof.
  intros Hi Hl. destruct l as [count phase|start phase es].
  - destruct (ri_queue _ _ _ Hi) as (_ & Hj & _). rewrite Hj in Hl. simpl in Hl. lia.
  - destruct (ri_queue _ _ _ Hi) as (_ & Hj). rewrite Hj in Hl. simpl in Hl.
    assert (i = 0)%nat as -> by lia. by eapply turn_runs_job.
Qed.

Lemma every_turn_good tasks l s s' :
  runtime_inv tasks l s → turn s s' →
  ∃ l', runtime_inv tasks l' s' ∧ (work_left s' < work_left s)%nat.
Proof.
  intros Hi [a Ht|i Ht].
  - destruct (every_poll_good _ _ _ a Hi (poll_task_woken _ _ _ Ht)) as (s1 & l' & Hs & Hi' & Hw).
    assert (s1 = s') as -> by congruence. eauto.
  - assert (i < length (jobs s))%nat as Hl.
    { unfold run_job in Ht. destruct (jobs s !! i) eqn:E; [|done]. by eapply lookup_lt_Some. }
    destruct (every_job_good _ _ _ i Hi Hl) as (s1 & l' & Hs & Hi' & Hw).
    assert (s1 = s') as -> by congruence. eauto.
Qed.

Lemma start_inv tasks s : runtime_start tasks s → ∃ l, runtime_inv tasks l s.
Proof.
  intros (Hx & Hw & Hj & Hr & Hpk & count & phase & Hidle). exists (Resting count phase).
  split; rewrite ?Hpk.
  - split; [done|]. split; [done|]. by rewrite Hpk.
  - by intros e ?%not_elem_of_nil.
  - intros a st. rewrite Hx, lookup_fmap. intros (t & -> & Ht)%fmap_Some. eauto.
  - by intros a ?%not_elem_of_nil.
  - by apply NoDup_nil.
  - intros a. rewrite Hw, Hx, elem_of_dom, lookup_fmap. simpl.
    pose proof (not_elem_of_nil a). rewrite fmap_is_Some. tauto.
  - intros a. rewrite Hr, Hx, !lookup_fmap, fin_maps.lookup_empty. by destruct (tasks !! a).
Qed.

(** Nothing is left to do only when every future returned its value. *)
Lemma rest_at_end tasks l s :
  runtime_inv tasks l s → woken s = ∅ → jobs s = [] → fut s = ∅ ∧ results s = f <$> tasks.
Proof.
  intros Hi Hw Hj. destruct l as [count phase|start phase es].
  2:{ destruct (ri_queue _ _ _ Hi) as [_ Hj']. by rewrite Hj in Hj'. }
  destruct (ri_queue _ _ _ Hi) as (_ & _ & Hp).
  assert (parked s = []) as Hpk.
  { destruct (parked s); [done|]. destruct Hp as (a & t & Ha & _); [done|]. set_solver. }
  assert (fut s = ∅) as He.
  { apply map_empty. intros a. destruct (fut s !! a) eqn:E; [|done].
    assert (a ∈ woken s) as Ha; [|set_solver]. apply (ri_woken _ _ _ Hi). rewrite E, Hpk.
    split; [by eexists|]. split; apply not_elem_of_nil. }
  split; [done|]. apply fin_maps.map_eq. intros a.
  by rewrite (ri_results _ _ _ Hi), He, fin_maps.lookup_empty, lookup_fmap.
Qed.

(** What holds of every run. *)
Lemma runtime_finishes tasks s0 s :
  runtime_start tasks s0 → rtc turn s0 s →
  sn turn s
  ∧ (∀ a, a ∈ woken s → is_Some (poll_task a s))
  ∧ (∀ i, (i < length (jobs s))%nat → is_Some (run_job i s))
  ∧ (nf turn s → ext (r_world s) = ∅ ∧ results s = f <$> tasks).
Proof.
  intros Hstart Hr. assert (∃ l, runtime_inv tasks l s) as [l Hi].
  { refine (rtc_invariant turn (λ s, ∃ l, runtime_inv tasks l s) s0 s _ (start_inv _ _ Hstart) Hr).
    intros s1 s2 Ht [l Hi]. destruct (every_turn_good _ _ _ _ Hi Ht) as (l' & Hi' & _). by exists l'. }
  assert (∀ a, a ∈ woken s → is_Some (poll_task a s)) as Hpoll.
  { intros a Ha. destruct (every_poll_good _ _ _ a Hi Ha) as (s' & _ & Hs & _). by exists s'. }
  assert (∀ i, (i < length (jobs s))%nat → is_Some (run_job i s)) as Hjob.
  { intros i Hl. destruct (every_job_good _ _ _ i Hi Hl) as (s' & _ & Hs & _). by exists s'. }
  split; [|split; [done|split; [done|]]].
  - apply (sn_by_measure turn (λ n s, ∃ l, runtime_inv tasks l s ∧ work_left s = n)) with (work_left s);
      [|by exists l].
    intros n s1 s2 (l1 & Hi1 & <-) Ht.
    destruct (every_turn_good _ _ _ _ Hi1 Ht) as (l' & Hi' & Hw). by eauto.
  - intros Hnf. apply (rest_at_end tasks l); [done| |].
    + apply elem_of_equiv_empty_L. intros a Ha. apply Hnf. destruct (Hpoll a Ha) as [s' Hs].
      exists s'. by apply (turn_poll _ _ a).
    + destruct (jobs s) eqn:Hj; [done|]. destruct Hnf. destruct (Hjob 0%nat) as [s' Hs]; [simpl; lia|].
      exists s'. by apply (turn_job _ _ 0).
Qed.
End invariant.

(** C4. Any number of tasks awaited concurrently on one executor thread, over any lawful
    [TaskQueue], all get their own result. Whatever woken future or spawned job the
    executor chooses to run next, the turn returns without undefined behaviour, no run goes
    on for ever, and a run can only end when every future has returned the value computed
    from its own task: no wake-up is lost, although a full queue parks any number of
    futures and each release wakes at most one region's worth of them. *)
Theorem it_process_tasks {C : QueueCfg} {HS : SafeCfg} {T V D : Type} `{DequeLaws nat D}
  `{NeedsDrop T, NeedsDrop V} (Q : TaskQueue T V) (f : T → V)
  `{!Resolves (W := nat) (D := D) Q f} (tasks : gmap addr T) (s0 s : runtime (T := T) (V := V) (D := D)) :
  runtime_start tasks s0 → rtc turn s0 s →
  sn turn s
  ∧ (∀ a, a ∈ woken s → is_Some (poll_task a s))
  ∧ (∀ i, (i < length (jobs s))%nat → is_Some (run_job i s))
  ∧ (nf turn s → ext (r_world s) = ∅ ∧ results s = f <$> tasks).
Proof. apply (runtime_finishes Q f). Qed.

(** * Concrete runs: seventy-three tasks for a queue of 64 cells *)
#[local] Instance plain_usize : NeedsDrop Z := false.

Definition EchoQueue : TaskQueue Z Z := IntoAssignment (MapTasks id).
Abbreviation demo_runtime := (runtime (T := Z) (V := Z) (D := list_deque nat)).

Lemma echo_resolves : Resolves (C := cfg) (W := nat) (D := list_deque nat) EchoQueue id.
Proof. by apply (handler_resolves (C := cfg) (HV := safe_valid (SafeCfg := safe_cfg_64))). Defined.

Definition demo_tasks (n : nat) : gmap addr Z := map_seq 0 (Z.of_nat <$> seq 0 n).
Definition demo_start (n : nat) : demo_runtime :=
  let tasks := demo_tasks n in
  mkRuntime (dom tasks) [] ∅ (mkWorld (@new_queue cfg _ _ _ _ new_uninit) (Unbatched <$> tasks) []).

(** [None]: the only job; [Some a]: the future at [a]. *)
Fixpoint run_turns (choices : list (option addr)) (s : demo_runtime) : option demo_runtime :=
  match choices with
  | [] => Some s
  | c :: choices =>
      s' ← match c with
           | Some a => poll_task (C := cfg) a s
           | None => run_job (C := cfg) (Q := EchoQueue) 0 s
           end;
      run_turns choices s'
  end.

Lemma run_turns_turn choices s s' :
  run_turns choices s = Some s' → rtc (turn (C := cfg) (Q := EchoQueue)) s s'.
Proof.
  revert s. induction choices as [|c choices IH]; intros s; simpl; [by intros [= ->]|].
  destruct c as [a|].
  - destruct (poll_task a s) as [s1|] eqn:E; [|done]. simpl. intros Hr.
    apply rtc_l with s1; [by apply (turn_poll _ _ a)|by apply IH].
  - destruct (run_job 0 s) as [s1|] eqn:E; [|done]. simpl. intros Hr.
    apply rtc_l with s1; [by apply (turn_job _ _ 0)|by apply IH].
Qed.

Definition demo_choices : list (option addr) := (Some <$> seq 0 73) ++ [None; Some 5%nat].

Lemma it_process_tasks_witness : ∃ s,
  run_turns demo_choices (demo_start 73) = Some s ∧ results s = {[5%nat := 5]}
  ∧ sn (turn (C := cfg) (Q := EchoQueue)) s
  ∧ (∀ a, a ∈ woken s → is_Some (poll_task (C := cfg) a s))
  ∧ (∀ i, (i < length (jobs s))%nat → is_Some (run_job (C := cfg) (Q := EchoQueue) i s))
  ∧ (nf (turn (C := cfg) (Q := EchoQueue)) s →
      ext (r_world s) = ∅ ∧ results s = id <$> demo_tasks 73).
Proof.
  eexists. split; [vm_compute; reflexivity|]. split; [by vm_compute|].
  refine (it_process_tasks (C := cfg) (HS := safe_cfg_64) EchoQueue id (Resolves0 := echo_resolves)
    (demo_tasks 73) (demo_start 73) _ _ _).
  - split_and!; [done..|]. by exists 0, false; repeat split.
  - apply (run_turns_turn demo_choices). by vm_compute.
Defined.

(** ** Futures that go while they are parked *)
Definition abort_all (l : list addr) (s : demo_runtime) : option demo_runtime :=
  foldl (λ s a, s ≫= abort_task a) (Some s) l.

(** The batch fills the queue; nine futures are refused; the eight oldest of them are dropped;
    the batch is processed and its futures return. *)
Definition abandoned : option demo_runtime :=
  s1 ← run_turns (Some <$> seq 0 73) (demo_start 73);
  s2 ← abort_all (seq 64 8) s1;
  run_turns (None :: (Some <$> seq 0 64)) s2.

(** C40. Futures dropped while they are parked leave their wakers behind, and these use up the
    wake-ups of a release: with eight of nine refused futures gone, the release of the last
    batch wakes the dead eight; the ninth stays parked on an empty queue, nothing is left
    that could run, and its task is never processed. *)
Theorem aborted_futures_strand_the_next :
  ∃ s, abandoned = Some s ∧ nf (turn (C := cfg) (Q := EchoQueue)) s
    ∧ ext (r_world s) = {[72%nat := Unbatched 72]}
    ∧ deque_items (pending (queue (r_world s))) = [72%nat]
    ∧ occupancy (inner (queue (r_world s))) = 0 ∧ size (results s) = 64%nat.
Proof.
  destruct abandoned as [s|] eqn:E; [|by vm_compute in E]. exists s. split; [done|].
  assert (ext (r_world s) = {[72%nat := Unbatched 72]} ∧ jobs s = []
    ∧ deque_items (pending (queue (r_world s))) = [72%nat] ∧ woken s = list_to_set (seq 64 8)
    ∧ occupancy (inner (queue (r_world s))) = 0 ∧ size (results s) = 64%nat) as Hs.
  { vm_compute in E. injection E as <-. by split_and!; vm_compute. }
  clear E. destruct Hs as (Hx & Hj & Hp & Hw & Ho & Hr). split; [|done].
  intros [s' [a Ht|i Ht]].
  - unfold poll_task in Ht. destruct (decide (a ∈ woken s)) as [Ha|]; [|done].
    assert (ext (r_world s) !! a = None) as Hn.
    { rewrite Hx. apply fin_maps.lookup_singleton_ne. intros <-. rewrite Hw in Ha.
      apply elem_of_list_to_set, list_elem_of_In in Ha. simpl in Ha. lia. }
    unfold poll, deref, mbind, M_bind, gets in Ht. by rewrite Hn in Ht.
  - unfold run_job in Ht. by rewrite Hj in Ht.
Qed.
