(* ===== verification/Bench.v ===== *)
(** The benchmarks of the crate ([crates/bencher/src/stack_queue.rs]) as programs over the
    model: the queues they declare, and what the loops they measure add up.

    A reading of the clock is an argument, in nanoseconds; the criterion harness around the
    loops is left out. [bench_tasks] awaits one task at a time, on an executor that has
    nothing else to do ([Clients.await_alone]); the round of the [BackgroundQueue] runs on
    the executor of [Background]. *)
From S2P Require Import Prelude Usize Helpers Occupancy Deque Queue Ranges Consumption Protocol Exclusion Safety TaskRef Assignment Resolution Delivery Futures Traits Tasks Clients.
From S2P Require Gather Wakeups Producer Collectors Background Runtime.
Local Open Scope Z_scope.

(** * The clock *)

(** [Duration::MAX], in nanoseconds: 64 bits of seconds and the nanoseconds below one more. *)
Definition duration_max : Z := (2 ^ 64 - 1) * 10 ^ 9 + (10 ^ 9 - 1).

(** [Instant::duration_since] and [Instant::elapsed], which is zero when the clock went back. *)
Definition duration_since (later earlier : Z) : Z := Z.max 0 (later - earlier).

(** [Duration::saturating_add] *)
Definition saturating_add (a b : Z) : Z := Z.min duration_max (a + b).

Definition total_of (l : list Z) : Z := foldr Z.add 0 l.

Lemma total_nonneg l : Forall (Z.le 0) l → 0 ≤ total_of l.
Proof. induction 1 as [|x l Hx _ IH]; simpl; lia. Qed.

(** * One task at a time *)

(** [iter::repeat], of which [resolve_with_iter] takes one value per task. *)
Definition repeat_for {T V : Type} (v : V) (ts : list T) : list V := replicate (length ts) v.

Definition AssignmentTimeQueue (start stop : Z) : TaskQueue unit Z :=
  IntoAssignment (ResolveWithIter (repeat_for (duration_since stop start))).

Definition EnqueueTimeQueue (batched_at : Z) : TaskQueue Z Z :=
  IntoAssignment (MapTasks (λ enqueued_at, duration_since batched_at enqueued_at)).

Definition ReceiveTimeQueue (batched_at : Z) : TaskQueue unit Z :=
  IntoAssignment (ResolveWithIter (repeat_for batched_at)).

(** [let mut total = Duration::from_secs(0); for _i in 0..iters { total = .. }] *)
Fixpoint measured {S A : Type} (round : A → M S Z) (rounds : list A) (total : Z) : M S Z :=
  match rounds with
  | [] => mret total
  | r :: rounds => d ← round r; measured round rounds (saturating_add total d)
  end.

Section rounds.
Context {C : QueueCfg} {W D : Type} `{Deque W D} `{NeedsDrop unit, NeedsDrop Z}.
(** Where the future of a round is, and its waker. *)
Context (a : addr) (cx : W).

(** A future that is still pending would be awaited for ever. *)
Definition finished {S V : Type} (r : Poll V) : M S V :=
  match r with Ready v => mret v | Pending => out_of_fuel end.

(** [EnqueueTimeQueue::auto_batch(Instant::now()).await] *)
Definition enqueue_round (r : Z * Z)
  : M (world (TaskRef Z) D (futures Z Z W) (event W (Z + Z) Z)) Z :=
  let '(now, batched_at) := r in
  p ← await_alone (H2 := EnqueueTimeQueue batched_at) a cx now; finished p.

(** [AssignmentTimeQueue::auto_batch(()).await] *)
Definition into_assignment_round (r : Z * Z)
  : M (world (TaskRef unit) D (futures unit Z W) (event W (unit + Z) Z)) Z :=
  let '(start, stop) := r in
  p ← await_alone (H2 := AssignmentTimeQueue start stop) a cx (); finished p.

(** [ReceiveTimeQueue::auto_batch(()).await.elapsed()] *)
Definition receive_round (r : Z * Z)
  : M (world (TaskRef unit) D (futures unit Z W) (event W (unit + Z) Z)) Z :=
  let '(batched_at, now) := r in
  p ← await_alone (H2 := ReceiveTimeQueue batched_at) a cx ();
  batched_at ← finished p; mret (duration_since now batched_at).
End rounds.

Section measuring.
Context {C : QueueCfg} {HS : SafeCfg} {W D : Type} `{DequeLaws W D}.

(** A loop whose rounds leave queue and futures as they were. *)
Lemma measured_run {T A : Type}
  (round : A → M (world (TaskRef T) D (futures T Z W) (event W (T + Z) Z)) Z)
  (cost : A → Z) (a : addr) rounds total count phase w :
  (∀ r, 0 ≤ cost r) →
  (∀ r count phase w, idle count phase (queue w) → ext w !! a = None →
     ∃ w', round r w = Done (cost r, w') ∧ idle (count + 1) (negb phase) (queue w') ∧ ext w' = ext w) →
  idle count phase (queue w) → ext w !! a = None → 0 ≤ total →
  ∃ w' phase', measured round rounds (Z.min duration_max total) w
      = Done (Z.min duration_max (total + total_of (cost <$> rounds)), w')
    ∧ idle (count + Z.of_nat (length rounds)) phase' (queue w') ∧ ext w' = ext w.
Proof.
  intros Hpos Hround. revert total count phase w.
  induction rounds as [|r rounds IH]; intros total count phase w Hidle Hfree Ht.
  - exists w, phase. simpl. rewrite !Z.add_0_r. done.
  - destruct (Hround r count phase w Hidle Hfree) as (w1 & Hr & Hidle1 & Hx1).
    destruct (IH (total + cost r) (count + 1) (negb phase) w1 Hidle1) as (w2 & phase' & Hm & Hidle2 & Hx2);
      [by rewrite Hx1|pose proof (Hpos r); lia|].
    exists w2, phase'. cbn [length fmap list_fmap total_of foldr measured].
    replace (count + Z.of_nat (S (length rounds))) with (count + 1 + Z.of_nat (length rounds)) by lia.
    split; [|split; [done|congruence]]. run_with Hr.
    assert (saturating_add (Z.min duration_max total) (cost r) = Z.min duration_max (total + cost r))
      as -> by (unfold saturating_add; pose proof (Hpos r); lia).
    rewrite Hm. do 3 f_equal. unfold total_of. lia.
Qed.
End measuring.

(** The three loops of [bench_tasks] always end, with the sum of what their rounds measured:
    from the reading before the task was enqueued to the reading of the batch, around
    [into_assignment], and from the reading of the batch to the value's arrival; the sum
    stops at the largest duration, a clock that goes back counts as zero, and the queue is
    ready for the next round. *)
Theorem bench_tasks_totals {C : QueueCfg} {HS : SafeCfg} {W D : Type} `{DequeLaws W D}
  `{NeedsDrop unit, NeedsDrop Z} (a : addr) (cx : W) (rounds : list (Z * Z)) count phase
  (w : world (TaskRef Z) D (futures Z Z W) (event W (Z + Z) Z))
  (u : world (TaskRef unit) D (futures unit Z W) (event W (unit + Z) Z)) :
  idle count phase (queue w) → ext w !! a = None →
  idle count phase (queue u) → ext u !! a = None →
  let sum := Z.min duration_max (total_of ((λ r, duration_since r.2 r.1) <$> rounds)) in
  (∃ w' phase', measured (enqueue_round a cx) rounds 0 w = Done (sum, w')
     ∧ idle (count + Z.of_nat (length rounds)) phase' (queue w') ∧ ext w' = ext w)
  ∧ (∃ u' phase', measured (into_assignment_round a cx) rounds 0 u = Done (sum, u')
     ∧ idle (count + Z.of_nat (length rounds)) phase' (queue u') ∧ ext u' = ext u)
  ∧ (∃ u' phase', measured (receive_round a cx) rounds 0 u = Done (sum, u')
     ∧ idle (count + Z.of_nat (length rounds)) phase' (queue u') ∧ ext u' = ext u).
Proof.
  intros Hw Hfw Hu Hfu sum. set (cost := λ r : Z * Z, duration_since r.2 r.1).
  assert (∀ r, 0 ≤ cost r) as Hpos by (intros r; unfold cost, duration_since; lia).
  change 0 with (Z.min duration_max 0). unfold sum. rewrite <- (Z.add_0_l (total_of _)).
  split; [|split]; apply (measured_run _ cost a rounds 0 count phase); try done.
  - intros [now batched_at] c p w0 Hidle Hfree.
    set (Q := EnqueueTimeQueue batched_at). set (f := λ t, duration_since batched_at t).
    assert (Resolves (W := W) (D := D) Q f) as HQ by (by apply handler_resolves).
    destruct (await_alone_run (Q := Q) (f := f) c p a cx now w0 Hidle Hfree) as (w' & Hr & Hrest).
    exists w'. split; [|done]. unfold enqueue_round. by run_with Hr.
  - intros [start stop] c p w0 Hidle Hfree.
    set (Q := AssignmentTimeQueue start stop). set (f := λ _ : unit, duration_since stop start).
    assert (Resolves (W := W) (D := D) Q f) as HQ.
    { apply handler_resolves; [done|]. intros ts. symmetry. by apply const_fmap. }
    destruct (await_alone_run (Q := Q) (f := f) c p a cx () w0 Hidle Hfree) as (w' & Hr & Hrest).
    exists w'. split; [|done]. unfold into_assignment_round. by run_with Hr.
  - intros [batched_at now] c p w0 Hidle Hfree.
    set (Q := ReceiveTimeQueue batched_at). set (f := λ _ : unit, batched_at).
    assert (Resolves (W := W) (D := D) Q f) as HQ.
    { apply handler_resolves; [done|]. intros ts. symmetry. by apply const_fmap. }
    destruct (await_alone_run (Q := Q) (f := f) c p a cx () w0 Hidle Hfree) as (w' & Hr & Hrest).
    exists w'. split; [|done]. unfold receive_round. by run_with Hr.
Qed.

(** * Batches in the background *)
Module Batching.
Import Gather Wakeups Collectors Background.

Section batching.
Context {C : QueueCfg} {D X : Type} {HD : Deque nat D} {HO : Oneshot Z X} {HN : NeedsDrop (Z * nat)}.
Abbreviation server := (server (T := Z * nat) (D := D) (X := X)).
Abbreviation job_world := (world (option (Z * nat)) D X (event nat (Z * nat) (job (Z * nat)))).

(** [tx.send(collected_at.duration_since(enqueued_at)).unwrap()] *)
Definition send_time (collected_at : Z) (task : Z * nat) (x : X) : X :=
  send task.2 (duration_since collected_at task.1) x.

Definition BackgroundTimerQueue (collected_at : Z) : BackgroundQueue (Z * nat) nat D X :=
  consume_batch (send_time collected_at).

(** The [map] over [0..batch_size]: [auto_batch] as long as there are tasks to send. *)
Fixpoint send_all (n : nat) (s : server) : option server :=
  match n with O => Some s | S n => s' ← auto_batch s; send_all n s' end.

(** [yield_now().await]: the jobs that are waiting run, once each. *)
Definition yield_now (collected_at : Z) (s : server) : option server :=
  foldl (λ s id, s ≫= run_job (B := BackgroundTimerQueue collected_at) id) (Some s)
    (elements (runnable s)).

(** One round: [enqueued] are the readings before each task, [tx] the first channel that was
    not used yet. The receivers but the first are dropped once the jobs have run. *)
Definition background_round (r : list Z * Z) (st : server * nat) : option (Z * (server * nat)) :=
  let '(enqueued, collected_at) := r in
  let '(s, tx) := st in
  let tasks := zip enqueued (seq tx (length enqueued)) in
  s1 ← send_all (length tasks) (mkServer tasks (jobs s) (next_job s) (runnable s) (s_world s));
  s2 ← yield_now collected_at s1;
  d ← received tx (ext (s_world s2));
  Some (d, (s2, (tx + length enqueued)%nat)).

Fixpoint background_rounds (rounds : list (list Z * Z)) (st : server * nat) (total : Z)
  : option (Z * (server * nat)) :=
  match rounds with
  | [] => Some (total, st)
  | r :: rounds =>
      x ← background_round r st; background_rounds rounds x.2 (saturating_add total x.1)
  end.
End batching.

Section rounds.
Context {C : QueueCfg} {HS : SafeCfg} {D X : Type} `{DequeLaws nat D} `{OneshotLaws Z X}
  {HN : NeedsDrop (Z * nat)}.
Abbreviation server := (server (T := Z * nat) (D := D) (X := X)).
Implicit Types (s : server) (ts : list (Z * nat)).

(** Between two rounds: nothing to send, no job, nobody parked, an idle queue. *)
Definition at_rest (count : Z) (phase : bool) s : Prop :=
  jobs s = ∅ ∧ runnable s = ∅ ∧ waits s = [] ∧ idle count phase (queue (s_world s)).

(** The tasks [ts] are in one open batch, whose job waits. *)
Definition sending (start : Z) (phase : bool) ts (x : X) s : Prop :=
  ∃ id, jobs s = {[id := Process (mkUnboundedRange (slot_word start phase))]}
    ∧ runnable s = {[id]} ∧ waits s = [] ∧ ext (s_world s) = x
    ∧ growing start phase ts (queue (s_world s)).

Lemma first_sent count phase t rest s :
  at_rest count phase s → unsent s = t :: rest →
  ∃ s', auto_batch s = Some s' ∧ unsent s' = rest ∧ sending count phase [t] (ext (s_world s)) s'.
Proof.
  intros (Hj & Hr & Hw & Hidle) Hu. destruct (push_first _ _ t _ Hidle) as (q' & Hp & Hg & Hpe).
  set (job := ProcessBatch (T := Z * nat) (mkUnboundedRange (slot_word count phase))).
  assert (background_process t (s_world s) = Done ((), mkWorld q' (ext (s_world s))
    (trace (s_world s) ++ [Spawned job]))) as Hb
    by (unfold background_process; by run_with (push_range_run t _ _ _ Hp)).
  pose proof (auto_batch_run _ _ _ _ _ Hu Hb eq_refl) as Ha. simpl in Ha.
  eexists. split; [exact Ha|]. split; [done|]. exists (next_job s). simpl.
  rewrite Hj, Hr, (left_id_L ∅ (∪)). split; [done|]. split; [done|].
  unfold waits. simpl. by rewrite Hpe.
Qed.

Lemma next_sent start phase ts t rest x s :
  sending start phase ts x s → unsent s = t :: rest → (1 ≤ length ts)%nat →
  start + Z.of_nat (length ts) < region_floor start + N →
  ∃ s', auto_batch s = Some s' ∧ unsent s' = rest ∧ sending start phase (ts ++ [t]) x s'.
Proof.
  intros (id & Hj & Hr & Hw & Hx & Hg) Hu Hne Hroom.
  destruct (push_next _ _ _ t _ Hg Hne Hroom) as (q' & Hp & Hg' & Hpe).
  assert (background_process t (s_world s) = Done ((), set_queue q' (s_world s))) as Hb
    by (unfold background_process; by run_with (push_range_run t _ _ _ Hp)).
  pose proof (auto_batch_run _ _ _ _ [] Hu Hb (eq_sym (app_nil_r _))) as Ha. simpl in Ha.
  eexists. split; [exact Ha|]. split; [done|]. exists id. simpl.
  split; [done|]. split; [done|]. unfold waits. simpl. by rewrite Hpe.
Qed.

Lemma rest_sent start phase ts rest x s :
  sending start phase ts x s → unsent s = rest → (1 ≤ length ts)%nat →
  start + Z.of_nat (length ts + length rest) ≤ region_floor start + N →
  ∃ s', send_all (length rest) s = Some s' ∧ sending start phase (ts ++ rest) x s'.
Proof.
  revert ts s. induction rest as [|t rest IH]; intros ts s Hs Hu Hne Hroom.
  - exists s. by rewrite app_nil_r.
  - simpl in Hroom. destruct (next_sent _ _ _ _ _ _ _ Hs Hu Hne) as (s1 & Ha & Hu1 & Hs1); [lia|].
    destruct (IH (ts ++ [t]) s1 Hs1 Hu1) as (s' & Hsend & Hs'); [rewrite length_app; simpl; lia..|].
    exists s'. simpl. rewrite Ha. simpl. by rewrite <- app_assoc in Hs'.
Qed.

Lemma yield_run collected_at start phase ts x s :
  sending start phase ts x s → (1 ≤ length ts)%nat →
  start + Z.of_nat (length ts) ≤ region_floor start + N → no_counter_wrap start ts →
  ∃ s', yield_now collected_at s = Some s'
    ∧ at_rest (start + Z.of_nat (length ts)) (negb phase) s'
    ∧ ext (s_world s') = foldl (flip (send_time collected_at)) x ts.
Proof.
  intros (id & Hj & Hr & Hw & Hx & Hg) Hne Hroom Hnw.
  pose proof (consume_batch_handles (W := nat) (D := D) (send_time (X := X) collected_at)) as HB.
  destruct (process_growing (B := BackgroundTimerQueue collected_at) (send_time collected_at)
    start phase phase ts (s_world s) Hg Hne Hroom Hnw)
    as (w' & evs & Hb & Hidle & Hext & Ht & Hwk & Hd).
  assert (wakeable region_size (s_world s) = []) as Hno
    by (unfold wakeable; fold (waits s); by rewrite Hw, take_nil).
  rewrite Hno in Hwk, Hd. simpl in Hd. fold (waits s) in Hd. rewrite Hw in Hd.
  assert (poll_job (B := BackgroundTimerQueue collected_at) id
    (Process (mkUnboundedRange (slot_word start phase))) (s_world s) = Done (None, w')) as Hp
    by (simpl; by run_with Hb).
  assert (jobs s !! id = Some (Process (mkUnboundedRange (slot_word start phase)))) as Hid
    by (rewrite Hj; apply lookup_singleton_eq).
  assert (id ∈ runnable s) as Hin by (rewrite Hr; by apply elem_of_singleton).
  pose proof (run_job_run id _ s _ _ _ Hid Hin Hp Ht) as Hrun.
  rewrite Hwk, Hr, Hj, delete_singleton_eq in Hrun.
  eexists. split; [unfold yield_now; rewrite Hr, elements_singleton; simpl; exact Hrun|].
  split; [|simpl; by rewrite Hext, Hx].
  split; [done|]. split; [by simpl; rewrite difference_diag_L, (left_id_L ∅ (∪))|]. split; [by unfold waits|done].
Qed.

(** The first receiver of a round gets what was sent for the first task. *)
Lemma first_received collected_at ts x v tx :
  NoDup (snd <$> ts) → (v, tx) ∈ ts →
  received tx (foldl (flip (send_time collected_at)) x ts)
    = Some (duration_since collected_at v).
Proof.
  intros Hnd Hin. set (timed := λ t : Z * nat, (duration_since collected_at t.1, t.2)).
  assert (foldl (flip (send_time collected_at)) x ts = foldl (flip send_value) x (timed <$> ts)) as ->.
  { clear. revert x. induction ts as [|t ts IH]; intros x; simpl; [done|]. by rewrite IH. }
  apply sends_arrive.
  - rewrite <- list_fmap_compose. exact Hnd.
  - apply list_elem_of_fmap. by exists (v, tx).
Qed.

Lemma background_round_run count phase enqueued collected_at s tx :
  at_rest count phase s → (1 ≤ length enqueued)%nat →
  Z.of_nat (length enqueued) ≤ N - region_size →
  0 ≤ count → count + Z.of_nat (length enqueued) < counter_modulus →
  ∃ s', background_round (enqueued, collected_at) (s, tx)
      = Some (duration_since collected_at (hd 0 enqueued), (s', (tx + length enqueued)%nat))
    ∧ at_rest (count + Z.of_nat (length enqueued)) (negb phase) s'.
Proof.
  intros Hrest Hne Hlen Hc Hm. destruct enqueued as [|v enqueued]; [simpl in Hne; lia|].
  set (ts := zip (v :: enqueued) (seq tx (length (v :: enqueued)))).
  assert (length ts = length (v :: enqueued)) as Hl
    by (unfold ts; rewrite length_zip_with, length_seq; lia).
  set (s0 := mkServer ts (jobs s) (next_job s) (runnable s) (s_world s)).
  pose proof (region_floor_bounds count) as Hfloor.
  destruct (first_sent count phase (v, tx) (zip enqueued (seq (S tx) (length enqueued))) s0)
    as (s1 & Ha & Hu1 & Hs1); [exact Hrest|done|].
  assert (ts = [(v, tx)] ++ zip enqueued (seq (S tx) (length enqueued))) as Hts by done.
  destruct (rest_sent _ _ _ _ _ _ Hs1 Hu1) as (s2 & Hsend & Hs2); [simpl; lia| |].
  { rewrite length_zip_with, length_seq, Nat.min_id. simpl in *. lia. }
  rewrite <- Hts in Hs2.
  destruct (yield_run collected_at _ _ _ _ _ Hs2) as (s3 & Hy & Hr3 & Hx3).
  { rewrite Hl. simpl. lia. }
  { rewrite Hl. lia. }
  { unfold no_counter_wrap. rewrite Hl, Z.mod_small by lia. done. }
  exists s3. rewrite <- Hl. split; [|done]. unfold background_round. rewrite Hl. fold ts. fold s0.
  assert (send_all (length ts) s0 = Some s2) as -> by (rewrite Hts; simpl; by rewrite Ha).
  simpl. rewrite Hy. simpl. rewrite Hx3, (first_received collected_at ts _ v tx); [done| |].
  - unfold ts. rewrite snd_zip; [apply NoDup_seq|rewrite length_seq; lia].
  - rewrite Hts. by left.
Qed.

Definition sent_in (rounds : list (list Z * Z)) : Z :=
  total_of ((λ r, Z.of_nat (length r.1)) <$> rounds).

Lemma background_rounds_run rounds total count phase s tx :
  at_rest count phase s → 0 ≤ total →
  Forall (λ r, 1 ≤ Z.of_nat (length r.1) ≤ N - region_size) rounds →
  0 ≤ count → count + sent_in rounds < counter_modulus →
  ∃ s' tx' phase',
    background_rounds rounds (s, tx) (Z.min duration_max total)
      = Some (Z.min duration_max
          (total + total_of ((λ r, duration_since r.2 (hd 0 r.1)) <$> rounds)), (s', tx'))
    ∧ at_rest (count + sent_in rounds) phase' s'.
Proof.
  revert total count phase s tx.
  induction rounds as [|[enqueued collected_at] rounds IH]; intros total count phase s tx Hrest Ht Hall Hc Hm.
  - exists s, tx, phase. unfold sent_in. simpl. rewrite !Z.add_0_r. done.
  - apply Forall_cons in Hall as [Hl Hall]. simpl in Hl.
    assert (sent_in ((enqueued, collected_at) :: rounds)
      = Z.of_nat (length enqueued) + sent_in rounds) as Hsum by done.
    assert (0 ≤ sent_in rounds) as Hpos.
    { apply total_nonneg, Forall_fmap, Forall_true. intros r. simpl. lia. }
    destruct (background_round_run count phase enqueued collected_at s tx Hrest) as (s1 & Hr & Hrest1);
      [lia..|].
    set (d := duration_since collected_at (hd 0 enqueued)) in *.
    assert (0 ≤ d) by (unfold d, duration_since; lia).
    destruct (IH (total + d) _ _ s1 (tx + length enqueued)%nat Hrest1)
      as (s' & tx' & phase' & Hrs & Hrest'); [lia|done|lia|lia|].
    exists s', tx', phase'. rewrite Hsum, Z.add_assoc. split; [|done].
    cbn [background_rounds]. rewrite Hr. cbn [mbind option_bind fst snd].
    assert (saturating_add (Z.min duration_max total) d = Z.min duration_max (total + d)) as ->
      by (unfold saturating_add; lia).
    rewrite Hrs, <- Z.add_assoc. done.
Qed.

(** Every round of the benchmark of the [BackgroundQueue] works as it is meant to: all tasks of
    a round join one batch, its job runs at the yield and sends to every channel while its
    receiver is still there, so that no [unwrap] panics; the first receiver gets the time
    from its reading to the reading of the batch, and the loop ends with the sum of
    these, at most the largest duration, with nothing left on the queue. This holds for
    rounds of at most a buffer less a region (the benchmark has 64 tasks and 1024 cells). *)
Theorem background_rounds_total rounds count phase s tx :
  at_rest count phase s → Forall (λ r, 1 ≤ Z.of_nat (length r.1) ≤ N - region_size) rounds →
  0 ≤ count → count + sent_in rounds < counter_modulus →
  ∃ s' tx' phase',
    background_rounds rounds (s, tx) 0
      = Some (Z.min duration_max (total_of ((λ r, duration_since r.2 (hd 0 r.1)) <$> rounds)), (s', tx'))
    ∧ at_rest (count + sent_in rounds) phase' s'.
Proof.
  intros Hrest Hall Hc Hm.
  destruct (background_rounds_run rounds 0 count phase s tx Hrest ltac:(lia) Hall Hc Hm)
    as (s' & tx' & phase' & Hr & Hrest').
  exists s', tx', phase'. by rewrite Z.add_0_l in Hr.
Qed.
End rounds.

(** A round of three tasks and one of two, on a buffer of 64 cells. *)
#[local] Instance timed_no_drop : NeedsDrop (Z * nat) := false.

Definition demo_rounds : list (list Z * Z) := [([100; 110; 120], 150); ([200; 190], 195)].
Definition demo_server : server (T := Z * nat) (D := list_deque nat) (X := gmap nat Z) :=
  mkServer [] ∅ 0 ∅ (mkWorld (@new_queue Futures.cfg _ _ _ _ None) ∅ []).

Lemma background_rounds_total_witness :
  ∃ s' tx' phase', background_rounds (C := Futures.cfg) demo_rounds (demo_server, 0%nat) 0
      = Some (50, (s', tx'))
    ∧ at_rest (C := Futures.cfg) 5 phase' s'.
Proof.
  refine (background_rounds_total (C := Futures.cfg) (HS := safe_cfg_64) demo_rounds 0 false
    demo_server 0%nat _ _ _ _); [by repeat split| |by vm_compute..].
  repeat constructor; by vm_compute.
Defined.
End Batching.

(** * [join_all] *)
Module Joining.
Import Gather Wakeups Producer Collectors Runtime.

Section joining.
Context {C : QueueCfg} {HS : SafeCfg} {D : Type} `{DequeLaws nat D} {HN : NeedsDrop Z}.

(** [join_all((0..*batch_size).map(EchoQueue::auto_batch))], before the first poll: the future of
    task [i] is at address [i]. *)
Definition numbers (batch_size : nat) : list Z := Z.of_nat <$> seq 0 batch_size.
Definition echo_tasks (batch_size : nat) : gmap addr Z := map_seq 0 (numbers batch_size).
Definition join_echo (batch_size : nat)
  (w : world (TaskRef Z) D (futures Z Z nat) (event nat (Z + Z) Z)) : runtime :=
  mkRuntime (dom (echo_tasks batch_size)) [] ∅ (set_ext (Unbatched <$> echo_tasks batch_size) w).

(** [join_all(.. Accumulator::batch_reduce(i as usize, |iter| iter.sum::<usize>()))] *)
Definition join_reduce {X : Type} (batch_size : nat) (w : world (option Z) D X (event nat Z (job Z)))
  : executor (R := Z) :=
  pool_of (λ t, ReduceUnbatched t (sum_reducer (X := X))) (numbers batch_size) w.

(** [join_all(.. Accumulator::batch_collect(i as usize))] *)
Definition join_collect {X : Type} (batch_size : nat) (w : world (option Z) D X (event nat Z (job Z)))
  : executor (R := list Z) :=
  pool_of CollectUnbatched (numbers batch_size) w.

(** The other rounds of [bench_batching]: however the executor polls the futures of a
    [join_all], it comes to an end, where the echoes are the numbers sent, the sums add up to the
    sum of all and the collected batches hold every number once. *)
Theorem joins_return {X : Type} batch_size count phase
  (w : world (TaskRef Z) D (futures Z Z nat) (event nat (Z + Z) Z))
  (u : world (option Z) D X (event nat Z (job Z))) :
  idle count phase (queue w) → deque_items (pending (queue w)) = [] →
  idle count phase (queue u) → deque_items (pending (queue u)) = [] →
  0 ≤ count → count + Z.of_nat batch_size < counter_modulus →
  (∀ s, rtc (Runtime.turn (Q := EchoQueue)) (join_echo batch_size w) s →
     sn (Runtime.turn (Q := EchoQueue)) s
     ∧ (nf (Runtime.turn (Q := EchoQueue)) s → results s = echo_tasks batch_size))
  ∧ (∀ s, rtc Collectors.turn (join_reduce batch_size u) s →
       pool_outcome (λ totals, usize_sum totals = usize_sum (numbers batch_size)) s)
  ∧ (∀ s, rtc Collectors.turn (join_collect batch_size u) s →
       pool_outcome (λ batches, concat batches ≡ₚ numbers batch_size) s).
Proof.
  intros Hw Hpw Hu Hpu Hc Hm.
  assert (length (numbers batch_size) = batch_size) as Hl
    by (unfold numbers; by rewrite length_fmap, length_seq).
  split; [|split]; intros s Hr.
  - assert (Resolves (W := nat) (D := D) EchoQueue id) as HQ by (by apply handler_resolves).
    destruct (runtime_finishes EchoQueue id (echo_tasks batch_size) (join_echo batch_size w) s)
      as (Hsn & _ & _ & Hend); [split_and!; try done; by exists count, phase|done|].
    split; [done|]. intros Hnf. destruct (Hend Hnf) as [_ ->]. apply map_fmap_id.
  - by apply (sums_finish (numbers batch_size) count phase u s); rewrite ?Hl.
  - by apply (collects_finish (numbers batch_size) count phase u s).
Qed.
End joining.
End Joining.

#[local] Instance unit_no_drop : NeedsDrop unit := false.
#[local] Instance time_no_drop : NeedsDrop Z := false.

Definition demo_times : world (TaskRef Z) (list_deque Z) (futures Z Z Z) (event Z (Z + Z) Z) :=
  mkWorld (@new_queue demo_cfg _ _ _ _ new_uninit) ∅ [].
Definition demo_units : world (TaskRef unit) (list_deque Z) (futures unit Z Z) (event Z (unit + Z) Z) :=
  mkWorld (@new_queue demo_cfg _ _ _ _ new_uninit) ∅ [].

Lemma bench_tasks_totals_witness :
  (∃ w' phase', measured (enqueue_round (C := demo_cfg) 0%nat 7) [(100, 130); (200, 190)] 0 demo_times
     = Done (30, w') ∧ idle (C := demo_cfg) 2 phase' (queue w') ∧ ext w' = ∅)
  ∧ (∃ u' phase', measured (into_assignment_round (C := demo_cfg) 0%nat 7) [(100, 130); (200, 190)] 0
       demo_units
     = Done (30, u') ∧ idle (C := demo_cfg) 2 phase' (queue u') ∧ ext u' = ∅)
  ∧ (∃ u' phase', measured (receive_round (C := demo_cfg) 0%nat 7) [(100, 130); (200, 190)] 0 demo_units
     = Done (30, u') ∧ idle (C := demo_cfg) 2 phase' (queue u') ∧ ext u' = ∅).
Proof.
  refine (bench_tasks_totals (C := demo_cfg) 0%nat 7 [(100, 130); (200, 190)] 0 false demo_times
    demo_units _ _ _ _); repeat split.
Defined.
