(* ===== verification/Channels.v ===== *)
(** The other channels of the benchmarks ([bencher/src/tokio.rs], [flume.rs], [crossbeam.rs]): an
    echo through a queue of numbers and senders, which a spawned job takes from.

    The unbounded channels of tokio and flume are the class [Channel]: what was sent and not
    received, oldest first. The deque of crossbeam is the class [Deque], the one-shot
    channels are the class [Oneshot] of [Background]; the channel of number [i] of a
    batch is channel [i]. *)
From S2P Require Import Prelude Deque Background Bench.

(** * Unbounded channels *)
Class Channel (A Q : Type) : Type := {
  unbounded : Q;
  chan_send : A → Q → Q;
  try_recv : Q → option (A * Q)
}.

Class ChannelLaws (A Q : Type) `{Channel A Q} : Type := {
  chan_items : Q → list A;
  unbounded_items : chan_items unbounded = [];
  send_items a q : chan_items (chan_send a q) = chan_items q ++ [a];
  recv_items q :
    match try_recv q with
    | Some (a, q') => chan_items q = a :: chan_items q'
    | None => chan_items q = []
    end
}.

#[export] Instance list_channel {A : Type} : Channel A (list A) := {
  unbounded := [];
  chan_send a q := q ++ [a];
  try_recv q := match q with [] => None | a :: q => Some (a, q) end
}.

#[export, refine] Instance list_channel_laws {A : Type} : ChannelLaws A (list A) := {
  chan_items q := q
}.
Proof. - done. - done. - by intros [|a q]. Defined.

Section reactor.
Context {Q X : Type} {HQ : Channel (nat * nat) Q} {HO : Oneshot nat X}.

(** [iter::from_fn(|| rx.try_recv().ok()).for_each(|(i, tx)| { tx.send(i).ok(); })], with fuel
    for every message. *)
Fixpoint drain (fuel : nat) (q : Q) (x : X) : option (Q * X) :=
  match fuel with
  | O => None
  | S fuel =>
      match try_recv q with
      | Some (task, q) => drain fuel q (send_value task x)
      | None => Some (q, x)
      end
  end.

(** A turn of the loop of [make_reactor]; [None]: it waits for a message. *)
Definition reactor_turn (fuel : nat) (q : Q) (x : X) : option (Q * X) :=
  match try_recv q with
  | Some (task, q) => drain fuel q (send_value task x)
  | None => None
  end.

(** The numbers whose [push_echo] was not polled yet, the channel, the one-shot channels. *)
Record echoes : Type := mkEchoes { unpushed : list nat; channel : Q; answers : X }.

(** [push_echo], up to its [await]. *)
Definition push_echo (i : nat) (q : Q) : Q := chan_send (i, i) q.

Inductive echo_step : echoes → echoes → Prop :=
| echo_push i rest q x : echo_step (mkEchoes (i :: rest) q x) (mkEchoes rest (push_echo i q) x)
| echo_react rest q x fuel q' x' :
    reactor_turn fuel q x = Some (q', x') → echo_step (mkEchoes rest q x) (mkEchoes rest q' x').

(** [join_all((0..*batch_size).map(push_echo))] *)
Definition echo_start (batch_size : nat) (x : X) : echoes :=
  mkEchoes (seq 0 batch_size) unbounded x.
End reactor.

Section echoed.
Context {Q X : Type} `{ChannelLaws (nat * nat) Q} `{OneshotLaws nat X}.
Implicit Types (q : Q) (x : X) (s : echoes (Q := Q) (X := X)).

Lemma drain_run fuel q x :
  length (chan_items q) < fuel →
  ∃ q', drain fuel q x = Some (q', foldl (flip send_value) x (chan_items q)) ∧ chan_items q' = [].
Proof.
  revert q x. induction fuel as [|fuel IH]; intros q x Hf; [lia|]. simpl.
  pose proof (recv_items q) as Hr. destruct (try_recv q) as [[task q']|].
  - rewrite Hr in *. simpl in *. apply IH. lia.
  - exists q. by rewrite Hr.
Qed.

Lemma drain_done fuel q x q' x' :
  drain fuel q x = Some (q', x') → x' = foldl (flip send_value) x (chan_items q) ∧ chan_items q' = [].
Proof.
  revert q x. induction fuel as [|fuel IH]; intros q x Hd; [done|]. simpl in Hd.
  pose proof (recv_items q) as Hr. destruct (try_recv q) as [[task q1]|].
  - rewrite Hr. by apply IH.
  - injection Hd as <- <-. by rewrite Hr.
Qed.

Lemma reactor_done fuel q x q' x' :
  reactor_turn fuel q x = Some (q', x') →
  x' = foldl (flip send_value) x (chan_items q) ∧ chan_items q' = [] ∧ chan_items q ≠ [].
Proof.
  unfold reactor_turn. pose proof (recv_items q) as Hr. destruct (try_recv q) as [[task q1]|]; [|done].
  intros [Hx Hq]%drain_done. by rewrite Hr.
Qed.

(** A message per number, in order. *)
Definition messages (k m : nat) : list (nat * nat) := (λ i, (i, i)) <$> seq k m.

Lemma answered k m x i :
  (∀ j, j < k → received j x = Some j) → i < k + m →
  received i (foldl (flip send_value) x (messages k m)) = Some i.
Proof.
  revert k x. induction m as [|m IH]; intros k x Hx Hi; [apply Hx; lia|].
  unfold messages. simpl. apply (IH (S k)); [|lia]. intros j Hj. unfold send_value. simpl.
  destruct (decide (j = k)) as [->|Hne]; [apply received_same|].
  rewrite received_other by done. apply Hx. lia.
Qed.

(** The numbers below [n] are answered, in the channel, or not pushed yet, in that order. *)
Definition echo_inv (n left : nat) s : Prop :=
  ∃ k m r, n = k + m + r ∧ left = 2 * r + m
    ∧ chan_items (channel s) = messages k m ∧ unpushed s = seq (k + m) r
    ∧ ∀ i, i < k → received i (answers s) = Some i.

Lemma echo_inv_step n left s s' :
  echo_inv n left s → echo_step s s' → ∃ left', left' < left ∧ echo_inv n left' s'.
Proof.
  intros (k & m & r & -> & -> & Hq & Hu & Hx) Hs.
  destruct Hs as [i rest q x|rest q x fuel q' x' Hr]; simpl in *.
  - destruct r as [|r]; [done|]. simpl in Hu. injection Hu as -> ->. exists (2 * r + S m). split; [lia|].
    exists k, (S m), r. split_and!; [lia|done| |simpl; by rewrite Nat.add_succ_r|done].
    simpl. unfold push_echo, messages. rewrite send_items, Hq, seq_S, fmap_app. done.
  - apply reactor_done in Hr as (-> & Hq' & Hne). rewrite Hq in *.
    destruct m as [|m]; [done|]. exists (2 * r). split; [lia|]. exists (k + S m), 0, r.
    split_and!; [lia|lia|done|by rewrite Nat.add_0_r|]. intros i Hi. by apply answered.
Qed.

(** The echo of the benchmarks of tokio and flume: however the turns of the reactor come between
    the pushes, every run ends, and then every receiver has got its number back. *)
Theorem echoes_return n x s :
  rtc echo_step (echo_start n x) s →
  sn echo_step s ∧ (nf echo_step s → ∀ i, i < n → received i (answers s) = Some i).
Proof.
  intros Hr. assert (∃ left, echo_inv n left s) as [left Hinv].
  { refine (rtc_invariant echo_step (λ s, ∃ left, echo_inv n left s) _ s _ _ Hr).
    - intros s1 s2 Hst [left Hi]. destruct (echo_inv_step _ _ _ _ Hi Hst) as (l' & _ & ?). eauto.
    - exists (2 * n + 0), 0, 0, n. split_and!; [lia|done|apply unbounded_items|done|lia]. }
  split; [by eapply (sn_by_measure echo_step (echo_inv n)); [intros ????; by eapply echo_inv_step|]|].
  intros Hnf i Hi. destruct s as [rest q y]. destruct Hinv as (k & m & r & -> & _ & Hq & Hu & Hx). simpl in *.
  destruct r as [|r]; [|destruct Hnf; simpl in Hu; subst rest; eexists; apply echo_push].
  destruct m as [|m]; [apply Hx; lia|]. destruct Hnf. pose proof (recv_items q) as Hrec.
  destruct (try_recv q) as [[task q']|] eqn:Ht; [|by rewrite Hrec in Hq].
  destruct (drain_run (S (length (chan_items q'))) q' (send_value task y)) as (q2 & Hd & _); [lia|].
  eexists. apply (echo_react _ _ _ (S (length (chan_items q')))). unfold reactor_turn. by rewrite Ht.
Qed.
End echoed.

(** * The deque *)
Section stealing.
Context {D X : Type} {HD : Deque (nat * nat) D} {HO : Oneshot nat X}.

(** The job that the first [push_echo] of a batch spawns: it steals until the deque is empty,
    and steals again when it is told to. *)
Fixpoint steal_all (fuel : nat) (d : D) (x : X) : option (D * X) :=
  match fuel with
  | O => None
  | S fuel =>
      match stealer_steal d with
      | (Success task, d) => steal_all fuel d (send_value task x)
      | (Retry, d) => steal_all fuel d x
      | (Empty, d) => Some (d, x)
      end
  end.

(** [push_echo] up to its [await], for every number of a batch; the job runs after them, on
    the one thread of the runtime. *)
Definition push_all (batch_size : nat) (d : D) : D :=
  foldl (λ d i, worker_push (i, i) d) d (seq 0 batch_size).
Definition steal_batch (fuel batch_size : nat) (d : D) (x : X) : option (D * X) :=
  steal_all fuel (push_all batch_size d) x.
End stealing.

Section stolen.
Context {D X : Type} `{DequeLaws (nat * nat) D} `{OneshotLaws nat X}.

Lemma steal_all_run fuel (d : D) (x : X) :
  length (deque_items d) + contention d < fuel →
  ∃ d', steal_all fuel d x = Some (d', foldl (flip send_value) x (deque_items d))
    ∧ deque_items d' = [].
Proof.
  revert d x. induction fuel as [|fuel IH]; intros d x Hf; [lia|]. simpl.
  pose proof (steal_items d) as Hs. destruct (stealer_steal d) as [[|task|] d'].
  - destruct Hs as [-> ?]. by exists d'.
  - destruct Hs as [Hi Hc]. rewrite Hi in *. simpl in *. apply IH. lia.
  - destruct Hs as [Hi Hc]. rewrite <- Hi in *. apply IH. lia.
Qed.

Lemma push_all_items n (d : D) :
  deque_items d = [] → deque_items (push_all n d) = messages 0 n.
Proof.
  intros Hd. unfold push_all, messages. induction n as [|n IH]; [done|].
  rewrite seq_S, foldl_app, fmap_app. simpl. by rewrite push_items, IH.
Qed.

(** The echo of the benchmark of crossbeam: with fuel for every task and every retry the job ends
    with an empty deque, and every receiver has got its number back. *)
Theorem stolen_echoes_return n fuel (d : D) (x : X) :
  deque_items d = [] → n + contention (push_all n d) < fuel →
  ∃ d' x', steal_batch fuel n d x = Some (d', x') ∧ deque_items d' = []
    ∧ ∀ i, i < n → received i x' = Some i.
Proof.
  intros Hd Hf. pose proof (push_all_items n d Hd) as Hi.
  destruct (steal_all_run fuel (push_all n d) x) as (d' & Hs & Hd').
  { rewrite Hi. unfold messages. rewrite length_fmap, length_seq. lia. }
  rewrite Hi in Hs. eexists d', _. split; [exact Hs|]. split; [done|].
  intros i Hlt. apply answered; [lia|done].
Qed.
End stolen.

(** * The one-shot channel alone ([bench_tasks] of [tokio.rs]) *)
Section oneshot.
Context {X : Type} `{OneshotLaws Z X}.
Local Open Scope Z_scope.

(** A spawned task sends a reading of the clock; [rx.await.unwrap().elapsed()]. The state has the
    number of the next channel. *)
Definition oneshot_round (r : Z * Z) : M (nat * X) Z := λ '(tx, x),
  let '(sent_at, now) := r in
  let x := send tx sent_at x in
  match received tx x with
  | Some at_ => Done (duration_since now at_, (S tx, x))
  | None => Undef unreachable_code
  end.

Theorem oneshot_rounds_total rounds tx (x : X) :
  ∃ st, measured oneshot_round rounds 0 (tx, x)
    = Done (Z.min duration_max (total_of ((λ r, duration_since r.2 r.1) <$> rounds)), st).
Proof.
  assert (∀ total, 0 ≤ total → ∃ st, measured oneshot_round rounds (Z.min duration_max total) (tx, x)
    = Done (Z.min duration_max (total + total_of ((λ r, duration_since r.2 r.1) <$> rounds)), st)) as Hgo.
  2:{ destruct (Hgo 0 ltac:(lia)) as [st Hst]. exists st. by rewrite Z.add_0_l in Hst. }
  revert tx x. induction rounds as [|[sent_at now] rounds IH]; intros tx x total Ht.
  - eexists. simpl. by rewrite Z.add_0_r.
  - set (d := duration_since now sent_at). assert (0 ≤ d) by (unfold d, duration_since; lia).
    destruct (IH (S tx) (send tx sent_at x) (total + d)) as [st Hst]; [lia|]. exists st.
    cbn [measured].
    assert (oneshot_round (sent_at, now) (tx, x) = Done (d, (S tx, send tx sent_at x))) as Hr
      by (simpl; by rewrite received_same).
    run_with Hr. assert (saturating_add (Z.min duration_max total) d = Z.min duration_max (total + d)) as ->
      by (unfold saturating_add; lia).
    rewrite Hst. do 3 f_equal. cbn [fmap list_fmap total_of foldr fst snd]. fold d. unfold total_of. lia.
Qed.
End oneshot.

(** * The sizes of the benchmark ([bench.rs]) *)
Definition batch_sizes : list nat := (λ n, Nat.pow 2 n) <$> seq 0 7.

Lemma echoes_return_witness :
  sn echo_step (echo_start (Q := list (nat * nat)) 64 (∅ : gmap nat nat)).
Proof. apply (echoes_return 64 ∅ (echo_start (Q := list (nat * nat)) 64 (∅ : gmap nat nat))). apply rtc_refl. Defined.

Lemma stolen_echoes_return_witness :
  Forall (λ n, ∃ d' x', steal_batch (n + 1) n ([], 0) (∅ : gmap nat nat) = Some (d', x')
    ∧ deque_items d' = [] ∧ ∀ i, i < n → received i x' = Some i) batch_sizes.
Proof.
  repeat constructor; refine (stolen_echoes_return _ _ ([], 0) ∅ _ _); by vm_compute.
Defined.
