(* ===== verification/Derive.v ===== *)
(** [derive-stack-queue], the attribute macro [local_queue]: what it accepts, what it
    rejects with which message, and the queue type it declares.

    Parsing is done by [darling] and [syn], which are parameters ([Syn]); the macro only
    looks at the self type, the path of the trait and the associated types of the
    parsed item. The limits on the size are those of the host the macro runs on. *)
From Stdlib Require Import String.
From stdpp Require Import strings.
From S2P Require Import Prelude Usize Helpers.
Local Open Scope Z_scope.

Inductive Variant : Type := VTaskQueue | VBackgroundQueue | VBatchReducer.

Record QueueOpt : Type := mkQueueOpt { buffer_size : Z }.

(** [Default for QueueOpt] *)
Definition queue_opt_default : QueueOpt := mkQueueOpt 1024.

(** The parts of [syn::ItemImpl] the macro reads. *)
Inductive ImplItem (ty : Type) : Type :=
| ImplType (ident : string) (t : ty)
| ImplOther.
Arguments ImplType {_} _ _.
Arguments ImplOther {_}.

Record ItemImpl (ty attr : Type) : Type := mkItemImpl {
  attrs : list attr;
  self_ty : ty;
  trait_ : option (list string);
  items : list (ImplItem ty)
}.
Arguments mkItemImpl {_ _} _ _ _ _.
Arguments attrs {_ _} _.
Arguments self_ty {_ _} _.
Arguments trait_ {_ _} _.
Arguments items {_ _} _.

Class Syn (tokens meta ty attr : Type) : Type := {
  parse_meta_list : tokens → result (list meta) string;
  parse_item_impl : tokens → result (ItemImpl ty attr) string;
  queue_opt_from_list : QueueOpt → list meta → result QueueOpt string
}.

(** [#buffer_cell] and the expansion: the item without its attributes and the
    [LocalQueue] implementation for its type. *)
Inductive buffer_cell_ty (ty : Type) : Type :=
| TaskRefOf (queue : ty)
| BufferCellOf (task : ty).
Arguments TaskRefOf {_} _.
Arguments BufferCellOf {_} _.

Record expansion (ty attr : Type) : Type := mkExpansion {
  exp_input : ItemImpl ty attr;
  exp_cell : buffer_cell_ty ty;
  exp_len : Z
}.
Arguments mkExpansion {_ _} _ _ _.
Arguments exp_input {_ _} _.
Arguments exp_cell {_ _} _.
Arguments exp_len {_ _} _.

Section macro.
Context {tokens meta ty attr : Type} `{Syn tokens meta ty attr}.
Variable host : target.

Definition host_max_buffer_len : Z := match host with T64 => 2 ^ 32 - 1 | T32 => 2 ^ 16 - 1 end.
Definition host_min_buffer_len : Z := 64.

(** The message is kept without its formatted number. *)
Definition check_buffer_size (size : Z) : result unit string :=
  if host_max_buffer_len <? size then Err "buffer_size must not exceed"%string
  else if size <? host_min_buffer_len then Err "buffer_size must be at least"%string
  else if negb (size =? next_power_of_two (pointer_width host) size)
  then Err "buffer_size must be a power of 2"%string
  else Ok ().

Definition variant_of (path : option (list string)) : option Variant :=
  match path with
  | Some segments =>
      if decide (segments = ["stack_queue"; "TaskQueue"]%string
                 ∨ segments = ["TaskQueue"]%string) then Some VTaskQueue
      else if decide (segments = ["stack_queue"; "BackgroundQueue"]%string
                      ∨ segments = ["BackgroundQueue"]%string) then Some VBackgroundQueue
      else if decide (segments = ["stack_queue"; "BatchReducer"]%string
                      ∨ segments = ["BatchReducer"]%string) then Some VBatchReducer
      else None
  | None => None
  end.

(** The first associated type named [Task]. *)
Fixpoint find_task (its : list (ImplItem ty)) : option ty :=
  match its with
  | [] => None
  | ImplType ident t :: its => if decide (ident = "Task"%string) then Some t else find_task its
  | ImplOther :: its => find_task its
  end.

Definition buffer_cell (v : Variant) (ident task : ty) : buffer_cell_ty ty :=
  match v with
  | VTaskQueue => TaskRefOf ident
  | VBackgroundQueue => BufferCellOf task
  | VBatchReducer => BufferCellOf task
  end.

Definition local_queue (args input : tokens) : result (expansion ty attr) string :=
  match parse_meta_list args with
  | Err e => Err e
  | Ok attr_args =>
      match parse_item_impl input with
      | Err e => Err e
      | Ok input =>
          let input := mkItemImpl [] (self_ty input) (trait_ input) (items input) in
          let ident := self_ty input in
          match queue_opt_from_list queue_opt_default attr_args with
          | Err e => Err e
          | Ok opt =>
              match check_buffer_size (buffer_size opt) with
              | Err e => Err e
              | Ok _ =>
                  match variant_of (trait_ input) with
                  | None =>
                      Err "must be used on TaskQueue, BackgroundQueue or BatchReducer impl"%string
                  | Some variant =>
                      match find_task (items input) with
                      | None => Err "missing `Task` in implementation"%string
                      | Some task =>
                          Ok (mkExpansion input (buffer_cell variant ident task) (buffer_size opt))
                      end
                  end
              end
          end
      end
  end.
End macro.

Section facts.
Context {tokens meta ty attr : Type} `{Syn tokens meta ty attr}.

Lemma check_buffer_size_ok host n :
  check_buffer_size host n = Ok () ↔ @buffer_len_ok (Build_QueueCfg host n) = true.
Proof.
  unfold check_buffer_size, buffer_len_ok. rewrite !andb_true_iff, Z.eqb_eq, !Z.leb_le.
  unfold host_min_buffer_len, MIN_BUFFER_LEN.
  assert (host_max_buffer_len host = @MAX_BUFFER_LEN (Build_QueueCfg host n)) as -> by by destruct host.
  unfold usize_bits. cbn [cfg_target N].
  destruct (Z.ltb_spec (@MAX_BUFFER_LEN (Build_QueueCfg host n)) n); [split; [done|lia]|].
  destruct (Z.ltb_spec n 64); [split; [done|lia]|].
  destruct (Z.eqb_spec n (next_power_of_two (pointer_width host) n)); simpl; [|by split; [|tauto]].
  split; [|done]. intros _. repeat split; [done|lia|lia].
Qed.

(** The sizes that pass: the powers of two from 64 on, below [2^32] or [2^16]. *)
Lemma check_buffer_size_pow2 host n :
  0 ≤ n →
  check_buffer_size host n = Ok ()
  ↔ ∃ k, 6 ≤ k < (match host with T64 => 32 | T32 => 16 end) ∧ n = 2 ^ k.
Proof.
  intros Hn. unfold check_buffer_size, host_min_buffer_len.
  assert (host_max_buffer_len host = 2 ^ (match host with T64 => 32 | T32 => 16 end) - 1) as ->
    by by destruct host.
  set (b := match host with T64 => 32 | T32 => 16 end).
  assert (6 < b < pointer_width host) as [Hb Hw] by (unfold b; destruct host; cbn; lia).
  split.
  - destruct (Z.ltb_spec (2 ^ b - 1) n) as [|Hmax]; [done|].
    destruct (Z.ltb_spec n 64) as [|Hmin]; [done|].
    destruct (Z.eqb_spec n (next_power_of_two (pointer_width host) n)) as [Hp|]; [|done]. intros _.
    assert (2 ^ b < 2 ^ pointer_width host) by (apply Z.pow_lt_mono_r; lia).
    destruct (next_power_of_two_fixed (pointer_width host) n) as (k & Hk & ->); [lia|split; lia|done|].
    exists k. split; [|done]. change 64 with (2 ^ 6) in Hmin.
    split; [apply (Z.pow_le_mono_r_iff 2); lia|apply (Z.pow_lt_mono_r_iff 2); lia].
  - intros (k & [Hk Hk'] & ->).
    assert (2 ^ 6 ≤ 2 ^ k) by (apply Z.pow_le_mono_r; lia). change (2 ^ 6) with 64 in *.
    assert (2 ^ k < 2 ^ b) by (apply Z.pow_lt_mono_r; lia).
    rewrite (proj2 (Z.ltb_ge _ _)), (proj2 (Z.ltb_ge _ _)) by lia.
    by rewrite next_power_of_two_pow2, Z.eqb_refl by lia.
Qed.

(** The item names the trait, with or without the name of the crate. *)
Definition implements (name : string) (input : ItemImpl ty attr) : Prop :=
  trait_ input = Some [name] ∨ trait_ input = Some ["stack_queue"; name]%string.

(** [task] is the first of its associated types named [Task]. *)
Definition task_type (input : ItemImpl ty attr) (task : ty) : Prop :=
  ∃ before after, items input = before ++ ImplType "Task" task :: after
    ∧ ∀ t, ImplType "Task" t ∉ before.

Lemma variant_of_spec (input : ItemImpl ty attr) v :
  variant_of (trait_ input) = Some v ↔
  implements (match v with
              | VTaskQueue => "TaskQueue" | VBackgroundQueue => "BackgroundQueue"
              | VBatchReducer => "BatchReducer"
              end) input.
Proof.
  unfold implements, variant_of. destruct (trait_ input) as [l|]; [|split; [done|naive_solver]].
  repeat case_decide; destruct v; split; intros Hx; naive_solver.
Qed.

Lemma find_task_spec (input : ItemImpl ty attr) task :
  find_task (items input) = Some task ↔ task_type input task.
Proof.
  unfold task_type. induction (items input) as [|[ident t|] its IH]; simpl.
  - split; [done|]. by intros ([|] & ? & ? & _).
  - case_decide as Hid.
    + subst. split; [intros [= ->]; exists [], its; split; [done|by intros ? ?%elem_of_nil]|].
      intros ([|x before] & after & [= ? ?] & Hno); [by simplify_eq|].
      subst x. destruct (Hno t). by left.
    + rewrite IH. split; intros (before & after & Heq & Hno).
      * exists (ImplType ident t :: before), after. split; [by rewrite Heq|].
        intros t' [Heq'|Hin]%elem_of_cons; [congruence|by eapply Hno].
      * destruct before as [|x before]; simpl in Heq; [congruence|]. injection Heq as <- ->.
        exists before, after. split; [done|]. intros t' Hin. apply (Hno t'). by right.
  - rewrite IH. split; intros (before & after & Heq & Hno).
    + exists (ImplOther :: before), after. split; [by rewrite Heq|].
      intros t' [|Hin]%elem_of_cons; [done|by eapply Hno].
    + destruct before as [|x before]; simpl in Heq; [congruence|]. injection Heq as <- ->.
      exists before, after. split; [done|]. intros t' Hin. apply (Hno t'). by right.
Qed.

(** C34. For arguments and an item that parse, the macro expands exactly when the size is a
    power of two from 64 on that fits the host, the item has an associated type named
    [Task], and it implements one of the three queue traits, named with or without the
    crate. It then declares, beside the item without its attributes, a queue of that size,
    whose cells are references to the tasks of the type itself for a [TaskQueue], and plain
    tasks of the first type named [Task] for a [BackgroundQueue] or a [BatchReducer].
    Otherwise it gives an error. *)
Theorem local_queue_expands_iff host args toks attr_args input opt e :
  parse_meta_list args = Ok attr_args → parse_item_impl toks = Ok input →
  queue_opt_from_list queue_opt_default attr_args = Ok opt → 0 ≤ buffer_size opt →
  local_queue host args toks = Ok e ↔
  (∃ k, 6 ≤ k < (match host with T64 => 32 | T32 => 16 end) ∧ buffer_size opt = 2 ^ k)
  ∧ exp_input e = mkItemImpl [] (self_ty input) (trait_ input) (items input)
  ∧ exp_len e = buffer_size opt
  ∧ ∃ task, task_type input task
      ∧ (implements "TaskQueue" input ∧ exp_cell e = TaskRefOf (self_ty input)
         ∨ (implements "BackgroundQueue" input ∨ implements "BatchReducer" input)
           ∧ exp_cell e = BufferCellOf task).
Proof.
  intros Ha Hi Ho Hn. pose proof (check_buffer_size_pow2 host _ Hn) as Hc.
  setoid_rewrite <- Hc. setoid_rewrite <- find_task_spec. pose proof (variant_of_spec input) as Hv.
  unfold local_queue. rewrite Ha, Hi, Ho. cbn [trait_ items self_ty].
  destruct (check_buffer_size host (buffer_size opt)) as [[]|]; [|split; [done|naive_solver]].
  split.
  - destruct (variant_of (trait_ input)) as [v|]; [|done].
    destruct (find_task (items input)) as [task|]; [|done]. intros [= <-].
    split_and!; [done..|]. exists task. split; [done|]. specialize (proj1 (Hv v) eq_refl).
    destruct v; simpl; auto.
  - intros (_ & Hin & Hlen & task & -> & Hcase).
    destruct e as [inp cell len]. cbn [exp_input exp_cell exp_len] in *. subst.
    destruct Hcase as [[Himp ->]|[[Himp|Himp] ->]].
    + by rewrite (proj2 (Hv VTaskQueue) Himp).
    + by rewrite (proj2 (Hv VBackgroundQueue) Himp).
    + by rewrite (proj2 (Hv VBatchReducer) Himp).
Qed.

(** The default size is admissible on every host. *)
Theorem default_size_admissible host :
  @buffer_len_ok (Build_QueueCfg host (buffer_size queue_opt_default)) = true.
Proof. by destruct host; vm_compute. Qed.

(** The macro measures the size against the host: a size that a 64-bit host accepts
    can exceed the limit of a 32-bit target, where only the debug assertion of
    [StackQueue::default] is left to catch it. *)
Theorem cross_compiled_size_unchecked :
  check_buffer_size T64 (2 ^ 20) = Ok ()
  ∧ @buffer_len_ok (Build_QueueCfg T64 (2 ^ 20)) = true
  ∧ @buffer_len_ok (Build_QueueCfg T32 (2 ^ 20)) = false.
Proof. by vm_compute. Qed.
End facts.

(** A parser for the witness: the tokens of the arguments are the size, if any. *)
Local Instance toy_syn : Syn (option Z) Z string string := {
  parse_meta_list t := Ok (match t with Some n => [n] | None => [] end);
  parse_item_impl _ :=
    Ok (mkItemImpl ["doc"%string] "Echo"%string (Some ["TaskQueue"%string])
      [ImplOther; ImplType "Task"%string "usize"%string; ImplType "Value"%string "bool"%string]);
  queue_opt_from_list opt l := Ok (match l with n :: _ => mkQueueOpt n | [] => opt end)
}.

Lemma local_queue_expands_iff_witness :
  local_queue T64 (Some 2048) (Some 0) = Ok (mkExpansion
    (mkItemImpl [] "Echo"%string (Some ["TaskQueue"%string])
      [ImplOther; ImplType "Task"%string "usize"%string; ImplType "Value"%string "bool"%string])
    (TaskRefOf "Echo"%string) 2048).
Proof.
  refine (proj2 (local_queue_expands_iff (H := toy_syn) T64 (Some 2048) (Some 0) [2048] _
    (mkQueueOpt 2048) _ eq_refl eq_refl eq_refl _) _); [done|].
  split; [by exists 11|]. split; [done|]. split; [done|]. exists "usize"%string. split.
  - exists [ImplOther], [ImplType "Value"%string "bool"%string]. split; [done|].
    intros t Hin. apply list_elem_of_singleton in Hin. discriminate Hin.
  - left. split; [by left|done].
Defined.
