(* ===== verification/Limits.v ===== *)
(** The limits of the occupancy word and of waking: how large regions, 32-bit targets
    and a badly timed release defeat them. The theorems of [Safety] hold below these
    limits ([SafeCfg]); here is what the code does beyond. *)
From S2P Require Import Prelude Usize Helpers Occupancy Deque Queue Ranges Protocol Schedule.
Local Open Scope Z_scope.

(** * Slots *)
Section slots.
Context {C : QueueCfg} {HV : ValidCfg}.

(** Whatever a slot word holds, adding one task moves its index to the next cell,
    and from the last cell to the first, also across the wrap of the word: the indices
    loop over [0 .. N - 1] because [N] divides the modulus of the counter. It does not
    divide [usize::MAX], of which the comment speaks. *)
Theorem slot_index_cycles s :
  in_range usize_bits s →
  slot_index (wrapping_add usize_bits s (shl usize_bits 1 INDEX_SHIFT)) = (slot_index s + 1) mod N
  ∧ (2 ^ usize_bits - 1) mod N = N - 1.
Proof.
  intros Hs. pose proof INDEX_SHIFT_bounds. pose proof usize_bits_shift.
  pose proof (pow2_pos INDEX_SHIFT). pose proof counter_modulus_pos. pose proof N_ge_64.
  split.
  - unfold slot_index. rewrite !land_N, !shr_div, shl_mul by lia.
    rewrite Z.mul_1_l, (wrap_small _ (2 ^ INDEX_SHIFT))
      by (split; [lia|apply Z.pow_lt_mono_r; lia]).
    unfold wrapping_add, wrap. rewrite pow_usize_bits, (Z.mul_comm counter_modulus).
    rewrite Z.rem_mul_r by lia. rewrite (Z.mul_comm (2 ^ INDEX_SHIFT)), Z.div_add by lia.
    rewrite (Z.div_small (_ mod _)) by (apply Z.mod_pos_bound; lia). rewrite Z.add_0_l.
    replace (s + 2 ^ INDEX_SHIFT) with (s + 1 * 2 ^ INDEX_SHIFT) by lia.
    rewrite Z.div_add by lia. rewrite mod_counter_mod_N.
    by rewrite Zplus_mod_idemp_l.
  - rewrite pow_usize_bits, N_divides_counter. set (k := 2 ^ (INDEX_SHIFT - log_N)).
    replace (N * k * 2 ^ INDEX_SHIFT - 1) with (N - 1 + (k * 2 ^ INDEX_SHIFT - 1) * N) by ring.
    rewrite Z.mod_add by lia. apply Z.mod_small. lia.
Qed.
End slots.

Lemma slot_index_cycles_witness :
  @slot_index (cfg32 64)
    (wrapping_add 32 (2 ^ 32 - 1) (shl 32 1 16)) = (@slot_index (cfg32 64) (2 ^ 32 - 1) + 1) mod 64
  ∧ (2 ^ 32 - 1) mod 64 = 63.
Proof.
  exact (@slot_index_cycles (cfg32 64) eq_refl (2 ^ 32 - 1) ltac:(split; by vm_compute)).
Defined.

(** * Overflow of a region's counter *)
Section overflow.
Context {C : QueueCfg} {HV : ValidCfg} {cell D : Type}.
Implicit Types q : StackQueue cell D.

(** On 64-bit targets a region that gets its 256th live batch reads as free again,
    on either copy of the word. For the first seven regions the count is carried into
    the next one, where the owner is then refused, as the comment in [occupy_region]
    says; for the last region the carry leaves the word and nothing refuses. *)
Theorem overflowing_region_reads_free index index' q :
  cfg_target = T64 → 0 ≤ index < N → 0 ≤ index' < N →
  current_region index' = current_region index →
  0 ≤ occupancy (inner q) < 2 ^ 64 →
  lane (current_region index) (occupancy (inner q)) = 255 →
  ∃ q1, occupy_region index q = Done ((), q1)
    ∧ check_regional_occupancy index' q1 = Done (Ok (), q1)
    ∧ (∀ i, 0 ≤ i < N → current_region i = current_region index + 1 →
         lane (current_region i) (occupancy (inner q)) < 255 →
         check_regional_occupancy i q1 = Done (Err queue_full, q1)).
Proof.
  intros HT Hi Hi' Hreg Ho H255. eexists. split; [apply occupy_region_run|].
  set (q1 := occupied index q). pose proof (current_region_range _ Hi) as Hr.
  assert (REGION_COUNT = 8) as HR by (unfold REGION_COUNT; by rewrite HT).
  assert (usize_bits = 64) as Hu by (unfold usize_bits; by rewrite HT).
  set (o := occupancy (inner q)) in *. set (r := current_region index) in *.
  set (o1 := occupancy (inner q1)).
  assert (o1 = (o + 2 ^ (8 * r)) mod 2 ^ 64) as Ho1.
  { unfold o1, q1. simpl. rewrite one_shifted_pow, HR by done. unfold wrapping_add, wrap.
    by rewrite Hu. }
  assert (sq_occupancy q1 = o1) as Hso by done.
  assert (set_sq_occupancy o1 q1 = q1) as Hset by (by unfold q1, o1).
  assert (∀ k, 0 ≤ k < 8 → lane k o1 = lane k (o + 2 ^ (8 * r))) as Hl.
  { intros k Hk. rewrite Ho1. by apply lane_wrap. }
  destruct (lane_overflow_carries r o ltac:(lia) H255) as [Hz Hc].
  assert (∀ i, 0 ≤ i < N → (Z.land o1 (region_mask i) =? 0) = (lane (current_region i) o1 =? 0))
    as Htest.
  { intros i Hin. rewrite region_mask_pow, HR by done. apply lane_mask_test.
    pose proof (current_region_range _ Hin). lia. }
  split.
  - rewrite check_regional_occupancy_run, Hso, Htest, Hreg, Hl, Hz by lia. done.
  - intros i Hin Hir Hlt. rewrite Hir in Hlt. pose proof (current_region_range _ Hin).
    rewrite check_regional_occupancy_run, Hso, Htest, Hir, Hl, Hc by lia.
    pose proof (lane_bounds (r + 1) o).
    rewrite (proj2 (Z.eqb_neq _ _)) by lia. fold o1. rewrite Htest, Hir, Hl, Hc by lia.
    rewrite (proj2 (Z.eqb_neq _ _)) by lia. by rewrite Hset.
Qed.
End overflow.

Definition overflow_cfg : QueueCfg := cfg64 2048.

Lemma overflowing_region_reads_free_witness :
  let q := mkStackQueue (@slot_word overflow_cfg 0 true) 0
    (mkInner (@slot_word overflow_cfg 0 false) (255 * 2 ^ 48) (@nil Z)) () in
  ∃ q1, occupy_region (C := overflow_cfg) 1537 q = Done ((), q1)
    ∧ check_regional_occupancy (C := overflow_cfg) 1536 q1 = Done (Ok (), q1)
    ∧ (∀ i, 0 ≤ i < 2048 → @current_region overflow_cfg i = 7 →
         lane (@current_region overflow_cfg i) (255 * 2 ^ 48) < 255 →
         check_regional_occupancy (C := overflow_cfg) i q1 = Done (Err queue_full, q1)).
Proof.
  intros q. exact (overflowing_region_reads_free (C := overflow_cfg) (HV := eq_refl) 1537 1536 q
    eq_refl ltac:(cbn; lia) ltac:(cbn; lia) eq_refl ltac:(split; by vm_compute) eq_refl).
Defined.

(** ** A lap over 256 live batches of the last region

    The buffer has 2048 cells, regions 256. The first seven regions are used and
    released; then every task of the last region becomes a bounded batch of its own,
    none of which is released; then one open batch takes the tasks of a whole lap. *)
Section lap.
Local Existing Instance overflow_cfg.
Abbreviation lap_world := (world (option Z) (list_deque Z) unit (event Z Z unit)).

Definition must_push (t : Z) : M lap_world unit :=
  r ← on_queue (push t);
  match r with Ok _ => mret () | Err _ => undef unreachable_code end.

Definition bound_from (start : Z) : M lap_world BoundedRange :=
  into_bounded (mkUnboundedRange (slot_word start false)).

(** Returns what the first batch of the last region shows before and after the lap. *)
Definition overflow_lap : M lap_world (list Z * list Z) :=
  for_each (seqZ 0 1792) must_push ;;
  (first ← bound_from 0; to_vec first) ;;
  must_push 1792 ;;
  batch ← bound_from 1792;
  for_each (seqZ 1793 255) (λ t, must_push t ;; bound_from t ;; mret ()) ;;
  before ← iter batch;
  for_each (seqZ 2048 1793) must_push ;;
  after ← iter batch;
  mret (before, after).

(** C38. On a 64-bit target with a buffer of 2048 cells the overflow is reached by pushes
    and bounds alone, and lets a task be overwritten in a batch that was never
    released: its guard shows task 1792 first and task 3840 a lap later. *)
Theorem last_region_overflow_overwrites :
  ∃ w, overflow_lap (mkWorld (new_queue None) () []) = Done (([1792], [3840]), w).
Proof.
  assert (match overflow_lap (mkWorld (new_queue None) () []) with
          | Done (r, _) => r = ([1792], [3840])
          | _ => False
          end) as Hr by by vm_compute.
  destruct (overflow_lap _) as [[r w]| |]; [|done..]. exists w. by rewrite Hr.
Qed.
End lap.

(** * 32-bit targets *)
Section narrow.
Context {C : QueueCfg} {HV : ValidCfg} {cell D : Type}.
Implicit Types q : StackQueue cell D.

(** On 32-bit targets the counters of the regions are 4 bits apart while their masks
    are 8 bits wide (the comments say 8 bits per region): a single live batch makes the
    region before its own read occupied, so that a push into a free region is
    refused. *)
Theorem narrow_regions_overlap index index' q :
  cfg_target = T32 → 0 ≤ index < N → 0 ≤ index' < N →
  current_region index = current_region index' + 1 →
  occupancy (inner q) = one_shifted index → sq_occupancy q = one_shifted index →
  check_regional_occupancy index' q = Done (Err queue_full, q).
Proof.
  intros HT Hi Hi' Hreg Ho Hso.
  assert ((Z.land (one_shifted index) (region_mask index') =? 0) = false) as Ht.
  { rewrite one_shifted_pow, region_mask_pow, Hreg by done.
    pose proof (current_region_range _ Hi) as Hr. pose proof (current_region_range _ Hi') as Hr'.
    rewrite Hreg in Hr. assert (REGION_COUNT = 4) as HR by (unfold REGION_COUNT; by rewrite HT).
    rewrite HR in *. set (r := current_region index') in *.
    assert (r = 0 ∨ r = 1 ∨ r = 2) as [-> |[-> | ->]] by lia; done. }
  rewrite check_regional_occupancy_run, Hso, Ht, Ho, Ht. rewrite <- Hso. by destruct q.
Qed.
End narrow.

Lemma narrow_regions_overlap_witness :
  let q := mkStackQueue 0 16 (mkInner 0 16 (@nil Z)) () in
  check_regional_occupancy (C := cfg32 64) 0 q = Done (Err queue_full, q).
Proof.
  intros q. exact (narrow_regions_overlap (C := cfg32 64) (HV := eq_refl) 16 0 q eq_refl
    ltac:(cbn; lia) ltac:(cbn; lia) eq_refl eq_refl eq_refl).
Defined.

(** * A waker parked too late

    The buffer is one full batch. The owner is refused; before it parks its waker, the
    batch is bounded and released and the releasing guard finds nobody to wake. *)
Definition parked_cfg : QueueCfg := cfg64 64.

Definition parked_schedule : list (action (option Z) Z) :=
  push_beginning 0 0 ++ concat ((λ v, push_joining (Z.of_nat v)) <$> seq 1 63)
  ++ [Owner (Some 64) 7 0; Bound 0; Release 0; WakeNext 0; Owner (Some 64) 7 0].

(** C39. A refused future can park its waker after the last release looked for wakers: the
    queue is then idle, no batch is live, no guard is left to wake anybody, and the waker
    stays parked until some other task is pushed and its batch released. *)
Theorem refused_waker_can_be_stranded :
  ∃ s : @demo_sys parked_cfg, @reachable parked_cfg _ _ _ _ None s
    ∧ sys_pc s = Idle ∧ sys_guards s = ∅ ∧ occupancy (inner (sys_queue s)) = 0
    ∧ deque_items (pending (sys_queue s)) = [7]
    ∧ Woke 7 ∉ sys_trace s.
Proof.
  edestruct (@demo_run_reachable parked_cfg parked_schedule (λ s,
    sys_pc s = Idle ∧ sys_guards s = ∅ ∧ occupancy (inner (sys_queue s)) = 0
    ∧ deque_items (pending (sys_queue s)) = [7] ∧ sys_trace s = [Began 0])) as (s & Hs & Hp).
  { vm_compute. by repeat split. }
  destruct Hp as (Hi & Hg & Ho & Hd & Ht). exists s. rewrite Ht.
  repeat (split; [assumption|]). by intros [? | []%elem_of_nil]%elem_of_cons.
Qed.
